(* ===== verification/_CoqProject ===== *)
-Q . S2P
Prelude.v
Lag.v
LagRead.v
Lease.v
Gate.v
Admission.v
AbortList.v
Track.v
Lifetime.v
LoopSync.v
Prog.v
Net.v
Accept.v
Session.v
System.v
Shutdown.v
Finish.v
Server.v
Calls.v
Events.v
Udp.v
UdpRun.v
Tls.v
Echo.v
Bench.v
BenchLoad.v
EchoServer.v
