(* ===== verification/Prelude.v ===== *)
(** * A verification of the reactor server runtime

    The program is a header-only C++20 runtime for network servers on Asio: [TcpServer] runs N
    reactors, each an [io_context] driven by one thread, accepts connections under a bound and
    runs one coroutine, the session, per connection; [UdpServer] runs one datagram loop; timers,
    a cross-thread signal, a lag probe and TLS configuration come with it. All of it is under
    src/, each header one to one with files here.

    ** How the parts interact

    [TcpServer] (src/reactor.h) owns the reactors. An accept loop takes a connection, asks
    [ConnectionAdmission] (src/connection_admission.h) for a lease, takes a ticket in the
    session count of the reactor it chose and launches the session there, through a post when
    that is another loop. A running session is tracked on its reactor's intrusive abort list.
    [stop()] asks each reactor to abort what is tracked ([abort_all], through [on_loop_sync]),
    ends the accept loops, waits a grace for the sessions, forces what is left ([force_all]),
    waits once more, stops the loops and joins the threads; [close()] and [destroy_roots()]
    follow. [AdmissionGate] is a per-reactor counter the application may use.

    ** The files

    - Prelude: wrap-around integers, sums over lists, labelled machines ([reachable], [exec],
      [invariant_rule]) and the runs of chosen moves that lead them somewhere ([leads]), error codes and exceptions, the hint database and tactics.
    - Lag (src/reactor_lag.h): [LagSnapshot], the log-linear histogram and its percentile
      reader over IEEE doubles; [LagProbe], the self re-arming timer and its one-slot
      allocator.
    - LagRead: [LagProbe::snapshot] load by load between the writes of [tick].
    - Lease (both Lease classes): construction, moves and resets of admissions.
    - Gate: [AdmissionGate::try_enter] and [leave] as single atomic accesses of any number of
      threads, at the width of [int].
    - Admission: [ConnectionAdmission::try_enter] as the accesses of its compare-and-exchange
      loops; an atomic specification it refines; [ConnectionStats].
    - AbortList: [Abortable] and [AbortList] on an explicit heap of nodes; the sequences they
      stand for; iterations whose callbacks change the list.
    - Track: [Reactor::track], [untrack], [abort_all], [force_all], written once over a class
      of memories and run on the heap and on sequences.
    - Lifetime: [RunScope] and [inside_run]; the member order [ReactorLayout] pins.
    - LoopSync: [Reactor::on_loop_sync], [claim_loop] and [release_loop] at the grain of their
      mutexes, atomics and condition variable.
    - Prog: the state and exception monad of the sequential parts, with the equivalence of
      programs and the invariants they keep.
    - Net: endpoints, [BindOptions], errno numbers of Linux and macOS.
    - Accept: [retryable_accept_error], [per_connection_accept_error], [AcceptControl] and both
      accept loops over their suspension points and reads of [stopping]; the logging hook
      [L_EXC] (src/reactor_trace.h) is an argument of [finish], and may throw.
    - Session: [SessionTicket], [SessionControl], [run_session], [launch_session],
      [shutdown_connection] and the session side of [Reactor], against the class [Bound] of
      connection bounds, which [ConnectionAdmission] instantiates.
    - System: the accept loops a server starts and the sessions they launch, as one machine,
      and what [connection_stats] reports of it.
    - Shutdown: the thread that calls [stop], [close] and [destroy_roots], call by call against
      that machine, which runs on meanwhile.
    - Finish: the runs that lead such a shutdown to its end.
    - Server: [TcpServer]: construction and setters, [start] with every failure path, [stop],
      [close], [destroy_roots].
    - Calls: the calls the thread of Shutdown makes, against those of Server.
    - Events (src/reactor_events.h): [PeriodicTimer] with overtaking re-arms; [Signal].
    - Udp (src/reactor_udp.h): [UdpServer]: options, buffer sizing, startup, the loop's thread,
      the receive loop, sending, the phases, and the reports through [L_EXC].
    - UdpRun: a running [UdpServer]: the loop's thread, the receive loop and the posted abort on
      it, and the thread that calls the phases, as one machine.
    - Tls (src/reactor_tls.h): [configure] and [bind_hostname].
    - Echo (src/examples/echo_server.cc): the echo session over its reads and writes; the port
      argument of [main] and the signals it waits for.
    - Bench (src/benchmarks/echo_bench.cc): a client of the echo session with the two byte
      streams between them; the sums of the load and the verdict.
    - BenchLoad: the arguments of the benchmark and the threads of a whole load.
    - EchoServer: the server of Shutdown with the sessions of Echo, as one machine.

    Concurrent code is a function [step : state -> label -> option state]: a label is one
    atomic access, one section under a lock or one handler run, and theorems are about every
    schedule. Sequential code is a program of [Prog] that records the calls it makes in order;
    what the outside answers is an environment the theorems quantify over.

    ** What the theorems show

    - Admission, Gate, Lease: counts are exact in every interleaving and bounds are never
      exceeded; the optimistic loops are one atomic admission each and finish alone in seven
      steps; statistics are exact at rest.
    - AbortList, Track: the pointer code does what the sequences do and follows no bad pointer;
      iterations end and visit what they should; shutdown reaches every tracked abortable,
      once for [abort()]. [nested_each_dangles] is a case where a nested iteration leaves a
      dangling cursor.
    - LoopSync: the function runs exactly once, on the loop or on the caller, and every call
      returns.
    - Accept, Session, System, Server: every connection is accounted for on every way it can go,
      handed over exactly once, its admission returned once, and counted in the statistics;
      waits end exactly when they should; the retry policy; bounded stop; phases in any order;
      a failed start leaves nothing running; shutdown reaches every session.
    - Shutdown, Finish, Calls: when [stop] has seen its waits out nothing is left, or each session
      left was asked and then forced; a destroyed server has ended every connection and holds
      no admission; and from every state the shutdown can go on to its end with nobody
      connecting and no session ending by itself; the calls on the way are the sequential
      program's.
    - Events, Udp, Lag, Tls: timers fire for the last arming only; signals coalesce and are
      served; datagrams are delivered in order; the loop's thread survives exceptions; the
      percentile reader is right at its rank, and snapshots taken while the loop runs are torn
      by at most the wake being recorded, with differences that never wrap; a configured TLS
      context is hardened, verifies by role and uses a checked key; host names are bound whole.
    - UdpRun: every phase of a [UdpServer] returns, also when the loop is stopped before the abort
      posted to it ran; each phase finds what it relies on; and until a stop the server stays on.
    - Echo, Bench, BenchLoad: what is sent comes back, byte for byte, and the benchmark counts it so.
    - EchoServer: the same of every session of a whole server; and such a server can always be
      stopped with no client's help and no frame destroyed: sessions that read end by their token,
      sessions stalled in a write end once they are forced.
    - [finish_hook] and [signal_needs_main] are cases where a throwing hook blocks [stop] and
      where a signal kills the example before it stops its server.

    ** Bounds and fuel

    Integers keep their width ([wrap64], [wrap32], [wrap_i32]); theorems that need a counter
    not to wrap say so (fewer than 2^64 connections or timer operations). [AbortList.each] runs
    on fuel: the number of tracked nodes is enough, which [each_visits] proves, and Track gives
    it the size of the heap. [Udp.size_down] runs on 64 rounds of halving: a 64-bit size is
    below 256 KiB before that, which [size_buffers_halve] uses. Everything else is structural.

    ** Not modelled

    Asio, the task library, OpenSSL, the kernel and the C++ memory model are not under src/:
    they are labels, environment answers or arguments, and accesses are sequentially
    consistent. A session's own protocol (but for the echo one), the setters of callbacks and
    the accessors that return references or a field are the application's or carry no state. Allocation
    failure is modelled where the code handles it (launching a session, spawning, starting
    threads, the lag probe's slot) and nowhere else. Of the benchmark, the plain server it
    compares with, its timings and what it prints are left out. The owner of a [UdpServer] calls
    its phases from a thread other than the loop's, one at a time, and starts it once. Licences,
    includes, namespaces, deleted copies and declarations without a body make up the rest of the
    lines; src/test only calls the library. *)

From stdpp Require Export base gmap list numbers strings.
Open Scope Z_scope.

(** ** Machine integers *)

Definition u64_max : Z := 2 ^ 64 - 1.

(** [uint64_t] and [size_t] arithmetic: modulo 2^64. *)
Definition wrap64 (z : Z) : Z := z `mod` 2 ^ 64.

(** [unsigned] arithmetic: modulo 2^32. *)
Definition wrap32 (z : Z) : Z := z `mod` 2 ^ 32.

(** [std::atomic<int>] arithmetic: two's complement, wrapping. *)
Definition wrap_i32 (z : Z) : Z := (z + 2 ^ 31) `mod` 2 ^ 32 - 2 ^ 31.

Create HintDb reactor.

Lemma wrap64_small z : 0 ≤ z < 2 ^ 64 → wrap64 z = z.
Proof. intros. unfold wrap64. by rewrite Z.mod_small. Qed.

Lemma wrap64_range z : 0 ≤ wrap64 z ≤ u64_max.
Proof. unfold wrap64, u64_max. pose proof (Z.mod_pos_bound z (2 ^ 64)). lia. Qed.

Lemma wrap64_add z k : wrap64 (wrap64 z + k) = wrap64 (z + k).
Proof. unfold wrap64. by rewrite Zplus_mod_idemp_l. Qed.

Lemma wrap64_sub z k : wrap64 (wrap64 z - k) = wrap64 (z - k).
Proof. apply (wrap64_add z (- k)). Qed.

Lemma wrap32_small z : 0 ≤ z < 2 ^ 32 → wrap32 z = z.
Proof. intros. unfold wrap32. by rewrite Z.mod_small. Qed.

Lemma wrap_i32_small z : - 2 ^ 31 ≤ z < 2 ^ 31 → wrap_i32 z = z.
Proof. intros. unfold wrap_i32. rewrite Z.mod_small; lia. Qed.

Lemma wrap_i32_add z k : wrap_i32 (wrap_i32 z + k) = wrap_i32 (z + k).
Proof.
  unfold wrap_i32.
  replace ((z + 2 ^ 31) `mod` 2 ^ 32 - 2 ^ 31 + k + 2 ^ 31)
    with ((z + 2 ^ 31) `mod` 2 ^ 32 + k) by lia.
  rewrite Zplus_mod_idemp_l. do 2 f_equal. lia.
Qed.

Lemma wrap_i32_sub z k : wrap_i32 (wrap_i32 z - k) = wrap_i32 (z - k).
Proof. apply (wrap_i32_add z (- k)). Qed.

(** ** Sums over lists *)

(** The sum of [f] over a list: how many of the threads, leases or sessions of a
    store are in some state. *)
Definition total {A} (f : A → Z) (l : list A) : Z :=
  foldr (λ x acc, f x + acc) 0 l.

(** One when the test holds, zero otherwise. *)
Definition bit (b : bool) : Z := if b then 1 else 0.

Section total.
Context {A : Type}.
Implicit Types (f g : A → Z) (l : list A).

Lemma total_app f l1 l2 : total f (l1 ++ l2) = total f l1 + total f l2.
Proof. induction l1 as [|x l1 IH]; simpl; lia. Qed.

Lemma total_snoc f l x : total f (l ++ [x]) = total f l + f x.
Proof. rewrite total_app. simpl. lia. Qed.

Lemma total_insert f l i x y :
  l !! i = Some x → total f (<[i:=y]> l) = total f l - f x + f y.
Proof.
  revert i. induction l as [|z l IH]; intros [|i] Hi; simplify_eq/=; [lia|].
  rewrite (IH i Hi). lia.
Qed.

Lemma total_delete f l i x : l !! i = Some x → total f (delete i l) = total f l - f x.
Proof.
  revert i. induction l as [|z l IH]; intros [|i] Hi; simplify_eq/=; [lia|].
  rewrite (IH i Hi). lia.
Qed.

Lemma total_fmap_le f (w : A → A) l k :
  (∀ x, f (w x) ≤ f x + k) → 0 ≤ k →
  total f (w <$> l) ≤ total f l + k * Z.of_nat (length l).
Proof.
  intros Hg Hk. induction l as [|x l IH]; cbn [length total foldr fmap list_fmap]; [lia|].
  rewrite Nat2Z.inj_succ, Z.mul_succ_r. pose proof (Hg x). unfold total in IH. lia.
Qed.

Lemma total_fmap f (w : A → A) l : (∀ x, f (w x) = f x) → total f (w <$> l) = total f l.
Proof.
  intros Hw. induction l as [|x l IH]; [done|]. change (f (w x) + total f (w <$> l) = f x + total f l).
  by rewrite Hw, IH.
Qed.

Lemma total_pos f l : (∀ x, 0 ≤ f x) → 0 < total f l → ∃ i x, l !! i = Some x ∧ 0 < f x.
Proof.
  intros Hf. induction l as [|x l IH]; simpl; intros Hp; [lia|].
  destruct (decide (0 < f x)) as [|Hx]; [by exists 0%nat, x|].
  destruct IH as (i & y & Hi & Hy); [pose proof (Hf x); lia|]. by exists (S i), y.
Qed.

Lemma total_nonneg f l : (∀ x, 0 ≤ f x) → 0 ≤ total f l.
Proof.
  intros Hf. induction l as [|x l IH]; simpl; [done|]. pose proof (Hf x). lia.
Qed.

Lemma total_nonneg_elem f l : (∀ x, x ∈ l → 0 ≤ f x) → 0 ≤ total f l.
Proof.
  induction l as [|x l IH]; simpl; intros Hf; [done|].
  pose proof (Hf x ltac:(left)). enough (0 ≤ total f l) by lia.
  apply IH. intros y Hy. apply Hf. by right.
Qed.

Lemma total_ge f l i x : (∀ y, 0 ≤ f y) → l !! i = Some x → f x ≤ total f l.
Proof.
  intros Hf. revert i. induction l as [|z l IH]; intros [|i] Hi; simplify_eq/=.
  - pose proof (total_nonneg f l Hf). lia.
  - pose proof (Hf z). pose proof (IH i Hi). lia.
Qed.

Lemma total_le_length f l : (∀ x, f x ≤ 1) → total f l ≤ Z.of_nat (length l).
Proof.
  intros Hf. induction l as [|x l IH]; simpl; [done|]. pose proof (Hf x). lia.
Qed.

Lemma total_add f g l : total (λ x, f x + g x) l = total f l + total g l.
Proof. induction l as [|x l IH]; simpl; lia. Qed.

Lemma total_ext f g l : (∀ x, x ∈ l → f x = g x) → total f l = total g l.
Proof.
  induction l as [|x l IH]; simpl; intros Hfg; [done|].
  rewrite (Hfg x) by left. rewrite IH; [done|]. intros y Hy. apply Hfg. by right.
Qed.

Lemma total_le f g l : (∀ x, x ∈ l → f x ≤ g x) → total f l ≤ total g l.
Proof.
  induction l as [|x l IH]; simpl; intros Hfg; [done|].
  pose proof (Hfg x (list_elem_of_here _ _)). assert (total f l ≤ total g l); [|lia].
  apply IH. intros y Hy. apply Hfg. by apply list_elem_of_further.
Qed.

Lemma total_replicate f n x : total f (replicate n x) = Z.of_nat n * f x.
Proof. induction n as [|n IH]; simpl; lia. Qed.

Lemma total_zero f l : (∀ x, x ∈ l → f x = 0) → total f l = 0.
Proof.
  intros Hf. rewrite (total_ext f (λ _, 0) l Hf). clear Hf.
  induction l; simpl; lia.
Qed.

Lemma total_0_inv f l : (∀ x, 0 ≤ f x) → total f l = 0 → ∀ x, x ∈ l → f x = 0.
Proof.
  intros Hf H0 x [i Hi]%list_elem_of_lookup_1.
  pose proof (total_ge f l i x Hf Hi). pose proof (Hf x). lia.
Qed.
(** Numbers whose sum reaches its bound are all at theirs. *)
Lemma total_bound f l m :
  (∀ x, x ∈ l → f x ≤ m) → total f l ≤ m * Z.of_nat (length l).
Proof.
  induction l as [|x l IH]; intros Hle; [simpl; lia|].
  pose proof (Hle x ltac:(left)).
  assert (total f l ≤ m * Z.of_nat (length l)) by (apply IH; intros; apply Hle; by right).
  change (total f (x :: l)) with (f x + total f l). simpl length. lia.
Qed.

Lemma total_full f l m :
  (∀ x, x ∈ l → f x ≤ m) → (total f l = m * Z.of_nat (length l) ↔ ∀ x, x ∈ l → f x = m).
Proof.
  induction l as [|x l IH]; intros Hle; [simpl; split; [by intros _ x ?%not_elem_of_nil|lia]|].
  pose proof (Hle x ltac:(left)) as Hx. assert (Hl : ∀ y, y ∈ l → f y ≤ m) by (intros; apply Hle; by right).
  pose proof (total_bound f l m Hl). specialize (IH Hl).
  change (total f (x :: l)) with (f x + total f l). simpl length. split.
  - intros Ht y [->|Hy]%elem_of_cons; [lia|]. apply IH; [lia|done].
  - intros Hall. rewrite (Hall x ltac:(left)), (proj2 IH); [lia|]. intros y Hy. apply Hall. by right.
Qed.

End total.

Lemma Forall_elem {A} (P : A → Prop) l x : Forall P l → x ∈ l → P x.
Proof.
  induction 1 as [|y l Hy _ IH]; intros Hx; [by apply elem_of_nil in Hx|].
  apply elem_of_cons in Hx as [->|]; auto.
Qed.

Lemma elem_insert {A} (l : list A) (r : nat) (p q : A) : p ∈ <[r := q]> l → p = q ∨ p ∈ l.
Proof.
  intros [j Hj]%list_elem_of_lookup_1. apply list_lookup_insert_Some in Hj as [(_ & -> & _)|[_ Hj]].
  - by left.
  - right. by eapply list_elem_of_lookup_2.
Qed.

Lemma filter_all {A} (P : A → Prop) `{∀ x, Decision (P x)} (l : list A) :
  (∀ x, x ∈ l → P x) → filter P l = l.
Proof.
  induction l as [|x l IH]; intros HP; [done|].
  rewrite filter_cons_True by (apply HP; left). f_equal. apply IH.
  intros y Hy. apply HP. by right.
Qed.

(** Two ways to split a list without duplicates at the same element agree. *)
Lemma split_unique {A} (a : A) p1 q1 p2 q2 :
  NoDup (p1 ++ a :: q1) → p1 ++ a :: q1 = p2 ++ a :: q2 → p1 = p2 ∧ q1 = q2.
Proof.
  revert p2. induction p1 as [|x p1 IH]; intros [|y p2] Hnd Heq; simplify_eq/=; [done|..].
  - apply NoDup_cons in Hnd as [Hx _]. set_solver.
  - apply NoDup_cons in Hnd as [Hx _]. set_solver.
  - apply NoDup_cons in Hnd as [_ Hnd]. destruct (IH p2 Hnd) as [-> ->]; done.
Qed.

Lemma bit_nonneg b : 0 ≤ bit b.
Proof. by destruct b. Qed.
Lemma bit_le_1 b : bit b ≤ 1.
Proof. by destruct b. Qed.
#[export] Hint Resolve bit_nonneg bit_le_1 total_nonneg : reactor.

(** ** Step machines *)

(** A component that runs concurrently is a step function: given a state and a label
    (which thread moves and how the environment answers) it yields the next state, or
    [None] when that step is not enabled. *)
Section machine.
Context {S L : Type} (step : S → L → option S).

(** The states some schedule leads to. *)
Inductive reachable (init : S) : S → Prop :=
| reach_init : reachable init init
| reach_step s l s' : reachable init s → step s l = Some s' → reachable init s'.

(** Running a schedule. *)
Fixpoint exec (s : S) (ls : list L) : option S :=
  match ls with
  | [] => Some s
  | l :: ls => s' ← step s l; exec s' ls
  end.

Lemma exec_cons s l ls s' s'' : step s l = Some s' → exec s' ls = Some s'' → exec s (l :: ls) = Some s''.
Proof. intros Hs He. simpl. by rewrite Hs. Qed.

(** The runs that end in [t], by their first step. *)
Lemma exec_ind_l (Q : S → Prop) t :
  Q t → (∀ s l u, step s l = Some u → Q u → Q s) → ∀ ls s, exec s ls = Some t → Q s.
Proof.
  intros Ht Hl ls. induction ls as [|l ls IH]; intros s He; simpl in He; [by simplify_eq|].
  destruct (step s l) as [u|] eqn:Hu; [|done]. eauto.
Qed.

Lemma exec_app s ls1 ls2 : exec s (ls1 ++ ls2) = s' ← exec s ls1; exec s' ls2.
Proof.
  revert s. induction ls1 as [|l ls1 IH]; intros s; simpl; [done|].
  destruct (step s l); simpl; auto.
Qed.

Lemma exec_reachable_from init s ls s' :
  reachable init s → exec s ls = Some s' → reachable init s'.
Proof.
  revert s. induction ls as [|l ls IH]; intros s Hr He; simplify_eq/=; [done|].
  destruct (step s l) as [t|] eqn:Hst; simplify_eq/=.
  apply (IH t); [|done]. by apply (reach_step init s l).
Qed.

Lemma exec_reachable init ls s : exec init ls = Some s → reachable init s.
Proof. apply exec_reachable_from. constructor. Qed.

(** An invariant holds initially and is kept by every enabled step. *)
Lemma invariant_rule (I : S → Prop) init :
  I init → (∀ s l s', I s → step s l = Some s' → I s') →
  ∀ s, reachable init s → I s.
Proof. intros Hi Hs s. induction 1; eauto. Qed.
End machine.

(** ** Progress *)

Section progress.
Context {S L : Type} (step : S → L → option S) (ok : S → L → bool).

(** A machine that makes the moves of [ok] only. *)
Definition only (s : S) (l : L) : option S := if ok s l then step s l else None.

(** Some run of such moves comes from [s] to [Q]. *)
Definition leads (s : S) (Q : S → Prop) : Prop := ∃ ls t, exec only s ls = Some t ∧ Q t.

Lemma leads_now s (Q : S → Prop) : Q s → leads s Q.
Proof. intros Hq. by exists [], s. Qed.

Lemma leads_step s l t Q : ok s l = true → step s l = Some t → leads t Q → leads s Q.
Proof.
  intros Hok Hs (ls & u & He & Hu). exists (l :: ls), u. split; [|done].
  eapply exec_cons; [|done]. unfold only. by rewrite Hok.
Qed.

Lemma exec_only_reachable init s ls t :
  reachable step init s → exec only s ls = Some t → reachable step init t.
Proof.
  revert s. induction ls as [|l ls IH]; intros s Hg He; simpl in He; [by simplify_eq|].
  destruct (only s l) as [u|] eqn:Hu; [|done]. unfold only in Hu. destruct (ok s l); [|done].
  apply (IH u); [|done]. by eapply reach_step.
Qed.

Lemma leads_bind init s (Q R : S → Prop) :
  reachable step init s → leads s Q → (∀ t, reachable step init t → Q t → leads t R) → leads s R.
Proof.
  intros Hg (ls & t & He & Hq) Hr.
  destruct (Hr t (exec_only_reachable _ _ _ _ Hg He) Hq) as (ls' & u & He' & Hu).
  exists (ls ++ ls'), u. split; [|done]. by rewrite exec_app, He.
Qed.

(** What a measure that goes down comes to. *)
Lemma leads_measure init (f : S → Z) (I Q : S → Prop) :
  (∀ s, reachable step init s → I s → 0 ≤ f s) →
  (∀ s, reachable step init s → I s → Q s ∨ leads s (λ t, I t ∧ f t < f s)) →
  ∀ s, reachable step init s → I s → leads s Q.
Proof.
  intros Hpos Hdown s Hg Hi. remember (Z.to_nat (f s)) as k eqn:Hk.
  revert s Hk Hg Hi. induction k as [k IH] using lt_wf_ind. intros s -> Hg Hi.
  destruct (Hdown s Hg Hi) as [Hq|Hl]; [by apply leads_now|].
  eapply leads_bind; [done|exact Hl|]. intros t Ht [Hit Hlt].
  pose proof (Hpos s Hg Hi). pose proof (Hpos t Ht Hit). eapply IH; [|done|done|done]. lia.
Qed.
End progress.

(** ** Errors and exceptions *)

(** [asio::error_code]: a value in a category. *)
Inductive error_category :=
| system_category
| other_category (n : nat).

#[export] Instance error_category_eq_dec : EqDecision error_category.
Proof. solve_decision. Defined.

Record error_code := ErrorCode { ec_value : Z; ec_category : error_category }.

#[export] Instance error_code_eq_dec : EqDecision error_code.
Proof. solve_decision. Defined.

(** [error_code::operator bool]: a value other than zero. *)
Definition failed (e : error_code) : bool := negb (ec_value e =? 0).

(** [asio::error_code{}]. *)
Definition no_error : error_code := ErrorCode 0 system_category.

(** The exceptions the library throws or lets pass. *)
Inductive exn :=
| invalid_argument (what : string)
| logic_error (what : string)
| runtime_error (what : string)
| system_error (e : error_code)
| bad_alloc
| other_exception (n : nat).

(** A call that returns a value or throws. *)
Inductive result (A : Type) :=
| Returns (a : A)
| Throws (e : exn).
Arguments Returns {A} a.
Arguments Throws {A} e.

Definition result_bind {A B} (m : result A) (k : A → result B) : result B :=
  match m with Returns a => k a | Throws e => Throws e end.

Declare Scope reactor_scope.
Delimit Scope reactor_scope with reactor.
Notation "'let!' x ':=' m 'in' k" := (result_bind m (λ x, k))
  (at level 10, x name, m at level 100, k at level 200)
  : reactor_scope.
Open Scope reactor_scope.

(** ** Tactics *)

(** Case analysis on every match of a step's definition, keeping the equations. *)
Ltac step_cases :=
  repeat first [ progress simplify_eq/= | case_match | progress simplify_option_eq ].

(** Turns boolean tests in the context into their propositions. *)
Ltac reflect_bools :=
  repeat match goal with
  | H : (_ && _)%bool = true |- _ => apply andb_true_iff in H as [??]
  | H : (_ || _)%bool = false |- _ => apply orb_false_iff in H as [??]
  | H : (_ =? _) = true |- _ => apply Z.eqb_eq in H
  | H : (_ =? _) = false |- _ => apply Z.eqb_neq in H
  | H : (_ <? _) = true |- _ => apply Z.ltb_lt in H
  | H : (_ <? _) = false |- _ => apply Z.ltb_ge in H
  | H : (_ <=? _) = true |- _ => apply Z.leb_le in H
  | H : (_ <=? _) = false |- _ => apply Z.leb_gt in H
  | H : negb _ = true |- _ => apply negb_true_iff in H
  | H : negb _ = false |- _ => apply negb_false_iff in H
  end.
