(* ===== verification/Lag.v ===== *)
(** * reactor_lag.h: the lag probe

    [LagSnapshot] is the histogram of wake lateness (log2 microsecond buckets with four
    sub-buckets each) and its percentile reader; [LagProbe] is the self re-arming timer
    that fills it. *)

From Stdlib Require Import SpecFloat.
From S2P Require Import Prelude.

Module LagSnapshot.

(** ** The buckets *)

(** [4 + 30 * 4]. *)
Definition buckets : Z := 4 + 30 * 4.

(** The snapshot: one counter per bucket, the number of wakes, their sum and maximum. *)
Record t := Snapshot {
  count : list Z;
  wakes : Z;
  sum_us : Z;
  max_us : Z
}.

(** [LagSnapshot{}]. *)
Definition empty : t := Snapshot (replicate (Z.to_nat buckets) 0) 0 0 0.

(** The zero bits above the highest set bit among bits [n-1 .. 0] of [x]. *)
Fixpoint leading_zeros (n : nat) (x : Z) : Z :=
  match n with
  | O => 0
  | S n => if Z.testbit x (Z.of_nat n) then 0 else 1 + leading_zeros n x
  end.

(** [__builtin_clzll]. *)
Definition clzll (x : Z) : Z := leading_zeros 64 x.

Definition index_of (us : Z) : Z :=
  if us <? 4 then us
  else if Z.shiftl 1 32 <=? us then buckets - 1
  else
    let e := 63 - clzll us in
    let sub := Z.land (Z.shiftr us (e - 2)) 3 in
    4 + (e - 2) * 4 + sub.

Definition upper_us (i : Z) : Z :=
  if i <? 4 then i + 1
  else
    let k := i - 4 in
    let e := wrap32 (wrap32 (k `div` 4) + 2) in
    wrap64 (Z.shiftl (5 + k `mod` 4) (e - 2)).

Definition lower_us (i : Z) : Z := if i =? 0 then 0 else upper_us (i - 1).

(** ** Reading a percentile *)

(** [static_cast<double>(n)] for an unsigned 64-bit [n]: rounded to nearest even. *)
Definition double_of_u64 (n : Z) : spec_float := binary_normalize 53 1024 n 0 false.

(** [a * b] on doubles. *)
Definition double_mul (a b : spec_float) : spec_float := SFmul 53 1024 a b.

(** [static_cast<uint64_t>(x)]: truncation toward zero; [None] where the conversion is
    undefined (not a number, infinite, or out of range after truncation). *)
Definition u64_of_double (x : spec_float) : option Z :=
  match x with
  | S754_zero _ => Some 0
  | S754_finite s m e =>
      let z := Z.shiftl (Zpos m) e in
      if s then (if z =? 0 then Some 0 else None)
      else if z <=? u64_max then Some z else None
  | S754_infinity _ | S754_nan => None
  end.

(** The rank [quantile_upper_us] looks for: lines 81 to 83. *)
Definition rank (q : spec_float) (total : Z) : option Z :=
  let x := double_mul q (double_of_u64 total) in
  need ← u64_of_double x;
  let need := if SFltb (double_of_u64 need) x then wrap64 (need + 1) else need in
  Some (if need =? 0 then 1 else need).

(** The scan of lines 84 to 89, from bucket [i] with [seen] already counted. *)
Fixpoint scan (counts : list Z) (i seen need : Z) : Z :=
  match counts with
  | [] => upper_us (buckets - 1)
  | c :: counts =>
      let seen := wrap64 (seen + c) in
      if need <=? seen then upper_us i else scan counts (i + 1) seen need
  end.

(** [None] is an undefined conversion of the fraction to a rank. *)
Definition quantile_upper_us (q : spec_float) (s : t) : option Z :=
  let sum := foldl (λ acc c, wrap64 (acc + c)) 0 (count s) in
  if sum =? 0 then Some 0
  else need ← rank q sum; Some (scan (count s) 0 0 need).

Definition since (s earlier : t) : t :=
  Snapshot (zip_with (λ a b, wrap64 (a - b)) (count s) (count earlier))
           (wrap64 (wakes s - wakes earlier))
           (wrap64 (sum_us s - sum_us earlier))
           (max_us s).

(** What one wake of lateness [us] does to the counters (lines 186 to 189 of [tick]). *)
Definition record_wake (us : Z) (s : t) : t :=
  Snapshot (alter (λ c, wrap64 (c + 1)) (Z.to_nat (index_of us)) (count s))
           (wrap64 (wakes s + 1))
           (wrap64 (sum_us s + us))
           (if max_us s <? us then us else max_us s).

(** The counters after wakes of the given lateness, oldest first. *)
Definition snapshot_of (samples : list Z) : t :=
  foldl (λ s us, record_wake us s) empty samples.

(** The sum of a list. *)
#[local] Abbreviation sumZ := (total (λ c : Z, c)).

(** How many elements pass a test. *)
Definition tally {A} (p : A → bool) (l : list A) : Z := total (λ x, bit (p x)) l.

(** ** Bucket arithmetic *)

Lemma leading_zeros_log2 n x :
  0 < x < 2 ^ Z.of_nat n → leading_zeros n x = Z.of_nat n - 1 - Z.log2 x.
Proof.
  induction n as [|n IH]; intros [Hx Hlt]; [simpl in Hlt; lia|].
  cbn [leading_zeros]. rewrite Nat2Z.inj_succ, Z.pow_succ_r in Hlt by lia.
  destruct (Z.testbit x (Z.of_nat n)) eqn:Hb.
  - assert (Z.log2 x = Z.of_nat n) as ->; [|lia].
    apply Z.log2_unique; [lia|]. split; [|rewrite Z.pow_succ_r; lia].
    destruct (Z_lt_le_dec x (2 ^ Z.of_nat n)) as [H|H]; [|done].
    rewrite Z.bits_above_log2 in Hb; [done|lia|]. apply Z.log2_lt_pow2; lia.
  - rewrite IH; [lia|]. split; [done|].
    destruct (Z_lt_le_dec x (2 ^ Z.of_nat n)) as [H|H]; [done|].
    assert (Z.log2 x = Z.of_nat n) as Hl.
    { apply Z.log2_unique; [lia|]. split; [done|]. rewrite Z.pow_succ_r; lia. }
    rewrite <- Hl, Z.bit_log2 in Hb by lia. done.
Qed.

Lemma clzll_log2 x : 0 < x ≤ u64_max → 63 - clzll x = Z.log2 x.
Proof.
  unfold u64_max. intros. unfold clzll. rewrite leading_zeros_log2; [lia|].
  change (Z.of_nat 64) with 64. lia.
Qed.

(** The bucket of exponent [e] and leading digits [q] (100, 101, 110 or 111 in binary). *)
Definition bucket (e q : Z) : Z := 4 * (e - 2) + q.

Lemma upper_us_bucket e q :
  2 ≤ e ≤ 31 → 4 ≤ q ≤ 7 → upper_us (bucket e q) = (q + 1) * 2 ^ (e - 2).
Proof.
  intros He Hq. unfold upper_us, bucket. destruct (Z.ltb_spec (4 * (e - 2) + q) 4); [lia|].
  replace (4 * (e - 2) + q - 4) with (q - 4 + (e - 2) * 4) by lia.
  rewrite Z.div_add, Z.mod_add, Z.div_small, Z.mod_small by lia.
  rewrite (wrap32_small (0 + (e - 2))), wrap32_small by lia.
  replace (0 + (e - 2) + 2 - 2) with (e - 2) by lia.
  rewrite Z.shiftl_mul_pow2 by lia. rewrite wrap64_small; [f_equal; lia|].
  pose proof (Z.pow_le_mono_r 2 (e - 2) 29 ltac:(lia) ltac:(lia)).
  pose proof (Z.pow_pos_nonneg 2 (e - 2) ltac:(lia) ltac:(lia)). nia.
Qed.

Lemma lower_us_bucket e q :
  2 ≤ e ≤ 31 → 4 ≤ q ≤ 7 → lower_us (bucket e q) = q * 2 ^ (e - 2).
Proof.
  intros He Hq. unfold lower_us, bucket.
  destruct (Z.eqb_spec (4 * (e - 2) + q) 0); [lia|].
  destruct (decide (q = 4)) as [->|].
  - destruct (decide (e = 2)) as [->|]; [done|].
    replace (4 * (e - 2) + 4 - 1) with (bucket (e - 1) 7) by (unfold bucket; lia).
    rewrite upper_us_bucket by lia.
    replace (e - 2) with (Z.succ (e - 1 - 2)) by lia. rewrite Z.pow_succ_r; lia.
  - replace (4 * (e - 2) + q - 1) with (bucket e (q - 1)) by (unfold bucket; lia).
    rewrite upper_us_bucket by lia. f_equal. lia.
Qed.

Lemma index_of_bucket us :
  4 ≤ us < 2 ^ 32 →
  ∃ e q, 2 ≤ e ≤ 31 ∧ 4 ≤ q ≤ 7 ∧ index_of us = bucket e q ∧
         q * 2 ^ (e - 2) ≤ us < (q + 1) * 2 ^ (e - 2).
Proof.
  intros Hus. set (e := Z.log2 us).
  assert (2 ≤ e ≤ 31) as He.
  { split; [apply Z.log2_le_pow2; lia|]. cut (e < 32); [lia|]. apply Z.log2_lt_pow2; lia. }
  pose proof (Z.log2_spec us ltac:(lia)) as Hs. fold e in Hs.
  replace e with (Z.succ (Z.succ (e - 2))) in Hs at 1 2 by lia.
  rewrite !Z.pow_succ_r in Hs by lia.
  assert (0 < 2 ^ (e - 2)) as Hp by (apply Z.pow_pos_nonneg; lia).
  set (q := us `div` 2 ^ (e - 2)).
  assert (q * 2 ^ (e - 2) ≤ us < (q + 1) * 2 ^ (e - 2)) as Hq.
  { pose proof (Z.div_mod us (2 ^ (e - 2)) ltac:(lia)) as Hdm.
    pose proof (Z.mod_pos_bound us (2 ^ (e - 2)) Hp). fold q in Hdm. nia. }
  assert (4 ≤ q ≤ 7) as Hq4 by nia.
  exists e, q. split_and!; try done; try lia.
  unfold index_of, bucket.
  destruct (Z.ltb_spec us 4); [lia|].
  destruct (Z.leb_spec (Z.shiftl 1 32) us) as [Hge|_]; [change (Z.shiftl 1 32) with (2 ^ 32) in Hge; lia|].
  rewrite clzll_log2 by (unfold u64_max; lia). fold e.
  rewrite Z.shiftr_div_pow2 by lia. fold q.
  change 3 with (Z.ones 2). rewrite Z.land_ones by lia. change (2 ^ 2) with 4.
  assert (q `mod` 4 = q - 4); [|lia].
  replace q with (q - 4 + 1 * 4) at 1 by lia. rewrite Z.mod_add, Z.mod_small; lia.
Qed.

Lemma bucket_of i :
  4 ≤ i < buckets → ∃ e q, 2 ≤ e ≤ 31 ∧ 4 ≤ q ≤ 7 ∧ i = bucket e q.
Proof.
  unfold buckets, bucket. intros Hi. exists (i `div` 4 + 1), (i `mod` 4 + 4).
  pose proof (Z.div_mod i 4 ltac:(lia)). pose proof (Z.mod_pos_bound i 4 ltac:(lia)). lia.
Qed.

Lemma index_of_small us : us < 4 → index_of us = us.
Proof. unfold index_of. destruct (Z.ltb_spec us 4); lia. Qed.

Lemma index_of_large us : 2 ^ 32 ≤ us → index_of us = buckets - 1.
Proof.
  unfold index_of. change (Z.shiftl 1 32) with (2 ^ 32).
  destruct (Z.ltb_spec us 4); [lia|]. destruct (Z.leb_spec (2 ^ 32) us); [done|lia].
Qed.

Lemma upper_us_small i : i < 4 → upper_us i = i + 1.
Proof. unfold upper_us. destruct (Z.ltb_spec i 4); lia. Qed.

Lemma lower_us_small i : 0 ≤ i < 4 → lower_us i = i.
Proof.
  unfold lower_us. intros. destruct (Z.eqb_spec i 0); [lia|].
  rewrite upper_us_small; lia.
Qed.

Lemma lower_lt_upper i : 0 ≤ i < buckets → lower_us i < upper_us i.
Proof.
  intros Hi. destruct (Z_lt_le_dec i 4) as [H|H].
  - rewrite lower_us_small, upper_us_small by lia. lia.
  - destruct (bucket_of i) as (e & q & He & Hq & ->); [lia|].
    rewrite lower_us_bucket, upper_us_bucket by lia.
    pose proof (Z.pow_pos_nonneg 2 (e - 2) ltac:(lia) ltac:(lia)). lia.
Qed.

Lemma lower_us_succ i : 0 < i → lower_us i = upper_us (i - 1).
Proof. unfold lower_us. destruct (Z.eqb_spec i 0); [lia|done]. Qed.

Lemma upper_us_last : upper_us (buckets - 1) = 2 ^ 32.
Proof. reflexivity. Qed.

Lemma upper_us_mono i j : 0 ≤ i ≤ j → j < buckets → upper_us i ≤ upper_us j.
Proof.
  intros [Hi Hij] Hj. remember (Z.to_nat (j - i)) as n eqn:Hn.
  replace j with (i + Z.of_nat n) in * by lia. clear Hn Hij.
  induction n as [|n IH]; [rewrite Z.add_0_r; lia|].
  assert (upper_us (i + Z.of_nat n) < upper_us (i + Z.of_nat (S n))); [|lia].
  replace (i + Z.of_nat n) with (i + Z.of_nat (S n) - 1) by lia.
  rewrite <- lower_us_succ by lia. apply lower_lt_upper. lia.
Qed.

(** ** The counters of a sequence of wakes *)

(** A lateness the probe can record. *)
Definition sample (us : Z) : Prop := 0 ≤ us ≤ u64_max.

Lemma index_of_range us : sample us → 0 ≤ index_of us < buckets.
Proof.
  unfold sample. intros Hus. destruct (Z_lt_le_dec us 4).
  { rewrite index_of_small by done. unfold buckets. lia. }
  destruct (Z_lt_le_dec us (2 ^ 32)).
  - destruct (index_of_bucket us) as (e & q & He & Hq & -> & _); [lia|].
    unfold bucket, buckets. lia.
  - rewrite index_of_large by done. unfold buckets. lia.
Qed.

Lemma snapshot_of_snoc l us : snapshot_of (l ++ [us]) = record_wake us (snapshot_of l).
Proof. unfold snapshot_of. by rewrite foldl_snoc. Qed.

Lemma tally_snoc {A} (p : A → bool) l x : tally p (l ++ [x]) = tally p l + bit (p x).
Proof. unfold tally. by rewrite total_snoc. Qed.

Lemma tally_nonneg {A} (p : A → bool) l : 0 ≤ tally p l.
Proof. unfold tally. auto with reactor. Qed.

Lemma tally_le_length {A} (p : A → bool) l : tally p l ≤ Z.of_nat (length l).
Proof. unfold tally. apply total_le_length. auto with reactor. Qed.

Lemma tally_app {A} (p : A → bool) l1 l2 : tally p (l1 ++ l2) = tally p l1 + tally p l2.
Proof. unfold tally. by rewrite total_app. Qed.

Lemma tally_ext {A} (p q : A → bool) l : (∀ x, x ∈ l → p x = q x) → tally p l = tally q l.
Proof. intros H. apply total_ext. intros x Hx. by rewrite H. Qed.

Lemma tally_true {A} (l : list A) : tally (λ _, true) l = Z.of_nat (length l).
Proof. unfold tally. induction l as [|x l IH]; simpl in *; lia. Qed.

(** Each counter is the number of wakes in its bucket. *)
Lemma snapshot_of_count l :
  Forall sample l →
  count (snapshot_of l) =
  (λ i, wrap64 (tally (λ us, index_of us =? Z.of_nat i) l)) <$> seq 0 (Z.to_nat buckets).
Proof.
  induction l as [|us l IH] using rev_ind; intros Hl; [done|].
  apply Forall_app in Hl as [Hl Hus]. rewrite Forall_singleton in Hus.
  rewrite snapshot_of_snoc. cbn [count record_wake]. rewrite (IH Hl). clear IH.
  pose proof (index_of_range us Hus) as Hr.
  apply list_eq. intros i. rewrite list_lookup_fmap.
  destruct (decide (i < Z.to_nat buckets)%nat) as [Hi|Hi].
  - rewrite lookup_seq_lt by done.
    destruct (decide (i = Z.to_nat (index_of us))) as [->|Hne].
    + rewrite list_lookup_alter_eq, list_lookup_fmap, lookup_seq_lt by done. simpl.
      rewrite tally_snoc, Z2Nat.id, Z.eqb_refl by lia. simpl. by rewrite wrap64_add.
    + rewrite list_lookup_alter_ne, list_lookup_fmap, lookup_seq_lt by done. simpl.
      rewrite tally_snoc. destruct (Z.eqb_spec (index_of us) (Z.of_nat i)); [lia|].
      simpl. by rewrite Z.add_0_r.
  - rewrite lookup_seq_ge by lia. apply lookup_ge_None.
    rewrite length_alter, length_fmap, length_seq. lia.
Qed.

Lemma snapshot_of_wakes l : wakes (snapshot_of l) = wrap64 (Z.of_nat (length l)).
Proof.
  induction l as [|us l IH] using rev_ind; [done|].
  rewrite snapshot_of_snoc. simpl. rewrite IH, wrap64_add, length_app. f_equal. simpl. lia.
Qed.

Lemma snapshot_of_sum l : sum_us (snapshot_of l) = wrap64 (sumZ l).
Proof.
  induction l as [|us l IH] using rev_ind; [done|].
  rewrite snapshot_of_snoc. simpl. by rewrite IH, wrap64_add, total_snoc.
Qed.

Lemma snapshot_of_max l : max_us (snapshot_of l) = foldr Z.max 0 l.
Proof.
  assert (∀ l z, foldr Z.max 0 (l ++ [z]) = Z.max (foldr Z.max 0 l) (Z.max z 0)) as Happ.
  { clear. intros l z. induction l as [|x l IH]; simpl; lia. }
  induction l as [|us l IH] using rev_ind; [done|].
  rewrite snapshot_of_snoc, Happ, <- IH. simpl.
  assert (0 ≤ max_us (snapshot_of l)).
  { rewrite IH. clear. induction l; simpl; lia. }
  case_match; lia.
Qed.

(** The first [j] counters add up to the wakes in buckets below [j]. *)
Lemma count_prefix l j :
  Forall sample l → Z.of_nat (length l) ≤ u64_max → (j ≤ Z.to_nat buckets)%nat →
  sumZ (take j (count (snapshot_of l))) = tally (λ us, index_of us <? Z.of_nat j) l.
Proof.
  intros Hl Hlen Hj. rewrite (snapshot_of_count l Hl). induction j as [|j IH].
  - symmetry. apply total_zero. intros us Hus.
    pose proof (index_of_range us (Forall_elem _ _ _ Hl Hus)). by rewrite (proj2 (Z.ltb_ge _ _)) by lia.
  - rewrite (take_S_r _ j (wrap64 (tally (λ us, index_of us =? Z.of_nat j) l))).
    2: { rewrite list_lookup_fmap, lookup_seq_lt by lia. done. }
    rewrite total_snoc, IH by lia.
    pose proof (tally_nonneg (λ us, index_of us =? Z.of_nat j) l).
    pose proof (tally_le_length (λ us, index_of us =? Z.of_nat j) l).
    rewrite wrap64_small by (unfold u64_max in *; lia).
    unfold tally. rewrite <- total_add. apply total_ext. intros us _.
    destruct (Z.ltb_spec (index_of us) (Z.of_nat j)), (Z.eqb_spec (index_of us) (Z.of_nat j)),
      (Z.ltb_spec (index_of us) (Z.of_nat (S j))); simpl; lia.
Qed.

Lemma length_count l : length (count (snapshot_of l)) = Z.to_nat buckets.
Proof.
  induction l as [|us l IH] using rev_ind; [done|].
  rewrite snapshot_of_snoc. simpl. by rewrite length_alter.
Qed.

Lemma count_nonneg l c : c ∈ count (snapshot_of l) → 0 ≤ c.
Proof.
  revert c. induction l as [|us l IH] using rev_ind; intros c.
  - change (snapshot_of []) with empty. cbn [count empty]. intros Hc. apply elem_of_replicate in Hc as [-> _]. done.
  - rewrite snapshot_of_snoc. simpl. intros [i Hi]%list_elem_of_lookup_1.
    destruct (decide (i = Z.to_nat (index_of us))) as [->|Hne].
    + rewrite list_lookup_alter_eq in Hi.
      destruct (count (snapshot_of l) !! Z.to_nat (index_of us)); simplify_eq/=.
      apply wrap64_range.
    + rewrite list_lookup_alter_ne in Hi by done. apply IH.
      apply list_elem_of_lookup. eauto.
Qed.

(** All the counters add up to the number of wakes. *)
Lemma count_total l :
  Forall sample l → Z.of_nat (length l) ≤ u64_max →
  sumZ (count (snapshot_of l)) = Z.of_nat (length l).
Proof.
  intros Hl Hlen. rewrite <- (firstn_all (count (snapshot_of l))), length_count.
  rewrite count_prefix by done. rewrite <- tally_true. apply tally_ext. intros us Hus.
  pose proof (index_of_range us (Forall_elem _ _ _ Hl Hus)).
  apply Z.ltb_lt. lia.
Qed.

Lemma foldl_wrap cs z :
  (∀ c, c ∈ cs → 0 ≤ c) → 0 ≤ z → z + sumZ cs ≤ u64_max →
  foldl (λ acc c, wrap64 (acc + c)) z cs = z + sumZ cs.
Proof.
  revert z. induction cs as [|c cs IH]; intros z Hcs Hz Hb; simpl in *; [lia|].
  pose proof (Hcs c ltac:(left)).
  assert (0 ≤ sumZ cs) by (apply total_nonneg_elem; set_solver).
  rewrite wrap64_small by (unfold u64_max in *; lia).
  rewrite IH; [lia| |lia|lia]. intros. apply Hcs. by right.
Qed.

(** The scan stops at the first bucket whose cumulative count reaches the rank. *)
Lemma scan_spec cs i seen need :
  (∀ c, c ∈ cs → 0 ≤ c) → 0 ≤ seen < need → need ≤ seen + sumZ cs →
  seen + sumZ cs ≤ u64_max →
  ∃ j, (j < length cs)%nat ∧ scan cs i seen need = upper_us (i + Z.of_nat j) ∧
       seen + sumZ (take j cs) < need ≤ seen + sumZ (take (S j) cs).
Proof.
  revert i seen. induction cs as [|c cs IH]; intros i seen Hcs Hseen Hneed Hmax;
    simpl in *; [lia|].
  pose proof (Hcs c ltac:(left)).
  assert (0 ≤ sumZ cs) by (apply total_nonneg_elem; set_solver).
  rewrite wrap64_small by (unfold u64_max in *; lia).
  destruct (Z.leb_spec need (seen + c)) as [Hle|Hgt].
  - exists O. rewrite Z.add_0_r. simpl. split_and!; [lia|done|lia|lia].
  - destruct (IH (i + 1) (seen + c)) as (j & Hj & -> & Hlo); [set_solver|lia|lia|lia|].
    exists (S j). simpl in *.
    split_and!; [lia|f_equal; lia| |]; lia.
Qed.

(** A lateness below an edge is in a bucket below it, and conversely. *)
Lemma index_of_le us i :
  sample us → 0 ≤ i < buckets - 1 → index_of us ≤ i ↔ us < upper_us i.
Proof.
  intros Hus Hi. pose proof (index_of_range us Hus) as Hr.
  assert (us < 2 ^ 32 → us < upper_us (index_of us)) as Hup.
  { intros. destruct (Z_lt_le_dec us 4).
    - rewrite index_of_small, upper_us_small; lia.
    - unfold sample in Hus.
      destruct (index_of_bucket us) as (e & q & He & Hq & -> & Hb); [lia|].
      rewrite upper_us_bucket; lia. }
  assert (lower_us (index_of us) ≤ us) as Hlo.
  { unfold sample in Hus. destruct (Z_lt_le_dec us 4).
    - rewrite index_of_small, lower_us_small; lia.
    - destruct (Z_lt_le_dec us (2 ^ 32)).
      + destruct (index_of_bucket us) as (e & q & He & Hq & -> & Hb); [lia|].
        rewrite lower_us_bucket; lia.
      + rewrite index_of_large by done. trans (2 ^ 32); [vm_compute; discriminate|done]. }
  split; intros H.
  - destruct (Z_lt_le_dec us (2 ^ 32)) as [Hs|Hl]; [|rewrite index_of_large in H; lia].
    pose proof (upper_us_mono (index_of us) i ltac:(lia) ltac:(lia)). lia.
  - destruct (Z_le_gt_dec (index_of us) i) as [|Hgt]; [done|].
    pose proof (upper_us_mono i (index_of us - 1) ltac:(lia) ltac:(lia)).
    rewrite lower_us_succ in Hlo; lia.
Qed.

Lemma u64_of_double_nonneg x z : u64_of_double x = Some z → 0 ≤ z.
Proof.
  destruct x as [b|b| |b m e]; simpl; intros H; step_cases; [done|done|].
  by apply Z.shiftl_nonneg.
Qed.

Lemma rank_pos q n need : rank q n = Some need → 0 < need.
Proof.
  unfold rank. intros Hr.
  destruct (u64_of_double _) as [z|] eqn:Hz; simplify_eq/=.
  apply u64_of_double_nonneg in Hz.
  pose proof (wrap64_range (z + 1)).
  repeat case_match; reflect_bools; lia.
Qed.

(** Every lateness a [uint64_t] can hold goes to a bucket inside the array, at or above
    the bucket's lower edge, and below its upper edge unless it is past the last edge. *)
Lemma index_of_edges us :
  sample us →
  0 ≤ index_of us < buckets ∧ lower_us (index_of us) ≤ us ∧
  (us < 2 ^ 32 → us < upper_us (index_of us)) ∧
  (2 ^ 32 ≤ us → index_of us = buckets - 1).
Proof.
  intros Hus. pose proof (index_of_range us Hus) as Hr. unfold sample in Hus.
  split_and!; [lia|lia| | |apply index_of_large].
  - destruct (decide (index_of us = 0)) as [H0|]; [unfold lower_us; rewrite H0; simpl; lia|].
    rewrite lower_us_succ by lia.
    destruct (Z_le_gt_dec (upper_us (index_of us - 1)) us) as [|Hgt]; [done|].
    apply Z.gt_lt, index_of_le in Hgt; [lia|done|lia].
  - intros Hs. destruct (decide (index_of us = buckets - 1)) as [->|].
    + by rewrite upper_us_last.
    + apply index_of_le; [done|lia|lia].
Qed.

(** The buckets do not overlap and leave no gap: a lateness between the edges of a
    bucket is counted in that bucket and in no other, and apart from the four exact buckets
    a bucket is at most a quarter of its lower edge and at least an eighth of its upper
    edge wide. *)
Lemma index_of_unique i us :
  0 ≤ i < buckets → lower_us i ≤ us < upper_us i →
  index_of us = i ∧
  (4 ≤ i → 4 * (upper_us i - lower_us i) ≤ lower_us i ∧
           upper_us i ≤ 8 * (upper_us i - lower_us i)).
Proof.
  intros Hi Hus. split.
  - destruct (Z_lt_le_dec i 4) as [H|H].
    { rewrite lower_us_small, upper_us_small in Hus by lia. rewrite index_of_small; lia. }
    assert (0 ≤ lower_us i ∧ upper_us i ≤ 2 ^ 32) as [Hl Hu].
    { split; [|rewrite <- upper_us_last; apply upper_us_mono; lia].
      rewrite lower_us_succ by lia. pose proof (upper_us_mono 0 (i - 1) ltac:(lia) ltac:(lia)).
      rewrite (upper_us_small 0) in *; lia. }
    assert (sample us) as Hs by (unfold sample, u64_max; lia).
    pose proof (index_of_range us Hs) as Hr.
    destruct (Z.lt_trichotomy (index_of us) i) as [Hlt|[|Hgt]]; [|done|].
    + assert (index_of us ≤ i - 1) as Hle by lia. apply index_of_le in Hle; [|done|lia].
      rewrite lower_us_succ in Hus; lia.
    + destruct Hus as [_ Hus]. apply index_of_le in Hus; [lia|done|lia].
  - intros H4. destruct (bucket_of i) as (e & q & He & Hq & ->); [lia|].
    rewrite lower_us_bucket, upper_us_bucket by lia.
    pose proof (Z.pow_pos_nonneg 2 (e - 2) ltac:(lia) ltac:(lia)). nia.
Qed.

(** ** Properties *)

(** The histogram puts a lateness exactly where its edges say: every lateness a [uint64_t]
    can hold goes to a bucket inside the array, and to bucket [i] if and only if it is at or
    above the lower edge of [i] and below its upper one, which the last bucket does not have. *)
Theorem index_of_exact us i :
  sample us → 0 ≤ i < buckets →
  0 ≤ index_of us < buckets ∧
  (index_of us = i ↔ lower_us i ≤ us ∧ (us < upper_us i ∨ i = buckets - 1)).
Proof.
  intros Hus Hi. destruct (index_of_edges us Hus) as (Hr & Hl & Hu & Hlast). split; [done|split].
  - intros <-. split; [done|]. destruct (Z_lt_le_dec us (2 ^ 32)); [left|right]; auto.
  - intros [Hlo [Hup| ->]]; [by apply index_of_unique|].
    destruct (Z_lt_le_dec us (2 ^ 32)); [|by apply Hlast].
    apply index_of_unique; [lia|]. by rewrite upper_us_last.
Qed.

Lemma index_of_exact_witness : sample 5000 ∧ index_of 5000 = 44.
Proof.
  assert (sample 5000) as H by (unfold sample, u64_max; lia).
  split; [exact H|]. apply (index_of_exact 5000 44 H); [unfold buckets; lia|].
  split; [vm_compute; discriminate|left; vm_compute; reflexivity].
Defined.

(** C33: the percentile reader is right about the wakes that were recorded: for the rank it
    computes from the fraction, at least that many wakes lie below the edge it returns
    (when that is not the open last bucket), and fewer lie below the bucket's lower edge. *)
Theorem quantile_rank l q need :
  Forall sample l → 0 < Z.of_nat (length l) ≤ u64_max →
  rank q (Z.of_nat (length l)) = Some need → need ≤ Z.of_nat (length l) →
  ∃ i, 0 ≤ i < buckets ∧ quantile_upper_us q (snapshot_of l) = Some (upper_us i) ∧
       (i < buckets - 1 → need ≤ tally (λ us, us <? upper_us i) l) ∧
       tally (λ us, us <? lower_us i) l < need.
Proof.
  intros Hl Hlen Hrank Hneed. pose proof (rank_pos _ _ _ Hrank) as Hpos.
  pose proof (count_total l Hl ltac:(lia)) as Hsum.
  unfold quantile_upper_us. rewrite foldl_wrap, Hsum, Z.add_0_l; [|apply count_nonneg|lia|lia].
  destruct (Z.eqb_spec (Z.of_nat (length l)) 0); [lia|]. rewrite Hrank. simpl.
  destruct (scan_spec (count (snapshot_of l)) 0 0 need) as (j & Hj & -> & Hlo & Hhi);
    [apply count_nonneg|lia|lia|lia|].
  rewrite length_count in Hj. rewrite count_prefix in Hlo, Hhi by (lia || done).
  exists (Z.of_nat j). split_and!; [lia|unfold buckets in *; lia|done| |].
  - intros Hlast. rewrite Z.add_0_l in Hhi. etrans; [exact Hhi|]. apply Z.eq_le_incl, tally_ext.
    intros us Hus%(Forall_elem _ _ _ Hl). pose proof (index_of_le us (Z.of_nat j) Hus ltac:(lia)).
    apply eq_bool_prop_intro. rewrite !Is_true_true, !Z.ltb_lt. lia.
  - eapply Z.le_lt_trans; [|exact Hlo]. rewrite Z.add_0_l. apply Z.eq_le_incl, tally_ext.
    intros us Hus%(Forall_elem _ _ _ Hl). apply eq_bool_prop_intro.
    rewrite !Is_true_true, !Z.ltb_lt. destruct (decide (Z.of_nat j = 0)) as [->|].
    + pose proof (index_of_range us Hus). unfold sample in Hus. change (lower_us 0) with 0. lia.
    + rewrite lower_us_succ by lia.
      rewrite <- index_of_le by (done || lia). lia.
Qed.

(** The fractions 0.5 and 0.99 as doubles. *)
Definition half : spec_float := S754_finite false 4503599627370496 (-53).
Definition p99 : spec_float := S754_finite false 8917127262193582 (-53).

Lemma quantile_rank_witness :
  let l := replicate 98 100 ++ replicate 2 5000 in
  quantile_upper_us p99 (snapshot_of l) = Some 5120 ∧
  ∃ i, 0 ≤ i < buckets ∧ quantile_upper_us p99 (snapshot_of l) = Some (upper_us i) ∧
       (i < buckets - 1 → 99 ≤ tally (λ us, us <? upper_us i) l) ∧
       tally (λ us, us <? lower_us i) l < 99.
Proof.
  intros l. split; [vm_compute; reflexivity|].
  apply (quantile_rank l p99 99).
  - unfold l. apply Forall_app; split; apply Forall_replicate; unfold sample, u64_max; lia.
  - change (Z.of_nat (length l)) with 100. unfold u64_max. lia.
  - vm_compute; reflexivity.
  - change (Z.of_nat (length l)) with 100. lia.
Defined.

(** Subtracting an earlier snapshot of the same probe leaves exactly the wakes recorded
    in between, in every bucket, in number and in sum; the maximum stays the later one. *)
Theorem since_suffix l1 l2 :
  Forall sample l1 → Forall sample l2 →
  since (snapshot_of (l1 ++ l2)) (snapshot_of l1) =
  Snapshot (count (snapshot_of l2)) (wakes (snapshot_of l2)) (sum_us (snapshot_of l2))
           (max_us (snapshot_of (l1 ++ l2))).
Proof.
  intros H1 H2.
  assert (∀ a b, wrap64 (wrap64 (a + b) - wrap64 a) = wrap64 b) as Hsub.
  { intros a b. unfold wrap64. rewrite <- Zminus_mod. f_equal. lia. }
  unfold since. f_equal.
  - rewrite !snapshot_of_count by (done || by apply Forall_app).
    rewrite zip_with_fmap_l, zip_with_fmap_r, zip_with_diag.
    apply list_fmap_ext. intros _ i _. by rewrite tally_app, Hsub.
  - by rewrite !snapshot_of_wakes, length_app, Nat2Z.inj_add, Hsub.
  - by rewrite !snapshot_of_sum, total_app, Hsub.
Qed.

Lemma since_suffix_witness :
  since (snapshot_of ([7] ++ [100; 3])) (snapshot_of [7]) =
  Snapshot (count (snapshot_of [100; 3])) (wakes (snapshot_of [100; 3]))
           (sum_us (snapshot_of [100; 3])) (max_us (snapshot_of ([7] ++ [100; 3]))).
Proof.
  apply (since_suffix [7] [100; 3]); repeat constructor; unfold sample, u64_max; lia.
Defined.

End LagSnapshot.

Module LagProbe.
Import LagSnapshot.

(** Durations, in nanoseconds of the steady clock. *)
Definition busy_interval : Z := 1000 * 1000.
Definition idle_interval : Z := 100000 * 1000.
Definition busy_window : Z := 1 * 1000000000.

(** The bytes of [State::slot]. *)
Definition slot_size : Z := 512.

(** The outstanding [async_wait] of the probe's timer: whether it was cancelled and
    whether its operation lives in the slot (else on the heap). *)
Record Wait := { cancelled : bool; in_slot : bool }.

(** [LagProbe::State], with the asio timer's outstanding wait, the cancellations posted to
    the loop and not yet run, and the number of operations taken from the heap. *)
Record State := mkState {
  due : Z;
  busy_until : Z;
  last_activity : Z;
  activity : Z;
  started : bool;
  stopped : bool;
  hist : LagSnapshot.t;
  slot_used : bool;
  wait : option Wait;
  posted_cancels : nat;
  heap_operations : nat
}.

Definition initial : State :=
  mkState 0 0 0 0 false false LagSnapshot.empty false None 0 0.

Section probe.
(** The size of asio's timer operation holding a [Tick], and whether its alignment is at
    most that of [std::max_align_t]. *)
Context (operation_size : Z) (operation_aligned : bool).

(** [SlotAllocator::allocate]: the slot when it is free and large enough, else the heap. *)
Definition allocate (s : State) : bool * State :=
  if negb (slot_used s) && (operation_size <=? slot_size) && operation_aligned
  then (true, mkState (due s) (busy_until s) (last_activity s) (activity s) (started s)
                (stopped s) (hist s) true (wait s) (posted_cancels s) (heap_operations s))
  else (false, mkState (due s) (busy_until s) (last_activity s) (activity s) (started s)
                (stopped s) (hist s) (slot_used s) (wait s) (posted_cancels s)
                (S (heap_operations s))).

(** [SlotAllocator::deallocate]. *)
Definition deallocate (slot : bool) (s : State) : State :=
  mkState (due s) (busy_until s) (last_activity s) (activity s) (started s) (stopped s)
    (hist s) (if slot then false else slot_used s) (wait s) (posted_cancels s)
    (heap_operations s).

(** [State::arm]; [now] is what the clock reads. *)
Definition arm (interval now : Z) (s : State) : State :=
  let '(slot, s) := allocate s in
  mkState (now + interval) (busy_until s) (last_activity s) (activity s) (started s)
    (stopped s) (hist s) (slot_used s) (Some {| cancelled := false; in_slot := slot |})
    (posted_cancels s) (heap_operations s).

(** [State::tick]; [now] is its own reading of the clock and [now'] that of [arm]. *)
Definition tick (error : bool) (now now' : Z) (s : State) : State :=
  if error || stopped s then s
  else
    let late := if due s <? now then (now - due s) `quot` 1000 else 0 in
    let us := wrap64 late in
    let seen := activity s in
    let busy_until' :=
      if negb (seen =? last_activity s) then now + busy_window else busy_until s in
    arm (if now <? busy_until' then busy_interval else idle_interval) now'
      (mkState (due s) busy_until' seen (activity s) (started s) (stopped s)
         (record_wake us (hist s)) (slot_used s) (wait s) (posted_cancels s)
         (heap_operations s)).

(** [LagProbe::start]. *)
Definition start (now : Z) (s : State) : State :=
  if started s then s
  else arm idle_interval now
    (mkState (due s) (busy_until s) (last_activity s) (activity s) true (stopped s) (hist s)
       (slot_used s) (wait s) (posted_cancels s) (heap_operations s)).

(** [LagProbe::stop]: posts the timer's cancellation to the loop. *)
Definition stop (s : State) : State :=
  if negb (started s) || stopped s then s
  else mkState (due s) (busy_until s) (last_activity s) (activity s) (started s) true
         (hist s) (slot_used s) (wait s) (S (posted_cancels s)) (heap_operations s).

(** [LagProbe::note_activity]. *)
Definition note_activity (s : State) : State :=
  mkState (due s) (busy_until s) (last_activity s) (wrap64 (activity s + 1)) (started s)
    (stopped s) (hist s) (slot_used s) (wait s) (posted_cancels s) (heap_operations s).

(** [LagProbe::snapshot], between two steps of the loop; LagRead.v has it during one. *)
Definition snapshot (s : State) : LagSnapshot.t := hist s.

(** [timer.cancel()] on the loop: the outstanding wait will complete with an error, unless
    it already expired. *)
Definition run_cancel (s : State) : option State :=
  match posted_cancels s with
  | O => None
  | S n => Some (mkState (due s) (busy_until s) (last_activity s) (activity s) (started s)
      (stopped s) (hist s) (slot_used s)
      ((λ w, {| cancelled := true; in_slot := in_slot w |}) <$> wait s) n (heap_operations s))
  end.

(** The completion of the outstanding wait: asio releases the operation's memory, then
    calls [Tick]. It reports an error only when the wait was cancelled. *)
Definition complete (error : bool) (now now' : Z) (s : State) : option State :=
  match wait s with
  | None => None
  | Some w =>
      if error && negb (cancelled w) then None
      else
        let s := mkState (due s) (busy_until s) (last_activity s) (activity s) (started s)
          (stopped s) (hist s) (slot_used s) None (posted_cancels s) (heap_operations s) in
        Some (tick error now now' (deallocate (in_slot w) s))
  end.

(** What can happen to a probe. *)
Inductive event :=
| Start (now : Z)
| Stop
| NoteActivity
| RunCancel
| Complete (error : bool) (now now' : Z).

Definition step (s : State) (e : event) : option State :=
  match e with
  | Start now => Some (start now s)
  | Stop => Some (stop s)
  | NoteActivity => Some (note_activity s)
  | RunCancel => run_cancel s
  | Complete error now now' => complete error now now' s
  end.

(** The slot is in use exactly while a wait is outstanding; every operation so far came
    from the slot; a started probe has an uncancelled wait until it is stopped; a probe
    that was never started has none. *)
Definition probe_inv (s : State) : Prop :=
  slot_used s = (if wait s is Some _ then true else false) ∧
  (∀ w, wait s = Some w → in_slot w = true) ∧
  heap_operations s = O ∧
  (stopped s = true → started s = true) ∧
  (started s = false → wait s = None) ∧
  (stopped s = false → posted_cancels s = O) ∧
  (started s = true → stopped s = false → ∃ w, wait s = Some w ∧ cancelled w = false).

Lemma arm_inv interval now s :
  operation_size ≤ slot_size → operation_aligned = true →
  wait s = None → slot_used s = false → heap_operations s = O → started s = true →
  (stopped s = false → posted_cancels s = O) →
  probe_inv (arm interval now s).
Proof.
  intros Hsz Hal Hw Hslot Hheap Hst Hpc. unfold arm, allocate.
  rewrite Hslot, Hal, (proj2 (Z.leb_le _ _) Hsz). simpl.
  split_and!; simpl; try done; try congruence; [by intros ? [= <-]|by eauto].
Qed.

Lemma probe_step_inv s e s' :
  operation_size ≤ slot_size → operation_aligned = true →
  probe_inv s → step s e = Some s' → probe_inv s'.
Proof.
  intros Hsz Hal Hinv Hstep. pose proof Hinv as (Hu & Hin & Hh & Hss & Hns & Hpc & Hrun).
  destruct e as [now| | | |err now now']; simplify_eq/=.
  - unfold start. destruct (started s) eqn:Hst; [done|].
    specialize (Hns eq_refl). rewrite Hns in Hu. by apply arm_inv.
  - unfold stop. destruct (started s) eqn:Hst, (stopped s) eqn:Hsp; simpl; done.
  - by split_and!.
  - unfold run_cancel in Hstep. destruct (posted_cancels s) as [|n] eqn:Hp; simplify_eq.
    assert (stopped s = true) as Hsp by (destruct (stopped s); [done|specialize (Hpc eq_refl); congruence]).
    split_and!; simpl; try done; try congruence.
    + rewrite Hu. by destruct (wait s).
    + intros w. destruct (wait s) as [w'|]; simpl; [|done]. intros [= <-]. simpl. by apply Hin.
    + intros Hst. by rewrite Hns.
  - unfold complete in Hstep. destruct (wait s) as [w|] eqn:Hw; [|done].
    destruct (err && negb (cancelled w)) eqn:Herr; simplify_eq.
    assert (started s = true) as Hst by (destruct (started s); [done|specialize (Hns eq_refl); congruence]).
    unfold tick. simpl. rewrite (Hin w eq_refl).
    destruct (stopped s) eqn:Hsp.
    + rewrite orb_true_r. by split_and!.
    + destruct (Hrun Hst eq_refl) as (w' & [= <-] & Hc). rewrite Hc in Herr.
      destruct err; [done|]. simpl. by apply arm_inv.
Qed.


(** Once stopped, a probe records no wake and re-arms no timer: no event changes its
    counters, it stays stopped, and the wait that was outstanding is its last. *)
Theorem probe_stopped s es s' :
  stopped s = true → started s = true → exec step s es = Some s' →
  stopped s' = true ∧ snapshot s' = snapshot s ∧ (wait s = None → wait s' = None).
Proof.
  revert s. induction es as [|e es IH]; intros s Hsp Hst He; simplify_eq/=; [done|].
  destruct (step s e) as [t|] eqn:Hstep; [|done].
  assert (stopped t = true ∧ started t = true ∧ snapshot t = snapshot s ∧
          (wait s = None → wait t = None)) as (Ht & Hts & Hh & Hw).
  { destruct e as [now| | | |err now now']; simplify_eq/=.
    - unfold start. by rewrite Hst.
    - unfold stop. by rewrite Hst, Hsp.
    - done.
    - unfold run_cancel in Hstep. destruct (posted_cancels s); simplify_eq/=.
      split_and!; try done. by intros ->.
    - unfold complete in Hstep. destruct (wait s) as [w|]; [|done].
      destruct (err && _); simplify_eq. unfold tick. simpl. rewrite Hsp, orb_true_r.
      by split_and!. }
  destruct (IH t Ht Hts He) as (? & Hs & Hww). split_and!; [done|congruence|auto].
Qed.
End probe.


Lemma probe_stopped_witness :
  ∃ s s', exec (step 256 true) initial
            [Start 0; Complete false 100000000 100000000; Stop] = Some s ∧
          exec (step 256 true) s [RunCancel; Complete true 0 0; NoteActivity] = Some s' ∧
          wakes (snapshot s') = 1 ∧
          stopped s' = true ∧ snapshot s' = snapshot s ∧ (wait s = None → wait s' = None).
Proof.
  eexists _, _. split; [vm_compute; reflexivity|]. split; [vm_compute; reflexivity|].
  split; [reflexivity|].
  eapply (probe_stopped 256 true _ [RunCancel; Complete true 0 0; NoteActivity]);
    [reflexivity|reflexivity|vm_compute; reflexivity].
Defined.

End LagProbe.
