(* ===== verification/LagRead.v ===== *)
(** * reactor_lag.h: snapshots taken while the loop records

    [LagProbe::tick] writes its counters one after the other and [LagProbe::snapshot] loads them
    one after the other on another thread, all relaxed: what a reader gets is no single moment
    of the probe. One reader that takes snapshot after snapshot, interleaved with the loop's
    writes at the grain of the single accesses, each thread's in the order it makes them. *)

From S2P Require Import Prelude Lag.

Module LagRead.
Import LagSnapshot.

(** ** The code *)

(** The counters in the order [snapshot] loads them: the buckets, [wakes], [sum_us], [max_us]. *)
Definition cells : nat := 127.
Definition cell (k : nat) (h : t) : Z :=
  if decide (k < 124)%nat then nth k (count h) 0
  else if decide (k = 124%nat) then wakes h
  else if decide (k = 125%nat) then sum_us h
  else max_us h.

(** The writes of [tick], in order: [bump(count[...], 1)], [bump(wakes, 1)], [bump(sum_us, us)],
    the maximum. A bump's load and store are one access: no other thread writes. *)
Definition write (g : nat) (us : Z) (h : t) : t :=
  match g with
  | 0%nat => Snapshot (alter (λ c, wrap64 (c + 1)) (Z.to_nat (index_of us)) (count h)) (wakes h)
               (sum_us h) (max_us h)
  | 1%nat => Snapshot (count h) (wrap64 (wakes h + 1)) (sum_us h) (max_us h)
  | 2%nat => Snapshot (count h) (wakes h) (wrap64 (sum_us h + us)) (max_us h)
  | _ => Snapshot (count h) (wakes h) (sum_us h) (if max_us h <? us then us else max_us h)
  end.

Inductive wpc := Idle | Recording (us : Z) (g : nat).   (* the next write is [g] *)

(** [samples] are the wakes recorded or being recorded, oldest first; [reads] is all that the
    reader loaded, and [stamps] how many of the samples were in the counter it loaded. *)
Record state := mkState {
  pc : wpc;
  hist : t;
  samples : list Z;
  reads : list Z;
  stamps : list nat }.

(** The write that changes a counter. *)
Definition group (k : nat) : nat := if decide (k < 124)%nat then 0%nat else (k - 123)%nat.

(** How many samples the counters of a write hold. *)
Definition applied (s : state) (g : nat) : nat :=
  match pc s with
  | Idle => length (samples s)
  | Recording _ g' => if decide (g < g')%nat then length (samples s) else pred (length (samples s))
  end.

Inductive label :=
| Tick (us : Z)                      (* a wake: its first write *)
| Write                              (* the next of its writes *)
| Load.                              (* the reader's next load *)

Definition step (s : state) (l : label) : option state :=
  match l, pc s with
  | Tick us, Idle =>
      if (0 <=? us) && (us <=? u64_max)
      then Some (mkState (Recording us 1) (write 0 us (hist s)) (samples s ++ [us]) (reads s) (stamps s))
      else None
  | Write, Recording us g =>
      Some (mkState (if decide (g = 3%nat) then Idle else Recording us (S g)) (write g us (hist s))
              (samples s) (reads s) (stamps s))
  | Load, _ =>
      let k := (length (reads s) mod cells)%nat in
      Some (mkState (pc s) (hist s) (samples s) (reads s ++ [cell k (hist s)])
              (stamps s ++ [applied s (group k)]))
  | _, _ => None
  end.

Definition initial : state := mkState Idle empty [] [] [].

(** What [snapshot] returns for the values it loaded, and the reader's [m]-th one. *)
Definition of_loads (r : list Z) : t :=
  Snapshot (take 124 r) (nth 124 r 0) (nth 125 r 0) (nth 126 r 0).
Definition snapshot (s : state) (m : nat) : t := of_loads (take cells (drop (cells * m) (reads s))).

(** ** The counters *)

Lemma group_le k : (k < cells)%nat → (group k ≤ 3)%nat.
Proof. unfold group, cells. case_decide; lia. Qed.

(** A write changes the counters of its group as the whole record does. *)
Lemma cell_write g us h k :
  (g ≤ 3)%nat → (k < cells)%nat →
  cell k (write g us h) = if decide (group k = g) then cell k (record_wake us h) else cell k h.
Proof.
  unfold cells, group, cell. intros Hg Hk.
  destruct (decide (k < 124)%nat); [destruct g as [|[|[|]]]; by case_decide|].
  destruct (decide (k = 124%nat)) as [->|]; [destruct g as [|[|[|]]]; by simpl|].
  destruct (decide (k = 125%nat)) as [->|]; [destruct g as [|[|[|]]]; by simpl|].
  assert (k = 126%nat) as -> by lia. by destruct g as [|[|[|[|]]]]; [..|lia].
Qed.

(** A record changes a counter by its value alone. *)
Lemma cell_record k us h h' :
  length (count h) = 124%nat → length (count h') = 124%nat → cell k h = cell k h' →
  cell k (record_wake us h) = cell k (record_wake us h').
Proof.
  unfold cell. intros H1 H2. destruct (decide (k < 124)%nat) as [Hk|].
  - simpl. intros Heq. rewrite !nth_lookup in *.
    destruct (lookup_lt_is_Some_2 (count h) k) as [x Hx]; [lia|].
    destruct (lookup_lt_is_Some_2 (count h') k) as [y Hy]; [lia|].
    rewrite Hx, Hy in Heq; simpl in Heq; subst y.
    destruct (decide (k = Z.to_nat (index_of us))) as [->|Hne].
    + by rewrite !list_lookup_alter_eq, Hx, Hy.
    + by rewrite !list_lookup_alter_ne, Hx, Hy by done.
  - repeat case_decide; simpl; by intros ->.
Qed.

Lemma write_length g us h : length (count (write g us h)) = length (count h).
Proof. destruct g as [|[|[|]]]; simpl; by rewrite ?length_alter. Qed.

Record read_inv (s : state) : Prop := {
  r_pc : match pc s with
         | Idle => True
         | Recording us g => (1 ≤ g ≤ 3)%nat ∧ ∃ l, samples s = l ++ [us]
         end;
  r_samples : Forall sample (samples s);
  r_count : length (count (hist s)) = 124%nat;
  r_memory : ∀ k, (k < cells)%nat →
    cell k (hist s) = cell k (snapshot_of (take (applied s (group k)) (samples s)));
  r_length : length (stamps s) = length (reads s);
  r_reads : ∀ j v n, reads s !! j = Some v → stamps s !! j = Some n →
    let k := (j mod cells)%nat in
    (n ≤ applied s (group k))%nat ∧ v = cell k (snapshot_of (take n (samples s)));
  r_stamps : ∀ i j a b, (i < j)%nat → stamps s !! i = Some a → stamps s !! j = Some b →
    (a ≤ S b)%nat ∧ ((group (j mod cells) ≤ group (i mod cells))%nat → (a ≤ b)%nat) }.

Lemma applied_le s g : (applied s g ≤ length (samples s))%nat.
Proof. unfold applied. repeat case_match; lia. Qed.

(** Later writes never hold more, and at most one sample less. *)
Lemma applied_groups s g g' :
  (applied s g ≤ S (applied s g'))%nat ∧ ((g' ≤ g)%nat → (applied s g ≤ applied s g')%nat).
Proof. unfold applied. destruct (pc s); repeat case_decide; lia. Qed.

Lemma mod_cells j : (j mod cells < cells)%nat.
Proof. apply Nat.mod_upper_bound. by unfold cells. Qed.

(** The loop's writes: the samples grow, the counters follow. *)
Lemma read_inv_write s s' :
  read_inv s → reads s' = reads s → stamps s' = stamps s →
  (∃ l, samples s' = samples s ++ l) → (∀ g, (applied s g ≤ applied s' g)%nat) →
  match pc s' with Idle => True | Recording us g => (1 ≤ g ≤ 3)%nat ∧ ∃ l, samples s' = l ++ [us] end →
  Forall sample (samples s') → length (count (hist s')) = 124%nat →
  (∀ k, (k < cells)%nat →
    cell k (hist s') = cell k (snapshot_of (take (applied s' (group k)) (samples s')))) →
  read_inv s'.
Proof.
  intros Hi Hr Hst [l Hl] Happ Hpc Hs Hc Hm. split; rewrite ?Hr, ?Hst; try done; [by apply Hi| |by apply Hi].
  intros j v n Hv Hn k. destruct (r_reads s Hi j v n Hv Hn) as [H1 ->]. fold k in H1 |- *.
  pose proof (Happ (group k)). pose proof (applied_le s (group k)). split; [lia|].
  by rewrite Hl, take_app_le by lia.
Qed.

Lemma read_inv_tick s us s' : read_inv s → step s (Tick us) = Some s' → read_inv s'.
Proof.
  intros Hi Hs. simpl in Hs. destruct (pc s) eqn:Hp; [|done]. case_match eqn:Hg; simplify_eq.
  reflect_bools.
  assert (Ha : ∀ g, applied s g = length (samples s)) by (intros g; unfold applied; by rewrite Hp).
  eapply (read_inv_write s); simpl; try done; [by eexists|..].
  - intros g. rewrite Ha. unfold applied; simpl. rewrite length_app; simpl. case_decide; lia.
  - split; [lia|by eexists].
  - apply Forall_app. split; [apply Hi|]. repeat constructor; done.
  - rewrite length_alter. apply Hi.
  - intros k Hk. change (Snapshot _ _ _ _) with (write 0 us (hist s)). rewrite cell_write by lia.
    pose proof (r_memory s Hi k Hk) as Hm. rewrite Ha, firstn_all in Hm.
    unfold applied; simpl. rewrite length_app; simpl. destruct (decide (group k = 0%nat)) as [->|Hne].
    + rewrite decide_True, take_ge, snapshot_of_snoc by (rewrite ?length_app; simpl; lia).
      apply cell_record; [apply Hi|apply length_count|done].
    + rewrite decide_False by lia. replace (pred _) with (length (samples s)) by lia.
      by rewrite take_app_length.
Qed.

Lemma read_inv_next s s' : read_inv s → step s Write = Some s' → read_inv s'.
Proof.
  intros Hi Hs. simpl in Hs. destruct (pc s) as [|us g] eqn:Hp; simplify_eq.
  pose proof (r_pc s Hi) as Hpc. rewrite Hp in Hpc. destruct Hpc as [Hg [l Hl]].
  assert (Ha : ∀ g', applied s g' = if decide (g' < g)%nat then S (length l) else length l).
  { intros g'. unfold applied. rewrite Hp, Hl, length_app; simpl. case_decide; lia. }
  set (s' := mkState _ _ _ _ _).
  assert (Ha' : ∀ g', (g' ≤ 3)%nat → applied s' g' = if decide (g' ≤ g)%nat then S (length l) else length l).
  { intros g' H3. unfold applied, s'; simpl. rewrite Hl, length_app; simpl.
    destruct (decide (g = 3%nat)); repeat case_decide; lia. }
  assert (Hge : ∀ g', (applied s g' ≤ applied s' g')%nat).
  { intros g'. unfold applied, s'; simpl. rewrite Hp. destruct (decide (g = 3%nat)); repeat case_decide; lia. }
  eapply (read_inv_write s s'); try done; [exists []; by rewrite app_nil_r|..]; unfold s'; simpl.
  - destruct (decide (g = 3%nat)); [done|]. split; [lia|by exists l].
  - apply Hi.
  - rewrite write_length. apply Hi.
  - intros k Hk. pose proof (group_le k Hk). rewrite cell_write by (done || lia). fold s'.
    pose proof (r_memory s Hi k Hk) as Hm. rewrite Ha in Hm. rewrite Ha' by done.
    destruct (decide (group k = g)) as [Heq|Hne].
    + rewrite decide_False in Hm by lia. rewrite decide_True by lia. rewrite Hl in *.
      rewrite take_app_length in Hm. rewrite take_ge, snapshot_of_snoc by (rewrite length_app; simpl; lia).
      apply cell_record; [apply Hi|apply length_count|done].
    + rewrite Hm. do 3 f_equal. repeat case_decide; lia.
Qed.

Lemma read_inv_load s s' : read_inv s → step s Load = Some s' → read_inv s'.
Proof.
  intros Hi Hs. simpl in Hs. set (k := (length (reads s) mod cells)%nat) in *.
  assert (s' = mkState (pc s) (hist s) (samples s) (reads s ++ [cell k (hist s)])
                 (stamps s ++ [applied s (group k)])) as -> by (destruct (pc s); by simplify_eq).
  clear Hs. split; simpl; try apply Hi; [rewrite !length_app; simpl; by rewrite (r_length s Hi)|..].
  - intros j v n Hv Hn. apply lookup_app_Some in Hv as [Hv|[Hj Hv]].
    + apply lookup_app_Some in Hn as [Hn|[Hj Hn]]; [by apply (r_reads s Hi)|].
      apply lookup_lt_Some in Hv. rewrite (r_length s Hi) in Hj. lia.
    + apply list_lookup_singleton_Some in Hv as [Hj0 <-].
      rewrite lookup_app_r, (r_length s Hi), Hj0 in Hn by (rewrite (r_length s Hi); done). simplify_eq/=.
      assert (j = length (reads s)) as -> by lia. fold k. split; [done|].
      by apply (r_memory s Hi), mod_cells.
  - intros i j a b Hij Ha Hb.
    apply lookup_app_Some in Ha as [Ha|[Hi' Ha]].
    2:{ apply list_lookup_singleton_Some in Ha as [? _]. apply lookup_lt_Some in Hb.
        rewrite length_app in Hb; simpl in Hb. lia. }
    apply lookup_app_Some in Hb as [Hb|[Hj Hb]]; [by apply (r_stamps s Hi i j)|].
    apply list_lookup_singleton_Some in Hb as [Hj0 <-].
    assert (j = length (reads s)) as -> by (rewrite <-(r_length s Hi); lia). fold k.
    destruct (lookup_lt_is_Some_2 (reads s) i) as [v Hv]; [by rewrite <-(r_length s Hi); eapply lookup_lt_Some|].
    destruct (r_reads s Hi i v a Hv Ha) as [Hle _].
    destruct (applied_groups s (group (i mod cells)) (group k)) as [H1 H2].
    split; [lia|]. intros Hg. specialize (H2 Hg). lia.
Qed.

Lemma read_inv_reachable s : reachable step initial s → read_inv s.
Proof.
  revert s. apply invariant_rule.
  - by split.
  - intros s [us| |] s' Hi Hs; [by eapply read_inv_tick|by eapply read_inv_next|by eapply read_inv_load].
Qed.

(** ** What a snapshot tells *)

Lemma cell_loads r k : (k < cells)%nat → cell k (of_loads r) = nth k r 0.
Proof.
  unfold cell, cells, of_loads. intros Hk. destruct (decide (k < 124)%nat) as [Hlt|].
  - cbn [count]. by rewrite !nth_lookup, lookup_take_lt.
  - destruct (decide (k = 124%nat)) as [->|]; [done|]. destruct (decide (k = 125%nat)) as [->|]; [done|].
    by assert (k = 126%nat) as -> by lia.
Qed.

Lemma snapshot_cell s m k :
  (k < cells)%nat → (cells * S m ≤ length (reads s))%nat →
  reads s !! (cells * m + k)%nat = Some (cell k (snapshot s m)).
Proof.
  intros Hk Hm. destruct (lookup_lt_is_Some_2 (reads s) (cells * m + k)) as [v Hv]; [lia|].
  unfold snapshot. rewrite cell_loads, nth_lookup, lookup_take_lt, lookup_drop, Hv by done. done.
Qed.

Lemma snapshot_count s m :
  (cells * S m ≤ length (reads s))%nat → length (count (snapshot s m)) = 124%nat.
Proof. intros Hm. unfold snapshot, of_loads. cbn [count]. rewrite !length_take, length_drop. unfold cells in *. lia. Qed.

(** [since] bucket by bucket. *)
Lemma since_cell k a b :
  length (count a) = 124%nat → length (count b) = 124%nat → (k < 124)%nat →
  cell k (since a b) = wrap64 (cell k a - cell k b).
Proof.
  intros Ha Hb Hk. unfold cell. rewrite !decide_True by done. cbn [count since]. rewrite !nth_lookup.
  destruct (lookup_lt_is_Some_2 (count a) k) as [x Hx]; [lia|].
  destruct (lookup_lt_is_Some_2 (count b) k) as [y Hy]; [lia|].
  by rewrite lookup_zip_with, Hx, Hy.
Qed.

(** The stamp of a counter in a snapshot. *)
Definition stamp (s : state) (m k : nat) : nat := nth (cells * m + k) (stamps s) 0%nat.

Lemma stamp_spec s m k :
  read_inv s → (k < cells)%nat → (cells * S m ≤ length (reads s))%nat →
  stamps s !! (cells * m + k)%nat = Some (stamp s m k) ∧
  (stamp s m k ≤ length (samples s))%nat ∧
  cell k (snapshot s m) = cell k (snapshot_of (take (stamp s m k) (samples s))).
Proof.
  intros Hi Hk Hm. pose proof (snapshot_cell s m k Hk Hm) as Hv.
  destruct (lookup_lt_is_Some_2 (stamps s) (cells * m + k)) as [n Hn]; [rewrite (r_length s Hi); lia|].
  assert (stamp s m k = n) as -> by (unfold stamp; by rewrite nth_lookup, Hn). split; [done|].
  destruct (r_reads s Hi _ _ _ Hv Hn) as [H1 H2].
  rewrite (Nat.mul_comm cells), Nat.add_comm, Nat.Div0.mod_add, Nat.mod_small in H1, H2 by done.
  pose proof (applied_le s (group k)). split; [lia|done].
Qed.

Lemma stamp_later s m m' k :
  read_inv s → (k < cells)%nat → (m < m')%nat → (cells * S m' ≤ length (reads s))%nat →
  (stamp s m k ≤ stamp s m' k)%nat.
Proof.
  intros Hi Hk Hlt Hm. destruct (stamp_spec s m k Hi Hk) as [Ha _]; [unfold cells in *; lia|].
  destruct (stamp_spec s m' k Hi Hk Hm) as [Hb _].
  destruct (r_stamps s Hi _ _ _ _ (ltac:(unfold cells; lia) : (cells * m + k < cells * m' + k)%nat) Ha Hb)
    as [_ H]. apply H. by rewrite !(Nat.mul_comm cells), !(Nat.add_comm _ k), !Nat.Div0.mod_add.
Qed.

(** The buckets are loaded before [wakes]. *)
Lemma stamp_buckets s m k :
  read_inv s → (k < 124)%nat → (cells * S m ≤ length (reads s))%nat →
  (stamp s m k ≤ S (stamp s m 124))%nat.
Proof.
  intros Hi Hk Hm. destruct (stamp_spec s m k Hi) as [Ha _]; [unfold cells; lia|done|].
  destruct (stamp_spec s m 124 Hi) as [Hb _]; [unfold cells; lia|done|].
  by destruct (r_stamps s Hi (cells * m + k) (cells * m + 124) _ _ ltac:(lia) Ha Hb).
Qed.

Lemma cell_count k l :
  Forall sample l → Z.of_nat (length l) ≤ u64_max → (k < 124)%nat →
  cell k (snapshot_of l) = tally (λ us, index_of us =? Z.of_nat k) l.
Proof.
  intros Hl Hn Hk. unfold cell. rewrite decide_True by done.
  rewrite snapshot_of_count, nth_lookup, list_lookup_fmap, lookup_seq_lt by done. simpl.
  pose proof (tally_nonneg (λ us, index_of us =? Z.of_nat k) l).
  pose proof (tally_le_length (λ us, index_of us =? Z.of_nat k) l).
  apply wrap64_small. unfold u64_max in *. lia.
Qed.

Lemma cell_wakes l : Z.of_nat (length l) ≤ u64_max → cell 124 (snapshot_of l) = Z.of_nat (length l).
Proof.
  intros Hl. unfold cell; simpl. rewrite snapshot_of_wakes. apply wrap64_small. unfold u64_max in *. lia.
Qed.

(** Sums of lists that are below one another. *)
Lemma total_le_lookup (l l' : list Z) :
  length l = length l' → (∀ k, (k < length l)%nat → nth k l 0 ≤ nth k l' 0) →
  total (λ c, c) l ≤ total (λ c, c) l'.
Proof.
  revert l'. induction l as [|x l IH]; intros [|y l'] Hlen Hle; simplify_eq/=; [done|].
  pose proof (Hle 0%nat ltac:(lia)); simpl in *. pose proof (IH l' Hlen (λ k Hk, Hle (S k) ltac:(lia))). lia.
Qed.

Lemma tally_take {A} (p : A → bool) (l : list A) n n' :
  (n ≤ n')%nat → tally p (take n' l) = tally p (take n l) + tally p (take (n' - n) (drop n l)).
Proof.
  intros Hn. rewrite <-tally_app. f_equal. rewrite take_take_drop. f_equal. lia.
Qed.

(** The parts of the theorem, for a state that keeps the invariant. *)
Section torn.
Context (s : state) (m m' : nat).
Hypothesis Hi : read_inv s.
Hypothesis Hlen : Z.of_nat (length (samples s)) < u64_max.
Hypothesis Hlt : (m < m')%nat.
Hypothesis Hm' : (cells * S m' ≤ length (reads s))%nat.

Lemma earlier_complete : (cells * S m ≤ length (reads s))%nat.
Proof. unfold cells in *. lia. Qed.
#[local] Hint Resolve earlier_complete : core.

Lemma take_sample n : Forall sample (take n (samples s)).
Proof using Hi. apply Forall_take, Hi. Qed.
Lemma take_length n : Z.of_nat (length (take n (samples s))) ≤ u64_max.
Proof using Hlen. clear Hm' Hlt. rewrite length_take. lia. Qed.
#[local] Hint Resolve take_sample take_length : core.

Lemma snapshot_bucket j k :
  (k < 124)%nat → (cells * S j ≤ length (reads s))%nat →
  cell k (snapshot s j) = tally (λ us, index_of us =? Z.of_nat k) (take (stamp s j k) (samples s)).
Proof using Hi Hlen.
  clear Hm' Hlt.
  intros Hk Hj. destruct (stamp_spec s j k Hi) as (_ & _ & ->); [unfold cells; lia|done|].
  by apply cell_count.
Qed.

Lemma snapshot_wakes j :
  (cells * S j ≤ length (reads s))%nat → wakes (snapshot s j) = Z.of_nat (stamp s j 124).
Proof using Hi Hlen.
  clear Hm' Hlt.
  intros Hj. destruct (stamp_spec s j 124 Hi) as (_ & Hle & Hc); [unfold cells; lia|done|].
  rewrite cell_wakes, length_take, Nat.min_l in Hc by done. exact Hc.
Qed.

Lemma buckets_below_wakes :
  total (λ c, c) (count (snapshot s m)) ≤ wakes (snapshot s m) + 1.
Proof.
  rewrite snapshot_wakes by done. set (l := take (S (stamp s m 124)) (samples s)).
  assert (total (λ c, c) (count (snapshot_of l)) ≤ Z.of_nat (stamp s m 124) + 1).
  { rewrite count_total by (apply take_sample || apply take_length). unfold l. rewrite length_take. lia. }
  enough (total (λ c, c) (count (snapshot s m)) ≤ total (λ c, c) (count (snapshot_of l))) by lia.
  apply total_le_lookup; rewrite snapshot_count by done; [by rewrite length_count|]. intros k Hk.
  assert (Hcell : ∀ h, nth k (count h) 0 = cell k h) by (intros h; unfold cell; by rewrite decide_True).
  rewrite !Hcell, snapshot_bucket, cell_count by (apply take_sample || apply take_length || done).
  unfold l. rewrite (tally_take _ _ _ _ (stamp_buckets s m k Hi Hk earlier_complete)).
  pose proof (tally_nonneg (λ us, index_of us =? Z.of_nat k)
    (take (S (stamp s m 124) - stamp s m k) (drop (stamp s m k) (samples s)))). lia.
Qed.

Lemma since_bucket k :
  (k < 124)%nat → cell k (since (snapshot s m') (snapshot s m)) =
  tally (λ us, index_of us =? Z.of_nat k)
    (take (stamp s m' k - stamp s m k) (drop (stamp s m k) (samples s))).
Proof.
  intros Hk. rewrite since_cell by (try apply snapshot_count; done).
  rewrite !snapshot_bucket by done.
  rewrite (tally_take _ (samples s) (stamp s m k) (stamp s m' k))
    by (apply stamp_later; unfold cells in *; done || lia).
  set (t := tally _ (take (_ - _) _)). pose proof (tally_nonneg _ _ : 0 ≤ t).
  pose proof (tally_le_length _ _ : t ≤ _) as Ht. rewrite length_take, length_drop in Ht.
  rewrite Z.add_simpl_l. apply wrap64_small. unfold u64_max in *. lia.
Qed.
End torn.


(** A snapshot that a wake overtakes between the buckets and [wakes], and one after. *)
Definition overtaken : list label :=
  [Tick 7; Write; Write; Write] ++ replicate 20 Load ++ [Tick 3; Write] ++ replicate 107 Load ++
  [Write; Write] ++ replicate 127 Load.
Definition read_twice : state := default initial (exec step initial overtaken).


End LagRead.
