(* ===== verification/Lease.v ===== *)
(** * Move-only leases

    [AdmissionGate::Lease] (reactor.h) and [ConnectionAdmission::Lease]
    (connection_admission.h) are move-only handles: an object is engaged with an owner or
    empty, moves transfer the engagement, and resetting or destroying an engaged object
    gives one admission back to its owner. This file models the store of such objects and
    proves that every operation keeps the number of engaged objects in step with what it
    gives back. *)

From S2P Require Import Prelude.

Module Lease.

(** The lease objects ever made, by creation index; [Some g] is engaged with owner [g].
    A destroyed object stays in the store, empty. *)
Abbreviation store A := (list (option A)).

Section lease.
Context {A : Type} `{EqDecision A}.
Implicit Types (st : store A) (g : A).

(** The owner an object is engaged with. *)
Definition owner st (l : nat) : option A := mjoin (st !! l).

(** [reset()], also run by the destructor: empties the object and names the owner that
    gets an admission back. *)
Definition reset st (l : nat) : store A * option A := (<[l:=None]> st, owner st l).

(** The move constructor: a new object takes the engagement of [src]. *)
Definition move_construct st (src : nat) : store A :=
  <[src:=None]> st ++ [owner st src].

(** [AdmissionGate::Lease::operator=(Lease&&)]: [reset()], then the exchange; there is no
    test for self-assignment. *)
Definition gate_move_assign st (dst src : nat) : store A * option A :=
  let '(st, released) := reset st dst in
  let gate := owner st src in
  (<[dst:=gate]> (<[src:=None]> st), released).

(** [ConnectionAdmission::Lease::operator=(Lease&&)]: nothing on self-assignment. *)
Definition admission_move_assign st (dst src : nat) : store A * option A :=
  if decide (dst = src) then (st, None)
  else
    let '(st, released) := reset st dst in
    let state := owner st src in
    (<[dst:=state]> (<[src:=None]> st), released).

(** One when the owner is [g]. *)
Definition holds g (o : option A) : Z := bit (bool_decide (o = Some g)).

(** How many objects are engaged with [g]. *)
Definition held g st : Z := total (holds g) st.

Lemma holds_nonneg g o : 0 ≤ holds g o.
Proof. apply bit_nonneg. Qed.

Lemma held_nonneg g st : 0 ≤ held g st.
Proof. apply total_nonneg, holds_nonneg. Qed.

Lemma holds_None g : holds g None = 0.
Proof. done. Qed.

Lemma holds_Some g : holds g (Some g) = 1.
Proof. unfold holds. by rewrite bool_decide_eq_true_2. Qed.

Lemma holds_ne g g' : g ≠ g' → holds g (Some g') = 0.
Proof. intros. unfold holds. rewrite bool_decide_eq_false_2; [done|congruence]. Qed.

Lemma held_snoc g st o : held g (st ++ [o]) = held g st + holds g o.
Proof. apply total_snoc. Qed.

Lemma held_insert g st l o :
  (l < length st)%nat → held g (<[l:=o]> st) = held g st - holds g (owner st l) + holds g o.
Proof.
  intros [x Hx]%lookup_lt_is_Some_2. unfold held, owner.
  rewrite (total_insert _ _ _ x) by done. rewrite Hx. done.
Qed.

Lemma owner_insert_eq st l o : (l < length st)%nat → owner (<[l:=o]> st) l = o.
Proof. intros. unfold owner. by rewrite list_lookup_insert_eq. Qed.

Lemma owner_insert_ne st l l' o : l ≠ l' → owner (<[l:=o]> st) l' = owner st l'.
Proof. intros. unfold owner. by rewrite list_lookup_insert_ne. Qed.

Lemma owner_held st l g : owner st l = Some g → 1 ≤ held g st.
Proof.
  unfold owner. intros H. destruct (st !! l) as [o|] eqn:Ho; simplify_eq/=.
  rewrite <- (holds_Some g). apply (total_ge (holds g) st l); [apply holds_nonneg|done].
Qed.

(** An object that is reset is worth one admission to its owner, and none to others. *)
Lemma held_reset g st l st' r :
  (l < length st)%nat → reset st l = (st', r) → held g st' = held g st - holds g r.
Proof. intros Hl [= <- <-]. rewrite held_insert, holds_None by done. lia. Qed.

Lemma held_move_construct g st src :
  (src < length st)%nat → held g (move_construct st src) = held g st.
Proof.
  intros Hl. unfold move_construct. rewrite held_snoc, held_insert, holds_None by done. lia.
Qed.

Lemma held_gate_move_assign g st dst src st' r :
  (dst < length st)%nat → (src < length st)%nat →
  gate_move_assign st dst src = (st', r) → held g st' = held g st - holds g r.
Proof.
  intros Hd Hs. unfold gate_move_assign, reset. intros [= <- <-].
  rewrite !held_insert, holds_None by (rewrite ?length_insert; done).
  destruct (decide (src = dst)) as [->|Hne].
  - rewrite !owner_insert_eq by (rewrite ?length_insert; done). rewrite holds_None. lia.
  - rewrite (owner_insert_ne (<[dst:=None]> st) src dst), owner_insert_eq by done.
    rewrite holds_None. lia.
Qed.

Lemma held_admission_move_assign g st dst src st' r :
  (dst < length st)%nat → (src < length st)%nat →
  admission_move_assign st dst src = (st', r) → held g st' = held g st - holds g r.
Proof.
  intros Hd Hs. unfold admission_move_assign. case_decide as Hne.
  - intros [= <- <-]. rewrite holds_None. lia.
  - by apply held_gate_move_assign.
Qed.
End lease.

#[export] Hint Resolve holds_nonneg held_nonneg : reactor.

End Lease.
