(* ===== verification/Gate.v ===== *)
(** * reactor.h: AdmissionGate

    The per-reactor admission window. [try_enter] is two or three atomic operations with
    other threads in between, so the gate is a step machine over those operations; the
    leases and the unscoped admissions handed out are part of the state, which lets the
    theorems relate [inflight] to what is really admitted. *)

From S2P Require Import Prelude Lease.

Module Gate.
Import Lease.

(** [struct AdmissionGate]. *)
Record AdmissionGate := mkGate { inflight : Z; rejected : Z; limit : Z }.

(** [AdmissionGate(limit)]. *)
Definition make (limit : Z) : AdmissionGate := mkGate 0 0 limit.

(** [inflight.fetch_add(1)] and [inflight.fetch_sub(1)]. *)
Definition fetch_add (g : AdmissionGate) : AdmissionGate :=
  mkGate (wrap_i32 (inflight g + 1)) (rejected g) (limit g).
Definition fetch_sub (g : AdmissionGate) : AdmissionGate :=
  mkGate (wrap_i32 (inflight g - 1)) (rejected g) (limit g).

(** [rejected.fetch_add(1)]. *)
Definition count_refusal (g : AdmissionGate) : AdmissionGate :=
  mkGate (inflight g) (wrap64 (rejected g + 1)) (limit g).

(** The test of line 162, on the value [fetch_add] returned. *)
Definition refused (g : AdmissionGate) (old : Z) : bool := (limit g <=? old) && (0 <? limit g).

(** [try_enter()] with no other thread in between. *)
Definition try_enter (g : AdmissionGate) : bool * AdmissionGate :=
  if refused g (inflight g)
  then (false, count_refusal (fetch_sub (fetch_add g)))
  else (true, fetch_add g).

(** [leave()]. *)
Definition leave (g : AdmissionGate) : AdmissionGate := fetch_sub g.

(** Where a thread is inside [try_enter] of a gate; the flag tells [enter()], which wraps
    the answer in a lease, from a bare [try_enter()]. *)
Inductive pc :=
| Idle
| RollBack (g : nat) (scoped : bool)
| CountRefusal (g : nat) (scoped : bool).

(** The gates, the threads that use them, the lease objects, and per gate the admissions
    taken by a bare [try_enter()] and not yet given back by [leave()]. *)
Record sys := mkSys {
  gates : list AdmissionGate;
  threads : list pc;
  leases : store nat;
  unscoped : list Z
}.

(** One atomic operation. *)
Inductive label :=
| Enter (t g : nat) (scoped : bool)
| Undo (t : nat)
| Refuse (t : nat)
| Leave (g : nat)
| Reset (l : nat)
| MoveConstruct (src : nat)
| MoveAssign (dst src : nat).

(** An admission given back to its gate, if any. *)
Definition give_back (released : option nat) (gs : list AdmissionGate) : list AdmissionGate :=
  match released with None => gs | Some g => alter fetch_sub g gs end.

Definition step (s : sys) (l : label) : option sys :=
  match l with
  | Enter t g scoped =>
      match threads s !! t, gates s !! g with
      | Some Idle, Some gate =>
          let gs := <[g:=fetch_add gate]> (gates s) in
          if refused gate (inflight gate)
          then Some (mkSys gs (<[t:=RollBack g scoped]> (threads s)) (leases s) (unscoped s))
          else if scoped
          then Some (mkSys gs (threads s) (leases s ++ [Some g]) (unscoped s))
          else Some (mkSys gs (threads s) (leases s) (alter (Z.add 1) g (unscoped s)))
      | _, _ => None
      end
  | Undo t =>
      match threads s !! t with
      | Some (RollBack g scoped) =>
          Some (mkSys (alter fetch_sub g (gates s))
                  (<[t:=CountRefusal g scoped]> (threads s)) (leases s) (unscoped s))
      | _ => None
      end
  | Refuse t =>
      match threads s !! t with
      | Some (CountRefusal g scoped) =>
          Some (mkSys (alter count_refusal g (gates s)) (<[t:=Idle]> (threads s))
                  (if scoped then leases s ++ [None] else leases s) (unscoped s))
      | _ => None
      end
  | Leave g =>
      match unscoped s !! g with
      | Some n =>
          if 0 <? n
          then Some (mkSys (alter leave g (gates s)) (threads s) (leases s)
                       (<[g:=n - 1]> (unscoped s)))
          else None
      | None => None
      end
  | Reset l =>
      if decide (l < length (leases s))%nat then
        let '(st, r) := reset (leases s) l in
        Some (mkSys (give_back r (gates s)) (threads s) st (unscoped s))
      else None
  | MoveConstruct src =>
      if decide (src < length (leases s))%nat then
        Some (mkSys (gates s) (threads s) (move_construct (leases s) src) (unscoped s))
      else None
  | MoveAssign dst src =>
      if decide (dst < length (leases s) ∧ src < length (leases s))%nat then
        let '(st, r) := gate_move_assign (leases s) dst src in
        Some (mkSys (give_back r (gates s)) (threads s) st (unscoped s))
      else None
  end.

(** Gates with the given limits and [n] idle threads. *)
Definition init (limits : list Z) (n : nat) : sys :=
  mkSys (make <$> limits) (replicate n Idle) [] (replicate (length limits) 0).

(** ** Accounting *)

(** The entries of gate [g] that were counted and are about to be rolled back. *)
Definition rolling (g : nat) (p : pc) : Z :=
  match p with RollBack g' _ => bit (bool_decide (g' = g)) | _ => 0 end.

(** The admissions out on gate [g]: leases and unscoped ones. *)
Definition admitted (s : sys) (g : nat) : Z :=
  held g (leases s) + default 0 (unscoped s !! g).

Definition in_rollback (s : sys) (g : nat) : Z := total (rolling g) (threads s).

Lemma rolling_nonneg g p : 0 ≤ rolling g p.
Proof. destruct p; simpl; [lia|apply bit_nonneg|lia]. Qed.

Lemma rolling_le_1 g p : rolling g p ≤ 1.
Proof. destruct p; simpl; [lia|apply bit_le_1|lia]. Qed.

(** Every gate's [inflight] is, at the width of [int], the admissions out plus the entries
    being rolled back. *)
Record gate_inv (s : sys) : Prop := {
  inv_count : ∀ g gate, gates s !! g = Some gate →
    inflight gate = wrap_i32 (admitted s g + in_rollback s g);
  inv_unscoped : ∀ g n, unscoped s !! g = Some n → 0 ≤ n;
  inv_length : length (unscoped s) = length (gates s)
}.

Lemma admitted_nonneg s g : gate_inv s → 0 ≤ admitted s g.
Proof.
  intros [_ Hu _]. unfold admitted. pose proof (held_nonneg g (leases s)).
  destruct (unscoped s !! g) as [n|] eqn:Hn; simpl; [apply Hu in Hn|]; lia.
Qed.

Lemma in_rollback_bounds s g :
  0 ≤ in_rollback s g ≤ Z.of_nat (length (threads s)).
Proof.
  split; [apply total_nonneg, rolling_nonneg|apply total_le_length, rolling_le_1].
Qed.

(** Giving a released admission back. *)
Lemma give_back_lookup r gs g gate :
  give_back r gs !! g = Some gate →
  ∃ gate0, gs !! g = Some gate0 ∧
           gate = if bool_decide (r = Some g) then fetch_sub gate0 else gate0.
Proof.
  destruct r as [g'|]; simpl; [|by eauto].
  destruct (decide (g' = g)) as [->|Hne].
  - rewrite list_lookup_alter_eq. destruct (gs !! g) as [gate0|]; simpl; [|done].
    intros [= <-]. exists gate0. by rewrite bool_decide_eq_true_2.
  - rewrite list_lookup_alter_ne by done. intros. exists gate.
    rewrite bool_decide_eq_false_2; [done|congruence].
Qed.

Lemma give_back_length r gs : length (give_back r gs) = length gs.
Proof. destruct r; simpl; [apply length_alter|done]. Qed.

(** The release of what a lease operation let go keeps the accounting. *)
Lemma give_back_inv s st r :
  gate_inv s → (∀ g, held g st = held g (leases s) - holds g r) →
  gate_inv (mkSys (give_back r (gates s)) (threads s) st (unscoped s)).
Proof.
  intros [Hc Hu Hl] Hheld. split; simpl; [|done|by rewrite give_back_length].
  intros g gate (gate0 & Hg & ->)%give_back_lookup. apply Hc in Hg.
  unfold admitted, in_rollback in *. simpl. rewrite Hheld. unfold holds.
  destruct (decide (r = Some g)) as [Hr|Hr];
    [rewrite !bool_decide_eq_true_2 by done|rewrite !bool_decide_eq_false_2 by done]; simpl.
  - simpl; rewrite Hg, wrap_i32_sub. f_equal. lia.
  - rewrite Hg. f_equal. lia.
Qed.

(** A thread that moves between states that are not a rollback of any gate. *)
Lemma rollback_insert s t p q g :
  threads s !! t = Some p →
  total (rolling g) (<[t:=q]> (threads s)) = in_rollback s g - rolling g p + rolling g q.
Proof. intros Hp. unfold in_rollback. by rewrite (total_insert _ _ _ p). Qed.

Lemma enter_inv s t g scoped s' :
  gate_inv s → step s (Enter t g scoped) = Some s' → gate_inv s'.
Proof.
  intros Hinv Hstep. pose proof Hinv as [Hc Hu Hl]. simpl in Hstep.
  destruct (threads s !! t) as [[]|] eqn:Ht; try done.
  destruct (gates s !! g) as [gate|] eqn:Hg; [|done].
  pose proof (Hc g gate Hg) as Hcg.
  assert (∀ g' gate' n,
    <[g:=fetch_add gate]> (gates s) !! g' = Some gate' →
    n = admitted s g' + in_rollback s g' + bit (bool_decide (g = g')) →
    inflight gate' = wrap_i32 n) as Hgoal.
  { intros g' gate' n Hg' ->. destruct (decide (g = g')) as [<-|Hne].
    - rewrite list_lookup_insert_eq in Hg' by (by eapply lookup_lt_Some).
      simplify_eq/=. by rewrite Hcg, wrap_i32_add, bool_decide_eq_true_2.
    - rewrite list_lookup_insert_ne in Hg' by done. rewrite (Hc _ _ Hg').
      rewrite bool_decide_eq_false_2 by done. simpl. f_equal. lia. }
  destruct (refused gate (inflight gate)); [|destruct scoped]; simplify_eq.
  - split; simpl; [|done|by rewrite length_insert].
    intros g' gate' Hg'. apply (Hgoal g' gate'); [done|]. unfold admitted. simpl.
    unfold in_rollback at 1. simpl. rewrite (rollback_insert s t Idle) by done. simpl. lia.
  - split; simpl; [|done|by rewrite length_insert].
    intros g' gate' Hg'. apply (Hgoal g' gate'); [done|]. unfold admitted, in_rollback. simpl.
    rewrite held_snoc. destruct (decide (g = g')) as [<-|Hne].
    + rewrite holds_Some, bool_decide_eq_true_2 by done. simpl. lia.
    + rewrite holds_ne, bool_decide_eq_false_2 by congruence. simpl. lia.
  - split; simpl; [| |by rewrite length_alter, length_insert].
    + intros g' gate' Hg'. apply (Hgoal g' gate'); [done|]. unfold admitted, in_rollback. simpl.
      destruct (decide (g = g')) as [<-|Hne].
      * rewrite list_lookup_alter_eq, bool_decide_eq_true_2 by done.
        apply lookup_lt_Some in Hg. rewrite <- Hl in Hg.
        apply lookup_lt_is_Some in Hg as [n Hn]. rewrite Hn. simpl. lia.
      * rewrite list_lookup_alter_ne, bool_decide_eq_false_2 by done. simpl. lia.
    + intros g' n Hn. destruct (decide (g = g')) as [<-|Hne].
      * rewrite list_lookup_alter_eq in Hn.
        destruct (unscoped s !! g) as [m|] eqn:Hm; simplify_eq/=. apply Hu in Hm. lia.
      * rewrite list_lookup_alter_ne in Hn by done. by apply (Hu g').
Qed.

Lemma undo_inv s t s' : gate_inv s → step s (Undo t) = Some s' → gate_inv s'.
Proof.
  intros [Hc Hu Hl] Hstep. simpl in Hstep.
  destruct (threads s !! t) as [[|g scoped|]|] eqn:Ht; simplify_eq.
  split; simpl; [|done|by rewrite length_alter].
  intros g' gate' (gate0 & Hg & ->)%(give_back_lookup (Some g)). apply Hc in Hg.
  unfold admitted, in_rollback in *. simpl. rewrite (rollback_insert s t (RollBack g scoped)) by done.
  unfold in_rollback. simpl. destruct (decide (g = g')) as [<-|Hne].
  - rewrite !bool_decide_eq_true_2 by done. simpl; rewrite Hg, wrap_i32_sub. f_equal. simpl. lia.
  - rewrite !bool_decide_eq_false_2 by congruence. rewrite Hg. f_equal. simpl. lia.
Qed.

Lemma refuse_inv s t s' : gate_inv s → step s (Refuse t) = Some s' → gate_inv s'.
Proof.
  intros [Hc Hu Hl] Hstep. simpl in Hstep.
  destruct (threads s !! t) as [[| |g scoped]|] eqn:Ht; simplify_eq.
  split; simpl; [|done|by rewrite length_alter].
  intros g' gate' Hg'.
  assert (∃ gate0, gates s !! g' = Some gate0 ∧ inflight gate' = inflight gate0)
    as (gate0 & Hg & ->).
  { destruct (decide (g = g')) as [<-|Hne].
    - rewrite list_lookup_alter_eq in Hg'. destruct (gates s !! g) as [gate0|]; simplify_eq/=.
      by exists gate0.
    - rewrite list_lookup_alter_ne in Hg' by done. by exists gate'. }
  rewrite (Hc _ _ Hg). f_equal. unfold admitted, in_rollback. simpl.
  rewrite (rollback_insert s t (CountRefusal g scoped)) by done. unfold in_rollback. simpl.
  destruct scoped; [rewrite held_snoc, holds_None|]; lia.
Qed.

Lemma leave_inv s g s' : gate_inv s → step s (Leave g) = Some s' → gate_inv s'.
Proof.
  intros [Hc Hu Hl] Hstep. simpl in Hstep.
  destruct (unscoped s !! g) as [n|] eqn:Hn; [|done].
  destruct (Z.ltb_spec 0 n); simplify_eq.
  split; simpl; [| |by rewrite length_insert, length_alter].
  - intros g' gate' (gate0 & Hg & ->)%(give_back_lookup (Some g)). apply Hc in Hg.
    unfold admitted, in_rollback in *. simpl. destruct (decide (g = g')) as [<-|Hne].
    + rewrite bool_decide_eq_true_2 by done. simpl; rewrite Hg, wrap_i32_sub.
      rewrite list_lookup_insert_eq by (by eapply lookup_lt_Some). rewrite Hn. simpl. f_equal. lia.
    + rewrite bool_decide_eq_false_2 by congruence. rewrite list_lookup_insert_ne by done.
      by rewrite Hg.
  - intros g' m Hm. destruct (decide (g = g')) as [<-|Hne].
    + rewrite list_lookup_insert_eq in Hm by (by eapply lookup_lt_Some). simplify_eq. lia.
    + rewrite list_lookup_insert_ne in Hm by done. by apply (Hu g').
Qed.

Lemma gate_step_inv s l s' : gate_inv s → step s l = Some s' → gate_inv s'.
Proof.
  intros Hinv Hstep. destruct l as [t g scoped|t|t|g|l|src|dst src].
  - by eapply enter_inv.
  - by eapply undo_inv.
  - by eapply refuse_inv.
  - by eapply leave_inv.
  - unfold step in Hstep. case_decide as Hlt; [|done].
    destruct (reset (leases s) l) as [st r] eqn:Hm; injection Hstep as <-.
    apply give_back_inv; [done|]. intros g. by apply (held_reset g (leases s) l).
  - unfold step in Hstep. case_decide as Hlt; simplify_eq/=.
    apply (give_back_inv s _ None); [done|]. intros g.
    rewrite held_move_construct, holds_None by done. lia.
  - unfold step in Hstep. case_decide as Hlt; [|done]. destruct Hlt.
    destruct (gate_move_assign (leases s) dst src) as [st r] eqn:Hm; injection Hstep as <-.
    apply give_back_inv; [done|]. intros g. by apply (held_gate_move_assign g (leases s) dst src).
Qed.

Lemma gate_init_inv limits n : gate_inv (init limits n).
Proof.
  split; simpl.
  - intros g gate Hg. rewrite list_lookup_fmap in Hg.
    destruct (limits !! g) as [lim|] eqn:Hlim; simplify_eq/=.
    unfold admitted, in_rollback. simpl. rewrite total_replicate. simpl.
    rewrite Z.mul_0_r. destruct (replicate _ 0 !! g) as [z|] eqn:Hz; simpl; [|done].
    apply lookup_replicate in Hz as [-> _]. done.
  - intros g m Hm. apply lookup_replicate in Hm as [-> _]. done.
  - by rewrite length_replicate, length_fmap.
Qed.

Lemma gate_reachable_inv limits n s : reachable step (init limits n) s → gate_inv s.
Proof.
  revert s. apply invariant_rule; [apply gate_init_inv|]. intros s l s'. apply gate_step_inv.
Qed.

(** ** What a step may change *)

Lemma step_threads s l s' : step s l = Some s' → length (threads s') = length (threads s).
Proof.
  intros Hstep. destruct l; simpl in Hstep; step_cases; rewrite ?length_insert; done.
Qed.

Lemma step_limit s l s' g gate' :
  step s l = Some s' → gates s' !! g = Some gate' →
  ∃ gate, gates s !! g = Some gate ∧ limit gate = limit gate'.
Proof.
  assert (∀ f (h : nat) (gs : list AdmissionGate), (∀ x, limit (f x) = limit x) →
    alter f h gs !! g = Some gate' → ∃ gate, gs !! g = Some gate ∧ limit gate = limit gate')
    as Halter.
  { intros f h gs Hf. destruct (decide (h = g)) as [->|Hne].
    - rewrite list_lookup_alter_eq. destruct (gs !! g) as [x|]; simpl; [|done].
      intros [= <-]. by exists x.
    - rewrite list_lookup_alter_ne by done. by eauto. }
  assert (∀ r gs, give_back r gs !! g = Some gate' →
    ∃ gate, gs !! g = Some gate ∧ limit gate = limit gate') as Hgive.
  { intros [h|] gs; simpl; [by apply Halter|by eauto]. }
  assert (∀ (h : nat) gate, gates s !! h = Some gate →
    <[h:=fetch_add gate]> (gates s) !! g = Some gate' →
    ∃ gate, gates s !! g = Some gate ∧ limit gate = limit gate') as Hins.
  { intros h gate Hg. destruct (decide (h = g)) as [->|Hne].
    - rewrite list_lookup_insert_eq by (by eapply lookup_lt_Some). intros [= <-]. by exists gate.
    - rewrite list_lookup_insert_ne by done. by eauto. }
  intros Hstep Hg. destruct l; simpl in Hstep; step_cases;
    solve [by eapply Hins | by eapply Halter; [|exact Hg] | by eapply Hgive | by eauto].
Qed.

(** A refused entry is one the gate counts as full: admissions and concurrent roll-backs
    together reach the limit. *)
Lemma refused_spec limits n s g gate :
  reachable step (init limits n) s → gates s !! g = Some gate →
  admitted s g + in_rollback s g < 2 ^ 31 →
  refused gate (inflight gate) = true ↔
  0 < limit gate ∧ limit gate ≤ admitted s g + in_rollback s g.
Proof.
  intros Hr Hg Hb. pose proof (gate_reachable_inv _ _ _ Hr) as Hinv.
  pose proof (admitted_nonneg s g Hinv). pose proof (in_rollback_bounds s g).
  destruct Hinv as [Hc _ _]. unfold refused.
  rewrite (Hc _ _ Hg), wrap_i32_small by lia. rewrite andb_true_iff, Z.leb_le, Z.ltb_lt. lia.
Qed.

(** The admissions of gate [g] after one step. *)
Lemma step_admitted s l s' g gate :
  gate_inv s → step s l = Some s' → gates s !! g = Some gate →
  admitted s' g ≤ admitted s g ∨
  (admitted s' g = admitted s g + 1 ∧ refused gate (inflight gate) = false).
Proof.
  intros [Hc Hu Hl] Hstep Hg. unfold admitted. destruct l as [t h scoped|t|t|h|l|src|dst src];
    unfold step in Hstep.
  - destruct (threads s !! t) as [[]|]; try done. destruct (gates s !! h) as [gate'|] eqn:Hh; [|done].
    destruct (refused gate' (inflight gate')) eqn:Hre; [simplify_eq/=; lia|].
    destruct (decide (h = g)) as [->|Hne]; simplify_eq.
    + destruct scoped; simplify_eq/=; right; split; try done.
      * rewrite held_snoc, holds_Some. lia.
      * rewrite list_lookup_alter_eq. apply lookup_lt_Some in Hh. rewrite <- Hl in Hh.
        apply lookup_lt_is_Some in Hh as [m ->]. simpl. lia.
    + left. destruct scoped; simplify_eq/=.
      * rewrite held_snoc, holds_ne by congruence. lia.
      * rewrite list_lookup_alter_ne by done. lia.
  - step_cases; lia.
  - step_cases; rewrite ?held_snoc, ?holds_None; lia.
  - destruct (unscoped s !! h) as [m|] eqn:Hm; [|done]. destruct (0 <? m); simplify_eq/=. left.
    destruct (decide (h = g)) as [->|Hne].
    + rewrite list_lookup_insert_eq by (by eapply lookup_lt_Some). rewrite Hm. simpl. lia.
    + rewrite list_lookup_insert_ne by done. lia.
  - case_decide as Hlt; [|done].
    destruct (reset (leases s) l) as [st r] eqn:Hm; injection Hstep as <-. left. cbn [leases unscoped].
    rewrite (held_reset g (leases s) l st r) by done. pose proof (holds_nonneg g r). lia.
  - case_decide as Hlt; simplify_eq/=. rewrite held_move_construct by done. lia.
  - case_decide as Hlt; [|done]. destruct Hlt.
    destruct (gate_move_assign (leases s) dst src) as [st r] eqn:Hm; injection Hstep as <-. left. cbn [leases unscoped].
    rewrite (held_gate_move_assign g (leases s) dst src st r) by done.
    pose proof (holds_nonneg g r). lia.
Qed.

(** ** Properties *)

(** At every point of every interleaving of [enter], [try_enter], [leave] and lease
    moves and resets, a gate's [inflight] is exactly the admissions out plus the entries
    about to be rolled back, at the width of [int]; with no entry in flight it is exactly
    the admissions out. *)
Theorem inflight_exact limits n s g gate :
  reachable step (init limits n) s → gates s !! g = Some gate →
  inflight gate = wrap_i32 (admitted s g + in_rollback s g) ∧
  ((∀ p, p ∈ threads s → p = Idle) → inflight gate = wrap_i32 (admitted s g)).
Proof.
  intros Hr Hg. destruct (gate_reachable_inv _ _ _ Hr) as [Hc _ _]. rewrite (Hc _ _ Hg).
  split; [done|]. intros Hidle. unfold in_rollback.
  rewrite total_zero; [by rewrite Z.add_0_r|]. intros p ->%Hidle. done.
Qed.

(** C21: a positive limit is never exceeded, whatever the interleaving: at most [limit]
    admissions of a gate are out at once (as long as the threads that can be inside
    [try_enter] plus the limit fit an [int]). *)
Theorem gate_bound limits n s g gate :
  reachable step (init limits n) s → gates s !! g = Some gate →
  0 < limit gate → limit gate + Z.of_nat n < 2 ^ 31 →
  0 ≤ admitted s g ≤ limit gate.
Proof.
  intros Hr Hg Hpos Hb. split; [by eapply admitted_nonneg, gate_reachable_inv|].
  assert (length (threads s) = n ∧
    ∀ gate, gates s !! g = Some gate → 0 < limit gate → limit gate + Z.of_nat n < 2 ^ 31 →
    admitted s g ≤ limit gate) as [_ HI]; [|by apply HI].
  clear gate Hg Hpos Hb. induction Hr as [|s l s' Hr [IHt IH] Hstep].
  - split; [apply length_replicate|]. intros gate Hg Hpos _. unfold admitted, init. simpl.
    destruct (replicate _ 0 !! g) as [z|] eqn:Hz; simpl; [|lia].
    apply lookup_replicate in Hz as [-> _]. lia.
  - split; [by rewrite (step_threads s l)|]. intros gate' Hg' Hpos Hb.
    destruct (step_limit s l s' g gate' Hstep Hg') as (gate & Hg & Hlim).
    rewrite <- Hlim in *. specialize (IH gate Hg Hpos Hb).
    destruct (step_admitted s l s' g gate (gate_reachable_inv _ _ _ Hr) Hstep Hg)
      as [?|[-> Hno]]; [lia|].
    pose proof (in_rollback_bounds s g) as Hroll. rewrite IHt in Hroll.
    destruct (decide (limit gate ≤ admitted s g + in_rollback s g)) as [Hfull|]; [|lia].
    rewrite (proj2 (refused_spec limits n s g gate Hr Hg ltac:(lia))) in Hno; done.
Qed.

(** An entry is refused exactly when the admissions out plus the entries being rolled
    back reach a positive limit; with no roll-back in progress that is exactly a full
    window, and a limit of zero or less never refuses. *)
Theorem refusal_exact limits n s g gate :
  reachable step (init limits n) s → gates s !! g = Some gate →
  admitted s g + in_rollback s g < 2 ^ 31 →
  (refused gate (inflight gate) = true ↔
   0 < limit gate ∧ limit gate ≤ admitted s g + in_rollback s g) ∧
  (in_rollback s g = 0 →
   fst (try_enter gate) = false ↔ 0 < limit gate ∧ limit gate ≤ admitted s g).
Proof.
  intros Hr Hg Hb. pose proof (refused_spec limits n s g gate Hr Hg Hb) as Hspec.
  split; [done|]. intros H0. rewrite H0, Z.add_0_r in Hspec. rewrite <- Hspec.
  unfold try_enter. by destruct (refused gate (inflight gate)).
Qed.

(** Two entries at once can both be refused by a gate that has room: one of them sees
    the other's count before it is rolled back. A refusal therefore does not imply that
    [limit] requests were in flight. *)
Theorem spurious_refusal :
  ∃ s s' gate, reachable step (init [1] 3) s ∧ gates s !! 0%nat = Some gate ∧
    limit gate = 1 ∧ admitted s 0 = 0 ∧
    step s (Enter 2 0 true) = Some s' ∧ threads s' !! 2%nat = Some (RollBack 0 true).
Proof.
  assert (∃ s, exec step (init [1] 3) [Enter 0 0 true; Enter 1 0 true; Reset 0] = Some s ∧
    ∃ s' gate, gates s !! 0%nat = Some gate ∧ limit gate = 1 ∧ admitted s 0 = 0 ∧
    step s (Enter 2 0 true) = Some s' ∧ threads s' !! 2%nat = Some (RollBack 0 true))
    as (s & Hexec & s' & gate & H).
  { eexists. split; [vm_compute; reflexivity|]. eexists _, _.
    split_and!; vm_compute; reflexivity. }
  exists s, s', gate. split; [by eapply exec_reachable|done].
Qed.

(** A schedule with a refusal, a move assignment over a live lease and a release. *)
Definition demo : list label :=
  [Enter 0 0 true; Enter 1 0 true; Enter 2 0 true; Undo 2; Refuse 2; MoveAssign 0 1].

Lemma inflight_exact_witness :
  ∃ s gate, exec step (init [2] 3) demo = Some s ∧ gates s !! 0%nat = Some gate ∧
    inflight gate = 1 ∧ rejected gate = 1 ∧
    inflight gate = wrap_i32 (admitted s 0 + in_rollback s 0) ∧
    ((∀ p, p ∈ threads s → p = Idle) → inflight gate = wrap_i32 (admitted s 0)).
Proof.
  eexists _, _. split; [vm_compute; reflexivity|]. split; [vm_compute; reflexivity|].
  split; [reflexivity|]. split; [reflexivity|].
  eapply (inflight_exact [2] 3); [apply (exec_reachable step (init [2] 3) demo)|];
    vm_compute; reflexivity.
Defined.

Lemma gate_bound_witness :
  ∃ s gate, exec step (init [2] 3) demo = Some s ∧ gates s !! 0%nat = Some gate ∧
    limit gate = 2 ∧ 0 ≤ admitted s 0 ≤ limit gate.
Proof.
  eexists _, _. split; [vm_compute; reflexivity|]. split; [vm_compute; reflexivity|].
  split; [reflexivity|].
  eapply (gate_bound [2] 3); [apply (exec_reachable step (init [2] 3) demo)| | |];
    vm_compute; reflexivity.
Defined.

Lemma refusal_exact_witness :
  ∃ s gate, exec step (init [1] 2) [Enter 0 0 true] = Some s ∧ gates s !! 0%nat = Some gate ∧
    fst (try_enter gate) = false ∧
    (refused gate (inflight gate) = true ↔
     0 < limit gate ∧ limit gate ≤ admitted s 0 + in_rollback s 0) ∧
    (in_rollback s 0 = 0 →
     fst (try_enter gate) = false ↔ 0 < limit gate ∧ limit gate ≤ admitted s 0).
Proof.
  eexists _, _. split; [vm_compute; reflexivity|]. split; [vm_compute; reflexivity|].
  split; [reflexivity|].
  eapply (refusal_exact [1] 2); [apply (exec_reachable step (init [1] 2) [Enter 0 0 true])| |];
    vm_compute; reflexivity.
Defined.

End Gate.
