(* ===== verification/Admission.v ===== *)
(** * connection_admission.h: ConnectionAdmission

    The server-wide bound on live connections. [try_enter] is a compare-and-exchange loop
    followed by two more; every atomic operation is one step here, weak exchanges may fail
    for no reason, and any number of threads interleave. The file proves the bound and the
    exactness of the four counters, refines the loops to an atomic admission, and shows
    that a thread left alone finishes. *)

From S2P Require Import Prelude Lease.

Module Admission.
Import Lease.

(** ** The code *)

(** [ConnectionAdmission::State]. *)
Record State := mkState {
  maximum : Z;
  active : Z;
  high_water : Z;
  accepted : Z;
  rejected : Z
}.

(** [State(bound)]. *)
Definition make_state (bound : Z) : State := mkState bound 0 0 0 0.

(** The constructor, which refuses a bound of zero. *)
Definition make (bound : Z) : result State :=
  if bound =? 0 then Throws (invalid_argument "zero connection admission bound")
  else Returns (make_state bound).

(** The counter [increment] is called on, with what [try_enter] does next: after the
    [accepted] count it still has to raise the high-water mark for the [value] it saw. *)
Inductive counting :=
| CountAccepted (value : Z)
| CountRejected.

Definition counter (k : counting) (s : State) : Z :=
  match k with CountAccepted _ => accepted s | CountRejected => rejected s end.

Definition set_counter (k : counting) (v : Z) (s : State) : State :=
  match k with
  | CountAccepted _ => mkState (maximum s) (active s) (high_water s) v (rejected s)
  | CountRejected => mkState (maximum s) (active s) (high_water s) (accepted s) v
  end.

(** Where a thread is inside [try_enter] (and [increment], which it calls). *)
Inductive pc :=
| Idle
| EnterLoop (value : Z)
| IncrementLoad (k : counting)
| IncrementLoop (k : counting) (value : Z)
| HighLoad (value : Z)
| HighLoop (value high : Z).

(** What a step of [try_enter] amounts to for its caller. *)
Inductive effect :=
| Tau
| Entered
| Refused
| Returned (admitted : bool).

(** The end of [increment]. *)
Definition incremented (k : counting) : pc * effect :=
  match k with
  | CountAccepted value => (HighLoad value, Tau)
  | CountRejected => (Idle, Returned false)
  end.

(** One atomic operation of [try_enter] from [p]; [spurious] makes a weak exchange fail. *)
Definition advance (s : State) (p : pc) (spurious : bool) : State * pc * effect :=
  match p with
  | Idle => (s, EnterLoop (active s), Tau)
  | EnterLoop value =>
      if maximum s <=? value then (s, IncrementLoad CountRejected, Refused)
      else if (active s =? value) && negb spurious
      then (mkState (maximum s) (wrap64 (value + 1)) (high_water s) (accepted s) (rejected s),
            IncrementLoad (CountAccepted value), Entered)
      else (s, EnterLoop (active s), Tau)
  | IncrementLoad k => (s, IncrementLoop k (counter k s), Tau)
  | IncrementLoop k value =>
      if value =? u64_max then (s, (incremented k).1, (incremented k).2)
      else if (counter k s =? value) && negb spurious
      then (set_counter k (wrap64 (value + 1)) s, (incremented k).1, (incremented k).2)
      else (s, IncrementLoop k (counter k s), Tau)
  | HighLoad value => (s, HighLoop value (high_water s), Tau)
  | HighLoop value high =>
      if high <? wrap64 (value + 1) then
        if (high_water s =? high) && negb spurious
        then (mkState (maximum s) (active s) (wrap64 (value + 1)) (accepted s) (rejected s),
              Idle, Returned true)
        else (s, HighLoop value (high_water s), Tau)
      else (s, Idle, Returned true)
  end.

(** [increment] with no other thread in between. *)
Definition increment (v : Z) : Z := if v =? u64_max then v else wrap64 (v + 1).

(** [try_enter()] with no other thread in between: whether it admits, and the state. *)
Definition try_enter (s : State) : bool * State :=
  let value := active s in
  if maximum s <=? value
  then (false, mkState (maximum s) (active s) (high_water s) (accepted s)
                 (increment (rejected s)))
  else (true, mkState (maximum s) (wrap64 (value + 1))
                (if high_water s <? wrap64 (value + 1) then wrap64 (value + 1)
                 else high_water s)
                (increment (accepted s)) (rejected s)).

(** [Lease::reset()] on an engaged lease: [active.fetch_sub(1)]. *)
Definition release (s : State) : State :=
  mkState (maximum s) (wrap64 (active s - 1)) (high_water s) (accepted s) (rejected s).

(** [ConnectionStats], all zero by default, and [stats()]. *)
Record ConnectionStats := mkStats {
  stat_active : Z; stat_high_water : Z; stat_accepted : Z; stat_rejected : Z }.
Definition no_stats : ConnectionStats := mkStats 0 0 0 0.
Definition stats (s : State) : ConnectionStats :=
  mkStats (active s) (high_water s) (accepted s) (rejected s).

(** The shared state, the threads, the lease objects, and three history variables: how
    many exchanges of line 72 succeeded, how often line 68 refused, and the largest
    [active] so far. *)
Record sys := mkSys {
  state : State;
  threads : list pc;
  leases : store unit;
  entered : Z;
  refused : Z;
  peak : Z
}.

Inductive label :=
| Begin (t : nat)
| Advance (t : nat) (spurious : bool)
| Reset (l : nat)
| MoveConstruct (src : nat)
| MoveAssign (dst src : nat).

Definition give_back (released : option unit) (s : State) : State :=
  match released with None => s | Some _ => release s end.

(** A step of thread [t] from [p], with the history it leaves. *)
Definition run_thread (s : sys) (t : nat) (p : pc) (spurious : bool) : sys :=
  let '(st, q, e) := advance (state s) p spurious in
  mkSys st (<[t:=q]> (threads s))
    (match e with Returned true => leases s ++ [Some tt] | _ => leases s end)
    (match e with Entered => entered s + 1 | _ => entered s end)
    (match e with Refused => refused s + 1 | _ => refused s end)
    (match e with Entered => Z.max (peak s) (active st) | _ => peak s end).

Definition step (s : sys) (l : label) : option sys :=
  match l with
  | Begin t =>
      match threads s !! t with
      | Some Idle => Some (run_thread s t Idle false)
      | _ => None
      end
  | Advance t spurious =>
      match threads s !! t with
      | Some Idle | None => None
      | Some p => Some (run_thread s t p spurious)
      end
  | Reset l =>
      if decide (l < length (leases s))%nat then
        let '(ls, r) := reset (leases s) l in
        Some (mkSys (give_back r (state s)) (threads s) ls (entered s) (refused s) (peak s))
      else None
  | MoveConstruct src =>
      if decide (src < length (leases s))%nat then
        Some (mkSys (state s) (threads s) (move_construct (leases s) src) (entered s)
                (refused s) (peak s))
      else None
  | MoveAssign dst src =>
      if decide (dst < length (leases s) ∧ src < length (leases s))%nat then
        let '(ls, r) := admission_move_assign (leases s) dst src in
        Some (mkSys (give_back r (state s)) (threads s) ls (entered s) (refused s) (peak s))
      else None
  end.

Definition init (bound : Z) (n : nat) : sys :=
  mkSys (make_state bound) (replicate n Idle) [] 0 0 0.

(** ** The invariant *)

(** The value a thread saw when its exchange succeeded, until it returns. *)
Definition tail (p : pc) : option Z :=
  match p with
  | IncrementLoad (CountAccepted v) | IncrementLoop (CountAccepted v) _
  | HighLoad v | HighLoop v _ => Some v
  | _ => None
  end.

(** One for a thread that has entered and not yet returned its lease. *)
Definition in_tail (p : pc) : Z := bit (if tail p is Some _ then true else false).

(** One for a thread that still has to count its entry, or its refusal. *)
Definition counting_accept (p : pc) : Z :=
  match p with
  | IncrementLoad (CountAccepted _) | IncrementLoop (CountAccepted _) _ => 1
  | _ => 0
  end.
Definition counting_reject (p : pc) : Z :=
  match p with IncrementLoad CountRejected | IncrementLoop CountRejected _ => 1 | _ => 0 end.

(** What a thread's local variables say about the shared state. *)
Definition pc_ok (s : State) (peak : Z) (p : pc) : Prop :=
  (∀ v, tail p = Some v → 0 ≤ v < maximum s ∧ v + 1 ≤ peak) ∧
  match p with
  | EnterLoop v => 0 ≤ v
  | IncrementLoop k v => 0 ≤ v ≤ counter k s
  | HighLoop _ h => 0 ≤ h ≤ high_water s
  | _ => True
  end.

Record adm_inv (s : sys) : Prop := {
  inv_maximum : 0 < maximum (state s) ≤ u64_max;
  inv_active : active (state s) = held tt (leases s) + total in_tail (threads s);
  inv_bound : active (state s) ≤ maximum (state s);
  inv_high : 0 ≤ high_water (state s) ≤ peak s;
  inv_peak : active (state s) ≤ peak s ≤ maximum (state s);
  inv_reached : high_water (state s) = peak s ∨
    ∃ t p, threads s !! t = Some p ∧ tail p = Some (peak s - 1);
  inv_pcs : ∀ t p, threads s !! t = Some p → pc_ok (state s) (peak s) p;
  inv_entered : total counting_accept (threads s) ≤ entered s;
  inv_refused : total counting_reject (threads s) ≤ refused s;
  inv_accepted : accepted (state s) =
    Z.min u64_max (entered s - total counting_accept (threads s));
  inv_rejected : rejected (state s) =
    Z.min u64_max (refused s - total counting_reject (threads s))
}.

Lemma in_tail_nonneg p : 0 ≤ in_tail p.
Proof. apply bit_nonneg. Qed.

Lemma active_nonneg s : adm_inv s → 0 ≤ active (state s).
Proof.
  intros H. rewrite (inv_active s H). pose proof (held_nonneg tt (leases s)).
  pose proof (total_nonneg in_tail (threads s) in_tail_nonneg). lia.
Qed.

Lemma adm_init_inv bound n : 0 < bound ≤ u64_max → adm_inv (init bound n).
Proof.
  intros Hb. split; simpl; rewrite ?total_replicate; simpl;
    rewrite ?Z.mul_0_r; try done; unfold u64_max; try lia.
  intros t p Hp. apply lookup_replicate in Hp as [-> _]. by split.
Qed.

(** The sums over the threads after one of them moved on from [p]. *)
Ltac thread_sums p :=
  rewrite ?(total_insert _ _ _ p) by done;
  cbn [in_tail tail bit counting_accept counting_reject incremented fst].

Lemma counting_bounds p : 0 ≤ counting_accept p ∧ 0 ≤ counting_reject p.
Proof. by destruct p as [| |[]|[]| |]. Qed.

(** What another thread knows stays true as the shared state moves on. *)
Lemma pc_ok_mono s s' pk pk' p :
  maximum s' = maximum s → high_water s ≤ high_water s' → accepted s ≤ accepted s' →
  rejected s ≤ rejected s' → pk ≤ pk' → pc_ok s pk p → pc_ok s' pk' p.
Proof.
  intros Hm Hh Ha Hr Hp [Ht Hpc]. split.
  - intros v Hv. specialize (Ht v Hv). lia.
  - destruct p as [| |k|[]| |]; simpl in *; lia.
Qed.

Lemma pcs_insert s s' pk pk' (ts : list pc) (t : nat) q :
  (∀ (i : nat) p, ts !! i = Some p → pc_ok s pk p) →
  maximum s' = maximum s → high_water s ≤ high_water s' → accepted s ≤ accepted s' →
  rejected s ≤ rejected s' → pk ≤ pk' → pc_ok s' pk' q →
  ∀ (i : nat) p, <[t:=q]> ts !! i = Some p → pc_ok s' pk' p.
Proof.
  intros Hts Hm Hh Ha Hr Hp Hq i p Hi.
  destruct (decide (t = i)) as [<-|Hne].
  - apply list_lookup_insert_Some in Hi as [(_ & <- & _)|[? _]]; [done|congruence].
  - rewrite list_lookup_insert_ne in Hi by done. eapply pc_ok_mono; eauto.
Qed.

(** The high-water mark, or a thread about to raise it, is at the peak: kept when a
    thread that leaves the tail has seen its mark. *)
Lemma reached_insert (ts : list pc) (t : nat) p q hw hw' pk :
  hw = pk ∨ (∃ (i : nat) r, ts !! i = Some r ∧ tail r = Some (pk - 1)) →
  ts !! t = Some p → hw ≤ hw' ≤ pk →
  (∀ v, tail p = Some v → tail q = Some v ∨ v + 1 ≤ hw') →
  hw' = pk ∨ (∃ (i : nat) r, <[t:=q]> ts !! i = Some r ∧ tail r = Some (pk - 1)).
Proof.
  intros [->|(i & r & Hi & Hr)] Ht Hhw Htail; [left; lia|].
  destruct (decide (t = i)) as [<-|Hne].
  - assert (p = r) as -> by congruence. destruct (Htail _ Hr) as [Hq|]; [|left; lia].
    right. exists t, q. rewrite list_lookup_insert_eq by (by eapply lookup_lt_Some). done.
  - right. exists i, r. by rewrite list_lookup_insert_ne.
Qed.

(** A step that only changes the thread's own variables. *)
Lemma quiet_inv s t p q :
  adm_inv s → threads s !! t = Some p → tail q = tail p →
  counting_accept q = counting_accept p → counting_reject q = counting_reject p →
  pc_ok (state s) (peak s) q →
  adm_inv (mkSys (state s) (<[t:=q]> (threads s)) (leases s) (entered s) (refused s) (peak s)).
Proof.
  intros Hinv Ht Htail Hca Hcr Hq. destruct Hinv.
  assert (in_tail q = in_tail p) by (unfold in_tail; by rewrite Htail).
  split; simpl; rewrite ?(total_insert _ _ _ p) by done; try done; try lia.
  - eapply reached_insert; [eassumption|eassumption|lia|]. intros v. rewrite Htail. by left.
  - eapply pcs_insert; [eassumption|simpl; lia..|done].
Qed.

(** The refusal of line 68. *)
Lemma refused_inv s t v :
  adm_inv s → threads s !! t = Some (EnterLoop v) →
  adm_inv (mkSys (state s) (<[t:=IncrementLoad CountRejected]> (threads s)) (leases s)
             (entered s) (refused s + 1) (peak s)).
Proof.
  intros Hinv Ht. destruct Hinv.
  split; simpl; thread_sums (EnterLoop v); try done; try lia.
  - eapply reached_insert; [eassumption|eassumption|lia|]. done.
  - eapply pcs_insert; [eassumption|simpl; lia..|]. by split.
Qed.

(** The exchange of line 72. *)
Lemma entered_inv s t v :
  adm_inv s → threads s !! t = Some (EnterLoop v) → v < maximum (state s) →
  active (state s) = v →
  let st := mkState (maximum (state s)) (wrap64 (v + 1)) (high_water (state s))
              (accepted (state s)) (rejected (state s)) in
  adm_inv (mkSys st (<[t:=IncrementLoad (CountAccepted v)]> (threads s)) (leases s)
             (entered s + 1) (refused s) (Z.max (peak s) (active st))).
Proof.
  intros Hinv Ht Hlt Hv. pose proof (active_nonneg s Hinv) as H0.
  destruct Hinv. simpl. rewrite wrap64_small by (unfold u64_max in *; lia).
  split; simpl; thread_sums (EnterLoop v); try done; try lia.
  - destruct (decide (peak s < v + 1)).
    + right. exists t, (IncrementLoad (CountAccepted v)).
      rewrite list_lookup_insert_eq by (by eapply lookup_lt_Some). split; [done|].
      simpl. f_equal. lia.
    + replace (Z.max (peak s) (v + 1)) with (peak s) by lia.
      eapply reached_insert; [eassumption|eassumption|lia|]. done.
  - eapply pcs_insert; [eassumption|simpl; lia..|]. split; [|done].
    intros v' [= <-]. simpl. lia.
Qed.

(** The end of [increment], by saturation or by its exchange. *)
Lemma incremented_inv s t k v c :
  adm_inv s → threads s !! t = Some (IncrementLoop k v) →
  c = (if v =? u64_max then counter k (state s) else v + 1) →
  (v ≠ u64_max → counter k (state s) = v) →
  adm_inv (mkSys (set_counter k c (state s)) (<[t:=(incremented k).1]> (threads s)) (leases s)
             (entered s) (refused s) (peak s)).
Proof.
  intros Hinv Ht Hc Hcas. pose proof (inv_pcs s Hinv t _ Ht) as [Htail Hv].
  destruct Hinv. destruct k as [w|]; simpl in *.
  - assert (accepted (state s) ≤ c ≤ u64_max) as Hcb.
    { destruct (Z.eqb_spec v u64_max); [lia|]. specialize (Hcas n). lia. }
    split; simpl; thread_sums (IncrementLoop (CountAccepted w) v); try done; try lia.
    + eapply reached_insert; [eassumption|eassumption|lia|]. intros v' [= <-]. by left.
    + eapply pcs_insert; [eassumption|simpl; lia..|]. split; [|done].
      intros v' [= <-]. simpl. by apply Htail.
    + destruct (Z.eqb_spec v u64_max); [lia|]. specialize (Hcas n). lia.
  - assert (rejected (state s) ≤ c ≤ u64_max) as Hcb.
    { destruct (Z.eqb_spec v u64_max); [lia|]. specialize (Hcas n). lia. }
    split; simpl; thread_sums (IncrementLoop CountRejected v); try done; try lia.
    + eapply reached_insert; [eassumption|eassumption|lia|]. done.
    + eapply pcs_insert; [eassumption|simpl; lia..|]. by split.
    + destruct (Z.eqb_spec v u64_max); [lia|]. specialize (Hcas n). lia.
Qed.

(** The return of the lease, once the high-water mark is at least what the thread saw. *)
Lemma returned_inv s t v h hw :
  adm_inv s → threads s !! t = Some (HighLoop v h) →
  hw = (if h <? v + 1 then v + 1 else high_water (state s)) →
  (h < v + 1 → high_water (state s) = h) →
  let st := mkState (maximum (state s)) (active (state s)) hw (accepted (state s))
              (rejected (state s)) in
  adm_inv (mkSys st (<[t:=Idle]> (threads s)) (leases s ++ [Some tt]) (entered s) (refused s)
             (peak s)).
Proof.
  intros Hinv Ht Hhw Hcas. pose proof (inv_pcs s Hinv t _ Ht) as [Htail Hh].
  specialize (Htail v eq_refl). destruct Hinv. simpl in Hh.
  assert (high_water (state s) ≤ hw ≤ peak s ∧ v + 1 ≤ hw) as [Hhw1 Hhw2].
  { destruct (Z.ltb_spec h (v + 1)) as [Hlt|]; [specialize (Hcas Hlt)|]; lia. }
  clear Hhw. split; simpl; thread_sums (HighLoop v h);
    try done; try lia.
  - rewrite held_snoc, holds_Some. lia.
  - eapply reached_insert; [eassumption|eassumption|lia|]. intros v' [= <-]. by right.
  - eapply pcs_insert; [eassumption|simpl; lia..|]. by split.
Qed.

(** A round of [increment]'s loop. *)
Lemma increment_round_inv s t k v spurious :
  adm_inv s → threads s !! t = Some (IncrementLoop k v) →
  adm_inv (run_thread s t (IncrementLoop k v) spurious).
Proof.
  intros Hinv Ht. unfold run_thread, advance. pose proof (inv_pcs s Hinv t _ Ht) as [Htail Hv].
  assert (adm_inv (mkSys (state s) (<[t:=IncrementLoop k (counter k (state s))]> (threads s))
    (leases s) (entered s) (refused s) (peak s))) as Hretry.
  { eapply (quiet_inv _ _ (IncrementLoop k v)); eauto; try by destruct k.
    split; [exact Htail|]. simpl in *. lia. }
  assert (counter k (state s) ≤ u64_max) as Hle by (destruct Hinv, k; simpl; lia).
  destruct (Z.eqb_spec v u64_max) as [->|Hne].
  - pose proof (incremented_inv s t k u64_max (counter k (state s)) Hinv Ht) as H.
    rewrite Z.eqb_refl in H. specialize (H eq_refl ltac:(done)).
    destruct k; destruct (state s); exact H.
  - destruct (Z.eqb_spec (counter k (state s)) v) as [Hv'|]; [|exact Hretry].
    destruct spurious; [exact Hretry|]. simpl.
    rewrite wrap64_small by (simpl in Hv; unfold u64_max in *; lia).
    pose proof (incremented_inv s t k v (v + 1) Hinv Ht) as H.
    rewrite (proj2 (Z.eqb_neq _ _) Hne) in H. specialize (H eq_refl ltac:(done)).
    destruct k; exact H.
Qed.

(** A round of the loop that raises the high-water mark. *)
Lemma high_round_inv s t v h spurious :
  adm_inv s → threads s !! t = Some (HighLoop v h) →
  adm_inv (run_thread s t (HighLoop v h) spurious).
Proof.
  intros Hinv Ht. unfold run_thread, advance. pose proof (inv_pcs s Hinv t _ Ht) as [Htail Hh].
  specialize (Htail v eq_refl). pose proof (inv_maximum s Hinv) as Hmax.
  rewrite wrap64_small by (unfold u64_max in *; lia).
  pose proof (λ hw, returned_inv s t v h hw Hinv Ht) as Hret.
  destruct (Z.ltb_spec h (v + 1)) as [Hlt|Hge].
  - destruct (Z.eqb_spec (high_water (state s)) h) as [Heq|]; [destruct spurious|]; simpl.
    + eapply (quiet_inv _ _ (HighLoop v h)); eauto. simpl in *. split; [|simpl; lia].
      by intros ? [= <-].
    + by apply Hret.
    + eapply (quiet_inv _ _ (HighLoop v h)); eauto. simpl in *. split; [|simpl; lia].
      by intros ? [= <-].
  - specialize (Hret (high_water (state s)) eq_refl ltac:(lia)). simpl in Hret.
    by destruct (state s).
Qed.

Lemma run_thread_inv s t p spurious :
  adm_inv s → threads s !! t = Some p → adm_inv (run_thread s t p spurious).
Proof.
  intros Hinv Ht. pose proof (active_nonneg s Hinv) as H0.
  pose proof (inv_pcs s Hinv t p Ht) as Hok. destruct p as [|v|k|k v|v|v h].
  - eapply quiet_inv; eauto. by split.
  - unfold run_thread, advance. destruct (Z.leb_spec (maximum (state s)) v); [by eapply refused_inv|].
    destruct (Z.eqb_spec (active (state s)) v) as [Hv|]; [destruct spurious|]; simpl.
    + eapply quiet_inv; eauto. by split.
    + by apply entered_inv.
    + eapply quiet_inv; eauto. by split.
  - eapply (quiet_inv _ _ (IncrementLoad k)); eauto; try by destruct k. split; [by apply Hok|].
    destruct Hinv, k as [w|]; simpl in *; unfold u64_max in *; lia.
  - by apply increment_round_inv.
  - eapply (quiet_inv _ _ (HighLoad v)); eauto. split; [by apply Hok|]. destruct Hinv. lia.
  - by apply high_round_inv.
Qed.

Lemma release_inv s ls r :
  adm_inv s → held tt ls = held tt (leases s) - holds tt r →
  adm_inv (mkSys (give_back r (state s)) (threads s) ls (entered s) (refused s) (peak s)).
Proof.
  intros Hinv Hls. destruct r as [[]|]; simpl.
  - pose proof (held_nonneg tt ls) as Hnn. rewrite holds_Some in Hls.
    pose proof (total_nonneg in_tail (threads s) in_tail_nonneg).
    destruct Hinv. split; simpl; try done;
      rewrite ?(wrap64_small (active (state s) - 1)) by (unfold u64_max in *; lia); try lia.
  - rewrite holds_None in Hls. destruct Hinv. split; simpl; try done; lia.
Qed.

Lemma adm_step_inv s l s' : adm_inv s → step s l = Some s' → adm_inv s'.
Proof.
  intros Hinv Hstep. unfold step in Hstep. destruct l as [t|t sp|l|src|dst src].
  - destruct (threads s !! t) as [p|] eqn:Ht; [|done].
    destruct p; simplify_eq; by apply run_thread_inv.
  - destruct (threads s !! t) as [p|] eqn:Ht; [|done].
    destruct p; simplify_eq; by apply run_thread_inv.
  - destruct (decide _); [|done]. destruct (reset (leases s) l) as [ls r] eqn:Hr.
    injection Hstep as <-. apply release_inv; [done|]. by apply (held_reset tt (leases s) l).
  - destruct (decide _); [|done]. injection Hstep as <-.
    apply (release_inv s _ None); [done|]. rewrite held_move_construct, holds_None by done. lia.
  - destruct (decide _) as [[]|]; [|done].
    destruct (admission_move_assign (leases s) dst src) as [ls r] eqn:Hr.
    injection Hstep as <-. apply release_inv; [done|].
    by apply (held_admission_move_assign tt (leases s) dst src).
Qed.

Lemma adm_reachable_inv bound n s :
  0 < bound ≤ u64_max → reachable step (init bound n) s → adm_inv s.
Proof.
  intros Hb. revert s. apply invariant_rule; [by apply adm_init_inv|]. intros s l s'. apply adm_step_inv.
Qed.

(** ** The contract: an atomic admission *)

Module Spec.

(** A call of [try_enter]: not made, made, or decided and about to return. *)
Inductive call := NoCall | Pending | Decided (admitted : bool).

Record spec := mkSpec { bound : Z; held : Z; calls : list call }.

Inductive action :=
| Invoke (t : nat)
| Decide (t : nat)
| Return (t : nat) (admitted : bool)
| Release.

(** A call takes effect at one instant between its invocation and its return, and admits
    exactly when there is room at that instant. *)
Definition step (s : spec) (a : action) : option spec :=
  match a with
  | Invoke t =>
      match calls s !! t with
      | Some NoCall => Some (mkSpec (bound s) (held s) (<[t:=Pending]> (calls s)))
      | _ => None
      end
  | Decide t =>
      match calls s !! t with
      | Some Pending =>
          if held s <? bound s
          then Some (mkSpec (bound s) (held s + 1) (<[t:=Decided true]> (calls s)))
          else Some (mkSpec (bound s) (held s) (<[t:=Decided false]> (calls s)))
      | _ => None
      end
  | Return t admitted =>
      match calls s !! t with
      | Some (Decided b) =>
          if Bool.eqb b admitted
          then Some (mkSpec (bound s) (held s) (<[t:=NoCall]> (calls s))) else None
      | _ => None
      end
  | Release =>
      if 0 <? held s then Some (mkSpec (bound s) (held s - 1) (calls s)) else None
  end.

End Spec.

(** What a thread's position means for its call; a thread that has read a full count is
    already decided, at the instant it read it. *)
Definition abs_pc (maximum : Z) (p : pc) : Spec.call :=
  match p with
  | Idle => Spec.NoCall
  | EnterLoop v => if maximum <=? v then Spec.Decided false else Spec.Pending
  | IncrementLoad CountRejected | IncrementLoop CountRejected _ => Spec.Decided false
  | IncrementLoad (CountAccepted _) | IncrementLoop (CountAccepted _) _
  | HighLoad _ | HighLoop _ _ => Spec.Decided true
  end.

Definition abs (s : sys) : Spec.spec :=
  Spec.mkSpec (maximum (state s)) (active (state s))
    (abs_pc (maximum (state s)) <$> threads s).

(** The instants of the contract that a step contains. *)
Definition linearize (s : sys) (l : label) : list Spec.action :=
  let full := maximum (state s) <=? active (state s) in
  let returns t k := match k with CountRejected => [Spec.Return t false] | _ => [] end in
  match l with
  | Begin t => Spec.Invoke t :: (if full then [Spec.Decide t] else [])
  | Advance t spurious =>
      match threads s !! t with
      | Some (EnterLoop v) =>
          if maximum (state s) <=? v then []
          else if (active (state s) =? v) && negb spurious then [Spec.Decide t]
          else if full then [Spec.Decide t] else []
      | Some (IncrementLoop k v) =>
          if v =? u64_max then returns t k
          else if (counter k (state s) =? v) && negb spurious then returns t k else []
      | Some (HighLoop v h) =>
          if h <? wrap64 (v + 1)
          then if (high_water (state s) =? h) && negb spurious
               then [Spec.Return t true] else []
          else [Spec.Return t true]
      | _ => []
      end
  | Reset l => if owner (leases s) l is Some _ then [Spec.Release] else []
  | MoveConstruct _ => []
  | MoveAssign dst src =>
      if decide (dst = src) then []
      else if owner (leases s) dst is Some _ then [Spec.Release] else []
  end.

Lemma abs_insert (m : Z) (ts : list pc) (t : nat) p q :
  ts !! t = Some p → abs_pc m q = abs_pc m p → abs_pc m <$> <[t:=q]> ts = abs_pc m <$> ts.
Proof.
  intros Hp Hq. rewrite list_fmap_insert, Hq. apply list_insert_id.
  by rewrite list_lookup_fmap, Hp.
Qed.

(** The exchange loop of [try_enter], as the contract's instants. *)
Lemma enter_round_refines s t v spurious :
  adm_inv s → threads s !! t = Some (EnterLoop v) →
  exec Spec.step (abs s) (linearize s (Advance t spurious)) =
  Some (abs (run_thread s t (EnterLoop v) spurious)).
Proof.
  intros Hinv Ht. pose proof (inv_maximum s Hinv) as Hmax. pose proof (active_nonneg s Hinv) as H0.
  unfold linearize; rewrite Ht; unfold run_thread, advance, abs; simpl.
  destruct (Z.leb_spec (maximum (state s)) v) as [Hle|Hgt].
  { simpl. do 2 f_equal. symmetry. apply (abs_insert _ _ _ (EnterLoop v)); [done|].
    simpl. by rewrite (proj2 (Z.leb_le _ _)). }
  destruct ((active (state s) =? v) && negb spurious) eqn:Hcas; simpl.
  - reflect_bools. rewrite list_lookup_fmap, Ht. simpl.
    rewrite (proj2 (Z.leb_gt _ _) Hgt), (proj2 (Z.ltb_lt _ _)) by lia.
    rewrite list_fmap_insert. simpl. rewrite wrap64_small by (unfold u64_max in *; lia).
    by subst v.
  - destruct (Z.leb_spec (maximum (state s)) (active (state s))); simpl.
    + rewrite list_lookup_fmap, Ht. simpl.
      rewrite (proj2 (Z.leb_gt _ _) Hgt), (proj2 (Z.ltb_ge _ _)) by done.
      rewrite list_fmap_insert. simpl. by rewrite (proj2 (Z.leb_le _ _)).
    + do 2 f_equal. symmetry. apply (abs_insert _ _ _ (EnterLoop v)); [done|].
      simpl. by rewrite !(proj2 (Z.leb_gt _ _)).
Qed.

(** The loop of [increment]. *)
Lemma increment_round_refines s t k v spurious :
  threads s !! t = Some (IncrementLoop k v) →
  exec Spec.step (abs s) (linearize s (Advance t spurious)) =
  Some (abs (run_thread s t (IncrementLoop k v) spurious)).
Proof.
  intros Ht. unfold linearize; rewrite Ht; unfold run_thread, advance, abs; simpl.
  assert (exec Spec.step (abs s) [] = Some (Spec.mkSpec (maximum (state s)) (active (state s))
    (abs_pc (maximum (state s)) <$>
       <[t:=IncrementLoop k (counter k (state s))]> (threads s)))) as Hretry.
  { unfold abs. simpl. do 2 f_equal. symmetry. apply (abs_insert _ _ _ (IncrementLoop k v)); [done|].
    by destruct k. }
  assert (∀ m, maximum m = maximum (state s) → active m = active (state s) →
    exec Spec.step (abs s) (match k with CountRejected => [Spec.Return t false] | _ => [] end) =
    Some (Spec.mkSpec (maximum m) (active m)
      (abs_pc (maximum m) <$> <[t:=(incremented k).1]> (threads s)))) as Hdone.
  { intros m -> ->. unfold abs. destruct k; simpl.
    - do 2 f_equal. symmetry. by apply (abs_insert _ _ _ (IncrementLoop (CountAccepted value) v)).
    - rewrite list_lookup_fmap, Ht. simpl. by rewrite list_fmap_insert. }
  destruct (v =? u64_max); [by apply Hdone|].
  destruct ((counter k (state s) =? v) && negb spurious); [|exact Hretry].
  destruct k; by apply Hdone.
Qed.

(** A step of a thread, as the contract's instants; one case per position. *)
Lemma run_thread_refines s t p spurious l :
  adm_inv s → threads s !! t = Some p →
  l = (if p is Idle then Begin t else Advance t spurious) →
  exec Spec.step (abs s) (linearize s l) = Some (abs (run_thread s t p spurious)).
Proof.
  intros Hinv Ht ->. assert (t < length (threads s))%nat as Hlt by (by eapply lookup_lt_Some).
  destruct p as [|v|k|k v|v|v h];
    [|by apply enter_round_refines| |by apply increment_round_refines|..];
    unfold linearize; rewrite ?Ht; unfold run_thread, advance, abs; simpl.
  - rewrite list_lookup_fmap, Ht. simpl.
    destruct (Z.leb_spec (maximum (state s)) (active (state s))); simpl.
    + rewrite list_lookup_insert_eq by (by rewrite length_fmap).
      rewrite (proj2 (Z.ltb_ge _ _)) by done.
      rewrite list_insert_insert_eq, list_fmap_insert. simpl.
      by rewrite (proj2 (Z.leb_le _ _)).
    + rewrite list_fmap_insert. simpl. by rewrite (proj2 (Z.leb_gt _ _)).
  - do 2 f_equal. symmetry. apply (abs_insert _ _ _ (IncrementLoad k)); [done|]. by destruct k.
  - do 2 f_equal. symmetry. by apply (abs_insert _ _ _ (HighLoad v)).
  - destruct (h <? wrap64 (v + 1)).
    + destruct ((high_water (state s) =? h) && negb spurious); simpl.
      * rewrite list_lookup_fmap, Ht. simpl. by rewrite list_fmap_insert.
      * do 2 f_equal. symmetry. by apply (abs_insert _ _ _ (HighLoop v h)).
    + simpl. rewrite list_lookup_fmap, Ht. simpl. by rewrite list_fmap_insert.
Qed.

Lemma release_refines s ls r e f pk :
  adm_inv s → (r = None ∨ 1 ≤ held tt (leases s)) →
  exec Spec.step (abs s) (if r is Some _ then [Spec.Release] else []) =
  Some (abs (mkSys (give_back r (state s)) (threads s) ls e f pk)).
Proof.
  intros Hinv Hr. destruct r as [[]|]; simpl; [|done].
  destruct Hr as [|Hr]; [done|]. pose proof (inv_active s Hinv) as Ha.
  pose proof (total_nonneg in_tail (threads s) in_tail_nonneg).
  pose proof (inv_bound s Hinv). pose proof (inv_maximum s Hinv).
  rewrite (proj2 (Z.ltb_lt _ _)) by lia. unfold abs. simpl.
  by rewrite (wrap64_small (active (state s) - 1)) by (unfold u64_max in *; lia).
Qed.

(** ** A thread left alone *)

(** Runs thread [t] with no interference and no spurious failure, for at most [n] steps,
    until it returns. *)
Fixpoint solo (n : nat) (s : sys) (t : nat) : option sys :=
  match threads s !! t with
  | Some Idle => Some s
  | Some p => match n with O => None | S n => solo n (run_thread s t p false) t end
  | None => None
  end.

Lemma solo_return s t e : threads s !! t = Some Idle → solo e s t = Some s.
Proof. intros Ht. destruct e; simpl; by rewrite Ht. Qed.

Lemma solo_step n s t p :
  threads s !! t = Some p → p ≠ Idle → solo (S n) s t = solo n (run_thread s t p false) t.
Proof. intros Ht Hp. simpl. rewrite Ht. by destruct p. Qed.

Lemma run_thread_lookup s t p spurious :
  threads s !! t = Some p →
  threads (run_thread s t p spurious) !! t = Some (advance (state s) p spurious).1.2.
Proof.
  intros Ht. unfold run_thread. destruct (advance (state s) p spurious) as [[st q] e]. simpl.
  by rewrite list_lookup_insert_eq by (by eapply lookup_lt_Some).
Qed.

(** How many steps alone are left at most. *)
Definition steps_left (s : State) (p : pc) : nat :=
  match p with
  | Idle => 0
  | EnterLoop v => if (maximum s <=? v) || (v =? active s) then 6 else 7
  | IncrementLoad _ => 5
  | IncrementLoop k v => if (v =? u64_max) || (v =? counter k s) then 4 else 5
  | HighLoad _ => 3
  | HighLoop v h => if (wrap64 (v + 1) <=? h) || (h =? high_water s) then 1 else 2
  end.

Lemma steps_left_decreases s p :
  p ≠ Idle → let '(s', q, _) := advance s p false in (steps_left s' q < steps_left s p)%nat.
Proof.
  intros Hp. destruct p as [|v|k|k v|v|v h]; [done|..]; simpl; rewrite ?andb_true_r.
  - destruct (Z.leb_spec (maximum s) v); [simpl; lia|].
    destruct (Z.eqb_spec (active s) v) as [<-|Hne]; simpl; [rewrite Z.eqb_refl; simpl; lia|].
    rewrite Z.eqb_refl, orb_true_r. rewrite (proj2 (Z.eqb_neq v _)) by congruence. simpl. lia.
  - rewrite Z.eqb_refl, orb_true_r. lia.
  - destruct (Z.eqb_spec v u64_max); [destruct k; simpl; lia|].
    destruct (Z.eqb_spec (counter k s) v) as [<-|Hne].
    + rewrite Z.eqb_refl. destruct k; simpl; lia.
    + simpl. rewrite Z.eqb_refl, orb_true_r, (proj2 (Z.eqb_neq v _)) by congruence. lia.
  - rewrite Z.eqb_refl, orb_true_r. lia.
  - destruct (Z.ltb_spec h (wrap64 (v + 1))).
    + rewrite (proj2 (Z.leb_gt _ _)) by done.
      destruct (Z.eqb_spec (high_water s) h) as [<-|Hne]; simpl.
      * rewrite Z.eqb_refl. lia.
      * rewrite Z.eqb_refl, orb_true_r, (proj2 (Z.eqb_neq h _)) by congruence. lia.
    + rewrite (proj2 (Z.leb_le _ _)) by done. simpl. lia.
Qed.

Lemma solo_finishes n s t p :
  threads s !! t = Some p → (steps_left (state s) p ≤ n)%nat →
  ∃ s', solo n s t = Some s' ∧ threads s' !! t = Some Idle.
Proof.
  revert s p. induction n as [|n IH]; intros s p Ht Hn.
  - destruct p as [|v|k|k v|v|v h]; simpl in Hn; repeat case_match; try lia.
    exists s. by rewrite solo_return.
  - destruct (decide (steps_left (state s) p = 0%nat)) as [Hz|Hz].
    { destruct p as [|v|k|k v|v|v h]; simpl in Hz; repeat case_match; try lia.
      exists s. by rewrite solo_return. }
    assert (p ≠ Idle) as Hp by (by intros ->).
    rewrite (solo_step _ _ _ p) by done. pose proof (steps_left_decreases (state s) p Hp) as Hd.
    pose proof (run_thread_lookup s t p false Ht) as Hl.
    unfold run_thread in *. destruct (advance (state s) p false) as [[st q] e].
    apply (IH _ q); [done|]. simpl. lia.
Qed.

Lemma solo_inv n s t s' : adm_inv s → solo n s t = Some s' → adm_inv s'.
Proof.
  revert s. induction n as [|n IH]; intros s Hinv Hs; simpl in Hs;
    destruct (threads s !! t) as [p|] eqn:Ht; try done; destruct p; simplify_eq; try done;
    by (eapply IH; [|exact Hs]; apply run_thread_inv).
Qed.

(** One step alone from a known position. *)
Ltac solo_to p :=
  rewrite (solo_step _ _ _ p);
  [unfold run_thread at 1; cbn [advance state threads leases]
  |cbn [threads]; rewrite ?list_insert_insert_eq;
   rewrite list_lookup_insert_eq by (by eapply lookup_lt_Some); reflexivity
  |done].

Ltac solo_done :=
  rewrite solo_return
    by (simpl; rewrite ?list_insert_insert_eq;
        by rewrite list_lookup_insert_eq by (by eapply lookup_lt_Some));
  eexists; split; [reflexivity|]; simpl; rewrite ?app_nil_r; by destruct (state _).

(** Schedules the witnesses run: two entries, one of them with a spurious failure, and a
    move assignment over a live lease; an entry and a refusal; an exchange lost to a
    concurrent entry. *)
Definition demo : list label :=
  [Begin 0; Begin 1; Advance 0 true; Advance 0 false; Advance 1 false] ++
  replicate 4 (Advance 0 false) ++ replicate 5 (Advance 1 false) ++ [MoveAssign 0 1; Begin 0].
Definition refusal : list label :=
  [Begin 0] ++ replicate 5 (Advance 0 false) ++ [Begin 1] ++ replicate 3 (Advance 1 false).
Definition contended : list label := [Begin 0; Begin 1; Advance 0 false].

(** ** Properties *)

(** C1: in every interleaving, [active] is exactly the engaged leases plus the calls that
    have entered and not yet returned theirs, and it never exceeds the bound: the server
    never admits more than [maximum] connections, and every admission is refunded exactly
    once. *)
Theorem active_exact bound n s :
  0 < bound ≤ u64_max → reachable step (init bound n) s →
  active (state s) = held tt (leases s) + total in_tail (threads s) ∧
  0 ≤ held tt (leases s) ≤ active (state s) ∧ active (state s) ≤ maximum (state s).
Proof.
  intros Hb Hr. pose proof (adm_reachable_inv bound n s Hb Hr) as Hinv.
  pose proof (held_nonneg tt (leases s)).
  pose proof (total_nonneg in_tail (threads s) in_tail_nonneg).
  destruct Hinv. lia.
Qed.

(** When no call is in progress the statistics are exact: [high_water] is the largest
    [active] there ever was, and [accepted] and [rejected] count every admission and every
    refusal, stopping at the largest [uint64_t] instead of wrapping. *)
Theorem stats_exact bound n s :
  0 < bound ≤ u64_max → reachable step (init bound n) s →
  (∀ p, p ∈ threads s → p = Idle) →
  stats (state s) =
  mkStats (held tt (leases s)) (peak s) (Z.min u64_max (entered s)) (Z.min u64_max (refused s)).
Proof.
  intros Hb Hr Hidle. pose proof (adm_reachable_inv bound n s Hb Hr) as Hinv. destruct Hinv.
  assert (total in_tail (threads s) = 0) as Ht by (apply total_zero; by intros p ->%Hidle).
  assert (total counting_accept (threads s) = 0) as Ha by (apply total_zero; by intros p ->%Hidle).
  assert (total counting_reject (threads s) = 0) as Hrj by (apply total_zero; by intros p ->%Hidle).
  unfold stats. rewrite inv_active0, inv_accepted0, inv_rejected0, Ht, Ha, Hrj.
  f_equal; try lia.
  destruct inv_reached0 as [|(t & p & Hp & Htl)]; [done|].
  rewrite (Hidle p) in Htl by (by eapply list_elem_of_lookup_2). done.
Qed.

(** C9: [try_enter] behaves as one atomic operation: every step of every interleaving is a
    sequence of steps of a contract in which a call is invoked, admits or refuses at a single
    instant according to the room there is at that instant, and returns that answer. In
    particular no connection is refused unless the bound was reached during the call. *)
Theorem try_enter_atomic bound n s l s' :
  0 < bound ≤ u64_max → reachable step (init bound n) s → step s l = Some s' →
  exec Spec.step (abs s) (linearize s l) = Some (abs s').
Proof.
  intros Hb Hr Hstep. pose proof (adm_reachable_inv bound n s Hb Hr) as Hinv.
  unfold step in Hstep. destruct l as [t|t sp|l|src|dst src].
  - destruct (threads s !! t) as [[]|] eqn:Ht; try done. injection Hstep as <-.
    by apply run_thread_refines.
  - destruct (threads s !! t) as [p|] eqn:Ht; [|done].
    destruct p; try done; injection Hstep as <-; by apply run_thread_refines.
  - destruct (decide _) as [Hl|]; [|done]. injection Hstep as <-.
    apply release_refines; [done|]. destruct (owner (leases s) l) as [[]|] eqn:Ho; [|by left].
    right. by eapply owner_held.
  - destruct (decide _); [|done]. by injection Hstep as <-.
  - destruct (decide _) as [[]|]; [|done]. unfold admission_move_assign, linearize in *.
    destruct (decide (dst = src)); injection Hstep as <-; [done|].
    apply release_refines; [done|].
    destruct (owner (leases s) dst) as [[]|] eqn:Ho; [|by left]. right. by eapply owner_held.
Qed.

(** The loops make progress: from any reachable state a thread inside [try_enter] that
    runs alone and meets no spurious failure returns within seven steps, whatever it had
    read before. *)
Theorem try_enter_finishes bound n s t p :
  0 < bound ≤ u64_max → reachable step (init bound n) s → threads s !! t = Some p →
  ∃ s', solo 7 s t = Some s' ∧ threads s' !! t = Some Idle ∧
        0 ≤ active (state s') ≤ maximum (state s').
Proof.
  intros Hb Hr Ht. destruct (solo_finishes 7 s t p Ht) as (s' & Hs & Hi).
  { destruct p as [|v|k|k v|v|v h]; simpl; repeat case_match; lia. }
  pose proof (solo_inv _ _ _ _ (adm_reachable_inv bound n s Hb Hr) Hs) as Hinv.
  pose proof (active_nonneg s' Hinv). destruct Hinv. exists s'. split_and!; done || lia.
Qed.

(** Run without interference, the loops of [try_enter] compute exactly the sequential
    admission: refuse and count when the bound is reached, otherwise count, raise the
    high-water mark and hand out a lease. *)
Theorem try_enter_sequential s t :
  threads s !! t = Some Idle → 
  ∃ s', solo 7 (run_thread s t Idle false) t = Some s' ∧
        state s' = (try_enter (state s)).2 ∧
        leases s' = leases s ++ (if (try_enter (state s)).1 then [Some tt] else []).
Proof.
  intros Ht. unfold run_thread, try_enter. cbn [advance].
  solo_to (EnterLoop (active (state s))).
  destruct (maximum (state s) <=? active (state s)) eqn:Hfull.
  - solo_to (IncrementLoad CountRejected).
    solo_to (IncrementLoop CountRejected (rejected (state s))). unfold increment.
    cbn [counter]. destruct (rejected (state s) =? u64_max); rewrite ?Z.eqb_refl;
      cbn [andb negb incremented fst snd set_counter]; solo_done.
  - rewrite Z.eqb_refl. cbn [andb negb]. set (v := active (state s)).
    solo_to (IncrementLoad (CountAccepted v)).
    solo_to (IncrementLoop (CountAccepted v) (accepted (state s))). unfold increment.
    cbn [counter accepted]. destruct (accepted (state s) =? u64_max); rewrite ?Z.eqb_refl;
      cbn [andb negb incremented fst snd set_counter];
      solo_to (HighLoad v); cbn [high_water];
      solo_to (HighLoop v (high_water (state s))); cbn [high_water maximum active accepted rejected];
      destruct (high_water (state s) <? wrap64 (v + 1)); rewrite ?Z.eqb_refl;
      cbn [andb negb]; solo_done.
Qed.

Lemma active_exact_witness :
  ∃ s, exec step (init 2 2) demo = Some s ∧
    active (state s) = held tt (leases s) + total in_tail (threads s) ∧
    0 ≤ held tt (leases s) ≤ active (state s) ∧ active (state s) ≤ maximum (state s).
Proof.
  eexists. split; [vm_compute; reflexivity|].
  apply (active_exact 2 2); [unfold u64_max; lia|].
  apply (exec_reachable step (init 2 2) demo). vm_compute; reflexivity.
Defined.

Lemma stats_exact_witness :
  ∃ s, exec step (init 1 2) refusal = Some s ∧ stats (state s) = mkStats 1 1 1 1 ∧
    stats (state s) =
    mkStats (held tt (leases s)) (peak s) (Z.min u64_max (entered s)) (Z.min u64_max (refused s)).
Proof.
  eexists. split; [vm_compute; reflexivity|]. split; [vm_compute; reflexivity|].
  apply (stats_exact 1 2); [unfold u64_max; lia| |].
  - apply (exec_reachable step (init 1 2) refusal). vm_compute; reflexivity.
  - intros p Hp. simpl in Hp. set_solver.
Defined.

Lemma try_enter_atomic_witness :
  ∃ s s', exec step (init 1 2) contended = Some s ∧ step s (Advance 1 false) = Some s' ∧
    linearize s (Advance 1 false) = [Spec.Decide 1] ∧
    exec Spec.step (abs s) (linearize s (Advance 1 false)) = Some (abs s').
Proof.
  eexists _, _. split; [vm_compute; reflexivity|]. split; [vm_compute; reflexivity|].
  split; [vm_compute; reflexivity|].
  eapply (try_enter_atomic 1 2); [unfold u64_max; lia| |vm_compute; reflexivity].
  apply (exec_reachable step (init 1 2) contended). vm_compute; reflexivity.
Defined.

Lemma try_enter_finishes_witness :
  ∃ s, exec step (init 1 2) contended = Some s ∧
    ∃ s', solo 7 s 1 = Some s' ∧ threads s' !! 1%nat = Some Idle ∧
          0 ≤ active (state s') ≤ maximum (state s').
Proof.
  eexists. split; [vm_compute; reflexivity|].
  eapply (try_enter_finishes 1 2); [unfold u64_max; lia| |vm_compute; reflexivity].
  apply (exec_reachable step (init 1 2) contended). vm_compute; reflexivity.
Defined.

Lemma try_enter_sequential_witness :
  let s := init 1 1 in
  ∃ s', solo 7 (run_thread s 0 Idle false) 0 = Some s' ∧
        state s' = (try_enter (state s)).2 ∧
        leases s' = leases s ++ (if (try_enter (state s)).1 then [Some tt] else []).
Proof. apply (try_enter_sequential (init 1 1) 0). reflexivity. Defined.

End Admission.
