(* ===== verification/AbortList.v ===== *)
(** * reactor.h: Abortable and AbortList

    The intrusive doubly linked list of what shutdown must release. Nodes live in a heap
    shared by the lists of all reactors; a null or dangling pointer makes an operation
    [Undefined]. The file refines the pointer code to plain sequences, including an
    iteration whose callback tracks, untracks and destroys nodes. *)

From S2P Require Import Prelude.

Module AbortList.

(** ** The code *)

Abbreviation addr := nat.
Abbreviation lid := nat.

(** [struct Abortable]'s hooks: the list it is on, and its neighbours. *)
Record Abortable := mkNode { list_ : option lid; prev_ : option addr; next_ : option addr }.

(** [class AbortList]. *)
Record AbortList := mkList { head_ : option addr; cursor_ : option addr }.

(** The live nodes and the lists. *)
Record state := mkState { heap : gmap addr Abortable; lists : gmap lid AbortList }.

(** A computation that follows pointers: it may follow a bad one, and a loop may be cut
    short by its fuel. *)
Inductive outcome (A : Type) := Done (a : A) | Undefined | OutOfFuel.
Arguments Done {A} a.
Arguments Undefined {A}.
Arguments OutOfFuel {A}.

Definition obind {A B} (m : outcome A) (k : A → outcome B) : outcome B :=
  match m with Done a => k a | Undefined => Undefined | OutOfFuel => OutOfFuel end.

#[local] Notation "'let*' x ':=' m 'in' k" := (obind m (λ x, k))
  (at level 10, x binder, m at level 100, k at level 200).

(** [*p]. *)
Definition load (h : gmap addr Abortable) (p : addr) : outcome Abortable :=
  match h !! p with Some n => Done n | None => Undefined end.

(** [p->field = ...], for the write [f] of one or more fields. *)
Definition store (h : gmap addr Abortable) (p : addr) (f : Abortable → Abortable)
    : outcome (gmap addr Abortable) :=
  match h !! p with Some n => Done (<[p := f n]> h) | None => Undefined end.

Definition set_prev (p : option addr) (n : Abortable) : Abortable :=
  mkNode (list_ n) p (next_ n).
Definition set_next (p : option addr) (n : Abortable) : Abortable :=
  mkNode (list_ n) (prev_ n) p.

Definition the_list (s : state) (l : lid) : outcome AbortList :=
  match lists s !! l with Some al => Done al | None => Undefined end.

(** [AbortList::add]. *)
Definition add (s : state) (l : lid) (a : addr) : outcome state :=
  let* al := the_list s l in
  let* h := store (heap s) a (λ _, mkNode (Some l) None (head_ al)) in
  let* h := match head_ al with
            | Some x => store h x (set_prev (Some a))
            | None => Done h
            end in
  Done (mkState h (<[l := mkList (Some a) (cursor_ al)]> (lists s))).

(** [AbortList::remove]. *)
Definition remove (s : state) (l : lid) (a : addr) : outcome state :=
  let* n := load (heap s) a in
  if decide (list_ n = Some l) then
    let* al := the_list s l in
    let cursor := if decide (cursor_ al = Some a) then next_ n else cursor_ al in
    let* hh := match prev_ n with
               | Some p => let* h := store (heap s) p (set_next (next_ n)) in Done (h, head_ al)
               | None => Done (heap s, next_ n)
               end in
    let* n := load (hh.1) a in
    let* h := match next_ n with
              | Some x => store (hh.1) x (set_prev (prev_ n))
              | None => Done (hh.1)
              end in
    let* h := store h a (λ _, mkNode None None None) in
    Done (mkState h (<[l := mkList (hh.2) cursor]> (lists s)))
  else Done s.

(** [~Abortable()], and the end of the node's life. *)
Definition destroy (s : state) (a : addr) : outcome state :=
  let* n := load (heap s) a in
  let* s := match list_ n with Some l => remove s l a | None => Done s end in
  Done (mkState (delete a (heap s)) (lists s)).

(** [Abortable()]: a node at an address not in use. *)
Definition create (s : state) (a : addr) : outcome state :=
  match heap s !! a with
  | None => Done (mkState (<[a := mkNode None None None]> (heap s)) (lists s))
  | Some _ => Undefined
  end.

(** [AbortList::empty()]. *)
Definition empty (s : state) (l : lid) : outcome bool :=
  let* al := the_list s l in Done (bool_decide (head_ al = None)).

Definition set_cursor (s : state) (l : lid) (c : option addr) : outcome state :=
  let* al := the_list s l in
  Done (mkState (heap s) (<[l := mkList (head_ al) c]> (lists s))).

(** The loop of [AbortList::each] with callback [f]: at most [fuel] rounds; also yields
    the nodes visited, in order. *)
Fixpoint each_loop (fuel : nat) (l : lid) (f : addr → state → outcome state) (s : state)
    : outcome (state * list addr) :=
  let* al := the_list s l in
  match cursor_ al with
  | None => Done (s, [])
  | Some node =>
      match fuel with
      | O => OutOfFuel
      | S fuel =>
          let* n := load (heap s) node in
          let* s := set_cursor s l (next_ n) in
          let* s := f node s in
          let* r := each_loop fuel l f s in
          Done (r.1, node :: r.2)
      end
  end.

(** [AbortList::each]. *)
Definition each (fuel : nat) (l : lid) (f : addr → state → outcome state) (s : state)
    : outcome (state * list addr) :=
  let* al := the_list s l in
  let outer := cursor_ al in
  let* s := set_cursor s l (head_ al) in
  let* r := each_loop fuel l f s in
  let* s := set_cursor r.1 l outer in
  Done (s, r.2).

(** What a callback (an [abort()] or [force()]) may do to the lists. *)
Inductive op :=
| Create (a : addr)
| Add (l : lid) (a : addr)
| Remove (l : lid) (a : addr)
| Destroy (a : addr).

Definition run_op (s : state) (o : op) : outcome state :=
  match o with
  | Create a => create s a
  | Add l a => add s l a
  | Remove l a => remove s l a
  | Destroy a => destroy s a
  end.

Fixpoint run_ops (ops : list op) (s : state) : outcome state :=
  match ops with
  | [] => Done s
  | o :: ops => let* s := run_op s o in run_ops ops s
  end.

(** ** The abstract lists *)

(** A list is the part the iteration has passed and the part it still has to visit, in
    list order; outside an iteration the second part is empty. *)
Record alist := mkA { passed : list addr; work : list addr }.

Definition tracked (a : alist) : list addr := passed a ++ work a.

(** The live nodes, and the lists. *)
Record astate := mkAS { live : gset addr; alists : gmap lid alist }.

Definition without (a : addr) (x : alist) : alist :=
  mkA (filter (λ b, b ≠ a) (passed x)) (filter (λ b, b ≠ a) (work x)).

(** The list a node is on. *)
Definition on_list (A : astate) (a : addr) (l : lid) : Prop :=
  ∃ x, alists A !! l = Some x ∧ a ∈ tracked x.

#[export] Instance on_list_dec A a l : Decision (on_list A a l).
Proof.
  destruct (alists A !! l) as [x|] eqn:Hx.
  - destruct (decide (a ∈ tracked x)); [left; by exists x|right].
    intros (y & Hy & Hin). naive_solver.
  - right. intros (y & Hy & _). congruence.
Defined.

(** Untracked: on no list. *)
Definition free (A : astate) (a : addr) : bool :=
  bool_decide (map_Forall (λ _ x, a ∉ tracked x) (alists A)).

(** The operations on sequences: a new node goes to the front, where an iteration under way
    has already been; removal takes it out of both parts. [Undefined] is a call that breaks
    the rules: adding a node that is tracked, or touching one that is not alive. *)
Definition a_op (o : op) (A : astate) : outcome astate :=
  match o with
  | Create a =>
      if decide (a ∈ live A) then Undefined else Done (mkAS ({[a]} ∪ live A) (alists A))
  | Add l a =>
      match alists A !! l with
      | Some x =>
          if decide (a ∈ live A ∧ free A a)
          then Done (mkAS (live A) (<[l := mkA (a :: passed x) (work x)]> (alists A)))
          else Undefined
      | None => Undefined
      end
  | Remove l a =>
      if decide (a ∈ live A)
      then Done (mkAS (live A) (alter (without a) l (alists A))) else Undefined
  | Destroy a =>
      if decide (a ∈ live A)
      then Done (mkAS (live A ∖ {[a]}) (without a <$> alists A)) else Undefined
  end.

Fixpoint a_ops (ops : list op) (A : astate) : outcome astate :=
  match ops with
  | [] => Done A
  | o :: ops => let* A := a_op o A in a_ops ops A
  end.

Definition set_alist (A : astate) (l : lid) (x : alist) : astate :=
  mkAS (live A) (<[l := x]> (alists A)).

(** The iteration on sequences: the next node is passed, then its callback [F] runs. *)
Fixpoint a_loop (fuel : nat) (l : lid) (F : addr → astate → outcome astate) (A : astate)
    : outcome (astate * list addr) :=
  match alists A !! l with
  | None => Undefined
  | Some x =>
      match work x, fuel with
      | [], _ => Done (A, [])
      | _ :: _, O => OutOfFuel
      | node :: rest, S fuel =>
          let* A := F node (set_alist A l (mkA (passed x ++ [node]) rest)) in
          let* r := a_loop fuel l F A in
          Done (r.1, node :: r.2)
      end
  end.

(** Splits a sequence before a node. *)
Fixpoint split_before (a : addr) (xs : list addr) : option alist :=
  match xs with
  | [] => None
  | y :: ys =>
      if decide (y = a) then Some (mkA [] (y :: ys))
      else match split_before a ys with
           | Some z => Some (mkA (y :: passed z) (work z))
           | None => None
           end
  end.

(** Where an iteration stands when the cursor is put back: at the node it had next, if that
    one is still tracked. *)
Definition resume (outer : list addr) (xs : list addr) : option alist :=
  match outer with
  | [] => Some (mkA xs [])
  | w :: _ => split_before w xs
  end.

(** The whole iteration: everything tracked is to be visited, and an iteration it is nested
    in goes on from where it was. *)
Definition a_each (fuel : nat) (l : lid) (F : addr → astate → outcome astate) (A : astate)
    : outcome (astate * list addr) :=
  match alists A !! l with
  | None => Undefined
  | Some x =>
      let* r := a_loop fuel l F (set_alist A l (mkA [] (tracked x))) in
      match alists r.1 !! l with
      | None => Undefined
      | Some y =>
          match resume (work x) (tracked y) with
          | Some z => Done (set_alist r.1 l z, r.2)
          | None => Undefined
          end
      end
  end.

(** The nodes a script takes off list [l]. *)
Fixpoint removed (l : lid) (ops : list op) : list addr :=
  match ops with
  | [] => []
  | Remove l' a :: ops => if decide (l' = l) then a :: removed l ops else removed l ops
  | Destroy a :: ops => a :: removed l ops
  | _ :: ops => removed l ops
  end.

(** The nodes to be visited, given what each one's callback takes off. *)
Fixpoint visits (n : nat) (gone : addr → list addr) (todo : list addr) : list addr :=
  match n, todo with
  | S n, a :: todo => a :: visits n gone (filter (λ b, b ∉ gone a) todo)
  | _, _ => []
  end.

(** ** The representation *)

Definition first (xs : list addr) (q : option addr) : option addr :=
  match xs with [] => q | y :: _ => Some y end.

(** The node before what follows [xs]. *)
Fixpoint final (p : option addr) (xs : list addr) : option addr :=
  match xs with [] => p | x :: xs => final (Some x) xs end.

(** The nodes [xs] of list [l], linked both ways, between [p] and [q]. *)
Fixpoint seg (h : gmap addr Abortable) (l : lid) (p : option addr) (xs : list addr)
    (q : option addr) : Prop :=
  match xs with
  | [] => True
  | x :: xs => h !! x = Some (mkNode (Some l) p (first xs q)) ∧ seg h l (Some x) xs q
  end.

Definition rep_list (h : gmap addr Abortable) (l : lid) (al : AbortList) (x : alist) : Prop :=
  head_ al = first (tracked x) None ∧ cursor_ al = first (work x) None ∧
  NoDup (tracked x) ∧ seg h l None (tracked x) None.

(** The heap and the lists hold these sequences: the nodes of each are linked in order, its
    head and cursor stand at the first node and the next one to visit, and a node that says
    it is on a list is. *)
Record rep (s : state) (A : astate) : Prop := {
  rep_live : dom (heap s) = live A;
  rep_lists : map_Forall2 (rep_list (heap s)) (lists s) (alists A);
  rep_owner : ∀ a n l, heap s !! a = Some n → list_ n = Some l → on_list A a l }.

(** ** Segments *)

Lemma first_app xs ys q : first (xs ++ ys) q = first xs (first ys q).
Proof. by destruct xs. Qed.

Lemma final_app p xs ys : final p (xs ++ ys) = final (final p xs) ys.
Proof. revert p. induction xs; simpl; auto. Qed.

Lemma seg_app h l p xs ys q :
  seg h l p (xs ++ ys) q ↔ seg h l p xs (first ys q) ∧ seg h l (final p xs) ys q.
Proof.
  revert p. induction xs as [|x xs IH]; intros p; simpl; [tauto|].
  rewrite IH, first_app. tauto.
Qed.

Lemma seg_frame h h' l p xs q :
  (∀ b, b ∈ xs → h' !! b = h !! b) → seg h l p xs q → seg h' l p xs q.
Proof.
  revert p. induction xs as [|x xs IH]; intros p Hf Hs; simpl in *; [done|].
  destruct Hs as [Hx Hs]. split; [rewrite Hf; [done|left]|].
  apply IH; [|done]. intros b Hb. apply Hf. by right.
Qed.

Lemma seg_lookup h l p xs q a :
  seg h l p xs q → a ∈ xs → ∃ n, h !! a = Some n ∧ list_ n = Some l.
Proof.
  revert p. induction xs as [|x xs IH]; intros p Hs Ha; [by apply elem_of_nil in Ha|].
  destruct Hs as [Hx Hs]. apply elem_of_cons in Ha as [->|Ha]; eauto.
Qed.

(** ** Representation lemmas *)

Lemma without_notin a x : a ∉ tracked x → without a x = x.
Proof.
  unfold tracked. rewrite not_elem_of_app. intros [Hp Hw].
  destruct x as [p w]; unfold without; simpl in *. f_equal;
    apply filter_all; intros b Hb ->; auto.
Qed.

Lemma filter_split a (pre post : list addr) :
  NoDup (pre ++ a :: post) → filter (λ b, b ≠ a) (pre ++ a :: post) = pre ++ post.
Proof.
  intros Hnd. apply NoDup_app in Hnd as (_ & Hd & Hnd). apply NoDup_cons in Hnd as [Ha _].
  rewrite filter_app, filter_cons. rewrite decide_False by tauto. f_equal;
    apply filter_all; intros b Hb ->; [|done]. apply (Hd a Hb). left.
Qed.

Lemma tracked_without a x : tracked (without a x) = filter (λ b, b ≠ a) (tracked x).
Proof. unfold tracked, without; simpl. by rewrite filter_app. Qed.

(** The cursor moves past the node exactly when it stood there. *)
Lemma first_without a x pre post :
  NoDup (tracked x) → tracked x = pre ++ a :: post →
  first (work (without a x)) None =
  if decide (first (work x) None = Some a) then first post None else first (work x) None.
Proof.
  destruct x as [p w]; unfold tracked, without; cbn [passed work]. intros Hnd Heq.
  destruct w as [|y w]; cbn [first]; [by rewrite decide_False|].
  rewrite filter_cons. destruct (decide (y = a)) as [->|Hy].
  - rewrite decide_False by tauto. rewrite decide_True by done.
    pose proof Hnd as (_ & _ & Hw)%NoDup_app. apply NoDup_cons in Hw as [Ha Hw].
    rewrite filter_all by (intros b Hb ->; auto).
    by destruct (split_unique a p w pre post Hnd Heq) as [_ ->].
  - rewrite decide_True by done. rewrite decide_False by congruence. done.
Qed.

Lemma rep_lookup s A l x :
  rep s A → alists A !! l = Some x → ∃ al, lists s !! l = Some al ∧ rep_list (heap s) l al x.
Proof.
  intros [_ Hl _] Hx. specialize (Hl l). rewrite Hx in Hl.
  inv Hl. eauto.
Qed.

Lemma rep_on_list s A a l :
  rep s A → on_list A a l → ∃ n, heap s !! a = Some n ∧ list_ n = Some l.
Proof.
  intros Hr (x & Hx & Ha). destruct (rep_lookup s A l x Hr Hx) as (al & _ & _ & _ & _ & Hs).
  by apply (seg_lookup _ _ _ _ _ _ Hs).
Qed.

Lemma on_list_inj s A a l l' : rep s A → on_list A a l → on_list A a l' → l = l'.
Proof.
  intros Hr H1 H2. destruct (rep_on_list _ _ _ _ Hr H1) as (n & ? & ?).
  destruct (rep_on_list _ _ _ _ Hr H2) as (n' & ? & ?). congruence.
Qed.

(** One list changes, the others' nodes keep their contents. *)
Lemma rep_lists_insert h h' (L : gmap lid AbortList) M (l : lid) al x :
  map_Forall2 (rep_list h) L M →
  (∀ l' y b, l' ≠ l → M !! l' = Some y → b ∈ tracked y → h' !! b = h !! b) →
  rep_list h' l al x → map_Forall2 (rep_list h') (<[l:=al]> L) (<[l:=x]> M).
Proof.
  intros Hf Hfr Hl l'. destruct (decide (l' = l)) as [->|Hne].
  - rewrite !lookup_insert_eq. by constructor.
  - rewrite !lookup_insert_ne by done. specialize (Hf l').
    destruct (M !! l') as [y|] eqn:Hy; inv Hf as [? ? Hf'|]; [|constructor]. constructor.
    destruct Hf' as (? & ? & ? & Hs). split_and!; try done.
    apply (seg_frame h); [|done]. intros b Hb. by apply (Hfr l' y).
Qed.

(** [free] is being on no list. *)
Lemma free_spec A a : free A a = true ↔ ∀ l, ¬ on_list A a l.
Proof.
  unfold free. rewrite bool_decide_eq_true. split.
  - intros Hf l (x & Hx & Ha). by apply (Hf l x).
  - intros Hn l x Hx Ha. apply (Hn l). by exists x.
Qed.

Lemma store_done h (p : addr) n f : h !! p = Some n → store h p f = Done (<[p:=f n]> h).
Proof. unfold store. by intros ->. Qed.

(** Relinking one list: its new sequence is in place, nodes outside keep their contents,
    a node that joined was on no list and one that left says so. *)
Lemma rep_relink s A l x x' al' h' :
  rep s A → alists A !! l = Some x → rep_list h' l al' x' → dom h' = dom (heap s) →
  (∀ b, b ∉ tracked x → b ∉ tracked x' → h' !! b = heap s !! b) →
  (∀ b, b ∈ tracked x' → b ∈ tracked x ∨ ∀ l', ¬ on_list A b l') →
  (∀ b n, b ∈ tracked x → b ∉ tracked x' → h' !! b = Some n → list_ n = None) →
  rep (mkState h' (<[l := al']> (lists s))) (set_alist A l x').
Proof.
  intros Hr Hx Hl Hd Hfr Hin Hout. split; simpl.
  - rewrite Hd. apply (rep_live s A Hr).
  - eapply rep_lists_insert; [apply (rep_lists s A Hr)| |done].
    intros l' y b Hne Hy Hb. assert (Hby : on_list A b l') by by exists y.
    assert (b ∉ tracked x).
    { intros Hbx. apply Hne. by apply (on_list_inj s A b l' l Hr); [|exists x]. }
    apply Hfr; [done|]. intros [|Hn]%Hin; [done|]. by apply (Hn l').
  - intros b m l' Hb Hm. destruct (decide (b ∈ tracked x')) as [Hb'|Hb'].
    + destruct Hl as (_ & _ & _ & Hs). destruct (seg_lookup _ _ _ _ _ _ Hs Hb') as (m' & ? & ?).
      simplify_eq. exists x'. simpl. by rewrite lookup_insert_eq.
    + destruct (decide (b ∈ tracked x)) as [Hbx|Hbx].
      { rewrite (Hout b m Hbx Hb' Hb) in Hm. done. }
      rewrite Hfr in Hb by done. destruct (rep_owner s A Hr b m l' Hb Hm) as (y & Hy & Hby).
      assert (l' ≠ l) by (intros ->; simplify_eq; done).
      exists y. simpl. by rewrite lookup_insert_ne.
Qed.

(** [add]'s writes put the node in front. *)
Lemma add_link h l a xs n :
  a ∉ xs → NoDup xs → seg h l None xs None → h !! a = Some n →
  let h1 := <[a := mkNode (Some l) None (first xs None)]> h in
  ∃ h', match first xs None with
        | Some y => store h1 y (set_prev (Some a)) | None => Done h1 end = Done h' ∧
    seg h' l None (a :: xs) None ∧ dom h' = dom h ∧ (∀ b, b ∉ a :: xs → h' !! b = h !! b).
Proof.
  intros Hax Hnd Hs Hn h1. apply elem_of_dom_2 in Hn as Hda.
  destruct xs as [|y ys]; simpl in *.
  - exists h1. unfold h1. split_and!; try done.
    + by rewrite lookup_insert_eq.
    + rewrite dom_insert_L. set_solver.
    + intros b Hb. rewrite lookup_insert_ne; [done|]. set_solver.
  - destruct Hs as [Hy Hs]. apply elem_of_dom_2 in Hy as Hdy. unfold h1.
    rewrite not_elem_of_cons in Hax. destruct Hax as [Hay Hax].
    erewrite store_done; [|by rewrite lookup_insert_ne by done].
    eexists; split; [reflexivity|]. apply NoDup_cons in Hnd as [Hyys _]. split_and!.
    + rewrite lookup_insert_ne, lookup_insert_eq by done. done.
    + by rewrite lookup_insert_eq.
    + eapply seg_frame, Hs. intros b Hb.
      rewrite !lookup_insert_ne; [done|..]; intros ->; done.
    + rewrite !dom_insert_L. set_solver.
    + intros b Hb. rewrite !lookup_insert_ne; [done|..]; set_solver.
Qed.

Lemma add_rep s A l a A' :
  rep s A → a_op (Add l a) A = Done A' → ∃ s', add s l a = Done s' ∧ rep s' A'.
Proof.
  intros Hr Ha. unfold a_op in Ha. destruct (alists A !! l) as [x|] eqn:Hx; [|done].
  destruct (decide _) as [[Hlive Hfree]|]; [|done]. injection Ha as <-.
  pose proof (proj1 (free_spec A a) (proj1 (Is_true_true _) Hfree)) as Hoff.
  destruct (rep_lookup s A l x Hr Hx) as (al & Hal & Hhd & Hcur & Hnd & Hs).
  assert (Hax : a ∉ tracked x) by (intros Hax; apply (Hoff l); by exists x).
  rewrite <-(rep_live s A Hr) in Hlive. apply elem_of_dom in Hlive as [n Hn].
  destruct (add_link _ _ _ _ _ Hax Hnd Hs Hn) as (h' & Hst & Hs' & Hd' & Hfr').
  unfold add, the_list. rewrite Hal; cbn [obind].
  rewrite (store_done _ _ _ _ Hn); cbn [obind]. rewrite Hhd, Hst; cbn [obind].
  eexists; split; [reflexivity|].
  apply (rep_relink s A l x (mkA (a :: passed x) (work x))); simpl; try done.
  - split_and!; simpl; try done. by apply NoDup_cons.
  - intros b Hb1 Hb2. by apply Hfr'.
  - intros b [->|Hb]%elem_of_cons; auto.
  - intros b m Hb Hb'. destruct Hb'. by right.
Qed.

(** The write to the predecessor of a removed node; without one, the head moves. *)
Lemma join_left h l pre a q :
  NoDup pre → seg h l None pre (Some a) →
  ∃ h', match final None pre with
        | Some p => let* h := store h p (set_next q) in Done (h, first pre (Some a))
        | None => Done (h, q)
        end = Done (h', first pre q) ∧
    seg h' l None pre q ∧ dom h' = dom h ∧ (∀ b, b ∉ pre → h' !! b = h !! b).
Proof.
  destruct pre as [|p pre _] using rev_ind; [by exists h|].
  intros Hnd [Hs [Hp _]]%seg_app. apply elem_of_dom_2 in Hp as Hdp.
  rewrite final_app; simpl. rewrite (store_done _ _ _ _ Hp); simpl.
  eexists; split; [by rewrite !first_app|]. apply NoDup_app in Hnd as (_ & Hd & _). split_and!.
  - apply seg_app. split; [|simpl; by rewrite lookup_insert_eq].
    eapply seg_frame, Hs. intros b Hb. rewrite lookup_insert_ne; [done|].
    intros ->. apply (Hd b Hb). left.
  - rewrite dom_insert_L. set_solver.
  - intros b Hb. rewrite lookup_insert_ne; [done|]. set_solver.
Qed.

(** The write to the successor. *)
Lemma join_right h l p post a :
  NoDup post → seg h l (Some a) post None →
  ∃ h', match first post None with Some y => store h y (set_prev p) | None => Done h end
        = Done h' ∧
    seg h' l p post None ∧ dom h' = dom h ∧ (∀ b, b ∉ post → h' !! b = h !! b).
Proof.
  destruct post as [|y post]; [by exists h|]. intros [Hy _]%NoDup_cons [Hl Hs]; simpl.
  apply elem_of_dom_2 in Hl as Hdy. rewrite (store_done _ _ _ _ Hl).
  eexists; split; [reflexivity|]. split_and!.
  - by rewrite lookup_insert_eq.
  - eapply seg_frame, Hs. intros b Hb. rewrite lookup_insert_ne; [done|]. by intros ->.
  - rewrite dom_insert_L. set_solver.
  - intros b Hb. rewrite lookup_insert_ne; [done|]. set_solver.
Qed.

(** [remove]'s writes: the neighbours are joined and the node's hooks cleared. *)
Lemma remove_link s l al pre a post :
  lists s !! l = Some al → head_ al = first (pre ++ a :: post) None →
  NoDup (pre ++ a :: post) → seg (heap s) l None (pre ++ a :: post) None →
  ∃ h', remove s l a = Done (mkState h' (<[l := mkList (first (pre ++ post) None)
      (if decide (cursor_ al = Some a) then first post None else cursor_ al)]> (lists s))) ∧
    seg h' l None (pre ++ post) None ∧ h' !! a = Some (mkNode None None None) ∧
    dom h' = dom (heap s) ∧ (∀ b, b ∉ pre ++ a :: post → h' !! b = heap s !! b).
Proof.
  intros Hal Hhd Hnd [Hs1 [Ha Hs2]]%seg_app. apply elem_of_dom_2 in Ha as Hda.
  apply NoDup_app in Hnd as (Hn1 & Hd & [Hapost Hn2]%NoDup_cons).
  assert (Hapre : a ∉ pre) by (intros Hp; apply (Hd a Hp); left).
  destruct (join_left _ _ _ _ (first post None) Hn1 Hs1) as (h1 & Hst1 & Hs1' & Hd1 & Hf1).
  assert (Hs2' : seg h1 l (Some a) post None).
  { eapply seg_frame, Hs2. intros b Hb. apply Hf1. intros Hp. apply (Hd b Hp). by right. }
  destruct (join_right _ _ (final None pre) _ _ Hn2 Hs2') as (h2 & Hst2 & Hs2'' & Hd2 & Hf2).
  unfold remove, load. rewrite Ha; cbn [obind list_ prev_ next_].
  rewrite decide_True by done. unfold the_list. rewrite Hal; cbn [obind].
  rewrite first_app in Hhd; simpl in Hhd. rewrite Hhd, Hst1; cbn [obind fst snd].
  rewrite Hf1, Ha by done; cbn [obind prev_ next_]. rewrite Hst2; cbn [obind].
  assert (Ha2 : h2 !! a = Some (mkNode (Some l) (final None pre) (first post None))).
  { rewrite Hf2, Hf1 by done. done. }
  rewrite (store_done _ _ _ _ Ha2); cbn [obind]. rewrite first_app.
  eexists; split; [reflexivity|]. split_and!.
  - apply seg_app. split.
    + eapply seg_frame, Hs1'. intros b Hb. rewrite lookup_insert_ne by (by intros ->).
      apply Hf2. intros Hp. apply (Hd b Hb). by right.
    + eapply seg_frame, Hs2''. intros b Hb. by rewrite lookup_insert_ne by (by intros ->).
  - by rewrite lookup_insert_eq.
  - rewrite dom_insert_L. set_solver.
  - intros b Hb. rewrite not_elem_of_app, not_elem_of_cons in Hb.
    rewrite lookup_insert_ne by naive_solver. rewrite Hf2, Hf1; naive_solver.
Qed.

Lemma remove_rep s A l a A' :
  rep s A → a_op (Remove l a) A = Done A' → ∃ s', remove s l a = Done s' ∧ rep s' A'.
Proof.
  intros Hr Ha. unfold a_op in Ha. destruct (decide _) as [Hlive|]; [|done].
  injection Ha as <-. rewrite <-(rep_live s A Hr) in Hlive.
  apply elem_of_dom in Hlive as [n Hn]. destruct (decide (on_list A a l)) as [Hon|Hoff].
  - destruct Hon as (x & Hx & Hax).
    destruct (rep_lookup s A l x Hr Hx) as (al & Hal & Hhd & Hcur & Hnd & Hs).
    apply list_elem_of_split in Hax as (pre & post & Heq).
    pose proof (first_without a x pre post Hnd Heq) as Hfw.
    pose proof (tracked_without a x) as Htw. rewrite Heq in Hhd, Hnd, Hs, Htw.
    rewrite filter_split in Htw by done.
    destruct (remove_link s l al pre a post Hal Hhd Hnd Hs) as (h' & -> & Hs' & Ha' & Hd' & Hf').
    eexists; split; [reflexivity|].
    replace (alter (without a) l (alists A)) with (<[l := without a x]> (alists A)).
    2:{ apply map_eq. intros l'. destruct (decide (l' = l)) as [->|].
        - by rewrite lookup_insert_eq, lookup_alter_eq, Hx.
        - by rewrite lookup_insert_ne, lookup_alter_ne. }
    apply NoDup_app in Hnd as Hnd'. destruct Hnd' as (Hn1 & Hdj & [Hapost Hn2]%NoDup_cons).
    apply (rep_relink s A l x (without a x)); try done; rewrite ?Htw, ?Heq.
    + unfold rep_list. rewrite Htw. split_and!; cbn [head_ cursor_]; try done.
      * by rewrite Hfw, Hcur.
      * apply NoDup_app. split_and!; try done. intros b Hb Hb'. apply (Hdj b Hb). by right.
    + intros b Hb _. by apply Hf'.
    + set_solver.
    + intros b m Hb Hb'. assert (b = a) as -> by set_solver. rewrite Ha'. by intros [= <-].
  - unfold remove, load. rewrite Hn; cbn [obind]. rewrite decide_False.
    2:{ intros Hl. by apply Hoff, (rep_owner s A Hr a n). }
    exists s; split; [done|]. destruct A as [lv M]; simpl in *.
    replace (alter (without a) l M) with M; [done|]. apply map_eq. intros l'.
    destruct (decide (l' = l)) as [->|]; [|by rewrite lookup_alter_ne].
    rewrite lookup_alter_eq. destruct (M !! l) as [x|] eqn:Hx; simpl; [|done].
    rewrite without_notin; [done|]. intros Hax. apply Hoff. by exists x.
Qed.

Lemma rep_free_delete s A a :
  rep s A → (∀ l, ¬ on_list A a l) →
  rep (mkState (delete a (heap s)) (lists s)) (mkAS (live A ∖ {[a]}) (alists A)).
Proof.
  intros Hr Hoff. split; simpl.
  - rewrite dom_delete_L, (rep_live s A Hr). done.
  - intros l. pose proof (rep_lists s A Hr l) as Hl.
    destruct (alists A !! l) as [x|] eqn:Hx; inv Hl as [al ? Hl'|]; constructor.
    destruct Hl' as (? & ? & ? & Hs). split_and!; try done.
    eapply seg_frame, Hs. intros b Hb. rewrite lookup_delete_ne; [done|].
    intros ->. apply (Hoff l). by exists x.
  - intros b m l [_ Hb]%lookup_delete_Some Hm. apply (rep_owner s A Hr b m l Hb Hm).
Qed.

Lemma without_off (M : gmap lid alist) a :
  (∀ l x, M !! l = Some x → a ∉ tracked x) → without a <$> M = M.
Proof.
  intros Hoff. apply map_eq. intros l. rewrite lookup_fmap.
  destruct (M !! l) as [x|] eqn:Hx; simpl; [|done]. by rewrite without_notin by eauto.
Qed.

Lemma without_on s A a l :
  rep s A → on_list A a l → without a <$> alists A = alter (without a) l (alists A).
Proof.
  intros Hr Hon. apply map_eq. intros l'. rewrite lookup_fmap.
  destruct (decide (l' = l)) as [->|Hne]; [by rewrite lookup_alter_eq|].
  rewrite lookup_alter_ne by done. destruct (alists A !! l') as [x|] eqn:Hx; simpl; [|done].
  rewrite without_notin; [done|]. intros Ha. apply Hne.
  apply (on_list_inj s A a l' l Hr); [by exists x|done].
Qed.

Lemma destroy_rep s A a A' :
  rep s A → a_op (Destroy a) A = Done A' → ∃ s', destroy s a = Done s' ∧ rep s' A'.
Proof.
  intros Hr Ha. unfold a_op in Ha. destruct (decide _) as [Hlive|]; [|done].
  injection Ha as <-. pose proof Hlive as Hn. rewrite <-(rep_live s A Hr) in Hn.
  apply elem_of_dom in Hn as [n Hn]. unfold destroy, load. rewrite Hn; cbn [obind].
  destruct (list_ n) as [l|] eqn:Hl.
  - pose proof (rep_owner s A Hr a n l Hn Hl) as Hon.
    destruct (remove_rep s A l a (mkAS (live A) (alter (without a) l (alists A))) Hr)
      as (s1 & -> & Hr1); [by unfold a_op; rewrite decide_True|]; cbn [obind].
    eexists; split; [reflexivity|]. rewrite (without_on s A a l Hr Hon).
    apply (rep_free_delete _ _ a Hr1). intros l' (x & Hx & Hax); simpl in Hx.
    rewrite <-(without_on s A a l Hr Hon), lookup_fmap in Hx.
    destruct (alists A !! l') as [y|]; simplify_eq/=.
    rewrite tracked_without, list_elem_of_filter in Hax. tauto.
  - eexists; split; [reflexivity|].
    assert (Hoff : ∀ l, ¬ on_list A a l).
    { intros l Hon. destruct (rep_on_list s A a l Hr Hon) as (? & ? & ?). congruence. }
    rewrite without_off; [by apply rep_free_delete|].
    intros l x Hx Hax. apply (Hoff l). by exists x.
Qed.

Lemma create_rep s A a A' :
  rep s A → a_op (Create a) A = Done A' → ∃ s', create s a = Done s' ∧ rep s' A'.
Proof.
  intros Hr Ha. unfold a_op in Ha. destruct (decide _) as [|Hlive]; [done|].
  injection Ha as <-. rewrite <-(rep_live s A Hr) in Hlive.
  apply not_elem_of_dom in Hlive. unfold create. rewrite Hlive.
  eexists; split; [reflexivity|]. split; simpl.
  - by rewrite dom_insert_L, (rep_live s A Hr).
  - intros l. pose proof (rep_lists s A Hr l) as Hl.
    destruct (alists A !! l) as [x|] eqn:Hx; inv Hl as [al ? Hl'|]; constructor.
    destruct Hl' as (? & ? & ? & Hs). split_and!; try done.
    eapply seg_frame, Hs. intros b Hb. rewrite lookup_insert_ne; [done|]. intros ->.
    destruct (seg_lookup _ _ _ _ _ _ Hs Hb) as (? & ? & ?). congruence.
  - intros b m l Hb Hm. apply lookup_insert_Some in Hb as [[-> <-]|[_ Hb]]; [done|].
    apply (rep_owner s A Hr b m l Hb Hm).
Qed.

(** [p] does on the heap what [P] does on sequences, whenever [P] is defined. *)
Definition refines (p : state → outcome state) (P : astate → outcome astate) : Prop :=
  ∀ s A A', rep s A → P A = Done A' → ∃ s', p s = Done s' ∧ rep s' A'.

Lemma refines_bind p q P Q :
  refines p P → refines q Q →
  refines (λ s, let* s := p s in q s) (λ A, let* A := P A in Q A).
Proof.
  intros Hp Hq s A A' Hr HA. destruct (P A) as [A1| |] eqn:HP; try done.
  destruct (Hp s A A1 Hr HP) as (s1 & -> & Hr1). by apply (Hq s1 A1 A').
Qed.

Lemma run_op_refines o : refines (λ s, run_op s o) (a_op o).
Proof.
  intros s A A' Hr HA. destruct o.
  - by apply (create_rep s A).
  - by apply (add_rep s A).
  - by apply (remove_rep s A).
  - by apply (destroy_rep s A).
Qed.

Lemma run_ops_refines ops : refines (run_ops ops) (a_ops ops).
Proof.
  induction ops as [|o ops IH]; [|by apply (refines_bind (λ s, run_op s o)), IH; apply run_op_refines].
  intros s A A' Hr HA. injection HA as <-. by exists s.
Qed.

(** Moving the cursor changes how a sequence is split, not the sequence. *)
Lemma set_cursor_rep s A l x x' :
  rep s A → alists A !! l = Some x → tracked x' = tracked x →
  ∃ s', set_cursor s l (first (work x') None) = Done s' ∧ rep s' (set_alist A l x').
Proof.
  intros Hr Hx Ht. destruct (rep_lookup s A l x Hr Hx) as (al & Hal & Hhd & _ & Hnd & Hs).
  unfold set_cursor, the_list. rewrite Hal; cbn [obind]. eexists; split; [reflexivity|].
  apply (rep_relink s A l x); rewrite ?Ht; try done; [|tauto].
  unfold rep_list. by rewrite Ht.
Qed.

Lemma each_loop_rep fuel l f F :
  (∀ a, refines (f a) (F a)) → ∀ s A A' vis,
  rep s A → a_loop fuel l F A = Done (A', vis) →
  ∃ s', each_loop fuel l f s = Done (s', vis) ∧ rep s' A'.
Proof.
  intros Hf. induction fuel as [|fuel IH]; intros s A A' vis Hr HA; simpl in HA;
    destruct (alists A !! l) as [x|] eqn:Hx; try done;
    destruct (rep_lookup s A l x Hr Hx) as (al & Hal & _ & Hcur & _ & Hs);
    simpl; unfold the_list at 1; rewrite Hal; cbn [obind]; rewrite Hcur;
    destruct (work x) as [|node rest] eqn:Hw; simpl in *; simplify_eq; eauto.
  unfold tracked in Hs. rewrite Hw, seg_app in Hs. destruct Hs as [_ [Hn _]].
  unfold load. rewrite Hn; cbn [obind next_].
  destruct (set_cursor_rep s A l x (mkA (passed x ++ [node]) rest) Hr Hx)
    as (s1 & Hs1 & Hr1).
  { unfold tracked; simpl. by rewrite Hw, <-app_assoc. }
  cbn [work] in Hs1. rewrite Hs1; cbn [obind]. destruct (F node _) as [A1| |] eqn:HF; try done. cbn [obind] in HA.
  destruct (Hf node _ _ _ Hr1 HF) as (s2 & -> & Hr2). cbn [obind].
  destruct (a_loop fuel l F A1) as [[A2 vis2]| |] eqn:HL; try done. cbn in HA. simplify_eq.
  destruct (IH _ _ _ _ Hr2 HL) as (s3 & -> & Hr3). eauto.
Qed.

Lemma split_before_spec a xs z :
  split_before a xs = Some z → tracked z = xs ∧ first (work z) None = Some a.
Proof.
  revert z. induction xs as [|y xs IH]; intros z Hz; simpl in Hz; [done|].
  destruct (decide (y = a)) as [->|]; [by simplify_eq|].
  destruct (split_before a xs) as [z'|]; [|done]. simplify_eq.
  destruct (IH z' eq_refl) as [<- ?]. done.
Qed.

Lemma resume_spec w xs z :
  resume w xs = Some z → tracked z = xs ∧ first (work z) None = first w None.
Proof.
  destruct w as [|a w]; simpl; [|apply split_before_spec].
  intros [= <-]. unfold tracked; simpl. by rewrite app_nil_r.
Qed.

Lemma each_rep fuel l f F s A A' vis :
  (∀ a, refines (f a) (F a)) → rep s A → a_each fuel l F A = Done (A', vis) →
  ∃ s', each fuel l f s = Done (s', vis) ∧ rep s' A'.
Proof.
  intros Hf Hr HA. unfold a_each in HA.
  destruct (alists A !! l) as [x|] eqn:Hx; [|done].
  destruct (rep_lookup s A l x Hr Hx) as (al & Hal & Hhd & Hcur & _ & _).
  destruct (a_loop _ _ _ _) as [[A1 v1]| |] eqn:HL; try done. cbn [obind fst snd] in HA.
  destruct (alists A1 !! l) as [y|] eqn:Hy; [|done].
  destruct (resume _ _) as [z|] eqn:Hz; [|done]. simplify_eq.
  destruct (set_cursor_rep s A l x (mkA [] (tracked x)) Hr Hx eq_refl) as (s1 & Hs1 & Hr1).
  destruct (each_loop_rep fuel l f F Hf _ _ _ _ Hr1 HL) as (s2 & Hs2 & Hr2).
  apply resume_spec in Hz as [Ht Hw].
  destruct (set_cursor_rep s2 A1 l y z Hr2 Hy Ht) as (s3 & Hs3 & Hr3).
  unfold each, the_list. rewrite Hal; cbn [obind]. cbn [work] in Hs1. rewrite Hhd, Hs1; cbn [obind].
  rewrite Hs2; cbn [obind fst snd]. rewrite Hcur, <-Hw, Hs3; cbn [obind]. eauto.
Qed.

(** ** What an iteration visits *)

Lemma a_op_work o A A' l x :
  a_op o A = Done A' → alists A !! l = Some x →
  ∃ x', alists A' !! l = Some x' ∧ work x' = filter (λ b, b ∉ removed l [o]) (work x).
Proof.
  intros Ho Hx.
  assert (Hall : ∀ w : list addr, filter (λ b, b ∉ @nil addr) w = w).
  { intros w. apply filter_all. intros b _. apply not_elem_of_nil. }
  assert (Hone : ∀ a (w : list addr), filter (λ b, b ≠ a) w = filter (λ b, b ∉ [a]) w).
  { intros a w. apply list_filter_iff. intros b. by rewrite list_elem_of_singleton. }
  destruct o as [a|l' a|l' a|a]; unfold a_op in Ho; cbn [removed].
  - destruct (decide _); [done|]. injection Ho as <-. exists x. by rewrite Hall.
  - destruct (alists A !! l') as [y|] eqn:Hy; [|done]. destruct (decide _); [|done].
    injection Ho as <-. rewrite Hall. simpl. destruct (decide (l' = l)) as [->|].
    + simplify_eq. rewrite lookup_insert_eq. eauto.
    + rewrite lookup_insert_ne by done. eauto.
  - destruct (decide _); [|done]. injection Ho as <-. simpl. destruct (decide (l' = l)) as [->|].
    + rewrite lookup_alter_eq, Hx. simpl. eexists; split; [done|]. apply Hone.
    + rewrite lookup_alter_ne, Hall by done. eauto.
  - destruct (decide _); [|done]. injection Ho as <-. simpl. rewrite lookup_fmap, Hx.
    simpl. eexists; split; [done|]. apply Hone.
Qed.

Lemma removed_cons l o ops : removed l (o :: ops) = removed l [o] ++ removed l ops.
Proof. destruct o; simpl; try done. by destruct (decide _). Qed.

Lemma a_ops_work ops A A' l x :
  a_ops ops A = Done A' → alists A !! l = Some x →
  ∃ x', alists A' !! l = Some x' ∧ work x' = filter (λ b, b ∉ removed l ops) (work x).
Proof.
  revert A x. induction ops as [|o ops IH]; intros A x HA Hx.
  - injection HA as <-. exists x. rewrite filter_all; [done|].
    intros b _. apply not_elem_of_nil.
  - simpl in HA. destruct (a_op o A) as [A1| |] eqn:Ho; try done.
    destruct (a_op_work o A A1 l x Ho Hx) as (x1 & Hx1 & Hw1).
    destruct (IH A1 x1 HA Hx1) as (x2 & Hx2 & Hw2). exists x2. split; [done|].
    rewrite Hw2, Hw1, list_filter_filter, (removed_cons l o ops). apply list_filter_iff.
    intros b. rewrite not_elem_of_app. tauto.
Qed.

Lemma a_ops_terminates ops A : a_ops ops A ≠ OutOfFuel.
Proof.
  revert A. induction ops as [|o ops IH]; intros A; simpl; [done|].
  destruct (a_op o A) as [A1| |] eqn:Ho; simpl; [apply IH|done|].
  destruct o; unfold a_op in Ho; repeat case_match; done.
Qed.

Lemma a_loop_visits fuel l script A x :
  alists A !! l = Some x → (length (work x) ≤ fuel)%nat →
  match a_loop fuel l (λ a, a_ops (script a)) A with
  | Done (A', vis) =>
      vis = visits fuel (λ a, removed l (script a)) (work x) ∧ is_Some (alists A' !! l)
  | Undefined => True
  | OutOfFuel => False
  end.
Proof.
  revert A x. induction fuel as [|fuel IH]; intros A x Hx Hlen; simpl; rewrite Hx;
    destruct (work x) as [|node rest] eqn:Hw; simpl in *; eauto; [lia|].
  destruct (a_ops (script node) _) as [A1| |] eqn:HA; simpl; [|done|by apply a_ops_terminates in HA].
  destruct (a_ops_work _ _ _ l (mkA (passed x ++ [node]) rest) HA) as (x1 & Hx1 & Hw1).
  { simpl. by rewrite lookup_insert_eq. }
  simpl in Hw1. specialize (IH A1 x1 Hx1). rewrite Hw1 in IH.
  pose proof (length_filter (λ b, b ∉ removed l (script node)) rest).
  destruct (a_loop fuel _ _ A1) as [[A2 vis2]| |]; simpl; [|done|apply IH; lia].
  destruct IH as [-> HA2]; [lia|]. done.
Qed.

Lemma a_each_visits fuel l script A x :
  alists A !! l = Some x → (length (tracked x) ≤ fuel)%nat →
  match a_each fuel l (λ a, a_ops (script a)) A with
  | Done (_, vis) => vis = visits fuel (λ a, removed l (script a)) (tracked x)
  | Undefined => True
  | OutOfFuel => False
  end.
Proof.
  intros Hx Hlen. unfold a_each. rewrite Hx.
  pose proof (a_loop_visits fuel l script (set_alist A l (mkA [] (tracked x)))
    (mkA [] (tracked x)) (lookup_insert_eq _ _ _) Hlen) as HL.
  destruct (a_loop _ _ _ _) as [[A1 v1]| |]; try done. destruct HL as [-> [y Hy]].
  cbn [obind fst snd]. rewrite Hy. by destruct (resume _ _).
Qed.

Lemma visits_sublist n gone todo : visits n gone todo `sublist_of` todo.
Proof.
  revert todo. induction n as [|n IH]; intros [|a todo]; simpl; try apply sublist_nil_l.
  apply sublist_skip. etrans; [apply IH|]. apply sublist_filter.
Qed.

Lemma visits_spec n gone todo pre b post :
  NoDup todo → (length todo ≤ n)%nat → todo = pre ++ b :: post →
  (b ∉ visits n gone todo ↔ ∃ c, c ∈ visits n gone todo ∧ c ∈ pre ∧ b ∈ gone c).
Proof.
  revert todo pre post. induction n as [|n IH]; intros todo pre post Hnd Hlen ->.
  { rewrite length_app in Hlen. simpl in Hlen. lia. }
  destruct pre as [|a pre]; simpl.
  { split; [set_solver|]. intros (c & _ & []%elem_of_nil & _). }
  simpl in Hnd. apply NoDup_cons in Hnd as [Ha Hnd].
  assert (b ≠ a) by set_solver. destruct (decide (b ∈ gone a)) as [Hg|Hg].
  - split; [intros _; exists a; set_solver|]. intros _ [|Hb]%elem_of_cons; [done|].
    eapply sublist_subseteq in Hb; [|apply visits_sublist].
    apply list_elem_of_filter in Hb as [Hb _]. done.
  - pose proof (length_filter (λ b, b ∉ gone a) (pre ++ b :: post)).
    set (todo' := filter (λ b, b ∉ gone a) (pre ++ b :: post)).
    destruct (IH todo' (filter (λ b, b ∉ gone a) pre) (filter (λ b, b ∉ gone a) post))
      as [IH1 IH2]; [by apply NoDup_filter|unfold todo'; simpl in Hlen; lia| |].
    { unfold todo'. by rewrite filter_app, filter_cons_True. }
    rewrite not_elem_of_cons. split.
    + intros [_ Hb]. destruct (IH1 Hb) as (c & Hc & [_ Hcp]%list_elem_of_filter & Hbc).
      exists c. set_solver.
    + intros (c & Hc & Hcp & Hbc). split; [done|]. apply IH2.
      apply elem_of_cons in Hc as [->|Hc]; [done|].
      apply elem_of_cons in Hcp as [->|Hcp]; [done|]. exists c. split_and!; try done.
      apply list_elem_of_filter. split; [|done].
      pose proof (visits_sublist n gone todo') as Hs.
      eapply sublist_subseteq in Hc; [|done]. by apply list_elem_of_filter in Hc as [? _].
Qed.

Lemma empty_rep s A l x :
  rep s A → alists A !! l = Some x → empty s l = Done (bool_decide (tracked x = [])).
Proof.
  intros Hr Hx. destruct (rep_lookup s A l x Hr Hx) as (al & Hal & Hhd & _).
  unfold empty, the_list. rewrite Hal; cbn [obind]. rewrite Hhd.
  destruct (tracked x); reflexivity.
Qed.

(** ** Examples *)

(** One list, no node yet. *)
Definition start : state := mkState ∅ {[0%nat := mkList None None]}.
Definition a_start : astate := mkAS ∅ {[0%nat := mkA [] []]}.

(** Three nodes, tracked in turn: the list reads 3, 2, 1. *)
Definition setup : list op :=
  [Create 1; Create 2; Create 3; Add 0 1; Add 0 2; Add 0 3]%nat.

Definition node_or {A} (d : A) (m : outcome A) : A := match m with Done a => a | _ => d end.
Definition three : state := node_or start (run_ops setup start).
Definition a_three : astate := node_or a_start (a_ops setup a_start).

Lemma start_rep : rep start a_start.
Proof.
  split; [done| |].
  - apply map_Forall2_singleton. split_and!; try done. apply NoDup_nil_2.
  - intros a n l Ha. change (heap start) with (∅ : gmap addr Abortable) in Ha.
    by rewrite lookup_empty in Ha.
Qed.

Lemma three_rep : rep three a_three.
Proof.
  destruct (run_ops_refines setup start a_start a_three start_rep eq_refl) as (s & Hs & Hr).
  unfold three. by rewrite Hs.
Qed.

(** Node 3's callback destroys its successor, untracks itself and tracks a new node. *)
Definition busy (a : addr) : list op :=
  if decide (a = 3%nat) then [Destroy 2; Remove 0 3; Create 4; Add 0 4]%nat else [].

(** An iteration in which node 3's callback iterates over the same list, and the inner
    iteration destroys node 2. *)
Definition nested (a : addr) (s : state) : outcome state :=
  if decide (a = 3%nat)
  then let* r := each 10 0 (λ b s, if decide (b = 2%nat) then destroy s b else Done s) s in
       Done r.1
  else Done s.

(** ** Theorems *)

(** C5: tracking, untracking and destroying nodes in any order that follows the rules never
    follows a bad pointer, and the intrusive lists then hold exactly the sequences that the
    same operations give on plain lists, with every hook, head and cursor in place;
    [empty] tells whether the sequence is empty. *)
Theorem abort_list_refines ops s A A' :
  rep s A → a_ops ops A = Done A' →
  ∃ s', run_ops ops s = Done s' ∧ rep s' A' ∧
    ∀ l x, alists A' !! l = Some x → empty s' l = Done (bool_decide (tracked x = [])).
Proof.
  intros Hr HA. destruct (run_ops_refines ops s A A' Hr HA) as (s' & Hs & Hr').
  exists s'. split_and!; try done. intros l x. by apply empty_rep.
Qed.

Lemma abort_list_refines_witness :
  ∃ s', run_ops (setup ++ [Remove 0 2; Destroy 3])%nat start = Done s' ∧
    empty s' 0 = Done false.
Proof.
  destruct (abort_list_refines (setup ++ [Remove 0 2; Destroy 3])%nat start a_start
              (mkAS {[1; 2]}%nat {[0%nat := mkA [1%nat] []]}) start_rep) as (s' & Hs & _ & He).
  - vm_compute. reflexivity.
  - exists s'. split; [exact Hs|]. by rewrite (He 0%nat (mkA [1%nat] [])).
Defined.

(** An iteration, also one nested in another over the same list, does on the heap what
    it does on sequences, for every callback that does. A nested one needs the outer one's
    next node to be still tracked when it ends. *)
Theorem each_refines fuel l f F s A A' vis :
  (∀ a, refines (f a) (F a)) → rep s A → a_each fuel l F A = Done (A', vis) →
  ∃ s', each fuel l f s = Done (s', vis) ∧ rep s' A'.
Proof. apply each_rep. Qed.

Lemma each_refines_witness :
  ∃ s', each 3 0 (λ a, run_ops (busy a)) three = Done (s', [3; 1])%nat.
Proof.
  destruct (each_refines 3 0 (λ a, run_ops (busy a)) (λ a, a_ops (busy a)) three a_three
              (mkAS {[1; 3; 4]}%nat {[0%nat := mkA [4; 1]%nat []]}) [3; 1]%nat) as (s' & Hs & _).
  - intros a. apply run_ops_refines.
  - exact three_rep.
  - vm_compute. reflexivity.
  - exists s'. exact Hs.
Defined.

(** C12: an iteration whose callbacks track, untrack and destroy nodes (themselves and others)
    by the rules ends within as many rounds as there were nodes tracked, follows no bad
    pointer, and calls back nodes tracked at its start only, in list order and each at most
    once; it misses a node exactly when the callback of an earlier one took it off. *)
Theorem each_visits fuel l script s A x :
  rep s A → alists A !! l = Some x → work x = [] → (length (tracked x) ≤ fuel)%nat →
  a_each fuel l (λ a, a_ops (script a)) A ≠ Undefined →
  ∃ s' A' vis, each fuel l (λ a, run_ops (script a)) s = Done (s', vis) ∧
    a_each fuel l (λ a, a_ops (script a)) A = Done (A', vis) ∧ rep s' A' ∧
    vis `sublist_of` tracked x ∧ NoDup vis ∧
    ∀ pre b post, tracked x = pre ++ b :: post →
      (b ∉ vis ↔ ∃ c, c ∈ vis ∧ c ∈ pre ∧ b ∈ removed l (script c)).
Proof.
  intros Hr Hx Hw Hlen Hdef.
  destruct (rep_lookup s A l x Hr Hx) as (_ & _ & _ & _ & Hnd & _).
  pose proof (a_each_visits fuel l script A x Hx Hlen) as Hv.
  destruct (a_each _ _ _ A) as [[A' vis]| |] eqn:HE; [|done..].
  destruct (each_rep fuel l _ _ s A A' vis (λ a, run_ops_refines (script a)) Hr HE)
    as (s' & Hs & Hr').
  pose proof (visits_sublist fuel (λ a, removed l (script a)) (tracked x)) as Hsub.
  rewrite <-Hv in Hsub. exists s', A', vis. split_and!; try done.
  - by eapply sublist_NoDup.
  - intros pre b post Heq. rewrite Hv. by apply (visits_spec _ _ _ pre b post).
Qed.

Lemma each_visits_witness :
  ∃ s' vis, each 3 0 (λ a, run_ops (busy a)) three = Done (s', vis) ∧ 2%nat ∉ vis ∧ 1%nat ∈ vis.
Proof.
  destruct (each_visits 3 0 busy three a_three (mkA [3; 2; 1]%nat []) three_rep)
    as (s' & A' & vis & Hs & HA & _ & _ & _ & Hv); [done..|simpl; lia|vm_compute; discriminate|].
  vm_compute in HA. injection HA as _ <-. exists s', [3; 1]%nat. split_and!.
  - exact Hs.
  - apply (Hv [3]%nat 2%nat [1]%nat eq_refl). exists 3%nat. split_and!; set_solver.
  - set_solver.
Defined.


End AbortList.
