(* ===== verification/Track.v ===== *)
(** * reactor.h: Reactor::track, untrack, abort_all and force_all

    The two stages of shutdown over the intrusive list of AbortList.v. The code is written once
    over an interface to the memory and run on the heap and on plain sequences; [abort()] and
    [force()] are the application's, here scripts that may untrack, destroy and create nodes.
    [on_loop_sync] is the call of its function (LoopSync.v). *)

From S2P Require Import Prelude AbortList.

Module Track.
Import AbortList.

#[local] Notation "'let*' x ':=' m 'in' k" := (obind m (λ x, k))
  (at level 10, x binder, m at level 100, k at level 200).

(** ** The code *)

(** What the code needs of the memory the lists live in. *)
Class Memory (M : Type) := {
  m_ops : list op → M → outcome M;
  m_each : lid → (addr → list op) → M → outcome (M * list addr);
  m_alive : addr → M → bool }.

(** The heap; a list has no more nodes than the heap, so an iteration has fuel enough. *)
#[export] Instance heap_memory : Memory state := {|
  m_ops := run_ops;
  m_each l script s := each (size (heap s)) l (λ a, run_ops (script a)) s;
  m_alive a s := bool_decide (is_Some (heap s !! a)) |}.

(** Plain sequences. *)
#[export] Instance sequence_memory : Memory astate := {|
  m_ops := a_ops;
  m_each l script A := a_each (size (live A)) l (λ a, a_ops (script a)) A;
  m_alive a A := bool_decide (a ∈ live A) |}.

(** What an [abort()] or a [force()] does to the lists. *)
Inductive effect := Untrack (a : addr) | Free (a : addr) | Make (a : addr).

Definition me : lid := 0%nat.

Definition op_of (e : effect) : op :=
  match e with Untrack a => Remove me a | Free a => Destroy a | Make a => Create a end.

(** The members of [Reactor] shutdown uses. [calls] counts the [abort()] and [force()] calls of
    each node since it was last tracked. *)
Record reactor (M : Type) := mkReactor {
  mem : M;
  aborting_ : bool;
  walked_ : bool;
  forced_ : bool;
  calls : gmap addr (Z * Z) }.
Arguments mkReactor {M}.
Arguments mem {M}.
Arguments aborting_ {M}.
Arguments walked_ {M}.
Arguments forced_ {M}.
Arguments calls {M}.

Section code.
Context {M : Type} `{Memory M} (on_abort on_force : addr → list effect).

Definition count_abort (a : addr) (c : gmap addr (Z * Z)) : gmap addr (Z * Z) :=
  alter (λ p, (p.1 + 1, p.2)) a c.
Definition count_force (a : addr) (c : gmap addr (Z * Z)) : gmap addr (Z * Z) :=
  alter (λ p, (p.1, p.2 + 1)) a c.

(** [a.abort()] or [a.force()], a virtual call on a live node. *)
Definition invoke (script : addr → list effect) (a : addr) (m : M) : outcome M :=
  if m_alive a m then m_ops (op_of <$> script a) m else Undefined.

Definition abort (a : addr) (r : reactor M) : outcome (reactor M) :=
  let* m := invoke on_abort a (mem r) in
  Done (mkReactor m (aborting_ r) (walked_ r) (forced_ r) (count_abort a (calls r))).
Definition force (a : addr) (r : reactor M) : outcome (reactor M) :=
  let* m := invoke on_force a (mem r) in
  Done (mkReactor m (aborting_ r) (walked_ r) (forced_ r) (count_force a (calls r))).

Definition track (a : addr) (r : reactor M) : outcome (reactor M) :=
  let* m := m_ops [Add me a] (mem r) in
  let r := mkReactor m (aborting_ r) (walked_ r) (forced_ r) (<[a := (0, 0)]> (calls r)) in
  let* r := if walked_ r then abort a r else Done r in
  if forced_ r then force a r else Done r.

(** [untrack], and the client's creation and destruction of abortables. *)
Definition client (o : op) (r : reactor M) : outcome (reactor M) :=
  let* m := m_ops [o] (mem r) in
  Done (mkReactor m (aborting_ r) (walked_ r) (forced_ r) (calls r)).
Definition untrack (a : addr) : reactor M → outcome (reactor M) := client (Remove me a).

Definition abort_all (r : reactor M) : outcome (reactor M) :=
  if aborting_ r then Done r
  else
    let* v := m_each me (λ a, op_of <$> on_abort a) (mem r) in
    Done (mkReactor v.1 true true (forced_ r) (foldr count_abort (calls r) v.2)).

Definition force_all (r : reactor M) : outcome (reactor M) :=
  let* v := m_each me (λ a, op_of <$> on_force a) (mem r) in
  Done (mkReactor v.1 (aborting_ r) (walked_ r) true (foldr count_force (calls r) v.2)).

(** What the host calls. *)
Inductive request := RTrack (a : addr) | RClient (e : effect) | RAbortAll | RForceAll.

Definition serve (q : request) (r : reactor M) : outcome (reactor M) :=
  match q with
  | RTrack a => track a r
  | RClient e => match e with Untrack a => untrack a r | _ => client (op_of e) r end
  | RAbortAll => abort_all r
  | RForceAll => force_all r
  end.

Fixpoint serve_all (qs : list request) (r : reactor M) : outcome (reactor M) :=
  match qs with
  | [] => Done r
  | q :: qs => let* r := serve q r in serve_all qs r
  end.
End code.

Definition fresh {M} (m : M) : reactor M := mkReactor m false false false ∅.

(** ** Sequences only shrink under callbacks *)

Lemma effect_shrinks e A A' x :
  a_op (op_of e) A = Done A' → alists A !! me = Some x →
  ∃ x', alists A' !! me = Some x' ∧ passed x' ⊆ passed x ∧ work x' ⊆ work x.
Proof.
  intros Ho Hx.
  assert (Hw : ∀ a, passed (without a x) ⊆ passed x ∧ work (without a x) ⊆ work x).
  { intros a. split; intros b Hb; simpl in Hb; by apply list_elem_of_filter in Hb as [_ Hb]. }
  destruct e as [a|a|a]; unfold op_of, a_op in Ho; destruct (decide _); simplify_eq; simpl.
  - rewrite lookup_alter_eq, Hx. simpl. eauto.
  - rewrite lookup_fmap, Hx. simpl. eauto.
  - eauto.
Qed.

Lemma effects_shrink es A A' x :
  a_ops (op_of <$> es) A = Done A' → alists A !! me = Some x →
  ∃ x', alists A' !! me = Some x' ∧ passed x' ⊆ passed x ∧ work x' ⊆ work x.
Proof.
  revert A x. induction es as [|e es IH]; intros A x HA Hx; simpl in HA.
  { injection HA as <-. eauto. }
  destruct (a_op (op_of e) A) as [A1| |] eqn:Ho; try done.
  destruct (effect_shrinks e A A1 x Ho Hx) as (x1 & Hx1 & Hp1 & Hw1).
  destruct (IH A1 x1 HA Hx1) as (x2 & Hx2 & Hp2 & Hw2). exists x2. set_solver.
Qed.

(** After an iteration everything left on the list was visited. *)
Lemma loop_covers fuel script A A' vis x :
  a_loop fuel me (λ a, a_ops (op_of <$> script a)) A = Done (A', vis) → alists A !! me = Some x →
  ∃ x', alists A' !! me = Some x' ∧ work x' = [] ∧ ∀ a, a ∈ passed x' → a ∈ passed x ∨ a ∈ vis.
Proof.
  revert A vis x. induction fuel as [|fuel IH]; intros A vis x HA Hx; simpl in HA; rewrite Hx in HA;
    destruct (work x) as [|node rest] eqn:Hw; simplify_eq; try by (exists x; auto).
  destruct (a_ops _ _) as [A1| |] eqn:H1; try done. cbn [obind] in HA.
  destruct (effects_shrink _ _ _ (mkA (passed x ++ [node]) rest) H1) as (x1 & Hx1 & Hp1 & _).
  { simpl. apply lookup_insert_eq. }
  destruct (a_loop fuel _ _ A1) as [[A2 v2]| |] eqn:H2; try done. cbn in HA. simplify_eq.
  destruct (IH A1 v2 x1 H2 Hx1) as (x2 & Hx2 & Hw2 & Hp2). exists x2. split_and!; try done.
  intros a Ha. destruct (Hp2 a Ha) as [Ha1|Ha1]; [|set_solver].
  apply Hp1 in Ha1. simpl in Ha1. set_solver.
Qed.

Lemma each_covers fuel script A A' vis x :
  a_each fuel me (λ a, a_ops (op_of <$> script a)) A = Done (A', vis) →
  alists A !! me = Some x → work x = [] →
  ∃ x', alists A' !! me = Some x' ∧ work x' = [] ∧ ∀ a, a ∈ tracked x' → a ∈ vis.
Proof.
  intros HA Hx Hw. unfold a_each in HA. rewrite Hx in HA.
  destruct (a_loop _ _ _ _) as [[A1 v1]| |] eqn:HL; try done. cbn [obind fst snd] in HA.
  destruct (loop_covers _ _ _ _ _ (mkA [] (tracked x)) HL) as (y & Hy & Hwy & Hp).
  { simpl. apply lookup_insert_eq. }
  rewrite Hy, Hw in HA. simpl in HA. simplify_eq. simpl. rewrite lookup_insert_eq.
  eexists. split; [done|]. split; [done|]. intros a Ha. unfold tracked in Ha; simpl in Ha.
  rewrite app_nil_r, Hwy, app_nil_r in Ha. destruct (Hp a Ha) as [Hn|]; [|done].
  simpl in Hn. by apply elem_of_nil in Hn.
Qed.

(** ** The sequences and their counts *)

(** Outside an iteration every tracked node was aborted once if the walk has been, and never
    otherwise; and forced if the forcing walk has been, and never otherwise. *)
Definition reached (R : reactor astate) (a : addr) : Prop :=
  ∃ ca cf, calls R !! a = Some (ca, cf) ∧ ca = bit (walked_ R) ∧
    (if forced_ R then 1 ≤ cf else cf = 0).
Definition covered (R : reactor astate) : Prop :=
  walked_ R = aborting_ R ∧
  ∃ x, alists (mem R) !! me = Some x ∧ work x = [] ∧ ∀ a, a ∈ tracked x → reached R a.

Lemma rep_length s A x :
  rep s A → alists A !! me = Some x → (length (tracked x) ≤ size (live A))%nat ∧ NoDup (tracked x).
Proof.
  intros Hr Hx. destruct (rep_lookup s A me x Hr Hx) as (al & _ & _ & _ & Hnd & Hs).
  split; [|done]. rewrite <-(size_list_to_set (C := gset addr)) by done.
  apply subseteq_size. intros a Ha%elem_of_list_to_set. rewrite <-(rep_live s A Hr).
  destruct (seg_lookup _ _ _ _ _ _ Hs Ha) as (n & Hn & _). by eapply elem_of_dom_2.
Qed.

Lemma each_vis_NoDup s A script A' vis x :
  rep s A → alists A !! me = Some x →
  a_each (size (live A)) me (λ a, a_ops (op_of <$> script a)) A = Done (A', vis) →
  NoDup vis ∧ vis ⊆ tracked x.
Proof.
  intros Hr Hx HA. destruct (rep_length s A x Hr Hx) as [Hlen Hnd].
  pose proof (a_each_visits (size (live A)) me (λ a, op_of <$> script a) A x Hx Hlen) as Hv.
  cbv beta in Hv. rewrite HA in Hv. subst vis.
  pose proof (visits_sublist (size (live A)) (λ a, removed me (op_of <$> script a)) (tracked x)) as Hs.
  split; [by eapply sublist_NoDup|]. intros a. by apply sublist_subseteq.
Qed.

Lemma count_fold f (c : gmap addr (Z * Z)) vis a :
  NoDup vis → foldr (λ b, alter f b) c vis !! a = if decide (a ∈ vis) then f <$> c !! a else c !! a.
Proof.
  induction vis as [|b vis IH]; intros Hnd; [by rewrite decide_False by apply not_elem_of_nil|].
  apply NoDup_cons in Hnd as [Hb Hnd]. simpl. destruct (decide (a = b)) as [->|Hne].
  - rewrite lookup_alter_eq, IH, decide_False, decide_True by (done || set_solver). done.
  - rewrite lookup_alter_ne, IH by done. destruct (decide (a ∈ vis)).
    + by rewrite decide_True by set_solver.
    + by rewrite decide_False by set_solver.
Qed.

(** ** The heap follows the sequences *)

Definition sim (r : reactor state) (R : reactor astate) : Prop :=
  ∃ m, r = mkReactor m (aborting_ R) (walked_ R) (forced_ R) (calls R) ∧ rep m (mem R).

Lemma invoke_refines script a : refines (invoke script a) (invoke script a).
Proof.
  intros s A A' Hr HA. unfold invoke in *. simpl in *. case_bool_decide as Ha; [|done].
  rewrite <-(rep_live s A Hr), elem_of_dom in Ha. rewrite bool_decide_true by done.
  by apply (run_ops_refines (op_of <$> script a) s A).
Qed.

Lemma walk_refines script s A A' vis :
  rep s A → m_each me script A = Done (A', vis) →
  ∃ s', m_each me script s = Done (s', vis) ∧ rep s' A'.
Proof.
  intros Hr HA. simpl in *. rewrite <-(rep_live s A Hr), size_dom in HA.
  eapply each_rep; [|done|done]. intros a. apply run_ops_refines.
Qed.

Lemma invoke_shrinks script a A A' x :
  invoke script a A = Done A' → alists A !! me = Some x → work x = [] →
  ∃ x', alists A' !! me = Some x' ∧ work x' = [] ∧ tracked x' ⊆ tracked x.
Proof.
  unfold invoke; simpl. case_bool_decide; [|done]. intros HA Hx Hw.
  destruct (effects_shrink _ _ _ x HA Hx) as (x' & Hx' & Hp & Hwk). exists x'.
  assert (Hw' : work x' = []).
  { destruct (work x') as [|b l]; [done|]. rewrite Hw in Hwk.
    exfalso. apply (not_elem_of_nil b), Hwk. by left. }
  split_and!; [done|done|]. unfold tracked. by rewrite Hw, Hw', !app_nil_r.
Qed.

Section proofs.
Context (on_abort on_force : addr → list effect).

Lemma abort_sim a r R R' :
  sim r R → abort on_abort a R = Done R' → ∃ r', abort on_abort a r = Done r' ∧ sim r' R'.
Proof.
  intros (m & -> & Hr) HR. unfold abort in *. destruct (invoke _ a (mem R)) as [m'| |] eqn:Hi; try done.
  destruct (invoke_refines _ _ _ _ _ Hr Hi) as (s' & Hs' & Hr'). simpl in *. rewrite Hs'.
  simplify_eq/=. eexists. split; [done|]. by exists s'.
Qed.

Lemma force_sim a r R R' :
  sim r R → force on_force a R = Done R' → ∃ r', force on_force a r = Done r' ∧ sim r' R'.
Proof.
  intros (m & -> & Hr) HR. unfold force in *. destruct (invoke _ a (mem R)) as [m'| |] eqn:Hi; try done.
  destruct (invoke_refines _ _ _ _ _ Hr Hi) as (s' & Hs' & Hr'). simpl in *. rewrite Hs'.
  simplify_eq/=. eexists. split; [done|]. by exists s'.
Qed.

Lemma client_sim o r R R' :
  sim r R → client o R = Done R' → ∃ r', client o r = Done r' ∧ sim r' R'.
Proof.
  intros (m & -> & Hr) HR. unfold client in *. simpl in *.
  change (run_op m o) with (run_op m o). destruct (a_op o (mem R)) as [A'| |] eqn:Ho; try done.
  destruct (run_op_refines o m _ _ Hr Ho) as (s' & Hs' & Hr'). cbv beta in Hs'. rewrite Hs'.
  simplify_eq/=. eexists. split; [done|]. by exists s'.
Qed.

(** Every request does on the heap what it does on sequences. *)
Lemma serve_sim q r R R' :
  sim r R → serve on_abort on_force q R = Done R' →
  ∃ r', serve on_abort on_force q r = Done r' ∧ sim r' R'.
Proof.
  intros Hs HR. destruct q as [a|e| |]; simpl in *.
  - unfold track in *. destruct Hs as (m & -> & Hr).
    destruct (m_ops [Add me a] (mem R)) as [A1| |] eqn:H1; try done.
    destruct (run_ops_refines [Add me a] m _ _ Hr H1) as (s1 & Hs1 & Hr1).
    cbn [mem m_ops heap_memory]. rewrite Hs1. cbn [obind walked_ forced_] in *.
    set (R1 := mkReactor A1 _ _ _ _) in *. set (r1 := mkReactor s1 _ _ _ _).
    assert (Hsim : sim r1 R1) by (by exists s1). clearbody r1.
    destruct (if walked_ R then abort on_abort a R1 else Done R1) as [R2| |] eqn:H2; try done.
    assert (Hr2 : ∃ r2, (if walked_ R then abort on_abort a r1 else Done r1) = Done r2 ∧ sim r2 R2).
    { destruct (walked_ R); [by apply (abort_sim a r1 R1)|]. simplify_eq. eauto. }
    destruct Hr2 as (r2 & Hr2e & Hsim2). simpl. rewrite Hr2e. cbn [obind] in *.
    destruct Hsim2 as (m2 & -> & Hm2). cbn [forced_].
    destruct (forced_ R2) eqn:Hf2.
    + apply (force_sim a _ R2); [exists m2; by rewrite Hf2|done].
    + injection HR as <-. eexists. split; [reflexivity|]. exists m2. by rewrite Hf2.
  - by destruct e; apply (client_sim _ r R).
  - unfold abort_all in *. destruct Hs as (m & -> & Hr). cbn [aborting_ mem].
    destruct (aborting_ R) eqn:Ha.
    { injection HR as <-. eexists. split; [reflexivity|]. exists m. by rewrite Ha. }
    destruct (m_each me _ (mem R)) as [[A' vis]| |] eqn:HA; try done.
    destruct (walk_refines _ _ _ _ _ Hr HA) as (s' & -> & Hr'). cbn [obind] in *. simplify_eq.
    eexists. split; [done|]. by exists s'.
  - unfold force_all in *. destruct Hs as (m & -> & Hr). cbn [mem].
    destruct (m_each me _ (mem R)) as [[A' vis]| |] eqn:HA; try done.
    destruct (walk_refines _ _ _ _ _ Hr HA) as (s' & -> & Hr'). cbn [obind] in *. simplify_eq.
    eexists. split; [done|]. by exists s'.
Qed.

(** ** Every request keeps the count *)

Lemma covered_shrinks R A' x x' :
  alists (mem R) !! me = Some x → (∀ a, a ∈ tracked x → reached R a) → walked_ R = aborting_ R →
  alists A' !! me = Some x' → work x' = [] → tracked x' ⊆ tracked x →
  covered (mkReactor A' (aborting_ R) (walked_ R) (forced_ R) (calls R)).
Proof.
  intros Hx Hc Hab Hx' Hw' Hsub. split; [done|]. exists x'. split_and!; try done.
  intros a Ha. by apply Hc, Hsub.
Qed.

Lemma client_covered e R R' : covered R → client (op_of e) R = Done R' → covered R'.
Proof.
  intros (Hab & x & Hx & Hw & Hc) HR. unfold client in HR. simpl in HR.
  destruct (a_op (op_of e) (mem R)) as [A'| |] eqn:Ho; try done. simplify_eq/=.
  destruct (effect_shrinks e _ _ x Ho Hx) as (x' & Hx' & Hp & Hwk).
  assert (Hw' : work x' = []).
  { rewrite Hw in Hwk. destruct (work x') as [|b l]; [done|].
    exfalso. apply (not_elem_of_nil b), Hwk. by left. }
  eapply covered_shrinks; try done. unfold tracked. by rewrite Hw, Hw', !app_nil_r.
Qed.

(** What a track has done to the sequence and to the counts. *)
Lemma track_inv a R R' x :
  alists (mem R) !! me = Some x → work x = [] → track on_abort on_force a R = Done R' →
  aborting_ R' = aborting_ R ∧ walked_ R' = walked_ R ∧ forced_ R' = forced_ R ∧
  calls R' = <[a := (bit (walked_ R), bit (forced_ R))]> (calls R) ∧
  ∃ x', alists (mem R') !! me = Some x' ∧ work x' = [] ∧ tracked x' ⊆ a :: tracked x.
Proof.
  intros Hx Hw HR. unfold track in HR. destruct (m_ops [Add me a] (mem R)) as [A1| |] eqn:H1; try done.
  assert (Hx1 : alists A1 !! me = Some (mkA (a :: passed x) [])).
  { simpl in H1. rewrite Hx in H1. destruct (decide _); simplify_eq/=.
    by rewrite lookup_insert_eq, Hw. }
  assert (Ht1 : tracked (mkA (a :: passed x) []) ⊆ a :: tracked x).
  { unfold tracked; simpl. by rewrite Hw. }
  cbn [obind walked_ forced_] in HR. unfold abort, force in HR.
  destruct (walked_ R) eqn:Hwk.
  - cbn [mem] in HR. destruct (invoke on_abort a A1) as [A2| |] eqn:H2; try done.
    destruct (invoke_shrinks _ _ _ _ _ H2 Hx1 eq_refl) as (x2 & Hx2 & Hw2 & Ht2).
    cbn [obind forced_] in HR. destruct (forced_ R) eqn:Hf.
    + cbn [mem] in HR. destruct (invoke on_force a A2) as [A3| |] eqn:H3; try done.
      destruct (invoke_shrinks _ _ _ _ _ H3 Hx2 Hw2) as (x3 & Hx3 & Hw3 & Ht3).
      simplify_eq/=. split_and!; try done; [|exists x3; split_and!; [done|done|set_solver]].
      unfold count_force, count_abort. by rewrite !alter_insert_eq.
    + simplify_eq/=. split_and!; try done; [|exists x2; split_and!; [done|done|set_solver]].
      unfold count_abort. by rewrite alter_insert_eq.
  - cbn [obind forced_] in HR. destruct (forced_ R) eqn:Hf.
    + cbn [mem] in HR. destruct (invoke on_force a A1) as [A3| |] eqn:H3; try done.
      destruct (invoke_shrinks _ _ _ _ _ H3 Hx1 eq_refl) as (x3 & Hx3 & Hw3 & Ht3).
      simplify_eq/=. split_and!; try done; [|exists x3; split_and!; [done|done|set_solver]].
      unfold count_force. by rewrite alter_insert_eq.
    + simplify_eq/=. split_and!; try done. exists (mkA (a :: passed x) []). done.
Qed.

Lemma track_covered a R R' : covered R → track on_abort on_force a R = Done R' → covered R'.
Proof.
  intros (Hab & x & Hx & Hw & Hc) HR.
  destruct (track_inv a R R' x Hx Hw HR) as (H1 & H2 & H3 & H4 & x' & Hx' & Hw' & Ht).
  split; [congruence|]. exists x'. split_and!; try done. intros b Hb. unfold reached.
  rewrite H2, H3, H4. destruct (decide (b = a)) as [->|Hne].
  - rewrite lookup_insert_eq. do 2 eexists. split_and!; [done|done|]. by destruct (forced_ R).
  - rewrite lookup_insert_ne by done. apply Hc. specialize (Ht b Hb).
    by apply elem_of_cons in Ht as [|].
Qed.

(** A walk reaches what it leaves on the list, once. *)
Lemma walk_covered s script f R A' vis x :
  rep s (mem R) → alists (mem R) !! me = Some x → work x = [] →
  m_each me (λ a, op_of <$> script a) (mem R) = Done (A', vis) →
  (∀ a, a ∈ tracked x → reached R a) →
  ∃ x', alists A' !! me = Some x' ∧ work x' = [] ∧
    ∀ a, a ∈ tracked x' → reached R a ∧ foldr (λ b, alter f b) (calls R) vis !! a = f <$> calls R !! a.
Proof.
  intros Hr Hx Hw HA Hc. simpl in HA.
  destruct (each_covers _ _ _ _ _ x HA Hx Hw) as (x' & Hx' & Hw' & Hv).
  destruct (each_vis_NoDup s _ _ _ _ x Hr Hx HA) as [Hnd Hsub].
  exists x'. split_and!; try done. intros a Ha%Hv. split; [by apply Hc, Hsub|].
  by rewrite count_fold, decide_True by done.
Qed.

Lemma serve_covered q s R R' :
  rep s (mem R) → covered R → serve on_abort on_force q R = Done R' → covered R'.
Proof.
  intros Hr Hcov HR. destruct q as [a|e| |]; simpl in HR.
  - by apply (track_covered a R).
  - apply (client_covered e R); [done|]. by destruct e.
  - unfold abort_all in HR. destruct (aborting_ R) eqn:Ha; [by simplify_eq|].
    destruct Hcov as (Hab & x & Hx & Hw & Hc).
    destruct (m_each me _ (mem R)) as [[A' vis]| |] eqn:HA; try done. cbn [obind fst snd] in HR.
    destruct (walk_covered s on_abort (λ p, (p.1 + 1, p.2)) R A' vis x) as (x' & Hx' & Hw' & Hv); try done.
    simplify_eq. split; [done|]. exists x'. split_and!; try done. intros a Hin.
    destruct (Hv a Hin) as [(ca & cf & Hca & -> & Hcf) Hf]. unfold reached. simpl.
    change (foldr count_abort (calls R) vis !! a = (λ p, (p.1 + 1, p.2)) <$> calls R !! a) in Hf.
    rewrite Hf, Hca. do 2 eexists. split_and!; [reflexivity| |done].
    rewrite Hab, Ha. done.
  - unfold force_all in HR. destruct Hcov as (Hab & x & Hx & Hw & Hc).
    destruct (m_each me _ (mem R)) as [[A' vis]| |] eqn:HA; try done. cbn [obind fst snd] in HR.
    destruct (walk_covered s on_force (λ p, (p.1, p.2 + 1)) R A' vis x) as (x' & Hx' & Hw' & Hv); try done.
    simplify_eq. split; [done|]. exists x'. split_and!; try done. intros a Hin.
    destruct (Hv a Hin) as [(ca & cf & Hca & -> & Hcf) Hf]. unfold reached. simpl.
    change (foldr count_force (calls R) vis !! a = (λ p, (p.1, p.2 + 1)) <$> calls R !! a) in Hf.
    rewrite Hf, Hca. do 2 eexists. split_and!; [reflexivity|done|].
    simpl. destruct (forced_ R); lia.
Qed.

Lemma serve_all_ok qs r R R' :
  sim r R → covered R → serve_all on_abort on_force qs R = Done R' →
  ∃ r', serve_all on_abort on_force qs r = Done r' ∧ sim r' R' ∧ covered R'.
Proof.
  revert r R. induction qs as [|q qs IH]; intros r R Hs Hc HR; simpl in *.
  { simplify_eq. eauto. }
  destruct (serve on_abort on_force q R) as [R1| |] eqn:Hq; try done.
  destruct (serve_sim q r R R1 Hs Hq) as (r1 & -> & Hs1). cbn [obind].
  destruct Hs as (m & _ & Hm). apply (IH r1 R1); [done| |done]. by apply (serve_covered q m R).
Qed.
End proofs.

(** ** Theorems *)

(** C6: clients that follow the rules on sequences (track live untracked nodes, touch only live
    ones) never make the pointer code follow a bad pointer, whatever the [abort()] and
    [force()] of the nodes untrack, destroy and create; and shutdown reaches everything: each
    node on the list has had [abort()] exactly once since it was tracked if [abort_all] has
    run, also one tracked later, and never otherwise, however often [abort_all] is called;
    and it has had [force()] if [force_all] has run, and never otherwise. *)
Theorem shutdown_reaches_tracked on_abort on_force qs R :
  serve_all on_abort on_force qs (fresh a_start) = Done R →
  ∃ r x, serve_all on_abort on_force qs (fresh start) = Done r ∧ rep (mem r) (mem R) ∧
    alists (mem R) !! me = Some x ∧
    ∀ a, a ∈ tracked x → ∃ aborts forces, calls r !! a = Some (aborts, forces) ∧
      aborts = bit (aborting_ r) ∧ (if forced_ r then 1 ≤ forces else forces = 0).
Proof.
  intros HR. destruct (serve_all_ok on_abort on_force qs (fresh start) (fresh a_start) R)
    as (r & Hr & (m & -> & Hm) & Hab & x & Hx & Hw & Hc); try done.
  - exists start. split; [done|]. apply start_rep.
  - split; [done|]. exists (mkA [] []). split_and!; [done|done|]. intros a Ha. by apply elem_of_nil in Ha.
  - exists (mkReactor m (aborting_ R) (walked_ R) (forced_ R) (calls R)), x. split_and!; try done.
    intros a Ha. destruct (Hc a Ha) as (ca & cf & H1 & H2 & H3). exists ca, cf. simpl.
    rewrite <-Hab. done.
Qed.

(** Node 2's abort destroys node 1; node 4 comes after the walk. *)
Definition host : list request :=
  [RClient (Make 1); RClient (Make 2); RClient (Make 3); RTrack 1; RTrack 2; RTrack 3; RAbortAll;
   RAbortAll; RClient (Make 4); RTrack 4; RForceAll].
Definition breaks (a : addr) : list effect := if decide (a = 2%nat) then [Free 1%nat] else [].

Lemma shutdown_reaches_tracked_witness :
  ∃ R r, serve_all breaks (λ _, []) host (fresh a_start) = Done R ∧
    serve_all breaks (λ _, []) host (fresh start) = Done r ∧
    tracked <$> alists (mem R) !! me = Some [4; 3; 2]%nat ∧ calls r !! 4%nat = Some (1, 1).
Proof.
  eexists. edestruct (shutdown_reaches_tracked breaks (λ _, []) host) as (r & x & Hr & _);
    [vm_compute; reflexivity|].
  exists r. split; [vm_compute; reflexivity|]. split; [exact Hr|].
  split; [vm_compute; reflexivity|]. vm_compute in Hr. injection Hr as <-. vm_compute. reflexivity.
Defined.

End Track.
