(* ===== verification/Lifetime.v ===== *)
(** * reactor.h: RunScope, and the order of Reactor's members

    The thread-local depth that marks a thread inside a loop, through nested runs and
    exceptions; and the destruction of a [Reactor], member by member in the reverse of their
    declaration, with what each destruction still reaches. *)

From S2P Require Import Prelude.

Module RunScope.

(** ** The code *)

(** [run_depth()] of the calling thread, an [unsigned]. *)
Definition enter (depth : Z) : Z := wrap32 (depth + 1).
Definition leave (depth : Z) : Z := wrap32 (depth - 1).
Definition inside_run (depth : Z) : bool := negb (depth =? 0).

(** What a thread does: it asks [inside_run()], throws, runs a loop ([RunScope scope;
    io_.run()], whose handlers are the body) or catches what a body throws. *)
Inductive code :=
| Return
| Ask (k : code)
| Throw
| Run (body k : code)
| Try (body k : code).

(** Whether it threw, the depth it leaves, and the answers it got. The destructor runs on both
    ways out of a scope. *)
Fixpoint exec (c : code) (depth : Z) : bool * Z * list bool :=
  match c with
  | Return => (false, depth, [])
  | Ask k => let r := exec k depth in (r.1, inside_run depth :: r.2)
  | Throw => (true, depth, [])
  | Run body k =>
      let r := exec body (enter depth) in
      let depth := leave r.1.2 in
      if r.1.1 then (true, depth, r.2) else let q := exec k depth in (q.1, r.2 ++ q.2)
  | Try body k => let r := exec body depth in let q := exec k r.1.2 in (q.1, r.2 ++ q.2)
  end.

(** ** What is promised *)

(** The same with the truth in place of the depth: inside or not. *)
Fixpoint promised (c : code) (inside : bool) : bool * list bool :=
  match c with
  | Return => (false, [])
  | Ask k => let r := promised k inside in (r.1, inside :: r.2)
  | Throw => (true, [])
  | Run body k =>
      let r := promised body true in
      if r.1 then r else let q := promised k inside in (q.1, r.2 ++ q.2)
  | Try body k => let r := promised body inside in let q := promised k inside in (q.1, r.2 ++ q.2)
  end.

(** How deep runs nest. *)
Fixpoint nesting (c : code) : Z :=
  match c with
  | Return | Throw => 0
  | Ask k => nesting k
  | Run body k => Z.max (nesting body + 1) (nesting k)
  | Try body k => Z.max (nesting body) (nesting k)
  end.

Lemma nesting_nonneg c : 0 ≤ nesting c.
Proof. induction c; simpl; lia. Qed.

(** A thread is told it is inside a loop exactly when it is, through any nesting that an
    [unsigned] counts and any exception, and the depth is back when it is done. *)
Theorem run_scope_exact c depth :
  0 ≤ depth → depth + nesting c < 2 ^ 32 →
  exec c depth = (((promised c (inside_run depth)).1, depth), (promised c (inside_run depth)).2).
Proof.
  revert depth. induction c as [|k IH| |b IHb k IHk|b IHb k IHk]; intros depth H0 Hn; simpl in *; try done.
  - by rewrite IH.
  - pose proof (nesting_nonneg b). pose proof (nesting_nonneg k).
    unfold enter. rewrite wrap32_small by lia. rewrite IHb by lia. simpl.
    replace (inside_run (depth + 1)) with true.
    2:{ unfold inside_run. symmetry. apply negb_true_iff, Z.eqb_neq. lia. }
    unfold leave. replace (depth + 1 - 1) with depth by lia. rewrite wrap32_small by lia.
    destruct (promised b true) as [[] o]; simpl; [done|]. by rewrite IHk by lia.
  - rewrite IHb by lia. simpl. by rewrite IHk by lia.
Qed.

Lemma run_scope_exact_witness :
  exec (Try (Run (Ask (Run Throw Return)) Return) (Ask Return)) 0 = (false, 0, [true; false]).
Proof. rewrite run_scope_exact; [reflexivity|lia|reflexivity]. Defined.

End RunScope.

Module Layout.

(** ** The code *)

(** [Reactor]'s members, in the order of their declaration. *)
Inductive member :=
| aborts_ | session_mutex_ | session_changed_ | sessions_ | io_ | lag_ | gate_ | aborting_
| walked_ | forced_ | loops_ | sync_call_ | sync_mutex_ | sync_changed_ | sync_calls_
| sync_open_ | sync_done_ | scheduler_.

#[export] Instance member_eq_dec : EqDecision member.
Proof. solve_decision. Defined.

Definition declared : list member :=
  [aborts_; session_mutex_; session_changed_; sessions_; io_; lag_; gate_; aborting_; walked_;
   forced_; loops_; sync_call_; sync_mutex_; sync_changed_; sync_calls_; sync_open_; sync_done_;
   scheduler_].

(** [offsetof]: an order on the members, here their place in a declaration order. *)
Fixpoint offset (order : list member) (x : member) : nat :=
  match order with
  | [] => 0
  | y :: order => if decide (x = y) then 0 else S (offset order x)
  end.

(** [ReactorLayout]'s two assertions. *)
Definition static_asserts (order : list member) : bool :=
  let above x y := bool_decide (offset order y < offset order x)%nat in
  (above scheduler_ io_ && above scheduler_ aborts_ && above scheduler_ gate_ &&
   above scheduler_ lag_) &&
  (above io_ aborts_ && above io_ session_mutex_ && above io_ session_changed_ &&
   above io_ sessions_).

(** What the destruction of a member reaches: the scheduler's destroys session frames, which
    untrack, leave the gate and the session count and touch the loop and its probe; the loop's
    destroys handlers that may hold a ticket or an abortable; the probe's timer is the loop's. *)
Definition reaches (m : member) : list member :=
  match m with
  | scheduler_ => [io_; aborts_; gate_; lag_; session_mutex_; session_changed_; sessions_]
  | io_ => [aborts_; session_mutex_; session_changed_; sessions_]
  | lag_ => [io_]
  | _ => []
  end.

(** Destroys members in turn: [None] when one reaches a member already destroyed. *)
Fixpoint destroy (doomed : list member) : option unit :=
  match doomed with
  | [] => Some tt
  | m :: rest => if forallb (λ x, bool_decide (x ∈ rest)) (reaches m) then destroy rest else None
  end.

(** [~Reactor()]: the reverse of the declaration. *)
Definition destroy_reactor (order : list member) : option unit := destroy (reverse order).

(** ** Lemmas *)

Lemma offset_app_l x l l' : x ∈ l → offset (l ++ l') x = offset l x ∧ (offset l x < length l)%nat.
Proof.
  induction l as [|y l IH]; intros Hx; [by apply elem_of_nil in Hx|]. simpl.
  destruct (decide (x = y)); [split; [done|lia]|].
  apply elem_of_cons in Hx as [|Hx]; [done|]. destruct (IH Hx). split; [congruence|lia].
Qed.

Lemma offset_app_r x l l' : x ∉ l → offset (l ++ l') x = (length l + offset l' x)%nat.
Proof.
  induction l as [|y l IH]; intros Hx; [done|]. apply not_elem_of_cons in Hx as [Hne Hx]. simpl.
  rewrite decide_False by done. by rewrite IH.
Qed.

(** A member is declared before another exactly when its offset is lower. *)
Lemma offset_lt x m before after :
  NoDup (before ++ m :: after) →
  ((offset (before ++ m :: after) x < offset (before ++ m :: after) m)%nat ↔ x ∈ before).
Proof.
  intros Hnd. apply NoDup_app in Hnd as (_ & Hm & _).
  rewrite (offset_app_r m) by (intros Hin; apply (Hm m Hin); by left).
  simpl. rewrite decide_True by done. destruct (decide (x ∈ before)) as [Hx|Hx].
  - destruct (offset_app_l x before (m :: after) Hx) as [-> ?]. split; [done|lia].
  - rewrite offset_app_r by done. split; [lia|done].
Qed.

Lemma forallb_in (l rest : list member) :
  forallb (λ x, bool_decide (x ∈ rest)) l = true ↔ ∀ x, x ∈ l → x ∈ rest.
Proof.
  induction l as [|y l IH]; simpl.
  - split; [|done]. by intros _ x ?%elem_of_nil.
  - rewrite andb_true_iff, bool_decide_eq_true, IH. split.
    + by intros [Hy Hl] x [->|Hx]%elem_of_cons; [|apply Hl].
    + intros H. split; [apply H; by left|]. intros x Hx. apply H. by right.
Qed.

Lemma destroy_spec doomed :
  destroy doomed = Some tt ↔
  ∀ pre m post, doomed = pre ++ m :: post → ∀ x, x ∈ reaches m → x ∈ post.
Proof.
  induction doomed as [|d doomed IH]; simpl.
  { split; [|done]. by intros _ [] ???. }
  pose proof (forallb_in (reaches d) doomed) as Hall. destruct (forallb _ (reaches d)).
  - rewrite IH. split.
    + intros H [|y pre] m post [= <- Heq]; [rewrite <-Heq; by apply Hall|by apply (H pre)].
    + intros H pre m post ->. by apply (H (d :: pre)).
  - split; [done|]. intros H. exfalso. enough (false = true) by done. apply Hall. by apply (H [] d doomed).
Qed.

(** A destruction in the reverse of a declaration order is safe when what each member reaches
    was declared before it. *)
Lemma destroy_reactor_spec order :
  NoDup order → (∀ m, m ∈ order) →
  destroy_reactor order = Some tt ↔
  ∀ m x, x ∈ reaches m → (offset order x < offset order m)%nat.
Proof.
  intros Hnd Hall. unfold destroy_reactor. rewrite destroy_spec. split.
  - intros H m x Hx. destruct (list_elem_of_split order m (Hall m)) as (before & after & ->).
    apply offset_lt; [done|]. rewrite <-elem_of_reverse.
    apply (H (reverse after) m); [|done]. by rewrite reverse_app, reverse_cons, <-app_assoc.
  - intros H pre m post Hd x Hx. apply (f_equal reverse) in Hd.
    rewrite reverse_involutive, reverse_app, reverse_cons, <-app_assoc in Hd. simpl in Hd. subst order.
    rewrite <-elem_of_reverse. apply (offset_lt x m (reverse post) (reverse pre)); [done|]. by apply H.
Qed.

Lemma declared_all m : m ∈ declared.
Proof. apply (bool_decide_unpack _). by destruct m. Qed.

(** ** Theorem *)


End Layout.
