(* ===== verification/LoopSync.v ===== *)
(** * reactor.h: Reactor::on_loop_sync, claim_loop, release_loop

    Running a call on the loop from another thread: the caller posts it and waits, and takes
    it back when the last loop thread leaves first. Any number of callers, posted handlers and
    loop threads, interleaved at every lock section, atomic access and notification. *)

From S2P Require Import Prelude.

Module LoopSync.

(** ** The code *)

(** Where a thread calling [on_loop_sync(f)] is. [id] is the call's number. *)
Inductive cpc :=
| Entry (on_loop : bool)          (* before the test of [loops_] and [on_loop()] *)
| RunInline (on_loop : bool)      (* [f(); return;] *)
| LockCall                        (* locking [sync_call_] *)
| TakeId                          (* [id = ++sync_calls_] *)
| Open (id : Z)                   (* [sync_open_ = id] *)
| Post (id : Z)                   (* [asio::post] *)
| Test (id : Z)                   (* under [sync_mutex_], evaluating the wait's predicate *)
| Asleep (id : Z) (notified : bool)
| RunTaken                        (* took the call back: [f()] *)
| UnlockCall                      (* leaving, [sync_call_] still held *)
| Returned.

(** A caller, and how many times its [f] ran. *)
Record caller := mkCaller { pc : cpc; ran : Z }.

(** Where a loop thread is in a posted handler. *)
Inductive stage :=
| Start                           (* under [sync_mutex_], taking the call *)
| Call                            (* [f()] *)
| Finish.                         (* under [sync_mutex_], reporting it done *)

(** A claimed loop thread: in [run()], in the handler of a caller's call, out of [run()] with
    the claim released and the notification still to come, or gone. *)
Inductive rpc :=
| Looping
| Handling (c : nat) (id : Z) (st : stage)
| Notify
| Gone.

Record state := mkState {
  loops_ : Z;
  sync_calls_ : Z;
  sync_open_ : Z;
  sync_done_ : Z;
  sync_call_ : option nat;        (* the caller holding the mutex *)
  queue : list (nat * Z);         (* the handlers posted and not yet run *)
  callers : list caller;
  runners : list rpc;
  ids : Z }.                      (* how many calls took a number *)

(** What steps: a new call, a caller, a spurious wakeup, a new claim, a loop thread starting
    the handler at a queue position, a loop thread inside a handler or its release, a loop
    thread leaving [run()]. *)
Inductive label :=
| NewCall (on_loop : bool)
| Caller (i : nat)
| Spurious (i : nat)
| Claim
| Dispatch (r k : nat)
| Runner (r : nat)
| Leave (r : nat).

Definition set_caller (s : state) (i : nat) (c : caller) : state :=
  mkState (loops_ s) (sync_calls_ s) (sync_open_ s) (sync_done_ s) (sync_call_ s) (queue s)
    (<[i := c]> (callers s)) (runners s) (ids s).
Definition set_runner (s : state) (r : nat) (p : rpc) : state :=
  mkState (loops_ s) (sync_calls_ s) (sync_open_ s) (sync_done_ s) (sync_call_ s) (queue s)
    (callers s) (<[r := p]> (runners s)) (ids s).
Definition set_loops (s : state) (n : Z) : state :=
  mkState n (sync_calls_ s) (sync_open_ s) (sync_done_ s) (sync_call_ s) (queue s)
    (callers s) (runners s) (ids s).
Definition set_open (s : state) (id : Z) : state :=
  mkState (loops_ s) (sync_calls_ s) id (sync_done_ s) (sync_call_ s) (queue s)
    (callers s) (runners s) (ids s).
Definition set_done (s : state) (id : Z) : state :=
  mkState (loops_ s) (sync_calls_ s) (sync_open_ s) id (sync_call_ s) (queue s)
    (callers s) (runners s) (ids s).
Definition set_lock (s : state) (h : option nat) : state :=
  mkState (loops_ s) (sync_calls_ s) (sync_open_ s) (sync_done_ s) h (queue s)
    (callers s) (runners s) (ids s).
Definition set_queue (s : state) (q : list (nat * Z)) : state :=
  mkState (loops_ s) (sync_calls_ s) (sync_open_ s) (sync_done_ s) (sync_call_ s) q
    (callers s) (runners s) (ids s).

(** [claim_loop]. *)
Definition claim_loop (s : state) : state :=
  mkState (wrap_i32 (loops_ s + 1)) (sync_calls_ s) (sync_open_ s) (sync_done_ s)
    (sync_call_ s) (queue s) (callers s) (runners s ++ [Looping]) (ids s).

(** [release_loop]'s locked part. *)
Definition release_loop (s : state) : state := set_loops s (wrap_i32 (loops_ s - 1)).

(** [sync_changed_.notify_all()]. *)
Definition wake (c : caller) : caller :=
  match pc c with Asleep id _ => mkCaller (Asleep id true) (ran c) | _ => c end.
Definition notify_all (s : state) : state :=
  mkState (loops_ s) (sync_calls_ s) (sync_open_ s) (sync_done_ s) (sync_call_ s) (queue s)
    (wake <$> callers s) (runners s) (ids s).

(** The number of the next call, [++sync_calls_]. *)
Definition next_id (s : state) : Z := wrap64 (sync_calls_ s + 1).
Definition take_id (s : state) : state :=
  mkState (loops_ s) (next_id s) (sync_open_ s) (sync_done_ s) (sync_call_ s) (queue s)
    (callers s) (runners s) (ids s + 1).

(** The wait's predicate. *)
Definition ready (s : state) (id : Z) : bool :=
  (sync_done_ s =? id) || ((sync_open_ s =? id) && (loops_ s =? 0)).

(** [f()] on behalf of caller [c]. *)
Definition run_f (s : state) (c : nat) : state :=
  match callers s !! c with
  | Some x => set_caller s c (mkCaller (pc x) (ran x + 1))
  | None => s
  end.

(** One step of a caller of [on_loop_sync]. *)
Definition caller_step (s : state) (i : nat) (x : caller) : option state :=
  let go p := set_caller s i (mkCaller p (ran x)) in
  match pc x with
  | Entry on_loop =>
      if (loops_ s =? 0) || on_loop then Some (go (RunInline on_loop)) else Some (go LockCall)
  | RunInline _ => Some (set_caller s i (mkCaller Returned (ran x + 1)))
  | LockCall =>
      match sync_call_ s with
      | None => Some (set_lock (go TakeId) (Some i))
      | Some _ => None
      end
  | TakeId => Some (take_id (go (Open (next_id s))))
  | Open id => Some (set_open (go (Post id)) id)
  | Post id => Some (set_queue (go (Test id)) (queue s ++ [(i, id)]))
  | Test id =>
      if ready s id then
        if sync_done_ s =? id then Some (go UnlockCall)
        else Some (set_open (go RunTaken) 0)
      else Some (go (Asleep id false))
  | Asleep id true => Some (go (Test id))
  | Asleep id false => None
  | RunTaken => Some (set_caller s i (mkCaller UnlockCall (ran x + 1)))
  | UnlockCall => Some (set_lock (go Returned) None)
  | Returned => None
  end.

(** One step of a loop thread inside the posted handler, or leaving. *)
Definition runner_step (s : state) (r : nat) (p : rpc) : option state :=
  match p with
  | Handling c id Start =>
      if sync_open_ s =? id
      then Some (set_open (set_runner s r (Handling c id Call)) 0)
      else Some (set_runner s r Looping)
  | Handling c id Call => Some (run_f (set_runner s r (Handling c id Finish)) c)
  | Handling c id Finish => Some (notify_all (set_done (set_runner s r Looping) id))
  | Notify => Some (notify_all (set_runner s r Gone))
  | Looping | Gone => None
  end.

Definition step (s : state) (l : label) : option state :=
  match l with
  | NewCall on_loop =>
      Some (mkState (loops_ s) (sync_calls_ s) (sync_open_ s) (sync_done_ s) (sync_call_ s)
              (queue s) (callers s ++ [mkCaller (Entry on_loop) 0]) (runners s) (ids s))
  | Caller i => x ← callers s !! i; caller_step s i x
  | Spurious i =>
      x ← callers s !! i;
      match pc x with
      | Asleep id false => Some (set_caller s i (mkCaller (Test id) (ran x)))
      | _ => None
      end
  | Claim => Some (claim_loop s)
  | Dispatch r k =>
      p ← runners s !! r; h ← queue s !! k;
      match p with
      | Looping => Some (set_queue (set_runner s r (Handling h.1 h.2 Start)) (delete k (queue s)))
      | _ => None
      end
  | Runner r => p ← runners s !! r; runner_step s r p
  | Leave r =>
      p ← runners s !! r;
      match p with
      | Looping => Some (release_loop (set_runner s r Notify))
      | _ => None
      end
  end.

(** A fresh reactor: no call, no thread. *)
Definition initial : state := mkState 0 0 0 0 None [] [] [] 0.

(** The steps of the threads themselves: everything but a new call, a new claim and a
    spurious wakeup. *)
Definition internal (l : label) : bool :=
  match l with Caller _ | Dispatch _ _ | Runner _ | Leave _ => true | _ => false end.

(** ** The invariant *)

(** Loop threads whose claim is not released. *)
Definition claims (p : rpc) : Z :=
  match p with Looping | Handling _ _ _ => 1 | Notify | Gone => 0 end.
Definition calling (p : rpc) : Z := match p with Handling _ _ Call => 1 | _ => 0 end.
Definition finishing (p : rpc) : Z := match p with Handling _ _ Finish => 1 | _ => 0 end.
Definition notifying (p : rpc) : Z := match p with Notify => 1 | _ => 0 end.
(** Handlers of call [id] not yet past their test; those of the latest call. *)
Definition starting (id : Z) (p : rpc) : Z :=
  match p with Handling _ id' Start => bit (id' =? id) | _ => 0 end.
Definition queued (id : Z) (h : nat * Z) : Z := bit (h.2 =? id).
Definition pending (s : state) : Z :=
  total (queued (ids s)) (queue s) + total (starting (ids s)) (runners s).

(** The caller is past [LockCall] and holds [sync_call_]. *)
Definition holding (p : cpc) : bool :=
  match p with
  | TakeId | Open _ | Post _ | Test _ | Asleep _ _ | RunTaken | UnlockCall => true
  | _ => false
  end.

(** No handler runs or reports a call. *)
Definition quiet (s : state) : Prop :=
  sync_open_ s = 0 ∧ total calling (runners s) = 0 ∧ total finishing (runners s) = 0.

(** A call that waits: posted and untaken, running on the loop, run and to be reported, or
    done. [n] is how many times its [f] ran. *)
Definition waiting (s : state) (n : Z) : Prop :=
  let nc := total calling (runners s) in
  let nf := total finishing (runners s) in
  1 ≤ ids s ∧
  (sync_open_ s = ids s ∧ n = 0 ∧ sync_done_ s < ids s ∧ nc = 0 ∧ nf = 0 ∧ 1 ≤ pending s
   ∨ sync_open_ s = 0 ∧ n = 0 ∧ sync_done_ s < ids s ∧ nc = 1 ∧ nf = 0
   ∨ sync_open_ s = 0 ∧ n = 1 ∧ sync_done_ s < ids s ∧ nc = 0 ∧ nf = 1
   ∨ sync_open_ s = 0 ∧ n = 1 ∧ sync_done_ s = ids s ∧ nc = 0 ∧ nf = 0).

(** The caller that holds [sync_call_]. *)
Definition holder_ok (s : state) (x : caller) : Prop :=
  match pc x with
  | TakeId => ran x = 0 ∧ quiet s ∧ sync_done_ s ≤ ids s
  | Open id =>
      ran x = 0 ∧ quiet s ∧ id = ids s ∧ 1 ≤ id ∧ sync_done_ s < id ∧ pending s = 0
  | Post id =>
      ran x = 0 ∧ sync_open_ s = id ∧ id = ids s ∧ 1 ≤ id ∧ sync_done_ s < id ∧ pending s = 0 ∧
      total calling (runners s) = 0 ∧ total finishing (runners s) = 0
  | Test id => id = ids s ∧ waiting s (ran x)
  | Asleep id notified =>
      id = ids s ∧ waiting s (ran x) ∧
      (notified = false → sync_done_ s ≠ id ∧
         (sync_open_ s = id → loops_ s = 0 → 1 ≤ total notifying (runners s)))
  | RunTaken => ran x = 0 ∧ quiet s ∧ sync_done_ s ≤ ids s
  | UnlockCall => ran x = 1 ∧ quiet s ∧ sync_done_ s ≤ ids s
  | _ => False
  end.

(** A caller that does not. *)
Definition other_ok (x : caller) : Prop :=
  match pc x with
  | Entry _ | RunInline _ | LockCall => ran x = 0
  | Returned => ran x = 1
  | _ => False
  end.

(** A posted handler: its number was given out, and if it is the open call's, its caller
    holds [sync_call_]. *)
Definition handler_ok (s : state) (c : nat) (id : Z) : Prop :=
  1 ≤ id ≤ ids s ∧ (id = sync_open_ s → sync_call_ s = Some c).

Definition runner_ok (s : state) (p : rpc) : Prop :=
  match p with
  | Handling c id Start => handler_ok s c id
  | Handling c id _ => id = ids s ∧ sync_call_ s = Some c
  | _ => True
  end.

Record inv (s : state) : Prop := {
  inv_ids : 0 ≤ ids s ∧ sync_calls_ s = ids s;
  inv_loops : loops_ s = total claims (runners s);
  inv_free : sync_call_ s = None → quiet s ∧ sync_done_ s ≤ ids s;
  inv_holder : ∀ i, sync_call_ s = Some i → ∃ x, callers s !! i = Some x ∧ holder_ok s x;
  inv_others : ∀ i x, callers s !! i = Some x → sync_call_ s ≠ Some i → other_ok x;
  inv_queue : ∀ h, h ∈ queue s → handler_ok s h.1 h.2;
  inv_runners : ∀ p, p ∈ runners s → runner_ok s p }.

(** The numbers stay below 2^64 and the claims below 2^31. *)
Definition in_range (s : state) : Prop :=
  ids s < 2 ^ 64 ∧ Z.of_nat (length (runners s)) < 2 ^ 31.

(** ** Preservation *)

#[local] Ltac arith := unfold holder_ok, waiting, quiet, pending in *; simpl in *; lia.

Lemma calling_nonneg p : 0 ≤ calling p.
Proof. destruct p as [|? ? []| |]; simpl; lia. Qed.
Lemma finishing_nonneg p : 0 ≤ finishing p.
Proof. destruct p as [|? ? []| |]; simpl; lia. Qed.
Lemma notifying_nonneg p : 0 ≤ notifying p.
Proof. destruct p; simpl; lia. Qed.
Lemma starting_nonneg id p : 0 ≤ starting id p.
Proof. destruct p as [|? ? []| |]; simpl; auto with reactor; lia. Qed.
Lemma queued_nonneg id h : 0 ≤ queued id h.
Proof. apply bit_nonneg. Qed.
Lemma claims_bit p : 0 ≤ claims p ≤ 1.
Proof. destruct p; simpl; lia. Qed.
#[local] Hint Resolve calling_nonneg finishing_nonneg notifying_nonneg starting_nonneg
  queued_nonneg : reactor.

(** In a quiet state the handlers that run are at their test. *)
Lemma quiet_start s c id st :
  quiet s → Handling c id st ∈ runners s → st = Start.
Proof.
  intros (_ & Hc & Hf) Hp. destruct st; [done|exfalso..].
  - pose proof (total_0_inv calling _ calling_nonneg Hc _ Hp). done.
  - pose proof (total_0_inv finishing _ finishing_nonneg Hf _ Hp). done.
Qed.

(** No handler of the latest call exists before it is posted. *)
Lemma pending_zero s : pending s = 0 →
  (∀ h, h ∈ queue s → h.2 ≠ ids s) ∧ (∀ c id, Handling c id Start ∈ runners s → id ≠ ids s).
Proof.
  unfold pending. intros Hp.
  pose proof (total_nonneg (queued (ids s)) (queue s) (queued_nonneg _)).
  pose proof (total_nonneg (starting (ids s)) (runners s) (starting_nonneg _)).
  split; intros.
  - assert (Hq : total (queued (ids s)) (queue s) = 0) by lia.
    pose proof (total_0_inv _ _ (queued_nonneg _) Hq h H1) as Hh. unfold queued in Hh.
    destruct (h.2 =? ids s) eqn:?; simpl in Hh; reflect_bools; done.
  - assert (Hq : total (starting (ids s)) (runners s) = 0) by lia.
    pose proof (total_0_inv _ _ (starting_nonneg _) Hq _ H1) as Hh. simpl in Hh.
    destruct (id =? ids s) eqn:?; simpl in Hh; reflect_bools; done.
Qed.

(** The numbers given out so far are below the next one. *)
Lemma pending_fresh s : inv s → quiet s →
  total (queued (ids s + 1)) (queue s) = 0 ∧ total (starting (ids s + 1)) (runners s) = 0.
Proof.
  intros Hi Hq. split; apply total_zero.
  - intros h Hh. destruct (inv_queue s Hi h Hh) as [Hb _]. unfold queued.
    destruct (h.2 =? ids s + 1) eqn:?; reflect_bools; simpl; lia.
  - intros p Hp. pose proof (inv_runners s Hi p Hp) as Hok.
    destruct p as [|c id []| |]; simpl in *; try done. destruct Hok as [Hb _].
    destruct (id =? ids s + 1) eqn:?; reflect_bools; simpl; lia.
Qed.

(** A caller without the lock moves on without it. *)
Lemma inv_set_other s i x x' :
  inv s → callers s !! i = Some x → sync_call_ s ≠ Some i → other_ok x' →
  inv (set_caller s i x').
Proof.
  intros [H1 H2 H3 H4 H5 H6 H7] Hi Hl Ho. split; simpl; try done.
  - intros j Hj. destruct (H4 j Hj) as (y & Hy & Hok). exists y.
    rewrite list_lookup_insert_ne by congruence. done.
  - intros j y Hy Hj. destruct (decide (i = j)) as [<-|].
    + rewrite list_lookup_insert_eq in Hy by by eapply lookup_lt_Some. congruence.
    + rewrite list_lookup_insert_ne in Hy by done. eauto.
Qed.

(** The caller with the lock moves on with it; the call's state may change under it. *)
Lemma inv_set_holder s s' i x' :
  inv s → sync_call_ s = Some i → sync_call_ s' = Some i →
  callers s' = <[i := x']> (callers s) → runners s' = runners s → loops_ s' = loops_ s →
  0 ≤ ids s' → sync_calls_ s' = ids s' → holder_ok s' x' →
  (∀ h, h ∈ queue s' → handler_ok s' h.1 h.2) →
  (∀ p, p ∈ runners s → runner_ok s' p) → inv s'.
Proof.
  intros [H1 H2 H3 H4 H5 H6 H7] Hl Hl' Hc Hr Hlo Hid Hsc Hh Hq Hrr.
  destruct (H4 i Hl) as (x & Hx & _). apply lookup_lt_Some in Hx as Hlt.
  split; rewrite ?Hc, ?Hr, ?Hl'; try done.
  - by rewrite Hlo.
  - intros j [= <-]. exists x'. by rewrite list_lookup_insert_eq.
  - intros j y Hy Hj. rewrite list_lookup_insert_ne in Hy by congruence.
    apply (H5 j y Hy). congruence.
Qed.

(** Which of the two a caller is. *)
Lemma inv_caller_cases s i x :
  inv s → callers s !! i = Some x →
  sync_call_ s = Some i ∧ holder_ok s x ∨ sync_call_ s ≠ Some i ∧ other_ok x.
Proof.
  intros Hi Hx. destruct (decide (sync_call_ s = Some i)) as [Hl|Hl]; [left|right].
  - destruct (inv_holder s Hi i Hl) as (y & Hy & Hok). split; [done|congruence].
  - split; [done|]. by apply (inv_others s Hi i).
Qed.

Lemma inv_lock s i x :
  inv s → callers s !! i = Some x → pc x = LockCall → sync_call_ s = None →
  inv (set_lock (set_caller s i (mkCaller TakeId (ran x))) (Some i)).
Proof.
  intros Hinv Hx Hpc Hn. pose proof (inv_others s Hinv i x Hx) as Ho.
  rewrite Hn in Ho. specialize (Ho ltac:(done)). unfold other_ok in Ho. rewrite Hpc in Ho.
  destruct (inv_free s Hinv Hn) as [Hq Hd]. destruct Hinv as [H1 H2 H3 H4 H5 H6 H7].
  split; simpl; try done.
  - intros j [= <-]. exists (mkCaller TakeId (ran x)).
    rewrite list_lookup_insert_eq by by eapply lookup_lt_Some. split; [done|]. arith.
  - intros j y Hy Hj. rewrite list_lookup_insert_ne in Hy by congruence.
    apply (H5 j y Hy). by rewrite Hn.
  - intros h Hh. destruct (H6 h Hh) as [Hb _]. split; simpl; [done|].
    destruct Hq as (Hq & _). lia.
  - intros p Hp. pose proof (H7 p Hp) as Hok. destruct p as [|c id st| |]; try done.
    pose proof (quiet_start s c id st Hq Hp) as ->. destruct Hok as [Hb _]. split; simpl; [done|].
    destruct Hq as (Hq & _). lia.
Qed.

Lemma inv_take_id s i x :
  inv s → callers s !! i = Some x → pc x = TakeId → ids s + 1 < 2 ^ 64 →
  inv (take_id (set_caller s i (mkCaller (Open (next_id s)) (ran x)))).
Proof.
  intros Hinv Hx Hpc Hr.
  destruct (inv_caller_cases s i x Hinv Hx) as [[Hl Hok]|[_ Hok]];
    [|unfold other_ok in Hok; by rewrite Hpc in Hok].
  unfold holder_ok in Hok. rewrite Hpc in Hok. destruct Hok as (Hran & Hq & Hd).
  destruct (pending_fresh s Hinv Hq) as [Hp1 Hp2]. destruct (inv_ids s Hinv) as [Hpos Hc].
  assert (Hid : next_id s = ids s + 1) by (unfold next_id; rewrite Hc, wrap64_small; lia).
  eapply (inv_set_holder s _ i); try done; simpl; rewrite ?Hid; [lia|arith|..].
  - intros h Hh. destruct (inv_queue s Hinv h Hh). split; simpl; [lia|done].
  - intros p Hp. pose proof (inv_runners s Hinv p Hp) as Hok. destruct p as [|c id st| |]; try done.
    pose proof (quiet_start s c id st Hq Hp) as ->. destruct Hok. split; simpl; [lia|done].
Qed.

Lemma inv_open s i x id :
  inv s → callers s !! i = Some x → pc x = Open id →
  inv (set_open (set_caller s i (mkCaller (Post id) (ran x))) id).
Proof.
  intros Hinv Hx Hpc.
  destruct (inv_caller_cases s i x Hinv Hx) as [[Hl Hok]|[_ Hok]];
    [|unfold other_ok in Hok; by rewrite Hpc in Hok].
  unfold holder_ok in Hok. rewrite Hpc in Hok. destruct Hok as (Hran & Hq & -> & H1 & Hd & Hp).
  destruct (pending_zero s Hp) as [Hp1 Hp2]. destruct (inv_ids s Hinv) as [Hpos Hc].
  eapply (inv_set_holder s _ i); try done; simpl; [arith|..].
  - intros h Hh. destruct (inv_queue s Hinv h Hh). split; simpl; [lia|].
    intros He. by destruct (Hp1 h Hh).
  - intros p Hp'. pose proof (inv_runners s Hinv p Hp') as Hok. destruct p as [|c id st| |]; try done.
    pose proof (quiet_start s c id st Hq Hp') as ->. destruct Hok. split; simpl; [lia|].
    intros He. by destruct (Hp2 c id Hp').
Qed.

Lemma inv_post s i x id :
  inv s → callers s !! i = Some x → pc x = Post id →
  inv (set_queue (set_caller s i (mkCaller (Test id) (ran x))) (queue s ++ [(i, id)])).
Proof.
  intros Hinv Hx Hpc.
  destruct (inv_caller_cases s i x Hinv Hx) as [[Hl Hok]|[_ Hok]];
    [|unfold other_ok in Hok; by rewrite Hpc in Hok].
  unfold holder_ok in Hok. rewrite Hpc in Hok. destruct Hok as (Hran & Ho & -> & H1 & Hd & Hp & Hq).
  destruct (inv_ids s Hinv) as [Hpos Hc].
  eapply (inv_set_holder s _ i); try done; simpl.
  - split; [done|]. unfold waiting, pending in *; simpl. rewrite total_snoc.
    unfold queued at 2; simpl. rewrite Z.eqb_refl; simpl. lia.
  - intros h [Hh|Hh]%elem_of_app; [by apply (inv_queue s Hinv)|].
    apply list_elem_of_singleton in Hh as ->. split; simpl; [lia|done].
  - apply (inv_runners s Hinv).
Qed.

(** The wait: it ends with the call done, or takes it back, or sleeps. *)
Lemma inv_test s i x id :
  inv s → callers s !! i = Some x → pc x = Test id →
  inv (if ready s id then
         if sync_done_ s =? id then set_caller s i (mkCaller UnlockCall (ran x))
         else set_open (set_caller s i (mkCaller RunTaken (ran x))) 0
       else set_caller s i (mkCaller (Asleep id false) (ran x))).
Proof.
  intros Hinv Hx Hpc.
  destruct (inv_caller_cases s i x Hinv Hx) as [[Hl Hok]|[_ Hok]];
    [|unfold other_ok in Hok; by rewrite Hpc in Hok].
  unfold holder_ok in Hok. rewrite Hpc in Hok. destruct Hok as (-> & Hw).
  destruct (inv_ids s Hinv) as [Hpos Hc]. unfold ready.
  destruct (sync_done_ s =? ids s) eqn:Hd; simpl; reflect_bools.
  { apply (inv_set_holder s _ i (mkCaller UnlockCall (ran x))); try done; simpl; [arith|..].
    - apply (inv_queue s Hinv).
    - apply (inv_runners s Hinv). }
  destruct ((sync_open_ s =? ids s) && (loops_ s =? 0))%bool eqn:Ho; simpl.
  - reflect_bools.
    assert (Hq : total calling (runners s) = 0 ∧ total finishing (runners s) = 0) by arith.
    apply (inv_set_holder s _ i (mkCaller RunTaken (ran x))); try done; simpl; [arith|..].
    + intros h Hh. destruct (inv_queue s Hinv h Hh). split; simpl; [done|lia].
    + intros p Hp. pose proof (inv_runners s Hinv p Hp) as Hok.
      destruct p as [|c id []| |]; try done. destruct Hok. split; simpl; [done|lia].
  - apply (inv_set_holder s _ i (mkCaller (Asleep (ids s) false) (ran x))); try done; simpl.
    + split_and!; try done. intros _. split; [done|]. simpl. intros Ho' Hz. exfalso.
      rewrite Ho', Hz, Z.eqb_refl in Ho. done.
    + apply (inv_queue s Hinv).
    + apply (inv_runners s Hinv).
Qed.

Lemma inv_wake s i x id b :
  inv s → callers s !! i = Some x → pc x = Asleep id b →
  inv (set_caller s i (mkCaller (Test id) (ran x))).
Proof.
  intros Hinv Hx Hpc.
  destruct (inv_caller_cases s i x Hinv Hx) as [[Hl Hok]|[_ Hok]];
    [|unfold other_ok in Hok; by rewrite Hpc in Hok].
  unfold holder_ok in Hok. rewrite Hpc in Hok. destruct Hok as (-> & Hw & _).
  destruct (inv_ids s Hinv) as [Hpos Hc].
  apply (inv_set_holder s _ i (mkCaller (Test (ids s)) (ran x))); try done.
  - apply (inv_queue s Hinv).
  - apply (inv_runners s Hinv).
Qed.

Lemma inv_run_taken s i x :
  inv s → callers s !! i = Some x → pc x = RunTaken →
  inv (set_caller s i (mkCaller UnlockCall (ran x + 1))).
Proof.
  intros Hinv Hx Hpc.
  destruct (inv_caller_cases s i x Hinv Hx) as [[Hl Hok]|[_ Hok]];
    [|unfold other_ok in Hok; by rewrite Hpc in Hok].
  unfold holder_ok in Hok. rewrite Hpc in Hok. destruct (inv_ids s Hinv) as [Hpos Hc].
  apply (inv_set_holder s _ i (mkCaller UnlockCall (ran x + 1))); try done; [arith|..].
  - apply (inv_queue s Hinv).
  - apply (inv_runners s Hinv).
Qed.

Lemma inv_unlock s i x :
  inv s → callers s !! i = Some x → pc x = UnlockCall →
  inv (set_lock (set_caller s i (mkCaller Returned (ran x))) None).
Proof.
  intros Hinv Hx Hpc.
  destruct (inv_caller_cases s i x Hinv Hx) as [[Hl Hok]|[_ Hok]];
    [|unfold other_ok in Hok; by rewrite Hpc in Hok].
  unfold holder_ok in Hok. rewrite Hpc in Hok. destruct Hok as (Hran & Hq & Hd).
  destruct Hinv as [H1 H2 H3 H4 H5 H6 H7]. split; simpl; try done.
  - intros j y Hy _. destruct (decide (i = j)) as [<-|].
    + rewrite list_lookup_insert_eq in Hy by by eapply lookup_lt_Some. by simplify_eq.
    + rewrite list_lookup_insert_ne in Hy by done. apply (H5 j y Hy). congruence.
  - intros h Hh. destruct (H6 h Hh) as [Hb _]. split; simpl; [done|].
    destruct Hq as (Hq & _). lia.
  - intros p Hp. pose proof (H7 p Hp) as Hok. destruct p as [|c id st| |]; try done.
    pose proof (quiet_start s c id st Hq Hp) as ->. destruct Hok as [Hb _]. split; simpl; [done|].
    destruct Hq as (Hq & _). lia.
Qed.

Lemma inv_caller_step s i x s' :
  inv s → in_range s' → callers s !! i = Some x → caller_step s i x = Some s' → inv s'.
Proof.
  intros Hinv [Hr _] Hx Hst. unfold caller_step in Hst.
  destruct (pc x) eqn:Hpc.
  1,2: assert (Ho : sync_call_ s ≠ Some i ∧ other_ok x) by
    (destruct (inv_caller_cases s i x Hinv Hx) as [[_ Hok]|]; [|done];
     unfold holder_ok in Hok; by rewrite Hpc in Hok);
    destruct Ho as [Hl Ho]; unfold other_ok in Ho; rewrite Hpc in Ho.
  - case_match; injection Hst as <-; by apply (inv_set_other s i x).
  - injection Hst as <-. apply (inv_set_other s i x); try done. unfold other_ok; simpl. lia.
  - destruct (sync_call_ s) eqn:?; [done|]. injection Hst as <-. by apply inv_lock.
  - injection Hst as <-. by apply inv_take_id.
  - injection Hst as <-. by apply inv_open.
  - injection Hst as <-. by apply inv_post.
  - pose proof (inv_test s i x id Hinv Hx Hpc). repeat case_match; by injection Hst as <-.
  - destruct notified; [|done]. injection Hst as <-. by apply (inv_wake s i x id true).
  - injection Hst as <-. by apply inv_run_taken.
  - injection Hst as <-. by apply inv_unlock.
  - done.
Qed.

(** A loop thread moves: every caller's part has to survive it. *)
Lemma inv_runner_moves s s' (g : nat → caller → caller) :
  inv s → sync_call_ s' = sync_call_ s → ids s' = ids s → sync_calls_ s' = sync_calls_ s →
  (∀ i, callers s' !! i = g i <$> callers s !! i) →
  loops_ s' = total claims (runners s') →
  (quiet s → sync_call_ s = None → quiet s' ∧ sync_done_ s' = sync_done_ s) →
  (∀ i x, sync_call_ s = Some i → holder_ok s x → holder_ok s' (g i x)) →
  (∀ i x, sync_call_ s ≠ Some i → other_ok x → other_ok (g i x)) →
  (∀ h, h ∈ queue s' → handler_ok s' h.1 h.2) →
  (∀ p, p ∈ runners s' → runner_ok s' p) → inv s'.
Proof.
  intros [H1 H2 H3 H4 H5 H6 H7] Hl Hid Hsc Hcs Hlo Hfree Hh Ho Hq Hr.
  split; rewrite ?Hl, ?Hid, ?Hsc; try done.
  - intros Hn. destruct (H3 Hn) as [Hqu Hd]. destruct (Hfree Hqu Hn) as [? ->]. done.
  - intros i Hi. destruct (H4 i Hi) as (x & Hx & Hok). exists (g i x).
    rewrite Hcs, Hx. split; [done|]. by apply Hh.
  - intros i y Hy Hi. rewrite Hcs in Hy. destruct (callers s !! i) as [x|] eqn:Hx; [|done].
    simpl in Hy. simplify_eq. apply Ho; [done|]. by apply (H5 i x).
Qed.

Lemma lookup_id_fmap {A} (l : list A) (i : nat) : l !! i = (λ x, x) <$> l !! i.
Proof. by destruct (l !! i). Qed.

(** The counts after one loop thread moves from [p] to [p']. *)
#[local] Ltac runner_totals Hr p' :=
  lazymatch type of Hr with
  | runners ?s !! ?r = Some ?p =>
      pose proof (total_insert claims (runners s) r p p' Hr);
      pose proof (total_insert calling (runners s) r p p' Hr);
      pose proof (total_insert finishing (runners s) r p p' Hr);
      pose proof (total_insert notifying (runners s) r p p' Hr);
      pose proof (total_insert (starting (ids s)) (runners s) r p p' Hr);
      pose proof (total_ge calling (runners s) r p calling_nonneg Hr);
      pose proof (total_ge finishing (runners s) r p finishing_nonneg Hr);
      pose proof (total_ge (starting (ids s)) (runners s) r p (starting_nonneg _) Hr);
      pose proof (total_nonneg (queued (ids s)) (queue s) (queued_nonneg _));
      pose proof (list_elem_of_lookup_2 _ _ _ Hr)
  end.

(** Proves one of the four ways to wait. *)
#[local] Ltac pick_wait :=
  lazymatch goal with
  | |- _ ∨ _ => first [left; split_and!; lia | right; pick_wait]
  | |- _ => split_and?; lia
  end.

#[local] Ltac holder_cases x :=
  unfold holder_ok; destruct x as [px nx]; unfold wake; simpl;
  destruct px as [| | | | | | |? []| | |]; first [by intros []|idtac];
  unfold waiting, quiet, pending; simpl; intros;
  repeat match goal with
  | H : _ ∧ _ |- _ => destruct H
  | H : _ ∨ _ |- _ => destruct H
  end; split_and?; intros; pick_wait.

Lemma inv_claim s : inv s → in_range (claim_loop s) → inv (claim_loop s).
Proof.
  intros Hinv [_ Hr]. simpl in Hr. rewrite length_app in Hr; simpl in Hr.
  pose proof (total_le_length claims (runners s) (λ p, proj2 (claims_bit p))).
  pose proof (total_nonneg claims (runners s) (λ p, proj1 (claims_bit p))).
  pose proof (inv_loops s Hinv) as Hlo.
  apply (inv_runner_moves s _ (λ _ x, x)); simpl; try done.
  - intros i. apply lookup_id_fmap.
  - rewrite total_snoc; simpl. rewrite Hlo, wrap_i32_small; lia.
  - unfold quiet; simpl. rewrite !total_snoc; simpl. lia.
  - intros i x _. unfold holder_ok, waiting, quiet, pending; simpl. rewrite !total_snoc.
    rewrite Hlo, wrap_i32_small by lia. holder_cases x.
  - apply (inv_queue s Hinv).
  - intros p [Hp| ->%list_elem_of_singleton]%elem_of_app; [|done].
    by apply (inv_runners s Hinv).
Qed.

Lemma inv_dispatch s r k c id :
  inv s → runners s !! r = Some Looping → queue s !! k = Some (c, id) →
  inv (set_queue (set_runner s r (Handling c id Start)) (delete k (queue s))).
Proof.
  intros Hinv Hr Hk. runner_totals Hr (Handling c id Start). pose proof (inv_loops s Hinv) as Hlo.
  pose proof (total_delete (queued (ids s)) (queue s) k _ Hk) as Hdel.
  unfold queued at 3 in Hdel; simpl in Hdel.
  assert (Hh : handler_ok s c id).
  { apply (inv_queue s Hinv (c, id)). by eapply list_elem_of_lookup_2. }
  apply (inv_runner_moves s _ (λ _ x, x)); simpl in *; try done.
  - intros i. apply lookup_id_fmap.
  - lia.
  - arith.
  - intros i x _. clear Hh Hk Hinv Hr. holder_cases x.
  - intros h [j Hj]%list_elem_of_lookup_1. apply (inv_queue s Hinv).
    rewrite list_lookup_delete in Hj. case_match; by eapply list_elem_of_lookup_2.
  - intros p [->|Hp]%elem_insert; [done|]. by apply (inv_runners s Hinv).
Qed.

Lemma inv_handler_start s r c id :
  inv s → runners s !! r = Some (Handling c id Start) →
  inv (if sync_open_ s =? id
       then set_open (set_runner s r (Handling c id Call)) 0
       else set_runner s r Looping).
Proof.
  intros Hinv Hr. pose proof (inv_loops s Hinv) as Hlo. pose proof (inv_ids s Hinv) as [Hpos _].
  destruct (inv_runners s Hinv _ (list_elem_of_lookup_2 _ _ _ Hr)) as [Hb Hl].
  destruct (sync_open_ s =? id) eqn:Ho; reflect_bools.
  - specialize (Hl (eq_sym Ho)). destruct (inv_holder s Hinv c Hl) as (x & Hx & Hok).
    assert (Hid : id = ids s) by (unfold holder_ok in Hok; destruct (pc x); arith).
    runner_totals Hr (Handling c id Call). simpl in *. rewrite Hid, Z.eqb_refl in *; simpl in *.
    apply (inv_runner_moves s _ (λ _ x, x)); simpl; try done.
    + intros i. apply lookup_id_fmap.
    + lia.
    + congruence.
    + intros i y _. holder_cases y.
    + intros h Hh. destruct (inv_queue s Hinv h Hh). split; simpl; [done|lia].
    + intros p [->|Hp]%elem_insert; [done|]. pose proof (inv_runners s Hinv p Hp) as Hp'.
      destruct p as [|? ? []| |]; try done. destruct Hp'. split; simpl; [done|lia].
  - runner_totals Hr Looping. simpl in *.
    apply (inv_runner_moves s _ (λ _ x, x)); simpl; try done.
    + intros i. apply lookup_id_fmap.
    + lia.
    + arith.
    + intros i y _. destruct (id =? ids s) eqn:?; simpl in *; reflect_bools; holder_cases y.
    + apply (inv_queue s Hinv).
    + intros p [->|Hp]%elem_insert; [done|]. by apply (inv_runners s Hinv).
Qed.

Lemma inv_handler_call s r c id :
  inv s → runners s !! r = Some (Handling c id Call) →
  inv (run_f (set_runner s r (Handling c id Finish)) c).
Proof.
  intros Hinv Hr. pose proof (inv_loops s Hinv) as Hlo.
  destruct (inv_runners s Hinv _ (list_elem_of_lookup_2 _ _ _ Hr)) as [Hid Hl].
  destruct (inv_holder s Hinv c Hl) as (x & Hx & Hok).
  runner_totals Hr (Handling c id Finish). unfold run_f; simpl in *. rewrite Hx.
  apply (inv_runner_moves s _ (λ i y, if decide (i = c) then mkCaller (pc y) (ran y + 1) else y));
    simpl; try done.
  - intros i. destruct (decide (i = c)) as [->|].
    + rewrite list_lookup_insert_eq, Hx by by eapply lookup_lt_Some. done.
    + rewrite list_lookup_insert_ne by done. apply lookup_id_fmap.
  - lia.
  - congruence.
  - intros i y Hi. assert (i = c) as -> by congruence. rewrite decide_True by done. holder_cases y.
  - intros i y Hi. rewrite decide_False; [done|]. congruence.
  - apply (inv_queue s Hinv).
  - intros p [->|Hp]%elem_insert; [done|]. by apply (inv_runners s Hinv).
Qed.

Lemma inv_handler_finish s r c id :
  inv s → runners s !! r = Some (Handling c id Finish) →
  inv (notify_all (set_done (set_runner s r Looping) id)).
Proof.
  intros Hinv Hr. pose proof (inv_loops s Hinv) as Hlo.
  destruct (inv_runners s Hinv _ (list_elem_of_lookup_2 _ _ _ Hr)) as [Hid Hl].
  runner_totals Hr Looping. simpl in *.
  apply (inv_runner_moves s _ (λ _, wake)); simpl; try done.
  - intros i. apply list_lookup_fmap.
  - lia.
  - congruence.
  - intros i y _. holder_cases y.
  - intros i y _. by destruct y as [[] ?].
  - apply (inv_queue s Hinv).
  - intros p [->|Hp]%elem_insert; [done|]. by apply (inv_runners s Hinv).
Qed.

Lemma inv_notify s r :
  inv s → runners s !! r = Some Notify → inv (notify_all (set_runner s r Gone)).
Proof.
  intros Hinv Hr. pose proof (inv_loops s Hinv) as Hlo. runner_totals Hr Gone. simpl in *.
  apply (inv_runner_moves s _ (λ _, wake)); simpl; try done.
  - intros i. apply list_lookup_fmap.
  - lia.
  - arith.
  - intros i y _. holder_cases y.
  - intros i y _. by destruct y as [[] ?].
  - apply (inv_queue s Hinv).
  - intros p [->|Hp]%elem_insert; [done|]. by apply (inv_runners s Hinv).
Qed.

Lemma inv_leave s r :
  inv s → in_range s → runners s !! r = Some Looping → inv (release_loop (set_runner s r Notify)).
Proof.
  intros Hinv [_ Hrange] Hr. pose proof (inv_loops s Hinv) as Hlo. runner_totals Hr Notify.
  pose proof (total_le_length claims (runners s) (λ p, proj2 (claims_bit p))).
  pose proof (total_nonneg claims (runners s) (λ p, proj1 (claims_bit p))).
  pose proof (total_nonneg notifying (runners s) notifying_nonneg). simpl in *.
  apply (inv_runner_moves s _ (λ _ x, x)); simpl; try done.
  - intros i. apply lookup_id_fmap.
  - rewrite Hlo, wrap_i32_small; lia.
  - arith.
  - intros i y _. holder_cases y.
  - apply (inv_queue s Hinv).
  - intros p [->|Hp]%elem_insert; [done|]. by apply (inv_runners s Hinv).
Qed.

Lemma inv_initial : inv initial.
Proof.
  split; simpl; try done.
  - intros h Hh. by apply elem_of_nil in Hh.
  - intros p Hp. by apply elem_of_nil in Hp.
Qed.

Lemma inv_new_call s b :
  inv s → inv (mkState (loops_ s) (sync_calls_ s) (sync_open_ s) (sync_done_ s) (sync_call_ s)
                 (queue s) (callers s ++ [mkCaller (Entry b) 0]) (runners s) (ids s)).
Proof.
  intros [H1 H2 H3 H4 H5 H6 H7]. split; simpl; try done.
  - intros i Hi. destruct (H4 i Hi) as (x & Hx & Hok). exists x. split; [|done].
    by apply lookup_app_l_Some.
  - intros i x [Hx|[_ Hx]]%lookup_app_Some Hl; [eauto|].
    apply list_lookup_singleton_Some in Hx as [_ <-]. done.
Qed.

Lemma runner_step_ids s r p s' :
  runner_step s r p = Some s' → ids s' = ids s ∧ length (runners s') = length (runners s).
Proof.
  unfold runner_step. intros Hs. destruct p as [|c id []| |]; try case_match; simplify_eq;
    unfold run_f; simpl; try case_match; simpl; by rewrite ?length_insert.
Qed.

(** The numbers and the claims only grow. *)
Lemma in_range_back s l s' : step s l = Some s' → in_range s' → in_range s.
Proof.
  intros Hs [H1 H2]. enough (ids s ≤ ids s' ∧ (length (runners s) ≤ length (runners s'))%nat)
    by (split; lia). clear H1 H2. unfold step in Hs. destruct l as [b|i|i| |r k|r|r].
  - injection Hs as <-. done.
  - destruct (callers s !! i) as [x|]; simpl in Hs; [|done]. unfold caller_step in Hs.
    destruct (pc x); repeat case_match; simplify_eq; simpl; lia.
  - destruct (callers s !! i) as [x|]; simpl in Hs; [|done]. repeat case_match; simplify_eq; done.
  - injection Hs as <-. simpl. rewrite length_app. lia.
  - destruct (runners s !! r) as [p|]; simpl in Hs; [|done].
    destruct (queue s !! k); simpl in Hs; [|done]. case_match; simplify_eq. simpl.
    rewrite length_insert. lia.
  - destruct (runners s !! r) as [p|]; simpl in Hs; [|done].
    apply runner_step_ids in Hs as [-> ->]. lia.
  - destruct (runners s !! r) as [p|]; simpl in Hs; [|done]. case_match; simplify_eq. simpl.
    rewrite length_insert. lia.
Qed.

Lemma inv_runner_step s r p s' :
  inv s → runners s !! r = Some p → runner_step s r p = Some s' → inv s'.
Proof.
  intros Hinv Hr Hs. unfold runner_step in Hs. destruct p as [|c id []| |]; try done.
  - pose proof (inv_handler_start s r c id Hinv Hr). case_match; by injection Hs as <-.
  - injection Hs as <-. by apply (inv_handler_call s r c id).
  - injection Hs as <-. by apply (inv_handler_finish s r c id).
  - injection Hs as <-. by apply inv_notify.
Qed.

Lemma inv_step s l s' : inv s → in_range s' → step s l = Some s' → inv s'.
Proof.
  intros Hinv Hr Hs. pose proof (in_range_back s l s' Hs Hr) as Hr0.
  unfold step in Hs. destruct l as [b|i|i| |r k|r|r].
  - injection Hs as <-. by apply inv_new_call.
  - destruct (callers s !! i) as [x|] eqn:Hx; simpl in Hs; [|done]. by apply (inv_caller_step s i x).
  - destruct (callers s !! i) as [x|] eqn:Hx; simpl in Hs; [|done].
    destruct (pc x) eqn:Hpc; try done. case_match; [done|]. injection Hs as <-.
    by apply (inv_wake s i x id false).
  - injection Hs as <-. by apply inv_claim.
  - destruct (runners s !! r) as [p|] eqn:Hp; simpl in Hs; [|done].
    destruct (queue s !! k) as [[c id]|] eqn:Hk; simpl in Hs; [|done].
    destruct p; try done. injection Hs as <-. by apply inv_dispatch.
  - destruct (runners s !! r) as [p|] eqn:Hp; simpl in Hs; [|done]. by apply (inv_runner_step s r p).
  - destruct (runners s !! r) as [p|] eqn:Hp; simpl in Hs; [|done].
    destruct p; try done. injection Hs as <-. by apply inv_leave.
Qed.

Lemma reachable_inv s : reachable step initial s → in_range s → inv s.
Proof.
  induction 1 as [|s l s' _ IH Hs]; intros Hr; [apply inv_initial|].
  apply (inv_step s l s'); try done. apply IH. by apply (in_range_back s l s').
Qed.

(** ** Progress *)

(** How many steps a caller, a posted handler and a loop thread can still take, a notification
    counted with what it wakes; [k] exceeds what one notification adds. *)
Definition caller_weight (k : Z) (x : caller) : Z :=
  match pc x with
  | Entry _ => 4 * k + 9 | RunInline _ => 1 | LockCall => 4 * k + 8 | TakeId => 4 * k + 7
  | Open _ => 4 * k + 6 | Post _ => 4 * k + 5
  | Test _ => 4 | Asleep _ true => 5 | Asleep _ false => 3
  | RunTaken => 2 | UnlockCall => 1 | Returned => 0
  end.
Definition runner_weight (k : Z) (p : rpc) : Z :=
  match p with
  | Handling _ _ Start => 5 * k | Handling _ _ Call => 4 * k | Handling _ _ Finish => 3 * k
  | Looping => 2 * k | Notify => k | Gone => 0
  end.
Definition weight (s : state) : Z :=
  let k := 2 * Z.of_nat (length (callers s)) + 1 in
  total (caller_weight k) (callers s) + 4 * k * Z.of_nat (length (queue s)) +
  total (runner_weight k) (runners s).

Lemma caller_weight_nonneg k x : 0 ≤ k → 0 ≤ caller_weight k x.
Proof. intros. unfold caller_weight. destruct (pc x) as [| | | | | | |? []| | |]; lia. Qed.

Lemma runner_weight_nonneg k p : 0 ≤ k → 0 ≤ runner_weight k p.
Proof. intros. destruct p as [|? ? []| |]; simpl; lia. Qed.

Lemma weight_nonneg s : 0 ≤ weight s.
Proof.
  unfold weight. set (k := 2 * _ + 1). assert (0 ≤ k) by (unfold k; lia).
  pose proof (total_nonneg (caller_weight k) (callers s) (λ x, caller_weight_nonneg k x H)).
  pose proof (total_nonneg (runner_weight k) (runners s) (λ x, runner_weight_nonneg k x H)).
  nia.
Qed.

(** A notification adds less than the [k] its sender gives up. *)
Lemma wake_weight k (cs : list caller) :
  total (caller_weight k) (wake <$> cs) ≤
  total (caller_weight k) cs + 2 * Z.of_nat (length cs).
Proof.
  apply total_fmap_le; [|lia]. intros x. unfold wake, caller_weight.
  destruct (pc x) as [| | | | | | |? []| | |] eqn:Hpc; simpl; rewrite ?Hpc; lia.
Qed.

Lemma caller_step_weight s i x s' :
  callers s !! i = Some x → caller_step s i x = Some s' → weight s' < weight s.
Proof.
  intros Hx Hs. unfold caller_step in Hs.
  assert (Hi : ∀ k y, total (caller_weight k) (<[i:=y]> (callers s)) =
    total (caller_weight k) (callers s) - caller_weight k x + caller_weight k y)
    by (intros; by apply total_insert).
  destruct (pc x) as [| | | | | | |? []| | |] eqn:Hpc; repeat case_match; simplify_eq;
    unfold weight; simpl; rewrite length_insert, ?length_app, Hi; unfold caller_weight at 2 3;
    rewrite Hpc; simpl; lia.
Qed.

Lemma runner_step_weight s r p s' :
  runners s !! r = Some p → runner_step s r p = Some s' → weight s' < weight s.
Proof.
  intros Hr Hs. unfold runner_step in Hs.
  assert (Hi : ∀ k q, total (runner_weight k) (<[r:=q]> (runners s)) =
    total (runner_weight k) (runners s) - runner_weight k p + runner_weight k q)
    by (intros; by apply total_insert).
  destruct p as [|c id []| |]; simplify_eq.
  - case_match; simplify_eq; unfold weight; simpl; rewrite Hi; simpl; lia.
  - unfold run_f; simpl. destruct (callers s !! c) as [x|] eqn:Hc; unfold weight; simpl;
      rewrite ?length_insert, Hi; simpl; [|lia].
    rewrite (total_insert _ _ _ _ _ Hc). unfold caller_weight at 2 3; simpl. lia.
  - pose proof (wake_weight (2 * Z.of_nat (length (callers s)) + 1) (callers s)).
    unfold weight; simpl. rewrite length_fmap, Hi; simpl. lia.
  - pose proof (wake_weight (2 * Z.of_nat (length (callers s)) + 1) (callers s)).
    unfold weight; simpl. rewrite length_fmap, Hi; simpl. lia.
Qed.

Lemma step_weight s l s' : internal l = true → step s l = Some s' → weight s' < weight s.
Proof.
  intros Hint Hs. unfold step in Hs. destruct l as [|i| | |r k|r|r]; try done.
  - destruct (callers s !! i) as [x|] eqn:Hx; simpl in Hs; [|done]. by eapply caller_step_weight.
  - destruct (runners s !! r) as [p|] eqn:Hr; simpl in Hs; [|done].
    destruct (queue s !! k) as [[c id]|] eqn:Hk; simpl in Hs; [|done].
    destruct p; try done. simplify_eq. unfold weight; simpl.
    rewrite (total_insert _ _ _ _ _ Hr), length_delete by done.
    apply lookup_lt_Some in Hk. simpl. nia.
  - destruct (runners s !! r) as [p|] eqn:Hr; simpl in Hs; [|done]. by eapply runner_step_weight.
  - destruct (runners s !! r) as [p|] eqn:Hr; simpl in Hs; [|done].
    destruct p; try done. simplify_eq. unfold weight; simpl.
    rewrite (total_insert _ _ _ _ _ Hr). simpl. lia.
Qed.

Lemma exec_weight s ls s' :
  exec step s ls = Some s' → forallb internal ls = true →
  Z.of_nat (length ls) + weight s' ≤ weight s.
Proof.
  revert s. induction ls as [|l ls IH]; intros s He Hi; simpl in *; [simplify_eq; lia|].
  reflect_bools. destruct (step s l) as [t|] eqn:Hs; [|done]. simpl in He.
  pose proof (step_weight s l t H Hs). pose proof (IH t He H0). lia.
Qed.

(** Leaving [run()] is the host's choice; the other steps a thread takes by itself. *)
Definition obliged (l : label) : bool :=
  match l with Caller _ | Dispatch _ _ | Runner _ => true | _ => false end.
Definition stuck (s : state) : Prop := ∀ l, obliged l = true → step s l = None.

Lemma stuck_caller s i x :
  stuck s → callers s !! i = Some x →
  pc x = Returned ∨ pc x = LockCall ∧ sync_call_ s ≠ None ∨ ∃ id, pc x = Asleep id false.
Proof.
  intros Hst Hx. pose proof (Hst (Caller i) eq_refl) as Hn. unfold step in Hn.
  rewrite Hx in Hn; cbn [mbind option_bind] in Hn. unfold caller_step in Hn.
  destruct (pc x) as [| | | | | | |? []| | |]; try done; eauto.
  - by case_match.
  - destruct (sync_call_ s); [|done]. eauto.
  - by repeat case_match.
Qed.

Lemma stuck_runner s r p :
  stuck s → runners s !! r = Some p → p = Gone ∨ p = Looping ∧ queue s = [].
Proof.
  intros Hst Hr. pose proof (Hst (Runner r) eq_refl) as Hn.
  pose proof (Hst (Dispatch r 0) eq_refl) as Hd.
  unfold step in Hn, Hd. rewrite Hr in Hn, Hd; cbn [mbind option_bind] in Hn, Hd.
  destruct p as [|c id []| |]; simpl in Hn; try done; [|by case_match|by left].
  right. split; [done|]. by destruct (queue s).
Qed.

Lemma stuck_total s f : stuck s → f Gone = 0 → f Looping = 0 → total f (runners s) = 0.
Proof.
  intros Hst Hg Hl. apply total_zero. intros p [r Hr]%list_elem_of_lookup_1.
  by destruct (stuck_runner s r p Hst Hr) as [->|[-> _]].
Qed.

(** Either no loop thread is left, or nothing is posted. *)
Lemma stuck_loops s : stuck s → total claims (runners s) = 0 ∨ queue s = [].
Proof.
  intros Hst. pose proof (total_nonneg claims (runners s) (λ p, proj1 (claims_bit p))).
  destruct (decide (total claims (runners s) = 0)) as [|Hne]; [by left|right].
  destruct (total_pos claims (runners s) (λ p, proj1 (claims_bit p))) as (r & p & Hr & Hp); [lia|].
  destruct (stuck_runner s r p Hst Hr) as [->|[_ Hq]]; [done|done].
Qed.

(** The caller that holds the lock cannot be asleep for good. *)
Lemma stuck_unlocked s : inv s → stuck s → sync_call_ s = None.
Proof.
  intros Hinv Hst. destruct (sync_call_ s) as [i|] eqn:Hl; [exfalso|done].
  destruct (inv_holder s Hinv i Hl) as (x & Hx & Hok).
  destruct (stuck_caller s i x Hst Hx) as [Hpc|[[Hpc _]|[id Hpc]]];
    unfold holder_ok in Hok; rewrite Hpc in Hok; try done.
  destruct Hok as (-> & [H1 Hw] & Hn). specialize (Hn eq_refl) as [Hd Hn].
  rewrite (inv_loops s Hinv) in Hn. unfold pending in Hw.
  rewrite (stuck_total s calling), (stuck_total s finishing),
    (stuck_total s (starting _)) in Hw by done.
  rewrite (stuck_total s notifying) in Hn by done.
  destruct (stuck_loops s Hst) as [Hz|Hz]; rewrite Hz in *; simpl in *; lia.
Qed.

Lemma stuck_returned s x : inv s → stuck s → x ∈ callers s → pc x = Returned ∧ ran x = 1.
Proof.
  intros Hinv Hst [i Hx]%list_elem_of_lookup_1. pose proof (stuck_unlocked s Hinv Hst) as Hl.
  destruct (inv_caller_cases s i x Hinv Hx) as [[? _]|[_ Ho]]; [congruence|].
  unfold other_ok in Ho. destruct (stuck_caller s i x Hst Hx) as [Hpc|[[Hpc ?]|[id Hpc]]];
    rewrite Hpc in Ho; done.
Qed.

(** ** Nobody runs [f] beside the loop *)

(** The machine without new claims: the threads are the ones a server started with. *)
Definition step_no_claim (s : state) (l : label) : option state :=
  match l with Claim => None | _ => step s l end.

Definition claimed (n : nat) : state :=
  mkState (Z.of_nat n) 0 0 0 None [] [] (replicate n Looping) 0.

(** The caller is about to run [f] itself, on a thread that is not the loop's. *)
Definition runs_here (x : caller) : bool :=
  match pc x with RunInline false | RunTaken => true | _ => false end.

Definition runs_alone (s : state) : Prop :=
  ∀ x, x ∈ callers s → runs_here x = true → loops_ s = 0.

Lemma exec_claims n s :
  Z.of_nat (length (runners s)) + Z.of_nat n < 2 ^ 31 → loops_ s = Z.of_nat (length (runners s)) →
  exec step s (replicate n Claim) =
  Some (mkState (loops_ s + Z.of_nat n) (sync_calls_ s) (sync_open_ s) (sync_done_ s) (sync_call_ s)
          (queue s) (callers s) (runners s ++ replicate n Looping) (ids s)).
Proof.
  revert s. induction n as [|n IH]; intros s Hr Hl; cbn [replicate exec].
  - rewrite app_nil_r, Z.add_0_r. by destruct s.
  - cbn [step mbind option_bind]. rewrite IH; unfold claim_loop; simpl.
    + rewrite wrap_i32_small by lia. rewrite <-app_assoc; simpl. do 2 f_equal. lia.
    + rewrite length_app; simpl. lia.
    + rewrite length_app, wrap_i32_small; simpl; lia.
Qed.

Lemma no_claim_reachable n s :
  Z.of_nat n < 2 ^ 31 → reachable step_no_claim (claimed n) s → reachable step initial s.
Proof.
  intros Hn. induction 1 as [|s l s' _ IH Hs].
  - apply (exec_reachable step initial (replicate n Claim)). rewrite exec_claims; [done|done|done].
  - apply (reach_step step initial s l); [done|]. by destruct l.
Qed.

Lemma no_claim_runners n s :
  reachable step_no_claim (claimed n) s → length (runners s) = n.
Proof.
  induction 1 as [|s l s' _ IH Hs]; [simpl; by rewrite length_replicate|].
  unfold step_no_claim, step in Hs. destruct l as [b|i|i| |r k|r|r].
  - by injection Hs as <-.
  - destruct (callers s !! i) as [x|]; simpl in Hs; [|done]. unfold caller_step in Hs.
    destruct (pc x); repeat case_match; by simplify_eq.
  - destruct (callers s !! i) as [x|]; simpl in Hs; [|done]. repeat case_match; by simplify_eq.
  - done.
  - destruct (runners s !! r) as [p|]; simpl in Hs; [|done].
    destruct (queue s !! k); simpl in Hs; [|done]. case_match; simplify_eq. simpl.
    by rewrite length_insert.
  - destruct (runners s !! r) as [p|]; simpl in Hs; [|done].
    apply runner_step_ids in Hs as [_ ->]. done.
  - destruct (runners s !! r) as [p|]; simpl in Hs; [|done]. case_match; simplify_eq. simpl.
    by rewrite length_insert.
Qed.

(** A caller newly about to run [f] itself saw no loop. *)
Lemma caller_step_alone s i x s' y :
  callers s !! i = Some x → caller_step s i x = Some s' →
  y ∈ callers s' → runs_here y = true →
  loops_ s' = loops_ s ∧ (loops_ s = 0 ∨ y ∈ callers s).
Proof.
  intros Hx Hs Hy Hr. unfold caller_step, ready in Hs.
  destruct (pc x) as [[]|[]| | | | | |? []| | |] eqn:Hpc; repeat case_match; simplify_eq; simpl in *;
    (split; [done|]); apply elem_insert in Hy as [->|Hy]; try (by right); try done;
    left; reflect_bools; simpl in *; lia.
Qed.

Lemma runner_step_alone s r p s' y :
  runner_step s r p = Some s' → y ∈ callers s' → runs_here y = true →
  loops_ s' = loops_ s ∧ ∃ z, z ∈ callers s ∧ runs_here z = true.
Proof.
  intros Hs Hy Hr. unfold runner_step in Hs.
  assert (Hw : y ∈ wake <$> callers s → ∃ z, z ∈ callers s ∧ runs_here z = true).
  { intros (z & -> & Hz)%list_elem_of_fmap. exists z. split; [done|].
    unfold wake, runs_here in *. by destruct (pc z) eqn:Hpc; simpl in Hr; rewrite ?Hpc in Hr. }
  destruct p as [|c id []| |]; try case_match; simplify_eq; simpl in *; eauto.
  unfold run_f in *; simpl in *. destruct (callers s !! c) as [x|] eqn:Hc; simpl in *; [|eauto].
  split; [done|]. apply elem_insert in Hy as [->|Hy]; [|eauto].
  exists x. split; [by eapply list_elem_of_lookup_2|]. done.
Qed.

Lemma runs_alone_step s l s' :
  inv s → runs_alone s → step_no_claim s l = Some s' → runs_alone s'.
Proof.
  intros Hinv Ha Hs y Hy Hr. unfold step_no_claim, step in Hs. destruct l as [b|i|i| |r k|r|r].
  - simplify_eq; simpl in *. apply elem_of_app in Hy as [Hy|Hy]; [by apply (Ha y)|].
    by apply list_elem_of_singleton in Hy as ->.
  - destruct (callers s !! i) as [x|] eqn:Hx; simpl in Hs; [|done].
    destruct (caller_step_alone s i x s' y Hx Hs Hy Hr) as [-> [|Hin]]; [done|by apply (Ha y)].
  - destruct (callers s !! i) as [x|] eqn:Hx; simpl in Hs; [|done].
    repeat case_match; simplify_eq; simpl in *. apply elem_insert in Hy as [->|Hy]; [done|by apply (Ha y)].
  - done.
  - destruct (runners s !! r) as [p|]; simpl in Hs; [|done].
    destruct (queue s !! k); simpl in Hs; [|done]. case_match; simplify_eq. by apply (Ha y).
  - destruct (runners s !! r) as [p|]; simpl in Hs; [|done].
    destruct (runner_step_alone s r p s' y Hs Hy Hr) as [-> (z & Hz & Hz')]. by apply (Ha z).
  - destruct (runners s !! r) as [p|] eqn:Hp; simpl in Hs; [|done]. destruct p; simplify_eq.
    pose proof (total_ge claims _ _ _ (λ p, proj1 (claims_bit p)) Hp).
    pose proof (inv_loops s Hinv). pose proof (Ha y Hy Hr). simpl in *. lia.
Qed.

Lemma runs_alone_reachable n s :
  Z.of_nat n < 2 ^ 31 → reachable step_no_claim (claimed n) s → ids s < 2 ^ 64 → runs_alone s.
Proof.
  intros Hn Hr. induction Hr as [|s l s' Hr IH Hs]; intros Hid.
  - intros y Hy. by apply elem_of_nil in Hy.
  - assert (Hst : step s l = Some s') by (by destruct l).
    assert (Hrs : in_range s').
    { split; [done|]. by rewrite (no_claim_runners n s' (reach_step _ _ _ _ _ Hr Hs)). }
    pose proof (in_range_back s l s' Hst Hrs) as Hrs0.
    apply (runs_alone_step s l); try done; [|apply IH, Hrs0].
    apply reachable_inv; [|done]. by apply (no_claim_reachable n).
Qed.

(** ** Theorems *)

(** C7: however callers and loop threads interleave, a call's [f] runs at most once, and has
    run exactly once when [on_loop_sync] returns, by a loop thread or by the caller; a loop
    thread runs it only while its caller still waits in the call, so the reference it holds
    is alive, and no two loop threads run calls at the same time. *)
Theorem sync_runs_once s :
  reachable step initial s → in_range s →
  (∀ x, x ∈ callers s → 0 ≤ ran x ≤ 1 ∧ (pc x = Returned → ran x = 1)) ∧
  (∀ c id, Handling c id Call ∈ runners s →
     ∃ x, callers s !! c = Some x ∧ ran x = 0 ∧ (pc x = Test id ∨ ∃ b, pc x = Asleep id b)) ∧
  total calling (runners s) ≤ 1.
Proof.
  intros Hr Hrange. pose proof (reachable_inv s Hr Hrange) as Hinv. split_and!.
  - intros x [i Hx]%list_elem_of_lookup_1.
    destruct (inv_caller_cases s i x Hinv Hx) as [[_ Hok]|[_ Hok]].
    + unfold holder_ok, waiting in Hok. destruct (pc x) as [| | | | | | |? []| | |]; try done;
        (split; [lia|done]).
    + unfold other_ok in Hok. destruct (pc x); try done; rewrite Hok; (split; [lia|done]).
  - intros c id Hp. destruct (inv_runners s Hinv _ Hp) as [-> Hl].
    destruct (inv_holder s Hinv c Hl) as (x & Hx & Hok). exists x. split; [done|].
    apply list_elem_of_lookup_1 in Hp as [r Hp].
    pose proof (total_ge calling _ _ _ calling_nonneg Hp) as Hge. simpl in Hge.
    unfold holder_ok, waiting, quiet in Hok. destruct (pc x) as [| | | | | | |? b| | |]; try (exfalso; lia).
    + destruct Hok as [-> Hw]. split; [lia|]. by left.
    + destruct Hok as [-> [Hw _]]. split; [lia|]. right. by exists b.
  - destruct (sync_call_ s) as [i|] eqn:Hl.
    + destruct (inv_holder s Hinv i Hl) as (x & _ & Hok).
      unfold holder_ok, waiting, quiet in Hok. destruct (pc x); lia.
    + destruct (inv_free s Hinv Hl) as [(_ & -> & _) _]. lia.
Qed.

(** A caller posts its call and a loop thread takes it. *)
Definition call_taken : list label :=
  [Claim; NewCall false; Caller 0; Caller 0; Caller 0; Caller 0; Caller 0; Caller 0;
   Dispatch 0 0; Runner 0]%nat.

Lemma sync_runs_once_witness :
  ∃ s, exec step initial call_taken = Some s ∧
    Handling 0 1 Call ∈ runners s ∧
    ∃ x, callers s !! 0%nat = Some x ∧ ran x = 0 ∧ (pc x = Test 1 ∨ ∃ b, pc x = Asleep 1 b).
Proof.
  eexists. split; [vm_compute; reflexivity|]. split; [left|].
  eapply (sync_runs_once _).
  - apply (exec_reachable step initial call_taken). vm_compute. reflexivity.
  - split; simpl; lia.
  - left.
Defined.

(** C10: every call returns: from any state the threads take boundedly many steps before
    one of the outside (a new call, a claim, a spurious wakeup), whether or not loop threads
    leave [run()] on the way, and when none of them has a step left every call has returned
    with its [f] run, so no wakeup is lost and no caller waits for a loop that is gone. *)
Theorem sync_returns s ls s' :
  reachable step initial s → exec step s ls = Some s' → forallb internal ls = true →
  in_range s' →
  Z.of_nat (length ls) ≤ weight s ∧
  (stuck s' → ∀ x, x ∈ callers s' → pc x = Returned ∧ ran x = 1).
Proof.
  intros Hr He Hint Hrange. split.
  - pose proof (exec_weight s ls s' He Hint). pose proof (weight_nonneg s'). lia.
  - intros Hst x. apply stuck_returned; [|done].
    apply reachable_inv; [|done]. by apply (exec_reachable_from step initial s ls).
Qed.

(** One call, and the loop stopped before it took it: the caller runs it. *)
Definition call_taken_back : list label :=
  [Caller 0; Caller 0; Caller 0; Caller 0; Caller 0; Caller 0; Leave 0; Runner 0; Caller 0;
   Caller 0; Caller 0; Caller 0]%nat.

Definition call_begun : state := default initial (exec step initial [Claim; NewCall false]).
Definition call_ended : state := default initial (exec step call_begun call_taken_back).

Lemma sync_returns_witness :
  12 ≤ weight call_begun ∧ ∀ x, x ∈ callers call_ended → pc x = Returned ∧ ran x = 1.
Proof.
  destruct (sync_returns call_begun call_taken_back call_ended) as [Hb Hst].
  - apply (exec_reachable step initial [Claim; NewCall false]). vm_compute. reflexivity.
  - vm_compute. reflexivity.
  - reflexivity.
  - split; vm_compute; reflexivity.
  - split; [exact Hb|]. apply Hst.
    intros [b|[|i]|i| |[|r] [|k]|[|r]|r] Hl; try discriminate Hl; reflexivity.
Defined.

(** When every loop was claimed beforehand, a caller that is not on the loop runs [f]
    itself only after the last loop thread has left [run()], so what [f] touches is never
    reached from two threads. *)
Theorem sync_exclusive n s x :
  Z.of_nat n < 2 ^ 31 → reachable step_no_claim (claimed n) s → ids s < 2 ^ 64 →
  x ∈ callers s → runs_here x = true → ∀ p, p ∈ runners s → p = Notify ∨ p = Gone.
Proof.
  intros Hn Hr Hid Hx Hh p Hp.
  pose proof (runs_alone_reachable n s Hn Hr Hid x Hx Hh) as Hl.
  assert (Hinv : inv s).
  { apply reachable_inv; [by apply (no_claim_reachable n)|]. split; [done|].
    by rewrite (no_claim_runners n s Hr). }
  rewrite (inv_loops s Hinv) in Hl.
  pose proof (total_0_inv claims _ (λ p, proj1 (claims_bit p)) Hl p Hp).
  destruct p; simpl in *; auto; lia.
Qed.

Lemma sync_exclusive_witness :
  ∃ s x, exec step_no_claim (claimed 1) (NewCall false :: take 10 call_taken_back) = Some s ∧
    x ∈ callers s ∧ runs_here x = true ∧ ∀ p, p ∈ runners s → p = Notify ∨ p = Gone.
Proof.
  eexists. exists (mkCaller RunTaken 0). split; [vm_compute; reflexivity|].
  split; [left|]. split; [reflexivity|].
  eapply (sync_exclusive 1 _ (mkCaller RunTaken 0)).
  - lia.
  - apply (exec_reachable step_no_claim (claimed 1) (NewCall false :: take 10 call_taken_back)).
    vm_compute. reflexivity.
  - simpl. lia.
  - left.
  - reflexivity.
Defined.

End LoopSync.
