(* ===== verification/Prog.v ===== *)
(** * Programs over a state that may throw

    The monad of the sequential parts: the members of an object are the state, an exception
    ends the program with the state it had reached. *)

From S2P Require Import Prelude.

Definition prog (S A : Type) : Type := S → result A * S.

Section prog.
Context {S : Type}.

#[export] Instance prog_ret : MRet (prog S) := λ A a s, (Returns a, s).
#[export] Instance prog_bind : MBind (prog S) := λ A B k m s,
  match m s with
  | (Returns a, s') => k a s'
  | (Throws e, s') => (Throws e, s')
  end.

Definition throw {A} (e : exn) : prog S A := λ s, (Throws e, s).
Definition get : prog S S := λ s, (Returns s, s).
Definition modify (f : S → S) : prog S unit := λ s, (Returns tt, f s).

(** [try { m } catch (...) { h }]. *)
Definition catch {A} (m : prog S A) (h : exn → prog S A) : prog S A := λ s,
  match m s with (Throws e, s') => h e s' | r => r end.

(** A call that returns or throws without touching the state. *)
Definition lift {A} (r : result A) : prog S A := λ s, (r, s).

(** [if (b) { m; }]. *)
Definition when (b : bool) (m : prog S unit) : prog S unit := if b then m else mret tt.

(** [for (auto& x : l) { f(x); }]. *)
Fixpoint for_each {A} (l : list A) (f : A → prog S unit) : prog S unit :=
  match l with
  | [] => mret tt
  | x :: l => f x ≫= λ _, for_each l f
  end.

(** ** Running *)

Lemma bind_returns {A B} (m : prog S A) (k : A → prog S B) a s s' :
  m s = (Returns a, s') → (m ≫= k) s = k a s'.
Proof. intros Hm. unfold mbind, prog_bind. by rewrite Hm. Qed.

Lemma bind_throws {A B} (m : prog S A) (k : A → prog S B) e s s' :
  m s = (Throws e, s') → (m ≫= k) s = (Throws e, s').
Proof. intros Hm. unfold mbind, prog_bind. by rewrite Hm. Qed.

Lemma bind_inv {A B} (m : prog S A) (k : A → prog S B) s b t :
  (m ≫= k) s = (Returns b, t) → ∃ a u, m s = (Returns a, u) ∧ k a u = (Returns b, t).
Proof. unfold mbind, prog_bind. destruct (m s) as [[a|e] u]; [eauto|done]. Qed.

(** ** Programs that do the same *)

#[export] Instance prog_equiv {A} : Equiv (prog S A) := λ m m', ∀ s, m s = m' s.

#[export] Instance prog_equivalence {A} : Equivalence (≡@{prog S A}).
Proof.
  split; [by intros m s|by intros m m' H s|].
  intros m1 m2 m3 H1 H2 s. by rewrite (H1 s).
Qed.

#[export] Instance bind_proper {A B} :
  Proper (pointwise_relation A (≡) ==> (≡) ==> (≡)) (mbind (M := prog S) (A := A) (B := B)).
Proof.
  intros k k' Hk m m' Hm s. unfold mbind, prog_bind. rewrite (Hm s).
  destruct (m' s) as [[a|e] t]; [apply Hk|done].
Qed.

Lemma bind_ret_r (m : prog S unit) : (m ≫= λ _, mret tt) ≡ m.
Proof. intros s. unfold mbind, prog_bind. by destruct (m s) as [[[]|e] t]. Qed.

Lemma for_each_app {A} (l l' : list A) f :
  for_each (l ++ l') f ≡ (for_each l f ≫= λ _, for_each l' f).
Proof.
  induction l as [|x l IH]; intros s; [done|]. simpl. unfold mbind, prog_bind in *.
  destruct (f x s) as [[[]|e] t]; [apply IH|done].
Qed.

(** ** Programs that keep a property *)

Definition keeps {A} (I : S → Prop) (m : prog S A) : Prop := ∀ s, I s → I (m s).2.

Section keeps.
Context (I : S → Prop).

Lemma keeps_ret {A} (a : A) : keeps I (mret a).
Proof. by intros s. Qed.
Lemma keeps_throw {A} e : keeps I (throw (A := A) e).
Proof. by intros s. Qed.
Lemma keeps_lift {A} (r : result A) : keeps I (lift r).
Proof. by intros s. Qed.
Lemma keeps_get : keeps I get.
Proof. by intros s. Qed.
Lemma keeps_modify f : (∀ s, I s → I (f s)) → keeps I (modify f).
Proof. intros Hf s. apply Hf. Qed.
Lemma keeps_bind {A B} (m : prog S A) (k : A → prog S B) :
  keeps I m → (∀ a, keeps I (k a)) → keeps I (m ≫= k).
Proof.
  intros Hm Hk s Hs. unfold mbind, prog_bind. pose proof (Hm s Hs) as Hs'.
  destruct (m s) as [[a|e] s']; simpl in *; [|done]. by apply Hk.
Qed.
Lemma keeps_when b m : keeps I m → keeps I (when b m).
Proof. intros Hm. destruct b; [done|apply keeps_ret]. Qed.
Lemma keeps_catch {A} (m : prog S A) h : keeps I m → (∀ e, keeps I (h e)) → keeps I (catch m h).
Proof.
  intros Hm Hh s Hs. unfold catch. pose proof (Hm s Hs) as Hs'.
  destruct (m s) as [[a|e] s']; simpl in *; [done|]. by apply Hh.
Qed.
Lemma keeps_for_each {A} (l : list A) f : (∀ x, keeps I (f x)) → keeps I (for_each l f).
Proof.
  intros Hf. induction l as [|x l IH]; [apply keeps_ret|]. by apply keeps_bind.
Qed.
End keeps.
End prog.

#[export] Hint Resolve keeps_ret keeps_throw keeps_lift keeps_get keeps_bind keeps_when keeps_catch
  keeps_for_each : reactor.
