(* ===== verification/Net.v ===== *)
(** * Addresses, socket errors and their platform numbers

    What the accept loops, the sessions and the UDP server share: endpoints, [BindOptions]
    and the [errno] values, which differ between platforms. *)

From S2P Require Import Prelude.

Module Net.

(** [asio::ip::address]: the family and the bits. *)
Inductive address := V4 (bits : Z) | V6 (bits : Z).

#[export] Instance address_eq_dec : EqDecision address.
Proof. solve_decision. Defined.

(** [endpoint]. *)
Record endpoint := Endpoint { ep_address : address; ep_port : Z }.

#[export] Instance endpoint_eq_dec : EqDecision endpoint.
Proof. solve_decision. Defined.

(** [BindOptions], with its defaults. *)
Record BindOptions := mkBind {
  bind_address : string;
  reuse_port : bool;
  tcp_nodelay : bool;
  backlog : Z }.
Definition default_bind : BindOptions := mkBind "" false true 1024.

(** The [errno] numbers of a platform; [ENONET] is not defined everywhere. *)
Class Platform := mkPlatform {
  apple : bool;
  EINTR : Z; ENOMEM : Z; EINVAL : Z; ENFILE : Z; EMFILE : Z; EAGAIN : Z; EWOULDBLOCK : Z;
  EPROTO : Z; ENOPROTOOPT : Z; EOPNOTSUPP : Z; ENETDOWN : Z; ENETUNREACH : Z;
  ECONNABORTED : Z; ECONNRESET : Z; ENOBUFS : Z; EHOSTDOWN : Z; EHOSTUNREACH : Z;
  ECANCELED : Z;
  ENONET : option Z }.

Definition linux : Platform := {|
  apple := false;
  EINTR := 4; ENOMEM := 12; EINVAL := 22; ENFILE := 23; EMFILE := 24; EAGAIN := 11;
  EWOULDBLOCK := 11; EPROTO := 71; ENOPROTOOPT := 92; EOPNOTSUPP := 95; ENETDOWN := 100;
  ENETUNREACH := 101; ECONNABORTED := 103; ECONNRESET := 104; ENOBUFS := 105;
  EHOSTDOWN := 112; EHOSTUNREACH := 113; ECANCELED := 125; ENONET := Some 64 |}.

Definition macos : Platform := {|
  apple := true;
  EINTR := 4; ENOMEM := 12; EINVAL := 22; ENFILE := 23; EMFILE := 24; EAGAIN := 35;
  EWOULDBLOCK := 35; EPROTO := 100; ENOPROTOOPT := 42; EOPNOTSUPP := 102; ENETDOWN := 50;
  ENETUNREACH := 51; ECONNABORTED := 53; ECONNRESET := 54; ENOBUFS := 55;
  EHOSTDOWN := 64; EHOSTUNREACH := 65; ECANCELED := 89; ENONET := None |}.

(** [asio::error::basic_errors]: an [errno] in the system category. *)
Definition sys (n : Z) : error_code := ErrorCode n system_category.

(** [error == asio::error::...]. *)
Definition is_error (e : error_code) (n : Z) : bool := bool_decide (e = sys n).

Lemma is_error_sys m n : is_error (sys m) n = (m =? n).
Proof.
  unfold is_error, sys. destruct (Z.eqb_spec m n) as [->|Hne].
  - by apply bool_decide_true.
  - apply bool_decide_false. congruence.
Qed.

(** [tcp::endpoint(tcp::v4(), port)] when no address is given, and the parsed one
    otherwise; parsing is asio's. *)
Definition bind_endpoint (make_address : string → result address) (addr : string) (port : Z)
    : result endpoint :=
  if bool_decide (addr = ""%string) then Returns (Endpoint (V4 0) port)
  else let! a := make_address addr in Returns (Endpoint a port).

End Net.
