(* ===== verification/Accept.v ===== *)
(** * reactor.h: the accept loops and AcceptControl

    The two accept loops as one machine over their suspension points and the points where
    they read [stopping], which another thread sets: binding, the retry policy with its
    skips, pauses and backoff, the hand-off of each connection, and the end. *)

From S2P Require Import Prelude Net.

Module Accept.
Import Net.

Section platform.
Context {P : Platform}.

(** ** Classification *)

Definition retryable_accept_error (e : error_code) : bool :=
  is_error e EMFILE || (ec_value e =? ENFILE) || is_error e ENOBUFS || is_error e ENOMEM ||
  is_error e EINTR || is_error e EAGAIN || is_error e EWOULDBLOCK.

(** The [switch] labels. *)
Definition connection_errnos : list Z :=
  [ECONNABORTED; ECONNRESET; EPROTO; ENETDOWN; ENETUNREACH; EHOSTDOWN; EHOSTUNREACH;
   EOPNOTSUPP; ENOPROTOOPT] ++ option_list ENONET.

Definition in_system (e : error_code) : bool := bool_decide (ec_category e = system_category).

Definition per_connection_accept_error (e : error_code) : bool :=
  if is_error e ECONNABORTED || is_error e ECONNRESET then true
  else if bool_decide (ec_value e ∈ connection_errnos) then in_system e
  else if apple && (ec_value e =? EINVAL) then in_system e
  else false.

(** ** AcceptControl *)

Record AcceptControl := mkControl {
  acceptor : bool;                   (* the [unique_ptr] is not null *)
  closed : bool;                     (* [acceptor->close] was called, the timer cancelled *)
  retry_delay : Z;                   (* milliseconds *)
  skipped : Z;
  bound : endpoint;
  stopping : bool;
  finished : bool;
  ready : bool;
  startup_error : option exn }.

Definition new_control : AcceptControl :=
  mkControl true false 10 0 (Endpoint (V4 0) 0) false false false None.

Definition set_retry (c : AcceptControl) (delay skips : Z) : AcceptControl :=
  mkControl (acceptor c) (closed c) delay skips (bound c) (stopping c) (finished c) (ready c)
    (startup_error c).
Definition set_stopping (c : AcceptControl) : AcceptControl :=
  mkControl (acceptor c) (closed c) (retry_delay c) (skipped c) (bound c) true (finished c) (ready c)
    (startup_error c).

(** [stop_on_owner]. Its cancellations make the calls the loop waits for return. *)
Definition stop_on_owner (c : AcceptControl) : AcceptControl :=
  mkControl (acceptor c) (closed c || acceptor c) (retry_delay c) (skipped c) (bound c)
    (stopping c) (finished c) (ready c) (startup_error c).

(** [listener_lost], given what [local_endpoint] answers. *)
Definition listener_lost (c : AcceptControl) (e : error_code) (local : error_code * endpoint)
    : bool :=
  if negb (ec_value e =? EINVAL) || negb (in_system e) then false
  else failed local.1 || negb (bool_decide (local.2 = bound c)).

(** What [retry] does up to its pause. *)
Inductive verdict :=
| Again                              (* [co_return true] at once *)
| Pause (per_connection : bool) (ms : Z)
| Rethrow (e : exn).

(** [retry] between its test of [stopping] and the timer. *)
Definition retry (c : AcceptControl) (e : error_code) (local : error_code * endpoint)
    : verdict * AcceptControl :=
  let per_connection := per_connection_accept_error e && negb (listener_lost c e local) in
  if per_connection then
    let skips := wrap32 (skipped c + 1) in
    let c := set_retry c (retry_delay c) skips in
    if skips <=? 64 then (Again, c) else (Pause true 1, c)
  else if negb (retryable_accept_error e) then (Rethrow (system_error e), c)
  else (Pause false (retry_delay c), set_retry c (Z.min (retry_delay c * 2) 1000) (skipped c)).

(** [listening]; [bound] was written just before. *)
Definition listening (c : AcceptControl) (ep : endpoint) : AcceptControl :=
  mkControl (acceptor c) (closed c) (retry_delay c) (skipped c) ep (stopping c) (finished c) true
    (startup_error c).

(** [wait_listening]: [None] while it blocks. *)
Definition wait_listening (c : AcceptControl) : option (result unit) :=
  if ready c || finished c then
    Some (if negb (ready c) then
            match startup_error c with
            | Some e => Throws e
            | None => Throws (runtime_error "TCP listener stopped during startup")
            end
          else Returns tt)
  else None.

(** [finish]; its answer says whether it reported a listener that died after startup, through
    the consumer's [L_EXC], whose exception nothing catches. *)
Definition finish (L_EXC : result unit) (c : AcceptControl) (error : option exn)
    : result bool * AcceptControl :=
  let was_listening := ready c in
  let report := bool_decide (is_Some error) && was_listening in
  let done := mkControl false (closed c) (retry_delay c) (skipped c) (bound c) (stopping c) true
                (ready c) error in
  match L_EXC with
  | Throws e => if report then (Throws e, c) else (Returns report, done)
  | Returns _ => (Returns report, done)
  end.

(** [wait]: [None] while it blocks. *)
Definition wait (c : AcceptControl) : option unit := if finished c then Some tt else None.

(** ** The loops *)

(** What a loop is started with. [accept_loop] has the one reactor; [shared_accept_loop]
    goes round all of them and does not look at [reuse_port]. *)
Record config := mkConfig {
  shared : bool;
  reactors : list nat;
  cfg_bind : BindOptions;
  cfg_port : Z;
  bounded : bool }.                  (* there is a [ConnectionAdmission] *)

(** The calls that set the listener up, in order. *)
Inductive setup_call :=
| Open | ReuseAddress | ReusePort | Bind (ep : endpoint) | Listen (backlog : Z) | LocalEndpoint.

Definition setup_calls (cfg : config) (ep : endpoint) : list setup_call :=
  [Open; ReuseAddress] ++
  (if negb (shared cfg) && reuse_port (cfg_bind cfg) then [ReusePort] else []) ++
  [Bind ep; Listen (backlog (cfg_bind cfg)); LocalEndpoint].

(** Each call returns or throws; the first that throws ends the setup. *)
Fixpoint run_setup (os : setup_call → option exn) (calls : list setup_call) : option exn :=
  match calls with
  | [] => None
  | c :: calls => match os c with Some e => Some e | None => run_setup os calls end
  end.

Definition setup (make_address : string → result address) (os : setup_call → option exn)
    (cfg : config) : option exn :=
  match bind_endpoint make_address (bind_address (cfg_bind cfg)) (cfg_port cfg) with
  | Throws e => Some e
  | Returns ep => run_setup os (setup_calls cfg ep)
  end.

(** Where the coroutine is. *)
Inductive apc :=
| Begin                              (* not yet resumed *)
| Setup                              (* past the first test of [stopping] *)
| Head                               (* [while (!stopping)] *)
| Accepting (r : nat)                (* suspended on [async_accept] *)
| Retry (e : error_code)             (* entering [retry] *)
| Deciding (e : error_code)          (* past its test of [stopping] *)
| Pausing (ms : Z)                   (* suspended on the timer *)
| Woke (timer_error : bool)          (* [!timer_error && !stopping] *)
| Accepted (r : nat)                 (* after a success: resets, tests [stopping] *)
| Admitting (r : nat)
| Launching (r : nat)
| Ended (x : option exn).            (* [finish] has run with this *)

(** What the loop did, newest first. *)
Inductive event :=
| Attempt (r : nat)
| Skipped | Backoff | Success (r : nat)
| Refused (r : nat) | Launched (r : nat) | Dropped (r : nat)
| Reported.                          (* a listener that died after startup *)

#[export] Instance event_eq_dec : EqDecision event.
Proof. solve_decision. Defined.

Record state := mkState { pc : apc; ctl : AcceptControl; next : nat; log : list event }.

(** What the outside answers, and the other thread's moves. *)
Inductive label :=
| Go                                              (* the coroutine runs on *)
| SetUp (os : setup_call → option exn) (ep : endpoint)
| AcceptDone (e : error_code)
| Local (answer : error_code * endpoint)          (* [local_endpoint] in [retry] *)
| TimerDone (e : error_code)
| Admit (lease : bool)                            (* [try_enter] *)
| Launch (out_of_memory : bool)                   (* [launch_session], [std::bad_alloc] *)
| Stop                                            (* [stopping.store(true)] *)
| StopOnOwner.                                    (* the posted [stop_on_owner] *)

Definition goto (s : state) (p : apc) : state := mkState p (ctl s) (next s) (log s).

(** The coroutine ends and its completion handler runs [finish], with an [L_EXC] that keeps its
    contract and does not throw. *)
Definition leave (s : state) (x : option exn) : state :=
  let r := finish (Returns tt) (ctl s) x in
  mkState (Ended x) r.2 (next s) (match r.1 with Returns true => Reported :: log s | _ => log s end).

(** Suspended: nothing of the coroutine runs on its loop. *)
Definition suspended (p : apc) : bool :=
  match p with Begin | Accepting _ | Pausing _ | Ended _ => true | _ => false end.

(** The reactor of the next attempt, and the one after it. *)
Definition destination (cfg : config) (n : nat) : nat := nth n (reactors cfg) 0%nat.
Definition rotate (cfg : config) (n : nat) : nat :=
  if decide (S n = length (reactors cfg)) then 0%nat else S n.

Definition step (make_address : string → result address) (cfg : config) (s : state) (l : label)
    : option state :=
  let c := ctl s in
  match l, pc s with
  | Stop, _ => Some (mkState (pc s) (set_stopping c) (next s) (log s))
  | StopOnOwner, p =>
      if suspended p && stopping c
      then Some (mkState p (stop_on_owner c) (next s) (log s)) else None
  | Go, Begin => Some (if stopping c then leave s None else goto s Setup)
  | SetUp os ep, Setup =>
      Some (match setup make_address os cfg with
            | Some e => leave s (Some e)
            | None => mkState Head (listening c ep) (next s) (log s)
            end)
  | Go, Head =>
      let r := destination cfg (next s) in
      Some (if stopping c then leave s None
            else mkState (Accepting r) c (rotate cfg (next s)) (Attempt r :: log s))
  | AcceptDone e, Accepting r => Some (goto s (if failed e then Retry e else Accepted r))
  | Go, Retry e => Some (if stopping c then leave s None else goto s (Deciding e))
  | Local answer, Deciding e =>
      let r := retry c e answer in
      Some (match r.1 with
            | Again => mkState Head r.2 (next s) (Skipped :: log s)
            | Pause per_connection ms =>
                mkState (Pausing ms) r.2 (next s)
                  ((if per_connection then Skipped else Backoff) :: log s)
            | Rethrow x => leave s (Some x)
            end)
  | TimerDone e, Pausing _ => Some (goto s (Woke (failed e)))
  | Go, Woke timer_error =>
      Some (if negb timer_error && negb (stopping c) then goto s Head else leave s None)
  | Go, Accepted r =>
      let s := mkState (pc s) (set_retry c 10 0) (next s) (Success r :: log s) in
      Some (if stopping c then leave s None else goto s (Admitting r))
  | Admit lease, Admitting r =>
      Some (if bounded cfg && negb lease
            then mkState Head c (next s) (Refused r :: log s)
            else goto s (Launching r))
  | Launch out_of_memory, Launching r =>
      Some (if out_of_memory
            then mkState (Retry (sys ENOMEM)) c (next s) (Dropped r :: log s)
            else mkState Head c (next s) (Launched r :: log s))
  | _, _ => None
  end.

Definition initial : state := mkState Begin new_control 0 [].

(** ** Lemmas *)

(** The errors since the last connection. *)
Fixpoint recent (log : list event) : list event :=
  match log with
  | [] => []
  | Success _ :: _ => []
  | e :: log => e :: recent log
  end.

Definition skips (log : list event) : Z :=
  total (λ e, match e with Skipped => 1 | _ => 0 end) (recent log).
Definition backoffs (log : list event) : nat :=
  length (filter (λ e, e = Backoff) (recent log)).

(** The reactors of the attempts, oldest first. *)
Fixpoint attempts (log : list event) : list nat :=
  match log with
  | [] => []
  | Attempt r :: log => attempts log ++ [r]
  | _ :: log => attempts log
  end.

Definition is_success (e : event) : Z := match e with Success _ => 1 | _ => 0 end.
Definition is_outcome (e : event) : Z :=
  match e with Refused _ | Launched _ | Dropped _ => 1 | _ => 0 end.

(** A connection accepted and not yet refused, launched or dropped. *)
Definition in_hand (p : apc) : Z := match p with Admitting _ | Launching _ => 1 | _ => 0 end.

(** The reactor the coroutine is busy with. *)
Definition busy_with (p : apc) : option nat :=
  match p with
  | Accepting r | Accepted r | Admitting r | Launching r => Some r
  | _ => None
  end.

Section loop.
Context (make_address : string → result address) (cfg : config).

(** The retry state is a function of the errors since the last connection. *)
Definition retry_inv (s : state) : Prop :=
  retry_delay (ctl s) = Z.min (10 * 2 ^ Z.of_nat (backoffs (log s))) 1000 ∧
  skipped (ctl s) = wrap32 (skips (log s)).

Lemma backoffs_cons e l :
  backoffs (e :: l) =
  match e with Backoff => S (backoffs l) | Success _ => 0%nat | _ => backoffs l end.
Proof. unfold backoffs. by destruct e. Qed.

Lemma skips_cons e l :
  skips (e :: l) = match e with Skipped => skips l + 1 | Success _ => 0 | _ => skips l end.
Proof. unfold skips. destruct e; simpl; lia. Qed.

Lemma min_double n :
  Z.min (Z.min (10 * 2 ^ Z.of_nat n) 1000 * 2) 1000 = Z.min (10 * 2 ^ Z.of_nat (S n)) 1000.
Proof. rewrite Nat2Z.inj_succ, Z.pow_succ_r by lia. lia. Qed.

Lemma wrap32_succ z : wrap32 (wrap32 z + 1) = wrap32 (z + 1).
Proof. unfold wrap32. by rewrite Zplus_mod_idemp_l. Qed.

Lemma leave_ctl s x :
  retry_delay (ctl (leave s x)) = retry_delay (ctl s) ∧
  skipped (ctl (leave s x)) = skipped (ctl s) ∧
  backoffs (log (leave s x)) = backoffs (log s) ∧ skips (log (leave s x)) = skips (log s).
Proof. unfold leave; simpl. case_match; by rewrite ?backoffs_cons, ?skips_cons. Qed.

Lemma retry_inv_leave s x : retry_inv s → retry_inv (leave s x).
Proof. unfold retry_inv. destruct (leave_ctl s x) as (-> & -> & -> & ->). done. Qed.

(** [retry] keeps it, its events logged. *)
Lemma retry_inv_decide s e local p n v c :
  retry_inv s → retry (ctl s) e local = (v, c) →
  match v with
  | Again => retry_inv (mkState p c n (Skipped :: log s))
  | Pause b _ => retry_inv (mkState p c n ((if b then Skipped else Backoff) :: log s))
  | Rethrow _ => c = ctl s
  end.
Proof.
  intros [Hd Hs] Hr. unfold retry in Hr. repeat case_match; simplify_eq; try done;
    unfold retry_inv; simpl; rewrite backoffs_cons, skips_cons, ?Hd, ?Hs, ?wrap32_succ, ?min_double;
    done.
Qed.

Lemma retry_inv_step s l s' :
  retry_inv s → step make_address cfg s l = Some s' → retry_inv s'.
Proof.
  intros Hi Hs. unfold step in Hs. destruct l as [| | |local| | | | |].
  4:{ destruct (pc s); try done.
      pose proof (λ p, retry_inv_decide s e local p (next s) _ _ Hi (surjective_pairing _)) as Hd.
      destruct (retry (ctl s) e local) as [[] c]; simplify_eq/=; try apply (Hd _).
      by apply retry_inv_leave. }
  all: destruct (pc s) eqn:Hpc; simplify_eq; try done; repeat case_match; simplify_eq; try done;
    try (by apply retry_inv_leave);
    unfold retry_inv in *; simpl in *; by rewrite ?backoffs_cons, ?skips_cons.
Qed.

(** The attempts go round the reactors. *)
Definition round_robin (s : state) : Prop :=
  let n := length (reactors cfg) in
  let k := length (attempts (log s)) in
  next s = (k mod n)%nat ∧
  attempts (log s) = (λ i, destination cfg (i mod n)%nat) <$> seq 0 k.

Lemma rotate_mod k :
  (0 < length (reactors cfg))%nat →
  rotate cfg (k mod length (reactors cfg))%nat = (S k mod length (reactors cfg))%nat.
Proof.
  intros Hn. set (n := length (reactors cfg)) in *. unfold rotate. fold n.
  pose proof (Nat.mod_upper_bound k n ltac:(lia)). pose proof (Nat.div_mod k n ltac:(lia)).
  case_decide as Hd.
  - symmetry. replace (S k) with (n * S (k / n) + 0)%nat by lia.
    rewrite Nat.add_comm, Nat.mul_comm, Nat.Div0.mod_add. by apply Nat.mod_small.
  - symmetry. replace (S k) with (S (k mod n) + k / n * n)%nat by lia.
    rewrite Nat.Div0.mod_add. apply Nat.mod_small. lia.
Qed.

Lemma round_robin_step s l s' :
  (0 < length (reactors cfg))%nat → round_robin s →
  step make_address cfg s l = Some s' → round_robin s'.
Proof.
  intros Hn Hi Hs. assert (Hl : ∀ x, round_robin (leave s x)).
  { intros x. unfold leave, round_robin in *; simpl in *. by case_match. }
  unfold step in Hs.
  destruct l, (pc s); simplify_eq; try done; repeat case_match; simplify_eq; try done;
    try apply Hl; unfold round_robin in *; simpl in *; try done.
  rewrite length_app, Nat.add_1_r, seq_S, fmap_app; simpl. destruct Hi as [Hk Ha].
  rewrite <-rotate_mod, <-Hk by done. split; [done|]. by rewrite <-Ha, Hk.
Qed.
(** The flags the waiters read tell where the loop is. *)
Definition startup_inv (s : state) : Prop :=
  match pc s with
  | Begin | Setup => ready (ctl s) = false ∧ finished (ctl s) = false ∧ acceptor (ctl s) = true
  | Ended x => finished (ctl s) = true ∧ acceptor (ctl s) = false ∧ startup_error (ctl s) = x
  | _ => ready (ctl s) = true ∧ finished (ctl s) = false ∧ acceptor (ctl s) = true
  end.

Lemma startup_inv_step s l s' :
  startup_inv s → step make_address cfg s l = Some s' → startup_inv s'.
Proof.
  intros Hi Hs. unfold step, retry in Hs.
  destruct l, (pc s) eqn:Hpc; simplify_eq; try done; repeat case_match; simplify_eq;
    unfold startup_inv in *; rewrite ?Hpc in *; simplify_eq/=; repeat case_match; naive_solver.
Qed.

Lemma startup_inv_reachable s : reachable (step make_address cfg) initial s → startup_inv s.
Proof. apply invariant_rule; [done|]. intros ? ? ?. apply startup_inv_step. Qed.

(** [wait] returns only for a loop that has ended. *)
Lemma wait_ended s :
  reachable (step make_address cfg) initial s → wait (ctl s) = Some tt → ∃ x, pc s = Ended x.
Proof.
  intros Hi%startup_inv_reachable Hw. unfold startup_inv, wait in *.
  destruct (pc s); destruct Hi as (H1 & H2 & H3); rewrite ?H1, ?H2 in Hw; eauto; done.
Qed.

(** Every connection accepted is refused, launched, dropped or in hand, but for one the stop
    may catch; each goes to the reactor of its attempt. *)
Definition unsettled (s : state) : Z :=
  total is_success (log s) - total is_outcome (log s) - in_hand (pc s).

Definition account_inv (s : state) : Prop :=
  unsettled s = 0 ∨ unsettled s = 1 ∧ pc s = Ended None ∧ stopping (ctl s) = true.

Lemma unsettled_leave s x :
  in_hand (pc s) = 0 → unsettled (leave s x) = unsettled s.
Proof. intros Hh. unfold unsettled, leave; simpl. rewrite Hh. case_match; simpl; lia. Qed.

Lemma account_inv_step s l s' :
  account_inv s → step make_address cfg s l = Some s' → account_inv s'.
Proof.
  intros Hi Hs. unfold account_inv in *. unfold step in Hs.
  destruct l, (pc s) eqn:Hpc; simplify_eq; try done; repeat case_match; simplify_eq;
    try (destruct Hi as [Hi|(_ & Hi & _)]; [|done]);
    try (left; rewrite unsettled_leave; by rewrite ?Hpc);
    try (left; unfold unsettled in *; rewrite ?Hpc in *; simpl in *; lia).
  - right. unfold unsettled in *. rewrite Hpc in *; simpl in *. split_and!; [lia|done|done].
  - unfold unsettled in *; simpl. rewrite ?Hpc in *; simpl in *. naive_solver.
  - unfold unsettled in *; simpl. rewrite ?Hpc in *; simpl in *. naive_solver.
Qed.

Fixpoint directed (l : list event) : Prop :=
  match l with
  | [] => True
  | (Success r | Refused r | Launched r | Dropped r) :: l => last (attempts l) = Some r ∧ directed l
  | _ :: l => directed l
  end.

Definition directed_inv (s : state) : Prop :=
  directed (log s) ∧ ∀ r, busy_with (pc s) = Some r → last (attempts (log s)) = Some r.

Lemma directed_inv_step s l s' :
  directed_inv s → step make_address cfg s l = Some s' → directed_inv s'.
Proof.
  intros [Hd Hb] Hs. unfold step in Hs.
  destruct l, (pc s) eqn:Hpc; simplify_eq; try done; repeat case_match; simplify_eq;
    unfold directed_inv, leave in *; simplify_eq/=; rewrite ?Hpc;
    repeat case_match; simplify_eq/=; split_and?; eauto; try naive_solver.
  intros r [= <-]. by rewrite last_snoc.
Qed.

(** With [stopping] set, the steps left. *)
Definition stop_steps (p : apc) : Z :=
  match p with
  | Ended _ => 0
  | Begin | Head | Retry _ | Woke _ | Accepted _ => 1
  | Setup | Accepting _ | Pausing _ | Launching _ => 2
  | Deciding _ | Admitting _ => 3
  end.

(** A move of the coroutine, not of the thread that stops it. *)
Definition own (l : label) : bool :=
  match l with Stop | StopOnOwner => false | _ => true end.

Lemma stop_step s l s' :
  stopping (ctl s) = true → own l = true → step make_address cfg s l = Some s' →
  stopping (ctl s') = true ∧ stop_steps (pc s') < stop_steps (pc s).
Proof.
  intros Hst Hl Hs. unfold step, retry in Hs. rewrite Hst in Hs.
  destruct l, (pc s) eqn:Hpc; simplify_eq/=; repeat case_match; simplify_eq/=;
    repeat case_match; simplify_eq/=; (split; [done|lia]).
Qed.

Lemma stop_exec s ls s' :
  stopping (ctl s) = true → forallb own ls = true → exec (step make_address cfg) s ls = Some s' →
  Z.of_nat (length ls) + stop_steps (pc s') ≤ stop_steps (pc s).
Proof.
  revert s. induction ls as [|l ls IH]; intros s Hst Hl He; simpl in *; [simplify_eq; lia|].
  reflect_bools. destruct (step _ _ s l) as [t|] eqn:Ht; [|done]. simpl in He.
  destruct (stop_step s l t Hst H Ht) as [Hst' Hlt]. pose proof (IH t Hst' H0 He). lia.
Qed.

(** A stop once asked for stays asked for. *)
Lemma step_stays s l s' :
  step make_address cfg s l = Some s' →
  (stopping (ctl s) = true → stopping (ctl s') = true) ∧ (closed (ctl s) = true → closed (ctl s') = true).
Proof.
  intros Hs. unfold step, retry in Hs.
  destruct l, (pc s); simplify_eq/=; repeat case_match; simplify_eq/=; split; try done;
    intros ->; by rewrite ?orb_true_l.
Qed.

(** The coroutine is busy with the reactor it went on to at the head of its loop. *)
Lemma step_busy s l s' r :
  step make_address cfg s l = Some s' → busy_with (pc s') = Some r →
  busy_with (pc s) = Some r ∨ r = destination cfg (next s).
Proof.
  intros Hs Hb. unfold step, retry in Hs.
  destruct l, (pc s) eqn:Hpc; simplify_eq/=; repeat case_match; simplify_eq/=; auto;
    rewrite ?Hpc in *; simplify_eq/=; auto.
Qed.

(** A move that comes without anybody connecting: a pending accept returns by itself only
    once its acceptor is closed. *)
Definition due (s : state) (l : label) : bool :=
  match l with AcceptDone _ => closed (ctl s) | Stop | StopOnOwner => false | _ => true end.

Lemma due_enabled s :
  closed (ctl s) = true → (∀ x, pc s ≠ Ended x) →
  ∃ l s', due s l = true ∧ step make_address cfg s l = Some s'.
Proof.
  intros Hc Hne. destruct (pc s) eqn:Hpc.
  - exists Go. unfold step. rewrite Hpc. eauto.
  - exists (SetUp (λ _, None) (Endpoint (V4 0) 0)). unfold step. rewrite Hpc. eauto.
  - exists Go. unfold step. rewrite Hpc. eauto.
  - exists (AcceptDone no_error). unfold step. rewrite Hpc. eauto.
  - exists Go. unfold step. rewrite Hpc. eauto.
  - exists (Local (no_error, Endpoint (V4 0) 0)). unfold step. rewrite Hpc. eauto.
  - exists (TimerDone no_error). unfold step. rewrite Hpc. eauto.
  - exists Go. unfold step. rewrite Hpc. eauto.
  - exists Go. unfold step. rewrite Hpc. eauto.
  - exists (Admit true). unfold step. rewrite Hpc. eauto.
  - exists (Launch false). unfold step. rewrite Hpc. eauto.
  - naive_solver.
Qed.
(** A per-connection error is of the system category and one of the listed ones. *)
Definition skip_errnos : list Z := connection_errnos ++ (if apple then [EINVAL] else []).
Definition retry_errnos : list Z := [EMFILE; ENFILE; ENOBUFS; ENOMEM; EINTR; EAGAIN; EWOULDBLOCK].

Lemma per_connection_value e :
  per_connection_accept_error e = true → ec_value e ∈ skip_errnos ∧ ec_category e = system_category.
Proof.
  unfold per_connection_accept_error, skip_errnos, in_system. intros He.
  destruct (is_error e ECONNABORTED || is_error e ECONNRESET) eqn:H1.
  { apply orb_true_iff in H1 as [H1|H1]; apply bool_decide_eq_true in H1 as ->; simpl;
      (split; [unfold connection_errnos; set_solver|done]). }
  destruct (bool_decide (ec_value e ∈ connection_errnos)) eqn:H2.
  { apply bool_decide_eq_true in H2, He. set_solver. }
  destruct apple; simpl in He; [|done]. destruct (ec_value e =? EINVAL) eqn:H3; [|done].
  reflect_bools. apply bool_decide_eq_true in He. set_solver.
Qed.

Lemma retryable_value e : retryable_accept_error e = true → ec_value e ∈ retry_errnos.
Proof.
  unfold retryable_accept_error, is_error, retry_errnos. intros He.
  repeat (apply orb_true_iff in He as [He|He]); try apply bool_decide_eq_true in He as ->;
    reflect_bools; simpl; set_solver.
Qed.

Lemma errors_disjoint :
  Forall (λ v, v ∉ retry_errnos) skip_errnos →
  ∀ e, (retryable_accept_error e && per_connection_accept_error e)%bool = false.
Proof.
  intros Hd e. destruct (retryable_accept_error e) eqn:Hr, (per_connection_accept_error e) eqn:Hp;
    try done. apply retryable_value in Hr. apply per_connection_value in Hp as [Hp _].
  by pose proof (Forall_elem _ _ _ Hd Hp).
Qed.
End loop.

End platform.

(** ** Theorems *)

(** On Linux and on macOS no error is both transient for the listener and the fault of
    one connection, so the two treatments in [retry] never compete; [EINVAL] skips a
    connection on macOS only. *)
Theorem accept_errors_disjoint :
  (∀ e, (retryable_accept_error (P := linux) e && per_connection_accept_error (P := linux) e)%bool
        = false) ∧
  (∀ e, (retryable_accept_error (P := macos) e && per_connection_accept_error (P := macos) e)%bool
        = false) ∧
  per_connection_accept_error (P := linux) (sys 22) = false ∧
  per_connection_accept_error (P := macos) (sys 22) = true.
Proof.
  split_and!; [| |reflexivity|reflexivity].
  - apply (errors_disjoint (P := linux)). by apply (bool_decide_unpack _).
  - apply (errors_disjoint (P := macos)). by apply (bool_decide_unpack _).
Qed.

Section theorems.
Context {P : Platform} (make_address : string → result address) (cfg : config).
Abbreviation reach := (reachable (step make_address cfg) initial).

(** C36: the retry policy: an error of one connection is skipped at once the first 64 times
    since the last connection and after a pause of 1 ms from then on; a lack of resources
    pauses 10 ms, doubling with each since the last connection up to a second; any other
    error ends the loop with it, and is reported when the listener was up. *)
Theorem accept_retry_policy s e local s' :
  reach s → pc s = Deciding e → step make_address cfg s (Local local) = Some s' →
  skips (log s) < 2 ^ 32 - 1 →
  let per_connection :=
    (per_connection_accept_error e && negb (listener_lost (ctl s) e local))%bool in
  if per_connection then
    log s' = Skipped :: log s ∧ pc s' = if decide (skips (log s) < 64) then Head else Pausing 1
  else if retryable_accept_error e then
    log s' = Backoff :: log s ∧
    pc s' = Pausing (Z.min (10 * 2 ^ Z.of_nat (backoffs (log s))) 1000)
  else pc s' = Ended (Some (system_error e)) ∧ log s' = Reported :: log s.
Proof.
  intros Hr Hpc Hs Hlt.
  destruct (invariant_rule (step make_address cfg) retry_inv initial) with s as [Hd Hsk];
    [done|intros ? ? ?; apply retry_inv_step|done|].
  assert (Hready : ready (ctl s) = true).
  { assert (Hi : startup_inv s); [|unfold startup_inv in Hi; rewrite Hpc in Hi; tauto].
    revert Hr. apply (invariant_rule _ startup_inv); [done|]. intros ? ? ?. apply startup_inv_step. }
  assert (H0 : 0 ≤ skips (log s)) by (apply total_nonneg; by intros []).
  unfold step in Hs. rewrite Hpc in Hs. unfold retry in Hs.
  rewrite Hsk, wrap32_succ, wrap32_small in Hs by lia.
  destruct (per_connection_accept_error e && negb (listener_lost (ctl s) e local))%bool; simpl in *.
  - destruct (skips (log s) + 1 <=? 64) eqn:Hle; reflect_bools; simplify_eq/=; (split; [done|]).
    + by rewrite decide_True by lia.
    + by rewrite decide_False by lia.
  - destruct (retryable_accept_error e); simplify_eq/=; rewrite ?Hd; [done|].
    unfold leave, finish; simpl. by rewrite Hready.
Qed.
End theorems.

(** A listener on port 80 of two reactors. *)
Definition two_reactors : config := mkConfig true [5; 7]%nat default_bind 80 false.
Definition no_names (a : string) : result address := Throws (invalid_argument a).

(** The third accept in a row finds no descriptor. *)
Definition pressure : list label :=
  [Go; SetUp (λ _, None) (Endpoint (V4 0) 80); Go; AcceptDone (sys 24); Go;
   Local (no_error, Endpoint (V4 0) 80); TimerDone no_error; Go; Go; AcceptDone (sys 104); Go;
   Local (no_error, Endpoint (V4 0) 80); Go; AcceptDone (sys 24); Go].

Definition here : error_code * endpoint := (no_error, Endpoint (V4 0) 80).
Definition pressed : state :=
  default initial (exec (step (P := linux) no_names two_reactors) initial pressure).
Definition paused : state :=
  default initial (step (P := linux) no_names two_reactors pressed (Local here)).

Lemma accept_retry_policy_witness : log paused = Backoff :: log pressed ∧ pc paused = Pausing 20.
Proof.
  apply (accept_retry_policy (P := linux) no_names two_reactors pressed (sys 24) here paused).
  - apply (exec_reachable _ _ pressure). vm_compute. reflexivity.
  - reflexivity.
  - vm_compute. reflexivity.
  - vm_compute. reflexivity.
Defined.

Section more_theorems.
Context {P : Platform} (make_address : string → result address) (cfg : config).
Abbreviation reach := (reachable (step make_address cfg) initial).

(** The loop ends only when it is told to stop, when setting up the listener fails (with
    that error), when an error is neither transient nor one connection's (with that error),
    or when the wait of its own pause fails; every other error it survives. *)
Theorem accept_ends_why s l s' x :
  step make_address cfg s l = Some s' → (∀ y, pc s ≠ Ended y) → pc s' = Ended x →
  (x = None ∧ stopping (ctl s) = true) ∨
  (∃ os ep e, l = SetUp os ep ∧ setup make_address os cfg = Some e ∧ x = Some e) ∨
  (∃ e local, l = Local local ∧ pc s = Deciding e ∧ x = Some (system_error e) ∧
     retryable_accept_error e = false ∧
     (per_connection_accept_error e = false ∨ listener_lost (ctl s) e local = true)) ∨
  (x = None ∧ pc s = Woke true).
Proof.
  intros Hs Hne He. unfold step in Hs. destruct l as [|os ep| |local| | | | |].
  4:{ destruct (pc s) as [| | | | |e| | | | | |] eqn:Hpc; try done. right; right; left.
      unfold retry in Hs. exists e, local.
      destruct (per_connection_accept_error e) eqn:H1, (listener_lost (ctl s) e local) eqn:H2,
        (retryable_accept_error e) eqn:H3; simpl in Hs; repeat case_match; simplify_eq/=; eauto 10. }
  all: destruct (pc s) eqn:Hpc; simplify_eq; try done; repeat case_match; simplify_eq/=;
    try (by left); try naive_solver.
  destruct timer_error, (stopping (ctl s)); simplify_eq/=; auto 10.
Qed.

(** C15: attempts go round the reactors in order; every connection accepted is handed to the
    reactor of its attempt, refused by the bound or dropped for lack of memory, and never
    two of these, except the one a stop may catch between the accept and the hand-off. *)
Theorem accept_accounts s :
  reach s → (0 < length (reactors cfg))%nat →
  attempts (log s) =
    (λ i, destination cfg (i mod length (reactors cfg))%nat) <$> seq 0 (length (attempts (log s))) ∧
  directed (log s) ∧
  let left := total is_success (log s) - total is_outcome (log s) - in_hand (pc s) in
  left = 0 ∨ left = 1 ∧ pc s = Ended None ∧ stopping (ctl s) = true.
Proof.
  intros Hr Hn. split_and!.
  - assert (Hi : round_robin cfg s); [|apply Hi]. revert Hr.
    apply (invariant_rule _ (round_robin cfg)); [split; [|done]; simpl; by rewrite Nat.Div0.mod_0_l|].
    intros ? ? ?. by apply round_robin_step.
  - assert (Hi : directed_inv s); [|apply Hi]. revert Hr.
    apply (invariant_rule _ directed_inv); [done|]. intros ? ? ?. apply directed_inv_step.
  - revert Hr. apply (invariant_rule _ account_inv); [by left|]. intros ? ? ?. apply account_inv_step.
Qed.

(** C16: the waiters: [start] blocks in [wait_listening] exactly until the listener is up or
    its setup has failed, and then gets the setup's own error, or the startup one when the
    loop was stopped first; [stop] blocks in [wait] exactly until the loop has ended; and the
    acceptor exists as long as the loop uses it. *)
Theorem accept_waiters s :
  reach s →
  acceptor (ctl s) = negb (finished (ctl s)) ∧
  match pc s with
  | Begin | Setup => wait_listening (ctl s) = None ∧ wait (ctl s) = None
  | Ended x =>
      wait (ctl s) = Some tt ∧
      wait_listening (ctl s) = Some (
        if ready (ctl s) then Returns tt
        else Throws (default (runtime_error "TCP listener stopped during startup") x))
  | _ => wait_listening (ctl s) = Some (Returns tt) ∧ wait (ctl s) = None
  end.
Proof.
  intros Hi%startup_inv_reachable. unfold startup_inv, wait_listening, wait in *.
  destruct (pc s) as [| | | | | | | | | | |x]; destruct Hi as (H1 & H2 & H3);
    rewrite ?H1, ?H2, ?H3; simpl; try done. rewrite orb_true_r.
  destruct (ready (ctl s)); simpl; [done|]. by destruct x.
Qed.

(** The end of a loop whose report throws: [finish] passes on what [L_EXC] throws when it
    reports a listener that died after startup, and then neither has the acceptor been
    destroyed nor does [wait] return; in every other case it marks the loop finished, with its
    error, and destroys the acceptor. *)
Theorem finish_hook s hook x :
  reach s → (∀ y, pc s ≠ Ended y) →
  let r := finish hook (ctl s) x in
  (∀ e, r.1 = Throws e ↔ hook = Throws e ∧ is_Some x ∧ ready (ctl s) = true) ∧
  match r.1 with
  | Throws _ => wait r.2 = None ∧ acceptor r.2 = true
  | Returns reported =>
      reported = (bool_decide (is_Some x) && ready (ctl s))%bool ∧ wait r.2 = Some tt ∧
      acceptor r.2 = false ∧ startup_error r.2 = x
  end.
Proof.
  intros Hi%startup_inv_reachable Hne r.
  assert (Hf : finished (ctl s) = false ∧ acceptor (ctl s) = true).
  { unfold startup_inv in Hi. destruct (pc s) as [| | | | | | | | | | |y]; try (by destruct Hi as (? & ? & ?)).
    by destruct (Hne y). }
  destruct Hf as [Hf Ha]. unfold r, finish, wait. destruct hook as [[]|h]; simpl.
  - split_and!; try done. intros e. naive_solver.
  - destruct (bool_decide_reflect (is_Some x)) as [Hx|Hx], (ready (ctl s)) eqn:Hr; simpl;
      rewrite ?Hf, ?Ha; (split; [naive_solver|]); split_and?; try done.
Qed.

(** Once told to stop, the loop ends within three moves of its own, whatever the calls it
    waits for answer; and once [stop_on_owner] has closed the acceptor it always has a move
    that comes without anybody connecting, until it has ended. *)
Theorem accept_stops s ls s' :
  stopping (ctl s) = true → forallb own ls = true → exec (step make_address cfg) s ls = Some s' →
  (length ls ≤ 3)%nat ∧
  (closed (ctl s') = true →
   (∃ x, pc s' = Ended x) ∨ ∃ l t, due s' l = true ∧ step make_address cfg s' l = Some t).
Proof.
  intros Hst Hl He. pose proof (stop_exec make_address cfg s ls s' Hst Hl He). split.
  - assert (0 ≤ stop_steps (pc s')) by (by destruct (pc s')).
    assert (stop_steps (pc s) ≤ 3) by (by destruct (pc s)). lia.
  - intros Hc. destruct (decide (stop_steps (pc s') = 0)) as [|Hne].
    + left. destruct (pc s'); try done. eauto.
    + right. apply due_enabled; [done|]. intros x Hx. by rewrite Hx in Hne.
Qed.
End more_theorems.

Lemma accept_ends_why_witness :
  ∃ s, step (P := linux) no_names two_reactors
         (mkState (Deciding (sys 9)) new_control 0 []) (Local here) = Some s ∧
    pc s = Ended (Some (system_error (sys 9))) ∧
    ((Some (system_error (sys 9)) = None ∧ stopping new_control = true) ∨
     (∃ os ep e, Local here = SetUp os ep ∧ setup no_names os two_reactors = Some e ∧
        Some (system_error (sys 9)) = Some e) ∨
     (∃ e local, Local here = Local local ∧ Deciding (sys 9) = Deciding e ∧
        Some (system_error (sys 9)) = Some (system_error e) ∧
        retryable_accept_error (P := linux) e = false ∧
        (per_connection_accept_error (P := linux) e = false ∨
         listener_lost (P := linux) new_control e local = true)) ∨
     (Some (system_error (sys 9)) = None ∧ Deciding (sys 9) = Woke true)).
Proof.
  eexists. split; [vm_compute; reflexivity|]. split; [reflexivity|].
  eapply (accept_ends_why (P := linux) no_names two_reactors
    (mkState (Deciding (sys 9)) new_control 0 []) (Local here)).
  - vm_compute. reflexivity.
  - discriminate.
  - reflexivity.
Defined.

Lemma accept_accounts_witness :
  attempts (log pressed) = [5; 7; 5]%nat ∧ directed (log pressed).
Proof.
  destruct (accept_accounts (P := linux) no_names two_reactors pressed) as (Ha & Hd & _).
  - apply (exec_reachable _ _ pressure). vm_compute. reflexivity.
  - vm_compute. lia.
  - split; [exact Ha|exact Hd].
Defined.

Lemma accept_waiters_witness :
  acceptor (ctl pressed) = true ∧ wait_listening (ctl pressed) = Some (Returns tt) ∧
  wait (ctl pressed) = None.
Proof.
  apply (accept_waiters (P := linux) no_names two_reactors pressed).
  apply (exec_reachable _ _ pressure). vm_compute. reflexivity.
Defined.

Lemma finish_hook_witness :
  wait (finish (Throws bad_alloc) (ctl pressed) (Some (system_error (sys 9)))).2 = None ∧
  acceptor (finish (Throws bad_alloc) (ctl pressed) (Some (system_error (sys 9)))).2 = true.
Proof.
  destruct (finish_hook (P := linux) no_names two_reactors pressed (Throws bad_alloc)
    (Some (system_error (sys 9)))) as [_ H].
  - apply (exec_reachable _ _ pressure). vm_compute. reflexivity.
  - intros y. vm_compute. discriminate.
  - exact H.
Defined.

(** Paused in the backoff, told to stop, the pause cut short. *)
Definition stopped : state :=
  default initial (exec (step (P := linux) no_names two_reactors) paused [Stop; StopOnOwner]).
Definition over : state :=
  default initial (exec (step (P := linux) no_names two_reactors) stopped
    [TimerDone (sys 125); Go]).

Lemma accept_stops_witness :
  pc over = Ended None ∧ (2 ≤ 3)%nat ∧
  (closed (ctl over) = true →
   (∃ x, pc over = Ended x) ∨ ∃ l t, due over l = true ∧
      step (P := linux) no_names two_reactors over l = Some t).
Proof.
  split; [reflexivity|].
  apply (accept_stops (P := linux) no_names two_reactors stopped [TimerDone (sys 125); Go] over).
  - reflexivity.
  - reflexivity.
  - vm_compute. reflexivity.
Defined.

End Accept.
