(* ===== verification/Session.v ===== *)
(** * reactor.h: SessionTicket, SessionControl, run_session, launch_session, and the
    session side of Reactor

    A connection from the accept to the end of its frame: its admission, its place in the
    session count, its hand-off between loops, its control on the abort list, and every way it
    can end. Any number of connections on any number of reactors, interleaved with shutdown. *)

From S2P Require Import Prelude Net Admission.

(** ** What the sessions need of the connection bound *)

(** A bound on live connections: entering succeeds exactly when there is room. *)
Class Bound (A : Type) := {
  active : A → Z;
  maximum : A → Z;
  try_enter : A → bool * A;
  leave : A → A;
  sound : A → Prop;
  sound_bound a : sound a → 0 ≤ active a ≤ maximum a;
  try_enter_sound a : sound a → sound (try_enter a).2;
  try_enter_maximum a : maximum (try_enter a).2 = maximum a;
  try_enter_admits a :
    sound a → (try_enter a).1 = true → active (try_enter a).2 = active a + 1;
  try_enter_refuses a :
    sound a → (try_enter a).1 = false → active (try_enter a).2 = active a ∧ active a = maximum a;
  leave_sound a : sound a → 0 < active a → sound (leave a);
  leave_maximum a : maximum (leave a) = maximum a;
  leave_active a : sound a → 0 < active a → active (leave a) = active a - 1 }.

(** [ConnectionAdmission] is one. *)
Definition admission_sound (s : Admission.State) : Prop :=
  0 ≤ Admission.active s ≤ Admission.maximum s ∧ Admission.maximum s ≤ u64_max.

#[export] Program Instance admission_bound : Bound Admission.State := {|
  active := Admission.active;
  maximum := Admission.maximum;
  try_enter := Admission.try_enter;
  leave := Admission.release;
  sound := admission_sound |}.
Next Obligation. intros a [H _]. exact H. Qed.
Next Obligation.
  intros a [H1 H2]. unfold admission_sound, Admission.try_enter.
  destruct (_ <=? _) eqn:Hle; simpl; reflect_bools; [done|].
  unfold u64_max in *. rewrite wrap64_small; lia.
Qed.
Next Obligation. intros a. unfold Admission.try_enter. by case_match. Qed.
Next Obligation.
  intros a [H1 H2] Ht. unfold Admission.try_enter in *.
  destruct (_ <=? _) eqn:Hle; [done|]. reflect_bools; simpl.
  unfold u64_max in *. rewrite wrap64_small; lia.
Qed.
Next Obligation.
  intros a [H1 H2] Ht. unfold Admission.try_enter in *.
  destruct (_ <=? _) eqn:Hle; [|done]. reflect_bools; simpl. lia.
Qed.
Next Obligation.
  intros a [H1 H2] Ha. unfold admission_sound, Admission.release; simpl.
  unfold u64_max in *. rewrite wrap64_small; lia.
Qed.
Next Obligation. done. Qed.
Next Obligation.
  intros a [H1 H2] Ha. unfold Admission.release; simpl.
  unfold u64_max in *. rewrite wrap64_small; lia.
Qed.

Module Session.
Import Net.

(** ** The code *)

(** A descriptor's socket: what [getpeername] answers for it (the length and the address),
    and whether it was shut down. *)
Record sock := mkSock { peername : option (Z * endpoint); shut : bool }.

(** [endpoint::capacity()]: the size of a [sockaddr_in6]. *)
Definition capacity : Z := 28.
Definition name_size (ep : endpoint) : Z := match ep_address ep with V4 _ => 16 | V6 _ => 28 end.

(** [shutdown_connection]: whether it calls [shutdown] on [descriptor]. *)
Definition names_peer (sockets : gmap Z sock) (descriptor : Z) (peer : endpoint) : bool :=
  match sockets !! descriptor with
  | Some (mkSock (Some (size, current)) _) =>
      if capacity <? size then false else bool_decide (current = peer)
  | _ => false
  end.

Definition shutdown_connection (sockets : gmap Z sock) (descriptor : Z) (peer : endpoint)
    : gmap Z sock :=
  if names_peer sockets descriptor peer
  then alter (λ k, mkSock (peername k) true) descriptor sockets else sockets.

(** A connection's way: its lease taken, its ticket taken, its launch posted to its own loop,
    its frame spawned, its control tracked and the session running, the frame's end before and
    after the ticket refunds the admission, the ticket gone. *)
Inductive stage :=
| Leased | Ticketed | Posted | Spawned
| Running (aborted forced : bool)
| Unwinding | Refunded | Ended.

Record conn := mkConn {
  home : nat;                  (* its reactor *)
  lease : bool;                (* the lease is engaged *)
  descriptor : Z;
  peer : endpoint;
  socket_open : bool;          (* its socket object still holds the descriptor *)
  at_stage : stage }.

(** The session side of [Reactor]. *)
Record reactor := mkReactor {
  sessions_ : Z;
  aborting_ : bool;
  walked_ : bool;
  forced_ : bool }.

Section sessions.
Context {A : Type} `{Bound A}.

Record state := mkState {
  admission : option A;
  reactors : list reactor;
  conns : list conn;
  sockets : gmap Z sock }.

Definition set_stage (c : conn) (st : stage) : conn :=
  mkConn (home c) (lease c) (descriptor c) (peer c) (socket_open c) st.
Definition put (s : state) (i : nat) (c : conn) : state :=
  mkState (admission s) (reactors s) (<[i := c]> (conns s)) (sockets s).
Definition set_reactor (s : state) (r : nat) (x : reactor) : state :=
  mkState (admission s) (<[r := x]> (reactors s)) (conns s) (sockets s).

(** [session_started] and [session_finished]. *)
Definition session_started (x : reactor) : reactor :=
  mkReactor (wrap64 (sessions_ x + 1)) (aborting_ x) (walked_ x) (forced_ x).
Definition session_finished (x : reactor) : reactor :=
  mkReactor (wrap64 (sessions_ x - 1)) (aborting_ x) (walked_ x) (forced_ x).

(** [wait_sessions]: [None] while it blocks. *)
Definition wait_sessions (x : reactor) : option unit :=
  if sessions_ x =? 0 then Some tt else None.

(** A frame ends: its control leaves the abort list, its socket closes. *)
Definition unwind (s : state) (i : nat) (c : conn) : state :=
  mkState (admission s) (reactors s)
    (<[i := mkConn (home c) (lease c) (descriptor c) (peer c) false Unwinding]> (conns s))
    (if socket_open c then delete (descriptor c) (sockets s) else sockets s).

(** [run_session] up to the session itself: [track] aborts and forces a late control at once. *)
Definition run_session (s : state) (i : nat) (c : conn) (x : reactor) : state :=
  let sk := if forced_ x then shutdown_connection (sockets s) (descriptor c) (peer c)
            else sockets s in
  let s := mkState (admission s) (reactors s) (conns s) sk in
  if walked_ x then unwind s i c
  else put s i (set_stage c (Running false (forced_ x))).

(** [launch_session] on the connection's own loop; [ok] is false when its frame cannot be
    allocated. *)
Definition launch_here (s : state) (i : nat) (c : conn) (ok : bool) : state :=
  if ok then put s i (set_stage c Spawned) else unwind s i c.

(** [launch_session]; [elsewhere] when it runs on another reactor's loop. *)
Definition launch_session (s : state) (i : nat) (c : conn) (elsewhere ok : bool) : state :=
  if elsewhere
  then if ok then put s i (set_stage c Posted) else unwind s i c
  else launch_here s i c ok.

(** [SessionControl::abort] and [force]. *)
Definition abort (c : conn) : conn :=
  match at_stage c with Running _ f => set_stage c (Running true f) | _ => c end.
Definition force (c : conn) : conn :=
  match at_stage c with Running a _ => set_stage c (Running a true) | _ => c end.

(** The controls tracked on reactor [r]. *)
Definition tracked (r : nat) (c : conn) : bool :=
  match at_stage c with Running _ _ => bool_decide (home c = r) | _ => false end.

(** [abort_all]: the exchange on the caller, then, for the one that set the flag, the walk on
    the loop. *)
Definition abort_all (s : state) (r : nat) (x : reactor) : state :=
  if aborting_ x then s
  else set_reactor s r (mkReactor (sessions_ x) true (walked_ x) (forced_ x)).
Definition abort_walk (s : state) (r : nat) (x : reactor) : state :=
  mkState (admission s)
    (<[r := mkReactor (sessions_ x) (aborting_ x) true (forced_ x)]> (reactors s))
    ((λ c, if tracked r c then abort c else c) <$> conns s) (sockets s).

Definition force_all (s : state) (r : nat) (x : reactor) : state :=
  mkState (admission s)
    (<[r := mkReactor (sessions_ x) (aborting_ x) (walked_ x) true]> (reactors s))
    ((λ c, if tracked r c then force c else c) <$> conns s)
    (foldr (λ c sk, if tracked r c then shutdown_connection sk (descriptor c) (peer c) else sk)
       (sockets s) (conns s)).

(** [~SessionTicket]: first the refund, then the count. *)
Definition refund (s : state) (i : nat) (c : conn) : state :=
  mkState (if lease c then leave <$> admission s else admission s) (reactors s)
    (<[i := mkConn (home c) false (descriptor c) (peer c) (socket_open c) Refunded]> (conns s))
    (sockets s).

Inductive label :=
| Accept (r : nat) (fd : Z) (from : endpoint)   (* an accept loop gets a connection for [r] *)
| Ticket (i : nat)
| Launch (i : nat) (elsewhere ok : bool)
| RunPosted (i : nat) (ok : bool)
| Start (i : nat)                                (* the spawned frame first runs *)
| Drop (i : nat)                                 (* a handler or frame destroyed unrun or suspended *)
| CloseSocket (i : nat)                          (* the session closes its socket *)
| Finish (i : nat)                               (* the session ends *)
| Refund (i : nat)
| Release (i : nat)
| AbortAll (r : nat)                             (* the flag, on the caller *)
| AbortWalk (r : nat)                            (* the walk it asked for, on the loop *)
| ForceAll (r : nat)
| OtherOpen (fd : Z) (k : sock)                  (* descriptors of the rest of the process *)
| OtherClose (fd : Z).

Definition owned (s : state) (fd : Z) : bool :=
  existsb (λ c, socket_open c && (descriptor c =? fd)) (conns s).

Definition step (s : state) (l : label) : option state :=
  match l with
  | Accept r fd from =>
      _ ← reactors s !! r;
      match sockets s !! fd with
      | Some _ => None
      | None =>
          let sk := <[fd := mkSock (Some (name_size from, from)) false]> (sockets s) in
          match admission s with
          | None =>
              Some (mkState None (reactors s) (conns s ++ [mkConn r false fd from true Leased]) sk)
          | Some a =>
              let t := try_enter a in
              Some (if t.1
                    then mkState (Some t.2) (reactors s)
                           (conns s ++ [mkConn r true fd from true Leased]) sk
                    else mkState (Some t.2) (reactors s) (conns s) (sockets s))
          end
      end
  | Ticket i =>
      c ← conns s !! i; x ← reactors s !! home c;
      match at_stage c with
      | Leased => Some (set_reactor (put s i (set_stage c Ticketed)) (home c) (session_started x))
      | _ => None
      end
  | Launch i elsewhere ok =>
      c ← conns s !! i;
      match at_stage c with Ticketed => Some (launch_session s i c elsewhere ok) | _ => None end
  | RunPosted i ok =>
      c ← conns s !! i;
      match at_stage c with Posted => Some (launch_here s i c ok) | _ => None end
  | Start i =>
      c ← conns s !! i; x ← reactors s !! home c;
      match at_stage c with Spawned => Some (run_session s i c x) | _ => None end
  | Drop i =>
      c ← conns s !! i;
      match at_stage c with
      | Posted | Spawned | Running _ _ => Some (unwind s i c)
      | _ => None
      end
  | CloseSocket i =>
      c ← conns s !! i;
      match at_stage c with
      | Running _ _ =>
          if socket_open c
          then Some (mkState (admission s) (reactors s)
                 (<[i := mkConn (home c) (lease c) (descriptor c) (peer c) false (at_stage c)]>
                    (conns s)) (delete (descriptor c) (sockets s)))
          else None
      | _ => None
      end
  | Finish i =>
      c ← conns s !! i;
      match at_stage c with Running _ _ => Some (unwind s i c) | _ => None end
  | Refund i =>
      c ← conns s !! i;
      match at_stage c with Unwinding => Some (refund s i c) | _ => None end
  | Release i =>
      c ← conns s !! i; x ← reactors s !! home c;
      match at_stage c with
      | Refunded => Some (set_reactor (put s i (set_stage c Ended)) (home c) (session_finished x))
      | _ => None
      end
  | AbortAll r => x ← reactors s !! r; Some (abort_all s r x)
  | AbortWalk r =>
      x ← reactors s !! r;
      if aborting_ x && negb (walked_ x) then Some (abort_walk s r x) else None
  | ForceAll r => x ← reactors s !! r; Some (force_all s r x)
  | OtherOpen fd k =>
      match sockets s !! fd with
      | Some _ => None
      | None => Some (mkState (admission s) (reactors s) (conns s) (<[fd := k]> (sockets s)))
      end
  | OtherClose fd =>
      if owned s fd then None
      else Some (mkState (admission s) (reactors s) (conns s) (delete fd (sockets s)))
  end.

(** A server before its first connection. *)
Definition initial (a : option A) (n : nat) : state :=
  mkState a (replicate n (mkReactor 0 false false false)) [] ∅.

(** ** Invariants *)

(** The connection is in its reactor's session count. *)
Definition ticketed (st : stage) : bool := match st with Leased | Ended => false | _ => true end.
Definition counted (r : nat) (c : conn) : Z :=
  bit (bool_decide (home c = r) && ticketed (at_stage c)).
Definition leasing (c : conn) : Z := bit (lease c).

Definition count_inv (s : state) : Prop :=
  ∀ r x, reactors s !! r = Some x → sessions_ x = wrap64 (total (counted r) (conns s)).

Definition admission_inv (s : state) : Prop :=
  match admission s with
  | Some a => sound a ∧ active a = total leasing (conns s)
  | None => total leasing (conns s) = 0
  end.

(** A connection lives on a reactor of the server, and a refunded one has no lease. *)
Definition conn_ok (n : nat) (c : conn) : Prop :=
  (home c < n)%nat ∧ (lease c = true → at_stage c ≠ Refunded ∧ at_stage c ≠ Ended).
Definition conns_inv (s : state) : Prop := ∀ c, c ∈ conns s → conn_ok (length (reactors s)) c.

(** The walks have reached everything that runs. *)
Definition walk_ok (r : nat) (x : reactor) (cs : list conn) : Prop :=
  (walked_ x = true → aborting_ x = true) ∧
  ∀ c a f, c ∈ cs → home c = r → at_stage c = Running a f →
    (walked_ x = true → a = true) ∧ (forced_ x = true → f = true).
Definition walks_inv (s : state) : Prop :=
  ∀ r x, reactors s !! r = Some x → walk_ok r x (conns s).

Lemma counted_insert s i c c' r :
  conns s !! i = Some c → home c' = home c → ticketed (at_stage c') = ticketed (at_stage c) →
  total (counted r) (<[i := c']> (conns s)) = total (counted r) (conns s).
Proof.
  intros Hi Hh Ht. rewrite (total_insert _ _ _ _ _ Hi). unfold counted. rewrite Hh, Ht. lia.
Qed.

Lemma leasing_insert s i c c' :
  conns s !! i = Some c → lease c' = lease c →
  total leasing (<[i := c']> (conns s)) = total leasing (conns s).
Proof.
  intros Hi Hl. rewrite (total_insert _ _ _ _ _ Hi). unfold leasing. rewrite Hl. lia.
Qed.

Lemma conns_elem s i c : conns s !! i = Some c → c ∈ conns s.
Proof. apply list_elem_of_lookup_2. Qed.

(** The steps that move one connection along with its ticket and its lease. *)
Definition moves (l : label) : option nat :=
  match l with
  | Launch i _ _ | RunPosted i _ | Start i | Drop i | CloseSocket i | Finish i => Some i
  | _ => None
  end.

Record moved (s s' : state) (i : nat) (c c' : conn) : Prop := {
  mv_from : conns s !! i = Some c;
  mv_to : conns s' = <[i := c']> (conns s);
  mv_reactors : reactors s' = reactors s;
  mv_admission : admission s' = admission s;
  mv_home : home c' = home c;
  mv_lease : lease c' = lease c;
  mv_ticket : ticketed (at_stage c) = true ∧ ticketed (at_stage c') = true;
  mv_stage : at_stage c' ≠ Refunded;
  mv_running : ∀ a f, at_stage c' = Running a f → at_stage c = Running a f ∨
    ∃ x, reactors s !! home c = Some x ∧ walked_ x = false ∧ a = false ∧ f = forced_ x }.

Lemma step_moved s l s' i :
  moves l = Some i → step s l = Some s' → ∃ c c', moved s s' i c c'.
Proof.
  intros Hm Hs. destruct l; simplify_eq/=; destruct (conns s !! i) as [c|] eqn:Hi; simplify_eq/=;
    exists c.
  4, 5, 6: destruct (at_stage c) eqn:Hst; simplify_eq/=; try case_match; simplify_eq/=; eexists;
    (eapply Build_moved; [done|reflexivity|..]; simpl; rewrite ?Hst; try done; by left).
  - destruct (at_stage c) eqn:Hst; simplify_eq/=. unfold launch_session, launch_here, put, unwind.
    destruct elsewhere, ok; eexists;
      (eapply Build_moved; [done|reflexivity|..]; simpl; rewrite ?Hst; done).
  - destruct (at_stage c) eqn:Hst; simplify_eq/=. unfold launch_here, put, unwind.
    destruct ok; eexists;
      (eapply Build_moved; [done|reflexivity|..]; simpl; rewrite ?Hst; done).
  - destruct (reactors s !! home c) as [x|] eqn:Hx; simplify_eq/=.
    destruct (at_stage c) eqn:Hst; simplify_eq/=. unfold run_session, put, unwind; simpl.
    destruct (walked_ x) eqn:Hw; eexists;
      (eapply Build_moved; [done|reflexivity|..]; simpl; rewrite ?Hst; try done).
    intros a f [= <- <-]. right. eauto.
Qed.

(** Aborting and forcing leave everything of a connection but its marks. *)
Lemma abort_same r c :
  let c' := if tracked r c then abort c else c in
  home c' = home c ∧ lease c' = lease c ∧
  (at_stage c' = at_stage c ∨
   ∃ a f, at_stage c = Running a f ∧ at_stage c' = Running true f ∧ home c = r).
Proof.
  unfold tracked, abort. destruct (at_stage c) eqn:Hst; simpl; rewrite ?Hst; auto.
  case_bool_decide; simpl; rewrite ?Hst; eauto 10.
Qed.

Lemma force_same r c :
  let c' := if tracked r c then force c else c in
  home c' = home c ∧ lease c' = lease c ∧
  (at_stage c' = at_stage c ∨
   ∃ a f, at_stage c = Running a f ∧ at_stage c' = Running a true ∧ home c = r).
Proof.
  unfold tracked, force. destruct (at_stage c) eqn:Hst; simpl; rewrite ?Hst; auto.
  case_bool_decide; simpl; rewrite ?Hst; eauto 10.
Qed.

(** One connection takes its ticket or gives it back. *)
Lemma count_inv_ticket s i c x st (d : Z) f :
  count_inv s → conns s !! i = Some c → reactors s !! home c = Some x →
  bit (ticketed st) = bit (ticketed (at_stage c)) + d → (∀ z, sessions_ (f z) = wrap64 (sessions_ z + d)) →
  count_inv (set_reactor (put s i (set_stage c st)) (home c) (f x)).
Proof.
  intros Hc Hi Hx Hd Hf r y Hy. simpl in *. rewrite (total_insert _ _ _ _ _ Hi).
  unfold counted at 2 3; simpl.
  apply list_lookup_insert_Some in Hy as [(<- & <- & _)|[Hne Hy]].
  - rewrite Hf, (Hc _ _ Hx), wrap64_add, bool_decide_true by done. f_equal. simpl. lia.
  - rewrite (Hc _ _ Hy), bool_decide_false by done. f_equal. simpl. lia.
Qed.

(** A walk over a reactor's sessions. *)
Lemma count_inv_marks s s' r x y (g : conn → conn) :
  count_inv s → reactors s !! r = Some x → reactors s' = <[r := y]> (reactors s) →
  sessions_ y = sessions_ x → conns s' = g <$> conns s → (∀ r' c, counted r' (g c) = counted r' c) →
  count_inv s'.
Proof.
  intros Hc Hx Hr Hy Hg Hs r' z Hz. rewrite Hg, total_fmap by done. rewrite Hr in Hz.
  apply list_lookup_insert_Some in Hz as [(<- & <- & _)|[_ Hz]]; [rewrite Hy|]; by apply Hc.
Qed.

Lemma counted_same r c c' :
  home c' = home c → (at_stage c' = at_stage c ∨ ticketed (at_stage c') = ticketed (at_stage c)) →
  counted r c' = counted r c.
Proof. unfold counted. by intros -> [->| ->]. Qed.

Lemma count_inv_step s l s' : count_inv s → step s l = Some s' → count_inv s'.
Proof.
  intros Hc Hs. destruct (moves l) as [i|] eqn:Hm.
  { destruct (step_moved s l s' i Hm Hs) as (c & c' & [Hi Hto Hr _ Hh _ [Ht1 Ht2] _ _]).
    intros r x Hx. rewrite Hr in Hx. rewrite Hto, (counted_insert s i c c') by congruence.
    by apply Hc. }
  destruct l as [r fd from|i| | | | | | |i|i|r|r|r|fd k|fd]; try done; simpl in Hs.
  - destruct (reactors s !! r) as [x0|]; simplify_eq/=. case_match; [done|].
    repeat case_match; simplify_eq; intros r' x Hx; simpl in *; rewrite ?total_snoc; rewrite (Hc r' x Hx);
      try done; f_equal; unfold counted at 3; simpl; rewrite andb_false_r; simpl; lia.
  - destruct (conns s !! i) as [c|] eqn:Hi; simplify_eq/=.
    destruct (reactors s !! home c) as [x|] eqn:Hx; simplify_eq/=.
    destruct (at_stage c) eqn:Hst; simplify_eq/=.
    by apply (count_inv_ticket s i c x Ticketed 1 session_started); rewrite ?Hst.
  - destruct (conns s !! i) as [c|] eqn:Hi; simplify_eq/=. destruct (at_stage c) eqn:Hst; simplify_eq/=.
    intros r x Hx; simpl in *. rewrite (counted_insert s i c); simpl; rewrite ?Hst; try done. by apply Hc.
  - destruct (conns s !! i) as [c|] eqn:Hi; simplify_eq/=.
    destruct (reactors s !! home c) as [x|] eqn:Hx; simplify_eq/=.
    destruct (at_stage c) eqn:Hst; simplify_eq/=.
    by apply (count_inv_ticket s i c x Ended (-1) session_finished); rewrite ?Hst.
  - destruct (reactors s !! r) as [x|] eqn:Hx; simplify_eq/=. unfold abort_all.
    destruct (aborting_ x); [done|].
    eapply (count_inv_marks s _ r x _ id); [done|done|reflexivity|done| |done]. by rewrite list_fmap_id.
  - destruct (reactors s !! r) as [x|] eqn:Hx; simplify_eq/=. case_match; simplify_eq/=.
    eapply (count_inv_marks s _ r x); [done|done|reflexivity|done|reflexivity|].
    intros r' c. destruct (abort_same r c) as (Hh & _ & [Hst|(a & f & H1 & H2 & _)]); apply counted_same; auto.
    right. by rewrite H1, H2.
  - destruct (reactors s !! r) as [x|] eqn:Hx; simplify_eq/=.
    eapply (count_inv_marks s _ r x); [done|done|reflexivity|done|reflexivity|].
    intros r' c. destruct (force_same r c) as (Hh & _ & [Hst|(a & f & H1 & H2 & _)]); apply counted_same; auto.
    right. by rewrite H1, H2.
  - case_match; simplify_eq. done.
  - case_match; simplify_eq. done.
Qed.

Lemma admission_inv_step s l s' :
  conns_inv s → admission_inv s → step s l = Some s' → admission_inv s'.
Proof.
  intros Hok Ha Hs. unfold admission_inv in *. destruct (moves l) as [i|] eqn:Hm.
  { destruct (step_moved s l s' i Hm Hs) as (c & c' & [Hi Hto _ Had _ Hl _ _ _]).
    rewrite Had, Hto, (leasing_insert s i c c') by done. done. }
  destruct l as [r fd from|i| | | | | | |i|i|r|r|r|fd k|fd]; try done; simpl in Hs.
  - destruct (reactors s !! r) as [x0|]; simplify_eq/=. case_match; [done|].
    destruct (admission s) as [a|] eqn:Had; simplify_eq/=.
    + destruct Ha as [Hsd Hac]. destruct (try_enter a).1 eqn:Ht; simpl.
      * rewrite total_snoc, (try_enter_admits a Hsd Ht), Hac. split; [by apply try_enter_sound|done].
      * destruct (try_enter_refuses a Hsd Ht) as [-> _]. split; [by apply try_enter_sound|done].
    + rewrite total_snoc, Ha. done.
  - destruct (conns s !! i) as [c|] eqn:Hi; simplify_eq/=.
    destruct (reactors s !! home c) as [x|]; simplify_eq/=. destruct (at_stage c); simplify_eq/=.
    by rewrite (leasing_insert s i c).
  - destruct (conns s !! i) as [c|] eqn:Hi; simplify_eq/=. destruct (at_stage c) eqn:Hst; simplify_eq/=.
    pose proof (total_insert leasing _ _ _
      (mkConn (home c) false (descriptor c) (peer c) (socket_open c) Refunded) Hi) as Ht.
    pose proof (total_ge leasing _ _ _ (λ c, bit_nonneg (lease c)) Hi) as Hge.
    unfold leasing at 3 4 in Ht. unfold leasing at 1 in Hge; simpl in Ht, Hge.
    rewrite Ht; clear Ht. destruct (lease c); simpl in *;
      [|destruct (admission s); simpl; rewrite Z.sub_0_r, Z.add_0_r; done].
    destruct (admission s) as [a|]; simpl in *; [|lia]. destruct Ha as [Hsd Hac].
    rewrite leave_active by (done || lia). split; [apply leave_sound; [done|lia]|lia].
  - destruct (conns s !! i) as [c|] eqn:Hi; simplify_eq/=.
    destruct (reactors s !! home c) as [x|]; simplify_eq/=. destruct (at_stage c); simplify_eq/=.
    by rewrite (leasing_insert s i c).
  - destruct (reactors s !! r) as [x|]; simplify_eq/=. unfold abort_all. by destruct (aborting_ x).
  - destruct (reactors s !! r) as [x|]; simplify_eq/=. case_match; simplify_eq/=.
    rewrite total_fmap; [done|]. intros c. unfold leasing. f_equal. apply (abort_same r c).
  - destruct (reactors s !! r) as [x|]; simplify_eq/=.
    rewrite total_fmap; [done|]. intros c. unfold leasing. f_equal. apply (force_same r c).
  - case_match; simplify_eq. done.
  - case_match; simplify_eq. done.
Qed.

Lemma step_reactors_length s l s' :
  step s l = Some s' → length (reactors s') = length (reactors s).
Proof.
  intros Hs. destruct (moves l) as [i|] eqn:Hm.
  { by destruct (step_moved s l s' i Hm Hs) as (c & c' & [_ _ -> _ _ _ _ _ _]). }
  destruct l; try done; simpl in Hs; simplify_option_eq; repeat case_match; simplify_eq/=;
    unfold abort_all; try case_match; simpl; by rewrite ?length_insert.
Qed.

Lemma conns_inv_step s l s' : conns_inv s → step s l = Some s' → conns_inv s'.
Proof.
  intros Hok Hs. unfold conns_inv. rewrite (step_reactors_length s l s' Hs).
  destruct (moves l) as [i|] eqn:Hm.
  { destruct (step_moved s l s' i Hm Hs) as (c & c' & [Hi -> _ _ Hh Hl [_ Ht] Hr _]).
    intros d [->|Hd]%elem_insert; [|by apply Hok]. destruct (Hok c (conns_elem s i c Hi)) as [H1 H2].
    split; [by rewrite Hh|]. intros _. split; [done|]. intros He. by rewrite He in Ht. }
  destruct l as [r fd from|i| | | | | | |i|i|r|r|r|fd k|fd]; try done; simpl in Hs.
  - destruct (reactors s !! r) as [x0|] eqn:Hr; simplify_eq/=. apply lookup_lt_Some in Hr.
    repeat case_match; simplify_eq/=; try done;
      intros c [Hc| ->%list_elem_of_singleton]%elem_of_app; try (by apply Hok); by split.
  - destruct (conns s !! i) as [c|] eqn:Hi; simplify_eq/=.
    destruct (reactors s !! home c) as [x|]; simplify_eq/=. destruct (at_stage c); simplify_eq/=.
    intros d [->|Hd]%elem_insert; [|by apply Hok]. destruct (Hok c (conns_elem s i c Hi)). by split.
  - destruct (conns s !! i) as [c|] eqn:Hi; simplify_eq/=. destruct (at_stage c); simplify_eq/=.
    intros d [->|Hd]%elem_insert; [|by apply Hok]. destruct (Hok c (conns_elem s i c Hi)). by split.
  - destruct (conns s !! i) as [c|] eqn:Hi; simplify_eq/=.
    destruct (reactors s !! home c) as [x|]; simplify_eq/=.
    destruct (at_stage c) eqn:Hst; simplify_eq/=.
    intros d [->|Hd]%elem_insert; [|by apply Hok].
    destruct (Hok c (conns_elem s i c Hi)) as [H1 H2]. split; [done|]; simpl. naive_solver.
  - destruct (reactors s !! r) as [x|]; simplify_eq/=. unfold abort_all. by destruct (aborting_ x).
  - destruct (reactors s !! r) as [x|]; simplify_eq/=. case_match; simplify_eq/=.
    intros d (c & -> & Hc)%list_elem_of_fmap. destruct (Hok c Hc) as [H1 H2].
    destruct (abort_same r c) as (Hh & Hl & Hst). unfold conn_ok. rewrite Hh, Hl. split; [done|].
    intros Hlc. destruct Hst as [->|(a & f & _ & -> & _)]; auto.
  - destruct (reactors s !! r) as [x|]; simplify_eq/=.
    intros d (c & -> & Hc)%list_elem_of_fmap. destruct (Hok c Hc) as [H1 H2].
    destruct (force_same r c) as (Hh & Hl & Hst). unfold conn_ok. rewrite Hh, Hl. split; [done|].
    intros Hlc. destruct Hst as [->|(a & f & _ & -> & _)]; auto.
  - case_match; simplify_eq. done.
  - case_match; simplify_eq. done.
Qed.

Lemma walk_ok_keep r x x' (cs cs' : list conn) :
  walk_ok r x cs →
  (aborting_ x = true → aborting_ x' = true) → walked_ x' = walked_ x → forced_ x' = forced_ x →
  (∀ c, c ∈ cs' → c ∈ cs ∨ ∀ a f, at_stage c ≠ Running a f) → walk_ok r x' cs'.
Proof.
  intros [Hab Hw] H1 H2 H3 Hcs. split; [rewrite H2; auto|]. rewrite H2, H3. intros c a f Hc Hh Hst.
  destruct (Hcs c Hc) as [Hc'|Hn]; [by apply (Hw c)|]. by destruct (Hn a f).
Qed.

Lemma walk_ok_abort r r' x y (cs : list conn) :
  walk_ok r' x cs → forced_ y = forced_ x → (walked_ y = true → aborting_ y = true) →
  (r' ≠ r → walked_ y = walked_ x) →
  walk_ok r' y ((λ c, if tracked r c then abort c else c) <$> cs).
Proof.
  intros [Hab Hw] Hf Hy Hne. split; [done|]. rewrite Hf.
  intros d a f (c & -> & Hc)%list_elem_of_fmap Hh Hst. rewrite (proj1 (abort_same r c)) in Hh.
  destruct (abort_same r c) as (_ & _ & [Heq|(a' & f' & Hc1 & Hc2 & Hc3)]); rewrite Hst in *.
  - symmetry in Heq. destruct (Hw c a f Hc Hh Heq) as [H1 H2]. split; [|done].
    destruct (decide (r' = r)) as [->|Hr]; [|by rewrite Hne].
    unfold tracked, abort in Hst. rewrite Heq, bool_decide_true in Hst by done; simpl in Hst.
    congruence.
  - injection Hc2 as -> ->. split; [done|]. by apply (Hw c a' f').
Qed.

Lemma walk_ok_force r r' x y (cs : list conn) :
  walk_ok r' x cs → walked_ y = walked_ x → aborting_ y = aborting_ x →
  (r' ≠ r → forced_ y = forced_ x) →
  walk_ok r' y ((λ c, if tracked r c then force c else c) <$> cs).
Proof.
  intros [Hab Hw] Hf Hy Hne. split; [by rewrite Hf, Hy|]. rewrite Hf.
  intros d a f (c & -> & Hc)%list_elem_of_fmap Hh Hst. rewrite (proj1 (force_same r c)) in Hh.
  destruct (force_same r c) as (_ & _ & [Heq|(a' & f' & Hc1 & Hc2 & Hc3)]); rewrite Hst in *.
  - symmetry in Heq. destruct (Hw c a f Hc Hh Heq) as [H1 H2]. split; [done|].
    destruct (decide (r' = r)) as [->|Hr]; [|by rewrite Hne].
    unfold tracked, force in Hst. rewrite Heq, bool_decide_true in Hst by done; simpl in Hst.
    congruence.
  - injection Hc2 as -> ->. split; [|done]. by apply (Hw c a' f').
Qed.

Lemma walks_inv_moved s s' i c c' : moved s s' i c c' → walks_inv s → walks_inv s'.
Proof.
  intros [Hi Hto Hr _ Hh _ _ _ Hrun] Hw r x Hx. rewrite Hr in Hx.
  destruct (Hw r x Hx) as [Hab Hwx]. split; [done|]. intros d a f Hd Hdr Hst. rewrite Hto in Hd.
  apply elem_insert in Hd as [->|Hd]; [|by apply (Hwx d)].
  rewrite Hh in Hdr. destruct (Hrun a f Hst) as [Hst'|(y & Hy & Hwy & -> & ->)].
  - by apply (Hwx c a f (conns_elem s i c Hi)).
  - simplify_eq. split; congruence.
Qed.

Lemma walks_inv_step s l s' : walks_inv s → step s l = Some s' → walks_inv s'.
Proof.
  intros Hw Hs. destruct (moves l) as [i|] eqn:Hm.
  { destruct (step_moved s l s' i Hm Hs) as (c & c' & Hmv). by apply (walks_inv_moved s s' i c c'). }
  destruct l as [r fd from|i| | | | | | |i|i|r|r|r|fd k|fd]; try done; simpl in Hs.
  - destruct (reactors s !! r) as [x0|]; simplify_eq/=.
    repeat case_match; simplify_eq; try done; intros r' x Hx;
      (eapply walk_ok_keep; [exact (Hw r' x Hx)|done..|]);
      simpl; intros c [Hc| ->%list_elem_of_singleton]%elem_of_app; auto.
  - destruct (conns s !! i) as [c|] eqn:Hi; simplify_eq/=.
    destruct (reactors s !! home c) as [x|] eqn:Hx; simplify_eq/=. destruct (at_stage c); simplify_eq/=.
    intros r y Hy; simpl in *. apply list_lookup_insert_Some in Hy as [(<- & <- & _)|[_ Hy]];
      (eapply walk_ok_keep; [apply Hw; eassumption|done..|]); intros d [->|Hd]%elem_insert; auto.
  - destruct (conns s !! i) as [c|] eqn:Hi; simplify_eq/=. destruct (at_stage c); simplify_eq/=.
    intros r y Hy; simpl in *. eapply walk_ok_keep; [exact (Hw r y Hy)|done..|].
    intros d [->|Hd]%elem_insert; auto.
  - destruct (conns s !! i) as [c|] eqn:Hi; simplify_eq/=.
    destruct (reactors s !! home c) as [x|] eqn:Hx; simplify_eq/=. destruct (at_stage c); simplify_eq/=.
    intros r y Hy; simpl in *. apply list_lookup_insert_Some in Hy as [(<- & <- & _)|[_ Hy]];
      (eapply walk_ok_keep; [apply Hw; eassumption|done..|]); intros d [->|Hd]%elem_insert; auto.
  - destruct (reactors s !! r) as [x|] eqn:Hx; simplify_eq/=. unfold abort_all.
    destruct (aborting_ x); [done|]. intros r' y Hy; simpl in *.
    apply list_lookup_insert_Some in Hy as [(<- & <- & _)|[Hne Hy]]; [|by apply Hw].
    eapply walk_ok_keep; [exact (Hw r x Hx)|done..|]. auto.
  - destruct (reactors s !! r) as [x|] eqn:Hx; simplify_eq/=. case_match; simplify_eq/=.
    reflect_bools. intros r' y Hy; simpl in *.
    apply list_lookup_insert_Some in Hy as [(<- & <- & _)|[Hne Hy]]; simpl.
    + by apply (walk_ok_abort r r x); [apply Hw|..].
    + apply (walk_ok_abort r r' y); [by apply Hw|done| |done]. by destruct (Hw r' y Hy).
  - destruct (reactors s !! r) as [x|] eqn:Hx; simplify_eq/=. intros r' y Hy; simpl in *.
    apply list_lookup_insert_Some in Hy as [(<- & <- & _)|[Hne Hy]]; simpl.
    + by apply (walk_ok_force r r x); [apply Hw|..].
    + by apply (walk_ok_force r r' y); [apply Hw|..].
  - case_match; simplify_eq. done.
  - case_match; simplify_eq. done.
Qed.

(** *** Sockets *)

Definition named (k : sock) (ep : endpoint) : bool :=
  match peername k with
  | Some (size, current) => negb (capacity <? size) && bool_decide (current = ep)
  | None => false
  end.

Lemma names_peer_named (sk : gmap Z sock) d ep :
  names_peer sk d ep = match sk !! d with Some k => named k ep | None => false end.
Proof.
  unfold names_peer, named. destruct (sk !! d) as [[[[size cur]|] b]|]; simpl; try done.
  by destruct (capacity <? size).
Qed.

Lemma shutdown_lookup (sk : gmap Z sock) d ep fd :
  shutdown_connection sk d ep !! fd =
  (λ k, mkSock (peername k) (shut k || (bool_decide (d = fd) && named k ep))) <$> sk !! fd.
Proof.
  unfold shutdown_connection. rewrite names_peer_named. destruct (decide (d = fd)) as [->|Hne].
  - rewrite bool_decide_true by done. destruct (sk !! fd) as [[p b]|] eqn:Hk; [|by rewrite Hk].
    destruct (named (mkSock p b) ep) eqn:Hn; rewrite ?lookup_alter_eq, Hk; simpl; rewrite Hn; simpl;
      by rewrite ?orb_true_r, ?orb_false_r.
  - rewrite bool_decide_false by done.
    assert (Hid : ∀ o : option sock, o = (λ k, mkSock (peername k) (shut k || false)) <$> o).
    { intros [[p b]|]; simpl; by rewrite ?orb_false_r. }
    simpl. rewrite <-Hid. destruct (sk !! d) as [k|]; [|done].
    destruct (named k ep); [|done]. by rewrite lookup_alter_ne.
Qed.

(** What [force_all] does to each descriptor. *)
Lemma force_sockets r (cs : list conn) (sk : gmap Z sock) fd :
  foldr (λ c sk, if tracked r c then shutdown_connection sk (descriptor c) (peer c) else sk)
    sk cs !! fd =
  (λ k, mkSock (peername k) (shut k ||
     existsb (λ c, tracked r c && bool_decide (descriptor c = fd) && named k (peer c)) cs))
  <$> sk !! fd.
Proof.
  induction cs as [|c cs IH]; simpl.
  - destruct (sk !! fd) as [[p b]|]; simpl; by rewrite ?orb_false_r.
  - destruct (tracked r c); simpl; [|done]. rewrite shutdown_lookup, IH.
    destruct (sk !! fd) as [[p b]|]; simpl; [|done]. do 2 f_equal.
    unfold named; simpl. by rewrite <-orb_assoc, (orb_comm (existsb _ _)).
Qed.

(** An open socket of a connection names its peer, and is shut down once it was forced. *)
Definition sock_ok (sk : gmap Z sock) (c : conn) : Prop :=
  socket_open c = true →
  ∃ k, sk !! descriptor c = Some k ∧ peername k = Some (name_size (peer c), peer c) ∧
    ∀ a, at_stage c = Running a true → shut k = true.

Record sockets_inv (s : state) : Prop := {
  si_ok : ∀ c, c ∈ conns s → sock_ok (sockets s) c;
  si_distinct : ∀ i j c d, conns s !! i = Some c → conns s !! j = Some d → i ≠ j →
    socket_open c = true → socket_open d = true → descriptor c ≠ descriptor d }.

Lemma name_size_fits ep : capacity <? name_size ep = false.
Proof. unfold name_size. by destruct (ep_address ep). Qed.

Lemma named_self k ep : peername k = Some (name_size ep, ep) → named k ep = true.
Proof. intros Hk. unfold named. by rewrite Hk, name_size_fits, bool_decide_true. Qed.

(** Shutting sockets down keeps it. *)
Lemma sock_ok_shutdown sk d ep c : sock_ok sk c → sock_ok (shutdown_connection sk d ep) c.
Proof.
  intros Hc Ho. destruct (Hc Ho) as (k & Hk & Hn & Hf). rewrite shutdown_lookup, Hk; simpl.
  eexists; split; [done|]; simpl. split; [done|]. intros a Ha. by rewrite (Hf a Ha).
Qed.

(** One connection changes and keeps or gives up its descriptor. *)
Lemma sockets_inv_put s s' i c c' :
  sockets_inv s → conns s !! i = Some c → conns s' = <[i := c']> (conns s) →
  descriptor c' = descriptor c → (socket_open c' = true → socket_open c = true) →
  sock_ok (sockets s') c' →
  (∀ j d, conns s !! j = Some d → j ≠ i → sock_ok (sockets s) d → sock_ok (sockets s') d) →
  sockets_inv s'.
Proof.
  intros [Hok Hd] Hi Hto Hdesc Hop Hc' Hoth. split; rewrite Hto.
  - intros d [j Hj]%list_elem_of_lookup_1.
    apply list_lookup_insert_Some in Hj as [(_ & <- & _)|[Hne Hj]]; [done|].
    apply (Hoth j); [done|done|]. by apply Hok, (conns_elem s j).
  - intros j1 j2 d1 d2 H1 H2 Hne Ho1 Ho2.
    apply list_lookup_insert_Some in H1 as [(<- & <- & _)|[Hn1 H1]];
      apply list_lookup_insert_Some in H2 as [(<- & <- & _)|[Hn2 H2]]; try done.
    + rewrite Hdesc. apply (Hd i j2 c d2); auto.
    + rewrite Hdesc. apply (Hd j1 i d1 c); auto.
    + by apply (Hd j1 j2).
Qed.

Lemma sockets_inv_unwind s i c :
  sockets_inv s → conns s !! i = Some c → sockets_inv (unwind s i c).
Proof.
  intros Hinv Hi. eapply (sockets_inv_put s _ i c); [done|done|reflexivity|done|done|done|].
  intros j d Hj Hne Hok Ho. simpl. destruct (socket_open c) eqn:Hoc; [|by apply Hok].
  destruct (Hok Ho) as (k & Hk & Hrest). exists k. split; [|done].
  rewrite lookup_delete_ne; [done|]. by apply (si_distinct s Hinv i j c d).
Qed.

Lemma sockets_inv_stage s i c st :
  sockets_inv s → conns s !! i = Some c → (∀ a, st ≠ Running a true) →
  sockets_inv (put s i (set_stage c st)).
Proof.
  intros Hinv Hi Hst. eapply (sockets_inv_put s _ i c); [done|done|reflexivity|done|done| |done].
  intros Ho. destruct (si_ok s Hinv c (conns_elem s i c Hi) Ho) as (k & Hk & Hn & _).
  exists k. split_and!; try done. intros a Ha. by destruct (Hst a).
Qed.

Lemma sockets_inv_start s i c x :
  sockets_inv s → conns s !! i = Some c → sockets_inv (run_session s i c x).
Proof.
  intros Hinv Hi. unfold run_session.
  set (s1 := mkState (admission s) (reactors s) (conns s) _).
  assert (Hinv1 : sockets_inv s1).
  { split; [|apply Hinv]. intros d Hd; simpl. destruct (forced_ x); [|by apply Hinv].
    by apply sock_ok_shutdown, Hinv. }
  destruct (walked_ x); [by apply sockets_inv_unwind|].
  eapply (sockets_inv_put s1 _ i c); [done|done|reflexivity|done|done| |done].
  intros Ho; simpl in *. destruct (si_ok s1 Hinv1 c (conns_elem s i c Hi) Ho) as (k & Hk & Hn & _).
  exists k. split_and!; try done. intros a [= _ Hf].
  unfold s1 in Hk; simpl in Hk. rewrite Hf in Hk.
  rewrite shutdown_lookup in Hk. destruct (sockets s !! descriptor c) as [k0|]; simplify_eq/=.
  rewrite bool_decide_true, (named_self k0) by done. apply orb_true_r.
Qed.

Lemma sockets_inv_move s l s' i :
  moves l = Some i → sockets_inv s → step s l = Some s' → sockets_inv s'.
Proof.
  intros Hm Hinv Hs. destruct l; simplify_eq/=; destruct (conns s !! i) as [c|] eqn:Hi; simplify_eq/=.
  - destruct (at_stage c); simplify_eq/=. unfold launch_session, launch_here.
    destruct elsewhere, ok; by (apply sockets_inv_unwind || apply sockets_inv_stage).
  - destruct (at_stage c); simplify_eq/=. unfold launch_here.
    destruct ok; by (apply sockets_inv_unwind || apply sockets_inv_stage).
  - destruct (reactors s !! home c); simplify_eq/=. destruct (at_stage c); simplify_eq/=.
    by apply sockets_inv_start.
  - destruct (at_stage c); simplify_eq/=; by apply sockets_inv_unwind.
  - destruct (at_stage c) eqn:Hst; simplify_eq/=. destruct (socket_open c) eqn:Hoc; simplify_eq/=.
    eapply (sockets_inv_put s _ i c); [done|done|reflexivity|done|done|done|].
    intros j d Hj Hne Hok Ho. simpl. destruct (Hok Ho) as (k & Hk & Hrest). exists k. split; [|done].
    rewrite lookup_delete_ne; [done|]. by apply (si_distinct s Hinv i j c d).
  - destruct (at_stage c); simplify_eq/=; by apply sockets_inv_unwind.
Qed.

(** A descriptor not in use belongs to no connection. *)
Lemma fresh_descriptor s fd c :
  sockets_inv s → sockets s !! fd = None → c ∈ conns s → socket_open c = true →
  descriptor c ≠ fd.
Proof.
  intros Hinv Hfd Hc Ho <-. destruct (si_ok s Hinv c Hc Ho) as (k & Hk & _). congruence.
Qed.

Lemma sock_ok_insert sk fd k c :
  (socket_open c = true → descriptor c ≠ fd) → sock_ok sk c → sock_ok (<[fd := k]> sk) c.
Proof.
  intros Hne Hok Ho. destruct (Hok Ho) as (k' & Hk & Hrest). exists k'. split; [|done].
  rewrite lookup_insert_ne; [done|]. intros ->. by apply Hne.
Qed.

(** A new connection on a new descriptor. *)
Lemma sockets_inv_accept s a r b fd from :
  sockets_inv s → sockets s !! fd = None →
  sockets_inv (mkState a (reactors s) (conns s ++ [mkConn r b fd from true Leased])
    (<[fd := mkSock (Some (name_size from, from)) false]> (sockets s))).
Proof.
  intros Hinv Hfd. split; simpl.
  - intros c [Hc| ->%list_elem_of_singleton]%elem_of_app.
    + apply sock_ok_insert; [|by apply Hinv]. intros Ho. by apply (fresh_descriptor s).
    + intros _. eexists; simpl. by rewrite lookup_insert_eq.
  - intros i j c d Hi Hj Hne Hoc Hod.
    apply lookup_app_Some in Hi as [Hi|[Hi1 Hi2]]; apply lookup_app_Some in Hj as [Hj|[Hj1 Hj2]].
    + by apply (si_distinct s Hinv i j).
    + apply list_lookup_singleton_Some in Hj2 as [_ <-]; simpl.
      apply (fresh_descriptor s); try done. by eapply conns_elem.
    + apply list_lookup_singleton_Some in Hi2 as [_ <-]; simpl. symmetry.
      apply (fresh_descriptor s); try done. by eapply conns_elem.
    + apply list_lookup_singleton_Some in Hi2 as [? _], Hj2 as [? _]. lia.
Qed.

(** Marks on the connections and shutdowns of their sockets. *)
Lemma sockets_inv_marks s s' (g : conn → conn) :
  sockets_inv s → conns s' = g <$> conns s →
  (∀ c, descriptor (g c) = descriptor c ∧ socket_open (g c) = socket_open c) →
  (∀ c, c ∈ conns s → sock_ok (sockets s') (g c)) → sockets_inv s'.
Proof.
  intros Hinv Hto Hg Hok. split; rewrite Hto.
  - intros d (c & -> & Hc)%list_elem_of_fmap. by apply Hok.
  - intros i j c d Hi Hj Hne. rewrite list_lookup_fmap in Hi, Hj.
    destruct (conns s !! i) as [c0|] eqn:Hi0, (conns s !! j) as [d0|] eqn:Hj0; simplify_eq/=.
    destruct (Hg c0) as [-> ->], (Hg d0) as [-> ->]. by apply (si_distinct s Hinv i j).
Qed.

Lemma sockets_inv_abort s r x : sockets_inv s → sockets_inv (abort_walk s r x).
Proof.
  intros Hinv. eapply (sockets_inv_marks s); [done|reflexivity|..].
  - intros c. unfold abort. by destruct (tracked r c), (at_stage c).
  - intros c Hc Ho. simpl in *. pose proof (si_ok s Hinv c Hc) as Hok. unfold sock_ok in Hok.
    unfold abort in *. destruct (tracked r c); [|by apply Hok].
    destruct (at_stage c) eqn:Hst; try (by rewrite ?Hst in *; apply Hok).
    destruct (Hok Ho) as (k & Hk & Hn & Hf). exists k. split_and!; try done.
    intros a [= _ ->]. by apply (Hf aborted).
Qed.

Lemma sockets_inv_force s r x : sockets_inv s → sockets_inv (force_all s r x).
Proof.
  intros Hinv. eapply (sockets_inv_marks s); [done|reflexivity|..].
  - intros c. unfold force. by destruct (tracked r c), (at_stage c).
  - intros c Hc Ho. simpl. rewrite force_sockets.
    assert (Hoc : socket_open c = true) by (unfold force in Ho; by destruct (tracked r c), (at_stage c)).
    destruct (si_ok s Hinv c Hc Hoc) as (k & Hk & Hn & Hf).
    replace (descriptor (if tracked r c then force c else c)) with (descriptor c)
      by (unfold force; by destruct (tracked r c), (at_stage c)).
    replace (peer (if tracked r c then force c else c)) with (peer c)
      by (unfold force; by destruct (tracked r c), (at_stage c)).
    rewrite Hk; simpl. eexists; split; [done|]; simpl. split; [done|]. intros a Ha.
    destruct (tracked r c) eqn:Ht; [|by rewrite (Hf a Ha)]. apply orb_true_iff. right.
    apply existsb_exists. exists c. split; [by apply list_elem_of_In|].
    by rewrite Ht, bool_decide_true, (named_self k).
Qed.

Lemma sockets_inv_step s l s' : sockets_inv s → step s l = Some s' → sockets_inv s'.
Proof.
  intros Hinv Hs. destruct (moves l) as [i|] eqn:Hm; [by apply (sockets_inv_move s l s' i)|].
  destruct l as [r fd from|i| | | | | | |i|i|r|r|r|fd k|fd]; try done; simpl in Hs.
  - destruct (reactors s !! r) as [x0|]; simplify_eq/=. case_match; [done|].
    repeat case_match; simplify_eq/=; try (by apply sockets_inv_accept). by destruct Hinv.
  - destruct (conns s !! i) as [c|] eqn:Hi; simplify_eq/=.
    destruct (reactors s !! home c); simplify_eq/=. destruct (at_stage c); simplify_eq/=.
    by destruct (sockets_inv_stage s i c Ticketed Hinv Hi).
  - destruct (conns s !! i) as [c|] eqn:Hi; simplify_eq/=. destruct (at_stage c) eqn:Hst; simplify_eq/=.
    eapply (sockets_inv_put s _ i c); [done|done|reflexivity|done|done| |done].
    intros Ho. destruct (si_ok s Hinv c (conns_elem s i c Hi) Ho) as (k & Hk & Hn & _). by exists k.
  - destruct (conns s !! i) as [c|] eqn:Hi; simplify_eq/=.
    destruct (reactors s !! home c); simplify_eq/=. destruct (at_stage c); simplify_eq/=.
    by destruct (sockets_inv_stage s i c Ended Hinv Hi).
  - destruct (reactors s !! r) as [x|]; simplify_eq/=. unfold abort_all.
    destruct (aborting_ x); [done|]. by destruct Hinv.
  - destruct (reactors s !! r) as [x|]; simplify_eq/=. case_match; simplify_eq/=. by apply sockets_inv_abort.
  - destruct (reactors s !! r) as [x|]; simplify_eq/=. by apply sockets_inv_force.
  - case_match; simplify_eq/=. split; [|apply Hinv]. intros c Hc.
    apply sock_ok_insert; [|by apply Hinv]. intros Ho. by apply (fresh_descriptor s).
  - case_match; simplify_eq/=. split; [|apply Hinv]. intros c Hc Ho.
    destruct (si_ok s Hinv c Hc Ho) as (k & Hk & Hrest). exists k. split; [|done]. simpl.
    rewrite lookup_delete_ne; [done|]. intros ->. enough (owned s (descriptor c) = true) by congruence.
    apply existsb_exists. exists c. split; [by apply list_elem_of_In|]. by rewrite Ho, Z.eqb_refl.
Qed.

(** *** What a step leaves alone *)

(** The shutdown flags of a reactor. *)
Definition flags (x : reactor) : bool * bool * bool := (aborting_ x, walked_ x, forced_ x).

(** The steps of shutdown. *)
Definition shuts_down (l : label) : bool :=
  match l with AbortAll _ | AbortWalk _ | ForceAll _ => true | _ => false end.

Lemma flags_insert (l : list reactor) r x y :
  l !! r = Some x → flags y = flags x → flags <$> <[r := y]> l = flags <$> l.
Proof.
  intros Hx Hy. rewrite list_fmap_insert, Hy. apply list_insert_id. by rewrite list_lookup_fmap, Hx.
Qed.

Lemma step_flags s l s' :
  shuts_down l = false → step s l = Some s' → flags <$> reactors s' = flags <$> reactors s.
Proof.
  intros Hl Hs. destruct (moves l) as [i|] eqn:Hm.
  { by destruct (step_moved s l s' i Hm Hs) as (c & c' & [_ _ -> _ _ _ _ _ _]). }
  destruct l; try done; simpl in Hs; simplify_option_eq; repeat case_match; simplify_eq/=; try done;
    by eapply flags_insert.
Qed.

(** Only an accept adds a connection. *)
Lemma step_length s l s' :
  (∀ r fd from, l ≠ Accept r fd from) → step s l = Some s' → length (conns s') = length (conns s).
Proof.
  intros Hl Hs. destruct (moves l) as [i|] eqn:Hm.
  { destruct (step_moved s l s' i Hm Hs) as (c & c' & [_ -> _ _ _ _ _ _ _]). by rewrite length_insert. }
  destruct l; try done; [by destruct (Hl r fd from)|..]; simpl in Hs; simplify_option_eq;
    unfold abort_all; repeat case_match; simplify_eq/=; by rewrite ?length_insert, ?length_fmap.
Qed.

(** A connection keeps its place and its reactor, and stays ended. *)
Lemma step_conn s l s' i c :
  step s l = Some s' → conns s !! i = Some c →
  ∃ c', conns s' !! i = Some c' ∧ home c' = home c ∧ (at_stage c = Ended → at_stage c' = Ended).
Proof.
  intros Hs Hi.
  assert (Hput : ∀ j d d', conns s !! j = Some d → home d' = home d → at_stage d ≠ Ended →
    ∃ c', <[j := d']> (conns s) !! i = Some c' ∧ home c' = home c ∧ (at_stage c = Ended → at_stage c' = Ended)).
  { intros j d d' Hj Hh Hst. destruct (decide (j = i)) as [->|Hne].
    - rewrite list_lookup_insert_eq by (by eapply lookup_lt_Some). simplify_eq.
      exists d'. split_and!; [done|done|]. intros He. by destruct Hst.
    - rewrite list_lookup_insert_ne by done. eauto. }
  destruct (moves l) as [j|] eqn:Hm.
  { destruct (step_moved s l s' j Hm Hs) as (d & d' & [Hj -> _ _ Hh _ [Ht _] _ _]).
    eapply Hput; try done. by intros He; rewrite He in Ht. }
  destruct l as [r fd from|j| | | | | | |j|j|r|r|r|fd k|fd]; try done; simpl in Hs.
  - destruct (reactors s !! r); simplify_eq/=. repeat case_match; simplify_eq/=; eauto;
      (exists c; split; [by apply lookup_app_l_Some|done]).
  - destruct (conns s !! j) as [d|] eqn:Hj; simplify_eq/=. destruct (reactors s !! _); simplify_eq/=.
    destruct (at_stage d) eqn:Hst; simplify_eq/=. by eapply Hput; try done; congruence.
  - destruct (conns s !! j) as [d|] eqn:Hj; simplify_eq/=.
    destruct (at_stage d) eqn:Hst; simplify_eq/=. by eapply Hput; try done; congruence.
  - destruct (conns s !! j) as [d|] eqn:Hj; simplify_eq/=. destruct (reactors s !! _); simplify_eq/=.
    destruct (at_stage d) eqn:Hst; simplify_eq/=. by eapply Hput; try done; congruence.
  - destruct (reactors s !! r) as [x|]; simplify_eq/=. unfold abort_all. case_match; eauto.
  - destruct (reactors s !! r) as [x|]; simplify_eq/=. case_match; simplify_eq/=.
    rewrite list_lookup_fmap, Hi; simpl. eexists. split; [done|].
    destruct (abort_same r c) as (Hh & _ & [->|(a & f & H1 & _)]); split; try done. congruence.
  - destruct (reactors s !! r) as [x|]; simplify_eq/=.
    rewrite list_lookup_fmap, Hi; simpl. eexists. split; [done|].
    destruct (force_same r c) as (Hh & _ & [->|(a & f & H1 & _)]); split; try done. congruence.
  - case_match; simplify_eq/=. eauto.
  - case_match; simplify_eq/=. eauto.
Qed.

(** The bound starts sound and empty. *)
Definition fresh (a : option A) : Prop :=
  match a with Some b => sound b ∧ active b = 0 | None => True end.

Record session_inv (s : state) : Prop := {
  s_count : count_inv s;
  s_admission : admission_inv s;
  s_conns : conns_inv s;
  s_walks : walks_inv s;
  s_sockets : sockets_inv s }.

Lemma session_inv_reachable a n s :
  fresh a → reachable step (initial a n) s → session_inv s.
Proof.
  intros Ha. apply invariant_rule.
  - split.
    + intros r x Hx. simpl in Hx. by apply lookup_replicate in Hx as [-> _].
    + unfold admission_inv; simpl. by destruct a.
    + intros c Hc. by apply elem_of_nil in Hc.
    + intros r x Hx. simpl in Hx. apply lookup_replicate in Hx as [-> _]. split; [done|].
      intros c ? ? Hc. by apply elem_of_nil in Hc.
    + split; simpl; [intros c Hc; by apply elem_of_nil in Hc|done].
  - intros t l t' [] Hs. split.
    + by apply (count_inv_step t l).
    + by apply (admission_inv_step t l).
    + by apply (conns_inv_step t l).
    + by apply (walks_inv_step t l).
    + by apply (sockets_inv_step t l).
Qed.

Lemma counted_nonneg r c : 0 ≤ counted r c.
Proof. apply bit_nonneg. Qed.
Lemma counted_total_bound r (cs : list conn) : total (counted r) cs ≤ Z.of_nat (length cs).
Proof. apply total_le_length. intros c. apply bit_le_1. Qed.

(** When no accept loop holds a connection and a reactor's count is zero, every connection of
    that reactor has ended. *)
Lemma reactor_drained a n s r x :
  fresh a → reachable step (initial a n) s → Z.of_nat (length (conns s)) < 2 ^ 64 →
  (∀ c, c ∈ conns s → at_stage c ≠ Leased) → reactors s !! r = Some x → wait_sessions x = Some tt →
  ∀ c, c ∈ conns s → home c = r → at_stage c = Ended.
Proof.
  intros Ha Hr Hlen Hnl Hx Hwx c Hc Hh. pose proof (session_inv_reachable a n s Ha Hr) as Hinv.
  unfold wait_sessions in Hwx. destruct (sessions_ x =? 0) eqn:Hz; [|done]. reflect_bools.
  rewrite (s_count s Hinv _ x Hx), wrap64_small in Hz.
  - pose proof (total_0_inv _ _ (counted_nonneg _) Hz c Hc) as Hzero. unfold counted in Hzero.
    rewrite bool_decide_true in Hzero by done. pose proof (Hnl c Hc). by destruct (at_stage c).
  - pose proof (counted_total_bound r (conns s)).
    pose proof (total_nonneg (counted r) (conns s) (counted_nonneg _)). lia.
Qed.

(** So with every count zero, every connection has ended. *)
Lemma session_drained a n s :
  fresh a → reachable step (initial a n) s → Z.of_nat (length (conns s)) < 2 ^ 64 →
  (∀ c, c ∈ conns s → at_stage c ≠ Leased) → (∀ x, x ∈ reactors s → wait_sessions x = Some tt) →
  ∀ c, c ∈ conns s → at_stage c = Ended.
Proof.
  intros Ha Hr Hlen Hnl Hw c Hc. pose proof (session_inv_reachable a n s Ha Hr) as Hinv.
  destruct (s_conns s Hinv c Hc) as [Hh _]. apply lookup_lt_is_Some_2 in Hh as [x Hx].
  eapply (reactor_drained a n s); try done. by eapply Hw, list_elem_of_lookup_2.
Qed.

(** Then every admission is back. *)
Lemma ended_refunded a n s b :
  fresh a → reachable step (initial a n) s → (∀ c, c ∈ conns s → at_stage c = Ended) →
  admission s = Some b → active b = 0.
Proof.
  intros Ha Hr Hend Hb. pose proof (session_inv_reachable a n s Ha Hr) as Hinv.
  pose proof (s_admission s Hinv) as Had.
  unfold admission_inv in Had. rewrite Hb in Had. destruct Had as [_ ->]. apply total_zero.
  intros c Hc. unfold leasing. destruct (lease c) eqn:Hl; [|done].
  destruct (s_conns s Hinv c Hc) as [_ Hne]. by destruct (Hne Hl) as [_ []]; auto.
Qed.

(** ** Theorems *)

(** Whatever the interleaving of accepts, hand-offs, ends and shutdown, a reactor's session
    count is the number of its connections that hold a ticket, so [wait_sessions] blocks
    exactly while there is one. *)
Theorem session_count_exact a n s r x :
  fresh a → reachable step (initial a n) s → Z.of_nat (length (conns s)) < 2 ^ 64 →
  reactors s !! r = Some x →
  sessions_ x = total (counted r) (conns s) ∧
  (wait_sessions x = None ↔
     ∃ c, c ∈ conns s ∧ home c = r ∧ ticketed (at_stage c) = true).
Proof.
  intros Ha Hr Hlen Hx. pose proof (session_inv_reachable a n s Ha Hr) as Hinv.
  pose proof (counted_total_bound r (conns s)).
  pose proof (total_nonneg (counted r) (conns s) (counted_nonneg r)).
  assert (Hc : sessions_ x = total (counted r) (conns s)).
  { rewrite (s_count s Hinv r x Hx). apply wrap64_small. lia. }
  split; [done|]. unfold wait_sessions. rewrite Hc. destruct (_ =? 0) eqn:Hz; reflect_bools.
  - split; [done|]. intros (c & Hcin & Hh & Ht).
    pose proof (total_0_inv _ _ (counted_nonneg r) Hz c Hcin) as Hzero. unfold counted in Hzero.
    by rewrite bool_decide_true, Ht in Hzero.
  - split; [intros _|done]. destruct (total_pos (counted r) (conns s) (counted_nonneg r))
      as (i & c & Hi & Hp); [lia|]. exists c. split; [by eapply conns_elem|].
    unfold counted in Hp. case_bool_decide; simpl in Hp; [|lia].
    by destruct (ticketed (at_stage c)).
Qed.

(** C8: the admissions outstanding are the leases of the connections not yet refunded, never
    more than the maximum; a refund happens at most once per connection, and every way a
    connection can end, a failed launch, a dropped handler and a destroyed frame included,
    passes through it. *)
Theorem session_admission_exact a n s b :
  fresh a → reachable step (initial a n) s → admission s = Some b →
  active b = total leasing (conns s) ∧ active b ≤ maximum b ∧
  (∀ c, c ∈ conns s → lease c = true → at_stage c ≠ Refunded ∧ at_stage c ≠ Ended).
Proof.
  intros Ha Hr Hb. pose proof (session_inv_reachable a n s Ha Hr) as Hinv.
  pose proof (s_admission s Hinv) as Had. unfold admission_inv in Had. rewrite Hb in Had.
  destruct Had as [Hsd Hac]. split_and!; [done|by apply sound_bound|].
  intros c Hc. by apply (s_conns s Hinv c).
Qed.

(** Shutdown reaches every session: once the walk of [abort_all] has run on a reactor, each session
    running there has its token requested, also one that starts later, which then does not
    run at all; once [force_all] has run, each still running had its connection shut down,
    if its socket still is that connection. *)
Theorem session_shutdown_reaches a n s r x c ab fo :
  fresh a → reachable step (initial a n) s → reactors s !! r = Some x →
  c ∈ conns s → home c = r → at_stage c = Running ab fo →
  (walked_ x = true → ab = true) ∧
  (forced_ x = true → fo = true ∧
     (socket_open c = true → ∃ k, sockets s !! descriptor c = Some k ∧ shut k = true)) ∧
  (∀ i s', step s (Start i) = Some s' → walked_ x = true →
     ∀ d, conns s !! i = Some d → home d = r → ∃ d', conns s' !! i = Some d' ∧ at_stage d' = Unwinding).
Proof.
  intros Ha Hr Hx Hc Hh Hst. pose proof (session_inv_reachable a n s Ha Hr) as Hinv.
  destruct (s_walks s Hinv r x Hx) as [Hab Hw]. destruct (Hw c ab fo Hc Hh Hst) as [H1 H2].
  split_and!.
  - done.
  - intros Hf. rewrite (H2 Hf) in Hst. split; [auto|]. intros Ho.
    destruct (si_ok s (s_sockets s Hinv) c Hc Ho) as (k & Hk & _ & Hs). exists k. eauto.
  - intros i s' Hs Haw d Hd Hdr. simpl in Hs. rewrite Hd in Hs; simpl in Hs.
    rewrite Hdr, Hx in Hs; simpl in Hs. destruct (at_stage d) eqn:Hds; simplify_eq.
    unfold run_session. rewrite Haw. eexists. simpl.
    by rewrite list_lookup_insert_eq by (by eapply lookup_lt_Some).
Qed.

(** Forcing shuts down connections of the reactor's own sessions only: a descriptor is
    touched only when a tracked session was accepted on that number and the socket there now
    still has that session's peer, so a number reused for another peer is left alone; and
    nothing is closed or renamed. *)
Theorem force_only_peers (s : state) r x fd k' :
  reactors s !! r = Some x → sockets (force_all s r x) !! fd = Some k' →
  ∃ k, sockets s !! fd = Some k ∧ peername k' = peername k ∧
    (shut k' = true → shut k = true ∨
       ∃ c, c ∈ conns s ∧ tracked r c = true ∧ descriptor c = fd ∧
         ∃ size, peername k = Some (size, peer c)).
Proof.
  intros Hx Hk. unfold force_all in Hk; simpl in Hk. rewrite force_sockets in Hk.
  destruct (sockets s !! fd) as [k|]; simplify_eq/=. exists k. split_and!; try done.
  intros [Hs|He]%orb_true_iff; [by left|right].
  apply existsb_exists in He as (c & Hc & He). reflect_bools.
  exists c. split; [by apply list_elem_of_In|]. split; [done|].
  apply bool_decide_eq_true in H2. split; [done|]. unfold named in H1.
  destruct (peername k) as [[size cur]|]; [|done]. reflect_bools.
  apply bool_decide_eq_true in H3 as ->. eauto.
Qed.

End sessions.

(** ** Witnesses *)

(** Two reactors and at most two connections: one is handed over and runs, one fails to
    launch, a third is refused. *)
Definition peer_of (n : Z) : endpoint := Endpoint (V4 n) 4000.
Definition two : option Admission.State := Some (Admission.make_state 2).
Definition serving : list label :=
  [Accept 0 7 (peer_of 1); Ticket 0; Launch 0 true true; RunPosted 0 true; Start 0;
   Accept 1 8 (peer_of 2); Accept 0 9 (peer_of 3); Ticket 1; Launch 1 false false].
Definition served : state := default (initial two 2) (exec step (initial two 2) serving).

(** Then shutdown: the first is aborted and forced. *)
Definition forced : state :=
  default served (exec step served [AbortAll 0; AbortWalk 0; ForceAll 0]).
Lemma two_fresh : fresh two.
Proof. split; [|done]. split; simpl; unfold u64_max; lia. Qed.

Lemma served_reachable : reachable step (initial two 2) served.
Proof. apply (exec_reachable step _ serving). vm_compute. reflexivity. Qed.
Lemma forced_reachable : reachable step (initial two 2) forced.
Proof.
  apply (exec_reachable_from step _ served [AbortAll 0; AbortWalk 0; ForceAll 0]); [apply served_reachable|].
  vm_compute. reflexivity.
Qed.
Lemma session_count_exact_witness :
  1 = total (counted 0) (conns served) ∧
  (wait_sessions (mkReactor 1 false false false) = None ↔
     ∃ c, c ∈ conns served ∧ home c = 0%nat ∧ ticketed (at_stage c) = true).
Proof.
  apply (session_count_exact two 2 served 0 (mkReactor 1 false false false)).
  - exact two_fresh.
  - exact served_reachable.
  - vm_compute. reflexivity.
  - vm_compute. reflexivity.
Defined.

Lemma session_admission_exact_witness :
  ∃ b, admission served = Some b ∧ active b = 2 ∧ active b ≤ maximum b ∧
    (∀ c, c ∈ conns served → lease c = true → at_stage c ≠ Refunded ∧ at_stage c ≠ Ended).
Proof.
  exists (Admission.mkState 2 2 2 2 1). split; [vm_compute; reflexivity|].
  apply (session_admission_exact two 2 served (Admission.mkState 2 2 2 2 1)).
  - exact two_fresh.
  - exact served_reachable.
  - vm_compute. reflexivity.
Defined.

Definition forced_session : conn := mkConn 0 true 7 (peer_of 1) true (Running true true).

Lemma session_shutdown_reaches_witness :
  forced_session ∈ conns forced ∧
  ∃ k, sockets forced !! 7 = Some k ∧ shut k = true.
Proof.
  assert (Hin : forced_session ∈ conns forced) by (vm_compute; left). split; [exact Hin|].
  destruct (session_shutdown_reaches two 2 forced 0 (mkReactor 1 true true true) forced_session
    true true) as (_ & Hf & _).
  - exact two_fresh.
  - exact forced_reachable.
  - vm_compute. reflexivity.
  - exact Hin.
  - reflexivity.
  - reflexivity.
  - destruct (Hf eq_refl) as [_ Hk]. exact (Hk eq_refl).
Defined.

Lemma force_only_peers_witness :
  ∃ k, sockets served !! 7 = Some k ∧ peername (mkSock (Some (16, peer_of 1)) true) = peername k ∧
    (shut (mkSock (Some (16, peer_of 1)) true) = true → shut k = true ∨
       ∃ c, c ∈ conns served ∧ tracked 0 c = true ∧ descriptor c = 7 ∧
         ∃ size, peername k = Some (size, peer c)).
Proof.
  apply (force_only_peers served 0 (mkReactor 1 false false false) 7).
  - vm_compute. reflexivity.
  - vm_compute. reflexivity.
Defined.

End Session.
