(* ===== verification/System.v ===== *)
(** * reactor.h: the accept loops and the sessions of one server together

    The loops [TcpServer::start] creates and the sessions they hand connections to, as one
    machine: a loop that holds an accepted connection admits it, takes its ticket and launches
    it. The parts are those of Accept.v and Session.v; what is proved there holds here. *)

From S2P Require Import Prelude Net Admission Accept Session.

Module System.

Section system.
Context {P : Net.Platform} {A : Type} `{Bound A}.
Context (make_address : string → result Net.address).

(** ** The code *)

(** The loops of a server of [n] reactors: one shared loop that goes round all of them, or one
    loop for each; [port] is what each is told to bind. *)
Definition configs (n : nat) (bind : Net.BindOptions) (port : nat → Z) (bound : option A)
    : list Accept.config :=
  if negb (Net.reuse_port bind) && bool_decide (1 < n)%nat
  then [Accept.mkConfig true (seq 0 n) bind (port 0%nat) (bool_decide (is_Some bound))]
  else (λ r, Accept.mkConfig false [r] bind (port r) (bool_decide (is_Some bound))) <$> seq 0 n.

(** A loop, its configuration, and the connection it has in hand, by its place among the
    sessions' connections. *)
Record loop := mkLoop { cfg : Accept.config; body : Accept.state; hand : option nat }.

Record state := mkState { loops : list loop; sess : Session.state (A := A) }.

Inductive label :=
| Loop (i : nat) (l : Accept.label)         (* a step of the loop by itself *)
| Take (i : nat) (fd : Z) (from : Net.endpoint)   (* the connection is admitted, or refused *)
| Ticket (i : nat)                          (* [SessionTicket(...)] *)
| Hand (i : nat) (elsewhere ok : bool)      (* [launch_session(...)], [ok] unless it throws *)
| Serve (l : Session.label).                (* the sessions and their shutdown *)

(** The steps a loop takes by itself. *)
Definition alone (l : Accept.label) : bool :=
  match l with Accept.Admit _ | Accept.Launch _ => false | _ => true end.
(** And the sessions. *)
Definition served (l : Session.label) : bool :=
  match l with Session.Accept _ _ _ | Session.Ticket _ | Session.Launch _ _ _ => false | _ => true end.

Definition step (s : state) (l : label) : option state :=
  match l with
  | Loop i l =>
      if alone l then
        x ← loops s !! i;
        b ← Accept.step make_address (cfg x) (body x) l;
        Some (mkState (<[i := mkLoop (cfg x) b (hand x)]> (loops s)) (sess s))
      else None
  | Take i fd from =>
      x ← loops s !! i;
      match Accept.pc (body x) with
      | Accept.Admitting r =>
          z ← Session.step (sess s) (Session.Accept r fd from);
          let k := length (Session.conns (sess s)) in
          let lease := bool_decide (length (Session.conns z) = S k) in
          b ← Accept.step make_address (cfg x) (body x) (Accept.Admit lease);
          Some (mkState (<[i := mkLoop (cfg x) b (if lease then Some k else None)]> (loops s)) z)
      | _ => None
      end
  | Ticket i =>
      x ← loops s !! i;
      match Accept.pc (body x) with
      | Accept.Launching _ =>
          k ← hand x;
          z ← Session.step (sess s) (Session.Ticket k);
          Some (mkState (loops s) z)
      | _ => None
      end
  | Hand i elsewhere ok =>
      x ← loops s !! i;
      match Accept.pc (body x) with
      | Accept.Launching _ =>
          k ← hand x;
          z ← Session.step (sess s) (Session.Launch k elsewhere ok);
          b ← Accept.step make_address (cfg x) (body x) (Accept.Launch (negb ok));
          Some (mkState (<[i := mkLoop (cfg x) b None]> (loops s)) z)
      | _ => None
      end
  | Serve l =>
      if served l then z ← Session.step (sess s) l; Some (mkState (loops s) z) else None
  end.

(** A server that has just spawned its loops. *)
Definition initial (n : nat) (bind : Net.BindOptions) (port : nat → Z) (bound : option A) : state :=
  mkState ((λ c, mkLoop c Accept.initial None) <$> configs n bind port bound)
    (Session.initial bound n).

#[local] Arguments Session.step : simpl never.
#[local] Arguments Accept.step : simpl never.

(** ** The parts run as they do alone *)

Lemma step_sess s l s' :
  step s l = Some s' → sess s' = sess s ∨
  ∃ m, Session.step (sess s) m = Some (sess s') ∧ (served m = true → l = Serve m).
Proof.
  intros Hs. destruct l as [i l|i fd from|i|i elsewhere ok|l]; simpl in Hs.
  - destruct (alone l); [|done]. destruct (loops s !! i) as [x|]; simplify_eq/=.
    destruct (Accept.step _ _ _ l); simplify_eq/=. by left.
  - destruct (loops s !! i) as [x|]; simplify_eq/=. destruct (Accept.pc (body x)); simplify_eq/=.
    destruct (Session.step _ _) as [z|] eqn:Hz; simplify_eq/=.
    destruct (Accept.step _ _ _ _); simplify_eq/=. right. by eexists.
  - destruct (loops s !! i) as [x|]; simplify_eq/=. destruct (Accept.pc (body x)); simplify_eq/=.
    destruct (hand x); simplify_eq/=. destruct (Session.step _ _) as [z|] eqn:Hz; simplify_eq/=. right. by eexists.
  - destruct (loops s !! i) as [x|]; simplify_eq/=. destruct (Accept.pc (body x)); simplify_eq/=.
    destruct (hand x); simplify_eq/=. destruct (Session.step _ _) as [z|] eqn:Hz; simplify_eq/=.
    destruct (Accept.step _ _ _ _); simplify_eq/=. right. by eexists.
  - destruct (served l); [|done]. destruct (Session.step _ l) as [z|] eqn:Hz; simplify_eq/=. right. by eexists.
Qed.

(** What a step does to the loops: none of them moves, or one does, by a step of its own. *)
Lemma step_loops s l s' :
  step s l = Some s' → loops s' = loops s ∨
  ∃ i x b h m, loops s !! i = Some x ∧ loops s' = <[i := mkLoop (cfg x) b h]> (loops s) ∧
    Accept.step make_address (cfg x) (body x) m = Some b.
Proof.
  intros Hs. destruct l as [i l|i fd from|i|i elsewhere ok|l]; simpl in Hs.
  - destruct (alone l); [|done]. destruct (loops s !! i) as [x|] eqn:Hx; simplify_eq/=.
    destruct (Accept.step _ _ _ l) eqn:Hb; simplify_eq/=. right. repeat eexists; eauto.
  - destruct (loops s !! i) as [x|] eqn:Hx; simplify_eq/=. destruct (Accept.pc (body x)); simplify_eq/=.
    destruct (Session.step _ _) as [z|] eqn:Hz; simplify_eq/=.
    destruct (Accept.step _ _ _ _) eqn:Hb; simplify_eq/=. right. repeat eexists; eauto.
  - destruct (loops s !! i) as [x|]; simplify_eq/=. destruct (Accept.pc (body x)); simplify_eq/=.
    destruct (hand x); simplify_eq/=. destruct (Session.step _ _) as [z|]; simplify_eq/=. by left.
  - destruct (loops s !! i) as [x|] eqn:Hx; simplify_eq/=. destruct (Accept.pc (body x)); simplify_eq/=.
    destruct (hand x); simplify_eq/=. destruct (Session.step _ _) as [z|] eqn:Hz; simplify_eq/=.
    destruct (Accept.step _ _ _ _) eqn:Hb; simplify_eq/=. right. repeat eexists; eauto.
  - destruct (served l); [|done]. destruct (Session.step _ l) as [z|]; simplify_eq/=. by left.
Qed.

Lemma sess_reachable n bind port a s :
  reachable step (initial n bind port a) s →
  reachable Session.step (Session.initial a n) (sess s).
Proof.
  revert s. apply invariant_rule; [constructor|]. intros s l s' Hr Hs.
  destruct (step_sess s l s' Hs) as [->|(m & Hm & _)]; [done|]. by eapply reach_step.
Qed.

Definition loops_reached (s : state) : Prop :=
  ∀ x, x ∈ loops s → reachable (Accept.step make_address (cfg x)) Accept.initial (body x).

Lemma loops_reachable n bind port a s :
  reachable step (initial n bind port a) s → loops_reached s.
Proof.
  revert s. apply invariant_rule.
  - intros x (c & -> & _)%list_elem_of_fmap. constructor.
  - intros s l s' Hr Hs. destruct (step_loops s l s' Hs) as [Hl|(i & x & b & h & m & Hx & Hl & Hb)].
    { intros y. rewrite Hl. apply Hr. }
    intros y. rewrite Hl. intros [->|Hy]%elem_insert; [|by apply Hr]. simpl.
    eapply reach_step; [|exact Hb]. apply Hr. by eapply list_elem_of_lookup_2.
Qed.

(** ** Connections in hand *)

(** A connection its loop has not launched yet. *)
Definition early (c : Session.conn) : Prop :=
  Session.at_stage c = Session.Leased ∨ Session.at_stage c = Session.Ticketed.

(** A loop about to launch does nothing else by itself. *)
Lemma launching_alone c b l b' r :
  alone l = true → Accept.pc b = Accept.Launching r → Accept.step make_address c b l = Some b' →
  Accept.pc b' = Accept.Launching r.
Proof.
  intros Hl Hp Hs. unfold Accept.step in Hs. destruct l; try done; simpl in Hs; rewrite Hp in Hs; by simplify_eq/=.
Qed.

(** A loop that has ended stays so. *)
Lemma ended_stays c b l b' y :
  Accept.pc b = Accept.Ended y → Accept.step make_address c b l = Some b' →
  Accept.pc b' = Accept.Ended y.
Proof.
  intros Hp Hs. unfold Accept.step in Hs. destruct l; simpl in Hs; rewrite Hp in Hs; simpl in Hs; simplify_eq/=; try done.
  by destruct (Accept.stopping (Accept.ctl b)); simplify_eq/=.
Qed.

(** The steps of sessions and shutdown leave the connections in hand alone. *)
Definition late (c : Session.conn) : Prop := ¬ early c.

Lemma late_stage (c : Session.conn) :
  Session.at_stage c ≠ Session.Leased → Session.at_stage c ≠ Session.Ticketed → late c.
Proof. by intros H1 H2 [|]. Qed.

Lemma served_conns z l z' :
  served l = true → Session.step z l = Some z' →
  Session.conns z' = Session.conns z ∨
  (∃ i c c', Session.conns z !! i = Some c ∧ late c ∧ late c' ∧
     Session.conns z' = <[i := c']> (Session.conns z)) ∨
  (∃ f, Session.conns z' = f <$> Session.conns z ∧ ∀ c, f c = c ∨ late c ∧ late (f c)).
Proof.
  intros Hl Hs. unfold Session.step in Hs. destruct l; try done; simplify_option_eq.
  all: try (destruct (Session.at_stage _) eqn:Hst; simplify_eq; right; left;
    unfold Session.launch_here, Session.run_session, Session.put, Session.unwind, Session.refund,
      Session.set_reactor; repeat case_match; simplify_eq;
    (do 3 eexists; split; [eassumption|]; split; [apply late_stage; congruence|];
     split; [|reflexivity]; apply late_stage; simpl; congruence)).
  - unfold Session.abort_all. case_match; by left.
  - destruct (_ && _); simplify_eq. right; right. eexists. split; [reflexivity|].
    intros c; cbv beta. destruct (Session.tracked r c) eqn:Ht; [|by left].
    unfold Session.tracked in Ht. destruct (Session.at_stage c) eqn:Hst; try done.
    right. split; apply late_stage; unfold Session.abort; rewrite ?Hst; done.
  - right; right. eexists. split; [reflexivity|].
    intros c; cbv beta. destruct (Session.tracked r c) eqn:Ht; [|by left].
    unfold Session.tracked in Ht. destruct (Session.at_stage c) eqn:Hst; try done.
    right. split; apply late_stage; unfold Session.force; rewrite ?Hst; done.
  - case_match; simplify_eq. by left.
  - case_match; simplify_eq. by left.
Qed.

Lemma served_early z l z' k c :
  served l = true → Session.step z l = Some z' → early c →
  Session.conns z' !! k = Some c ↔ Session.conns z !! k = Some c.
Proof.
  intros Hl Hs Hc. destruct (served_conns z l z' Hl Hs) as [->|[(i & d & d' & Hi & Hd & Hd' & ->)|(f & -> & Hf)]].
  - done.
  - rewrite list_lookup_insert_Some. destruct (decide (i = k)) as [->|]; [|naive_solver].
    rewrite Hi. split; [intros [(_ & <- & _)|[? _]]|intros [= ->]]; done.
  - rewrite list_lookup_fmap, fmap_Some. split.
    + intros (d & Hd & ->). destruct (Hf d) as [->|[_ ?]]; done.
    + intros Hk. exists c. split; [done|]. by destruct (Hf c) as [->|[? _]].
Qed.

(** What the loops' own steps do to the connections. *)
Lemma accept_conns z r fd from z' :
  Session.step z (Session.Accept r fd from) = Some z' →
  (Session.conns z' = Session.conns z ∧ is_Some (Session.admission z)) ∨
  ∃ c, Session.conns z' = Session.conns z ++ [c] ∧ early c ∧ Session.home c = r.
Proof.
  intros Hs. unfold Session.step in Hs. destruct (Session.reactors z !! r); simplify_eq/=.
  destruct (Session.sockets z !! fd); [done|]. destruct (Session.admission z) as [a|]; simplify_eq/=.
  - destruct (try_enter a).1; simpl; [right|by left; eauto]. eexists. split; [reflexivity|]. split; [by left|done].
  - right. eexists. split; [reflexivity|]. split; [by left|done].
Qed.

Lemma ticket_conns z k z' :
  Session.step z (Session.Ticket k) = Some z' →
  ∃ c c', Session.conns z !! k = Some c ∧ early c' ∧ Session.home c' = Session.home c ∧
    Session.conns z' = <[k := c']> (Session.conns z).
Proof.
  intros Hs. unfold Session.step in Hs. destruct (Session.conns z !! k) as [c|] eqn:Hk; simplify_eq/=.
  destruct (Session.reactors z !! _); simplify_eq/=. destruct (Session.at_stage c); simplify_eq/=.
  do 2 eexists. split; [done|]. split; [|split; [|reflexivity]]; [by right|done].
Qed.

Lemma launch_conns z k elsewhere ok z' :
  Session.step z (Session.Launch k elsewhere ok) = Some z' →
  ∃ c c', Session.conns z !! k = Some c ∧ late c' ∧ Session.conns z' = <[k := c']> (Session.conns z).
Proof.
  intros Hs. unfold Session.step in Hs. destruct (Session.conns z !! k) as [c|] eqn:Hk; simplify_eq/=.
  destruct (Session.at_stage c); simplify_eq/=.
  unfold Session.launch_session, Session.launch_here, Session.put, Session.unwind.
  destruct elsewhere, ok; do 2 eexists; (split; [done|]; split; [|reflexivity]; by apply late_stage).
Qed.

(** The bound is given to all loops or to none, and stays. *)
Definition bound_inv (s : state) : Prop :=
  ∀ x, x ∈ loops s → Accept.bounded (cfg x) = bool_decide (is_Some (Session.admission (sess s))).

Lemma session_admission_stays z l z' :
  Session.step z l = Some z' → (is_Some (Session.admission z') ↔ is_Some (Session.admission z)).
Proof.
  intros Hs. unfold Session.step in Hs. destruct l; simplify_option_eq; repeat case_match; simplify_eq/=;
    unfold Session.launch_session, Session.launch_here, Session.run_session, Session.unwind,
      Session.put, Session.abort_all, Session.refund; repeat case_match; simpl; rewrite ?fmap_is_Some; try done.
  all: rewrite ?is_Some_alt; simpl; repeat case_match; done.
Qed.

Lemma bound_inv_step s l s' : bound_inv s → step s l = Some s' → bound_inv s'.
Proof.
  intros Hb Hs x Hx.
  assert (Ha : is_Some (Session.admission (sess s')) ↔ is_Some (Session.admission (sess s))).
  { destruct (step_sess s l s' Hs) as [->|(m & Hm & _)]; [done|]. by apply session_admission_stays in Hm. }
  rewrite (bool_decide_ext _ _ Ha).
  destruct (step_loops s l s' Hs) as [Hl|(i & y & b & h & m & Hy & Hl & _)]; rewrite Hl in Hx; [by apply Hb|].
  apply elem_insert in Hx as [->|Hx]; [|by apply Hb]. simpl. apply Hb. by eapply list_elem_of_lookup_2.
Qed.

(** Connection [k] is not launched yet, and is for reactor [r]. *)
Definition early_at (z : Session.state (A := A)) (k r : nat) : Prop :=
  ∃ c, Session.conns z !! k = Some c ∧ early c ∧ Session.home c = r.

(** Loop [i] is about to launch connection [k]. *)
Definition launches (s : state) (i k : nat) : Prop :=
  ∃ x r, loops s !! i = Some x ∧ Accept.pc (body x) = Accept.Launching r ∧ hand x = Some k ∧
    early_at (sess s) k r.

(** A connection not launched yet is in the hand of exactly one loop, and a loop about to launch
    has one in its hand, for the reactor it chose. *)
Record hands_inv (s : state) : Prop := {
  hi_early : ∀ k r, early_at (sess s) k r → ∃ i, launches s i k;
  hi_loop : ∀ i x r, loops s !! i = Some x → Accept.pc (body x) = Accept.Launching r →
    ∃ k, launches s i k;
  hi_one : ∀ i j k, launches s i k → launches s j k → i = j }.

(** The invariant speaks of the loops about to launch and the early connections only. *)
Lemma hands_ext s s' :
  hands_inv s → (∀ k r, early_at (sess s') k r ↔ early_at (sess s) k r) →
  (∀ i r h, (∃ x, loops s' !! i = Some x ∧ Accept.pc (body x) = Accept.Launching r ∧ hand x = h) ↔
            (∃ x, loops s !! i = Some x ∧ Accept.pc (body x) = Accept.Launching r ∧ hand x = h)) →
  hands_inv s'.
Proof.
  intros [H1 H2 H3] He Hx.
  assert (Hl : ∀ j k, launches s' j k ↔ launches s j k).
  { intros j k. unfold launches. split; intros (x & r & Hj & Hp & Hh & Hk); apply He in Hk.
    - destruct (proj1 (Hx j r (Some k))) as (y & Hy & Hpy & Hhy); eauto 10.
    - destruct (proj2 (Hx j r (Some k))) as (y & Hy & Hpy & Hhy); eauto 10. }
  split.
  - intros k r Hk%He. destruct (H1 k r Hk) as [i Hi]. exists i. by apply Hl.
  - intros i x r Hi Hp. destruct (proj1 (Hx i r (hand x))) as (y & Hy & Hpy & _); [eauto|].
    destruct (H2 i y r Hy Hpy) as [k Hk]. exists k. by apply Hl.
  - intros i j k Hi%Hl Hj%Hl. by apply (H3 i j k).
Qed.

(** A loop that was not about to launch and still is not. *)
Lemma hands_idle s i x b h z :
  hands_inv s → loops s !! i = Some x → (∀ k r, early_at z k r ↔ early_at (sess s) k r) →
  (∀ r, Accept.pc (body x) ≠ Accept.Launching r) → (∀ r, Accept.pc b ≠ Accept.Launching r) →
  hands_inv (mkState (<[i := mkLoop (cfg x) b h]> (loops s)) z).
Proof.
  intros Hinv Hi Hz Hx Hb. apply (hands_ext s); [done|done|]. intros j r h'; simpl.
  destruct (decide (j = i)) as [->|Hne]; [|by rewrite list_lookup_insert_ne by done].
  rewrite list_lookup_insert_eq by (by eapply lookup_lt_Some). rewrite Hi.
  split; intros (y & [= <-] & Hp & _); simpl in Hp; naive_solver.
Qed.

(** A loop takes a connection in hand. *)
Lemma hands_take s i x b z r :
  hands_inv s → loops s !! i = Some x → (∀ r, Accept.pc (body x) ≠ Accept.Launching r) →
  Accept.pc b = Accept.Launching r →
  (∀ k r', early_at z k r' ↔ early_at (sess s) k r' ∨ k = length (Session.conns (sess s)) ∧ r' = r) →
  hands_inv (mkState (<[i := mkLoop (cfg x) b (Some (length (Session.conns (sess s))))]> (loops s)) z).
Proof.
  intros [H1 H2 H3] Hi Hx Hb Hz. set (k0 := length _) in *. set (s' := mkState _ z).
  assert (Hii : loops s' !! i = Some (mkLoop (cfg x) b (Some k0))).
  { simpl. by rewrite list_lookup_insert_eq by (by eapply lookup_lt_Some). }
  assert (Hjj : ∀ j, j ≠ i → loops s' !! j = loops s !! j).
  { intros j Hj. simpl. by rewrite list_lookup_insert_ne by done. }
  assert (Hnew : launches s' i k0).
  { do 2 eexists. split_and!; [exact Hii|done|done|]. apply Hz. auto. }
  assert (Hold : ∀ k r', early_at (sess s) k r' → k ≠ k0).
  { intros k r' (c & Hc & _) ->. apply lookup_lt_Some in Hc. unfold k0 in Hc. lia. }
  assert (Hkeep : ∀ j k, launches s j k → j ≠ i ∧ launches s' j k).
  { intros j k (y & r' & Hy & Hp & Hh & Hk).
    assert (j ≠ i) by (intros ->; simplify_eq; by destruct (Hx r')). split; [done|].
    exists y, r'. rewrite Hjj by done. split_and!; try done. apply Hz. auto. }
  assert (Hback : ∀ j k, launches s' j k → (j = i ∧ k = k0) ∨ (launches s j k ∧ k ≠ k0)).
  { intros j k (y & r' & Hy & Hp & Hh & Hk). destruct (decide (j = i)) as [->|Hj].
    - rewrite Hii in Hy. simplify_eq/=. by left.
    - rewrite Hjj in Hy by done. right.
      destruct (H2 j y r' Hy Hp) as (k' & y' & r'' & Hy' & Hp' & Hh' & Hk').
      rewrite Hy in Hy'. injection Hy' as <-. rewrite Hh in Hh'. injection Hh' as <-.
      split; [by exists y, r''|by eapply Hold]. }
  split.
  - intros k r' [Hk|[-> ->]]%Hz; [|eauto]. destruct (H1 k r' Hk) as [j Hj]. exists j. by apply Hkeep.
  - intros j y r' Hy Hp. destruct (decide (j = i)) as [->|Hj]; [eauto|].
    rewrite Hjj in Hy by done. destruct (H2 j y r' Hy Hp) as [k Hk]. exists k. by apply Hkeep.
  - intros j j' k [[-> ->]|[Hj Hk]]%Hback [[-> Hk']|[Hj' Hk']]%Hback; try done. by apply (H3 j j' k).
Qed.

(** A loop hands its connection over. *)
Lemma hands_hand s i x b z r k0 :
  hands_inv s → loops s !! i = Some x → Accept.pc (body x) = Accept.Launching r → hand x = Some k0 →
  (∀ r, Accept.pc b ≠ Accept.Launching r) →
  (∀ k r', early_at z k r' ↔ early_at (sess s) k r' ∧ k ≠ k0) →
  hands_inv (mkState (<[i := mkLoop (cfg x) b None]> (loops s)) z).
Proof.
  intros [H1 H2 H3] Hi Hx Hh Hb Hz. set (s' := mkState _ z).
  assert (Hii : loops s' !! i = Some (mkLoop (cfg x) b None)).
  { simpl. by rewrite list_lookup_insert_eq by (by eapply lookup_lt_Some). }
  assert (Hjj : ∀ j, j ≠ i → loops s' !! j = loops s !! j).
  { intros j Hj. simpl. by rewrite list_lookup_insert_ne by done. }
  assert (Hmine : launches s i k0).
  { destruct (H2 i x r Hi Hx) as (k & y & r' & Hy & Hp & Hk & He). rewrite Hi in Hy. injection Hy as <-.
    rewrite Hh in Hk. injection Hk as <-. by exists x, r'. }
  assert (Hkeep : ∀ j k, launches s j k → j ≠ i → launches s' j k).
  { intros j k Hl Hj. pose proof Hl as (y & r' & Hy & Hp & Hhy & Hk). exists y, r'.
    rewrite Hjj by done. split_and!; try done. apply Hz. split; [done|]. intros ->.
    by destruct Hj; apply (H3 j i k0). }
  assert (Hback : ∀ j k, launches s' j k → launches s j k).
  { intros j k (y & r' & Hy & Hp & Hhy & Hk). destruct (decide (j = i)) as [->|Hj].
    - rewrite Hii in Hy. simplify_eq/=.
    - rewrite Hjj in Hy by done. exists y, r'. split_and!; try done. by apply Hz in Hk as [? _]. }
  split.
  - intros k r' [Hk Hne]%Hz. destruct (H1 k r' Hk) as [j Hj]. exists j. apply Hkeep; [done|].
    intros ->. destruct Hj as (y & ? & ? & ? & ? & ?). simplify_eq.
  - intros j y r' Hy Hp. destruct (decide (j = i)) as [->|Hj].
    { rewrite Hii in Hy. injection Hy as <-. by destruct (Hb r'). }
    rewrite Hjj in Hy by done. destruct (H2 j y r' Hy Hp) as [k Hk]. exists k. by apply Hkeep.
  - intros j j' k Hj%Hback Hj'%Hback. by apply (H3 j j' k).
Qed.

Lemma early_at_ext z z' :
  (∀ k c, early c → Session.conns z' !! k = Some c ↔ Session.conns z !! k = Some c) →
  ∀ k r, early_at z' k r ↔ early_at z k r.
Proof.
  intros Hz k r. split; intros (c & Hc & He & Hr); exists c; split_and!; try done; by apply Hz.
Qed.

Lemma hands_loop_step s i l s' : hands_inv s → step s (Loop i l) = Some s' → hands_inv s'.
Proof.
  intros Hinv Hs. simpl in Hs. destruct (alone l) eqn:Ha; [|done].
  destruct (loops s !! i) as [x|] eqn:Hi; simplify_eq/=.
  destruct (Accept.step _ _ _ l) as [b|] eqn:Hb; simplify_eq/=.
  destruct (Accept.pc (body x)) as [| | | | | | | | | |r|] eqn:Hp;
    try (apply (hands_idle s); [done..|rewrite Hp; done|];
         unfold Accept.step in Hb; destruct l; try done; simpl in Hb; rewrite Hp in Hb; simplify_eq/=;
         intros r'; repeat case_match; simplify_eq/=; rewrite ?Hp; done).
  pose proof (launching_alone _ _ _ _ r Ha Hp Hb) as Hp'.
  apply (hands_ext s); [done|done|]. intros j r' h; simpl.
  destruct (decide (j = i)) as [->|Hne]; [|by rewrite list_lookup_insert_ne by done].
  rewrite list_lookup_insert_eq by (by eapply lookup_lt_Some). rewrite Hi.
  split; intros (y & [= <-] & Hy & Hh); eexists; split; eauto; simpl in *; split; congruence.
Qed.

Lemma hands_take_step s i fd from s' :
  bound_inv s → hands_inv s → step s (Take i fd from) = Some s' → hands_inv s'.
Proof.
  intros Hbd Hinv Hs. simpl in Hs. destruct (loops s !! i) as [x|] eqn:Hi; simplify_eq/=.
  destruct (Accept.pc (body x)) as [| | | | | | | | |r| |] eqn:Hp; simplify_eq/=.
  destruct (Session.step _ _) as [z|] eqn:Hz; simplify_eq/=.
  destruct (Accept.step _ _ _ _) as [b|] eqn:Hb; simplify_eq/=.
  unfold Accept.step in Hb. rewrite Hp in Hb. injection Hb as Hb.
  destruct (accept_conns _ _ _ _ _ Hz) as [[Hc Hadm]|(c & Hc & He & Hh)]; rewrite Hc in *.
  - rewrite bool_decide_false in * by lia.
    rewrite (Hbd x), bool_decide_true in Hb by (done || by eapply list_elem_of_lookup_2).
    simpl in Hb. subst b. apply (hands_idle s); try done; [|by rewrite Hp].
    apply early_at_ext. intros k c _. by rewrite Hc.
  - rewrite length_app, bool_decide_true in * by (simpl; lia).
    rewrite andb_false_r in Hb. subst b.
    apply (hands_take s i x _ z r); try done; [by rewrite Hp|]. intros k r'. unfold early_at. rewrite Hc.
    split.
    + intros (d & Hd & Hed & Hrd). apply lookup_app_Some in Hd as [Hd|[Hk Hd]]; [eauto|].
      apply list_lookup_singleton_Some in Hd as [Hk0 ->]. right. split; [lia|congruence].
    + intros [(d & Hd & Hed & Hrd)|[-> ->]].
      * exists d. split; [by apply lookup_app_l_Some|done].
      * exists c. by rewrite lookup_app_r, Nat.sub_diag by lia.
Qed.

Lemma hands_ticket_step s i s' : hands_inv s → step s (Ticket i) = Some s' → hands_inv s'.
Proof.
  intros Hinv Hs. simpl in Hs. destruct (loops s !! i) as [x|] eqn:Hi; simplify_eq/=.
  destruct (Accept.pc (body x)) as [| | | | | | | | | |r|] eqn:Hp; simplify_eq/=.
  destruct (hand x) as [k|] eqn:Hh; simplify_eq/=. destruct (Session.step _ _) as [z|] eqn:Hz; simplify_eq/=.
  destruct (ticket_conns _ _ _ Hz) as (c & c' & Hk & He & Hhome & Hc).
  assert (Hec : early c).
  { destruct (hi_loop s Hinv i x r Hi Hp) as (k' & y & r' & Hy & _ & Hh' & d & Hd & Hed & _). congruence. }
  apply (hands_ext s); [done| |done]. intros j r'. unfold early_at; simpl. rewrite Hc.
  destruct (decide (j = k)) as [->|Hne]; [|by rewrite list_lookup_insert_ne by done].
  rewrite list_lookup_insert_eq by (by eapply lookup_lt_Some). rewrite Hk.
  split; intros (d & [= <-] & Hed & Hr); eexists; split_and!; eauto; congruence.
Qed.

Lemma hands_hand_step s i elsewhere ok s' :
  hands_inv s → step s (Hand i elsewhere ok) = Some s' → hands_inv s'.
Proof.
  intros Hinv Hs. simpl in Hs. destruct (loops s !! i) as [x|] eqn:Hi; simplify_eq/=.
  destruct (Accept.pc (body x)) as [| | | | | | | | | |r|] eqn:Hp; simplify_eq/=.
  destruct (hand x) as [k|] eqn:Hh; simplify_eq/=. destruct (Session.step _ _) as [z|] eqn:Hz; simplify_eq/=.
  destruct (Accept.step _ _ _ _) as [b|] eqn:Hb; simplify_eq/=.
  unfold Accept.step in Hb. rewrite Hp in Hb. injection Hb as <-.
  destruct (launch_conns _ _ _ _ _ Hz) as (c & c' & Hk & Hl & Hc).
  apply (hands_hand s i x _ z r k); try done; [by destruct ok|].
  intros j r'. unfold early_at. rewrite Hc. destruct (decide (j = k)) as [->|Hne].
  - rewrite list_lookup_insert_eq by (by eapply lookup_lt_Some).
    split; [intros (d & [= <-] & ? & _)|intros [_ ?]]; done.
  - rewrite list_lookup_insert_ne by done. naive_solver.
Qed.

Lemma hands_step s l s' : bound_inv s → hands_inv s → step s l = Some s' → hands_inv s'.
Proof.
  intros Hbd Hinv Hs. destruct l as [i l|i fd from|i|i elsewhere ok|l].
  - by eapply hands_loop_step.
  - by eapply hands_take_step.
  - by eapply hands_ticket_step.
  - by eapply hands_hand_step.
  - simpl in Hs. destruct (served l) eqn:Hl; [|done].
    destruct (Session.step _ l) as [z|] eqn:Hz; simplify_eq/=.
    apply (hands_ext s); [done| |done]. apply early_at_ext. intros k c He. by eapply served_early.
Qed.

Lemma bound_hands_reachable n bind port a s :
  reachable step (initial n bind port a) s → bound_inv s ∧ hands_inv s.
Proof.
  revert s. apply invariant_rule.
  - assert (Hidle : ∀ i x r, loops (initial n bind port a) !! i = Some x →
      Accept.pc (body x) ≠ Accept.Launching r).
    { intros i x r Hx. simpl in Hx. rewrite list_lookup_fmap, fmap_Some in Hx. by destruct Hx as (c & _ & ->). }
    split; [|split].
    + intros x (c & -> & Hc)%list_elem_of_fmap. simpl. unfold configs in Hc. destruct (_ && _).
      * by apply list_elem_of_singleton in Hc as ->.
      * by apply list_elem_of_fmap in Hc as (r & -> & _).
    + intros k r (c & Hc & _). simpl in Hc. by rewrite lookup_nil in Hc.
    + intros i x r Hx Hp. by destruct (Hidle i x r Hx).
    + intros i j k (x & r & Hx & Hp & _). by destruct (Hidle i x r Hx).
  - intros s l s' [Hb Hh] Hs. split; [by eapply bound_inv_step|by eapply hands_step].
Qed.

Lemma hands_reachable n bind port a s :
  reachable step (initial n bind port a) s → hands_inv s.
Proof. intros Hr. by apply (bound_hands_reachable n bind port a s). Qed.

(** ** After the end *)

(** The loops are over, and so is every connection. *)
Definition over (s : state) : Prop :=
  (∀ x, x ∈ loops s → ∃ y, Accept.pc (body x) = Accept.Ended y) ∧
  ∀ c, c ∈ Session.conns (sess s) → Session.at_stage c = Session.Ended.

(** Nothing of the sessions' moves a connection that has ended. *)
Lemma ended_serve z l z' :
  (∀ c, c ∈ Session.conns z → Session.at_stage c = Session.Ended) → served l = true →
  Session.step z l = Some z' → Session.conns z' = Session.conns z.
Proof.
  intros Hend Hl Hs.
  assert (Hno : ∀ i c, Session.conns z !! i = Some c → Session.at_stage c = Session.Ended).
  { intros i c Hi. by eapply Hend, list_elem_of_lookup_2. }
  assert (Hid : ∀ f : Session.conn → Session.conn, (∀ c, Session.at_stage c = Session.Ended → f c = c) →
    f <$> Session.conns z = Session.conns z).
  { intros f Hf. apply list_eq. intros i. rewrite list_lookup_fmap.
    destruct (Session.conns z !! i) as [c|] eqn:Hi; simpl; [|done]. by rewrite Hf by eauto. }
  unfold Session.step in Hs. destruct l; try done.
  1-7: destruct (Session.conns z !! i) as [c|] eqn:Hi; simplify_eq/=; pose proof (Hno i c Hi) as Hc;
    rewrite Hc in Hs; by (simplify_eq/= || destruct (Session.reactors z !! _); simplify_eq/=).
  - destruct (Session.reactors z !! r); simplify_eq/=. unfold Session.abort_all. by case_match.
  - destruct (Session.reactors z !! r); simplify_eq/=. case_match; simplify_eq/=. apply Hid.
    intros c Hc. unfold Session.tracked. by rewrite Hc.
  - destruct (Session.reactors z !! r); simplify_eq/=. apply Hid.
    intros c Hc. unfold Session.tracked. by rewrite Hc.
  - by case_match; simplify_eq.
  - by case_match; simplify_eq.
Qed.

Lemma over_step s l s' : over s → step s l = Some s' → over s'.
Proof.
  intros [Hl Hc] Hs.
  assert (Hpc : ∀ i x, loops s !! i = Some x → ∃ y, Accept.pc (body x) = Accept.Ended y).
  { intros i x Hx. by eapply Hl, list_elem_of_lookup_2. }
  destruct l as [i l|i fd from|i|i elsewhere ok|l]; simpl in Hs.
  - destruct (alone l); [|done]. destruct (loops s !! i) as [x|] eqn:Hi; simplify_eq/=.
    destruct (Accept.step _ _ _ l) as [b|] eqn:Hb; simplify_eq/=. split; [|done]; simpl.
    intros y [->|Hy]%elem_insert; [|by apply Hl]. destruct (Hpc i x Hi) as [e He]. exists e.
    by eapply ended_stays.
  - destruct (loops s !! i) as [x|] eqn:Hi; simplify_eq/=. destruct (Hpc i x Hi) as [e He]. by rewrite He in Hs.
  - destruct (loops s !! i) as [x|] eqn:Hi; simplify_eq/=. destruct (Hpc i x Hi) as [e He]. by rewrite He in Hs.
  - destruct (loops s !! i) as [x|] eqn:Hi; simplify_eq/=. destruct (Hpc i x Hi) as [e He]. by rewrite He in Hs.
  - destruct (served l) eqn:Hv; [|done]. destruct (Session.step _ l) as [z|] eqn:Hz; simplify_eq/=.
    split; [done|]; simpl. by rewrite (ended_serve _ _ _ Hc Hv Hz).
Qed.

(** *** The loops over a step *)

Definition loops_ended (s : state) : Prop :=
  ∀ x, x ∈ loops s → ∃ y, Accept.pc (body x) = Accept.Ended y.

(** A loop keeps its configuration, and what it was told. *)
Lemma step_loop s l s' i x :
  step s l = Some s' → loops s !! i = Some x →
  ∃ x', loops s' !! i = Some x' ∧ cfg x' = cfg x ∧
    (Accept.stopping (Accept.ctl (body x)) = true → Accept.stopping (Accept.ctl (body x')) = true) ∧
    (Accept.closed (Accept.ctl (body x)) = true → Accept.closed (Accept.ctl (body x')) = true) ∧
    (∀ y, Accept.pc (body x) = Accept.Ended y → Accept.pc (body x') = Accept.Ended y).
Proof.
  intros Hs Hx. destruct (step_loops s l s' Hs) as [->|(j & x' & b & h & m & Hj & -> & Hb)]; [by exists x|].
  destruct (decide (j = i)) as [->|Hne].
  - simplify_eq. rewrite list_lookup_insert_eq by (by eapply lookup_lt_Some). eexists. split; [done|].
    destruct (Accept.step_stays _ _ _ _ _ Hb) as [H1 H2]. split_and!; try done.
    intros y Hy. by eapply ended_stays.
  - rewrite list_lookup_insert_ne by done. by exists x.
Qed.

Lemma step_loops_length s l s' : step s l = Some s' → length (loops s') = length (loops s).
Proof.
  intros Hs. destruct (step_loops s l s' Hs) as [->|(j & x & b & h & m & Hj & -> & Hb)]; [done|].
  by rewrite length_insert.
Qed.

(** With every loop over only the sessions go on. *)
Lemma ended_loops_step s l s' :
  loops_ended s → step s l = Some s' →
  sess s' = sess s ∨ ∃ m, served m = true ∧ Session.step (sess s) m = Some (sess s').
Proof.
  intros Hl Hs.
  assert (Hpc : ∀ i x, loops s !! i = Some x → ∃ y, Accept.pc (body x) = Accept.Ended y).
  { intros i x Hx. by eapply Hl, list_elem_of_lookup_2. }
  destruct l as [i l|i fd from|i|i elsewhere ok|l]; simpl in Hs.
  - left. destruct (alone l); [|done]. destruct (loops s !! i); simplify_eq/=.
    by destruct (Accept.step _ _ _ l); simplify_eq/=.
  - destruct (loops s !! i) as [x|] eqn:Hi; simplify_eq/=. destruct (Hpc i x Hi) as [e He]. by rewrite He in Hs.
  - destruct (loops s !! i) as [x|] eqn:Hi; simplify_eq/=. destruct (Hpc i x Hi) as [e He]. by rewrite He in Hs.
  - destruct (loops s !! i) as [x|] eqn:Hi; simplify_eq/=. destruct (Hpc i x Hi) as [e He]. by rewrite He in Hs.
  - right. destruct (served l) eqn:Hv; [|done]. destruct (Session.step _ l) as [z|] eqn:Hz; simplify_eq/=. eauto.
Qed.

(** Then every connection keeps its place and stays ended. *)
Lemma ended_loops_conns s l s' :
  loops_ended s → step s l = Some s' →
  length (Session.conns (sess s')) = length (Session.conns (sess s)) ∧
  ∀ c', c' ∈ Session.conns (sess s') → ∃ c, c ∈ Session.conns (sess s) ∧
    Session.home c' = Session.home c ∧
    (Session.at_stage c = Session.Ended → Session.at_stage c' = Session.Ended).
Proof.
  intros Hl Hs. destruct (ended_loops_step s l s' Hl Hs) as [->|(m & Hm & Hz)]; [split; eauto|].
  assert (Hlen : length (Session.conns (sess s')) = length (Session.conns (sess s))).
  { eapply Session.step_length; [|done]. by intros r fd from ->. }
  split; [done|]. intros c' [i Hi]%list_elem_of_lookup_1.
  destruct (lookup_lt_is_Some_2 (Session.conns (sess s)) i) as [c Hc];
    [rewrite <-Hlen; by eapply lookup_lt_Some|].
  destruct (Session.step_conn _ _ _ _ _ Hz Hc) as (d & Hd & Hh & He). simplify_eq.
  exists c. split_and!; [by eapply list_elem_of_lookup_2|done|done].
Qed.

(** No connection is in a loop's hand then. *)
Lemma ended_loops_late n bind port a s :
  reachable step (initial n bind port a) s → loops_ended s →
  ∀ c, c ∈ Session.conns (sess s) → late c.
Proof.
  intros Hr Hend c [k Hk]%list_elem_of_lookup_1 He.
  destruct (hi_early s (hands_reachable n bind port a s Hr) k (Session.home c)) as (i & x & r & Hx & Hp & _).
  { exists c. by split_and!. }
  destruct (Hend x (list_elem_of_lookup_2 _ _ _ Hx)) as [y Hy]. congruence.
Qed.

(** ** Theorems *)

(** C14: a server's accept loops and sessions together: a connection that was accepted and not
    yet launched is in the hand of exactly one loop, which is about to launch it on the reactor
    it chose, and a loop about to launch has such a connection; so a connection is never lost
    between the two, and no two loops launch the same one. *)
Theorem handover_exact n bind port a s :
  reachable step (initial n bind port a) s →
  (∀ k r, early_at (sess s) k r → ∃ i, launches s i k ∧ ∀ j, launches s j k → j = i) ∧
  (∀ i x r, loops s !! i = Some x → Accept.pc (body x) = Accept.Launching r → ∃ k, launches s i k) ∧
  reachable Session.step (Session.initial a n) (sess s) ∧
  ∀ x, x ∈ loops s → reachable (Accept.step make_address (cfg x)) Accept.initial (body x).
Proof.
  intros Hr. destruct (hands_reachable n bind port a s Hr) as [H1 H2 H3]. split_and!; try done.
  - intros k r Hk. destruct (H1 k r Hk) as [i Hi]. exists i. split; [done|]. intros j Hj. by apply (H3 j i k).
  - by eapply sess_reachable.
  - by eapply loops_reachable.
Qed.

(** The tail of [stop()]: once every accept loop has ended and then every session count is
    zero, every connection has ended and every admission is back, and it stays so whatever
    still happens: no connection comes after. *)
Theorem system_drained n bind port a s s' :
  Session.fresh a → reachable step (initial n bind port a) s → reachable step s s' →
  Z.of_nat (length (Session.conns (sess s))) < 2 ^ 64 →
  (∀ x, x ∈ loops s → Accept.wait (Accept.ctl (body x)) = Some tt) →
  (∀ x, x ∈ Session.reactors (sess s) → Session.wait_sessions x = Some tt) →
  (∀ c, c ∈ Session.conns (sess s') → Session.at_stage c = Session.Ended) ∧
  ∀ b, Session.admission (sess s') = Some b → active b = 0.
Proof.
  intros Ha Hr Hr' Hlen Hw Hs. pose proof (loops_reachable n bind port a s Hr) as Hlr.
  pose proof (sess_reachable n bind port a s Hr) as Hsr.
  assert (Hend : ∀ x, x ∈ loops s → ∃ y, Accept.pc (body x) = Accept.Ended y).
  { intros x Hx. by apply (Accept.wait_ended make_address (cfg x)); [apply Hlr|apply Hw]. }
  assert (Hover : over s).
  { split; [done|]. apply (Session.session_drained a n); try done.
    intros c Hc Hst. destruct (ended_loops_late n bind port a s Hr Hend c Hc). by left. }
  assert (Hover' : over s') by (revert s' Hr'; by apply invariant_rule; [|exact over_step]).
  split; [apply Hover'|]. intros b. apply (Session.ended_refunded a n); [done| |apply Hover'].
  apply (sess_reachable n bind port a). clear -Hr Hr'. induction Hr'; [done|]. by eapply reach_step.
Qed.

End system.

(** ** Statistics *)

Section stats.
Context {P : Net.Platform} (make_address : string → result Net.address).
Implicit Types (s : state (A := Admission.State)) (z : Session.state (A := Admission.State)).

(** [TcpServer::connection_stats]. *)
Definition connection_stats (a : option Admission.State) : Admission.ConnectionStats :=
  match a with Some a => Admission.stats a | None => Admission.no_stats end.

(** The connections the loops saw refused. *)
Definition is_refused (e : Accept.event) : Z := match e with Accept.Refused _ => 1 | _ => 0 end.
Definition refusals (x : loop) : Z := total is_refused (Accept.log (body x)).

(** The counters of the bound. *)
Definition counters (o : option Admission.State) : option (Z * Z) :=
  (λ a, (Admission.accepted a, Admission.rejected a)) <$> o.

(** They have counted every connection taken and every refusal. *)
Definition stats_inv s : Prop :=
  match counters (Session.admission (sess s)) with
  | Some c => c = (Z.min u64_max (Z.of_nat (length (Session.conns (sess s)))),
                   Z.min u64_max (total refusals (loops s)))
  | None => True
  end.

#[local] Arguments Session.step : simpl never.
#[local] Arguments Accept.step : simpl never.

Lemma refusals_nonneg x : 0 ≤ refusals x.
Proof. apply total_nonneg. by intros []. Qed.

(** A loop by itself counts no refusal. *)
Lemma alone_refusals c b l b' :
  alone l = true → Accept.step make_address c b l = Some b' →
  total is_refused (Accept.log b') = total is_refused (Accept.log b).
Proof.
  intros Hl Hs. unfold Accept.step, Accept.retry in Hs.
  destruct l, (Accept.pc b); simplify_eq; try done; repeat case_match; simplify_eq/=; try done;
    repeat case_match; simplify_eq/=; done.
Qed.

(** Past the accept, the counters of the bound stay. *)
Lemma session_counters z l z' :
  (∀ r fd from, l ≠ Session.Accept r fd from) → Session.step z l = Some z' →
  length (Session.conns z') = length (Session.conns z) ∧
  counters (Session.admission z') = counters (Session.admission z).
Proof.
  intros Hl Hs. split; [by eapply Session.step_length|]. destruct (Session.moves l) as [i|] eqn:Hm.
  { by destruct (Session.step_moved z l z' i Hm Hs) as (c & c' & [_ _ _ -> _ _ _ _ _]). }
  unfold Session.step in Hs. destruct l; try done; [by destruct (Hl r fd from)|..]; simplify_option_eq;
    unfold Session.abort_all; repeat case_match; simplify_eq/=; try done.
    destruct (Session.lease H), (Session.admission z); done.
Qed.

(** One call of [try_enter] for a connection. *)
Lemma accept_counters z r fd from z' c d :
  Session.step z (Session.Accept r fd from) = Some z' →
  counters (Session.admission z) = Some (Z.min u64_max c, Z.min u64_max d) → 0 ≤ c → 0 ≤ d →
  let took := bool_decide (length (Session.conns z') = S (length (Session.conns z))) in
  length (Session.conns z') = (length (Session.conns z) + if took then 1 else 0)%nat ∧
  counters (Session.admission z') =
    Some (Z.min u64_max (c + bit took), Z.min u64_max (d + bit (negb took))).
Proof.
  intros Hs Hc Hc0 Hd0. unfold Session.step in Hs. destruct (Session.reactors z !! r); simplify_eq/=.
  destruct (Session.sockets z !! fd); [done|]. destruct (Session.admission z) as [a|]; simplify_eq/=.
  assert (Hinc : ∀ v, 0 ≤ v → Admission.increment (Z.min u64_max v) = Z.min u64_max (v + 1)).
  { intros v Hv. unfold Admission.increment. destruct (Z.eqb_spec (Z.min u64_max v) u64_max); [lia|].
    rewrite wrap64_small; unfold u64_max in *; lia. }
  unfold Admission.try_enter. destruct (Admission.maximum a <=? Admission.active a); simpl.
  - rewrite bool_decide_false by lia. split; [lia|]. rewrite H, H0, Hinc, Z.add_0_r by done. done.
  - rewrite length_app, bool_decide_true by (simpl; lia). split; [done|].
    rewrite H, H0, Hinc, Z.add_0_r by done. done.
Qed.

Lemma stats_inv_take s i fd from s' :
  bound_inv s → stats_inv s → step make_address s (Take i fd from) = Some s' → stats_inv s'.
Proof.
  intros Hbd Hi Hs. simpl in Hs. destruct (loops s !! i) as [x|] eqn:Hx; simplify_eq/=.
  destruct (Accept.pc (body x)) as [| | | | | | | | |r| |] eqn:Hp; simplify_eq/=.
  destruct (Session.step _ _) as [z|] eqn:Hz; simplify_eq/=.
  destruct (Accept.step _ _ _ _) as [b|] eqn:Hb; simplify_eq/=. unfold stats_inv in *; simpl.
  destruct (Session.admission (sess s)) as [a|] eqn:Ha.
  2:{ destruct (Session.admission z) eqn:Haz; [|done].
      destruct (proj1 (session_admission_stays _ _ _ Hz)) as [? Hn]; [by rewrite Haz|]. by rewrite Ha in Hn. }
  assert (Hcs : counters (Session.admission (sess s)) = counters (Some a)) by (by rewrite Ha).
  simpl in Hi, Hcs. rewrite Hi in Hcs.
  apply (accept_counters _ _ _ _ _ _ _ Hz) in Hcs as [Hlen ->];
    [|lia|apply total_nonneg, refusals_nonneg].
  set (took := bool_decide _) in *. rewrite Hlen, (total_insert _ _ _ _ _ Hx).
  unfold Accept.step in Hb. rewrite Hp in Hb. injection Hb as Hb.
  rewrite (Hbd x), Ha, bool_decide_true in Hb by (done || by eapply list_elem_of_lookup_2).
  unfold refusals at 3 4. subst b. simpl. destruct took; simpl; f_equal; f_equal; lia.
Qed.

Lemma stats_inv_step s l s' :
  bound_inv s → stats_inv s → step make_address s l = Some s' → stats_inv s'.
Proof.
  intros Hbd Hi Hs. destruct l as [i l|i fd from|i|i elsewhere ok|l].
  - simpl in Hs. destruct (alone l) eqn:Hl; [|done]. destruct (loops s !! i) as [x|] eqn:Hx; simplify_eq/=.
    destruct (Accept.step _ _ _ l) as [b|] eqn:Hb; simplify_eq/=. unfold stats_inv in *; simpl.
    rewrite (total_insert _ _ _ _ _ Hx). unfold refusals at 2 3; simpl.
    rewrite (alone_refusals _ _ _ _ Hl Hb), Z.sub_add. done.
  - by eapply stats_inv_take.
  - simpl in Hs. destruct (loops s !! i) as [x|]; simplify_eq/=.
    destruct (Accept.pc (body x)); simplify_eq/=. destruct (hand x); simplify_eq/=.
    destruct (Session.step _ _) as [z|] eqn:Hz; simplify_eq/=.
    apply session_counters in Hz as [Hl Hc]; [|done]. unfold stats_inv; simpl. by rewrite Hl, Hc.
  - simpl in Hs. destruct (loops s !! i) as [x|] eqn:Hx; simplify_eq/=.
    destruct (Accept.pc (body x)) eqn:Hp; simplify_eq/=. destruct (hand x); simplify_eq/=.
    destruct (Session.step _ _) as [z|] eqn:Hz; simplify_eq/=.
    destruct (Accept.step _ _ _ _) as [b|] eqn:Hb; simplify_eq/=.
    apply session_counters in Hz as [Hl Hc]; [|done]. unfold stats_inv; simpl. rewrite Hl, Hc.
    rewrite (total_insert _ _ _ _ _ Hx). unfold refusals at 2 3; simpl.
    unfold Accept.step in Hb. rewrite Hp in Hb. injection Hb as <-.
    destruct ok; simpl; rewrite Z.sub_add; done.
  - simpl in Hs. destruct (served l) eqn:Hl; [|done].
    destruct (Session.step _ l) as [z|] eqn:Hz; simplify_eq/=.
    apply session_counters in Hz as [Hl' Hc]; [|by intros r fd from ->].
    unfold stats_inv; simpl. by rewrite Hl', Hc.
Qed.

(** The bound's maximum never changes. *)
Lemma limit_reachable bound n z :
  reachable Session.step (Session.initial bound n) z →
  Admission.maximum <$> Session.admission z = Admission.maximum <$> bound.
Proof.
  revert z. apply invariant_rule; [done|]. intros z l z' <- Hs.
  destruct (Session.moves l) as [i|] eqn:Hm.
  { by destruct (Session.step_moved z l z' i Hm Hs) as (c & c' & [_ _ _ -> _ _ _ _ _]). }
  unfold Session.step in Hs. destruct l; try done; simplify_option_eq; repeat case_match; simplify_eq/=;
    unfold Session.abort_all; repeat case_match; try done; simplify_eq/=; unfold Admission.try_enter in *.
  all: repeat case_match; simplify_eq/=; try done; by destruct (Session.admission z).
Qed.

Lemma stats_reachable n bind port bound s :
  (∀ a, bound = Some a → Admission.accepted a = 0 ∧ Admission.rejected a = 0) →
  reachable (step make_address) (initial n bind port bound) s → stats_inv s.
Proof.
  intros H0 Hr. induction Hr as [|s l s' Hr IH Hs].
  - unfold stats_inv; simpl. destruct bound as [a|]; [|done]. simpl. destruct (H0 a eq_refl) as [-> ->].
    rewrite total_zero; [done|]. by intros x (c & -> & _)%list_elem_of_fmap.
  - eapply stats_inv_step; [|done|done]. by apply (bound_hands_reachable make_address n bind port bound).
Qed.


End stats.

(** ** A server of one reactor and one connection *)

Definition one : option Admission.State := Some (Admission.make_state 1).
Definition any_address (_ : string) : result Net.address := Returns (Net.V4 0).
Definition begin : state (A := Admission.State) := initial 1 Net.default_bind (λ _, 80) one.
Definition run (s : state) (ls : list label) : state :=
  default s (exec (step (P := Net.linux) any_address) s ls).

(** The loop accepts a connection and has it in hand; then it launches it and is stopped, and
    the session runs to its end. *)
Definition accepting : list label :=
  [Loop 0 Accept.Go; Loop 0 (Accept.SetUp (λ _, None) (Net.Endpoint (Net.V4 0) 80));
   Loop 0 Accept.Go; Loop 0 (Accept.AcceptDone no_error); Loop 0 Accept.Go;
   Take 0 7 (Net.Endpoint (Net.V4 1) 4000)].
Definition ending : list label :=
  [Ticket 0; Hand 0 false true; Loop 0 Accept.Stop; Loop 0 Accept.Go; Serve (Session.Start 0);
   Serve (Session.Finish 0); Serve (Session.Refund 0); Serve (Session.Release 0)].
Definition holding : state := run begin accepting.
Definition finished : state := run holding ending.

Lemma holding_reachable : reachable (step (P := Net.linux) any_address) begin holding.
Proof. apply (exec_reachable _ _ accepting). vm_compute. reflexivity. Qed.
Lemma finished_reachable : reachable (step (P := Net.linux) any_address) begin finished.
Proof.
  apply (exec_reachable_from _ _ holding ending); [apply holding_reachable|]. vm_compute. reflexivity.
Qed.

Lemma handover_exact_witness : ∃ i, launches holding i 0.
Proof.
  destruct (handover_exact (P := Net.linux) any_address 1 Net.default_bind (λ _, 80) one holding)
    as (He & _); [apply holding_reachable|].
  destruct (He 0%nat 0%nat) as (i & Hi & _); [|by exists i].
  eexists. split; [vm_compute; reflexivity|]. split; [by left|reflexivity].
Defined.

(** A second connection is turned away while the first is held. *)
Definition refusing : list label :=
  [Ticket 0; Hand 0 false true; Loop 0 Accept.Go; Loop 0 (Accept.AcceptDone no_error);
   Loop 0 Accept.Go; Take 0 8 (Net.Endpoint (Net.V4 2) 4001)].
Definition refused : state := run holding refusing.


Lemma system_drained_witness :
  length (Session.conns (sess finished)) = 1%nat ∧
  ∀ c, c ∈ Session.conns (sess finished) → Session.at_stage c = Session.Ended.
Proof.
  split; [vm_compute; reflexivity|].
  apply (system_drained (P := Net.linux) any_address 1 Net.default_bind (λ _, 80) one finished finished).
  - split; [|reflexivity]. split; simpl; unfold u64_max; lia.
  - apply finished_reachable.
  - constructor.
  - vm_compute. reflexivity.
  - assert (Hall : Forall (λ x, Accept.wait (Accept.ctl (body x)) = Some tt) (loops finished)).
    { vm_compute. repeat constructor. }
    intros x Hx. exact (Forall_elem _ _ x Hall Hx).
  - assert (Hall : Forall (λ x, Session.wait_sessions x = Some tt) (Session.reactors (sess finished))).
    { vm_compute. repeat constructor. }
    intros x Hx. exact (Forall_elem _ _ x Hall Hx).
Defined.

End System.
