(* ===== verification/Shutdown.v ===== *)
(** * reactor.h: the shutdown of a running server

    [TcpServer::stop], [close] and [destroy_roots] as the thread that calls them, step by step
    against the accept loops and the sessions of System.v, which run on meanwhile: the requests
    to stop, the waits for the accept loops, the two graces and the forcing between them, and
    the destruction of what is left once the loops are joined. *)

From S2P Require Import Prelude Net Admission Accept Session System.

Module Shutdown.

Section shutdown.
Context {P : Net.Platform} {A : Type} `{Bound A}.
Context (make_address : string → result Net.address).

(** ** The code *)

(** Where the calling thread is; a number is the reactor or the accept control its loop is at. *)
Inductive hpc :=
| Serving                            (* [stop()] is not called yet *)
| Aborting (r : nat)                 (* [r->abort_all()] *)
| Walking (r : nat)                  (* inside it: the loop is to run the walk *)
| Stopping (i : nat)                 (* [control->stopping.store(true)] *)
| Posting (i : nat)                  (* [asio::post(... stop_on_owner())] *)
| Reaping (i : nat)                  (* [control->wait()] *)
| Waiting (forced : bool) (r : nat) (drained : bool)   (* [sessions_end_within] *)
| Forcing (r : nat)                  (* [r->force_all()] *)
| Joining (drained : bool)           (* the loops are stopped and their threads joined *)
| Closing                            (* [close()]: what is spawned and has not run is destroyed *)
| Destroying                         (* [destroy_roots()]: the suspended sessions are destroyed *)
| Unloading                          (* the reactors are destroyed, with what is posted to them *)
| Gone.

#[export] Instance hpc_eq_dec : EqDecision hpc.
Proof. solve_decision. Defined.

(** The server, the thread, and the controls whose posted [stop_on_owner] has not run. *)
Record state := mkState {
  sys : System.state (A := A);
  host : hpc;
  posted : list nat }.

Inductive label :=
| Host (expired : bool)              (* the thread goes on; in a wait, whether the time is over *)
| RunPosted (i : nat)                (* a posted [stop_on_owner] runs *)
| Run (l : System.label)             (* an accept loop or a session *)
| Destroy (i : nat).                 (* the phase destroys connection [i]'s handler or frame *)

Definition goto (s : state) (h : hpc) : state := mkState (sys s) h (posted s).
Definition reactors (s : state) : list Session.reactor := Session.reactors (System.sess (sys s)).
Definition conns (s : state) : list Session.conn := Session.conns (System.sess (sys s)).
Definition loops (s : state) : list System.loop := System.loops (sys s).

(** What the loops and sessions do by themselves: not the calls of shutdown. *)
Definition unprompted (l : System.label) : bool :=
  match l with
  | System.Loop _ (Accept.Stop | Accept.StopOnOwner) => false
  | System.Serve l => negb (Session.shuts_down l)
  | _ => true
  end.

(** The threads have not been joined. *)
Definition running (h : hpc) : bool :=
  match h with Closing | Destroying | Unloading | Gone => false | _ => true end.

(** A frame that is ending: a handler of some loop is in the middle of it. *)
Definition ending (st : Session.stage) : bool :=
  match st with Session.Unwinding | Session.Refunded => true | _ => false end.

(** What a phase destroys. *)
Definition victim (h : hpc) (st : Session.stage) : bool :=
  match h, st with
  | Closing, Session.Spawned | Destroying, Session.Running _ _ | Unloading, Session.Posted => true
  | _, _ => false
  end.

(** Whether no connection is at such a stage. *)
Definition none (p : Session.stage → bool) (s : state) : bool :=
  forallb (λ c, negb (p (Session.at_stage c))) (conns s).

(** A call that changes the server, and where the thread goes then. *)
Definition call (s : state) (l : System.label) (h : hpc) : option state :=
  y ← System.step make_address (sys s) l; Some (mkState y h (posted s)).

Definition host_step (s : state) (expired : bool) : option state :=
  let n := length (reactors s) in
  let m := length (loops s) in
  match host s with
  | Serving => Some (goto s (Aborting 0))
  | Aborting r =>
      if decide (r < n)%nat then
        x ← reactors s !! r;
        call s (System.Serve (Session.AbortAll r))
          (if Session.aborting_ x then Aborting (S r) else Walking r)
      else Some (goto s (Stopping 0))
  | Walking r => call s (System.Serve (Session.AbortWalk r)) (Aborting (S r))
  | Stopping i =>
      if decide (i < m)%nat then call s (System.Loop i Accept.Stop) (Posting i)
      else Some (goto s (Reaping 0))
  | Posting i => Some (mkState (sys s) (Stopping (S i)) (posted s ++ [i]))
  | Reaping i =>
      if decide (i < m)%nat then
        x ← loops s !! i;
        _ ← Accept.wait (Accept.ctl (System.body x));
        Some (goto s (Reaping (S i)))
      else Some (goto s (Waiting false 0 true))
  | Waiting forced r drained =>
      if decide (r < n)%nat then
        x ← reactors s !! r;
        match Session.wait_sessions x with
        | Some _ => Some (goto s (Waiting forced (S r) drained))
        | None => if expired then Some (goto s (Waiting forced (S r) false)) else None
        end
      else Some (goto s (if drained || forced then Joining drained else Forcing 0))
  | Forcing r =>
      if decide (r < n)%nat then call s (System.Serve (Session.ForceAll r)) (Forcing (S r))
      else Some (goto s (Waiting true 0 true))
  | Joining _ => if none ending s then Some (goto s Closing) else None
  | Closing => if none (victim Closing) s then Some (goto s Destroying) else None
  | Destroying => if none (victim Destroying) s then Some (goto s Unloading) else None
  | Unloading => if none (victim Unloading) s then Some (goto s Gone) else None
  | Gone => None
  end.

(** A frame destroyed, with its ticket. *)
Definition destroying (i : nat) : list System.label :=
  [System.Serve (Session.Drop i); System.Serve (Session.Refund i); System.Serve (Session.Release i)].

Definition step (s : state) (l : label) : option state :=
  match l with
  | Host expired => host_step s expired
  | RunPosted i =>
      if running (host s) && bool_decide (i ∈ posted s) then
        y ← System.step make_address (sys s) (System.Loop i Accept.StopOnOwner);
        Some (mkState y (host s) (filter (λ j, j ≠ i) (posted s)))
      else None
  | Run l => if running (host s) && unprompted l then call s l (host s) else None
  | Destroy i =>
      c ← conns s !! i;
      if victim (host s) (Session.at_stage c) then
        y ← exec (System.step make_address) (sys s) (destroying i);
        Some (mkState y (host s) (posted s))
      else None
  end.

Definition initial (n : nat) (bind : Net.BindOptions) (port : nat → Z) (a : option A) : state :=
  mkState (System.initial n bind port a) Serving [].

#[local] Arguments System.step : simpl never.
#[local] Arguments exec : simpl never.

(** ** How far the thread is *)

(** The reactors aborted, the controls told to stop, those whose [stop_on_owner] is posted,
    those reaped, the reactors forced, and those seen without a session since. *)
Definition aborted (h : hpc) (n : nat) : nat :=
  match h with Serving => 0 | Aborting r | Walking r => r | _ => n end.
Definition told (h : hpc) (m : nat) : nat :=
  match h with Serving | Aborting _ | Walking _ => 0 | Stopping i => i | Posting i => S i | _ => m end.
Definition asked (h : hpc) (m : nat) : nat :=
  match h with Serving | Aborting _ | Walking _ => 0 | Stopping i | Posting i => i | _ => m end.
Definition reaped (h : hpc) (m : nat) : nat :=
  match h with
  | Serving | Aborting _ | Walking _ | Stopping _ | Posting _ => 0
  | Reaping i => i
  | _ => m
  end.
Definition forced (h : hpc) (n : nat) : nat :=
  match h with Forcing r => r | Waiting true _ _ | Joining false => n | _ => 0 end.
Definition drained (h : hpc) (n : nat) : nat :=
  match h with Waiting _ r true => r | Joining true => n | _ => 0 end.

(** The stages that cannot be any more. *)
Definition cleared (h : hpc) (st : Session.stage) : bool :=
  match h, st with
  | (Closing | Destroying | Unloading | Gone), (Session.Unwinding | Session.Refunded) => true
  | (Destroying | Unloading | Gone), Session.Spawned => true
  | (Unloading | Gone), Session.Running _ _ => true
  | Gone, Session.Posted => true
  | _, _ => false
  end.

(** What an accept loop has of a stop it was told of. *)
Definition told_stop (x : System.loop) : Prop := Accept.stopping (Accept.ctl (System.body x)) = true.
Definition over (x : System.loop) : Prop := ∃ y, Accept.pc (System.body x) = Accept.Ended y.
Definition asked_stop (i : nat) (posted : list nat) (x : System.loop) : Prop :=
  i ∈ posted ∨ Accept.closed (Accept.ctl (System.body x)) = true ∨ over x.

Record host_inv (s : state) : Prop := {
  h_walk : ∀ r, host s = Walking r → (r < length (reactors s))%nat;
  h_abort : ∀ r x, reactors s !! r = Some x →
    if decide (r < aborted (host s) (length (reactors s)))%nat then Session.walked_ x = true
    else Session.aborting_ x = bool_decide (host s = Walking r) ∧ Session.walked_ x = false;
  h_told : ∀ i x, loops s !! i = Some x → (i < told (host s) (length (loops s)))%nat → told_stop x;
  h_asked : ∀ i x, loops s !! i = Some x → (i < asked (host s) (length (loops s)))%nat →
    asked_stop i (posted s) x;
  h_reaped : ∀ i x, loops s !! i = Some x → (i < reaped (host s) (length (loops s)))%nat → over x;
  h_forced : ∀ r x, reactors s !! r = Some x →
    (r < forced (host s) (length (reactors s)))%nat → Session.forced_ x = true;
  h_drained : Z.of_nat (length (conns s)) < 2 ^ 64 → ∀ c, c ∈ conns s →
    (Session.home c < drained (host s) (length (reactors s)))%nat → Session.at_stage c = Session.Ended;
  h_cleared : ∀ c, c ∈ conns s → cleared (host s) (Session.at_stage c) = false }.

(** ** The server under it *)

Abbreviation reach n bind port a := (reachable (System.step make_address) (System.initial n bind port a)).

Lemma sys_reachable n bind port a s :
  reachable step (initial n bind port a) s → reach n bind port a (sys s).
Proof.
  revert s. apply invariant_rule; [constructor|]. intros s l s' Hr Hs.
  assert (Hcall : ∀ l h, call s l h = Some s' → reach n bind port a (sys s')).
  { intros l' h Hc. unfold call in Hc. destruct (System.step _ _ l') as [y|] eqn:Hy; simplify_eq/=.
    by eapply reach_step. }
  destruct l as [e|i|l|i]; simpl in Hs.
  - unfold host_step in Hs. destruct (host s); simplify_option_eq; repeat case_match; simplify_option_eq; eauto.
  - case_match; [|done]. destruct (System.step _ _ _) as [y|] eqn:Hy; simplify_eq/=. by eapply reach_step.
  - case_match; [|done]. eauto.
  - destruct (conns s !! i); simplify_eq/=. case_match; [|done].
    destruct (exec _ _ _) as [y|] eqn:Hy; simplify_eq/=. by eapply exec_reachable_from.
Qed.

(** A step of the server, as the invariant sees it. *)
Record moved (s s' : System.state (A := A)) : Prop := {
  mv_flags : Session.flags <$> Session.reactors (System.sess s') =
             Session.flags <$> Session.reactors (System.sess s);
  mv_length : length (System.loops s') = length (System.loops s);
  mv_loop : ∀ i x', System.loops s' !! i = Some x' → ∃ x, System.loops s !! i = Some x ∧
    (told_stop x → told_stop x') ∧ (over x → over x') ∧
    (Accept.closed (Accept.ctl (System.body x)) = true →
     Accept.closed (Accept.ctl (System.body x')) = true);
  mv_conns : System.loops_ended s →
    length (Session.conns (System.sess s')) = length (Session.conns (System.sess s)) ∧
    ∀ c', c' ∈ Session.conns (System.sess s') → ∃ c, c ∈ Session.conns (System.sess s) ∧
      Session.home c' = Session.home c ∧
      (Session.at_stage c = Session.Ended → Session.at_stage c' = Session.Ended) }.

Lemma server_moves s l s' :
  System.step make_address s l = Some s' →
  (∀ m, l = System.Serve m → Session.shuts_down m = false) → moved s s'.
Proof.
  intros Hs Hl. pose proof (System.step_loops_length _ _ _ _ Hs) as Hlen. split; [|done|..].
  - destruct (System.step_sess _ _ _ _ Hs) as [->|(m & Hm & Hsd)]; [done|].
    eapply Session.step_flags; [|done]. destruct (Session.shuts_down m) eqn:Hd; [|done].
    rewrite <-Hd. apply Hl, Hsd. by destruct m.
  - intros i x' Hx'. destruct (lookup_lt_is_Some_2 (System.loops s) i) as [x Hx];
      [rewrite <-Hlen; by eapply lookup_lt_Some|].
    destruct (System.step_loop _ _ _ _ _ _ Hs Hx) as (y & Hy & _ & H1 & H2 & H3). simplify_eq.
    exists x. split_and!; try done. intros [e He]. exists e. auto.
  - intros He. by eapply System.ended_loops_conns.
Qed.

Lemma flags_lookup (l l' : list Session.reactor) r x' :
  Session.flags <$> l' = Session.flags <$> l → l' !! r = Some x' →
  ∃ x, l !! r = Some x ∧ Session.flags x' = Session.flags x.
Proof.
  intros Hf Hx. assert (Hr : (Session.flags <$> l) !! r = Some (Session.flags x')).
  { by rewrite <-Hf, list_lookup_fmap, Hx. }
  rewrite list_lookup_fmap, fmap_Some in Hr. destruct Hr as (x & Hx' & Heq). eauto.
Qed.

(** Past the reaping every loop is over. *)
Lemma reaped_ended s :
  host_inv s → reaped (host s) (length (loops s)) = length (loops s) → System.loops_ended (sys s).
Proof.
  intros Hi Hr x [i Hx]%list_elem_of_lookup_1. eapply (h_reaped s Hi); [done|].
  rewrite Hr. by eapply lookup_lt_Some.
Qed.

Lemma drained_reaped h n m r : (r < drained h n)%nat → reaped h m = m.
Proof. destruct h as [| | | | | |? ? []| |[]| | | |]; simpl; lia. Qed.

(** The server moves and the thread stays where it is. *)
Lemma inv_frame s s' :
  host_inv s → host s' = host s → running (host s) = true → moved (sys s) (sys s') →
  (∀ i x, loops s' !! i = Some x → i ∈ posted s → asked_stop i (posted s') x) → host_inv s'.
Proof.
  intros Hi Hh Hrun Hm Hp. destruct Hm as [Hf Hl Hlp Hc].
  assert (Hn : length (reactors s') = length (reactors s)).
  { apply (f_equal length) in Hf. by rewrite !length_fmap in Hf. }
  unfold loops in *. split; rewrite Hh, ?Hn; unfold loops; rewrite ?Hl; [apply Hi|..].
  - intros r x Hx. destruct (flags_lookup _ _ _ _ Hf Hx) as (y & Hy & Heq).
    pose proof (h_abort s Hi r y Hy) as Ha. unfold Session.flags in Heq. simplify_eq.
    case_decide; [congruence|]. destruct Ha. split; congruence.
  - intros i x Hx Hlt. destruct (Hlp i x Hx) as (y & Hy & H1 & _). apply H1. by apply (h_told s Hi i y).
  - intros i x Hx Hlt. destruct (Hlp i x Hx) as (y & Hy & _ & H2 & H3).
    destruct (h_asked s Hi i y Hy Hlt) as [?|[?|?]]; [by apply Hp|right; left; auto|right; right; auto].
  - intros i x Hx Hlt. destruct (Hlp i x Hx) as (y & Hy & _ & H2 & _). apply H2. by apply (h_reaped s Hi i y).
  - intros r x Hx Hlt. destruct (flags_lookup _ _ _ _ Hf Hx) as (y & Hy & Heq).
    pose proof (h_forced s Hi r y Hy Hlt). unfold Session.flags in Heq. congruence.
  - intros Hlen c Hcin Hlt.
    destruct (Hc (reaped_ended s Hi (drained_reaped _ _ _ _ Hlt))) as [Hcl Hcs].
    destruct (Hcs c Hcin) as (d & Hd & Hdh & Hde). apply Hde. apply (h_drained s Hi); [|done|by rewrite <-Hdh].
    unfold conns in *. by rewrite <-Hcl.
  - intros c _. by destruct (host s).
Qed.

(** ** The thread's own steps *)

(** It goes on and the server is as it was. *)
Lemma inv_goto s h :
  host_inv s → (∀ r, h ≠ Walking r) → let n := length (reactors s) in let m := length (loops s) in
  (∀ r, (r < n)%nat → (r < aborted h n ↔ r < aborted (host s) n)%nat ∧
     bool_decide (h = Walking r) = bool_decide (host s = Walking r)) →
  (∀ i, (i < m)%nat → (i < told h m → i < told (host s) m)%nat ∧ (i < asked h m → i < asked (host s) m)%nat) →
  (∀ i x, loops s !! i = Some x → (i < reaped h m)%nat → over x) →
  (∀ r, (r < n)%nat → (r < forced h n → r < forced (host s) n)%nat) →
  (Z.of_nat (length (conns s)) < 2 ^ 64 → ∀ c, c ∈ conns s →
     (Session.home c < drained h n)%nat → Session.at_stage c = Session.Ended) →
  (∀ c, c ∈ conns s → cleared h (Session.at_stage c) = false) → host_inv (goto s h).
Proof.
  intros Hi Hw n m Ha Ht Hr Hf Hd Hc. split; change (reactors (goto s h)) with (reactors s);
    change (loops (goto s h)) with (loops s); change (conns (goto s h)) with (conns s);
    fold n; fold m; cbn [host posted goto]; try done; [by intros r Hwr%Hw|..].
  - intros r x Hx. destruct (Ha r (lookup_lt_Some _ _ _ Hx)) as [H1 ->].
    pose proof (h_abort s Hi r x Hx) as Hx'. fold n in Hx' |- *.
    destruct (decide (r < aborted h n)%nat), (decide (r < aborted (host s) n)%nat); by (done || tauto).
  - intros i x Hx Hlt. apply (h_told s Hi i x Hx). by apply (Ht i (lookup_lt_Some _ _ _ Hx)).
  - intros i x Hx Hlt. apply (h_asked s Hi i x Hx). by apply (Ht i (lookup_lt_Some _ _ _ Hx)).
  - intros r x Hx Hlt. apply (h_forced s Hi r x Hx). by apply (Hf r (lookup_lt_Some _ _ _ Hx)).
Qed.

Lemma inv_aborting s r x :
  host_inv s → host s = Aborting r → reactors s !! r = Some x →
  ∀ s', call s (System.Serve (Session.AbortAll r))
          (if Session.aborting_ x then Aborting (S r) else Walking r) = Some s' → host_inv s'.
Proof.
  intros Hi Hh Hx s' Hs. pose proof (h_abort s Hi r x Hx) as Hax. rewrite Hh in Hax. simpl in Hax.
  rewrite decide_False in Hax by lia. destruct Hax as [Hab Hwx].
  rewrite Hab in Hs. unfold call, System.step in Hs. simpl in Hs.
  unfold reactors in Hx. rewrite Hx in Hs. simpl in Hs. unfold Session.abort_all in Hs.
  rewrite Hab in Hs. simplify_eq/=. split; unfold reactors, loops, conns; simpl; try done; try lia.
  - intros r' [= <-]. rewrite length_insert. by eapply lookup_lt_Some.
  - intros r' y Hy. rewrite ?length_insert. apply list_lookup_insert_Some in Hy as [(<- & <- & _)|[Hne Hy]].
    + rewrite decide_False by lia. simpl. by rewrite bool_decide_true.
    + pose proof (h_abort s Hi r' y Hy) as Hy'. rewrite Hh in Hy'. simpl in Hy'.
      case_decide; [done|]. rewrite bool_decide_false in * by (intros [= ?]; done). done.
Qed.

Lemma inv_walking s r :
  host_inv s → host s = Walking r →
  ∀ s', call s (System.Serve (Session.AbortWalk r)) (Aborting (S r)) = Some s' → host_inv s'.
Proof.
  intros Hi Hh s' Hs. unfold call, System.step in Hs. simpl in Hs.
  destruct (Session.reactors (System.sess (sys s)) !! r) as [x|] eqn:Hx; simplify_eq/=.
  case_match; simplify_eq/=. reflect_bools.
  split; unfold reactors, loops, conns; simpl; try done; try lia.
  - intros r' y Hy. rewrite ?length_insert. apply list_lookup_insert_Some in Hy as [(<- & <- & _)|[Hne Hy]].
    + rewrite decide_True by lia. done.
    + pose proof (h_abort s Hi r' y Hy) as Hy'. rewrite Hh in Hy'. simpl in Hy'.
      destruct (decide (r' < r)%nat); [by rewrite decide_True by lia|]. rewrite decide_False by lia.
      by rewrite bool_decide_false in Hy' by (intros [= ?]; done).
Qed.

Lemma inv_stopping s i :
  host_inv s → host s = Stopping i →
  ∀ s', call s (System.Loop i Accept.Stop) (Posting i) = Some s' → host_inv s'.
Proof.
  intros Hi Hh s' Hs. unfold call, System.step in Hs. simpl in Hs.
  destruct (System.loops (sys s) !! i) as [x|] eqn:Hx; simplify_eq/=.
  split; unfold reactors, loops, conns; simpl; try done; try lia.
  - intros r y Hy. pose proof (h_abort s Hi r y Hy) as Hy'. by rewrite Hh in Hy'.
  - intros j y Hy Hj. apply list_lookup_insert_Some in Hy as [(<- & <- & _)|[Hne Hy]]; [done|].
    apply (h_told s Hi j y Hy). rewrite Hh. simpl. lia.
  - intros j y Hy Hj. apply list_lookup_insert_Some in Hy as [(<- & <- & _)|[Hne Hy]]; [lia|].
    apply (h_asked s Hi j y Hy). by rewrite Hh.
Qed.

Lemma inv_posting s i :
  host_inv s → host s = Posting i → host_inv (mkState (sys s) (Stopping (S i)) (posted s ++ [i])).
Proof.
  intros Hi Hh. split; unfold reactors, loops, conns; simpl; try done; try lia.
  - intros r y Hy. pose proof (h_abort s Hi r y Hy) as Hy'. by rewrite Hh in Hy'.
  - intros j y Hy Hj. apply (h_told s Hi j y Hy). by rewrite Hh.
  - intros j y Hy Hj. destruct (decide (j = i)) as [->|Hne]; [left; apply elem_of_app; right; left|].
    destruct (h_asked s Hi j y Hy) as [?|?]; [rewrite Hh; simpl; lia| |by right].
    left. apply elem_of_app. by left.
Qed.

Lemma inv_forcing s r :
  host_inv s → host s = Forcing r →
  ∀ s', call s (System.Serve (Session.ForceAll r)) (Forcing (S r)) = Some s' → host_inv s'.
Proof.
  intros Hi Hh s' Hs. unfold call, System.step in Hs. simpl in Hs.
  destruct (Session.reactors (System.sess (sys s)) !! r) as [x|] eqn:Hx; simplify_eq/=.
  split; unfold reactors, loops, conns; simpl; try done.
  - intros r' y Hy. rewrite ?length_insert.
    assert (∃ z, Session.reactors (System.sess (sys s)) !! r' = Some z ∧ Session.walked_ y = Session.walked_ z ∧
      Session.aborting_ y = Session.aborting_ z) as (z & Hz & -> & ->).
    { apply list_lookup_insert_Some in Hy as [(<- & <- & _)|[Hne Hy]]; eauto. }
    pose proof (h_abort s Hi r' z Hz) as Hz'. rewrite Hh in Hz'. exact Hz'.
  - intros j y Hy Hj. apply (h_told s Hi j y Hy). by rewrite Hh.
  - intros j y Hy Hj. apply (h_asked s Hi j y Hy). by rewrite Hh.
  - intros j y Hy Hj. apply (h_reaped s Hi j y Hy). by rewrite Hh.
  - intros r' y Hy Hr. apply list_lookup_insert_Some in Hy as [(<- & <- & _)|[Hne Hy]]; [done|].
    apply (h_forced s Hi r' y Hy). rewrite Hh. simpl. lia.
  - intros _ c _ Hc. lia.
Qed.

(** A wait that returned: the loop is over, the reactor's sessions have ended. *)
Lemma wait_over n bind port a s i x :
  reach n bind port a (sys s) → loops s !! i = Some x →
  Accept.wait (Accept.ctl (System.body x)) = Some tt → over x.
Proof.
  intros Hr Hx Hw. apply (Accept.wait_ended make_address (System.cfg x)); [|done].
  eapply System.loops_reachable; [done|]. by eapply list_elem_of_lookup_2.
Qed.

Lemma wait_drained n bind port a s r x :
  Session.fresh a → reach n bind port a (sys s) → System.loops_ended (sys s) →
  Z.of_nat (length (conns s)) < 2 ^ 64 → reactors s !! r = Some x → Session.wait_sessions x = Some tt →
  ∀ c, c ∈ conns s → Session.home c = r → Session.at_stage c = Session.Ended.
Proof.
  intros Ha Hr He Hlen Hx Hw. apply (Session.reactor_drained a n _ r x); try done.
  - by eapply System.sess_reachable.
  - intros c Hc Hl. destruct (System.ended_loops_late make_address n bind port a _ Hr He c Hc). by left.
Qed.

Lemma none_spec p s : none p s = true → ∀ c, c ∈ conns s → p (Session.at_stage c) = false.
Proof.
  unfold none. rewrite forallb_forall. intros Hn c Hc. apply list_elem_of_In in Hc.
  specialize (Hn c Hc). by apply negb_true_iff in Hn.
Qed.

(** The thread past the joins: only the stages matter. *)
Lemma inv_cleared s h :
  host_inv s → running h = false → running (host s) = false ∨ (∃ d, host s = Joining d) →
  (∀ c, c ∈ conns s → cleared h (Session.at_stage c) = false) → host_inv (goto s h).
Proof.
  intros Hi Hh Hs Hc. set (n := length (reactors s)). set (m := length (loops s)).
  assert (Hp : aborted h n = n ∧ told h m = m ∧ asked h m = m ∧ (∀ r, h ≠ Walking r) ∧
    forced h n = 0%nat ∧ drained h n = 0%nat) by (by destruct h).
  assert (Hp' : aborted (host s) n = n ∧ told (host s) m = m ∧ asked (host s) m = m ∧
    reaped (host s) m = m ∧ ∀ r, host s ≠ Walking r).
  { destruct Hs as [Hs|[d ->]]; [|done]. by destruct (host s). }
  destruct Hp as (H1 & H2 & H3 & H4 & H5 & H6), Hp' as (J1 & J2 & J3 & J4 & J5).
  apply inv_goto; fold n; fold m; rewrite ?H1, ?H2, ?H3, ?H5, ?H6, ?J1, ?J2, ?J3; try done; try lia.
  - intros r _. split; [done|]. by rewrite !bool_decide_false by done.
  - intros i x Hx _. apply (reaped_ended s Hi J4). by eapply list_elem_of_lookup_2.
Qed.

Lemma inv_waiting s forced r dr forced' r' dr' :
  host_inv s → host s = Waiting forced r dr → (forced' = true → forced = true) →
  (Z.of_nat (length (conns s)) < 2 ^ 64 → ∀ c, c ∈ conns s →
     (Session.home c < drained (Waiting forced' r' dr') (length (reactors s)))%nat →
     Session.at_stage c = Session.Ended) →
  host_inv (goto s (Waiting forced' r' dr')).
Proof.
  intros Hi Hh Hf Hd. apply inv_goto; rewrite ?Hh; try done.
  - intros i x Hx Hlt. apply (h_reaped s Hi i x Hx). by rewrite Hh.
  - intros i Hlt. destruct forced', forced; simpl; lia.
Qed.

Lemma inv_waited n bind port a s forced r dr x :
  Session.fresh a → reach n bind port a (sys s) → host_inv s → host s = Waiting forced r dr →
  reactors s !! r = Some x → Session.wait_sessions x = Some tt →
  host_inv (goto s (Waiting forced (S r) dr)).
Proof.
  intros Ha Hr Hi Hh Hx Hw. apply (inv_waiting s forced r dr); try done.
  intros Hlen c Hc Hhc. destruct dr; simpl in Hhc; [|lia].
  destruct (decide (Session.home c = r)) as [He|].
  - eapply (wait_drained n bind port a s r x); eauto. apply (reaped_ended s Hi). by rewrite Hh.
  - apply (h_drained s Hi Hlen c Hc). rewrite Hh. simpl. lia.
Qed.

(** A phase that has nothing left to destroy. *)
Definition next_phase (h : hpc) : hpc :=
  match h with Closing => Destroying | Destroying => Unloading | _ => Gone end.

Lemma inv_phase_over s h :
  host_inv s → host s = h → running h = false → h ≠ Gone → none (victim h) s = true →
  host_inv (goto s (next_phase h)).
Proof.
  intros Hi Hh Hrun Hg Hn. apply inv_cleared; [done|by destruct h|left; by rewrite Hh|].
  intros c Hc. pose proof (none_spec _ _ Hn c Hc) as Hst. pose proof (h_cleared s Hi c Hc) as Hcl.
  rewrite Hh in Hcl. by destruct h, (Session.at_stage c).
Qed.

(** The thread goes on to the next loop of [stop]; what is left is what the step is about. *)
Ltac go_on Hh :=
  apply inv_goto; rewrite ?Hh; simpl; try done; try lia; try (intros ? ?; split; [lia|done]).

Lemma inv_host n bind port a s e s' :
  Session.fresh a → reach n bind port a (sys s) → host_inv s → host_step s e = Some s' → host_inv s'.
Proof.
  intros Ha Hr Hi Hs. unfold host_step in Hs.
  assert (Hrp : reaped (host s) (length (loops s)) = length (loops s) → System.loops_ended (sys s))
    by (by apply reaped_ended).
  assert (Hov : ∀ i x, loops s !! i = Some x → (i < reaped (host s) (length (loops s)))%nat → over x)
    by (apply Hi).
  destruct (host s) as [|r|r|i|i|i|f r d|r|d| | | |] eqn:Hh; simplify_eq.
  - go_on Hh.
  - case_decide as Hlt.
    + destruct (reactors s !! r) as [x|] eqn:Hx; simplify_eq/=. by apply (inv_aborting s r x).
    + simplify_eq. go_on Hh.
  - by apply (inv_walking s r).
  - case_decide as Hlt; [by apply (inv_stopping s i)|]. simplify_eq.
    go_on Hh.
  - by apply inv_posting.
  - case_decide as Hlt.
    + destruct (loops s !! i) as [x|] eqn:Hx; simplify_eq/=.
      destruct (Accept.wait _) as [[]|] eqn:Hw; simplify_eq/=.
      go_on Hh. intros j y Hy Hj.
      destruct (decide (j = i)) as [->|]; [|apply (Hov j y Hy); simpl; lia].
      simplify_eq. by eapply wait_over.
    + simplify_eq. go_on Hh.
      intros j y Hy Hj. apply (Hov j y Hy). simpl. lia.
  - case_decide as Hlt.
    + destruct (reactors s !! r) as [x|] eqn:Hx; simplify_eq/=.
      destruct (Session.wait_sessions x) as [[]|] eqn:Hw; simplify_eq/=.
      * by apply (inv_waited n bind port a s f r d x).
      * case_match; simplify_eq. apply (inv_waiting s f r d); try done. simpl. lia.
    + simplify_eq. destruct d; simpl; [|destruct f; simpl].
      * go_on Hh.
        intros Hlen c Hc Hhc. apply (h_drained s Hi Hlen c Hc). rewrite Hh. simpl. lia.
      * go_on Hh.
      * go_on Hh.
  - case_decide as Hlt; [by apply (inv_forcing s r)|]. simplify_eq.
    go_on Hh.
  - case_match eqn:Hn; simplify_eq. apply inv_cleared; rewrite ?Hh; eauto.
    intros c Hc. pose proof (none_spec _ _ Hn c Hc) as Hst. by destruct (Session.at_stage c).
  - case_match eqn:Hn; simplify_eq. by apply (inv_phase_over s _ Hi Hh).
  - case_match eqn:Hn; simplify_eq. by apply (inv_phase_over s _ Hi Hh).
  - case_match eqn:Hn; simplify_eq. by apply (inv_phase_over s _ Hi Hh).
Qed.

(** ** The other steps *)

Lemma inv_run s l s' : host_inv s → step s (Run l) = Some s' → host_inv s'.
Proof.
  intros Hi Hs. simpl in Hs. case_match eqn:Hg; [|done]. reflect_bools. unfold call in Hs.
  destruct (System.step _ _ l) as [y|] eqn:Hy; simplify_eq/=.
  apply (inv_frame s); try done; [|intros i x _ Hp; by left].
  eapply server_moves; [done|]. intros m ->. simpl in *. by apply negb_true_iff.
Qed.

Lemma inv_posted n bind port a s i s' :
  reach n bind port a (sys s) → host_inv s → step s (RunPosted i) = Some s' → host_inv s'.
Proof.
  intros Hr Hi Hs. simpl in Hs. case_match eqn:Hg; [|done]. reflect_bools.
  destruct (System.step _ _ _) as [y|] eqn:Hy; simplify_eq/=.
  apply (inv_frame s); try done; simpl; [by eapply server_moves|].
  intros j x Hx Hp. destruct (decide (j = i)) as [->|Hne]; [|left; by apply list_elem_of_filter].
  right. unfold System.step in Hy. simpl in Hy.
  destruct (System.loops (sys s) !! i) as [z|] eqn:Hz; simplify_eq/=.
  destruct (_ && _) in Hy; simplify_eq/=. unfold loops in Hx; simpl in Hx.
  rewrite list_lookup_insert_eq in Hx by (by eapply lookup_lt_Some). simplify_eq.
  assert (Hz' : Accept.startup_inv (System.body z)).
  { eapply Accept.startup_inv_reachable, System.loops_reachable; [done|]. by eapply list_elem_of_lookup_2. }
  unfold Accept.startup_inv in Hz'. unfold over; simpl.
  destruct (Accept.pc (System.body z)) eqn:Hpc; destruct Hz' as (_ & _ & Hac);
    rewrite ?Hac, ?orb_true_r; eauto.
Qed.

Lemma serve_step (s : System.state (A := A)) l z :
  System.served l = true → Session.step (System.sess s) l = Some z →
  System.step make_address s (System.Serve l) = Some (System.mkState (System.loops s) z).
Proof. intros Hl Hz. unfold System.step. by rewrite Hl, Hz. Qed.

(** A phase destroys a connection: its frame ends, its ticket is given back. *)
Lemma destroy_runs (s : state) h i c :
  conns s !! i = Some c → victim h (Session.at_stage c) = true →
  (Session.home c < length (reactors s))%nat →
  ∃ y c', exec (System.step make_address) (sys s) (destroying i) = Some y ∧
    System.loops y = loops s ∧
    Session.flags <$> Session.reactors (System.sess y) = Session.flags <$> reactors s ∧
    Session.conns (System.sess y) = <[i := c']> (conns s) ∧ Session.at_stage c' = Session.Ended.
Proof.
  intros Hi Hv Hh. apply lookup_lt_is_Some_2 in Hh as [x Hx].
  assert (Hlt : (i < length (conns s))%nat) by (by eapply lookup_lt_Some).
  set (z0 := System.sess (sys s)). set (z1 := Session.unwind z0 i c).
  set (c1 := Session.mkConn (Session.home c) (Session.lease c) (Session.descriptor c) (Session.peer c)
    false Session.Unwinding).
  set (z2 := Session.refund z1 i c1).
  set (c2 := Session.mkConn (Session.home c) false (Session.descriptor c) (Session.peer c) false
    Session.Refunded).
  set (z3 := Session.set_reactor (Session.put z2 i (Session.set_stage c2 Session.Ended)) (Session.home c)
    (Session.session_finished x)).
  assert (H1 : Session.step z0 (Session.Drop i) = Some z1).
  { simpl. unfold conns in Hi. fold z0 in Hi. rewrite Hi. simpl. by destruct h, (Session.at_stage c). }
  assert (H2 : Session.step z1 (Session.Refund i) = Some z2).
  { simpl. by rewrite list_lookup_insert_eq. }
  assert (H3 : Session.step z2 (Session.Release i) = Some z3).
  { simpl. rewrite list_lookup_insert_eq by (by rewrite length_insert). simpl.
    unfold reactors in Hx. fold z0 in Hx. by rewrite Hx. }
  exists (System.mkState (loops s) z3), (Session.set_stage c2 Session.Ended). split.
  - unfold destroying. eapply exec_cons; [by apply serve_step|].
    eapply exec_cons; [by apply serve_step|]. eapply exec_cons; [by apply serve_step|done].
  - simpl. split_and!; [done|by eapply Session.flags_insert|by rewrite !list_insert_insert_eq|done].
Qed.

Lemma inv_destroy n bind port a s i s' :
  Session.fresh a → reach n bind port a (sys s) → host_inv s → step s (Destroy i) = Some s' → host_inv s'.
Proof.
  intros Ha Hr Hi Hs. simpl in Hs. destruct (conns s !! i) as [c|] eqn:Hc; simplify_eq/=.
  case_match eqn:Hv; [|done].
  pose proof (Session.session_inv_reachable a n _ Ha (System.sess_reachable _ _ _ _ _ _ Hr)) as Hsi.
  destruct (destroy_runs s (host s) i c Hc Hv) as (y & c' & Hy & Hl & Hf & Hcs & Hst).
  { apply (Session.s_conns _ Hsi c). by eapply list_elem_of_lookup_2. }
  rewrite Hy in Hs. simplify_eq/=.
  assert (Hn : length (Session.reactors (System.sess y)) = length (reactors s)).
  { apply (f_equal length) in Hf. by rewrite !length_fmap in Hf. }
  assert (Hnr : running (host s) = false) by (by destruct (host s), (Session.at_stage c)).
  split; unfold reactors, loops, conns; simpl; rewrite ?Hl, ?Hn, ?Hcs; try apply Hi.
  - intros r x Hx. destruct (flags_lookup _ _ _ _ Hf Hx) as (z & Hz & Heq).
    pose proof (h_abort s Hi r z Hz) as Hz'. unfold Session.flags in Heq. simplify_eq.
    case_decide; [congruence|]. destruct Hz'. split; congruence.
  - intros r x Hx Hlt. by destruct (host s); simpl in *; try lia.
  - intros _ d _ Hd. by destruct (host s); simpl in *; try lia.
  - intros d [->|Hd]%elem_insert; [rewrite Hst; by destruct (host s)|by apply (h_cleared s Hi)].
Qed.

Lemma host_inv_reachable n bind port a s :
  Session.fresh a → reachable step (initial n bind port a) s → host_inv s.
Proof.
  intros Ha Hr. induction Hr as [|s l s' Hr IH Hs].
  - split; simpl; try done; try lia.
    intros r x Hx. unfold reactors in Hx; simpl in Hx. by apply lookup_replicate in Hx as [-> _].
  - pose proof (sys_reachable n bind port a s Hr) as Hsr. destruct l as [e|i|l|i].
    + by eapply inv_host.
    + by eapply inv_posted.
    + by eapply inv_run.
    + by eapply inv_destroy.
Qed.

(** ** Theorems *)

(** C2: what [stop] has come to when it stops the loops, whatever the loops and sessions did
    meanwhile: every accept loop is over, every reactor was walked; if its waits saw no session
    left, every connection has ended and every admission is back, though the waits looked at one
    reactor after the other; if not, each session still running was asked to stop and then had
    its connection shut down. *)
Theorem stop_outcome n bind port a s dr :
  Session.fresh a → reachable step (initial n bind port a) s →
  Z.of_nat (length (conns s)) < 2 ^ 64 → host s = Joining dr →
  System.loops_ended (sys s) ∧ (∀ x, x ∈ reactors s → Session.walked_ x = true) ∧
  (dr = true → (∀ c, c ∈ conns s → Session.at_stage c = Session.Ended) ∧
     ∀ b, Session.admission (System.sess (sys s)) = Some b → active b = 0) ∧
  (dr = false → ∀ c ab fo, c ∈ conns s → Session.at_stage c = Session.Running ab fo →
     ab = true ∧ fo = true ∧ (Session.socket_open c = true → ∃ k,
       Session.sockets (System.sess (sys s)) !! Session.descriptor c = Some k ∧ Session.shut k = true)).
Proof.
  intros Ha Hr Hlen Hh. pose proof (host_inv_reachable n bind port a s Ha Hr) as Hi.
  pose proof (System.sess_reachable _ _ _ _ _ _ (sys_reachable n bind port a s Hr)) as Hsr.
  pose proof (Session.session_inv_reachable a n _ Ha Hsr) as Hsi.
  assert (Hhome : ∀ c, c ∈ conns s → (Session.home c < length (reactors s))%nat) by apply (Session.s_conns _ Hsi).
  assert (Hw : ∀ r x, reactors s !! r = Some x → Session.walked_ x = true).
  { intros r x Hx. pose proof (h_abort s Hi r x Hx) as Hx'. rewrite Hh in Hx'. simpl in Hx'.
    rewrite decide_True in Hx'; [done|]. by eapply lookup_lt_Some. }
  split_and!.
  - apply (reaped_ended s Hi). by rewrite Hh.
  - intros x [r Hx]%list_elem_of_lookup_1. by eapply Hw.
  - intros ->. assert (Hend : ∀ c, c ∈ conns s → Session.at_stage c = Session.Ended).
    { intros c Hc. apply (h_drained s Hi Hlen c Hc). rewrite Hh. by apply Hhome. }
    split; [done|]. intros b. by apply (Session.ended_refunded a n _ b Ha Hsr).
  - intros -> c ab fo Hc Hst. pose proof (Hhome c Hc) as Hlt.
    destruct (lookup_lt_is_Some_2 _ _ Hlt) as [x Hx].
    assert (Hf : Session.forced_ x = true) by (apply (h_forced s Hi _ x Hx); by rewrite Hh).
    destruct (Session.s_walks _ Hsi _ x Hx) as [_ Hwk].
    destruct (Hwk c ab fo Hc eq_refl Hst) as [H1 H2]. rewrite (H2 Hf) in *.
    split; [by eapply H1, Hw|]. split; [done|]. intros Ho.
    destruct (Session.si_ok _ (Session.s_sockets _ Hsi) c Hc Ho) as (k & Hk & _ & Hs). eauto.
Qed.

(** C13: the end: when the server is destroyed every connection has ended, those whose session
    never ended by itself and those whose launch was never run included, every admission has
    been given back, and nothing can happen any more. *)
Theorem teardown_complete n bind port a s :
  Session.fresh a → reachable step (initial n bind port a) s → host s = Gone →
  (∀ c, c ∈ conns s → Session.at_stage c = Session.Ended) ∧
  (∀ b, Session.admission (System.sess (sys s)) = Some b → active b = 0) ∧
  System.loops_ended (sys s) ∧ ∀ l, step s l = None.
Proof.
  intros Ha Hr Hh. pose proof (host_inv_reachable n bind port a s Ha Hr) as Hi.
  pose proof (sys_reachable n bind port a s Hr) as Hyr.
  pose proof (System.sess_reachable _ _ _ _ _ _ Hyr) as Hsr.
  assert (He : System.loops_ended (sys s)) by (apply (reaped_ended s Hi); by rewrite Hh).
  assert (Hend : ∀ c, c ∈ conns s → Session.at_stage c = Session.Ended).
  { intros c Hc. pose proof (h_cleared s Hi c Hc) as Hcl. rewrite Hh in Hcl.
    pose proof (System.ended_loops_late _ _ _ _ _ _ Hyr He c Hc) as Hl.
    unfold System.late, System.early in Hl. destruct (Session.at_stage c); try done; tauto. }
  split_and!; [done| |done|].
  - intros b. by apply (Session.ended_refunded a n _ b Ha Hsr).
  - intros [e|i|l|i]; simpl; unfold host_step; rewrite ?Hh; simpl; try done.
    by destruct (conns s !! i).
Qed.

End shutdown.

(** ** A server with a session that does not end by itself *)

Definition begin : state (A := Admission.State) := initial 1 Net.default_bind (λ _, 80) System.one.
Definition run (s : state) (ls : list label) : state :=
  default s (exec (step (P := Net.linux) System.any_address) s ls).

(** The connection is launched, its session runs and the loop waits for another one, when the
    thread aborts, tells the loop to stop and waits for it; the loop ends, the session sees both
    graces out; and then it is destroyed. *)
Definition serving : list label :=
  Run <$> System.accepting ++
    [System.Ticket 0; System.Hand 0 false true; System.Serve (Session.Start 0); System.Loop 0 Accept.Go].
Definition asking : list label := replicate 7 (Host false).
Definition waiting : list label :=
  [RunPosted 0; Run (System.Loop 0 (Accept.AcceptDone (Net.sys (Net.ECANCELED (Platform := Net.linux)))));
   Run (System.Loop 0 Accept.Go)] ++ replicate 8 (Host true).
Definition clearing : list label := [Host false; Host false; Destroy 0; Host false; Host false].

Definition asked_to_end : state := run begin (serving ++ asking).
Definition seen_out : state := run asked_to_end waiting.
Definition torn_down : state := run seen_out clearing.

Lemma asked_to_end_reachable : reachable (step (P := Net.linux) System.any_address) begin asked_to_end.
Proof. apply (exec_reachable _ _ (serving ++ asking)). vm_compute. reflexivity. Qed.
Lemma seen_out_reachable : reachable (step (P := Net.linux) System.any_address) begin seen_out.
Proof. apply (exec_reachable_from _ _ asked_to_end waiting); [apply asked_to_end_reachable|]. vm_compute. reflexivity. Qed.
Lemma one_fresh : Session.fresh System.one.
Proof. split; [|reflexivity]. split; simpl; unfold u64_max; lia. Qed.

Lemma stop_outcome_witness :
  host seen_out = Joining false ∧ length (conns seen_out) = 1%nat ∧
  ∀ c ab fo, c ∈ conns seen_out → Session.at_stage c = Session.Running ab fo → ab = true ∧ fo = true.
Proof.
  split; [vm_compute; reflexivity|]. split; [vm_compute; reflexivity|].
  destruct (stop_outcome (P := Net.linux) System.any_address 1 Net.default_bind (λ _, 80) System.one seen_out false)
    as (_ & _ & _ & Hf).
  - apply one_fresh.
  - apply seen_out_reachable.
  - vm_compute. reflexivity.
  - vm_compute. reflexivity.
  - intros c ab fo Hc Hst. destruct (Hf eq_refl c ab fo Hc Hst) as (H1 & H2 & _). done.
Defined.

Lemma teardown_complete_witness :
  length (conns torn_down) = 1%nat ∧ ∀ c, c ∈ conns torn_down → Session.at_stage c = Session.Ended.
Proof.
  split; [vm_compute; reflexivity|].
  apply (teardown_complete (P := Net.linux) System.any_address 1 Net.default_bind (λ _, 80) System.one torn_down).
  - apply one_fresh.
  - apply (exec_reachable_from _ _ seen_out clearing); [apply seen_out_reachable|]. vm_compute. reflexivity.
  - vm_compute. reflexivity.
Defined.

End Shutdown.
