(* ===== verification/Finish.v ===== *)
(** * reactor.h: the shutdown of a running server can always finish

    From every state of Shutdown.v there is a way on for the thread that shuts the server down,
    to the end, in which nobody connects, no session ends by itself and no handler of theirs is
    waited for: only the loops' own moves, expired graces and the destruction at the end. *)

From S2P Require Import Prelude Net Admission Accept Session System Shutdown.

Module Finish.

Section finish.
Context {P : Net.Platform} {A : Type} `{Bound A}.
Context (make_address : string → result Net.address).
Context (n : nat) (bind : Net.BindOptions) (port : nat → Z) (a : option A).
Context (Hfresh : Session.fresh a).

Implicit Types s t : Shutdown.state (A := A).
Abbreviation step := (Shutdown.step make_address).
Abbreviation good := (reachable step (Shutdown.initial n bind port a)).

(** ** Moves that need nobody *)

(** The thread goes on, a posted [stop_on_owner] runs, a phase destroys, an accept loop moves
    (a pending accept only once its acceptor is closed), a frame that is ending goes on to end. *)
Definition quiet (s : Shutdown.state (A := A)) (l : Shutdown.label) : bool :=
  match l with
  | Shutdown.Run (System.Loop i l) =>
      match Shutdown.loops s !! i with Some x => Accept.due (System.body x) l | None => false end
  | Shutdown.Run (System.Serve (Session.Refund _ | Session.Release _)) => true
  | Shutdown.Run (System.Serve _) => false
  | _ => true
  end.

Abbreviation quietly := (only step quiet).
Abbreviation leads := (leads step quiet).
Abbreviation ends s := (leads s (λ t, Shutdown.host t = Shutdown.Gone)).

#[local] Arguments System.step : simpl never.
#[local] Arguments Accept.step : simpl never.
#[local] Arguments Session.step : simpl never.
#[local] Arguments Shutdown.step : simpl never.

#[local] Arguments exec : simpl never.

(** The thread's own steps. *)
Lemma host_leads s e t (Q : _ → Prop) :
  Shutdown.host_step make_address s e = Some t → leads t Q → leads s Q.
Proof. intros Hs. by apply (leads_step _ _ s (Shutdown.Host e) t). Qed.

Lemma host_good s e t : good s → Shutdown.host_step make_address s e = Some t → good t.
Proof. intros Hg Hs. by apply (reach_step step _ s (Shutdown.Host e) t). Qed.

(** ** What a reachable server is *)

Lemma good_inv s : good s → Shutdown.host_inv s.
Proof using Hfresh. intros Hg. by eapply Shutdown.host_inv_reachable. Qed.

Lemma good_sys s : good s → reachable (System.step make_address) (System.initial n bind port a) (Shutdown.sys s).
Proof. apply Shutdown.sys_reachable. Qed.

Lemma good_session s : good s → Session.session_inv (System.sess (Shutdown.sys s)).
Proof using Hfresh.
  intros Hg%good_sys%System.sess_reachable. by eapply Session.session_inv_reachable.
Qed.

Lemma none_false p s :
  Shutdown.none p s = false → ∃ i c, Shutdown.conns s !! i = Some c ∧ p (Session.at_stage c) = true.
Proof.
  intros Hn. destruct (decide (Exists (λ c, p (Session.at_stage c) = true) (Shutdown.conns s))) as [He|He].
  - apply Exists_exists in He as (c & [i Hi]%list_elem_of_lookup_1 & Hp). eauto.
  - exfalso. apply Is_true_false in Hn. apply Hn, Is_true_true, forallb_forall. intros c Hc.
    apply negb_true_iff, not_true_iff_false. intros Hp. apply He, Exists_exists. exists c.
    split; [by apply list_elem_of_In|done].
Qed.

(** ** The destruction at the end *)

Definition victims (h : Shutdown.hpc) (s : Shutdown.state (A := A)) : Z :=
  total (λ c, bit (Shutdown.victim h (Session.at_stage c))) (Shutdown.conns s).

Lemma phase_ends h :
  Shutdown.running h = false → h ≠ Shutdown.Gone →
  (∀ t, good t → Shutdown.host t = Shutdown.next_phase h → ends t) →
  ∀ s, good s → Shutdown.host s = h → ends s.
Proof using Hfresh.
  intros Hh Hg Hn s Hs Hhs.
  eapply (leads_bind _ _ _ s (λ t, Shutdown.host t = h ∧ Shutdown.none (Shutdown.victim h) t = true)); [done| |].
  - apply (leads_measure _ _ (Shutdown.initial n bind port a) (victims h) (λ t, Shutdown.host t = h)); [|clear s Hs Hhs|done|done].
    { intros t _ _. apply total_nonneg. intros c. apply bit_nonneg. }
    intros s Hs Hhs. destruct (Shutdown.none (Shutdown.victim h) s) eqn:Hnone; [by left|right].
    apply none_false in Hnone as (i & c & Hc & Hv).
    destruct (Shutdown.destroy_runs make_address s h i c Hc Hv) as (y & c' & Hy & _ & _ & Hcs & Hst).
    { apply (Session.s_conns _ (good_session s Hs) c). by eapply list_elem_of_lookup_2. }
    eapply (leads_step _ _ s (Shutdown.Destroy i)); [done| |apply leads_now].
    { unfold Shutdown.step. rewrite Hc. simpl. by rewrite Hhs, Hv, Hy. }
    split; [done|]. unfold victims, Shutdown.conns at 1; simpl. rewrite Hcs.
    rewrite (total_insert _ _ _ _ _ Hc), Hv, Hst. destruct h; simpl; lia.
  - intros t Ht [Hht Hnone].
    assert (Hstep : Shutdown.host_step make_address t true = Some (Shutdown.goto t (Shutdown.next_phase h))).
    { unfold Shutdown.host_step. rewrite Hht. by destruct h; try done; simpl; rewrite Hnone. }
    eapply host_leads; [exact Hstep|]. apply Hn; [by eapply host_good|done].
Qed.

Lemma unloading_ends s : good s → Shutdown.host s = Shutdown.Unloading → ends s.
Proof using Hfresh. apply (phase_ends Shutdown.Unloading); try done. intros t _ Ht. by apply leads_now. Qed.

Lemma closing_ends s : good s → Shutdown.host s = Shutdown.Closing → ends s.
Proof using Hfresh.
  apply (phase_ends Shutdown.Closing); try done.
  apply (phase_ends Shutdown.Destroying); try done. apply unloading_ends.
Qed.

(** ** The joins: the frames that are ending end *)

Definition left_to_end (st : Session.stage) : Z :=
  match st with Session.Unwinding => 2 | Session.Refunded => 1 | _ => 0 end.

Lemma ending_goes_on s i c :
  good s → Shutdown.running (Shutdown.host s) = true → Shutdown.conns s !! i = Some c →
  Shutdown.ending (Session.at_stage c) = true →
  ∃ l t c', quiet s l = true ∧ step s l = Some t ∧ Shutdown.host t = Shutdown.host s ∧
    Shutdown.conns t = <[i := c']> (Shutdown.conns s) ∧
    left_to_end (Session.at_stage c') < left_to_end (Session.at_stage c).
Proof using Hfresh.
  intros Hg Hrun Hc He.
  assert (Hh : (Session.home c < length (Shutdown.reactors s))%nat).
  { apply (Session.s_conns _ (good_session s Hg) c). by eapply list_elem_of_lookup_2. }
  apply lookup_lt_is_Some_2 in Hh as [x Hx].
  assert (Hrun_serve : ∀ l z, System.served l = true → Session.shuts_down l = false →
    Session.step (System.sess (Shutdown.sys s)) l = Some z →
    step s (Shutdown.Run (System.Serve l)) =
      Some (Shutdown.mkState (System.mkState (Shutdown.loops s) z) (Shutdown.host s) (Shutdown.posted s))).
  { intros l z Hl Hsd Hz. unfold Shutdown.step, Shutdown.call. simpl. rewrite Hrun, Hsd. simpl.
    by rewrite (Shutdown.serve_step make_address _ l z Hl Hz). }
  unfold Shutdown.conns, Shutdown.reactors in *.
  destruct (Session.at_stage c) eqn:Hst; try done.
  - eexists (Shutdown.Run (System.Serve (Session.Refund i))), _, _. split; [done|]. split.
    { apply Hrun_serve; [done..|]. unfold Session.step. rewrite Hc. simpl. by rewrite Hst. }
    split; [done|]. split; [reflexivity|]. simpl. lia.
  - eexists (Shutdown.Run (System.Serve (Session.Release i))), _, _. split; [done|]. split.
    { apply Hrun_serve; [done..|]. unfold Session.step. rewrite Hc. simpl. rewrite Hx. simpl. by rewrite Hst. }
    split; [done|]. split; [reflexivity|]. simpl. lia.
Qed.

Lemma joining_ends s d : good s → Shutdown.host s = Shutdown.Joining d → ends s.
Proof using Hfresh.
  intros Hs Hhs.
  eapply (leads_bind _ _ _ s (λ t, Shutdown.host t = Shutdown.Joining d ∧ Shutdown.none Shutdown.ending t = true)); [done| |].
  - apply (leads_measure _ _ (Shutdown.initial n bind port a) (λ t, total (λ c, left_to_end (Session.at_stage c)) (Shutdown.conns t))
      (λ t, Shutdown.host t = Shutdown.Joining d)); [|clear s Hs Hhs|done|done].
    { intros t _ _. apply total_nonneg. intros c. by destruct (Session.at_stage c). }
    intros s Hs Hhs. destruct (Shutdown.none Shutdown.ending s) eqn:Hnone; [by left|right].
    apply none_false in Hnone as (i & c & Hc & He).
    destruct (ending_goes_on s i c Hs) as (l & t & c' & Hq & Ht & Hht & Hct & Hlt); rewrite ?Hhs; try done.
    apply (leads_step _ _ s l t); [done..|]. apply leads_now. split; [congruence|].
    rewrite Hct, (total_insert _ _ _ _ _ Hc). lia.
  - intros t Ht [Hht Hnone].
    assert (Hstep : Shutdown.host_step make_address t true = Some (Shutdown.goto t Shutdown.Closing)).
    { unfold Shutdown.host_step. rewrite Hht. by rewrite Hnone. }
    eapply host_leads; [exact Hstep|]. apply closing_ends; [by eapply host_good|done].
Qed.

(** ** The loops of [stop] *)

Abbreviation servers := (length (System.configs n bind port a)).

Lemma good_reactors s : good s → length (Shutdown.reactors s) = n.
Proof.
  intros Hg%good_sys%System.sess_reachable. unfold Shutdown.reactors. revert Hg.
  generalize (System.sess (Shutdown.sys s)). apply invariant_rule; [apply length_replicate|].
  intros z l z' Hz Hs. by rewrite (Session.step_reactors_length _ _ _ Hs).
Qed.

Lemma good_loops s : good s → length (Shutdown.loops s) = servers.
Proof.
  intros Hg%good_sys. unfold Shutdown.loops. revert Hg.
  generalize (Shutdown.sys s). apply invariant_rule; [apply length_fmap|].
  intros y l y' Hy Hs. by rewrite (System.step_loops_length _ _ _ _ Hs).
Qed.

(** A loop of the thread that goes on at each number comes to its end. *)
Lemma counts_up (h : nat → Shutdown.hpc → Prop) (N : nat) s r :
  good s → h r (Shutdown.host s) →
  (∀ s r, good s → h r (Shutdown.host s) → (r < N)%nat → leads s (λ t, h (S r) (Shutdown.host t))) →
  leads s (λ t, ∃ r', h r' (Shutdown.host t) ∧ ¬ (r' < N)%nat).
Proof.
  intros Hg Hh Hup. remember (N - r)%nat as k eqn:Hk. revert s r Hk Hg Hh.
  induction k as [|k IH]; intros s r Hk Hg Hh.
  - apply leads_now. exists r. split; [done|lia].
  - eapply leads_bind; [done|apply (Hup s r Hg Hh); lia|]. intros t Ht Hht. apply (IH t (S r)); [lia|done..].
Qed.

(** A call of the thread on the sessions. *)
Lemma serve_leads s l z h :
  System.served l = true → Session.step (System.sess (Shutdown.sys s)) l = Some z →
  ∃ t, Shutdown.call make_address s (System.Serve l) h = Some t ∧ Shutdown.host t = h.
Proof.
  intros Hl Hz. unfold Shutdown.call. rewrite (Shutdown.serve_step make_address _ l z Hl Hz). simpl. eauto.
Qed.

Lemma waits s f r d :
  good s → Shutdown.host s = Shutdown.Waiting f r d →
  leads s (λ t, ∃ d', Shutdown.host t = if d' || f then Shutdown.Joining d' else Shutdown.Forcing 0).
Proof.
  intros Hg Hh.
  eapply leads_bind; [done|apply (counts_up (λ r x, ∃ d, x = Shutdown.Waiting f r d) n s r Hg); [eauto|]|].
  - clear s r d Hg Hh. intros s r Hg [d Hh] Hr.
    destruct (lookup_lt_is_Some_2 (Shutdown.reactors s) r) as [x Hx]; [by rewrite good_reactors|].
    set (d' := match Session.wait_sessions x with Some _ => d | None => false end).
    apply (host_leads s true (Shutdown.goto s (Shutdown.Waiting f (S r) d'))); [|by apply leads_now; exists d'].
    unfold Shutdown.host_step. rewrite Hh, (good_reactors s Hg), decide_True by done. rewrite Hx. simpl.
    unfold d'. by destruct (Session.wait_sessions x).
  - intros t Ht (r' & [d' Hht] & Hr').
    set (h := if d' || f then Shutdown.Joining d' else Shutdown.Forcing 0).
    apply (host_leads t true (Shutdown.goto t h)); [|by apply leads_now; exists d'].
    unfold Shutdown.host_step. by rewrite Hht, (good_reactors t Ht), decide_False by done.
Qed.

Lemma forces s r :
  good s → Shutdown.host s = Shutdown.Forcing r →
  leads s (λ t, Shutdown.host t = Shutdown.Waiting true 0 true).
Proof.
  intros Hg Hh. eapply leads_bind; [done|apply (counts_up (λ r x, x = Shutdown.Forcing r) n s r Hg); [done|]|].
  - clear s r Hg Hh. intros s r Hg Hh Hr.
    destruct (lookup_lt_is_Some_2 (Shutdown.reactors s) r) as [x Hx]; [by rewrite good_reactors|].
    destruct (serve_leads s (Session.ForceAll r) (Session.force_all (System.sess (Shutdown.sys s)) r x)
      (Shutdown.Forcing (S r))) as (t & Ht & Hht); [done|unfold Session.step; by setoid_rewrite Hx|].
    apply (host_leads s true t); [|by apply leads_now].
    unfold Shutdown.host_step. by rewrite Hh, (good_reactors s Hg), decide_True by done.
  - intros t Ht (r' & Hht & Hr').
    apply (host_leads t true (Shutdown.goto t (Shutdown.Waiting true 0 true))); [|by apply leads_now].
    unfold Shutdown.host_step. by rewrite Hht, (good_reactors t Ht), decide_False by done.
Qed.

Lemma forcing_ends s r : good s → Shutdown.host s = Shutdown.Forcing r → ends s.
Proof using Hfresh.
  intros Hg Hh. eapply leads_bind; [done|by eapply forces|]. intros t Ht Hht.
  eapply leads_bind; [done|exact (waits t _ _ _ Ht Hht)|].
  intros u Hu [d Hd]. rewrite orb_true_r in Hd. by eapply joining_ends.
Qed.

Lemma waiting_ends s f r d : good s → Shutdown.host s = Shutdown.Waiting f r d → ends s.
Proof using Hfresh.
  intros Hg Hh. eapply leads_bind; [done|by eapply waits|].
  intros t Ht [d' Hd]. destruct (d' || f); [by eapply joining_ends|by eapply forcing_ends].
Qed.

(** ** The accept loops end *)

(** A loop is busy with reactors of the server only. *)
Definition in_range (x : System.loop) : Prop :=
  (0 < n)%nat ∧ (∀ r, r ∈ Accept.reactors (System.cfg x) → (r < n)%nat) ∧
  ∀ r, Accept.busy_with (Accept.pc (System.body x)) = Some r → (r < n)%nat.

Lemma configs_in_range c :
  c ∈ System.configs n bind port a → (0 < n)%nat ∧ ∀ r, r ∈ Accept.reactors c → (r < n)%nat.
Proof.
  unfold System.configs. case_match eqn:Hc.
  - apply andb_true_iff in Hc as [_ Hc%bool_decide_eq_true]. intros ->%list_elem_of_singleton.
    simpl. split; [lia|]. intros r ?%elem_of_seq. lia.
  - intros (r & -> & ?%elem_of_seq)%list_elem_of_fmap. simpl. split; [lia|].
    intros r' ->%list_elem_of_singleton. lia.
Qed.

Definition all_in_range (y : System.state (A := A)) : Prop := ∀ x, x ∈ System.loops y → in_range x.

Lemma reachable_in_range y :
  reachable (System.step make_address) (System.initial n bind port a) y → all_in_range y.
Proof.
  revert y. apply invariant_rule.
  - intros x (c & -> & Hc)%list_elem_of_fmap. destruct (configs_in_range c Hc). split_and!; done.
  - intros y l y' Hy Hs. unfold all_in_range.
    destruct (System.step_loops _ _ _ _ Hs) as [->|(i & x & b & h & m & Hx & -> & Hb)]; [done|].
    intros z [->|Hz]%elem_insert; [|by apply Hy].
    destruct (Hy x (list_elem_of_lookup_2 _ _ _ Hx)) as (H0 & Hr & Hbusy). split_and!; [done..|].
    intros r Hbr. destruct (Accept.step_busy _ _ _ _ _ _ Hb Hbr) as [?| ->]; [by apply Hbusy|].
    unfold Accept.destination. destruct (nth_in_or_default (Accept.next (System.body x))
      (Accept.reactors (System.cfg x)) 0%nat) as [Hin| ->]; [|done]. apply Hr. by apply list_elem_of_In.
Qed.

(** How far a loop told to stop is from its end. *)
Definition weight (x : System.loop) : Z :=
  2 * Accept.stop_steps (Accept.pc (System.body x)) + bit (negb (Accept.closed (Accept.ctl (System.body x)))).

Lemma weight_down x m b h :
  Shutdown.told_stop x → Accept.own m = true →
  Accept.step make_address (System.cfg x) (System.body x) m = Some b →
  weight (System.mkLoop (System.cfg x) b h) < weight x.
Proof.
  intros Ht Hm Hb. destruct (Accept.stop_step _ _ _ _ _ Ht Hm Hb) as [_ Hlt].
  destruct (Accept.step_stays _ _ _ _ _ Hb) as [_ Hc]. unfold weight; simpl.
  destruct (Accept.closed (Accept.ctl (System.body x))); [rewrite (Hc eq_refl); simpl; lia|].
  destruct (Accept.closed (Accept.ctl b)); simpl; lia.
Qed.

(** Loop [i] has moved on, and the thread still waits for it. *)
Definition closer (i : nat) (x : System.loop) (t : Shutdown.state (A := A)) : Prop :=
  Shutdown.host t = Shutdown.Reaping i ∧
  ∃ x', Shutdown.loops t !! i = Some x' ∧ weight x' < weight x.

Section reaping.
Context s i x (Hg : good s) (Hh : Shutdown.host s = Shutdown.Reaping i)
  (Hx : Shutdown.loops s !! i = Some x).

#[local] Lemma asked_to_stop : Shutdown.told_stop x ∧ Shutdown.asked_stop i (Shutdown.posted s) x.
Proof using Hfresh Hg Hh Hx.
  pose proof (lookup_lt_Some _ _ _ Hx) as Hlt. pose proof (good_inv s Hg) as Hi.
  split; [apply (Shutdown.h_told s Hi i x Hx)|apply (Shutdown.h_asked s Hi i x Hx)]; by rewrite Hh.
Qed.

(** A step of the server in which the loop moves. *)
#[local] Lemma moves_closer l y m b h :
  quiet s (Shutdown.Run l) = true → Shutdown.unprompted l = true →
  System.step make_address (Shutdown.sys s) l = Some y →
  System.loops y = <[i := System.mkLoop (System.cfg x) b h]> (Shutdown.loops s) →
  Accept.own m = true → Accept.step make_address (System.cfg x) (System.body x) m = Some b →
  leads s (closer i x).
Proof using Hfresh Hg Hh Hx.
  intros Hq Hu Hs Hl Hm Hb.
  apply (leads_step _ _ s (Shutdown.Run l) (Shutdown.mkState y (Shutdown.host s) (Shutdown.posted s))); [done| |].
  - unfold Shutdown.step, Shutdown.call. rewrite Hh, Hu. simpl. by rewrite Hs.
  - apply leads_now. split; [done|]. exists (System.mkLoop (System.cfg x) b h). split.
    + unfold Shutdown.loops at 1. simpl. rewrite Hl. apply list_lookup_insert_eq. by eapply lookup_lt_Some.
    + eapply weight_down; [apply asked_to_stop|done..].
Qed.

(** By itself. *)
#[local] Lemma alone_closer m b :
  System.alone m = true → Accept.due (System.body x) m = true →
  Accept.step make_address (System.cfg x) (System.body x) m = Some b → leads s (closer i x).
Proof using Hfresh Hg Hh Hx.
  intros Ha Hd Hb.
  apply (moves_closer (System.Loop i m)
    (System.mkState (<[i := System.mkLoop (System.cfg x) b (System.hand x)]> (Shutdown.loops s))
       (System.sess (Shutdown.sys s))) m b (System.hand x)); try done.
  - simpl. by rewrite Hx.
  - by destruct m.
  - unfold System.step. rewrite Ha. setoid_rewrite Hx. simpl. by rewrite Hb.
  - by destruct m.
Qed.

(** Suspended on its accept: the posted [stop_on_owner] closes the acceptor, and then the
    accept returns. *)
#[local] Lemma accepting_closer r :
  Accept.pc (System.body x) = Accept.Accepting r → leads s (closer i x).
Proof using Hfresh Hg Hh Hx.
  intros Hpc. destruct asked_to_stop as [Ht Ha].
  destruct (Accept.closed (Accept.ctl (System.body x))) eqn:Hc.
  { eapply (alone_closer (Accept.AcceptDone no_error)); [done|done|]. unfold Accept.step. by rewrite Hpc. }
  destruct Ha as [Hp|[Hc'|[y Hy]]]; [|congruence..].
  assert (Hac : Accept.acceptor (Accept.ctl (System.body x)) = true).
  { pose proof (System.loops_reachable _ _ _ _ _ _ (good_sys s Hg) x (list_elem_of_lookup_2 _ _ _ Hx)) as Hr.
    apply Accept.startup_inv_reachable in Hr. unfold Accept.startup_inv in Hr. rewrite Hpc in Hr. tauto. }
  eapply (leads_step _ _ s (Shutdown.RunPosted i)); [done| |apply leads_now].
  - unfold Shutdown.step. rewrite Hh, bool_decide_true by done. simpl.
    unfold System.step. simpl. setoid_rewrite Hx. simpl. unfold Accept.step at 1. rewrite Hpc. simpl.
    rewrite Ht. simpl. reflexivity.
  - split; [by simpl|]. eexists. split.
    + unfold Shutdown.loops. simpl. apply list_lookup_insert_eq. by eapply lookup_lt_Some.
    + unfold weight; simpl. rewrite Hc, Hac, Hpc. simpl. lia.
Qed.

(** With a connection accepted: it is admitted or refused. *)
#[local] Lemma admitting_closer r :
  Accept.pc (System.body x) = Accept.Admitting r → leads s (closer i x).
Proof using Hfresh Hg Hh Hx.
  intros Hpc. set (z := System.sess (Shutdown.sys s)).
  destruct (reachable_in_range _ (good_sys s Hg) x (list_elem_of_lookup_2 _ _ _ Hx)) as (_ & _ & Hr).
  specialize (Hr r). rewrite Hpc in Hr. specialize (Hr eq_refl).
  rewrite <-(good_reactors s Hg) in Hr. apply lookup_lt_is_Some_2 in Hr as [w Hw].
  set (fd := fresh (dom (Session.sockets z))). set (from := Net.Endpoint (Net.V4 0) 0).
  assert (∃ z', Session.step z (Session.Accept r fd from) = Some z') as [z' Hz'].
  { unfold Session.step. change (Session.reactors z) with (Shutdown.reactors s). rewrite Hw. simpl.
    assert (Session.sockets z !! fd = None) as -> by apply not_elem_of_dom_1, is_fresh.
    destruct (Session.admission z); eauto. }
  set (lease := bool_decide (length (Session.conns z') = S (length (Session.conns z)))).
  assert (∃ b, Accept.step make_address (System.cfg x) (System.body x) (Accept.Admit lease) = Some b) as [b Hb].
  { unfold Accept.step. rewrite Hpc. eauto. }
  eapply (moves_closer (System.Take i fd from) _ (Accept.Admit lease) b); try done.
  - unfold System.step. setoid_rewrite Hx. simpl. rewrite Hpc. fold z. rewrite Hz'. simpl.
    fold lease. rewrite Hb. simpl. reflexivity.
  - reflexivity.
Qed.

(** With its ticket: it is launched. *)
#[local] Lemma ticketed_closer r k c :
  Accept.pc (System.body x) = Accept.Launching r → System.hand x = Some k →
  Shutdown.conns s !! k = Some c → Session.at_stage c = Session.Ticketed → leads s (closer i x).
Proof using Hfresh Hg Hh Hx.
  intros Hpc Hk Hc Hst.
  assert (∃ b, Accept.step make_address (System.cfg x) (System.body x) (Accept.Launch false) = Some b) as [b Hb].
  { unfold Accept.step. rewrite Hpc. eauto. }
  assert (∃ z, Session.step (System.sess (Shutdown.sys s)) (Session.Launch k false true) = Some z) as [z Hz].
  { unfold Session.step. setoid_rewrite Hc. simpl. rewrite Hst. eauto. }
  eapply (moves_closer (System.Hand i false true) _ (Accept.Launch false) b); try done.
  - unfold System.step. setoid_rewrite Hx. simpl. rewrite Hpc, Hk. simpl. rewrite Hz. simpl.
    rewrite Hb. simpl. reflexivity.
  - reflexivity.
Qed.

End reaping.

Lemma launching_closer s i x r :
  good s → Shutdown.host s = Shutdown.Reaping i → Shutdown.loops s !! i = Some x →
  Accept.pc (System.body x) = Accept.Launching r → leads s (closer i x).
Proof using Hfresh.
  intros Hg Hh Hx Hpc. set (z := System.sess (Shutdown.sys s)).
  destruct (System.hi_loop _ (System.hands_reachable _ _ _ _ _ _ (good_sys s Hg)) i x r Hx Hpc)
    as (k & x' & r' & Hx' & _ & Hk & c & Hc & He & Hhome).
  unfold Shutdown.loops in Hx. simplify_eq.
  destruct He as [Hst|Hst]; [|by eapply ticketed_closer].
  assert (Hlt : (Session.home c < length (Shutdown.reactors s))%nat).
  { apply (Session.s_conns _ (good_session s Hg) c). by eapply list_elem_of_lookup_2. }
  apply lookup_lt_is_Some_2 in Hlt as [w Hw].
  set (c' := Session.set_stage c Session.Ticketed).
  set (z' := Session.set_reactor (Session.put z k c') (Session.home c) (Session.session_started w)).
  set (t := Shutdown.mkState (System.mkState (Shutdown.loops s) z') (Shutdown.host s) (Shutdown.posted s)).
  assert (Ht : step s (Shutdown.Run (System.Ticket i)) = Some t).
  { unfold Shutdown.step, Shutdown.call. rewrite Hh. simpl. unfold System.step. rewrite Hx. simpl.
    rewrite Hpc, Hk. simpl. unfold Session.step. rewrite Hc. simpl. setoid_rewrite Hw. simpl.
    rewrite Hst. unfold t. by rewrite Hh. }
  apply (leads_step _ _ s (Shutdown.Run (System.Ticket i)) t); [done..|].
  apply (ticketed_closer t i x) with (r := r) (k := k) (c := c'); try done.
  - by eapply reach_step.
  - unfold Shutdown.conns, t, z', z. simpl. apply list_lookup_insert_eq. by eapply lookup_lt_Some.
Qed.

(** In each case. *)
Lemma reaping_closer s i x :
  good s → Shutdown.host s = Shutdown.Reaping i → Shutdown.loops s !! i = Some x →
  Shutdown.over x ∨ leads s (closer i x).
Proof using Hfresh.
  intros Hg Hh Hx.
  assert (Hone : ∀ m b, System.alone m = true → Accept.due (System.body x) m = true →
    Accept.step make_address (System.cfg x) (System.body x) m = Some b → leads s (closer i x))
    by (intros; by eapply alone_closer).
  destruct (Accept.pc (System.body x)) eqn:Hpc; unfold Accept.step in Hone; rewrite ?Hpc in Hone.
  4: right; by eapply accepting_closer.
  9: right; by eapply admitting_closer.
  9: right; by eapply launching_closer.
  9: left; by eexists.
  all: right.
  2: by eapply (Hone (Accept.SetUp (λ _, None) (Net.Endpoint (Net.V4 0) 0))).
  4: by eapply (Hone (Accept.Local (no_error, Net.Endpoint (Net.V4 0) 0))).
  4: by eapply (Hone (Accept.TimerDone no_error)).
  all: by eapply (Hone Accept.Go).
Qed.

Lemma reaping_over s i :
  good s → Shutdown.host s = Shutdown.Reaping i → (i < servers)%nat →
  leads s (λ t, Shutdown.host t = Shutdown.Reaping i ∧ ∃ x, Shutdown.loops t !! i = Some x ∧ Shutdown.over x).
Proof using Hfresh.
  intros Hg Hh Hi.
  set (f := λ t : Shutdown.state (A := A), match Shutdown.loops t !! i with Some x => weight x | None => 0 end).
  apply (leads_measure _ _ (Shutdown.initial n bind port a) f (λ t, Shutdown.host t = Shutdown.Reaping i)); [| |done|done]; clear s Hg Hh; intros s Hg Hh.
  - unfold f. case_match; [|done]. unfold weight, bit, Accept.stop_steps. repeat case_match; lia.
  - destruct (lookup_lt_is_Some_2 (Shutdown.loops s) i) as [x Hx]; [by rewrite good_loops|].
    destruct (reaping_closer s i x Hg Hh Hx) as [Ho|Hl]; [left; eauto|right].
    eapply leads_bind; [done|exact Hl|]. intros t _ (Hht & x' & Hx' & Hlt).
    apply leads_now. split; [done|]. unfold f. by rewrite Hx, Hx'.
Qed.

(** The accept loops are reaped: the thread begins to wait for the sessions. *)
Abbreviation reaped s := (leads s (λ t, Shutdown.host t = Shutdown.Waiting false 0 true)).

Lemma reaping_reaped s i : good s → Shutdown.host s = Shutdown.Reaping i → reaped s.
Proof using Hfresh.
  intros Hg Hh. eapply leads_bind; [done|apply (counts_up (λ i x, x = Shutdown.Reaping i) servers s i Hg); [done|]|].
  - clear s i Hg Hh. intros s i Hg Hh Hi. eapply leads_bind; [done|by eapply reaping_over|].
    intros t Ht (Hht & x & Hx & y & Hy).
    apply (host_leads t true (Shutdown.goto t (Shutdown.Reaping (S i)))); [|by apply leads_now].
    unfold Shutdown.host_step. rewrite Hht, (good_loops t Ht), decide_True by done. rewrite Hx. simpl.
    pose proof (System.loops_reachable _ _ _ _ _ _ (good_sys t Ht) x (list_elem_of_lookup_2 _ _ _ Hx)) as Hr.
    apply Accept.startup_inv_reachable in Hr. unfold Accept.startup_inv in Hr. rewrite Hy in Hr.
    unfold Accept.wait. by destruct Hr as [-> _].
  - intros t Ht (r' & Hht & Hr').
    apply (host_leads t true (Shutdown.goto t (Shutdown.Waiting false 0 true))); [|by apply leads_now].
    unfold Shutdown.host_step. by rewrite Hht, (good_loops t Ht), decide_False by done.
Qed.

(** ** The requests *)

Lemma posting_leads s i :
  Shutdown.host s = Shutdown.Posting i → leads s (λ t, Shutdown.host t = Shutdown.Stopping (S i)).
Proof.
  intros Hh.
  set (t := Shutdown.mkState (Shutdown.sys s) (Shutdown.Stopping (S i)) (Shutdown.posted s ++ [i])).
  apply (host_leads s true t); [|by apply leads_now]. unfold Shutdown.host_step. by rewrite Hh.
Qed.

Lemma stopping_reaped s i : good s → Shutdown.host s = Shutdown.Stopping i → reaped s.
Proof using Hfresh.
  intros Hg Hh. eapply leads_bind; [done|apply (counts_up (λ i x, x = Shutdown.Stopping i) servers s i Hg); [done|]|].
  - clear s i Hg Hh. intros s i Hg Hh Hi.
    destruct (lookup_lt_is_Some_2 (Shutdown.loops s) i) as [x Hx]; [by rewrite good_loops|].
    assert (∃ y, System.step make_address (Shutdown.sys s) (System.Loop i Accept.Stop) = Some y) as [y Hy].
    { unfold System.step. simpl. setoid_rewrite Hx. simpl. unfold Accept.step. by eexists. }
    apply (host_leads s true (Shutdown.mkState y (Shutdown.Posting i) (Shutdown.posted s))); [|by apply posting_leads].
    unfold Shutdown.host_step. rewrite Hh, (good_loops s Hg), decide_True by done.
    unfold Shutdown.call. by rewrite Hy.
  - intros t Ht (r' & Hht & Hr').
    assert (Hs : Shutdown.host_step make_address t true = Some (Shutdown.goto t (Shutdown.Reaping 0))).
    { unfold Shutdown.host_step. by rewrite Hht, (good_loops t Ht), decide_False by done. }
    eapply host_leads; [exact Hs|]. eapply reaping_reaped; [by eapply host_good|done].
Qed.

Lemma walking_leads s r :
  good s → Shutdown.host s = Shutdown.Walking r → leads s (λ t, Shutdown.host t = Shutdown.Aborting (S r)).
Proof using Hfresh.
  intros Hg Hh. pose proof (good_inv s Hg) as Hi.
  destruct (lookup_lt_is_Some_2 _ _ (Shutdown.h_walk s Hi r Hh)) as [x Hx].
  pose proof (Shutdown.h_abort s Hi r x Hx) as Hxa. rewrite Hh in Hxa. simpl in Hxa.
  rewrite decide_False, bool_decide_true in Hxa by (done || lia). destruct Hxa as [Ha Hw].
  destruct (serve_leads s (Session.AbortWalk r) (Session.abort_walk (System.sess (Shutdown.sys s)) r x)
    (Shutdown.Aborting (S r))) as (t & Ht & Hht); [done| |].
  { unfold Session.step. setoid_rewrite Hx. simpl. by rewrite Ha, Hw. }
  apply (host_leads s true t); [|by apply leads_now]. unfold Shutdown.host_step. by rewrite Hh.
Qed.

Lemma aborting_reaped s r : good s → Shutdown.host s = Shutdown.Aborting r → reaped s.
Proof using Hfresh.
  intros Hg Hh. eapply leads_bind; [done|apply (counts_up (λ r x, x = Shutdown.Aborting r) n s r Hg); [done|]|].
  - clear s r Hg Hh. intros s r Hg Hh Hr.
    destruct (lookup_lt_is_Some_2 (Shutdown.reactors s) r) as [x Hx]; [by rewrite good_reactors|].
    destruct (serve_leads s (Session.AbortAll r) (Session.abort_all (System.sess (Shutdown.sys s)) r x)
      (if Session.aborting_ x then Shutdown.Aborting (S r) else Shutdown.Walking r)) as (t & Ht & Hht);
      [done|unfold Session.step; by setoid_rewrite Hx|].
    assert (Hs : Shutdown.host_step make_address s true = Some t).
    { unfold Shutdown.host_step. rewrite Hh, (good_reactors s Hg), decide_True by done. by rewrite Hx. }
    apply (host_leads s true t); [done|]. destruct (Session.aborting_ x); [by apply leads_now|].
    apply walking_leads; [by eapply host_good|done].
  - intros t Ht (r' & Hht & Hr').
    assert (Hs : Shutdown.host_step make_address t true = Some (Shutdown.goto t (Shutdown.Stopping 0))).
    { unfold Shutdown.host_step. by rewrite Hht, (good_reactors t Ht), decide_False by done. }
    eapply host_leads; [exact Hs|]. eapply stopping_reaped; [by eapply host_good|done].
Qed.

Lemma serving_reaped s : good s → Shutdown.host s = Shutdown.Serving → reaped s.
Proof using Hfresh.
  intros Hg Hh.
  assert (Hs : Shutdown.host_step make_address s true = Some (Shutdown.goto s (Shutdown.Aborting 0)))
    by (unfold Shutdown.host_step; by rewrite Hh).
  eapply host_leads; [exact Hs|]. eapply aborting_reaped; [by eapply host_good|done].
Qed.

Lemma reaped_ends s : good s → reaped s → ends s.
Proof using Hfresh.
  intros Hg Hr. eapply leads_bind; [done|exact Hr|]. intros t Ht Hht. exact (waiting_ends t _ _ _ Ht Hht).
Qed.

(** ** Theorem *)

(** C3: the shutdown never gets stuck: wherever the server and the thread that shuts it down
    are, a run exists to the end of the server in which nobody connects and no session ends by
    itself. In particular the waits without a limit, for the accept loops and for the threads,
    are for moves that come by themselves. *)
Theorem stop_can_finish s :
  reachable (Shutdown.step make_address) (Shutdown.initial n bind port a) s →
  ∃ ls t, exec quietly s ls = Some t ∧ Shutdown.host t = Shutdown.Gone.
Proof using Hfresh.
  intros Hg. change (ends s).
  destruct (Shutdown.host s) as [|r|r|i|i|i|f r d|r|d| | | |] eqn:Hh.
  - by apply reaped_ends, serving_reaped.
  - by eapply reaped_ends, aborting_reaped.
  - eapply leads_bind; [done|by apply walking_leads|]. intros t Ht Hht.
    exact (reaped_ends t Ht (aborting_reaped t _ Ht Hht)).
  - by eapply reaped_ends, stopping_reaped.
  - eapply leads_bind; [done|by apply posting_leads|]. intros t Ht Hht.
    exact (reaped_ends t Ht (stopping_reaped t _ Ht Hht)).
  - by eapply reaped_ends, reaping_reaped.
  - by eapply waiting_ends.
  - by eapply forcing_ends.
  - by eapply joining_ends.
  - by eapply closing_ends.
  - apply (phase_ends Shutdown.Destroying); [done|done|apply unloading_ends|done|done].
  - by apply unloading_ends.
  - by apply leads_now.
Qed.

End finish.

(** ** A server with a session that does not end by itself *)

Lemma stop_can_finish_witness :
  Shutdown.host Shutdown.asked_to_end = Shutdown.Reaping 0 ∧
  Shutdown.step (P := Net.linux) System.any_address Shutdown.asked_to_end (Shutdown.Host true) = None ∧
  ∃ ls t, exec (only (Shutdown.step (P := Net.linux) System.any_address) quiet)
      Shutdown.asked_to_end ls = Some t ∧
    Shutdown.host t = Shutdown.Gone.
Proof.
  split; [vm_compute; reflexivity|]. split; [vm_compute; reflexivity|].
  apply (stop_can_finish (P := Net.linux) System.any_address 1 Net.default_bind (λ _, 80) System.one).
  - apply Shutdown.one_fresh.
  - apply Shutdown.asked_to_end_reachable.
Defined.

End Finish.
