(* ===== verification/Server.v ===== *)
(** * reactor.h: TcpServer

    Startup, the bounded stop and the teardown phases, as programs over the server's own
    members that record the calls they make in order. What the calls answer (a thread that
    cannot start, a listener that cannot bind, when the sessions end) is the environment. *)

From S2P Require Import Prelude Prog Net.

Module Server.
Import Net.

(** ** The code *)

(** The calls on reactors (by index) and on accept controls (by index). *)
Inductive action :=
| Prepare (r : nat) | Guard (r : nat) | LagStart (r : nat)
| ClaimLoop (r : nat) | Thread (r : nat) | ReleaseLoop (r : nat)
| Spawn (i r : nat) (shared : bool) (port : Z) | FinishControl (i : nat) | WaitListening (i : nat)
| StopAccept (i : nat) | Poll (r : nat)
| AbortAll (r : nat) | PostStop (i : nat) | WaitAccept (i : nat) | ForceAll (r : nat)
| ClearGuards | LagStop (r : nat) | IoStop (r : nat) | Join (r : nat)
| CloseScheduler (r : nat) | DestroyRoots (r : nat).

(** What the outside answers. Times are milliseconds on the steady clock. *)
Record env := mkEnv {
  thread_fails : nat → option exn;      (* starting reactor [r]'s thread *)
  spawn_fails : nat → option exn;       (* spawning accept loop [i] *)
  listens : nat → Z → result Z;         (* accept loop [i] told to bind a port: the bound one *)
  ends : nat → option Z;                (* when the last session of [r] ends, unforced *)
  ends_forced : nat → option Z }.       (* and when it was forced *)

(** The server's members; an accept control is its index and the port it was given. *)
Record server := mkServer {
  n_ : nat;
  started_ : bool;
  stopped_ : bool;
  port_ : Z;
  lag_probe_ : bool;
  limit_ : Z;                           (* [admission_]: 0 is none *)
  bind_ : BindOptions;
  grace_ : Z;
  threads_ : list nat;
  accepts_ : list (nat * Z);
  guards_ : nat;
  now : Z;
  trace : list action }.

Definition log (a : action) (s : server) : server :=
  mkServer (n_ s) (started_ s) (stopped_ s) (port_ s) (lag_probe_ s) (limit_ s) (bind_ s)
    (grace_ s) (threads_ s) (accepts_ s) (guards_ s) (now s) (trace s ++ [a]).
Definition act (a : action) : prog server unit := modify (log a).

Definition set_started (s : server) : server :=
  mkServer (n_ s) true (stopped_ s) (port_ s) (lag_probe_ s) (limit_ s) (bind_ s) (grace_ s)
    (threads_ s) (accepts_ s) (guards_ s) (now s) (trace s).
Definition set_stopped (s : server) : server :=
  mkServer (n_ s) (started_ s) true (port_ s) (lag_probe_ s) (limit_ s) (bind_ s) (grace_ s)
    (threads_ s) (accepts_ s) (guards_ s) (now s) (trace s).
Definition set_port (p : Z) (s : server) : server :=
  mkServer (n_ s) (started_ s) (stopped_ s) p (lag_probe_ s) (limit_ s) (bind_ s) (grace_ s)
    (threads_ s) (accepts_ s) (guards_ s) (now s) (trace s).
Definition set_threads (ts : list nat) (s : server) : server :=
  mkServer (n_ s) (started_ s) (stopped_ s) (port_ s) (lag_probe_ s) (limit_ s) (bind_ s)
    (grace_ s) ts (accepts_ s) (guards_ s) (now s) (trace s).
Definition set_accepts (cs : list (nat * Z)) (s : server) : server :=
  mkServer (n_ s) (started_ s) (stopped_ s) (port_ s) (lag_probe_ s) (limit_ s) (bind_ s)
    (grace_ s) (threads_ s) cs (guards_ s) (now s) (trace s).
Definition set_guards (g : nat) (s : server) : server :=
  mkServer (n_ s) (started_ s) (stopped_ s) (port_ s) (lag_probe_ s) (limit_ s) (bind_ s)
    (grace_ s) (threads_ s) (accepts_ s) g (now s) (trace s).
Definition set_now (t : Z) (s : server) : server :=
  mkServer (n_ s) (started_ s) (stopped_ s) (port_ s) (lag_probe_ s) (limit_ s) (bind_ s)
    (grace_ s) (threads_ s) (accepts_ s) (guards_ s) t (trace s).

(** The constructor: at least one reactor, a grace of 5 s. *)
Definition make (reactors : nat) (maximum : Z) (t : Z) : server :=
  mkServer (if decide (reactors = 0%nat) then 1%nat else reactors) false false 0 false maximum
    default_bind 5000 [] [] 0 t [].

Definition set_connection_limit (maximum : Z) : prog server unit :=
  s ← get;
  if started_ s : bool then throw (logic_error "connection bound must be set before startup")
  else modify (λ s, mkServer (n_ s) (started_ s) (stopped_ s) (port_ s) (lag_probe_ s) maximum
         (bind_ s) (grace_ s) (threads_ s) (accepts_ s) (guards_ s) (now s) (trace s)).

Definition enable_lag_probe : prog server unit :=
  s ← get;
  if started_ s : bool then throw (logic_error "lag probe must be enabled before startup")
  else modify (λ s, mkServer (n_ s) (started_ s) (stopped_ s) (port_ s) true (limit_ s)
         (bind_ s) (grace_ s) (threads_ s) (accepts_ s) (guards_ s) (now s) (trace s)).

Definition set_bind_options (b : BindOptions) : prog server unit :=
  modify (λ s, mkServer (n_ s) (started_ s) (stopped_ s) (port_ s) (lag_probe_ s) (limit_ s)
    b (grace_ s) (threads_ s) (accepts_ s) (guards_ s) (now s) (trace s)).

Definition set_shutdown_grace (g : Z) : prog server unit :=
  modify (λ s, mkServer (n_ s) (started_ s) (stopped_ s) (port_ s) (lag_probe_ s) (limit_ s)
    (bind_ s) g (threads_ s) (accepts_ s) (guards_ s) (now s) (trace s)).

(** [Reactor::wait_sessions_until] called at time [t], for sessions that end at [d]: its
    answer, and the time it returns. *)
Definition wait_sessions_until (t deadline : Z) (d : option Z) : bool * Z :=
  match d with
  | Some d => if d <=? Z.max t deadline then (true, Z.max t d) else (false, Z.max t deadline)
  | None => (false, Z.max t deadline)
  end.

(** The loop of [sessions_end_within]. *)
Fixpoint wait_each (t deadline : Z) (ends : list (option Z)) (drained : bool) : bool * Z :=
  match ends with
  | [] => (drained, t)
  | d :: ends =>
      let r := wait_sessions_until t deadline d in
      wait_each r.2 deadline ends (r.1 && drained)
  end.

Definition sessions_end_within (limit : Z) (ends : nat → option Z) : prog server bool :=
  s ← get;
  let r := wait_each (now s) (now s + limit) (ends <$> seq 0 (n_ s)) true in
  _ ← modify (set_now r.2);
  mret r.1.

Section server.
Context (E : env).

Definition stop : prog server unit :=
  s ← get;
  if stopped_ s : bool then mret tt
  else
    let rs := seq 0 (n_ s) in
    _ ← modify set_stopped;
    _ ← for_each rs (λ r, act (AbortAll r));
    _ ← for_each (accepts_ s) (λ c, _ ← act (StopAccept c.1); act (PostStop c.1));
    _ ← for_each (accepts_ s) (λ c, act (WaitAccept c.1));
    drained ← sessions_end_within (grace_ s) (ends E);
    _ ← (if drained : bool then mret tt
         else _ ← for_each rs (λ r, act (ForceAll r));
              _ ← sessions_end_within (grace_ s) (ends_forced E); mret tt);
    _ ← modify (set_guards 0);
    _ ← act ClearGuards;
    _ ← for_each rs (λ r, _ ← act (LagStop r); act (IoStop r));
    _ ← for_each (threads_ s) (λ r, act (Join r));
    _ ← modify (set_threads []);
    modify (set_accepts []).

Definition close : prog server unit :=
  _ ← stop;
  s ← get;
  for_each (seq 0 (n_ s)) (λ r, act (CloseScheduler r)).

Definition destroy_roots : prog server unit :=
  _ ← close;
  s ← get;
  for_each (seq 0 (n_ s)) (λ r, act (DestroyRoots r)).

(** One accept control and its loop, told to bind [port]. *)
Definition spawn_accept (i r : nat) (shared : bool) (port : Z) : prog server unit :=
  _ ← modify (λ s, set_accepts (accepts_ s ++ [(i, port)]) s);
  match spawn_fails E i with
  | Some e => _ ← act (FinishControl i); throw e
  | None => act (Spawn i r shared port)
  end.

(** [control->wait_listening()] of control [i], and the port it is bound to. *)
Definition wait_listening (i : nat) (port : Z) : prog server Z :=
  _ ← act (WaitListening i);
  match listens E i port with Returns p => mret p | Throws e => throw e end.

(** The loop that starts one accept loop per reactor; the first one's port replaces 0. There
    is always a first one: the loop has just added it. *)
Fixpoint spawn_each (rs : list nat) (port : Z) : prog server unit :=
  match rs with
  | [] => mret tt
  | r :: rs =>
      _ ← spawn_accept r r false port;
      port' ← (if port =? 0
               then s ← get;
                    match accepts_ s with
                    | (i, p) :: _ => wait_listening i p
                    | [] => mret port
                    end
               else mret port);
      spawn_each rs port'
  end.

Definition start_thread (r : nat) : prog server unit :=
  _ ← act (ClaimLoop r);
  match thread_fails E r with
  | Some e => _ ← act (ReleaseLoop r); throw e
  | None => _ ← act (Thread r); modify (λ s, set_threads (threads_ s ++ [r]) s)
  end.

Definition start_body (port : Z) : prog server unit :=
  s ← get;
  let rs := seq 0 (n_ s) in
  let shared := negb (reuse_port (bind_ s)) && bool_decide (1 < n_ s)%nat in
  _ ← for_each rs (λ r,
        _ ← act (Prepare r);
        _ ← act (Guard r);
        _ ← modify (λ s, set_guards (S (guards_ s)) s);
        if lag_probe_ s : bool then act (LagStart r) else mret tt);
  _ ← for_each rs start_thread;
  _ ← (if shared : bool then spawn_accept 0 0 true port else spawn_each rs port);
  s ← get;
  _ ← for_each (accepts_ s) (λ c, _ ← wait_listening c.1 c.2; mret tt);
  match accepts_ s with
  | (i, p) :: _ => match listens E i p with Returns q => modify (set_port q) | Throws e => throw e end
  | [] => mret tt
  end.

Definition start (port : Z) : prog server unit :=
  s ← get;
  if (started_ s || stopped_ s)%bool then throw (logic_error "TCP server cannot be restarted")
  else
    _ ← modify set_started;
    catch (start_body port) (λ e,
      s ← get;
      _ ← for_each (accepts_ s) (λ c, act (StopAccept c.1));
      _ ← for_each (drop (length (threads_ s)) (seq 0 (n_ s))) (λ r, act (Poll r));
      _ ← stop;
      throw e).

End server.

(** ** Running programs *)

Definition logs (l : list action) (s : server) : server :=
  mkServer (n_ s) (started_ s) (stopped_ s) (port_ s) (lag_probe_ s) (limit_ s) (bind_ s)
    (grace_ s) (threads_ s) (accepts_ s) (guards_ s) (now s) (trace s ++ l).

Lemma logs_nil s : logs [] s = s.
Proof. unfold logs. rewrite app_nil_r. by destruct s. Qed.

Lemma logs_logs l l' s : logs l' (logs l s) = logs (l ++ l') s.
Proof. unfold logs; simpl. by rewrite app_assoc. Qed.

Lemma for_each_logs {A} (f : A → prog server unit) (g : A → list action) l s :
  (∀ x s, f x s = (Returns tt, logs (g x) s)) →
  for_each l f s = (Returns tt, logs (concat (g <$> l)) s).
Proof.
  intros Hf. revert s. induction l as [|x l IH]; intros s; simpl.
  - by rewrite logs_nil.
  - unfold mbind, prog_bind. by rewrite Hf, IH, logs_logs.
Qed.

Lemma for_each_act {A} (f : A → action) l s :
  for_each l (λ x, act (f x)) s = (Returns tt, logs (f <$> l) s).
Proof.
  rewrite (for_each_logs _ (λ x, [f x])) by done. do 2 f_equal.
  clear s. induction l as [|x l IH]; [done|]. simpl. f_equal. exact IH.
Qed.

Lemma log_two {A} (f g : A → action) x s :
  (_ ← act (f x); act (g x)) s = (Returns tt, logs [f x; g x] s).
Proof.
  rewrite (bind_returns (act (f x)) _ tt s (log (f x) s) eq_refl).
  unfold act, modify, log, logs; simpl. by rewrite <-app_assoc.
Qed.

(** ** stop *)

(** The answers to the two waits. *)
Definition first_wait (E : env) (s : server) : bool * Z :=
  wait_each (now s) (now s + grace_ s) (ends E <$> seq 0 (n_ s)) true.
Definition second_wait (E : env) (s : server) : bool * Z :=
  let t := (first_wait E s).2 in
  wait_each t (t + grace_ s) (ends_forced E <$> seq 0 (n_ s)) true.

(** The calls [stop] makes, in order. *)
Definition stop_trace (E : env) (s : server) : list action :=
  let rs := seq 0 (n_ s) in
  (AbortAll <$> rs) ++
  concat ((λ c, [StopAccept c.1; PostStop c.1]) <$> accepts_ s) ++
  ((λ c, WaitAccept c.1) <$> accepts_ s) ++
  (if (first_wait E s).1 then [] else ForceAll <$> rs) ++
  [ClearGuards] ++ concat ((λ r, [LagStop r; IoStop r]) <$> rs) ++ (Join <$> threads_ s).

Definition stop_result (E : env) (s : server) : server :=
  mkServer (n_ s) (started_ s) true (port_ s) (lag_probe_ s) (limit_ s) (bind_ s) (grace_ s)
    [] [] 0 (if (first_wait E s).1 then (first_wait E s).2 else (second_wait E s).2)
    (trace s ++ stop_trace E s).

(** What follows the waits. *)
Lemma stop_tail (rs ts : list nat) t :
  (_ ← modify (set_guards 0);
   _ ← act ClearGuards;
   _ ← for_each rs (λ r, _ ← act (LagStop r); act (IoStop r));
   _ ← for_each ts (λ r, act (Join r));
   _ ← modify (set_threads []);
   modify (set_accepts [])) t =
  (Returns tt, set_accepts [] (set_threads [] (set_guards 0 (logs
     ([ClearGuards] ++ concat ((λ r, [LagStop r; IoStop r]) <$> rs) ++ (Join <$> ts)) t)))).
Proof.
  rewrite (bind_returns (modify (set_guards 0)) _ tt t (set_guards 0 t) eq_refl).
  rewrite (bind_returns (act ClearGuards) _ tt _ (logs [ClearGuards] (set_guards 0 t)) eq_refl).
  rewrite (bind_returns _ _ _ _ _ (for_each_logs _ (λ r, [LagStop r; IoStop r]) _ _ (log_two _ _))).
  rewrite (bind_returns _ _ _ _ _ (for_each_act Join _ _)), !logs_logs.
  unfold mbind, prog_bind, modify; simpl. done.
Qed.

Lemma stop_eq E s : stopped_ s = false → stop E s = (Returns tt, stop_result E s).
Proof.
  intros Hs. unfold stop. rewrite (bind_returns get _ s s s eq_refl), Hs.
  rewrite (bind_returns (modify set_stopped) _ tt s (set_stopped s) eq_refl).
  rewrite (bind_returns _ _ _ _ _ (for_each_act AbortAll _ _)).
  rewrite (bind_returns _ _ _ _ _ (for_each_logs _ (λ c, [StopAccept c.1; PostStop c.1]) _ _
    (log_two _ _))).
  rewrite (bind_returns _ _ _ _ _ (for_each_act (λ c, WaitAccept c.1) _ _)).
  rewrite !logs_logs.
  match goal with |- (sessions_end_within ?g ?e ≫= _) ?t = _ =>
    rewrite (bind_returns (sessions_end_within g e) _ (first_wait E s).1 t
      (set_now (first_wait E s).2 t) eq_refl) end.
  unfold stop_result, stop_trace. destruct (first_wait E s).1 eqn:Hd.
  - match goal with |- (mret tt ≫= _) ?t = _ =>
      rewrite (bind_returns (mret tt) _ tt t t eq_refl) end.
    rewrite stop_tail. unfold logs, set_now; simpl. do 2 f_equal.
    by rewrite <-!app_assoc.
  - match goal with |- ((?f ≫= ?k) ≫= _) ?t = _ =>
      rewrite (bind_returns (f ≫= k) _ tt t
        (set_now (second_wait E s).2 (logs (ForceAll <$> seq 0 (n_ s)) t))) end.
    + rewrite stop_tail. unfold logs, set_now; simpl. do 2 f_equal. by rewrite <-!app_assoc.
    + rewrite (bind_returns _ _ _ _ _ (for_each_act ForceAll _ _)).
      match goal with |- (sessions_end_within ?g ?e ≫= _) ?t = _ =>
        rewrite (bind_returns (sessions_end_within g e) _ (second_wait E s).1 t
          (set_now (second_wait E s).2 t) eq_refl) end.
      done.
Qed.

(** A second [stop] does nothing. *)
Lemma stop_again E s : stopped_ s = true → stop E s = (Returns tt, s).
Proof. intros Hs. unfold stop. by rewrite (bind_returns get _ s s s eq_refl), Hs. Qed.

(** *** The waits *)

Lemma wait_each_spec t deadline ds b :
  t ≤ deadline →
  t ≤ (wait_each t deadline ds b).2 ≤ deadline ∧
  ((wait_each t deadline ds b).1 = true ↔
     b = true ∧ Forall (λ d, ∃ x, d = Some x ∧ x ≤ deadline) ds).
Proof.
  revert t b. induction ds as [|d ds IH]; intros t b Ht; simpl.
  { split; [lia|]. split; [intros ->; by split|tauto]. }
  rewrite Forall_cons.
  assert (Hw : t ≤ (wait_sessions_until t deadline d).2 ≤ deadline ∧
    ((wait_sessions_until t deadline d).1 = true ↔ ∃ x, d = Some x ∧ x ≤ deadline)).
  { unfold wait_sessions_until. destruct d as [x|]; simpl.
    - destruct (x <=? t `max` deadline) eqn:Hx; reflect_bools; simpl; (split; [lia|]);
        (split; [intros|]); try done; [exists x; split; [done|lia]|].
      intros (y & [= <-] & Hy). lia.
    - split; [lia|]. split; [done|]. by intros (y & [=] & _). }
  destruct Hw as [Hwt Hwb]. destruct (IH _ ((wait_sessions_until t deadline d).1 && b) (proj2 Hwt))
    as [H1 H2]. split; [lia|]. rewrite H2, andb_true_iff, Hwb. tauto.
Qed.

(** ** The phases *)

(** A call a host makes. *)
Inductive call :=
| CStart (port : Z) | CStop | CClose | CDestroyRoots
| CLimit (maximum : Z) | CLagProbe | CBind (b : BindOptions) | CGrace (g : Z).

Definition run_call (E : env) (c : call) : prog server unit :=
  match c with
  | CStart p => start E p
  | CStop => stop E
  | CClose => close E
  | CDestroyRoots => destroy_roots E
  | CLimit m => set_connection_limit m
  | CLagProbe => enable_lag_probe
  | CBind b => set_bind_options b
  | CGrace g => set_shutdown_grace g
  end.

(** A host that handles what the calls throw. *)
Definition run_calls (E : env) (cs : list call) (s : server) : server :=
  foldl (λ s c, (run_call E c s).2) s cs.

(** What a phase adds once the server is stopped. *)
Definition phase_calls (n : nat) (c : call) : list action :=
  match c with
  | CClose => CloseScheduler <$> seq 0 n
  | CDestroyRoots => (CloseScheduler <$> seq 0 n) ++ (DestroyRoots <$> seq 0 n)
  | _ => []
  end.

Definition is_phase (c : call) : bool :=
  match c with CStop | CClose | CDestroyRoots => true | _ => false end.

Lemma close_eq E s t :
  stop E s = (Returns tt, t) → close E s = (Returns tt, logs (CloseScheduler <$> seq 0 (n_ t)) t).
Proof.
  intros Hs. unfold close. rewrite (bind_returns _ _ _ _ _ Hs), (bind_returns get _ t t t eq_refl).
  apply for_each_act.
Qed.

Lemma destroy_roots_eq E s t :
  stop E s = (Returns tt, t) →
  destroy_roots E s = (Returns tt, logs (phase_calls (n_ t) CDestroyRoots) t).
Proof.
  intros Hs. unfold destroy_roots. rewrite (bind_returns _ _ _ _ _ (close_eq E s t Hs)).
  rewrite (bind_returns get _ _ _ _ eq_refl), for_each_act, logs_logs. done.
Qed.

(** A phase of a server that is stopped, or of one it stops first. *)
Lemma phase_eq E c s t :
  is_phase c = true → stop E s = (Returns tt, t) →
  run_call E c s = (Returns tt, logs (phase_calls (n_ t) c) t).
Proof.
  intros Hc Hs. destruct c; try done; simpl.
  - by rewrite logs_nil.
  - by apply close_eq.
  - by apply destroy_roots_eq.
Qed.

Lemma phases_stopped E cs s :
  forallb is_phase cs = true → stopped_ s = true →
  run_calls E cs s = logs (concat (phase_calls (n_ s) <$> cs)) s.
Proof.
  revert s. induction cs as [|c cs IH]; intros s Hc Hs; simpl in *; [by rewrite logs_nil|].
  reflect_bools. rewrite (phase_eq E c s s H (stop_again E s Hs)); simpl.
  change (run_calls E cs (logs (phase_calls (n_ s) c) s) =
    logs (phase_calls (n_ s) c ++ concat (phase_calls (n_ s) <$> cs)) s).
  rewrite IH by done. by rewrite logs_logs.
Qed.

(** ** Claims of loops *)

(** The claims on reactor [r]'s loop: a thread releases its own when it has left [run()],
    which is before it is joined. *)
Definition claim_of (r : nat) (a : action) : Z :=
  match a with
  | ClaimLoop r' => bit (bool_decide (r' = r))
  | ReleaseLoop r' | Join r' => - bit (bool_decide (r' = r))
  | _ => 0
  end.
Definition claims (r : nat) (tr : list action) : Z := total (claim_of r) tr.
Definition running (r : nat) (ts : list nat) : Z := total (λ t, bit (bool_decide (t = r))) ts.

Definition balanced (s : server) : Prop := ∀ r, claims r (trace s) = running r (threads_ s).

(** A stopped server has no thread, no accept control and no work guard. *)
Definition down (s : server) : Prop :=
  stopped_ s = true → threads_ s = [] ∧ accepts_ s = [] ∧ guards_ s = 0%nat.

Lemma claims_app r l l' : claims r (l ++ l') = claims r l + claims r l'.
Proof. apply total_app. Qed.

Lemma claims_none r (l : list action) : Forall (λ a, claim_of r a = 0) l → claims r l = 0.
Proof. intros Hl. apply total_zero. intros a Ha. by apply (Forall_elem _ _ _ Hl). Qed.

Lemma claims_joins r (ts : list nat) : claims r (Join <$> ts) = - running r ts.
Proof.
  unfold claims, running. induction ts as [|t ts IH]; [done|].
  change (- bit (bool_decide (t = r)) + total (claim_of r) (Join <$> ts) =
    - (bit (bool_decide (t = r)) + total (λ t, bit (bool_decide (t = r))) ts)). lia.
Qed.

Lemma Forall_concat_fmap {A B} (P : B → Prop) (f : A → list B) l :
  (∀ x, Forall P (f x)) → Forall P (concat (f <$> l)).
Proof. intros Hf. induction l; [constructor|]. simpl. by apply Forall_app. Qed.

Lemma Forall_fmap_all {A B} (P : B → Prop) (f : A → B) l : (∀ x, P (f x)) → Forall P (f <$> l).
Proof. intros Hf. induction l; by constructor. Qed.

Lemma claims_stop_trace E s r : claims r (stop_trace E s) = - running r (threads_ s).
Proof.
  unfold stop_trace. rewrite !claims_app, claims_joins.
  rewrite !(claims_none r); [lia|..].
  - apply Forall_concat_fmap. intros x. by repeat constructor.
  - by repeat constructor.
  - destruct (first_wait E s).1; [constructor|]. by apply Forall_fmap_all.
  - by apply Forall_fmap_all.
  - apply Forall_concat_fmap. intros x. by repeat constructor.
  - by apply Forall_fmap_all.
Qed.

(** A property the calls of startup keep: it may speak of the claims, the threads and
    whether the server is stopped. *)
Class Startup (E : env) (I : server → Prop) := {
  startup_act a : (∀ r, claim_of r a = 0) → keeps I (act a);
  startup_modify f :
    (∀ s, trace (f s) = trace s ∧ threads_ (f s) = threads_ s ∧ stopped_ (f s) = stopped_ s) →
    keeps I (modify f);
  startup_thread r : keeps I (start_thread E r) }.

Section startup.
Context (E : env) (I : server → Prop) `{!Startup E I}.

#[local] Hint Resolve startup_thread : reactor.
#[local] Hint Extern 2 (keeps I (act _)) => (apply startup_act; done) : reactor.
#[local] Hint Extern 2 (keeps I (modify _)) => (apply startup_modify; done) : reactor.

Lemma spawn_accept_keeps i r b p : keeps I (spawn_accept E i r b p).
Proof.
  unfold spawn_accept. apply keeps_bind; [auto with reactor|intros _].
  destruct (spawn_fails E i); auto with reactor.
Qed.

Lemma wait_listening_keeps i p : keeps I (wait_listening E i p).
Proof.
  unfold wait_listening. apply keeps_bind; [auto with reactor|intros _].
  destruct (listens E i p); auto with reactor.
Qed.
#[local] Hint Resolve spawn_accept_keeps wait_listening_keeps : reactor.

Lemma spawn_each_keeps rs p : keeps I (spawn_each E rs p).
Proof.
  revert p. induction rs as [|r rs IH]; intros p; simpl; [auto with reactor|].
  apply keeps_bind; [auto with reactor|intros _]. apply keeps_bind; [|auto].
  destruct (p =? 0); [|auto with reactor]. apply keeps_bind; [auto with reactor|intros s].
  destruct (accepts_ s) as [|[]]; auto with reactor.
Qed.
#[local] Hint Resolve spawn_each_keeps : reactor.

Lemma start_body_keeps p : keeps I (start_body E p).
Proof.
  unfold start_body. apply keeps_bind; [auto with reactor|intros s].
  apply keeps_bind.
  { apply keeps_for_each. intros r. repeat (apply keeps_bind; [auto with reactor|intros _]).
    destruct (lag_probe_ s); auto with reactor. }
  intros _. apply keeps_bind; [auto with reactor|intros _].
  apply keeps_bind; [destruct (_ && _)%bool; auto with reactor|intros _].
  apply keeps_bind; [auto with reactor|intros s']. apply keeps_bind; [auto with reactor|intros _].
  destruct (accepts_ s') as [|[i q] ?]; [auto with reactor|]. destruct (listens E i q); auto with reactor.
Qed.

(** The handler of a failed start, up to its [stop]. *)
Lemma start_cleanup_keeps (s : server) :
  keeps I (_ ← for_each (accepts_ s) (λ c, act (StopAccept c.1));
           for_each (drop (length (threads_ s)) (seq 0 (n_ s))) (λ r, act (Poll r))).
Proof. auto with reactor. Qed.
End startup.

#[export] Instance balanced_startup E : Startup E balanced.
Proof.
  split.
  - intros a Ha s Hs r. simpl. rewrite claims_app, (Hs r). unfold claims at 1; simpl. rewrite Ha. lia.
  - intros f Hf s Hs r. simpl. by destruct (Hf s) as (-> & -> & _).
  - intros r s Hs r'. unfold start_thread, mbind, prog_bind, act, modify. simpl.
    destruct (thread_fails E r); simpl; rewrite !claims_app, (Hs r'); unfold claims; simpl.
    + lia.
    + unfold running. rewrite total_snoc. lia.
Qed.

#[export] Instance alive_startup E : Startup E (λ s, stopped_ s = false).
Proof.
  split.
  - by intros a Ha s Hs.
  - intros f Hf s Hs. simpl. by destruct (Hf s) as (_ & _ & ->).
  - intros r s Hs. unfold start_thread, mbind, prog_bind, act, modify. simpl.
    by destruct (thread_fails E r).
Qed.

Lemma stop_balanced E : keeps balanced (stop E).
Proof.
  intros s Hs. destruct (stopped_ s) eqn:Hst; [by rewrite stop_again|].
  rewrite stop_eq by done. intros r; simpl. rewrite claims_app, claims_stop_trace, (Hs r).
  unfold running; simpl. lia.
Qed.

(** What [start] comes to: refused, up, or down with the error. *)
Lemma start_cases E p s :
  start E p s = (Throws (logic_error "TCP server cannot be restarted"), s) ∧
    (started_ s || stopped_ s)%bool = true ∨
  (∃ t, start E p s = (Returns tt, t) ∧ start_body E p (set_started s) = (Returns tt, t) ∧
    started_ s = false ∧ stopped_ t = false) ∨
  (∃ e t, start E p s = (Throws e, stop_result E t) ∧ (balanced s → balanced t) ∧
    started_ s = false ∧ stopped_ t = false ∧ n_ t = n_ (start_body E p (set_started s)).2 ∧
    (start_body E p (set_started s)).1 = Throws e).
Proof.
  unfold start. rewrite (bind_returns get _ s s s eq_refl).
  destruct (started_ s || stopped_ s)%bool eqn:Hst; [by left|right].
  apply orb_false_iff in Hst as [Hs1 Hs2].
  rewrite (bind_returns (modify set_started) _ tt s (set_started s) eq_refl). unfold catch.
  pose proof (start_body_keeps E (λ s, stopped_ s = false) p (set_started s) Hs2) as Hal.
  pose proof (start_body_keeps E balanced p (set_started s)) as Hbal.
  destruct (start_body E p (set_started s)) as [[[]|e] t]; simpl in Hal, Hbal; [left; eauto|right].
  exists e.
  pose proof (start_cleanup_keeps E (λ s, stopped_ s = false) t t Hal) as Hal'.
  pose proof (start_cleanup_keeps E balanced t t) as Hbal'.
  rewrite (bind_returns get _ t t t eq_refl).
  rewrite (bind_returns _ _ _ _ _ (for_each_act (λ c : nat * Z, StopAccept c.1) _ _)).
  rewrite (bind_returns _ _ _ _ _ (for_each_act (λ c : nat * Z, StopAccept c.1) _ _)),
    for_each_act in Hal', Hbal'. cbn [fst snd] in Hal', Hbal'.
  rewrite (bind_returns _ _ _ _ _ (for_each_act Poll _ _)).
  rewrite (bind_returns _ _ _ _ _ (stop_eq E _ Hal')).
  eexists. split; [reflexivity|]. split_and!; try done. intros Hb. apply Hbal', Hbal, Hb.
Qed.

Definition host_ok (s : server) : Prop := down s ∧ balanced s.

Lemma host_ok_stopped E s : balanced s → stopped_ s = false → host_ok (stop_result E s).
Proof.
  intros Hb Hs. split; [done|]. pose proof (stop_balanced E s Hb) as H. by rewrite stop_eq in H.
Qed.

Lemma run_call_host_ok E c : keeps host_ok (run_call E c).
Proof.
  intros s [Hd Hb].
  assert (Hlogs : ∀ l t, (∀ r, Forall (λ a, claim_of r a = 0) l) → host_ok t → host_ok (logs l t)).
  { intros l t Hl [Hdt Hbt]. split; [done|]. intros r; simpl. rewrite claims_app, (Hbt r).
    rewrite (claims_none r l) by done. lia. }
  assert (Hstop : ∃ t, stop E s = (Returns tt, t) ∧ host_ok t).
  { destruct (stopped_ s) eqn:Hst.
    - exists s. rewrite stop_again by done. by split.
    - exists (stop_result E s). rewrite stop_eq by done. split; [done|]. by apply host_ok_stopped. }
  destruct (is_phase c) eqn:Hp.
  { destruct Hstop as (t & Ht & Hok). rewrite (phase_eq E c s t Hp Ht). apply Hlogs; [|done].
    intros r. destruct c; simpl; try constructor; rewrite ?Forall_app;
      split_and?; by apply Forall_fmap_all. }
  destruct c; try done; simpl.
  - destruct (start_cases E port s) as [[-> _]|[(t & -> & Hbd & _ & Hal)|(e & t & -> & Hbt & _ & Hal & _)]]; simpl.
    + by split.
    + split; [intros Hst; congruence|].
      pose proof (start_body_keeps E balanced port (set_started s) Hb) as H. by rewrite Hbd in H.
    + apply host_ok_stopped; auto.
  - unfold set_connection_limit. rewrite (bind_returns get _ s s s eq_refl). by destruct (started_ s).
  - unfold enable_lag_probe. rewrite (bind_returns get _ s s s eq_refl). by destruct (started_ s).
Qed.

Lemma run_calls_host_ok E cs s : host_ok s → host_ok (run_calls E cs s).
Proof.
  revert s. induction cs as [|c cs IH]; intros s Hs; [done|]. apply IH. by apply run_call_host_ok.
Qed.

(** ** Which ports *)

Lemma spawn_accept_inv E i r b p s t :
  spawn_accept E i r b p s = (Returns tt, t) → accepts_ t = accepts_ s ++ [(i, p)].
Proof.
  unfold spawn_accept. rewrite (bind_returns (modify _) _ tt s _ eq_refl).
  destruct (spawn_fails E i); [done|]. intros [= <-]. done.
Qed.

Lemma wait_listening_inv E i p s q t :
  wait_listening E i p s = (Returns q, t) → listens E i p = Returns q ∧ accepts_ t = accepts_ s.
Proof.
  unfold wait_listening. rewrite (bind_returns (act _) _ tt s _ eq_refl).
  destruct (listens E i p); [|done]. by intros [= <- <-].
Qed.

(** With a port given, every accept loop is told that port. *)
Lemma spawn_each_given E rs p s t :
  p ≠ 0 → spawn_each E rs p s = (Returns tt, t) →
  accepts_ t = accepts_ s ++ ((λ r, (r, p)) <$> rs).
Proof.
  intros Hp. revert s. induction rs as [|r rs IH]; intros s Hs; simpl in Hs.
  { injection Hs as <-. by rewrite app_nil_r. }
  apply bind_inv in Hs as ([] & u & Hu & Hs). apply spawn_accept_inv in Hu.
  apply bind_inv in Hs as (q & v & Hv & Hs). rewrite (proj2 (Z.eqb_neq p 0) Hp) in Hv.
  injection Hv as <- <-. rewrite (IH u Hs), Hu, <-app_assoc. done.
Qed.

(** With port 0 the first one is told 0, and the others the port it got. *)
Lemma spawn_each_any E r rs s t :
  accepts_ s = [] → (∀ i p q, listens E i p = Returns q → q ≠ 0) →
  spawn_each E (r :: rs) 0 s = (Returns tt, t) →
  ∃ q, listens E r 0 = Returns q ∧ accepts_ t = (r, 0) :: ((λ r, (r, q)) <$> rs).
Proof.
  intros Ha Hq Hs. simpl in Hs. apply bind_inv in Hs as ([] & u & Hu & Hs).
  apply spawn_accept_inv in Hu. rewrite Ha in Hu; simpl in Hu.
  apply bind_inv in Hs as (q & v & Hv & Hs). rewrite (bind_returns get _ u u u eq_refl), Hu in Hv.
  apply wait_listening_inv in Hv as [Hl Hv]. exists q. split; [done|].
  rewrite (spawn_each_given E rs q v t (Hq _ _ _ Hl) Hs), Hv, Hu. done.
Qed.

Lemma wait_all_inv E (cs : list (nat * Z)) s t :
  for_each cs (λ c, _ ← wait_listening E c.1 c.2; mret tt) s = (Returns tt, t) →
  accepts_ t = accepts_ s ∧ ∀ i p, (i, p) ∈ cs → ∃ q, listens E i p = Returns q.
Proof.
  revert s. induction cs as [|[i p] cs IH]; intros s Hs; simpl in Hs.
  { injection Hs as <-. split; [done|]. intros i p Hin. by apply elem_of_nil in Hin. }
  apply bind_inv in Hs as ([] & u & Hu & Hs). apply bind_inv in Hu as (q & v & Hv & Hu).
  injection Hu as <-. apply wait_listening_inv in Hv as [Hl Hv].
  destruct (IH v Hs) as [Ht Hcs]. split; [congruence|].
  intros i' p' [[= -> ->]|Hin]%elem_of_cons; eauto.
Qed.

(** The steps before the accept loops leave the controls alone. *)
Definition quiet (cs : list (nat * Z)) (n : nat) (s : server) : Prop :=
  accepts_ s = cs ∧ n_ s = n.

Lemma start_thread_quiet E r cs n : keeps (quiet cs n) (start_thread E r).
Proof.
  intros s [H1 H2]. unfold start_thread, mbind, prog_bind, act, modify. simpl.
  by destruct (thread_fails E r).
Qed.

Lemma prepare_quiet (lag : bool) r cs n :
  keeps (quiet cs n) (_ ← act (Prepare r); _ ← act (Guard r);
    _ ← modify (λ s, set_guards (S (guards_ s)) s); if lag then act (LagStart r) else mret tt).
Proof. intros s [H1 H2]. by destruct lag. Qed.

(** The controls of a server that is up. *)
Lemma start_body_accepts E p s t :
  accepts_ s = [] → (0 < n_ s)%nat → (∀ i p q, listens E i p = Returns q → q ≠ 0) →
  start_body E p s = (Returns tt, t) →
  ∃ i q rest, accepts_ t = (i, p) :: rest ∧ listens E i p = Returns q ∧ port_ t = q ∧
    (∀ j p', (j, p') ∈ accepts_ t → ∃ q', listens E j p' = Returns q') ∧
    (∀ j p', (j, p') ∈ rest → p' = if p =? 0 then q else p).
Proof.
  intros Ha Hn Hq Hs. unfold start_body in Hs. rewrite (bind_returns get _ s s s eq_refl) in Hs.
  apply bind_inv in Hs as ([] & u & Hu & Hs). apply bind_inv in Hs as ([] & v & Hv & Hs).
  assert (Hqu : quiet [] (n_ s) u).
  { pose proof (keeps_for_each (quiet [] (n_ s)) (seq 0 (n_ s)) _
      (λ r, prepare_quiet (lag_probe_ s) r [] (n_ s)) s (conj Ha eq_refl)) as H. by rewrite Hu in H. }
  assert (Hqv : quiet [] (n_ s) v).
  { pose proof (keeps_for_each (quiet [] (n_ s)) (seq 0 (n_ s)) _
      (λ r, start_thread_quiet E r [] (n_ s)) u Hqu) as H. by rewrite Hv in H. }
  destruct Hqv as [Hav _]. apply bind_inv in Hs as ([] & w & Hw & Hs).
  rewrite (bind_returns get _ w w w eq_refl) in Hs. apply bind_inv in Hs as ([] & z & Hz & Hs).
  apply wait_all_inv in Hz as [Hzw Hall].
  assert (∃ i rest, accepts_ w = (i, p) :: rest ∧
    (∀ j p', (j, p') ∈ rest → ∃ q, listens E i p = Returns q ∧ p' = if p =? 0 then q else p))
    as (i & rest & Hw' & Hrest).
  { destruct (negb (reuse_port (bind_ s)) && bool_decide (1 < n_ s)%nat)%bool.
    - apply spawn_accept_inv in Hw. rewrite Hav in Hw. exists 0%nat, []. split; [done|].
      intros j p' Hin. by apply elem_of_nil in Hin.
    - destruct (n_ s) as [|m]; [lia|]. destruct (Z.eqb_spec p 0) as [->|Hp].
      + destruct (spawn_each_any E 0 (seq 1 m) v w Hav Hq Hw) as (q & Hl & ->).
        eexists _, _. split; [reflexivity|]. intros j p' (r & [= -> ->] & _)%list_elem_of_fmap. eauto.
      + pose proof (spawn_each_given E _ p v w Hp Hw) as Hacc. rewrite Hav in Hacc. simpl in Hacc.
        eexists _, _. split; [exact Hacc|].
        destruct (Hall 0%nat p) as [q0 Hq0]; [rewrite Hacc; left|].
        intros j p' (r & [= -> ->] & _)%list_elem_of_fmap. eauto. }
  rewrite Hw' in Hs. destruct (Hall i p) as [q Hl]; [rewrite Hw'; left|]. rewrite Hl in Hs.
  injection Hs as <-. exists i, q, rest. simpl. rewrite Hzw. split_and!; try done.
  intros j p' Hin. destruct (Hrest j p' Hin) as (q' & Hl' & ->). rewrite Hl in Hl'. by injection Hl' as <-.
Qed.

(** ** Theorems *)

(** C17: [stop] asks every reactor's sessions to stop, then ends and reaps every accept loop,
    then waits one grace; only if some reactor's sessions have not all ended by then it forces
    every reactor and waits once more; then it stops the loops and joins the threads, in this
    order. Its waits for sessions take at most twice the grace, whatever the sessions do. *)
Theorem stop_bounded E s :
  stopped_ s = false → 0 ≤ grace_ s →
  ∃ s', stop E s = (Returns tt, s') ∧ trace s' = trace s ++ stop_trace E s ∧
    now s ≤ now s' ≤ now s + 2 * grace_ s ∧
    ((first_wait E s).1 = true ↔ ∀ r, (r < n_ s)%nat → ∃ d, ends E r = Some d ∧ d ≤ now s + grace_ s) ∧
    ((first_wait E s).1 = true → now s' ≤ now s + grace_ s) ∧
    stopped_ s' = true ∧ threads_ s' = [] ∧ accepts_ s' = [] ∧ guards_ s' = 0%nat.
Proof.
  intros Hs Hg. exists (stop_result E s). rewrite stop_eq by done.
  destruct (wait_each_spec (now s) (now s + grace_ s) (ends E <$> seq 0 (n_ s)) true)
    as [Ht Hd]; [lia|]. fold (first_wait E s) in Ht, Hd.
  destruct (wait_each_spec (first_wait E s).2 ((first_wait E s).2 + grace_ s)
    (ends_forced E <$> seq 0 (n_ s)) true) as [Ht2 _]; [lia|]. fold (second_wait E s) in Ht2.
  unfold stop_result; simpl. split_and!; try done.
  - destruct (first_wait E s).1; lia.
  - destruct (first_wait E s).1; lia.
  - rewrite Hd. split.
    + intros [_ Hall] r Hr. apply (Forall_elem _ _ (ends E r) Hall). apply list_elem_of_fmap_2.
      apply elem_of_seq. lia.
    + intros Hall. split; [done|]. apply Forall_fmap, Forall_seq. intros r Hr. apply Hall. lia.
  - intros ->. lia.
Qed.

(** The phases in any order and any number of times: the first of them runs [stop] once,
    before everything else; each [close] and [destroy_roots] then closes every scheduler,
    after every loop was joined, and roots are destroyed after every scheduler was closed. *)
Theorem phases_any_order E c cs s :
  stopped_ s = false → forallb is_phase (c :: cs) = true →
  trace (run_calls E (c :: cs) s) =
  trace s ++ stop_trace E s ++ concat (phase_calls (n_ s) <$> c :: cs).
Proof.
  intros Hs Hc. simpl in Hc. reflect_bools. unfold run_calls; simpl.
  rewrite (phase_eq E c s _ H (stop_eq E s Hs)). fold (run_calls E cs).
  change (trace (run_calls E cs (logs (phase_calls (n_ s) c) (stop_result E s))) =
    trace s ++ stop_trace E s ++ phase_calls (n_ s) c ++ concat (phase_calls (n_ s) <$> cs)).
  rewrite phases_stopped by done. simpl. by rewrite <-!app_assoc.
Qed.

(** Whatever a host calls, and whatever fails, the claims on each reactor's loop equal the
    threads that run it, and a stopped server has none, so the destructor of a reactor finds
    its loop unclaimed. *)
Theorem loops_released E cs n maximum t :
  let s := run_calls E cs (make n maximum t) in
  (∀ r, claims r (trace s) = running r (threads_ s)) ∧
  (stopped_ s = true →
     threads_ s = [] ∧ accepts_ s = [] ∧ guards_ s = 0%nat ∧ ∀ r, claims r (trace s) = 0).
Proof.
  intros s. assert (Hok : host_ok s) by (by apply run_calls_host_ok).
  destruct Hok as [Hd Hb]. split; [done|]. intros Hs. destruct (Hd Hs) as (H1 & H2 & H3).
  split_and!; try done. intros r. by rewrite (Hb r), H1.
Qed.

(** When [start] returns, every accept loop listens on the one port the server reports,
    which is the port asked for, or, asked for 0, the one the first listener got: given that a
    listener never reports port 0, and reports the port it was told unless that is 0. *)
Theorem start_one_port E p s s' :
  (∀ i p q, listens E i p = Returns q → q ≠ 0 ∧ (p ≠ 0 → q = p)) →
  accepts_ s = [] → (0 < n_ s)%nat →
  start E p s = (Returns tt, s') →
  accepts_ s' ≠ [] ∧ (p ≠ 0 → port_ s' = p) ∧
  ∀ i p', (i, p') ∈ accepts_ s' → listens E i p' = Returns (port_ s').
Proof.
  intros Hl Ha Hn Hs. destruct (start_cases E p s) as [[Hc _]|[(t & Hc & Hb & _)|(e & t & Hc & _)]];
    rewrite Hs in Hc; simplify_eq.
  assert (Ha' : accepts_ (set_started s) = []) by done.
  destruct (start_body_accepts E p (set_started s) t Ha' Hn (λ i p q Hq, proj1 (Hl i p q Hq)) Hb)
    as (i & q & rest & Hacc & Hi & Hport & Hall & Hrest).
  rewrite Hacc. split_and!; [done|..].
  - intros Hp. rewrite Hport. by apply (Hl i p q).
  - intros j p' [[= -> ->]|Hin]%elem_of_cons; [by rewrite Hport|].
    destruct (Hall j p') as [q' Hq']; [rewrite Hacc; by right|]. rewrite Hq', Hport.
    f_equal. rewrite (Hrest j p' Hin) in Hq'. destruct (Hl _ _ _ Hq') as [_ Heq].
    destruct (Hl _ _ _ Hi) as [Hq0 Hqp]. destruct (Z.eqb_spec p 0) as [->|Hp].
    + apply Heq. done.
    + rewrite Heq, Hqp by done. done.
Qed.

(** C18: a [start] that fails leaves the server stopped with nothing running: whichever thread
    or listener failed, it throws that error after the loops, guards and accept controls are
    gone; and a server that was started or stopped before is refused and left as it is. *)
Theorem start_failure E p s e s' :
  start E p s = (Throws e, s') →
  (s' = s ∧ e = logic_error "TCP server cannot be restarted" ∧
     (started_ s || stopped_ s)%bool = true) ∨
  ((start_body E p (set_started s)).1 = Throws e ∧
   stopped_ s' = true ∧ threads_ s' = [] ∧ accepts_ s' = [] ∧ guards_ s' = 0%nat ∧
   (balanced s → ∀ r, claims r (trace s') = 0)).
Proof.
  intros Hs. destruct (start_cases E p s) as [[Hc Hst]|[(t & Hc & _)|(e' & t & Hc & Hb & _ & Hal & _ & He)]];
    rewrite Hs in Hc; simplify_eq; [by left|right]. split_and!; try done.
  intros Hbs r. apply (host_ok_stopped E t (Hb Hbs) Hal).
Qed.

(** ** Witnesses *)

(** Two reactors with a listener each; the port asked for 0 is 4711; reactor 1's sessions
    take 8 s, or end 1 s after they are forced. *)
Definition slow_peer : env :=
  mkEnv (λ _, None) (λ _, None) (λ _ p, Returns (if p =? 0 then 4711 else p))
    (λ r, if decide (r = 1%nat) then Some 8000 else Some 10) (λ _, Some 6000).
Definition configured : server :=
  run_calls slow_peer [CBind (mkBind "" true true 1024)] (make 2 0 0).
Definition up : server := (start slow_peer 0 configured).2.

Lemma stop_bounded_witness :
  ∃ s', stop slow_peer up = (Returns tt, s') ∧ trace s' = trace up ++ stop_trace slow_peer up ∧
    0 ≤ now s' ≤ 10000 ∧ ForceAll 1 ∈ trace s'.
Proof.
  destruct (stop_bounded slow_peer up) as (s' & Hs & Ht & Hn & _).
  - vm_compute. reflexivity.
  - vm_compute. discriminate.
  - exists s'. split_and!; [exact Hs|exact Ht|apply Hn|apply Hn|].
    rewrite Ht. apply elem_of_app. right. vm_compute. do 9 right. left.
Defined.

Lemma phases_any_order_witness :
  trace (run_calls slow_peer [CDestroyRoots; CStop; CClose] up) =
  trace up ++ stop_trace slow_peer up ++
    [CloseScheduler 0; CloseScheduler 1; DestroyRoots 0; DestroyRoots 1;
     CloseScheduler 0; CloseScheduler 1]%nat.
Proof.
  apply (phases_any_order slow_peer CDestroyRoots [CStop; CClose] up).
  - vm_compute. reflexivity.
  - reflexivity.
Defined.

Lemma start_one_port_witness :
  accepts_ up ≠ [] ∧ (0 ≠ 0 → port_ up = 0) ∧
  ∀ i p', (i, p') ∈ accepts_ up → listens slow_peer i p' = Returns (port_ up).
Proof.
  apply (start_one_port slow_peer 0 configured up).
  - intros i p q. simpl. destruct (Z.eqb_spec p 0) as [->|Hp]; intros [= <-]; split; done.
  - reflexivity.
  - vm_compute. lia.
  - vm_compute. reflexivity.
Defined.

(** The second reactor's thread cannot be started. *)
Definition no_thread : env :=
  mkEnv (λ r, if decide (r = 1%nat) then Some (system_error (ErrorCode 11 system_category)) else None)
    (λ _, None) (λ _ p, Returns p) (λ _, Some 0) (λ _, Some 0).
Definition failed_start : server := (start no_thread 80 (make 2 0 0)).2.

Lemma start_failure_witness :
  stopped_ failed_start = true ∧ threads_ failed_start = [] ∧ Join 0 ∈ trace failed_start ∧
  ∀ r, claims r (trace failed_start) = 0.
Proof.
  destruct (start_failure no_thread 80 (make 2 0 0)
    (system_error (ErrorCode 11 system_category)) failed_start) as [[_ [[=] _]]|(_ & Hs & Ht & _ & _ & Hc)].
  - vm_compute. reflexivity.
  - split_and!; [exact Hs|exact Ht|vm_compute; do 16 right; left|].
    apply Hc. intros r. reflexivity.
Defined.

End Server.
