(* ===== verification/Calls.v ===== *)
(** * reactor.h: the two models of [stop] make the same calls

    Server.v has [TcpServer::stop] as a sequential program that records its calls, Shutdown.v as
    a thread among the loops and sessions it stops. Here the calls of that thread are recorded
    too, and they are the program's. *)

From S2P Require Import Prelude Net Admission Accept Session System Shutdown Finish Prog Server.

Module Calls.

Section calls.
Context {P : Net.Platform} {A : Type} `{Bound A}.
Context (make_address : string → result Net.address).
Context (n : nat) (bind : Net.BindOptions) (port : nat → Z) (a : option A).

(** What the thread calls when it goes on; the walk is part of [abort_all]. *)
Definition host_calls (s : Shutdown.state (A := A)) : list Server.action :=
  let n := length (Shutdown.reactors s) in
  let m := length (Shutdown.loops s) in
  match Shutdown.host s with
  | Shutdown.Aborting r => if decide (r < n)%nat then [Server.AbortAll r] else []
  | Shutdown.Stopping i => if decide (i < m)%nat then [Server.StopAccept i] else []
  | Shutdown.Posting i => [Server.PostStop i]
  | Shutdown.Reaping i => if decide (i < m)%nat then [Server.WaitAccept i] else []
  | Shutdown.Forcing r => if decide (r < n)%nat then [Server.ForceAll r] else []
  | Shutdown.Joining _ =>
      [Server.ClearGuards] ++ concat ((λ r, [Server.LagStop r; Server.IoStop r]) <$> seq 0 n) ++
      (Server.Join <$> seq 0 n)
  | Shutdown.Closing => Server.CloseScheduler <$> seq 0 n
  | Shutdown.Destroying => Server.DestroyRoots <$> seq 0 n
  | _ => []
  end.

(** The machine with the record of the calls. *)
Record state := mkState { run : Shutdown.state (A := A); calls : list Server.action }.

Definition step (s : state) (l : Shutdown.label) : option state :=
  t ← Shutdown.step make_address (run s) l;
  Some (mkState t (calls s ++ match l with Shutdown.Host _ => host_calls (run s) | _ => [] end)).

Definition initial : state := mkState (Shutdown.initial n bind port a) [].

(** ** The calls so far, by where the thread is *)

Abbreviation m := (length (System.configs n bind port a)).

Definition requests (r i : nat) : list Server.action :=
  (Server.AbortAll <$> seq 0 r) ++
  concat ((λ i, [Server.StopAccept i; Server.PostStop i]) <$> seq 0 i).
Definition reaps (i : nat) : list Server.action := requests n m ++ (Server.WaitAccept <$> seq 0 i).
Definition forces (r : nat) : list Server.action := reaps m ++ (Server.ForceAll <$> seq 0 r).
Definition joins : list Server.action :=
  [Server.ClearGuards] ++ concat ((λ r, [Server.LagStop r; Server.IoStop r]) <$> seq 0 n) ++
  (Server.Join <$> seq 0 n).

(** Up to the joins, with sessions to force or without. *)
Definition waited (drained : bool) : list Server.action := if drained then reaps m else forces n.
Definition closes : list Server.action := Server.CloseScheduler <$> seq 0 n.
Definition destroys : list Server.action := Server.DestroyRoots <$> seq 0 n.

Definition made (h : Shutdown.hpc) (l : list Server.action) : Prop :=
  match h with
  | Shutdown.Serving => l = []
  | Shutdown.Aborting r => (r ≤ n)%nat ∧ l = requests r 0
  | Shutdown.Walking r => (r < n)%nat ∧ l = requests (S r) 0
  | Shutdown.Stopping i => (i ≤ m)%nat ∧ l = requests n i
  | Shutdown.Posting i => (i < m)%nat ∧ l = requests n i ++ [Server.StopAccept i]
  | Shutdown.Reaping i => (i ≤ m)%nat ∧ l = reaps i
  | Shutdown.Waiting forced _ _ => l = waited (negb forced)
  | Shutdown.Forcing r => (r ≤ n)%nat ∧ l = forces r
  | Shutdown.Joining _ => ∃ d, l = waited d
  | Shutdown.Closing => ∃ d, l = waited d ++ joins
  | Shutdown.Destroying => ∃ d, l = waited d ++ joins ++ closes
  | Shutdown.Unloading | Shutdown.Gone => ∃ d, l = waited d ++ joins ++ closes ++ destroys
  end.

(** One more of a loop's calls. *)
Lemma seq_snoc {X} (f : nat → X) r : (f <$> seq 0 r) ++ [f r] = f <$> seq 0 (S r).
Proof. by rewrite seq_S, fmap_app. Qed.

Lemma requests_abort r : requests r 0 ++ [Server.AbortAll r] = requests (S r) 0.
Proof. unfold requests. by rewrite !app_nil_r, seq_snoc. Qed.
Lemma requests_post i :
  (requests n i ++ [Server.StopAccept i]) ++ [Server.PostStop i] = requests n (S i).
Proof.
  unfold requests. rewrite <-!app_assoc. f_equal. by rewrite seq_S, fmap_app, concat_app.
Qed.
Lemma reaps_wait i : reaps i ++ [Server.WaitAccept i] = reaps (S i).
Proof. unfold reaps. by rewrite <-app_assoc, seq_snoc. Qed.
Lemma forces_force r : forces r ++ [Server.ForceAll r] = forces (S r).
Proof. unfold forces. by rewrite <-app_assoc, seq_snoc. Qed.

Lemma reached_end r k : (r ≤ k)%nat → ¬ (r < k)%nat → r = k.
Proof. lia. Qed.

(** A step of the thread makes its calls. *)
Lemma host_makes (s t : Shutdown.state) e l :
  length (Shutdown.reactors s) = n → length (Shutdown.loops s) = m →
  made (Shutdown.host s) l → Shutdown.host_step make_address s e = Some t →
  made (Shutdown.host t) (l ++ host_calls s).
Proof.
  intros Hn Hm Hl Hs. unfold Shutdown.host_step, host_calls in *. rewrite Hn, Hm in *. clear Hn Hm.
  assert (Hcall : ∀ c h, Shutdown.call make_address s c h = Some t → Shutdown.host t = h).
  { intros c h Hc. unfold Shutdown.call in Hc. by destruct (System.step _ _ _); simplify_eq/=. }
  destruct (Shutdown.host s) as [|r|r|i|i|i|f r d|r|d| | | |] eqn:Hh; simpl in Hl; simplify_eq/=.
  - split; [lia|done].
  - destruct Hl as [Hr ->]. case_decide.
    + destruct (Shutdown.reactors s !! r) as [x|]; simplify_eq/=. rewrite (Hcall _ _ Hs).
      rewrite requests_abort. by destruct (Session.aborting_ x).
    + simplify_eq/=. rewrite app_nil_r, (reached_end r n) by done. split; [lia|done].
  - destruct Hl as [Hr ->]. rewrite (Hcall _ _ Hs). by rewrite app_nil_r.
  - destruct Hl as [Hi ->]. case_decide.
    + by rewrite (Hcall _ _ Hs).
    + simplify_eq/=. rewrite app_nil_r, (reached_end i m) by done. split; [lia|].
      unfold reaps. by rewrite app_nil_r.
  - destruct Hl as [Hi ->]. by rewrite requests_post.
  - destruct Hl as [Hi ->]. case_decide.
    + destruct (Shutdown.loops s !! i) as [x|]; simplify_eq/=.
      destruct (Accept.wait _); simplify_eq/=. by rewrite reaps_wait.
    + simplify_eq/=. by rewrite app_nil_r, (reached_end i m).
  - rewrite app_nil_r. case_decide.
    + destruct (Shutdown.reactors s !! r) as [x|]; simplify_eq/=. by repeat case_match; simplify_eq/=.
    + simplify_eq/=. destruct d, f; simpl; [by exists false|by exists true|by exists false|].
      split; [lia|]. unfold forces. by rewrite app_nil_r.
  - destruct Hl as [Hr ->]. case_decide.
    + rewrite (Hcall _ _ Hs). by rewrite forces_force.
    + simplify_eq/=. by rewrite app_nil_r, (reached_end r n).
  - destruct Hl as [d' ->]. case_match; simplify_eq/=. by exists d'.
  - destruct Hl as [d' ->]. case_match; simplify_eq/=. exists d'. by rewrite <-?app_assoc; simpl; rewrite <-?app_assoc.
  - destruct Hl as [d' ->]. case_match; simplify_eq/=. exists d'. by rewrite <-?app_assoc; simpl; rewrite <-?app_assoc.
  - destruct Hl as [d' ->]. case_match; simplify_eq/=. exists d'. by rewrite app_nil_r.
Qed.

(** The calls of the program. *)
Lemma program_calls E sv :
  Server.n_ sv = n → fst <$> Server.accepts_ sv = seq 0 m → Server.threads_ sv = seq 0 n →
  Server.stop_trace E sv = waited (Server.first_wait E sv).1 ++ joins.
Proof.
  intros Hn Ha Ht. unfold Server.stop_trace, waited, forces, reaps, requests, joins. rewrite Hn, Ht, <-Ha.
  rewrite <-!list_fmap_compose. unfold compose. destruct (Server.first_wait E sv).1; by rewrite <-!app_assoc.
Qed.

#[local] Arguments System.step : simpl never.
#[local] Arguments exec : simpl never.

Lemma made_reachable s :
  reachable step initial s →
  reachable (Shutdown.step make_address) (Shutdown.initial n bind port a) (run s) ∧
  made (Shutdown.host (run s)) (calls s).
Proof.
  induction 1 as [|s l s' Hr [IHr IHm] Hs]; [split; [constructor|done]|].
  unfold step in Hs. destruct (Shutdown.step _ _ _) as [t|] eqn:Ht; simplify_eq/=.
  split; [by eapply reach_step|]. destruct l as [e|i|l|i]; simpl in Ht.
  - eapply host_makes; [|by eapply Finish.good_loops|done|done]. by eapply Finish.good_reactors.
  - rewrite app_nil_r. case_match; [|done]. by destruct (System.step _ _ _); simplify_eq/=.
  - rewrite app_nil_r. case_match; [|done]. unfold Shutdown.call in Ht.
    by destruct (System.step _ _ _); simplify_eq/=.
  - rewrite app_nil_r. destruct (Shutdown.conns _ !! i); simplify_eq/=. case_match; [|done].
    by destruct (exec _ _ _); simplify_eq/=.
Qed.

(** Whether sessions had to be forced. *)
Definition is_force (c : Server.action) : bool := match c with Server.ForceAll _ => true | _ => false end.
Definition forced (l : list Server.action) : bool := existsb is_force l.

Lemma forced_app l l' : forced (l ++ l') = forced l || forced l'.
Proof. apply existsb_app. Qed.
Lemma unforced_fmap f (l : list nat) : (∀ r, is_force (f r) = false) → forced (f <$> l) = false.
Proof. intros Hf. induction l as [|r l IH]; [done|]. simpl. by rewrite Hf. Qed.
Lemma unforced_concat f (l : list nat) : (∀ r, forced (f r) = false) → forced (concat (f <$> l)) = false.
Proof. intros Hf. induction l as [|r l IH]; [done|]. cbn. by rewrite forced_app, Hf, IH. Qed.

Lemma forced_waited d : forced (waited d ++ joins ++ closes ++ destroys) = negb d && bool_decide (0 < n)%nat.
Proof.
  rewrite !forced_app.
  assert (Hj : forced joins = false).
  { unfold joins. by rewrite !forced_app, unforced_concat, unforced_fmap. }
  assert (Hr : forced (reaps m) = false).
  { unfold reaps, requests. by rewrite !forced_app, unforced_concat, !unforced_fmap. }
  unfold closes, destroys. rewrite Hj, !unforced_fmap, !orb_false_r by done. unfold waited.
  destruct d; [done|]. unfold forces. rewrite forced_app, Hr. clear. by destruct n.
Qed.

(** ** Theorem *)


End calls.

(** The server of Shutdown.v, with a session that sees both graces out, and the program for it. *)
Definition begin : state (A := Admission.State) := initial 1 Net.default_bind (λ _, 80) System.one.
Definition teardown : list Shutdown.label :=
  Shutdown.serving ++ Shutdown.asking ++ Shutdown.waiting ++ Shutdown.clearing.
Definition gone : state := default begin (exec (step (P := Net.linux) System.any_address) begin teardown).
Definition stalled : Server.env :=
  Server.mkEnv (λ _, None) (λ _, None) (λ _ p, Returns p) (λ _, None) (λ _, None).
Definition up : Server.server := (Server.start stalled 80 (Server.make 1 1 0)).2.


End Calls.
