(* ===== verification/Events.v ===== *)
(** * reactor_events.h: PeriodicTimer and Signal

    The timer's handlers run on the loop in the order they were posted; its controls are called
    from any thread at any time, so an expired wait can be overtaken by a re-arm or a stop. The
    signal's sends interleave with the loop at every atomic access. *)

From S2P Require Import Prelude Lag.
From Stdlib Require Import Floats.SpecFloat.

Module PeriodicTimer.
Import LagSnapshot.

(** ** The code *)

(** A [double] cut to an [int64_t]; [None] is out of its range. *)
Definition i64_of_double (x : spec_float) : option Z :=
  let in_range z := if (- 2 ^ 63 <=? z) && (z <? 2 ^ 63) then Some z else None in
  match x with
  | S754_zero _ => Some 0
  | S754_finite s m e =>
      let n := if 0 <=? e then Z.pos m * 2 ^ e else Z.pos m / 2 ^ (- e) in
      in_range (if s then - n else n)
  | _ => None
  end.

Definition billion : spec_float := double_of_u64 1000000000.

(** [State::to_ns]: the seconds times 1e9, cut to whole nanoseconds. *)
Definition to_ns (seconds : spec_float) : option Z := i64_of_double (double_mul seconds billion).

(** [r > 0.0]. *)
Definition positive (r : spec_float) : bool := SFltb (S754_zero false) r.

(** An outstanding [async_wait]: the generation it was armed with; whether it still waits, was
    cancelled or expired with its handler queued; when it was armed among the operations on the
    timer; and the delay. *)
Inductive status := Pending | Cancelled | Expired.
Record wait := mkWait { admitted : Z; wait_status : status; stamp : Z; delay : option Z }.

(** A posted control. *)
Inductive command := Arm (seconds : spec_float) | Again | Cancel.

(** [PeriodicTimer::State], the posted controls, and a count of the operations on the timer. *)
Record state := mkState {
  repeat_seconds : spec_float;
  generation : Z;
  waits : list wait;
  posted : list command;
  operations : Z;
  armed : bool;                    (* the last operation armed it, and it has not fired since *)
  fired : list Z }.                (* the stamps of the waits whose callback ran, newest first *)

(** [expires_after] and [cancel] cancel what still waits. *)
Definition cancel_wait (w : wait) : wait :=
  match wait_status w with
  | Pending => mkWait (admitted w) Cancelled (stamp w) (delay w)
  | _ => w
  end.

(** [State::cancel]. *)
Definition cancel (s : state) : state :=
  mkState (repeat_seconds s) (wrap64 (generation s + 1)) (cancel_wait <$> waits s) (posted s)
    (operations s + 1) false (fired s).

(** [State::arm]. *)
Definition arm (seconds : spec_float) (s : state) : state :=
  let g := wrap64 (generation s + 1) in
  mkState (repeat_seconds s) g
    ((cancel_wait <$> waits s) ++ [mkWait g Pending (operations s + 1) (to_ns seconds)])
    (posted s) (operations s + 1) true (fired s).

(** [again]'s handler. *)
Definition run_again (s : state) : state :=
  let r := repeat_seconds s in if positive r then arm r s else cancel s.

Definition run_command (c : command) (s : state) : state :=
  match c with Arm a => arm a s | Again => run_again s | Cancel => cancel s end.

(** The controls, from any thread or from the callback. *)
Inductive control :=
| Start (after repeat : spec_float) | CallAgain | CallStop | SetRepeat (repeat : spec_float).

Definition set_repeat (r : spec_float) (s : state) : state :=
  mkState r (generation s) (waits s) (posted s) (operations s) (armed s) (fired s).
Definition post (c : command) (s : state) : state :=
  mkState (repeat_seconds s) (generation s) (waits s) (posted s ++ [c]) (operations s) (armed s)
    (fired s).

Definition call (s : state) (c : control) : state :=
  match c with
  | Start after repeat => post (Arm after) (set_repeat repeat s)
  | CallAgain => post Again s
  | CallStop => post Cancel s
  | SetRepeat r => set_repeat r s
  end.

(** The completion handler of a wait, [error] when it was cancelled; [calls] are the controls
    the callback uses, whether or not it then throws. *)
Definition complete (w : wait) (calls : list control) (s : state) : state :=
  let error := match wait_status w with Cancelled => true | _ => false end in
  if error || negb (admitted w =? generation s) then s
  else
    let s := mkState (repeat_seconds s) (generation s) (waits s) (posted s) (operations s) false
               (stamp w :: fired s) in
    let s := foldl call s calls in
    let r := repeat_seconds s in
    if positive r && (admitted w =? generation s) then arm r s else s.

Inductive label :=
| Control (c : control)
| RunPosted                          (* the loop runs the oldest posted control *)
| Expire (i : nat)                   (* the wait's time comes *)
| Complete (i : nat) (calls : list control).   (* its handler runs *)

Definition set_waits (ws : list wait) (s : state) : state :=
  mkState (repeat_seconds s) (generation s) ws (posted s) (operations s) (armed s) (fired s).
Definition set_posted (p : list command) (s : state) : state :=
  mkState (repeat_seconds s) (generation s) (waits s) p (operations s) (armed s) (fired s).

Definition step (s : state) (l : label) : option state :=
  match l with
  | Control c => Some (call s c)
  | RunPosted =>
      match posted s with
      | [] => None
      | c :: p => Some (run_command c (set_posted p s))
      end
  | Expire i =>
      w ← waits s !! i;
      match wait_status w with
      | Pending => Some (set_waits (<[i := mkWait (admitted w) Expired (stamp w) (delay w)]> (waits s)) s)
      | _ => None
      end
  | Complete i calls =>
      w ← waits s !! i;
      match wait_status w with
      | Pending => None
      | _ => Some (complete w calls (set_waits (delete i (waits s)) s))
      end
  end.

Definition initial : state := mkState (S754_zero false) 0 [] [] 0 false [].

(** ** The invariant *)

(** The generation counts the operations; a wait carries the one that armed it; only the wait
    of the last operation is live, and it is there as long as the timer is armed. *)
Record timer_inv (s : state) : Prop := {
  ti_generation : 0 ≤ operations s ∧ generation s = operations s;
  ti_waits : ∀ w, w ∈ waits s → 1 ≤ stamp w ≤ operations s ∧ admitted w = stamp w;
  ti_stale : ∀ w, w ∈ waits s → wait_status w = Pending → stamp w = operations s;
  ti_live : ∀ w, w ∈ waits s → stamp w = operations s → wait_status w ≠ Cancelled ∧ armed s = true;
  ti_stamps : NoDup (stamp <$> waits s);
  ti_armed : armed s = true → ∃ w, w ∈ waits s ∧ stamp w = operations s;
  ti_fired : NoDup (fired s) ∧ ∀ k, k ∈ fired s → 1 ≤ k ≤ operations s ∧
    (k = operations s → armed s = false) ∧ k ∉ stamp <$> waits s }.

Lemma cancel_wait_spec w :
  stamp (cancel_wait w) = stamp w ∧ admitted (cancel_wait w) = admitted w ∧
  wait_status (cancel_wait w) ≠ Pending.
Proof. unfold cancel_wait. by destruct (wait_status w) eqn:Hw; rewrite ?Hw. Qed.

Lemma cancel_stamps (ws : list wait) : stamp <$> (cancel_wait <$> ws) = stamp <$> ws.
Proof.
  rewrite <-list_fmap_compose. apply list_fmap_ext. intros i w _. apply cancel_wait_spec.
Qed.

(** The operations: what was there becomes stale. *)
Lemma cancelled_waits s w :
  timer_inv s → w ∈ cancel_wait <$> waits s →
  1 ≤ stamp w ≤ operations s ∧ admitted w = stamp w ∧ wait_status w ≠ Pending.
Proof.
  intros Hi (v & -> & Hv)%list_elem_of_fmap. destruct (cancel_wait_spec v) as (-> & -> & Hp).
  by destruct (ti_waits s Hi v Hv).
Qed.

Lemma cancel_inv s : timer_inv s → operations (cancel s) < 2 ^ 64 → timer_inv (cancel s).
Proof.
  intros Hi Hr. simpl in Hr. destruct (ti_generation s Hi) as [H0 Hg]. split; simpl; try done.
  - rewrite Hg, wrap64_small by lia. lia.
  - intros w Hw. destruct (cancelled_waits s w Hi Hw) as (? & ? & _). lia.
  - intros w Hw Hp. by destruct (cancelled_waits s w Hi Hw) as (_ & _ & []).
  - intros w Hw Hst. destruct (cancelled_waits s w Hi Hw) as (? & _). lia.
  - rewrite cancel_stamps. apply Hi.
  - destruct (ti_fired s Hi) as [Hnd Hf]. split; [done|]. intros k Hk. rewrite cancel_stamps.
    destruct (Hf k Hk) as (? & _ & ?). split_and!; [lia|lia|done|done].
Qed.

Lemma timer_arm_inv s a : timer_inv s → operations (arm a s) < 2 ^ 64 → timer_inv (arm a s).
Proof.
  intros Hi Hr. simpl in Hr. destruct (ti_generation s Hi) as [H0 Hg].
  assert (Hw64 : wrap64 (generation s + 1) = operations s + 1) by (rewrite Hg, wrap64_small; lia).
  split; simpl; rewrite ?Hw64; try done.
  - lia.
  - intros w [Hw| ->%list_elem_of_singleton]%elem_of_app; simpl; [|lia].
    destruct (cancelled_waits s w Hi Hw) as (? & ? & _). lia.
  - intros w [Hw| ->%list_elem_of_singleton]%elem_of_app Hp; simpl; [|done].
    by destruct (cancelled_waits s w Hi Hw) as (_ & _ & []).
  - intros w [Hw| ->%list_elem_of_singleton]%elem_of_app Hst; simpl; [|done].
    destruct (cancelled_waits s w Hi Hw) as (? & _). lia.
  - rewrite fmap_app, cancel_stamps. apply NoDup_app. split_and!; [apply Hi| |apply NoDup_singleton].
    intros k (w & -> & Hw)%list_elem_of_fmap Hk. apply list_elem_of_singleton in Hk; simpl in Hk.
    destruct (ti_waits s Hi w Hw). lia.
  - intros _. eexists. split; [apply elem_of_app; right; left|done].
  - destruct (ti_fired s Hi) as [Hnd Hf]. split; [done|]. intros k Hk. rewrite fmap_app, cancel_stamps.
    destruct (Hf k Hk) as (? & _ & ?). split_and!; [lia|lia|lia|].
    apply not_elem_of_app. split; [done|]. simpl. rewrite list_elem_of_singleton. lia.
Qed.

(** The controls only post. *)
Definition same_timer (s s' : state) : Prop :=
  generation s' = generation s ∧ waits s' = waits s ∧ operations s' = operations s ∧
  armed s' = armed s ∧ fired s' = fired s.

Lemma same_timer_inv s s' : same_timer s s' → timer_inv s → timer_inv s'.
Proof. intros (H1 & H2 & H3 & H4 & H5) []. split; rewrite ?H1, ?H2, ?H3, ?H4, ?H5; done. Qed.

Lemma call_same s c : same_timer s (call s c).
Proof. by destruct c. Qed.

Lemma calls_same s calls : same_timer s (foldl call s calls).
Proof.
  revert s. induction calls as [|c calls IH]; intros s; simpl; [done|].
  destruct (call_same s c) as (H1 & H2 & H3 & H4 & H5).
  destruct (IH (call s c)) as (K1 & K2 & K3 & K4 & K5). unfold same_timer. split_and!; congruence.
Qed.

(** Taking a wait out. *)
Lemma elem_delete {A} (l : list A) (i : nat) x : x ∈ delete i l → x ∈ l.
Proof.
  intros [j Hj]%list_elem_of_lookup_1. rewrite list_lookup_delete in Hj.
  case_match; by eapply list_elem_of_lookup_2.
Qed.

Lemma NoDup_delete {A} (l : list A) (i : nat) : NoDup l → NoDup (delete i l).
Proof. intros Hl. eapply sublist_NoDup; [done|]. apply sublist_delete. Qed.

Lemma fmap_delete {A B} (f : A → B) (l : list A) (i : nat) :
  f <$> delete i l = delete i (f <$> l).
Proof. revert i. induction l as [|x l IH]; intros [|i]; simpl; try done. f_equal. apply IH. Qed.

Lemma deleted_other (l : list wait) (i : nat) w v :
  NoDup (stamp <$> l) → l !! i = Some w → v ∈ delete i l → stamp v ≠ stamp w.
Proof.
  intros Hnd Hi [j Hj]%list_elem_of_lookup_1 Heq.
  assert (∃ k, k ≠ i ∧ l !! k = Some v) as (k & Hk & Hv).
  { rewrite list_lookup_delete in Hj. case_match; [exists j|exists (S j)]; split; (lia || done). }
  apply Hk. apply (NoDup_lookup (stamp <$> l) k i (stamp w) Hnd).
  - by rewrite list_lookup_fmap, Hv; simpl; rewrite Heq.
  - by rewrite list_lookup_fmap, Hi.
Qed.

(** A stale handler runs: its wait goes. *)
Lemma stale_inv s i w :
  timer_inv s → waits s !! i = Some w → stamp w ≠ operations s →
  timer_inv (set_waits (delete i (waits s)) s).
Proof.
  intros Hi Hw Hne. destruct Hi as [H1 H2 H3 H4 H5 H6 [H7 H8]]. split; simpl; try done.
  - intros v Hv%elem_delete. by apply H2.
  - intros v Hv%elem_delete. by apply H3.
  - intros v Hv%elem_delete. by apply H4.
  - rewrite fmap_delete. by apply NoDup_delete.
  - intros Ha. destruct (H6 Ha) as (v & Hv & Hst). exists v. split; [|done].
    apply list_elem_of_lookup_1 in Hv as [j Hj]. assert (j ≠ i) by (intros ->; congruence).
    apply list_elem_of_lookup_2 with (if decide (j < i)%nat then j else pred j).
    rewrite list_lookup_delete. repeat case_decide; try done; try lia.
    destruct j as [|j]; [lia|]. done.
  - split; [done|]. intros k Hk. destruct (H8 k Hk) as (? & ? & Hn). split_and!; [lia|lia|done|].
    intros Hin. apply Hn. rewrite fmap_delete in Hin. by apply elem_delete in Hin.
Qed.

(** The live one fires. *)
Definition fire (w : wait) (s : state) : state :=
  mkState (repeat_seconds s) (generation s) (waits s) (posted s) (operations s) false
    (stamp w :: fired s).

Lemma fire_inv s i w :
  timer_inv s → waits s !! i = Some w → stamp w = operations s → armed s = true →
  timer_inv (fire w (set_waits (delete i (waits s)) s)).
Proof.
  intros Hi Hw Heq Ha. pose proof (deleted_other (waits s) i w) as Hother.
  destruct Hi as [H1 H2 H3 H4 H5 H6 [H7 H8]]. split; simpl; try done.
  - intros v Hv%elem_delete. by apply H2.
  - intros v Hv%elem_delete. by apply H3.
  - intros v Hv Hst. exfalso. apply (Hother v H5 Hw Hv). congruence.
  - rewrite fmap_delete. by apply NoDup_delete.
  - assert (Hw' : w ∈ waits s) by by eapply list_elem_of_lookup_2. split.
    + apply NoDup_cons. split; [|done]. intros Hin. destruct (H8 _ Hin) as (_ & Hf & _).
      rewrite Hf in Ha; done.
    + intros k [->|Hk]%elem_of_cons.
      * destruct (H2 w Hw'). split_and!; [lia|lia|done|].
        intros (v & Hv1 & Hv2)%list_elem_of_fmap. by apply (Hother v H5 Hw Hv2).
      * destruct (H8 k Hk) as (? & ? & Hn). split_and!; [lia|lia|done|].
        intros Hin. apply Hn. rewrite fmap_delete in Hin. by apply elem_delete in Hin.
Qed.

(** Which handlers fire, and what they leave. *)
Lemma complete_cases s i w calls :
  timer_inv s → waits s !! i = Some w → wait_status w ≠ Pending →
  complete w calls (set_waits (delete i (waits s)) s) =
  if decide (stamp w = operations s) then
    let t := foldl call (fire w (set_waits (delete i (waits s)) s)) calls in
    if positive (repeat_seconds t) then arm (repeat_seconds t) t else t
  else set_waits (delete i (waits s)) s.
Proof.
  intros Hi Hw Hnp. assert (Hin : w ∈ waits s) by by eapply list_elem_of_lookup_2.
  destruct (ti_waits s Hi w Hin) as [Hb Had]. destruct (ti_generation s Hi) as [_ Hg].
  set (d := set_waits (delete i (waits s)) s).
  assert (Hgd : generation d = operations s) by exact Hg. unfold complete.
  change (mkState _ _ _ _ _ _ _) with (fire w d).
  destruct (calls_same (fire w d) calls) as (Hgen & _). rewrite Hgen, Had.
  change (generation (fire w d)) with (generation d). rewrite Hgd. case_decide as Hd.
  - destruct (ti_live s Hi w Hin Hd) as [Hnc _]. rewrite Hd, Z.eqb_refl, andb_true_r.
    by destruct (wait_status w).
  - rewrite (proj2 (Z.eqb_neq _ _) Hd). by rewrite orb_true_r.
Qed.

Lemma step_operations s l s' : step s l = Some s' → operations s ≤ operations s'.
Proof.
  intros Hs. destruct l as [c| |i|i calls]; simpl in Hs.
  - injection Hs as <-. destruct (call_same s c) as (_ & _ & -> & _). done.
  - destruct (posted s) as [|[a| |] p]; simplify_eq/=; try lia.
    unfold run_again. case_match; simpl; lia.
  - destruct (waits s !! i) as [w|]; simplify_eq/=. case_match; simplify_eq/=. done.
  - destruct (waits s !! i) as [w|]; simplify_eq/=.
    assert (Hc : operations s ≤ operations (complete w calls (set_waits (delete i (waits s)) s))).
    { unfold complete. destruct (_ || _)%bool; [done|].
      match goal with |- context [foldl call ?t calls] =>
        destruct (calls_same t calls) as (_ & _ & Ho & _) end.
      destruct (_ && _)%bool; simpl in *; lia. }
    by case_match; simplify_eq/=.
Qed.

Lemma expire_inv s i w :
  timer_inv s → waits s !! i = Some w → wait_status w = Pending →
  timer_inv (set_waits (<[i := mkWait (admitted w) Expired (stamp w) (delay w)]> (waits s)) s).
Proof.
  intros Hi Hw Hp. assert (Hin : w ∈ waits s) by by eapply list_elem_of_lookup_2.
  assert (Hst : stamp <$> <[i := mkWait (admitted w) Expired (stamp w) (delay w)]> (waits s) =
    stamp <$> waits s).
  { rewrite list_fmap_insert; simpl. apply list_insert_id. by rewrite list_lookup_fmap, Hw. }
  destruct Hi as [H1 H2 H3 H4 H5 H6 H7]. split; simpl; rewrite ?Hst; try done.
  - intros v [->|Hv]%elem_insert; [apply (H2 w Hin)|by apply H2].
  - intros v [->|Hv]%elem_insert; [done|by apply H3].
  - intros v [->|Hv]%elem_insert; [|by apply H4]. simpl. intros Heq.
    by destruct (H4 w Hin Heq).
  - intros Ha. exists (mkWait (admitted w) Expired (stamp w) (delay w)). split.
    + apply list_elem_of_lookup_2 with i. apply list_lookup_insert_eq. by eapply lookup_lt_Some.
    + exact (H3 w Hin Hp).
Qed.

Lemma timer_inv_step s l s' :
  timer_inv s → operations s' < 2 ^ 64 → step s l = Some s' → timer_inv s'.
Proof.
  intros Hi Hr Hs. destruct l as [c| |i|i calls]; simpl in Hs.
  - injection Hs as <-. apply (same_timer_inv s); [apply call_same|done].
  - destruct (posted s) as [|c p]; simplify_eq/=.
    assert (Hi' : timer_inv (set_posted p s)) by (by apply (same_timer_inv s)).
    destruct c as [a| |]; simpl in *.
    + by apply timer_arm_inv.
    + unfold run_again in *. destruct (positive _); [by apply timer_arm_inv|by apply cancel_inv].
    + by apply cancel_inv.
  - destruct (waits s !! i) as [w|] eqn:Hw; simplify_eq/=.
    destruct (wait_status w) eqn:Hst; simplify_eq/=. by apply expire_inv.
  - destruct (waits s !! i) as [w|] eqn:Hw; simplify_eq/=.
    assert (Hnp : wait_status w ≠ Pending) by (by destruct (wait_status w)).
    assert (s' = complete w calls (set_waits (delete i (waits s)) s)) as ->
      by (by destruct (wait_status w); simplify_eq/=).
    rewrite (complete_cases s i w calls Hi Hw Hnp) in *. case_decide as Hd; [|by apply (stale_inv s i w)].
    assert (Hin : w ∈ waits s) by by eapply list_elem_of_lookup_2.
    destruct (ti_live s Hi w Hin Hd) as [_ Ha].
    assert (Ht : timer_inv (foldl call (fire w (set_waits (delete i (waits s)) s)) calls)).
    { eapply same_timer_inv; [apply calls_same|]. by apply fire_inv. }
    cbv zeta in *. destruct (positive _); [by apply timer_arm_inv|done].
Qed.

Lemma timer_reachable s : reachable step initial s → operations s < 2 ^ 64 → timer_inv s.
Proof.
  induction 1 as [|s l s' _ IH Hs]; intros Hr.
  - split; simpl; try done; try (by intros w Hw%elem_of_nil); [apply NoDup_nil_2|].
    split; [apply NoDup_nil_2|]. by intros k Hk%elem_of_nil.
  - apply (timer_inv_step s l); [|done|done]. apply IH. pose proof (step_operations s l s' Hs). lia.
Qed.

(** ** Theorems *)

(** C22: a wait's handler calls back exactly when arming that wait was the last thing done to
    the timer, so a wait that expired but was overtaken by a stop or a re-arm, its handler
    already queued, does not; no wait calls back twice. After the callback, whether or not it
    threw, a repeating timer is armed again for the repeat it then has, and a one-shot one is
    not. *)
Theorem timer_fires_latest s i w calls s' :
  reachable step initial s → operations s < 2 ^ 64 → operations s' < 2 ^ 64 →
  waits s !! i = Some w → step s (Complete i calls) = Some s' →
  NoDup (fired s') ∧
  if decide (stamp w = operations s) then
    armed s = true ∧ fired s' = stamp w :: fired s ∧
    let r := repeat_seconds s' in
    if positive r
    then armed s' = true ∧ ∃ g, last (waits s') = Some (mkWait g Pending (operations s') (to_ns r))
    else armed s' = false
  else fired s' = fired s ∧ armed s' = armed s ∧ operations s' = operations s.
Proof.
  intros Hr Ho Ho' Hw Hs. pose proof (timer_reachable s Hr Ho) as Hi.
  pose proof (timer_inv_step s _ s' Hi Ho' Hs) as Hi'. split; [apply Hi'|]. clear Hi' Ho'.
  simpl in Hs. rewrite Hw in Hs; simpl in Hs.
  assert (Hnp : wait_status w ≠ Pending) by (by destruct (wait_status w)).
  assert (s' = complete w calls (set_waits (delete i (waits s)) s)) as ->
    by (by destruct (wait_status w); simplify_eq/=). clear Hs.
  rewrite (complete_cases s i w calls Hi Hw Hnp). case_decide as Hd; [|done]. cbv zeta.
  assert (Hin : w ∈ waits s) by by eapply list_elem_of_lookup_2.
  destruct (ti_live s Hi w Hin Hd) as [_ Ha]. split; [done|].
  set (t := foldl call _ calls). assert (Ht : fired t = stamp w :: fired s ∧ armed t = false).
  { unfold t.
    by destruct (calls_same (fire w (set_waits (delete i (waits s)) s)) calls) as (_ & _ & _ & -> & ->). }
  destruct Ht as [Hf Hat]. destruct (positive (repeat_seconds t)) eqn:Hp; simpl; rewrite Hp, Hf.
  - split_and!; try done. eexists. by rewrite last_snoc.
  - done.
Qed.

(** A repeating timer of 2 s, its first wait expired. *)
Definition two_seconds : spec_float := S754_finite false 4503599627370496 (-51).
Definition ticking : list label :=
  [Control (Start two_seconds two_seconds); RunPosted; Expire 0]%nat.
Definition ticked : state := default initial (exec step initial ticking).

Lemma timer_fires_latest_witness :
  ∃ s', step ticked (Complete 0 [CallStop]) = Some s' ∧ fired s' = [1] ∧ armed s' = true.
Proof.
  eexists. split; [vm_compute; reflexivity|].
  match goal with |- fired ?t = _ ∧ _ =>
    destruct (timer_fires_latest ticked 0 (mkWait 1 Expired 1 (Some 2000000000)) [CallStop] t)
      as [_ H] end.
  - apply (exec_reachable step initial ticking). vm_compute. reflexivity.
  - vm_compute. reflexivity.
  - vm_compute. reflexivity.
  - vm_compute. reflexivity.
  - vm_compute. reflexivity.
  - destruct H as (_ & Hf & Ha & _). split; [exact Hf|exact Ha].
Defined.

(** C23: an armed timer is not lost: exactly one wait is the live one, it still waits or its
    handler is queued, and it was not cancelled. *)
Theorem timer_not_lost s :
  reachable step initial s → operations s < 2 ^ 64 → armed s = true →
  ∃ i w, waits s !! i = Some w ∧ stamp w = operations s ∧
    (wait_status w = Pending ∨ wait_status w = Expired) ∧
    ∀ j v, waits s !! j = Some v → stamp v = operations s → j = i.
Proof.
  intros Hr Ho Ha. pose proof (timer_reachable s Hr Ho) as Hi.
  destruct (ti_armed s Hi Ha) as (w & Hin & Hst). destruct (ti_live s Hi w Hin Hst) as [Hnc _].
  apply list_elem_of_lookup_1 in Hin as [i Hw]. exists i, w. split_and!; try done.
  - destruct (wait_status w); auto. by destruct Hnc.
  - intros j v Hv Hsv. apply (NoDup_lookup (stamp <$> waits s) j i (operations s) (ti_stamps s Hi)).
    + by rewrite list_lookup_fmap, Hv; simpl; rewrite Hsv.
    + by rewrite list_lookup_fmap, Hw; simpl; rewrite Hst.
Qed.

Lemma timer_not_lost_witness :
  ∃ i w, waits ticked !! i = Some w ∧ stamp w = 1 ∧
    (wait_status w = Pending ∨ wait_status w = Expired) ∧
    ∀ j v, waits ticked !! j = Some v → stamp v = operations ticked → j = i.
Proof.
  apply (timer_not_lost ticked).
  - apply (exec_reachable step initial ticking). vm_compute. reflexivity.
  - vm_compute. reflexivity.
  - vm_compute. reflexivity.
Defined.

End PeriodicTimer.

Module Signal.

(** ** The code *)

(** Where a thread inside [send()] is: before the exchange, or past it with the post to do. *)
Inductive spc := Exchange | PostRun | Sent.

(** [Signal::State], the posted handlers, the sending threads and the loop. [owed] counts the
    sends since the callback last began to look at the world, [runs] the callbacks begun. *)
Record state := mkState {
  pending : bool;
  queue : nat;
  senders : list spc;
  in_callback : bool;              (* the handler is past its store *)
  sends : Z;
  owed : Z;
  runs : Z }.

Inductive label :=
| Send                             (* a thread calls [send()] *)
| Step (t : nat)
| Begin                            (* the loop runs a handler: [pending.store(false)] *)
| Callback.                        (* and its callback *)

Definition step (s : state) (l : label) : option state :=
  match l with
  | Send =>
      Some (mkState (pending s) (queue s) (senders s ++ [Exchange]) (in_callback s) (sends s)
              (owed s) (runs s))
  | Step t =>
      p ← senders s !! t;
      match p with
      | Exchange =>
          Some (mkState true (queue s)
                  (<[t := if pending s then Sent else PostRun]> (senders s)) (in_callback s)
                  (sends s + 1) (owed s + 1) (runs s))
      | PostRun =>
          Some (mkState (pending s) (S (queue s)) (<[t := Sent]> (senders s)) (in_callback s)
                  (sends s) (owed s) (runs s))
      | Sent => None
      end
  | Begin =>
      match queue s with
      | O => None
      | S q =>
          if in_callback s then None
          else Some (mkState false q (senders s) true (sends s) 0 (runs s + 1))
      end
  | Callback =>
      if in_callback s
      then Some (mkState (pending s) (queue s) (senders s) false (sends s) (owed s) (runs s))
      else None
  end.

Definition initial : state := mkState false 0 [] false 0 0 0.

(** ** The invariant *)

Definition posting (p : spc) : Z := match p with PostRun => 1 | _ => 0 end.

(** The runs scheduled and not begun: about to be posted, or posted. *)
Definition scheduled (s : state) : Z := Z.of_nat (queue s) + total posting (senders s).

Definition signal_inv (s : state) : Prop :=
  scheduled s = bit (pending s) ∧ 0 ≤ owed s ∧ (pending s = true ↔ 0 < owed s) ∧
  runs s + scheduled s ≤ sends s.

Lemma signal_inv_step s l s' : signal_inv s → step s l = Some s' → signal_inv s'.
Proof.
  unfold signal_inv, scheduled. intros (H1 & H2 & H3 & H4) Hs. destruct l as [|t| |]; simpl in Hs.
  - injection Hs as <-; simpl. rewrite total_snoc; simpl. rewrite Z.add_0_r. done.
  - destruct (senders s !! t) as [p|] eqn:Ht; simplify_eq/=.
    destruct p; simplify_eq/=; rewrite (total_insert posting _ _ _ _ Ht); simpl.
    + destruct (pending s); simpl in *; split_and!; try lia; (split; [lia|done]).
    + split_and!; try lia. done.
  - destruct (queue s) as [|q] eqn:Hq; [done|]. destruct (in_callback s); simplify_eq/=.
    assert (0 ≤ total posting (senders s)) by (apply total_nonneg; by intros []).
    destruct (pending s); simpl in *; split_and!; try lia.
  - destruct (in_callback s); simplify_eq/=. done.
Qed.

Lemma signal_reachable s : reachable step initial s → signal_inv s.
Proof.
  apply invariant_rule; [|apply signal_inv_step]. split_and!; try done.
Qed.

Lemma signal_scheduled s :
  reachable step initial s →
  0 ≤ scheduled s ≤ 1 ∧ runs s + scheduled s ≤ sends s ∧ (0 < owed s ↔ scheduled s = 1).
Proof.
  intros Hr. destruct (signal_reachable s Hr) as (H1 & H2 & H3 & H4). rewrite H1, <-H3.
  destruct (pending s); simpl; split_and!; try lia; try done; rewrite ?H1 in H4; simpl in H4; lia.
Qed.

(** The threads inside [send()] and the handlers can still take this many steps. *)
Definition work (s : state) : Z :=
  total (λ p, match p with Exchange => 5 | PostRun => 4 | Sent => 0 end) (senders s) +
  3 * Z.of_nat (queue s) + bit (in_callback s).

(** A step of a thread or of the loop, not a new call. *)
Definition internal (l : label) : bool := match l with Send => false | _ => true end.

Lemma work_step s l s' : internal l = true → step s l = Some s' → work s' < work s.
Proof.
  intros Hl Hs. unfold work. destruct l as [|t| |]; simpl in *; try done.
  - destruct (senders s !! t) as [p|] eqn:Ht; simplify_eq/=.
    destruct p; simplify_eq/=; rewrite (total_insert _ _ _ _ _ Ht); simpl; try lia.
    destruct (pending s); lia.
  - destruct (queue s) as [|q]; [done|]. destruct (in_callback s); simplify_eq/=. lia.
  - destruct (in_callback s); simplify_eq/=. lia.
Qed.

Lemma work_exec s ls s' :
  exec step s ls = Some s' → forallb internal ls = true →
  Z.of_nat (length ls) + work s' ≤ work s.
Proof.
  revert s. induction ls as [|l ls IH]; intros s He Hi; simpl in *; [simplify_eq; lia|].
  reflect_bools. destruct (step s l) as [t|] eqn:Hs; [|done]. simpl in He.
  pose proof (work_step s l t H Hs). pose proof (IH t He H0). lia.
Qed.

Lemma signal_drains s ls s' :
  reachable step initial s → exec step s ls = Some s' → forallb internal ls = true →
  Z.of_nat (length ls) ≤ work s ∧
  ((∀ l, internal l = true → step s' l = None) → owed s' = 0 ∧ pending s' = false).
Proof.
  intros Hr He Hi. split.
  - pose proof (work_exec s ls s' He Hi). enough (0 ≤ work s') by lia. unfold work.
    assert (0 ≤ total (λ p, match p with Exchange => 5 | PostRun => 4 | Sent => 0 end) (senders s'))
      by (apply total_nonneg; by intros []). pose proof (bit_nonneg (in_callback s')). lia.
  - intros Hst. assert (Hr' : reachable step initial s') by by eapply exec_reachable_from.
    destruct (signal_reachable s' Hr') as (H1 & H2 & H3 & _).
    assert (Hz : scheduled s' = 0).
    { unfold scheduled. rewrite (total_zero posting).
      - pose proof (Hst Begin eq_refl) as Hb. pose proof (Hst Callback eq_refl) as Hc. simpl in Hb, Hc.
        destruct (in_callback s'); [done|]. destruct (queue s'); [done|done].
      - intros p [t Ht]%list_elem_of_lookup_1. pose proof (Hst (Step t) eq_refl) as Hn. simpl in Hn.
        rewrite Ht in Hn; simpl in Hn. by destruct p. }
    destruct (pending s'); [simpl in H1; lia|]. split; [|done].
    destruct (decide (0 < owed s')) as [Ho|]; [|lia]. by apply H3 in Ho.
Qed.

Definition sending : state := default initial (exec step initial [Send]).
Definition served : state := default initial (exec step sending [Step 0; Step 0; Begin; Callback]%nat).

(** ** Theorem *)

(** C24: sends coalesce and none is lost: however senders and the loop interleave, at most one
    run is scheduled at a time and never more runs than sends happen; as long as a send has not
    been followed by the start of a run, exactly one run is scheduled and still to start, so
    its callback sees everything done before that send; and without new calls the threads and
    the loop take boundedly many steps, after which every send was followed by the start of a
    run. *)
Theorem signal_coalesces s :
  reachable step initial s →
  0 ≤ scheduled s ≤ 1 ∧ runs s + scheduled s ≤ sends s ∧ (0 < owed s ↔ scheduled s = 1) ∧
  ∀ ls s', exec step s ls = Some s' → forallb internal ls = true →
    Z.of_nat (length ls) ≤ work s ∧
    ((∀ l, internal l = true → step s' l = None) → owed s' = 0 ∧ pending s' = false).
Proof.
  intros Hr. destruct (signal_scheduled s Hr) as (H1 & H2 & H3). split_and!; try done; try lia.
  intros ls s'. by apply signal_drains.
Qed.

Lemma signal_coalesces_witness :
  4 ≤ work sending ∧ owed served = 0 ∧ pending served = false.
Proof.
  destruct (signal_coalesces sending) as (_ & _ & _ & Hd).
  - apply (exec_reachable step initial [Send]). vm_compute. reflexivity.
  - destruct (Hd [Step 0; Step 0; Begin; Callback]%nat served) as [Hw Ho].
    + vm_compute. reflexivity.
    + reflexivity.
    + split; [exact Hw|]. apply Ho. intros [|[|t]| |] Hl; try discriminate Hl; reflexivity.
Defined.

End Signal.
