(* ===== verification/Udp.v ===== *)
(** * reactor_udp.h: UdpServer

    Startup as a program that records the socket calls it makes, with the halving of the
    buffer sizes; the thread that drives the loop through throwing callbacks; the receive
    loop; and the teardown phases. *)

From S2P Require Import Prelude Prog Net.

Module Udp.
Import Net.

(** ** The code *)

Record UdpOptions := mkOptions {
  address_ : string;
  reuse_address_ : bool;
  reuse_port_ : bool;
  multicast_group : string;
  multicast_interface : string;
  multicast_loop : bool;
  multicast_ttl : Z;
  send_buffer : Z;
  recv_buffer : Z;
  max_datagram : Z }.
Definition default_options : UdpOptions := mkOptions "" true false "" "" false 0 0 0 1500.

Definition no_string (s : string) : bool := bool_decide (s = ""%string).

(** The calls on the socket, the scheduler, the loop and the thread. *)
Inductive call :=
| Open
| ReuseAddress | ReusePort | SendBuffer (size : Z) | RecvBuffer (size : Z)
| Loopback (on : bool) | Hops (ttl : Z) | OutboundInterface (a : Z)
| Bind (ep : endpoint) | JoinGroup (group : Z) (interface : option Z)
| Spawn | ClaimLoop | Thread | ReleaseLoop | IoStop
| AbortAll | Join | CloseScheduler | DestroyRoots.

(** What the system answers to a call, and asio's parsers. *)
Record env := mkEnv {
  fails : call → option exn;
  make_address : string → result address;
  make_address_v4 : string → result Z }.

Record server := mkServer {
  opts_ : UdpOptions;
  group_endpoint_ : endpoint;
  joinable : bool;                  (* [thread_.joinable()] *)
  trace : list call }.

Definition make : server := mkServer default_options (Endpoint (V4 0) 0) false [].

Definition set_options (o : UdpOptions) (s : server) : server :=
  mkServer o (group_endpoint_ s) (joinable s) (trace s).
Definition log (c : call) (s : server) : server :=
  mkServer (opts_ s) (group_endpoint_ s) (joinable s) (trace s ++ [c]).
Definition set_group (ep : endpoint) (s : server) : server :=
  mkServer (opts_ s) ep (joinable s) (trace s).
Definition set_joinable (b : bool) (s : server) : server :=
  mkServer (opts_ s) (group_endpoint_ s) b (trace s).

Definition act (c : call) : prog server unit := modify (log c).

(** The smallest size tried. *)
Definition smallest : Z := 262144.

(** The loop of [size_buffers] over halved sizes, for the option [mk]: the sizes tried, and
    whether one was accepted. [int] is what the size becomes on the way to [set_option]. *)
Fixpoint size_down (fuel : nat) (accepts : Z → bool) (size : Z) : list Z * bool :=
  match fuel with
  | O => ([], false)
  | S fuel =>
      if smallest <=? size then
        if accepts (wrap_i32 size) then ([size], true)
        else let r := size_down fuel accepts (size / 2) in (size :: r.1, r.2)
      else ([], false)
  end.

(** A [size_t] halves below the smallest size well before this many rounds. *)
Definition rounds : nat := 64.

Section start.
Context (E : env).

(** A call that throws on failure. *)
Definition must (c : call) : prog server unit :=
  _ ← act c; match fails E c with Some e => throw e | None => mret tt end.

(** Whether [set_option] takes the size without error. *)
Definition accepts (mk : Z → call) (size : Z) : bool := bool_decide (fails E (mk size) = None).

Definition size_buffer (mk : Z → call) (target : Z) : prog server unit :=
  if target =? 0 then mret tt
  else for_each ((size_down rounds (accepts mk) target).1) (λ size, act (mk (wrap_i32 size))).

Definition size_buffers : prog server unit :=
  s ← get;
  _ ← size_buffer SendBuffer (send_buffer (opts_ s));
  size_buffer RecvBuffer (recv_buffer (opts_ s)).

(** The multicast options, set before the bind. *)
Definition multicast_options (o : UdpOptions) : prog server unit :=
  _ ← must (Loopback (multicast_loop o));
  _ ← when (0 <? multicast_ttl o) (must (Hops (multicast_ttl o)));
  when (negb (no_string (multicast_interface o)))
    (a ← lift (make_address_v4 E (multicast_interface o)); must (OutboundInterface a)).

(** The join after it. *)
Definition multicast_join (o : UdpOptions) (port : Z) : prog server unit :=
  group ← lift (make_address_v4 E (multicast_group o));
  _ ← (if no_string (multicast_interface o)
       then must (JoinGroup group None)
       else a ← lift (make_address_v4 E (multicast_interface o)); must (JoinGroup group (Some a)));
  modify (set_group (Endpoint (V4 group) port)).

(** [start] up to the join. *)
Definition set_up (port : Z) : prog server unit :=
  s ← get;
  let o := opts_ s in
  bind_ep ← lift (bind_endpoint (make_address E) (address_ o) port);
  _ ← must Open;
  _ ← when (reuse_address_ o) (must ReuseAddress);
  _ ← when (reuse_port_ o) (must ReusePort);
  _ ← size_buffers;
  _ ← when (negb (no_string (multicast_group o))) (multicast_options o);
  _ ← must (Bind bind_ep);
  when (negb (no_string (multicast_group o))) (multicast_join o port).

Definition start (port : Z) : prog server unit :=
  _ ← set_up port;
  _ ← must Spawn;
  _ ← act ClaimLoop;
  match fails E Thread with
  | Some e => _ ← act ReleaseLoop; _ ← act IoStop; throw e
  | None => _ ← act Thread; modify (set_joinable true)
  end.
End start.

(** The phases. *)
Definition stop : prog server unit :=
  s ← get;
  if joinable s : bool then
    _ ← act AbortAll; _ ← act IoStop; _ ← act Join; modify (set_joinable false)
  else mret tt.

Definition close : prog server unit := _ ← stop; act CloseScheduler.
Definition destroy_roots : prog server unit := _ ← close; act DestroyRoots.

(** The phases an owner calls, in the order it calls them. *)
Inductive phase := PStop | PClose | PDestroyRoots.
Definition run_phase (p : phase) : prog server unit :=
  match p with PStop => stop | PClose => close | PDestroyRoots => destroy_roots end.
Definition run_phases (ps : list phase) : prog server unit := for_each ps run_phase.

(** Sending: [answer] is the socket's, a byte count or an error, which is dropped: asio
    returns 0 bytes with it. *)
Definition send_to (answer : list Byte.byte → endpoint → Z + error_code) (data : list Byte.byte)
    (dest : endpoint) : Z :=
  match answer data dest with inl n => n | inr _ => 0 end.
Definition send (answer : list Byte.byte → endpoint → Z + error_code) (data : list Byte.byte)
    (s : server) : Z :=
  send_to answer data (group_endpoint_ s).

(** [report_callback_exception]: what the consumer's [L_EXC] throws goes no further. [L_EXC] is
    a no-op unless a consumer defines it. *)
Definition report_callback_exception (L_EXC : result unit) : result unit :=
  match L_EXC with Throws _ => Returns tt | Returns x => Returns x end.
Definition default_L_EXC : result unit := Returns tt.

(** The thread: [run()] again after each exception until the loop is stopped. An exception that
    left its function would end the process. *)
Inductive tpc := TestStopped | InRun | Reporting | Releasing | Gone | Terminated.
#[export] Instance tpc_eq_dec : EqDecision tpc.
Proof. solve_decision. Defined.

Record thread := mkThread {
  tp : tpc;
  stopped : bool;                   (* [io().stopped()] *)
  thrown : Z;                       (* exceptions that left [run()] *)
  reported : Z;
  released : Z }.

Inductive tlabel :=
| TGo                               (* the thread runs on *)
| RunReturns (out_of_work : bool)   (* [run()] returns, which a stopped or idle loop does *)
| RunThrows
| Report (hook : result unit)       (* [L_EXC] answers *)
| Stop.                             (* another thread stops the loop *)

Definition thread_step (t : thread) (l : tlabel) : option thread :=
  match l, tp t with
  | Stop, _ => Some (mkThread (tp t) true (thrown t) (reported t) (released t))
  | TGo, TestStopped =>
      Some (mkThread (if stopped t then Releasing else InRun) (stopped t) (thrown t) (reported t)
              (released t))
  | RunReturns idle, InRun =>
      if stopped t || idle
      then Some (mkThread Releasing true (thrown t) (reported t) (released t)) else None
  | RunThrows, InRun => Some (mkThread Reporting (stopped t) (thrown t + 1) (reported t) (released t))
  | Report hook, Reporting =>
      Some (match report_callback_exception hook with
            | Returns _ => mkThread TestStopped (stopped t) (thrown t) (reported t + 1) (released t)
            | Throws _ => mkThread Terminated (stopped t) (thrown t) (reported t) (released t)
            end)
  | TGo, Releasing => Some (mkThread Gone (stopped t) (thrown t) (reported t) (released t + 1))
  | _, _ => None
  end.

Definition thread_initial : thread := mkThread TestStopped false 0 0 0.

(** The receive loop: the datagrams handed over, newest first, and the throws reported. *)
Record receiver := mkReceiver {
  receiving : bool;                 (* suspended on [async_receive_from] *)
  delivered : list (list Byte.byte * endpoint);
  reports : Z }.

(** [buf]'s size. *)
Definition buffer_size (o : UdpOptions) : Z := if max_datagram o =? 0 then 1500 else max_datagram o.

Inductive rlabel :=
| Received (data : list Byte.byte) (from : endpoint) (throws : option (result unit))
| ReceiveError.

(** A datagram longer than the buffer is cut to it; [handler] is whether there is one; when it
    throws, [L_EXC] is called and answers. *)
Definition receive_step (o : UdpOptions) (handler : bool) (r : receiver) (l : rlabel)
    : option receiver :=
  if receiving r then
    match l with
    | ReceiveError => Some (mkReceiver false (delivered r) (reports r))
    | Received data from throws =>
        let bytes := take (Z.to_nat (buffer_size o)) data in
        if bool_decide (bytes ≠ []) && handler
        then Some (match report_callback_exception <$> throws with
                   | None => mkReceiver true ((bytes, from) :: delivered r) (reports r)
                   | Some (Returns _) => mkReceiver true ((bytes, from) :: delivered r) (reports r + 1)
                   | Some (Throws _) => mkReceiver false ((bytes, from) :: delivered r) (reports r)
                   end)
        else Some r
    end
  else None.

Definition receive_initial : receiver := mkReceiver true [] 0.

(** ** Lemmas *)

Definition logs (l : list call) (s : server) : server :=
  mkServer (opts_ s) (group_endpoint_ s) (joinable s) (trace s ++ l).

Lemma calls_nil s : logs [] s = s.
Proof. unfold logs. rewrite app_nil_r. by destruct s. Qed.
Lemma calls_app l l' s : logs l' (logs l s) = logs (l ++ l') s.
Proof. unfold logs; simpl. by rewrite app_assoc. Qed.

Lemma calls_for_each {A} (f : A → call) l s :
  for_each l (λ x, act (f x)) s = (Returns tt, logs (f <$> l) s).
Proof.
  revert s. induction l as [|x l IH]; intros s; simpl; [by rewrite calls_nil|].
  rewrite (bind_returns (act (f x)) _ tt s (logs [f x] s) eq_refl), IH, calls_app. done.
Qed.

(** *** Sizes *)

Lemma size_down_spec fuel acc t l b :
  0 ≤ t → t < smallest * 2 ^ Z.of_nat fuel → size_down fuel acc t = (l, b) →
  l = (λ i, t / 2 ^ Z.of_nat i) <$> seq 0 (length l) ∧
  Forall (λ x, smallest ≤ x) l ∧
  (if b then ∃ pre x, l = pre ++ [x] ∧ acc (wrap_i32 x) = true ∧
               Forall (λ y, acc (wrap_i32 y) = false) pre
   else Forall (λ y, acc (wrap_i32 y) = false) l ∧ t / 2 ^ Z.of_nat (length l) < smallest).
Proof.
  revert t l b. induction fuel as [|fuel IH]; intros t l b H0 Ht Hs; simpl in Hs.
  { simplify_eq. simpl. split_and!; [done|constructor..|]. rewrite Z.div_1_r. simpl in Ht. lia. }
  destruct (smallest <=? t) eqn:Hle; reflect_bools.
  2:{ simplify_eq. simpl. split_and!; [done|constructor..|]. rewrite Z.div_1_r. lia. }
  destruct (acc (wrap_i32 t)) eqn:Ha.
  { simplify_eq. simpl. rewrite Z.div_1_r. split_and!; [done|by repeat constructor|].
    exists [], t. split_and!; [done|done|constructor]. }
  destruct (size_down fuel acc (t / 2)) as [l' b'] eqn:Hr; simpl in Hs. simplify_eq.
  destruct (IH (t / 2) l' b) as (Hl & Hall & Hb); [apply Z.div_pos; lia| |done|].
  { rewrite Nat2Z.inj_succ, Z.pow_succ_r in Ht by lia. apply Z.div_lt_upper_bound; lia. }
  assert (Hdiv : ∀ i : nat, t / 2 / 2 ^ Z.of_nat i = t / 2 ^ Z.of_nat (S i)).
  { intros i. rewrite Nat2Z.inj_succ, Z.pow_succ_r, Z.div_div by lia. done. }
  split_and!.
  - simpl. rewrite Z.div_1_r. f_equal. rewrite Hl at 1. rewrite <-fmap_S_seq, <-list_fmap_compose.
    apply list_fmap_ext. intros i x _. apply Hdiv.
  - by constructor.
  - destruct b.
    + destruct Hb as (pre & x & -> & Hx & Hpre). exists (t :: pre), x. split_and!; [done|done|].
      by constructor.
    + destruct Hb as [Hrej Hend]. split; [by constructor|]. simpl length. by rewrite <-Hdiv.
Qed.

Lemma size_down_small fuel acc t : t < smallest → size_down fuel acc t = ([], false).
Proof. intros Ht. destruct fuel; simpl; [done|]. by rewrite (proj2 (Z.leb_gt _ _) Ht). Qed.

Lemma size_down_accepted fuel acc t :
  smallest ≤ t → acc (wrap_i32 t) = true → size_down (S fuel) acc t = ([t], true).
Proof. intros Ht Ha. simpl. by rewrite (proj2 (Z.leb_le _ _) Ht), Ha. Qed.

(** *** Startup *)

(** The calls of a startup that succeeds. *)
Definition buffer_calls (E : env) (mk : Z → call) (target : Z) : list call :=
  if target =? 0 then []
  else (λ size, mk (wrap_i32 size)) <$> (size_down rounds (accepts E mk) target).1.

Definition opt_calls (b : bool) (l : list call) : list call := if b then l else [].

(** [group] and [interface] are the parsed addresses, when given. *)
Definition set_up_calls (E : env) (o : UdpOptions) (ep : endpoint) (group interface : option Z)
    : list call :=
  [Open] ++ opt_calls (reuse_address_ o) [ReuseAddress] ++ opt_calls (reuse_port_ o) [ReusePort] ++
  buffer_calls E SendBuffer (send_buffer o) ++ buffer_calls E RecvBuffer (recv_buffer o) ++
  match group with
  | None => [Bind ep]
  | Some g =>
      [Loopback (multicast_loop o)] ++ opt_calls (0 <? multicast_ttl o) [Hops (multicast_ttl o)] ++
      match interface with Some a => [OutboundInterface a] | None => [] end ++
      [Bind ep; JoinGroup g interface]
  end.

(** What the parsers said: an address is parsed exactly when it is given. *)
Definition parsed (E : env) (name : string) (a : option Z) : Prop :=
  match a with
  | Some v => no_string name = false ∧ make_address_v4 E name = Returns v
  | None => no_string name = true
  end.

Lemma must_inv E c s t : must E c s = (Returns tt, t) → t = logs [c] s ∧ fails E c = None.
Proof.
  unfold must. rewrite (bind_returns (act c) _ tt s (logs [c] s) eq_refl).
  destruct (fails E c); [done|]. by intros [= <-].
Qed.

Lemma when_must_inv E b c s t :
  when b (must E c) s = (Returns tt, t) → t = logs (opt_calls b [c]) s.
Proof.
  destruct b; simpl; [by intros [-> _]%must_inv|]. intros [= <-]. by rewrite calls_nil.
Qed.

Lemma size_buffer_eq E mk target s :
  size_buffer E mk target s = (Returns tt, logs (buffer_calls E mk target) s).
Proof.
  unfold size_buffer, buffer_calls. destruct (target =? 0); [by rewrite calls_nil|].
  apply calls_for_each.
Qed.

Lemma size_buffers_eq E s :
  size_buffers E s = (Returns tt,
    logs (buffer_calls E SendBuffer (send_buffer (opts_ s)) ++
          buffer_calls E RecvBuffer (recv_buffer (opts_ s))) s).
Proof.
  unfold size_buffers. rewrite (bind_returns get _ s s s eq_refl).
  rewrite (bind_returns _ _ _ _ _ (size_buffer_eq E SendBuffer _ s)), size_buffer_eq, calls_app.
  done.
Qed.

Lemma lift_inv {A} (r : result A) (s t : server) a :
  lift r s = (Returns a, t) → r = Returns a ∧ t = s.
Proof. unfold lift. by intros [= -> ->]. Qed.

Lemma multicast_options_inv E o s t :
  multicast_options E o s = (Returns tt, t) →
  ∃ i, parsed E (multicast_interface o) i ∧
    t = logs ([Loopback (multicast_loop o)] ++ opt_calls (0 <? multicast_ttl o) [Hops (multicast_ttl o)]
          ++ match i with Some a => [OutboundInterface a] | None => [] end) s.
Proof.
  unfold multicast_options. intros ([] & u & [-> _]%must_inv & Hs)%bind_inv.
  apply bind_inv in Hs as ([] & v & ->%when_must_inv & Hs). rewrite calls_app in Hs.
  unfold when in Hs. destruct (no_string (multicast_interface o)) eqn:Hn; simpl in Hs.
  - injection Hs as <-. exists None. split; [done|]. by rewrite app_nil_r.
  - apply bind_inv in Hs as (a & w & [Ha ->]%lift_inv & Hs). apply must_inv in Hs as [-> _].
    exists (Some a). split; [done|]. by rewrite calls_app; simpl; rewrite <-?app_assoc.
Qed.

Lemma multicast_join_inv E o port s t :
  multicast_join E o port s = (Returns tt, t) →
  ∃ g i, make_address_v4 E (multicast_group o) = Returns g ∧ parsed E (multicast_interface o) i ∧
    t = set_group (Endpoint (V4 g) port) (logs [JoinGroup g i] s).
Proof.
  unfold multicast_join. intros (g & u & [Hg ->]%lift_inv & Hs)%bind_inv.
  apply bind_inv in Hs as ([] & v & Hv & [= <-]). exists g.
  destruct (no_string (multicast_interface o)) eqn:Hn.
  - exists None. apply must_inv in Hv as [-> _]. done.
  - apply bind_inv in Hv as (a & w & [Ha ->]%lift_inv & Hv). apply must_inv in Hv as [-> _].
    exists (Some a). done.
Qed.

Lemma parsed_fun E name i j : parsed E name i → parsed E name j → i = j.
Proof. destruct i, j; simpl; intros H1 H2; destruct_and?; congruence. Qed.

Lemma set_up_inv E port s t :
  set_up E port s = (Returns tt, t) →
  ∃ ep g i, bind_endpoint (make_address E) (address_ (opts_ s)) port = Returns ep ∧
    parsed E (multicast_group (opts_ s)) g ∧
    (g ≠ None → parsed E (multicast_interface (opts_ s)) i) ∧
    trace t = trace s ++ set_up_calls E (opts_ s) ep g i ∧ joinable t = joinable s ∧
    group_endpoint_ t = match g with Some g => Endpoint (V4 g) port | None => group_endpoint_ s end.
Proof.
  unfold set_up. rewrite (bind_returns get _ s s s eq_refl). set (o := opts_ s).
  intros (ep & u & [Hep ->]%lift_inv & Hs)%bind_inv.
  apply bind_inv in Hs as ([] & u1 & [-> _]%must_inv & Hs).
  apply bind_inv in Hs as ([] & u2 & ->%when_must_inv & Hs).
  apply bind_inv in Hs as ([] & u3 & ->%when_must_inv & Hs).
  rewrite (bind_returns _ _ _ _ _ (size_buffers_eq E _)), !calls_app in Hs. unfold when in Hs.
  exists ep. destruct (no_string (multicast_group o)) eqn:Hn; simpl in Hs.
  - exists None, None. match type of Hs with (mret tt ≫= _) ?u = _ =>
      rewrite (bind_returns (mret tt) _ tt u u eq_refl) in Hs end.
    apply bind_inv in Hs as ([] & u4 & [-> _]%must_inv & [= <-]). rewrite calls_app.
    split_and!; try done. unfold set_up_calls; simpl. fold o. by rewrite <-?app_assoc; simpl; rewrite <-?app_assoc.
  - apply bind_inv in Hs as ([] & u4 & (i & Hi & ->)%multicast_options_inv & Hs).
    rewrite calls_app in Hs. apply bind_inv in Hs as ([] & u5 & [-> _]%must_inv & Hs).
    rewrite calls_app in Hs. apply multicast_join_inv in Hs as (g & j & Hg & Hj & ->).
    rewrite (parsed_fun E _ j i Hj Hi). exists (Some g), i. rewrite calls_app.
    split_and!; try done. unfold set_up_calls; simpl. fold o. by rewrite <-?app_assoc; simpl; rewrite <-?app_assoc.
Qed.

(** *** Failures *)

(** The claims on the loop, of threads that failed to start or were joined given back. *)
Definition claim_of (c : call) : Z :=
  match c with ClaimLoop => 1 | ReleaseLoop | Join => - 1 | _ => 0 end.
Definition claims (tr : list call) : Z := total claim_of tr.

(** Unstarted: no thread, and nothing claimed beyond [k]. *)
Definition unclaimed (k : Z) (s : server) : Prop := joinable s = false ∧ claims (trace s) = k.

Lemma udp_claims_app l l' : claims (l ++ l') = claims l + claims l'.
Proof. apply total_app. Qed.

Section unclaimed.
Context (E : env) (k : Z).

Lemma act_unclaimed c : claim_of c = 0 → keeps (unclaimed k) (act c).
Proof.
  intros Hc s [H1 H2]. split; [done|]; simpl. rewrite udp_claims_app, H2. unfold claims; simpl. lia.
Qed.

Lemma must_unclaimed c : claim_of c = 0 → keeps (unclaimed k) (must E c).
Proof.
  intros Hc. unfold must. apply keeps_bind; [by apply act_unclaimed|intros _].
  destruct (fails E c); auto with reactor.
Qed.

#[local] Hint Extern 2 (keeps (unclaimed _) (act _)) => (apply act_unclaimed; done) : reactor.
#[local] Hint Extern 2 (keeps (unclaimed _) (must _ _)) => (apply must_unclaimed; done) : reactor.

Lemma size_buffer_unclaimed mk t : (∀ z, claim_of (mk z) = 0) → keeps (unclaimed k) (size_buffer E mk t).
Proof.
  intros Hm. unfold size_buffer. destruct (t =? 0); [auto with reactor|].
  apply keeps_for_each. intros z. by apply act_unclaimed.
Qed.

Lemma set_up_unclaimed port : keeps (unclaimed k) (set_up E port).
Proof.
  unfold set_up. apply keeps_bind; [auto with reactor|intros s].
  assert (Hsize : keeps (unclaimed k) (size_buffers E)).
  { unfold size_buffers. apply keeps_bind; [auto with reactor|intros t].
    apply keeps_bind; [|intros _]; by apply size_buffer_unclaimed. }
  assert (Hopt : keeps (unclaimed k) (multicast_options E (opts_ s))).
  { unfold multicast_options. auto 10 with reactor. }
  assert (Hjoin : keeps (unclaimed k) (multicast_join E (opts_ s) port)).
  { unfold multicast_join. apply keeps_bind; [auto with reactor|intros g].
    apply keeps_bind; [destruct (no_string _); auto with reactor|intros _].
    apply keeps_modify. by intros t [H1 H2]. }
  repeat (apply keeps_bind; [auto with reactor|intros ?]). auto with reactor.
Qed.

Lemma spawned_unclaimed port :
  keeps (unclaimed k) (_ ← set_up E port; must E Spawn).
Proof. apply keeps_bind; [apply set_up_unclaimed|intros _]. auto with reactor. Qed.
End unclaimed.

(** *** Phases *)

Lemma stop_joinable s :
  joinable s = true → stop s = (Returns tt, set_joinable false (logs [AbortAll; IoStop; Join] s)).
Proof.
  intros Hj. unfold stop. rewrite (bind_returns get _ s s s eq_refl), Hj.
  unfold mbind, prog_bind, act, modify, log, logs, set_joinable; simpl. by rewrite <-!app_assoc.
Qed.

Lemma stop_idle s : joinable s = false → stop s = (Returns tt, s).
Proof. intros Hj. unfold stop. by rewrite (bind_returns get _ s s s eq_refl), Hj. Qed.

(** A phase after the stop. *)
Definition later_calls (p : phase) : list call :=
  match p with
  | PStop => []
  | PClose => [CloseScheduler]
  | PDestroyRoots => [CloseScheduler; DestroyRoots]
  end.

Lemma run_phase_eq p s t : stop s = (Returns tt, t) → run_phase p s = (Returns tt, logs (later_calls p) t).
Proof.
  intros Hs. destruct p; simpl; unfold destroy_roots, close, mbind, prog_bind, act, modify; rewrite Hs.
  - by rewrite calls_nil.
  - done.
  - unfold log, logs; simpl. by rewrite <-app_assoc.
Qed.

Lemma run_phases_idle ps s :
  joinable s = false → run_phases ps s = (Returns tt, logs (concat (later_calls <$> ps)) s).
Proof.
  revert s. induction ps as [|p ps IH]; intros s Hj; [by rewrite calls_nil|].
  unfold run_phases; simpl. rewrite (bind_returns _ _ _ _ _ (run_phase_eq p s s (stop_idle s Hj))).
  fold (run_phases ps). rewrite IH by done. by rewrite calls_app.
Qed.

Lemma later_claims ps : claims (concat (later_calls <$> ps)) = 0.
Proof.
  induction ps as [|p ps IH]; [done|].
  rewrite fmap_cons, concat_cons, udp_claims_app, IH. by destruct p.
Qed.

(** Whatever became of a start, the claims are those of the thread it left. *)
Lemma start_claims E port s :
  joinable s = false →
  claims (trace (start E port s).2) = claims (trace s) + bit (joinable (start E port s).2).
Proof.
  intros Hj.
  pose proof (spawned_unclaimed E (claims (trace s)) port s (conj Hj eq_refl)) as [Hj1 Hc1].
  unfold start, mbind, prog_bind in *. destruct (set_up E port s) as [[[]|e1] t]; simpl in *.
  2:{ rewrite Hj1, Hc1; simpl. lia. }
  destruct (must E Spawn t) as [[[]|e2] u]; simpl in *.
  2:{ rewrite Hj1, Hc1; simpl. lia. }
  destruct (fails E Thread); simpl; rewrite ?Hj1, !udp_claims_app, Hc1; unfold claims; simpl; lia.
Qed.

(** *** The thread *)

Definition thread_ok (t : thread) : Prop :=
  thrown t = reported t + bit (bool_decide (tp t = Reporting)) ∧
  released t = bit (bool_decide (tp t = Gone)) ∧
  (tp t = Releasing ∨ tp t = Gone → stopped t = true) ∧ tp t ≠ Terminated.

Lemma thread_step_ok t l t' : thread_ok t → thread_step t l = Some t' → thread_ok t'.
Proof.
  intros (H1 & H2 & H3 & H4) Hs. destruct t as [pc st th re rl]; simpl in *.
  destruct l as [| | |[]|], pc; simpl in Hs; simplify_eq/=; try (destruct (st || out_of_work)%bool; simplify_eq/=);
    destruct st; simplify_eq/=; split_and!; simpl in *; auto; try lia; try (by intros []); naive_solver.
Qed.

(** What a stopped loop's thread has left to do. *)
Definition thread_left (p : tpc) : nat :=
  match p with InRun => 4 | Reporting => 3 | TestStopped => 2 | Releasing => 1 | Gone | Terminated => 0 end.

(** The steps of the thread itself. *)
Definition own (l : tlabel) : bool := match l with Stop => false | _ => true end.

Lemma thread_stopped_runs t ls t' :
  stopped t = true → exec thread_step t ls = Some t' →
  stopped t' = true ∧ (length (filter own ls) + thread_left (tp t') ≤ thread_left (tp t))%nat.
Proof.
  revert t. induction ls as [|l ls IH]; intros t Hst He; simplify_eq/=; [done|].
  destruct (thread_step t l) as [u|] eqn:Hs; simplify_eq/=.
  assert (Hu : stopped u = true ∧
    ((if own l then 1 else 0) + thread_left (tp u) ≤ thread_left (tp t))%nat).
  { destruct t as [pc st th re rl]; simpl in *; subst st.
    destruct l as [| | |[]|], pc; simplify_eq/=; split; auto; lia. }
  destruct Hu as [Hu Hw]. destruct (IH u Hu He) as [? Hl]. split; [done|].
  rewrite filter_cons. destruct l; simpl in *; lia.
Qed.

(** *** The receive loop *)

(** What the callback gets for a wake-up, with a buffer of [n] bytes. *)
Definition handed (n : nat) (l : rlabel) : option (list Byte.byte * endpoint) :=
  match l with
  | Received (b :: data) from _ => Some (take n (b :: data), from)
  | _ => None
  end.

(** The exceptions it throws. *)
Definition thrown_by (l : rlabel) : Z :=
  match l with Received (_ :: _) _ (Some _) => 1 | _ => 0 end.

Lemma receive_step_inv o l r r' :
  0 ≤ max_datagram o → receive_step o true r l = Some r' →
  receiving r = true ∧ (receiving r' = false ↔ l = ReceiveError) ∧
  delivered r' = reverse (omap (handed (Z.to_nat (buffer_size o))) [l]) ++ delivered r ∧
  reports r' = reports r + thrown_by l.
Proof.
  intros Ho Hs. unfold receive_step in Hs. destruct r as [rc dl ht]; simpl in *.
  destruct rc; [|done]. split; [done|].
  assert (Hn : ∃ n, Z.to_nat (buffer_size o) = S n).
  { exists (pred (Z.to_nat (buffer_size o))). unfold buffer_size.
    destruct (Z.eqb_spec (max_datagram o) 0); lia. }
  destruct Hn as [n Hn]. rewrite Hn in *.
  destruct l as [[|b data] from th|]; simplify_eq/=; [split_and!; auto; try lia; done| |].
  - destruct th as [[]|]; simplify_eq/=; split_and!; auto; try lia; done.
  - split_and!; auto; try lia; done.
Qed.

Lemma receive_exec o ls r r' :
  0 ≤ max_datagram o → exec (receive_step o true) r ls = Some r' →
  delivered r' = reverse (omap (handed (Z.to_nat (buffer_size o))) ls) ++ delivered r ∧
  reports r' = reports r + total thrown_by ls ∧
  (receiving r = true → (receiving r' = false ↔ ReceiveError ∈ ls)) ∧
  (∀ pre post, ls = pre ++ ReceiveError :: post → post = []).
Proof.
  intros Ho. revert r. induction ls as [|l ls IH]; intros r He.
  { simplify_eq/=. split_and!; [done|lia| |by intros [] ?].
    intros ->. split; [done|]. by intros ?%elem_of_nil. }
  simpl in He. destruct (receive_step o true r l) as [u|] eqn:Hs; simplify_eq/=.
  apply receive_step_inv in Hs as (Hr & Hru & Hd & Ht); [|done].
  destruct (IH u He) as (Hd' & Ht' & Hr' & Hp). split_and!.
  - rewrite Hd', Hd. simpl. destruct (handed _ l); simpl; [|done].
    by rewrite reverse_cons, <-app_assoc.
  - lia.
  - intros _. destruct (receiving u) eqn:Hu.
    + rewrite Hr' by done. rewrite elem_of_cons. split; [by right|].
      intros [<-|?]; [|done]. by pose proof (proj2 Hru eq_refl).
    + rewrite (proj1 Hru eq_refl). destruct ls as [|l' ls']; simplify_eq/=.
      { split; [by left|done]. }
      unfold receive_step in He. by rewrite Hu in He.
  - intros [|x pre] post [= -> ->]; [|by eapply Hp].
    destruct Hru as [_ Hru]. destruct post as [|l' ls']; [done|]. simpl in He.
    unfold receive_step in He. by rewrite Hru in He.
Qed.

(** ** A concrete system *)

(** Buffers of at most a million bytes, and a fixed parse. *)
Definition small_system (thread : option exn) : env := mkEnv
  (λ c, match c with
        | SendBuffer z | RecvBuffer z =>
            if 1000000 <? z then Some (system_error (sys 105)) else None
        | Thread => thread
        | _ => None
        end)
  (λ _, Returns (V4 0)) (λ a, if no_string a then Throws (system_error (sys 22)) else Returns 1).

Definition gossip : UdpOptions :=
  mkOptions "" true true "239.0.0.1" "" true 1 4194304 65536 0.

(** A buffer of two bytes, and three datagrams. *)
Definition two_bytes : UdpOptions := mkOptions "" true false "" "" false 0 0 0 2.
Definition arrivals : list rlabel :=
  [Received [Byte.x41; Byte.x42; Byte.x43] (Endpoint (V4 1) 9) (Some (Throws bad_alloc));
   Received [] (Endpoint (V4 2) 9) None;
   Received [Byte.x44] (Endpoint (V4 3) 9) None].

(** ** Theorems *)

(** A buffer is sized by halving the target while the system refuses: the sizes tried are
    the target, its half, its quarter and so on, none below 256 KiB; it stops at the first one
    accepted, which is the largest of them the system takes, and gives up only when every one
    of them was refused. The loop ends for every target. *)
Theorem size_buffers_halve E mk target :
  0 < target < 2 ^ 64 →
  ∃ l b, size_down rounds (accepts E mk) target = (l, b) ∧
    (∀ s, size_buffer E mk target s = (Returns tt, logs ((λ x, mk (wrap_i32 x)) <$> l) s)) ∧
    l = (λ i, target / 2 ^ Z.of_nat i) <$> seq 0 (length l) ∧ Forall (λ x, smallest ≤ x) l ∧
    (if b then ∃ pre x, l = pre ++ [x] ∧ fails E (mk (wrap_i32 x)) = None ∧
                 Forall (λ y, fails E (mk (wrap_i32 y)) ≠ None) pre
     else Forall (λ y, fails E (mk (wrap_i32 y)) ≠ None) l ∧
          target / 2 ^ Z.of_nat (length l) < smallest).
Proof.
  intros Ht. destruct (size_down rounds (accepts E mk) target) as [l b] eqn:Hd.
  exists l, b. split; [done|]. split.
  { intros s. rewrite size_buffer_eq. unfold buffer_calls.
    destruct (Z.eqb_spec target 0); [lia|]. by rewrite Hd. }
  assert (Hlt : target < smallest * 2 ^ Z.of_nat rounds).
  { unfold smallest, rounds. change (Z.of_nat 64) with 64. lia. }
  destruct (size_down_spec rounds (accepts E mk) target l b ltac:(lia) Hlt Hd) as (H1 & H2 & H3).
  assert (Hrej : ∀ ys, Forall (λ y, accepts E mk (wrap_i32 y) = false) ys →
    Forall (λ y, fails E (mk (wrap_i32 y)) ≠ None) ys).
  { intros ys Hys. eapply Forall_impl; [exact Hys|]. intros y Hy; simpl in Hy. unfold accepts in Hy.
    by apply bool_decide_eq_false in Hy. }
  split_and!; try done. destruct b.
  - destruct H3 as (pre & x & -> & Hx & Hpre). exists pre, x. unfold accepts in Hx.
    apply bool_decide_eq_true in Hx. auto.
  - destruct H3. auto.
Qed.

Lemma size_buffers_halve_witness :
  (size_down rounds (accepts (small_system None) SendBuffer) 4194304) =
    ([4194304; 2097152; 1048576; 524288], true) ∧
  ∃ l b, size_down rounds (accepts (small_system None) SendBuffer) 4194304 = (l, b) ∧
    Forall (λ x, smallest ≤ x) l.
Proof.
  split; [by vm_compute|].
  destruct (size_buffers_halve (small_system None) SendBuffer 4194304) as (l & b & H1 & _ & _ & H2 & _);
    [lia|]. by exists l, b.
Defined.

(** A buffer target below 256 KiB is never tried: the socket keeps the size it has. *)
Theorem small_buffers_ignored E mk target s :
  0 < target < smallest → size_buffer E mk target s = (Returns tt, s).
Proof.
  intros Ht. rewrite size_buffer_eq. unfold buffer_calls.
  destruct (Z.eqb_spec target 0); [lia|]. rewrite size_down_small by lia. simpl. by rewrite calls_nil.
Qed.

Lemma small_buffers_ignored_witness :
  size_buffer (small_system None) RecvBuffer 65536 make = (Returns tt, make).
Proof. apply small_buffers_ignored. unfold smallest. lia. Defined.

(** The size reaches the system as an [int]: a target of 4 GiB asks for a buffer of 0
    bytes, and where the system takes that the loop stops there. *)
Theorem large_buffers_truncated E mk s :
  fails E (mk 0) = None → size_buffer E mk (2 ^ 32) s = (Returns tt, logs [mk 0] s).
Proof.
  intros Hf. rewrite size_buffer_eq. unfold buffer_calls, rounds.
  rewrite size_down_accepted; [done|unfold smallest; lia|].
  change (wrap_i32 (2 ^ 32)) with 0. by apply bool_decide_true.
Qed.

Lemma large_buffers_truncated_witness :
  trace (size_buffer (small_system None) SendBuffer (2 ^ 32) make).2 = [SendBuffer 0].
Proof. by rewrite large_buffers_truncated. Defined.

(** C29: a startup that returns has made exactly the calls the options ask for, in this order:
    open, the reuse options, the buffer sizes, the multicast options, the bind, the join on the
    same interface, then the receive loop is spawned and the thread that drives it started; the
    group endpoint is the parsed group at the port asked for. *)
Theorem udp_start_up E port s s' :
  start E port s = (Returns tt, s') →
  ∃ ep g i, bind_endpoint (make_address E) (address_ (opts_ s)) port = Returns ep ∧
    parsed E (multicast_group (opts_ s)) g ∧
    (g ≠ None → parsed E (multicast_interface (opts_ s)) i) ∧
    trace s' = trace s ++ set_up_calls E (opts_ s) ep g i ++ [Spawn; ClaimLoop; Thread] ∧
    joinable s' = true ∧
    group_endpoint_ s' =
      match g with Some g => Endpoint (V4 g) port | None => group_endpoint_ s end.
Proof.
  unfold start. intros ([] & u & Hu & Hs)%bind_inv.
  apply set_up_inv in Hu as (ep & g & i & Hep & Hg & Hi & Ht & _ & Hge).
  apply bind_inv in Hs as ([] & v & [-> _]%must_inv & Hs).
  apply bind_inv in Hs as ([] & w & [= <-] & Hs).
  destruct (fails E Thread); [done|]. injection Hs as <-.
  exists ep, g, i. revert Ht. generalize (set_up_calls E (opts_ s) ep g i). intros cs Ht. simpl.
  split_and!; try done. rewrite Ht. by rewrite <-!app_assoc.
Qed.

Lemma udp_start_up_witness :
  ∃ s', start (small_system None) 4000 (set_options gossip make) = (Returns tt, s') ∧
    trace s' = [Open; ReuseAddress; ReusePort; SendBuffer 4194304; SendBuffer 2097152;
      SendBuffer 1048576; SendBuffer 524288; Loopback true; Hops 1; Bind (Endpoint (V4 0) 4000);
      JoinGroup 1 None; Spawn; ClaimLoop; Thread] ∧
    joinable s' = true ∧ send (λ d to, inl (ep_port to)) [] s' = 4000.
Proof.
  eexists. split; [by vm_compute|]. split; [done|].
  edestruct (udp_start_up (small_system None) 4000 (set_options gossip make))
    as (ep & g & i & _ & _ & _ & _ & Hj & _); [by vm_compute|]. split; [exact Hj|done].
Defined.

(** A startup that throws leaves no thread and no claim on the loop, whatever call failed;
    and if the receive loop had been spawned, the loop is stopped, so the later phases may
    destroy it. *)
Theorem udp_start_failure E port s e s' :
  joinable s = false → start E port s = (Throws e, s') →
  joinable s' = false ∧ claims (trace s') = claims (trace s) ∧
  (fails E Spawn = None → (set_up E port s).1 = Returns tt →
     fails E Thread = Some e ∧ ∃ pre, trace s' = pre ++ [Spawn; ClaimLoop; ReleaseLoop; IoStop]).
Proof.
  intros Hj Hs. unfold start in Hs.
  pose proof (set_up_unclaimed E (claims (trace s)) port s (conj Hj eq_refl)) as [Hj1 Hc1].
  destruct (set_up E port s) as [[[]|e1] t] eqn:Hu; simpl in Hj1, Hc1.
  2:{ rewrite (bind_throws _ _ e1 s t Hu) in Hs. injection Hs as <- <-. split_and!; done. }
  rewrite (bind_returns _ _ _ _ _ Hu) in Hs.
  destruct (fails E Spawn) as [e2|] eqn:Hsp.
  { rewrite (bind_throws (must E Spawn) _ e2 t (logs [Spawn] t)) in Hs.
    2:{ unfold must. rewrite (bind_returns (act Spawn) _ tt t (logs [Spawn] t) eq_refl). by rewrite Hsp. }
    injection Hs as <- <-. simpl. rewrite udp_claims_app, Hc1. split_and!; [done|unfold claims; simpl; lia|done]. }
  rewrite (bind_returns (must E Spawn) _ tt t (logs [Spawn] t)) in Hs.
  2:{ unfold must. rewrite (bind_returns (act Spawn) _ tt t (logs [Spawn] t) eq_refl). by rewrite Hsp. }
  rewrite (bind_returns (act ClaimLoop) _ tt _ (logs [ClaimLoop] (logs [Spawn] t)) eq_refl) in Hs.
  destruct (fails E Thread) as [e3|]; [|done]. injection Hs as -> <-. simpl.
  rewrite !udp_claims_app, Hc1. split_and!; [done|unfold claims; simpl; lia|].
  intros _ _. split; [done|]. exists (trace t). by rewrite <-!app_assoc.
Qed.

Lemma udp_start_failure_witness :
  ∃ s', start (small_system (Some bad_alloc)) 4000 (set_options gossip make) =
      (Throws bad_alloc, s') ∧ joinable s' = false ∧ claims (trace s') = 0.
Proof.
  eexists. split; [by vm_compute|].
  edestruct (udp_start_failure (small_system (Some bad_alloc)) 4000 (set_options gossip make) bad_alloc)
    as (Hj & Hc & _); [done|by vm_compute|]. split; [exact Hj|exact Hc].
Defined.

(** The phases may be called in any order and any number of times after a start,
    successful or not: the first one aborts the tracked work, stops the loop and joins the
    thread if one runs, and none does so again; every close comes after that and every
    destruction of the roots after a close; and no claim on the loop is left. *)
Theorem udp_phases_any_order E port s p ps :
  joinable s = false →
  let u := (start E port s).2 in
  let v := (run_phases (p :: ps) u).2 in
  (run_phases (p :: ps) u).1 = Returns tt ∧
  trace v = trace u ++ (if joinable u : bool then [AbortAll; IoStop; Join] else []) ++
            concat (later_calls <$> p :: ps) ∧
  joinable v = false ∧ claims (trace v) = claims (trace s).
Proof.
  intros Hj u. pose proof (start_claims E port s Hj) as Hc. fold u in Hc. clearbody u.
  assert (Hu : ∃ t, stop u = (Returns tt, t) ∧ joinable t = false ∧
    trace t = trace u ++ (if joinable u : bool then [AbortAll; IoStop; Join] else [])).
  { destruct (joinable u) eqn:Hju.
    - eexists. split; [by apply stop_joinable|done].
    - exists u. rewrite app_nil_r. split; [by apply stop_idle|done]. }
  destruct Hu as (t & Ht & Htj & Htt). cbv zeta.
  assert (Hrun : run_phases (p :: ps) u = (Returns tt, logs (concat (later_calls <$> p :: ps)) t)).
  { unfold run_phases; simpl. rewrite (bind_returns _ _ _ _ _ (run_phase_eq p u t Ht)).
    fold (run_phases ps). rewrite run_phases_idle by done. by rewrite calls_app. }
  rewrite Hrun. unfold logs; cbn [fst snd trace joinable]. rewrite Htt, <-app_assoc.
  split_and!; try done. rewrite !udp_claims_app, Hc, later_claims.
  destruct (joinable u); unfold claims; simpl; lia.
Qed.

Lemma udp_phases_any_order_witness :
  claims (trace (run_phases [PClose; PStop; PDestroyRoots]
    (start (small_system None) 4000 (set_options gossip make)).2).2) = 0.
Proof.
  destruct (udp_phases_any_order (small_system None) 4000 (set_options gossip make) PClose
    [PStop; PDestroyRoots] eq_refl) as (_ & _ & _ & ->). done.
Defined.

(** Exceptions do not end the loop's thread, nor do those of the hook that reports them:
    each one that leaves [run()] is reported once
    and [run()] entered again while the loop is not stopped; the thread leaves only once it is
    stopped, and gives up its claim on the loop exactly once, as the last thing it does. After
    the loop is stopped the thread takes at most four more steps, and it is never stuck. *)
Theorem thread_survives t :
  reachable thread_step thread_initial t →
  thrown t = reported t + bit (bool_decide (tp t = Reporting)) ∧
  released t = bit (bool_decide (tp t = Gone)) ∧
  (tp t = Releasing ∨ tp t = Gone → stopped t = true) ∧ tp t ≠ Terminated ∧
  (tp t = Gone ∨ ∃ l, own l = true ∧ is_Some (thread_step t l)) ∧
  (stopped t = true → ∀ ls t', exec thread_step t ls = Some t' → (length (filter own ls) ≤ 4)%nat).
Proof.
  intros Hr. assert (Hok : thread_ok t).
  { revert t Hr. apply invariant_rule; [|exact thread_step_ok]. split_and!; try done. by intros []. }
  destruct Hok as (H1 & H2 & H3 & H4). split_and!; try done.
  - destruct t as [[] st th re rl]; simpl; [right..|by left|done].
    + by exists TGo.
    + by exists RunThrows.
    + by exists (Report default_L_EXC).
    + by exists TGo.
  - intros Hst ls t' He. destruct (thread_stopped_runs t ls t' Hst He) as [_ Hl].
    destruct (tp t); simpl in Hl; lia.
Qed.

Lemma thread_survives_witness :
  ∃ t, exec thread_step thread_initial
      [TGo; RunThrows; Report (Throws bad_alloc); TGo; Stop; RunReturns false; TGo] = Some t ∧
    tp t = Gone ∧ reported t = 1 ∧ released t = 1.
Proof.
  eexists. split; [reflexivity|]. split; [done|]. split; [done|].
  edestruct (thread_survives (mkThread Gone true 1 1 1)) as (_ & H & _); [|exact H].
  by apply (exec_reachable _ _ [TGo; RunThrows; Report (Throws bad_alloc); TGo; Stop; RunReturns false; TGo]).
Defined.

(** C25: the receive loop hands the callback every datagram that is not empty, once and in the
    order of arrival, cut to the buffer's size, with its sender; an empty one is not handed
    over; a throw of the callback is reported and changes nothing else, also when the report
    throws; and the loop ends at
    the first failed receive and at nothing else. *)
Theorem receive_delivers o ls r :
  0 ≤ max_datagram o → exec (receive_step o true) receive_initial ls = Some r →
  reverse (delivered r) = omap (handed (Z.to_nat (buffer_size o))) ls ∧
  reports r = total thrown_by ls ∧
  (receiving r = false ↔ ReceiveError ∈ ls) ∧
  (∀ pre post, ls = pre ++ ReceiveError :: post → post = []).
Proof.
  intros Ho He. destruct (receive_exec o ls receive_initial r Ho He) as (H1 & H2 & H3 & H4).
  split_and!; [|done|by apply H3|done]. rewrite H1. simpl. by rewrite app_nil_r, reverse_involutive.
Qed.

Lemma receive_delivers_witness :
  ∃ r, exec (receive_step two_bytes true) receive_initial arrivals = Some r ∧
    reverse (delivered r) =
      [([Byte.x41; Byte.x42], Endpoint (V4 1) 9); ([Byte.x44], Endpoint (V4 3) 9)] ∧
    reports r = 1.
Proof.
  eexists. split; [reflexivity|].
  edestruct (receive_delivers two_bytes arrivals) as (H1 & H2 & _); [done|reflexivity|].
  split; [exact H1|exact H2].
Defined.

End Udp.
