(* ===== verification/UdpRun.v ===== *)
(** * reactor_udp.h: a running UdpServer

    The thread that drives the loop, the receive loop on it and the thread that shuts the server
    down, with the abort of tracked work posted to the loop or taken back from it, interleaved
    at every step: what each phase finds when it runs, and that each phase returns. *)

From S2P Require Import Prelude Prog Net Udp.

Module UdpRun.

(** ** The code *)

(** Where the thread is that calls [stop], [close] or [destroy_roots]. *)
Inductive hpc :=
| Outside                            (* in no phase *)
| Aborting (p : Udp.phase)           (* [reactor_.abort_all()] *)
| Waiting (p : Udp.phase)            (* in [on_loop_sync], the call posted *)
| Stopping (p : Udp.phase)           (* [reactor_.io().stop()] *)
| Joining (p : Udp.phase)            (* [thread_.join()] *)
| Closing (p : Udp.phase)            (* [reactor_.scheduler().close()] *)
| Destroying.                        (* [reactor_.scheduler().destroy_roots()] *)

(** What the loop runs: the receive loop, resumed by a completed receive, or the posted walk. *)
Inductive handler := Receive (l : Udp.rlabel) | Walk.

Record state := mkState {
  host : hpc;
  joinable : bool;                   (* [thread_.joinable()] *)
  thread : Udp.thread;
  busy : option handler;             (* the handler the thread is in *)
  rx : Udp.receiver;
  frame : bool;                      (* the receive loop's frame exists *)
  aborting_ : bool;
  posted : bool;                     (* the walk is posted and not taken *)
  walk_done : bool;                  (* the posted walk has run *)
  walked_ : bool;
  closed : bool }.

Inductive label :=
| Phase (p : Udp.phase)              (* the owner calls a phase *)
| Host                               (* and goes on in it *)
| Loop (l : Udp.tlabel)              (* the loop's thread, or a [stop()] of the loop from anywhere *)
| Begin (h : handler)
| End.

Definition set_host (s : state) (h : hpc) : state :=
  mkState h (joinable s) (thread s) (busy s) (rx s) (frame s) (aborting_ s) (posted s) (walk_done s)
    (walked_ s) (closed s).
Definition set_joinable (s : state) (b : bool) : state :=
  mkState (host s) b (thread s) (busy s) (rx s) (frame s) (aborting_ s) (posted s) (walk_done s)
    (walked_ s) (closed s).
Definition set_thread (s : state) (t : Udp.thread) : state :=
  mkState (host s) (joinable s) t (busy s) (rx s) (frame s) (aborting_ s) (posted s) (walk_done s)
    (walked_ s) (closed s).
Definition set_busy (s : state) (b : option handler) : state :=
  mkState (host s) (joinable s) (thread s) b (rx s) (frame s) (aborting_ s) (posted s) (walk_done s)
    (walked_ s) (closed s).
Definition set_rx (s : state) (r : Udp.receiver) : state :=
  mkState (host s) (joinable s) (thread s) (busy s) r (frame s) (aborting_ s) (posted s) (walk_done s)
    (walked_ s) (closed s).
Definition set_frame (s : state) (b : bool) : state :=
  mkState (host s) (joinable s) (thread s) (busy s) (rx s) b (aborting_ s) (posted s) (walk_done s)
    (walked_ s) (closed s).
Definition set_aborting (s : state) : state :=
  mkState (host s) (joinable s) (thread s) (busy s) (rx s) (frame s) true (posted s) (walk_done s)
    (walked_ s) (closed s).
Definition set_posted (s : state) (b : bool) : state :=
  mkState (host s) (joinable s) (thread s) (busy s) (rx s) (frame s) (aborting_ s) b (walk_done s)
    (walked_ s) (closed s).
Definition set_walk_done (s : state) : state :=
  mkState (host s) (joinable s) (thread s) (busy s) (rx s) (frame s) (aborting_ s) (posted s) true
    (walked_ s) (closed s).
Definition set_walked (s : state) : state :=
  mkState (host s) (joinable s) (thread s) (busy s) (rx s) (frame s) (aborting_ s) (posted s) (walk_done s)
    true (closed s).
Definition set_closed (s : state) : state :=
  mkState (host s) (joinable s) (thread s) (busy s) (rx s) (frame s) (aborting_ s) (posted s) (walk_done s)
    (walked_ s) true.

(** [loops_ == 0]: the claim made before the thread was started is released. *)
Definition unclaimed (s : state) : bool :=
  match Udp.tp (thread s) with Udp.Gone => true | _ => false end.

(** The loop starts a handler: only inside [run()], one at a time, and not once it is stopped. *)
Definition runs_handlers (s : state) : bool :=
  match Udp.tp (thread s), busy s with
  | Udp.InRun, None => negb (Udp.stopped (thread s))
  | _, _ => false
  end.

(** After [stop()]: the phases that asked for more go on. *)
Definition stopped_then (p : Udp.phase) : hpc :=
  match p with Udp.PStop => Outside | _ => Closing p end.
Definition closed_then (p : Udp.phase) : hpc :=
  match p with Udp.PDestroyRoots => Destroying | _ => Outside end.

(** [stop]'s test. *)
Definition call_phase (s : state) (p : Udp.phase) : option state :=
  match host s with
  | Outside => Some (set_host s (if joinable s then Aborting p else stopped_then p))
  | _ => None
  end.

(** [Waiting]: the walk is done, or it is not taken and the loop's last thread is gone, so that
    the caller takes it back and walks itself. *)
Definition host_step (s : state) : option state :=
  match host s with
  | Outside => None
  | Aborting p =>
      if aborting_ s then Some (set_host s (Stopping p))
      else if unclaimed s then Some (set_host (set_walked (set_aborting s)) (Stopping p))
      else Some (set_host (set_posted (set_aborting s) true) (Waiting p))
  | Waiting p =>
      if walk_done s then Some (set_host s (Stopping p))
      else if posted s && unclaimed s
      then Some (set_host (set_walked (set_posted s false)) (Stopping p))
      else None
  | Stopping p =>
      t ← Udp.thread_step (thread s) Udp.Stop;
      Some (set_host (set_thread s t) (Joining p))
  | Joining p =>
      if unclaimed s then Some (set_host (set_joinable s false) (stopped_then p)) else None
  | Closing p => Some (set_host (set_closed s) (closed_then p))
  | Destroying => Some (set_host (set_frame s false) Outside)
  end.

(** [run()] returns or throws between handlers; for want of work only when the receive has ended
    and no walk is posted. *)
Definition may_leave (s : state) (l : Udp.tlabel) : bool :=
  match l, busy s with
  | Udp.RunReturns idle, None => Udp.stopped (thread s) || negb idle || (negb (Udp.receiving (rx s)) && negb (posted s))
  | Udp.RunThrows, None => true
  | (Udp.RunReturns _ | Udp.RunThrows), Some _ => false
  | _, _ => true
  end.

Section udp_run.
Context (o : Udp.UdpOptions) (on_datagram : bool).

Definition begin_step (s : state) (h : handler) : option state :=
  if runs_handlers s then
    match h with
    | Receive _ => if frame s && Udp.receiving (rx s) then Some (set_busy s (Some h)) else None
    | Walk => if posted s then Some (set_busy (set_posted s false) (Some h)) else None
    end
  else None.

Definition end_step (s : state) : option state :=
  match busy s with
  | Some (Receive l) =>
      r ← Udp.receive_step o on_datagram (rx s) l;
      Some (set_busy (set_rx s r) None)
  | Some Walk => Some (set_busy (set_walk_done (set_walked s)) None)
  | None => None
  end.

Definition step (s : state) (l : label) : option state :=
  match l with
  | Phase p => call_phase s p
  | Host => host_step s
  | Loop l =>
      if may_leave s l then t ← Udp.thread_step (thread s) l; Some (set_thread s t) else None
  | Begin h => begin_step s h
  | End => end_step s
  end.

(** [~Reactor], after the phases: the assertion that no loop is claimed, and the loop is stopped. *)
Definition destroy_reactor (s : state) : option state :=
  if unclaimed s
  then t ← Udp.thread_step (thread s) Udp.Stop; Some (set_thread s t)
  else None.

(** How far [start()] came: it threw before the thread, or at it, with the claim released and the
    loop stopped, or it returned. *)
Inductive outcome := NotStarted | NoThread | Started.

Definition initial (k : outcome) : state :=
  let gone stopped := Udp.mkThread Udp.Gone stopped 0 0 0 in
  match k with
  | NotStarted => mkState Outside false (gone false) None Udp.receive_initial false false false false false false
  | NoThread => mkState Outside false (gone true) None Udp.receive_initial true false false false false false
  | Started => mkState Outside true Udp.thread_initial None Udp.receive_initial true false false false false false
  end.

(** ** Invariant *)

Context (k : outcome).

Definition walking (s : state) : bool := match busy s with Some Walk => true | _ => false end.

(** The walk that [abort_all()] waits for is done, or posted, or the loop is in it. *)
Definition one_walk (s : state) : Prop :=
  match walk_done s, posted s, walking s with
  | true, false, false => walked_ s = true
  | false, true, false | false, false, true => True
  | _, _, _ => False
  end.

(** What holds at each point of a phase. *)
Definition host_ok (s : state) : Prop :=
  match host s with
  | Outside => joinable s = true → aborting_ s = false ∧ walk_done s = false
  | Aborting _ => joinable s = true ∧ aborting_ s = false ∧ walk_done s = false
  | Waiting _ => joinable s = true ∧ one_walk s
  | Stopping _ => joinable s = true ∧ walked_ s = true
  | Joining _ => joinable s = true ∧ walked_ s = true ∧ Udp.stopped (thread s) = true
  | Closing _ | Destroying => joinable s = false
  end.

(** The walk is posted, and the loop in it, only while the caller waits. *)
Definition walk_ok (s : state) : Prop :=
  (posted s = false ∧ walking s = false) ∨ ∃ p, host s = Waiting p.

Definition busy_ok (s : state) : Prop :=
  match busy s with
  | Some (Receive _) => Udp.tp (thread s) = Udp.InRun ∧ Udp.receiving (rx s) = true
  | Some Walk => Udp.tp (thread s) = Udp.InRun
  | None => True
  end.

Definition thread_ok (s : state) : Prop :=
  Udp.tp (thread s) ≠ Udp.Terminated ∧ (joinable s = false → Udp.tp (thread s) = Udp.Gone) ∧
  (Udp.tp (thread s) = Udp.Releasing ∨ Udp.tp (thread s) = Udp.Gone →
   Udp.stopped (thread s) = true ∨ k = NotStarted).

Record inv (s : state) : Prop := {
  i_host : host_ok s;
  i_walk : walk_ok s;
  i_busy : busy_ok s;
  i_thread : thread_ok s;
  i_frame : k = NotStarted → frame s = false }.

Lemma udp_inv_initial : inv (initial k).
Proof. destruct k eqn:Hk; split; try done; unfold walk_ok, thread_ok; simpl; rewrite ?Hk; naive_solver. Qed.

#[local] Ltac open_inv s Hi :=
  destruct Hi as [Hh Hw Hb Ht Hk]; unfold host_ok, walk_ok, one_walk, busy_ok, thread_ok, walking in *.
#[local] Ltac close_inv :=
  split; unfold host_ok, walk_ok, one_walk, busy_ok, thread_ok, walking; simpl;
    first [assumption|done|by left|by right; eauto|solve [intuition congruence]|idtac].

Lemma inv_phase s p t : inv s → call_phase s p = Some t → inv t.
Proof.
  intros Hi Hs. open_inv s Hi. unfold call_phase in Hs. destruct (host s) eqn:Hp; simplify_eq/=.
  destruct Hw as [Hw|[? ?]]; [|done]. destruct (joinable s) eqn:Hj, p; close_inv.
Qed.

Lemma unclaimed_gone s : unclaimed s = true → Udp.tp (thread s) = Udp.Gone.
Proof. unfold unclaimed. by destruct (Udp.tp _). Qed.

Lemma udp_inv_host s t : inv s → host_step s = Some t → inv t.
Proof.
  intros Hi Hs. pose proof (unclaimed_gone s) as Hu. unfold host_step in Hs. open_inv s Hi.
  destruct (host s) as [|p|p|p|p|p|] eqn:Hp; [done|..].
  - destruct Hh as (Hj & Ha & Hd). rewrite Ha in Hs. destruct Hw as [[Hpo Hwa]|[? ?]]; [|done].
    destruct (unclaimed s); simplify_eq/=; [close_inv|].
    split; unfold host_ok, walk_ok, one_walk, walking; simpl; [by rewrite Hd, Hwa|naive_solver..].
  - destruct Hh as [Hj H1].
    destruct (walk_done s), (posted s) eqn:Hpo, (match busy s with Some Walk => true | _ => false end) eqn:Hwa,
      (unclaimed s); simplify_eq/=; close_inv.
  - destruct Hw as [Hw|[? ?]]; [|done]. simplify_eq/=. close_inv.
  - destruct Hw as [Hw|[? ?]]; [|done]. destruct (unclaimed s); simplify_eq/=. destruct p; close_inv.
  - destruct Hw as [Hw|[? ?]]; [|done]. simplify_eq/=. destruct p; close_inv.
  - destruct Hw as [Hw|[? ?]]; [|done]. simplify_eq/=. close_inv.
Qed.

(** What the thread's own steps do to it. *)
Lemma thread_moves x l y :
  Udp.thread_step x l = Some y → Udp.tp x ≠ Udp.Terminated →
  Udp.tp y ≠ Udp.Terminated ∧
  (Udp.stopped x = true → Udp.stopped y = true) ∧
  (Udp.tp x = Udp.Gone → Udp.tp y = Udp.Gone) ∧
  (Udp.tp y = Udp.Releasing ∨ Udp.tp y = Udp.Gone →
   Udp.stopped y = true ∨ Udp.tp x = Udp.Releasing ∨ Udp.tp x = Udp.Gone) ∧
  (Udp.tp x = Udp.InRun → Udp.tp y = Udp.InRun ∨ l = Udp.RunThrows ∨ ∃ i, l = Udp.RunReturns i).
Proof.
  intros Hs Hx. destruct x as [tp st th re rl]. simpl in Hx.
  destruct l as [|i| |[]|], tp; simplify_eq/=; try (destruct (st || i)%bool eqn:?; simplify_eq/=);
    split_and!; simpl; destruct st; simplify_eq/=; eauto; naive_solver.
Qed.

Lemma inv_loop s l x :
  inv s → may_leave s l = true → Udp.thread_step (thread s) l = Some x → inv (set_thread s x).
Proof.
  intros Hi Hm Hs. open_inv s Hi. destruct Ht as (Ht1 & Ht2 & Ht3).
  destruct (thread_moves _ _ _ Hs Ht1) as (H1 & H2 & H3 & H4 & H5).
  split; unfold host_ok, walk_ok, one_walk, busy_ok, thread_ok, walking; simpl; try done.
  - destruct (host s); naive_solver.
  - unfold may_leave in Hm. destruct (busy s) as [[m|]|]; [|..|done].
    + destruct Hb as [Hb Hr]. split; [|done]. destruct (H5 Hb) as [?|[->|[i ->]]]; done.
    + destruct (H5 Hb) as [?|[->|[i ->]]]; done.
  - split; [done|]. split; [by intros ?%Ht2%H3|]. intros [Hy|[Hy|Hy]%Ht3]%H4; [by left|left|by right]. by apply H2.
Qed.

Lemma runs_handlers_spec s :
  runs_handlers s = true → Udp.tp (thread s) = Udp.InRun ∧ busy s = None ∧ Udp.stopped (thread s) = false.
Proof. unfold runs_handlers. destruct (Udp.tp _), (busy s), (Udp.stopped _); naive_solver. Qed.

Lemma inv_begin s h t : inv s → begin_step s h = Some t → inv t.
Proof.
  intros Hi Hs. open_inv s Hi. unfold begin_step in Hs.
  destruct (runs_handlers s) eqn:Hr; [|done]. apply runs_handlers_spec in Hr as (Htp & Hbz & Hst).
  rewrite Hbz in *. destruct h as [l|]; case_match eqn:Hc; simplify_eq/=.
  - apply andb_true_iff in Hc as [_ Hc]. close_inv.
  - destruct Hw as [[? _]|[p Hp]]; [congruence|]. rewrite Hp in Hh. destruct Hh as [Hj H1].
    split; unfold host_ok, walk_ok, one_walk, walking; simpl; rewrite ?Hp; eauto.
Qed.

Lemma inv_end s t : inv s → end_step s = Some t → inv t.
Proof.
  intros Hi Hs. open_inv s Hi. unfold end_step in Hs. destruct (busy s) as [[l|]|] eqn:Hbz; [|..|done].
  - destruct (Udp.receive_step o on_datagram (rx s) l); simplify_eq/=. close_inv.
  - destruct Hw as [[_ ?]|[p Hp]]; [done|]. rewrite Hp in Hh. destruct Hh as [Hj H1]. simplify_eq.
    destruct (walk_done s), (posted s) eqn:Hpo; [done..|].
    split; unfold host_ok, walk_ok, one_walk, walking; simpl; rewrite ?Hp, ?Hpo; eauto.
Qed.

Lemma inv_reachable s : reachable step (initial k) s → inv s.
Proof.
  revert s. apply invariant_rule; [apply udp_inv_initial|]. intros s l t Hi Hs. destruct l as [p| |l|h|]; simpl in Hs.
  - by eapply inv_phase.
  - by eapply udp_inv_host.
  - case_match; [|done]. destruct (Udp.thread_step _ _) as [u|] eqn:Hu; simplify_eq/=. by eapply inv_loop.
  - by eapply inv_begin.
  - by eapply inv_end.
Qed.

(** ** Progress *)

(** The moves of the server's own threads: neither a new phase, nor a datagram, nor a throw of the
    loop's other callbacks, nor a stop of the loop by others. *)
Definition internal (l : label) : bool :=
  match l with
  | Host | End | Begin Walk => true
  | Loop l => match l with Udp.RunThrows | Udp.Stop => false | _ => true end
  | _ => false
  end.

Definition host_left (h : hpc) : Z :=
  match h with
  | Outside => 0 | Destroying => 1 | Closing _ => 2 | Joining _ => 3 | Stopping _ => 4 | Waiting _ => 5
  | Aborting _ => 6
  end.
Definition thread_left (p : Udp.tpc) : Z :=
  match p with
  | Udp.Reporting => 4 | Udp.TestStopped => 3 | Udp.InRun => 2 | Udp.Releasing => 1 | _ => 0
  end.
Definition weight (s : state) : Z :=
  3 * host_left (host s) + 2 * bit (posted s) + bit (match busy s with Some _ => true | None => false end) +
  thread_left (Udp.tp (thread s)).

Lemma udp_weight_nonneg s : 0 ≤ weight s.
Proof.
  unfold weight. pose proof (bit_nonneg (posted s)). assert (0 ≤ host_left (host s)) by by destruct (host s).
  assert (0 ≤ thread_left (Udp.tp (thread s))) by by destruct (Udp.tp _). destruct (busy s); simpl; lia.
Qed.

Lemma thread_step_down x l y :
  Udp.thread_step x l = Some y → internal (Loop l) = true → thread_left (Udp.tp y) < thread_left (Udp.tp x).
Proof.
  intros Hs Hl. destruct x as [tp st th re rl].
  destruct l as [|i| |[]|], tp; simplify_eq/=; try (destruct st; simplify_eq/=; lia);
    destruct (st || i); simplify_eq/=; lia.
Qed.

Lemma udp_weight_down s l t : step s l = Some t → internal l = true → weight t < weight s.
Proof.
  intros Hs Hl. unfold weight. destruct l as [p| |l|h|]; [done|..]; simpl in Hs.
  - unfold host_step in Hs. destruct (host s) as [|p|p|p|p|p|] eqn:Hp; simplify_eq/=; repeat case_match; simplify_eq/=;
      try destruct p; simpl; pose proof (bit_nonneg (posted s)); lia.
  - case_match; [|done]. destruct (Udp.thread_step _ _) as [x|] eqn:Hx; simplify_eq/=.
    pose proof (thread_step_down _ _ _ Hx Hl). lia.
  - destruct h; [done|]. unfold begin_step in Hs. destruct (runs_handlers s) eqn:Hr; [|done].
    apply runs_handlers_spec in Hr as (_ & Hbz & _). destruct (posted s); simplify_eq/=. rewrite Hbz. simpl. lia.
  - unfold end_step in Hs. destruct (busy s) as [[l|]|]; [|..|done]; [destruct (Udp.receive_step _ _ _ _)|];
      simplify_eq/=; lia.
Qed.

Definition stuck (s : state) : Prop := ∀ l, internal l = true → step s l = None.

Lemma receive_some r l : Udp.receiving r = true → is_Some (Udp.receive_step o on_datagram r l).
Proof.
  intros Hr. unfold Udp.receive_step. rewrite Hr. destruct l; [|done]. by destruct (_ && _).
Qed.

(** A handler that was begun can end. *)
Lemma stuck_idle s : inv s → stuck s → busy s = None.
Proof.
  intros Hi Hst. pose proof (i_busy s Hi) as Hb. specialize (Hst End eq_refl). unfold busy_ok in Hb.
  simpl in Hst. unfold end_step in Hst. destruct (busy s) as [[l|]|]; [|done|done].
  destruct (receive_some (rx s) l (proj2 Hb)) as [r Hr]. by rewrite Hr in Hst.
Qed.

(** The thread is gone, or runs a loop that nobody stopped and that has no walk to do. *)
Lemma stuck_thread s :
  inv s → stuck s → Udp.tp (thread s) = Udp.Gone ∨
    Udp.tp (thread s) = Udp.InRun ∧ Udp.stopped (thread s) = false ∧ posted s = false.
Proof.
  intros Hi Hst. pose proof (stuck_idle s Hi Hst) as Hb. destruct (i_thread s Hi) as (Ht & _ & _).
  pose proof (Hst (Loop Udp.TGo) eq_refl) as Hg. pose proof (Hst (Loop (Udp.RunReturns false)) eq_refl) as Hr.
  pose proof (Hst (Loop (Udp.Report (Returns tt))) eq_refl) as Hp. pose proof (Hst (Begin Walk) eq_refl) as Hw.
  unfold step, begin_step, runs_handlers, may_leave in *. rewrite Hb in *.
  destruct (thread s) as [[] [] th re rl], (posted s); simplify_eq/=; auto.
Qed.

Lemma stuck_outside s : inv s → stuck s → host s = Outside.
Proof.
  intros Hi Hst. pose proof (i_host s Hi) as Hh. pose proof (stuck_thread s Hi Hst) as Ht.
  pose proof (stuck_idle s Hi Hst) as Hb. pose proof (Hst Host eq_refl) as Hs. simpl in Hs.
  unfold host_step, unclaimed in Hs. unfold host_ok, one_walk, walking in Hh. rewrite Hb in Hh.
  destruct (host s) as [|p|p|p|p|p|]; [done|..]; try done.
  - by repeat case_match.
  - destruct (walk_done s), (posted s), Ht as [Ht|(Ht & ? & ?)]; rewrite ?Ht in Hs; naive_solver.
  - destruct Ht as [Ht|(Ht & ? & ?)]; rewrite Ht in Hs; naive_solver congruence.
Qed.

(** With the thread gone and no handler left, nothing moves the receive loop. *)
Lemma gone_stays s l t :
  joinable s = false → unclaimed s = true → busy s = None → step s l = Some t →
  joinable t = false ∧ Udp.delivered (rx t) = Udp.delivered (rx s).
Proof.
  intros Hj Hu Hb Hs. destruct l as [p| |l|h|]; simpl in Hs.
  - unfold call_phase in Hs. destruct (host s); by simplify_eq/=.
  - unfold host_step in Hs. destruct (host s); repeat case_match; by simplify_eq/=.
  - case_match; [|done]. destruct (Udp.thread_step _ _); by simplify_eq/=.
  - unfold begin_step in Hs. repeat case_match; by simplify_eq/=.
  - unfold end_step in Hs. by rewrite Hb in Hs.
Qed.

(** ** Theorems *)

(** C26: what each phase relies on, however the threads interleave and whatever became of [start()]: when the
    roots are destroyed no thread is in the loop, the claim on it is released and the loop is stopped
    if the receive loop's frame is there; a loop is stopped and its thread joined only after the tracked work was
    aborted; and once the thread is joined no handler runs, nothing more is handed over and it stays so, and
    the reactor may be destroyed: its assertion holds. *)
Theorem udp_shutdown_safe s :
  reachable step (initial k) s →
  (host s = Destroying → unclaimed s = true ∧ (frame s = true → Udp.stopped (thread s) = true)) ∧
  ((∃ p, host s = Stopping p ∨ host s = Joining p) → walked_ s = true) ∧
  (joinable s = false → is_Some (destroy_reactor s) ∧ busy s = None ∧
     ∀ l t, step s l = Some t → joinable t = false ∧ Udp.delivered (rx t) = Udp.delivered (rx s)).
Proof.
  intros Hr%inv_reachable. pose proof (i_host s Hr) as Hh. destruct (i_thread s Hr) as (Ht1 & Ht2 & Ht3).
  assert (Hgone : joinable s = false → unclaimed s = true ∧ busy s = None).
  { intros Hj. pose proof (Ht2 Hj) as Hg. unfold unclaimed. rewrite Hg. split; [done|].
    pose proof (i_busy s Hr) as Hb. unfold busy_ok in Hb. rewrite Hg in Hb. destruct (busy s) as [[]|]; naive_solver. }
  unfold host_ok in Hh. split_and!.
  - intros Hp. rewrite Hp in Hh. destruct (Hgone Hh) as [Hu _]. split; [done|]. intros Hf.
    destruct (Ht3 (or_intror (Ht2 Hh))) as [?|?%(i_frame s Hr)]; [done|congruence].
  - intros [p [Hp|Hp]]; rewrite Hp in Hh; naive_solver.
  - intros Hj. destruct (Hgone Hj) as [Hu Hb]. split_and!; [unfold destroy_reactor; by rewrite Hu|done|]. intros l t Hs.
    by apply (gone_stays s l t Hj Hu Hb).
Qed.

(** C27: every phase returns: between two events of the outside (a call of a phase, a datagram, a throw of
    another callback, a stop of the loop by others) the threads take boundedly many steps, and when none of them has
    a step left no phase is waiting, whether the loop ran the posted abort or its thread left
    before it could. *)
Theorem udp_phase_returns s ls t :
  reachable step (initial k) s → exec step s ls = Some t → forallb internal ls = true →
  Z.of_nat (length ls) ≤ weight s ∧ ((∀ l, internal l = true → step t l = None) → host t = Outside).
Proof.
  intros Hr He Hl. split.
  - clear Hr. revert s He. induction ls as [|l ls IH]; intros s He; [apply udp_weight_nonneg|].
    simpl in He, Hl. apply andb_true_iff in Hl as [Hl Hls]. destruct (step s l) as [u|] eqn:Hu; [|done].
    pose proof (IH Hls u He). pose proof (udp_weight_down s l u Hu Hl). simpl length. lia.
  - apply stuck_outside. apply inv_reachable. by eapply exec_reachable_from.
Qed.

(** What stops the loop. *)
Lemma step_stops s l t :
  step s l = Some t → Udp.stopped (thread s) = false → Udp.stopped (thread t) = true →
  l = Loop Udp.Stop ∨ (∃ p, host s = Stopping p) ∨ Udp.receiving (rx s) = false.
Proof.
  intros Hs H0 H1. destruct l as [p| |l|h|]; simpl in Hs.
  - unfold call_phase in Hs. destruct (host s); simplify_eq/=; congruence.
  - unfold host_step in Hs. destruct (host s) eqn:Hp; repeat case_match; simplify_eq/=; eauto; congruence.
  - case_match eqn:Hm; [|done]. destruct (Udp.thread_step _ _) as [x|] eqn:Hx; simplify_eq/=.
    unfold may_leave in Hm. destruct (thread s) as [tp st th re rl]; simplify_eq/=.
    destruct l as [|[]| |[]|], tp, (busy s); simplify_eq/=; auto. apply andb_true_iff in Hm as [Hm _].
    apply negb_true_iff in Hm. auto.
  - unfold begin_step in Hs. repeat case_match; simplify_eq/=; congruence.
  - unfold end_step in Hs. destruct (busy s) as [[l|]|]; [destruct (Udp.receive_step _ _ _ _)|..]; simplify_eq/=; congruence.
Qed.

(** What ends the receive loop. *)
Lemma step_deafens s l t :
  step s l = Some t → Udp.receiving (rx s) = true → Udp.receiving (rx t) = false →
  busy s = Some (Receive Udp.ReceiveError).
Proof.
  intros Hs H0 H1. destruct l as [p| |l|h|]; simpl in Hs.
  - unfold call_phase in Hs. destruct (host s); simplify_eq/=; congruence.
  - unfold host_step in Hs. destruct (host s) eqn:Hp; repeat case_match; simplify_eq/=; congruence.
  - case_match; [|done]. destruct (Udp.thread_step _ _); simplify_eq/=; congruence.
  - unfold begin_step in Hs. repeat case_match; simplify_eq/=; congruence.
  - unfold end_step in Hs. destruct (busy s) as [[l|]|]; [|simplify_eq/=; congruence|done].
    destruct (Udp.receive_step _ _ _ _) as [r|] eqn:Hr; simplify_eq/=. unfold Udp.receive_step in Hr.
    rewrite H0 in Hr. destruct l as [data from throws|]; [|done].
    destruct (_ && on_datagram), throws as [[]|]; simplify_eq/=; congruence.
Qed.

End udp_run.

(** C28: A started server stays on: while its loop is not stopped its thread has not left it, whatever
    the callbacks throw; only a stop of the loop, by the server's [stop()] or by others, ends it
    while the receive loop waits; and only a failed receive ends the receive loop. *)
Theorem udp_stays_on o on_datagram s l t :
  reachable (step o on_datagram) (initial Started) s → step o on_datagram s l = Some t →
  Udp.stopped (thread s) = false →
  Udp.tp (thread s) ∈ [Udp.TestStopped; Udp.InRun; Udp.Reporting] ∧
  (Udp.stopped (thread t) = true → l = Loop Udp.Stop ∨ (∃ p, host s = Stopping p) ∨ Udp.receiving (rx s) = false) ∧
  (Udp.receiving (rx s) = true → Udp.receiving (rx t) = false → busy s = Some (Receive Udp.ReceiveError)).
Proof.
  intros Hr Hs H0. destruct (i_thread _ s (inv_reachable _ _ _ s Hr)) as (Ht1 & _ & Ht3). split_and!.
  - destruct (Udp.tp (thread s)); [set_solver..| | |done];
      destruct Ht3 as [?|?]; try congruence; (by left) || by right.
  - by apply (step_stops o on_datagram).
  - by apply (step_deafens o on_datagram s l).
Qed.

(** A datagram arrives; the owner destroys the roots while the callback runs, and before the posted
    abort runs somebody stops the loop: the owner takes the abort back. *)
Definition arriving : list label :=
  [Loop Udp.TGo; Begin (Receive (Udp.Received [Byte.x61] (Net.Endpoint (Net.V4 0) 9) (Some (Returns tt))))].
Definition taking_back : list label :=
  [Phase Udp.PDestroyRoots; Host; Loop Udp.Stop; End].
Definition ending : list label :=
  [Loop (Udp.RunReturns false); Loop Udp.TGo; Host; Host; Host; Host].

Definition runs (ls : list label) : state :=
  default (initial Started) (exec (step Udp.default_options true) (initial Started) ls).

Lemma runs_reachable ls :
  is_Some (exec (step Udp.default_options true) (initial Started) ls) →
  reachable (step Udp.default_options true) (initial Started) (runs ls).
Proof. intros [t Ht]. unfold runs. rewrite Ht. by eapply exec_reachable. Qed.

Lemma udp_shutdown_safe_witness :
  let s := runs (arriving ++ taking_back ++ ending) in
  host s = Destroying ∧ frame s = true ∧ Udp.stopped (thread s) = true ∧ length (Udp.delivered (rx s)) = 1%nat.
Proof.
  intros s. assert (Hr : reachable (step Udp.default_options true) (initial Started) s)
    by (apply runs_reachable; vm_compute; eexists; reflexivity).
  assert (Hh : host s = Destroying) by (vm_compute; reflexivity).
  split; [exact Hh|]. split; [vm_compute; reflexivity|]. split; [|vm_compute; reflexivity].
  destruct (udp_shutdown_safe Udp.default_options true Started s Hr) as [Hd _].
  apply (proj2 (Hd Hh)). vm_compute. reflexivity.
Defined.

Lemma udp_phase_returns_witness :
  let s := runs (arriving ++ taking_back) in
  posted s = true ∧ Z.of_nat (length (ending ++ [Host])) ≤ weight s ∧ host (runs (arriving ++ taking_back ++ ending ++ [Host])) = Outside.
Proof.
  intros s. split; [vm_compute; reflexivity|].
  destruct (udp_phase_returns Udp.default_options true Started s (ending ++ [Host])
    (runs (arriving ++ taking_back ++ ending ++ [Host]))) as [Hl Hst].
  - apply runs_reachable. vm_compute. eexists; reflexivity.
  - vm_compute. reflexivity.
  - reflexivity.
  - split; [exact Hl|]. apply Hst. intros [p| |l|[]|] Hi; try discriminate Hi; try (vm_compute; reflexivity).
    destruct l as [|[]| |[]|]; try discriminate Hi; vm_compute; reflexivity.
Defined.

Lemma udp_stays_on_witness :
  Udp.tp (thread (runs arriving)) ∈ [Udp.TestStopped; Udp.InRun; Udp.Reporting].
Proof.
  eapply (udp_stays_on Udp.default_options true (runs arriving) End).
  - apply runs_reachable. vm_compute. eexists; reflexivity.
  - vm_compute. reflexivity.
  - vm_compute. reflexivity.
Defined.

End UdpRun.
