(* ===== verification/Tls.v ===== *)
(** * reactor_tls.h: TLS configuration

    [configure] and [bind_hostname] as programs that record the calls they make on the
    [ssl::context] and on the [SSL] handle. OpenSSL's and asio's answers are an environment. *)

From S2P Require Import Prelude Prog.

Module Tls.

(** ** The code *)

Record Options := mkOptions {
  certificate : string;
  private_key : string;
  certificate_authority : string;
  system_roots : bool;
  strict : bool }.

Inductive Role := Peer | Server | Client.
#[export] Instance role_eq_dec : EqDecision Role.
Proof. solve_decision. Defined.

(** [asio::ssl::context::options], [SSL_OP_*] and [asio::ssl::verify_mode]: a combination is
    the list of its flags. *)
Inductive context_option := default_workarounds | no_sslv2 | no_sslv3 | no_tlsv1 | no_tlsv1_1.
Inductive ssl_op := SSL_OP_NO_RENEGOTIATION | SSL_OP_NO_TICKET.
Inductive verify_flag := verify_peer | verify_fail_if_no_peer_cert.
Definition verify_none : list verify_flag := [].
Inductive version := TLS1_2_VERSION.
Inductive cache_mode := SSL_SESS_CACHE_OFF.

(** The calls on the context. *)
Inductive call :=
| SetOptions (o : list context_option)
| SetMinProtoVersion (v : version)
| SetMaxEarlyData (n : Z)
| SslSetOptions (o : ssl_op)
| SetMaxCertList (n : Z)
| SetCipherList (l : string)
| SetNumTickets (n : Z)
| SetSessionCacheMode (m : cache_mode)
| UseCertificateChainFile (path : string)
| UsePrivateKeyFile (path : string)
| CheckPrivateKey
| LoadVerifyFile (path : string)
| SetDefaultVerifyPaths
| SetVerifyMode (m : list verify_flag).

(** What they answer: an asio member returns or throws, an OpenSSL function returns a code.
    [configure] makes no call twice, so that one answer for each is all of them. *)
Record env := mkEnv {
  throws : call → option exn;
  code : call → Z }.

(** [std::string::empty]. *)
Definition is_empty (s : string) : bool := bool_decide (s = ""%string).

Section configure.
Context (E : env).

Definition act (c : call) : prog (list call) unit := modify (λ cs, cs ++ [c]).

(** A member of [asio::ssl::context]. *)
Definition member (c : call) : prog (list call) unit :=
  _ ← act c; match throws E c with Some e => throw e | None => mret tt end.

(** [if (f(...) != 1) { throw e; }]. *)
Definition expect (c : call) (e : exn) : prog (list call) unit :=
  _ ← act c; if code E c =? 1 then mret tt else throw e.

(** The guard of [configure]. *)
Definition incomplete (options : Options) (role : Role) : bool :=
  let certificate_required := negb (bool_decide (role = Client)) in
  let roots := system_roots options && negb (bool_decide (role = Peer)) in
  let authority := negb (is_empty (certificate_authority options)) || roots in
  (negb (bool_decide (role = Server)) && negb authority) ||
  (certificate_required && (is_empty (certificate options) || is_empty (private_key options))) ||
  negb (eqb (is_empty (certificate options)) (is_empty (private_key options))) ||
  (system_roots options && bool_decide (role = Peer)).

Definition verify_mode (role : Role) : list verify_flag :=
  match role with
  | Peer => [verify_peer; verify_fail_if_no_peer_cert]
  | Client => [verify_peer]
  | Server => verify_none
  end.

Definition strict_ciphers : string := "ECDHE+AESGCM:ECDHE+CHACHA20:!aNULL".

Definition configure (options : Options) (role : Role) : prog (list call) unit :=
  if incomplete options role then throw (invalid_argument "incomplete TLS configuration")
  else
    _ ← member (SetOptions [default_workarounds; no_sslv2; no_sslv3; no_tlsv1; no_tlsv1_1]);
    _ ← expect (SetMinProtoVersion TLS1_2_VERSION) (runtime_error "TLS minimum version");
    _ ← act (SetMaxEarlyData 0);
    _ ← act (SslSetOptions SSL_OP_NO_RENEGOTIATION);
    _ ← act (SetMaxCertList (64 * 1024));
    _ ← when (strict options)
          (_ ← expect (SetCipherList strict_ciphers) (runtime_error "TLS cipher list");
           _ ← act (SslSetOptions SSL_OP_NO_TICKET);
           _ ← act (SetNumTickets 0);
           act (SetSessionCacheMode SSL_SESS_CACHE_OFF));
    _ ← when (negb (is_empty (certificate options)))
          (_ ← member (UseCertificateChainFile (certificate options));
           _ ← member (UsePrivateKeyFile (private_key options));
           expect CheckPrivateKey (invalid_argument "TLS key mismatch"));
    _ ← when (negb (is_empty (certificate_authority options)))
          (member (LoadVerifyFile (certificate_authority options)));
    _ ← when (system_roots options && negb (bool_decide (role = Peer)))
          (member SetDefaultVerifyPaths);
    member (SetVerifyMode (verify_mode role)).
End configure.

(** *** [bind_hostname] *)

(** The calls on the [SSL] handle, with what OpenSSL reads of their arguments. *)
Inductive ssl_call :=
| Set1IpAsc (ip : string)
| SetTlsextHostName (name : string)
| Set1Host (name : string).

Record ssl_env := mkSslEnv {
  parses : string → bool;           (* [make_address] sets no error *)
  ssl_code : ssl_call → Z }.

Definition nul : Ascii.ascii := Ascii.zero.

(** [hostname.find('\0') != npos]. *)
Fixpoint has_nul (s : string) : bool :=
  match s with
  | EmptyString => false
  | String c s => bool_decide (c = nul) || has_nul s
  end.

(** What is read through [c_str()]: up to the first NUL. *)
Fixpoint c_str (s : string) : string :=
  match s with
  | EmptyString => EmptyString
  | String c s => if bool_decide (c = nul) then EmptyString else String c (c_str s)
  end.

(** A call that gives the code the environment answers. *)
Definition ask (E : ssl_env) (c : ssl_call) : prog (list ssl_call) bool :=
  _ ← modify (λ cs, cs ++ [c]); mret (ssl_code E c =? 1).

Definition bind_hostname (E : ssl_env) (hostname : string) : prog (list ssl_call) unit :=
  if is_empty hostname || has_nul hostname then throw (invalid_argument "TLS hostname")
  else if parses E hostname then
    ok ← ask E (Set1IpAsc (c_str hostname));
    if ok : bool then mret tt else throw (invalid_argument "TLS IP address")
  else
    sni ← ask E (SetTlsextHostName (c_str hostname));
    if sni : bool then
      (* given the size, [set1_host] reads that many bytes *)
      host ← ask E (Set1Host hostname);
      if host : bool then mret tt else throw (invalid_argument "TLS hostname")
    else throw (invalid_argument "TLS hostname").

(** ** What a complete configuration is, and what it asks for *)

Definition complete (o : Options) (r : Role) : Prop :=
  (certificate o = "" ↔ private_key o = "")%string ∧
  match r with
  | Peer => certificate o ≠ ""%string ∧ certificate_authority o ≠ ""%string ∧ system_roots o = false
  | Server => certificate o ≠ ""%string
  | Client => certificate_authority o ≠ ""%string ∨ system_roots o = true
  end.

Definition hardening : list call :=
  [SetOptions [default_workarounds; no_sslv2; no_sslv3; no_tlsv1; no_tlsv1_1];
   SetMinProtoVersion TLS1_2_VERSION; SetMaxEarlyData 0; SslSetOptions SSL_OP_NO_RENEGOTIATION;
   SetMaxCertList 65536].
Definition strictness : list call :=
  [SetCipherList strict_ciphers; SslSetOptions SSL_OP_NO_TICKET; SetNumTickets 0;
   SetSessionCacheMode SSL_SESS_CACHE_OFF].
Definition own_certificate (o : Options) : list call :=
  [UseCertificateChainFile (certificate o); UsePrivateKeyFile (private_key o); CheckPrivateKey].
Definition opt_calls (b : bool) (l : list call) : list call := if b then l else [].

Definition configured (o : Options) (r : Role) : list call :=
  hardening ++ opt_calls (strict o) strictness ++
  opt_calls (negb (is_empty (certificate o))) (own_certificate o) ++
  opt_calls (negb (is_empty (certificate_authority o))) [LoadVerifyFile (certificate_authority o)] ++
  opt_calls (system_roots o && negb (bool_decide (r = Peer))) [SetDefaultVerifyPaths] ++
  [SetVerifyMode (verify_mode r)].

(** How a call fails, and with what. *)
Definition failure (E : env) (c : call) : option exn :=
  let unless_one e := if code E c =? 1 then None else Some e in
  match c with
  | SetMinProtoVersion _ => unless_one (runtime_error "TLS minimum version")
  | SetCipherList _ => unless_one (runtime_error "TLS cipher list")
  | CheckPrivateKey => unless_one (invalid_argument "TLS key mismatch")
  | SetMaxEarlyData _ | SslSetOptions _ | SetMaxCertList _ | SetNumTickets _
  | SetSessionCacheMode _ => None
  | _ => throws E c
  end.

Definition attempt (E : env) (c : call) : prog (list call) unit :=
  _ ← act c; match failure E c with Some e => throw e | None => mret tt end.

(** ** Lemmas *)

Lemma incomplete_spec o r : incomplete o r = false ↔ complete o r.
Proof.
  unfold incomplete, complete, is_empty. destruct o as [c k a sr st]; simpl.
  destruct r; repeat case_bool_decide; destruct sr; simpl; naive_solver.
Qed.

Lemma expect_attempt E c e :
  failure E c = (if code E c =? 1 then None else Some e) → expect E c e ≡ attempt E c.
Proof.
  intros Hf s. unfold expect, attempt, mbind, prog_bind, act, modify. rewrite Hf.
  by destruct (code E c =? 1).
Qed.

Lemma act_attempt E c : failure E c = None → act c ≡ attempt E c.
Proof. intros Hf s. unfold attempt, mbind, prog_bind, act, modify. by rewrite Hf. Qed.

Lemma when_attempts E b m l :
  m ≡ for_each l (attempt E) → when b m ≡ for_each (opt_calls b l) (attempt E).
Proof. by destruct b. Qed.

(** [configure] attempts its list of calls in order. *)
Lemma configure_attempts E o r :
  incomplete o r = false → configure E o r ≡ for_each (configured o r) (attempt E).
Proof.
  intros Hi. unfold configure, configured, hardening. rewrite Hi. cbn [app for_each].
  apply bind_proper; [intros _|done].
  apply bind_proper; [intros _|by apply expect_attempt].
  do 3 (apply bind_proper; [intros _|by apply act_attempt]).
  rewrite for_each_app. apply bind_proper; [intros _|].
  2:{ apply when_attempts. cbn [for_each strictness].
      apply bind_proper; [intros _|by apply expect_attempt].
      do 2 (apply bind_proper; [intros _|by apply act_attempt]).
      rewrite bind_ret_r. by apply act_attempt. }
  rewrite for_each_app. apply bind_proper; [intros _|].
  2:{ apply when_attempts. cbn [for_each own_certificate].
      do 2 (apply bind_proper; [intros _|done]). rewrite bind_ret_r. by apply expect_attempt. }
  do 2 (rewrite for_each_app; apply bind_proper; [intros _|];
    [|apply when_attempts; simpl; by rewrite bind_ret_r]).
  simpl. by rewrite bind_ret_r.
Qed.

(** Attempts stop at the first that fails. *)
Lemma attempts_spec E l cs :
  match for_each l (attempt E) cs with
  | (Returns _, cs') => cs' = cs ++ l ∧ Forall (λ c, failure E c = None) l
  | (Throws e, cs') => ∃ pre c post, l = pre ++ c :: post ∧ cs' = cs ++ pre ++ [c] ∧
      Forall (λ c, failure E c = None) pre ∧ failure E c = Some e
  end.
Proof.
  revert cs. induction l as [|c l IH]; intros cs; simpl; [by rewrite app_nil_r|].
  assert (Ha : attempt E c cs = (match failure E c with Some e => Throws e | None => Returns tt end, cs ++ [c])).
  { unfold attempt, mbind, prog_bind, act, modify. by destruct (failure E c). }
  destruct (failure E c) as [e|] eqn:Hf.
  - rewrite (bind_throws _ _ _ _ _ Ha). by exists [], c, l.
  - rewrite (bind_returns _ _ _ _ _ Ha). specialize (IH (cs ++ [c])).
    destruct (for_each l (attempt E) (cs ++ [c])) as [[[]|e] cs'].
    + destruct IH as [-> Hl]. rewrite <-app_assoc. split; [done|by constructor].
    + destruct IH as (pre & c' & post & -> & -> & Hpre & He). exists (c :: pre), c', post.
      rewrite <-app_assoc. split_and!; try done. by constructor.
Qed.

(** Success, and what it was made of. *)
Lemma configure_ok E o r cs :
  configure E o r [] = (Returns tt, cs) ↔
  complete o r ∧ cs = configured o r ∧ Forall (λ c, failure E c = None) cs.
Proof.
  rewrite <-incomplete_spec. destruct (incomplete o r) eqn:Hi.
  { unfold configure. rewrite Hi. split; [done|]. by intros [? _]. }
  rewrite (configure_attempts E o r Hi []). pose proof (attempts_spec E (configured o r) []) as Ha.
  destruct (for_each _ _ []) as [[[]|e] cs'].
  - destruct Ha as [-> Hall]. split; [by intros [= <-]|]. by intros (_ & -> & _).
  - destruct Ha as (pre & c & post & Heq & -> & _ & Hf). split; [done|].
    intros (_ & -> & Hall). rewrite Heq, Forall_app, Forall_cons in Hall.
    destruct Hall as (_ & Hc & _). congruence.
Qed.

Lemma elem_of_opt b l c : c ∈ opt_calls b l ↔ b = true ∧ c ∈ l.
Proof. destruct b; simpl; [naive_solver|]. split; [by intros ?%elem_of_nil|by intros [? _]]. Qed.

Lemma elem_of_configured c o r :
  c ∈ configured o r ↔
  c ∈ hardening ∨ (strict o = true ∧ c ∈ strictness) ∨
  (certificate o ≠ ""%string ∧ c ∈ own_certificate o) ∨
  (certificate_authority o ≠ ""%string ∧ c = LoadVerifyFile (certificate_authority o)) ∨
  ((system_roots o = true ∧ r ≠ Peer) ∧ c = SetDefaultVerifyPaths) ∨
  c = SetVerifyMode (verify_mode r).
Proof.
  unfold configured. rewrite !elem_of_app, !elem_of_opt, !list_elem_of_singleton.
  rewrite !negb_true_iff, andb_true_iff, negb_true_iff. unfold is_empty.
  rewrite !bool_decide_eq_false. done.
Qed.

Lemma configured_last o r : last (configured o r) = Some (SetVerifyMode (verify_mode r)).
Proof. unfold configured. rewrite !app_assoc. apply last_snoc. Qed.

Lemma prefix_before {A} (h rest pre post : list A) c :
  h ++ rest = pre ++ c :: post → c ∉ h → h `prefix_of` pre.
Proof.
  intros [(k & -> & Hk)|(k & -> & _)]%app_eq_inv Hc; [|by exists k].
  destruct k as [|x k]; [by rewrite app_nil_r|]. injection Hk as <- _.
  destruct Hc. apply elem_of_app. right. by left.
Qed.

(** A certificate given is loaded with its key and checked. *)
Lemma own_certificate_checked o r p :
  UseCertificateChainFile p ∈ configured o r → CheckPrivateKey ∈ configured o r.
Proof.
  rewrite !elem_of_configured. unfold hardening, strictness, own_certificate.
  intros [H|[[_ H]|[[Hc _]|[[_ H]|[[_ H]|H]]]]]; try done; [set_solver|set_solver|].
  right; right; left. split; [done|]. set_solver.
Qed.

Lemma c_str_whole s : has_nul s = false → c_str s = s.
Proof.
  induction s as [|c s IH]; simpl; [done|]. intros [Hc Hs]%orb_false_iff. rewrite Hc. by rewrite IH.
Qed.

(** ** A concrete OpenSSL *)

(** Every call succeeds but, when [mismatch], the key check. *)
Definition openssl (mismatch : bool) : env := mkEnv (λ _, None)
  (λ c, match c with CheckPrivateKey => if mismatch then 0 else 1 | _ => 1 end).
Definition mutual : Options := mkOptions "node.pem" "node.key" "ca.pem" false true.

(** ** Theorems *)

(** Options that are incomplete for the role are refused before anything is set, and
    complete ones never are: a peer needs its certificate, key and authority and no system
    roots; a server its certificate and key; a client an authority or the system roots, and a
    certificate and key together or not at all. *)
Theorem tls_guard_exact E o r cs :
  (¬ complete o r →
     configure E o r cs = (Throws (invalid_argument "incomplete TLS configuration"), cs)) ∧
  (complete o r → ∃ c rest, (configure E o r cs).2 = cs ++ c :: rest).
Proof.
  rewrite <-incomplete_spec, not_false_iff_true. split; intros Hi.
  - unfold configure. by rewrite Hi.
  - rewrite (configure_attempts E o r Hi cs). pose proof (attempts_spec E (configured o r) cs) as Ha.
    destruct (for_each _ _ cs) as [[[]|e] cs']; simpl.
    + destruct Ha as [-> _]. unfold configured, hardening. simpl. eauto.
    + destruct Ha as (pre & c & post & _ & -> & _). destruct pre; simpl; eauto.
Qed.

(** C31: a configuration succeeds exactly when it is complete and every call it asks for does;
    the context has then been given the protocol floor, the hardening, the strict options when
    asked, the certificate and its key, checked against each other, the authorities and the
    verification mode of the role, in this order and nothing else. *)
Theorem tls_configured_exact E o r cs :
  configure E o r [] = (Returns tt, cs) ↔
  complete o r ∧ cs = configured o r ∧ Forall (λ c, failure E c = None) cs.
Proof. apply configure_ok. Qed.

(** A configuration that fails after the guard stopped at the first call that failed, with
    that call's error: every call before it succeeded, in the order above, and no later one was
    made. *)
Theorem tls_failure_stops E o r e cs :
  complete o r → configure E o r [] = (Throws e, cs) →
  ∃ pre c, cs = pre ++ [c] ∧ cs `prefix_of` configured o r ∧
    Forall (λ c, failure E c = None) pre ∧ failure E c = Some e ∧
    (e = invalid_argument "TLS key mismatch" → (∀ c', throws E c' ≠ Some e) → c = CheckPrivateKey).
Proof.
  rewrite <-incomplete_spec. intros Hi. rewrite (configure_attempts E o r Hi []).
  pose proof (attempts_spec E (configured o r) []) as Ha.
  intros Hc. rewrite Hc in Ha. destruct Ha as (pre & c & post & -> & -> & Hpre & Hf).
  exists pre, c. split_and!; try done.
  - exists post. simpl. by rewrite <-app_assoc.
  - intros -> Hno. destruct c; simpl in Hf; try (destruct (code E _ =? 1)); try done; exfalso; by eapply Hno.
Qed.

Lemma tls_failure_stops_witness :
  ∃ cs, configure (openssl true) mutual Peer [] = (Throws (invalid_argument "TLS key mismatch"), cs) ∧
    cs `prefix_of` configured mutual Peer.
Proof.
  eexists. split; [by vm_compute|].
  edestruct (tls_failure_stops (openssl true) mutual Peer (invalid_argument "TLS key mismatch"))
    as (pre & c & _ & H & _); [by apply incomplete_spec|by vm_compute|exact H].
Defined.

(** C30: what a successful configuration guarantees: the protocol floor, the renegotiation ban,
    the 0-RTT ban and the certificate-list cap are in place before any certificate or authority
    is loaded; an end that verifies its peer has something to verify it against; only a server
    does not verify, and a peer also insists on a certificate; and a certificate in use had its
    key checked. *)
Theorem tls_guarantees E o r cs :
  configure E o r [] = (Returns tt, cs) →
  (∀ pre c post, cs = pre ++ c :: post → c ∉ hardening → hardening `prefix_of` pre) ∧
  (∃ m, last cs = Some (SetVerifyMode m) ∧ (verify_peer ∈ m ↔ r ≠ Server) ∧
     (verify_fail_if_no_peer_cert ∈ m ↔ r = Peer) ∧
     (verify_peer ∈ m → SetDefaultVerifyPaths ∈ cs ∨ ∃ a, a ≠ ""%string ∧ LoadVerifyFile a ∈ cs)) ∧
  (∀ p, UseCertificateChainFile p ∈ cs → CheckPrivateKey ∈ cs ∧ code E CheckPrivateKey = 1) ∧
  (r ≠ Client → UseCertificateChainFile (certificate o) ∈ cs) ∧
  (strict o = true → ∀ c, c ∈ strictness → c ∈ cs).
Proof.
  intros (Hok & -> & Hall)%configure_ok. split_and!.
  - intros pre c post Heq. by apply (prefix_before _ _ _ _ _ Heq).
  - exists (verify_mode r). split_and!; [apply configured_last|destruct r; set_solver..|].
    intros Hv. rewrite !elem_of_configured. destruct Hok as [_ Hok], r; [| |destruct Hok as [Ha|Hs]].
    + right. exists (certificate_authority o). destruct Hok as (_ & Ha & _).
      rewrite elem_of_configured. naive_solver.
    + by apply elem_of_nil in Hv.
    + right. exists (certificate_authority o). rewrite elem_of_configured. naive_solver.
    + left. naive_solver.
  - intros p Hp%own_certificate_checked. split; [done|].
    pose proof (Forall_elem _ _ _ Hall Hp) as Hf. simpl in Hf.
    destruct (Z.eqb_spec (code E CheckPrivateKey) 1); done.
  - intros Hr. rewrite elem_of_configured. right; right; left. unfold own_certificate.
    destruct Hok as [_ Hok], r; [|..|done]; (split; [naive_solver|set_solver]).
  - intros Hs c Hc. rewrite elem_of_configured. auto.
Qed.

Lemma tls_guarantees_witness :
  ∃ cs, configure (openssl false) mutual Peer [] = (Returns tt, cs) ∧ CheckPrivateKey ∈ cs ∧
    UseCertificateChainFile "node.pem" ∈ cs.
Proof.
  eexists. split; [by vm_compute|].
  edestruct (tls_guarantees (openssl false) mutual Peer) as (_ & _ & Hk & Hc & _); [by vm_compute|].
  split; [eapply Hk, Hc; done|by apply Hc].
Defined.

(** C32: a host name is bound whole or not at all: an empty one or one with a NUL is refused
    before any call; an address literal is set as the address to verify; any other name is sent
    as SNI and set as the name to verify, both the very string asked for. Success means every
    call answered 1; a failed SNI leaves the name unset, and each failure has its error. *)
Theorem hostname_bound_whole E h :
  (h = ""%string ∨ has_nul h = true →
     bind_hostname E h [] = (Throws (invalid_argument "TLS hostname"), [])) ∧
  (h ≠ ""%string → has_nul h = false →
     bind_hostname E h [] =
       if parses E h then
         (if ssl_code E (Set1IpAsc h) =? 1 then Returns tt
          else Throws (invalid_argument "TLS IP address"), [Set1IpAsc h])
       else if ssl_code E (SetTlsextHostName h) =? 1 then
         (if ssl_code E (Set1Host h) =? 1 then Returns tt
          else Throws (invalid_argument "TLS hostname"), [SetTlsextHostName h; Set1Host h])
       else (Throws (invalid_argument "TLS hostname"), [SetTlsextHostName h])).
Proof.
  unfold bind_hostname, is_empty. split.
  - intros [->|Hn]; [done|]. by rewrite Hn, orb_true_r.
  - intros He Hn. rewrite bool_decide_false, Hn, c_str_whole by done; simpl.
    unfold ask, mbind, prog_bind, modify. simpl.
    destruct (parses E h); [by destruct (_ =? 1)|].
    destruct (ssl_code E (SetTlsextHostName h) =? 1); simpl; [|done].
    by destruct (ssl_code E (Set1Host h) =? 1).
Qed.

End Tls.
