(* ===== verification/Echo.v ===== *)
(** * examples/echo_server.cc: the session of the example server, and its [main]

    The one session protocol under src/: a read that takes the session's token and a write that
    does not, over one buffer; the port [main] takes from its argument; and the order in which
    it starts the threads and blocks the signals it waits for. *)

From Stdlib Require Import Ascii.
From stdpp Require Import pretty.
From S2P Require Import Prelude Net.

(** ** The session *)

Module Echo.

(** [char buf[4096]]. *)
Definition buffer_size : nat := 4096.

Inductive epc :=
| Reading                            (* suspended on [async_read_some], which takes the token *)
| Writing (n sent : nat)             (* suspended on [async_write] of [n] bytes, [sent] are out *)
| Finished (write_error : bool).

Record state := mkState {
  pc : epc;
  buf : list Byte.byte;
  stop : bool;                       (* [context.stop] was requested *)
  shutdown_send : bool;
  read : list Byte.byte;             (* all that was read, oldest first *)
  written : list Byte.byte }.        (* all that was put on the connection *)

(** What the socket answers. A read gives at most the buffer's size, and nothing with an error;
    [async_write] sends in pieces and succeeds when all is out. *)
Inductive label :=
| RequestStop
| ReadDone (error : error_code) (data : list Byte.byte)
| WriteSome (k : nat)
| WriteDone (error : error_code).

(** [asio::buffer(buf)] receives [data]. *)
Definition fill (buf data : list Byte.byte) : list Byte.byte := data ++ drop (length data) buf.

(** [k] bytes of the buffer from [off]. *)
Definition slice (buf : list Byte.byte) (off k : nat) : list Byte.byte := take k (drop off buf).

(** After the loop. *)
Definition finish (s : state) (write_error : bool) : state :=
  mkState (Finished write_error) (buf s) (stop s) true (read s) (written s).

(** For a buffer of any [capacity]. *)
Definition step (capacity : nat) (s : state) (l : label) : option state :=
  match l, pc s with
  | RequestStop, p => Some (mkState p (buf s) true (shutdown_send s) (read s) (written s))
  | ReadDone error data, Reading =>
      if bool_decide (length data ≤ capacity)%nat && (negb (failed error) || bool_decide (data = []))
      then
        let n := length data in
        let s := mkState (Writing n 0) (fill (buf s) data) (stop s) (shutdown_send s)
                   (read s ++ data) (written s) in
        Some (if failed error || bool_decide (n = 0%nat) then finish s false else s)
      else None
  | WriteSome k, Writing n sent =>
      if bool_decide (0 < k ∧ sent + k ≤ n)%nat
      then Some (mkState (Writing n (sent + k)) (buf s) (stop s) (shutdown_send s) (read s)
                   (written s ++ slice (buf s) sent k))
      else None
  | WriteDone error, Writing n sent =>
      if failed error || bool_decide (sent = n)
      then Some (if failed error then finish s true
                 else mkState Reading (buf s) (stop s) (shutdown_send s) (read s) (written s))
      else None
  | _, _ => None
  end.

Definition initial (buf : list Byte.byte) : state := mkState Reading buf false false [] [].

Section echo.
Context (capacity : nat).

(** What is read and not yet written is what the write under way still has to send. *)
Definition pending (s : state) : list Byte.byte :=
  match pc s with Writing n sent => slice (buf s) sent (n - sent) | _ => [] end.

Record echo_inv (s : state) : Prop := {
  e_buf : length (buf s) = capacity;
  e_write : match pc s with Writing n sent => (sent ≤ n ≤ capacity)%nat | _ => True end;
  e_shutdown : shutdown_send s = match pc s with Finished _ => true | _ => false end;
  e_bytes : match pc s with
            | Finished true => ∃ k lost, read s = written s ++ lost ∧ length lost = k ∧ (k ≤ capacity)%nat
            | _ => read s = written s ++ pending s
            end }.

Lemma slice_length b off k : (off + k ≤ length b)%nat → length (slice b off k) = k.
Proof. intros Hb. unfold slice. rewrite length_take, length_drop. lia. Qed.

Lemma slice_split b off k n :
  (off + k ≤ n)%nat → slice b off k ++ slice b (off + k) (n - (off + k)) = slice b off (n - off).
Proof.
  intros Hk. unfold slice. rewrite <-(drop_drop b k off).
  replace (n - off)%nat with (k + (n - (off + k)))%nat by lia.
  by rewrite take_take_drop.
Qed.

Lemma fill_spec b data :
  (length data ≤ length b)%nat →
  length (fill b data) = length b ∧ slice (fill b data) 0 (length data) = data.
Proof.
  intros Hl. unfold fill, slice. split.
  - rewrite length_app, length_drop. lia.
  - rewrite drop_0. by apply take_app_length.
Qed.

Lemma echo_inv_step s l s' : echo_inv s → step capacity s l = Some s' → echo_inv s'.
Proof.
  intros [Hb Hw Hsh Hby] Hs. unfold step in Hs. destruct l as [|e data|k|e].
  - simplify_eq. by split.
  - destruct (pc s) eqn:Hpc; try done. case_match eqn:Hg; simplify_eq. reflect_bools.
    apply bool_decide_eq_true in H. unfold pending in Hby; rewrite Hpc, app_nil_r in Hby.
    destruct (fill_spec (buf s) data) as [Hf1 Hf2]; [by rewrite Hb|].
    destruct (failed e || bool_decide (length data = 0%nat)) eqn:Hend.
    + assert (data = []) as ->.
      { apply orb_true_iff in Hend as [He|He].
        - rewrite He in H0. by apply bool_decide_eq_true in H0.
        - apply bool_decide_eq_true in He. by apply nil_length_inv. }
      split; simpl; [by rewrite Hf1|done|done|]. unfold pending; simpl. by rewrite Hby.
    + split; simpl; [by rewrite Hf1|lia|done|]. unfold pending; simpl.
      by rewrite Nat.sub_0_r, Hf2, Hby.
  - destruct (pc s) as [|n j|] eqn:Hpc; try done. case_match eqn:Hg; simplify_eq.
    apply bool_decide_eq_true in Hg as [H1 H2]. split; simpl; [done|lia|done|].
    unfold pending in *; rewrite Hpc in Hby; simpl. by rewrite Hby, <-app_assoc, slice_split.
  - destruct (pc s) as [|n j|] eqn:Hpc; try done. unfold pending in Hby; rewrite Hpc in Hby.
    case_match eqn:Hg; simplify_eq. destruct (failed e); simpl in *.
    + split; simpl; try done. exists (n - j)%nat, (slice (buf s) j (n - j)).
      split; [done|]. split; [|lia]. apply slice_length. lia.
    + apply bool_decide_eq_true in Hg as ->. split; simpl; try done.
      unfold pending; simpl. rewrite Hby. unfold slice. by rewrite Nat.sub_diag, take_0.
Qed.

Lemma echo_inv_reachable b s :
  length b = capacity → reachable (step capacity) (initial b) s → echo_inv s.
Proof. intros Hb. revert s. apply invariant_rule; [by split|apply echo_inv_step]. Qed.

Lemma echo_lost b s :
  length b = capacity → reachable (step capacity) (initial b) s →
  ∃ lost, read s = written s ++ lost ∧ (length lost ≤ capacity)%nat ∧
    (pc s = Reading ∨ pc s = Finished false → lost = []).
Proof.
  intros Hb Hr. destruct (echo_inv_reachable b s Hb Hr) as [Hl Hw _ Hby]. unfold pending in Hby.
  destruct (pc s) as [|n j|[]].
  - exists []. split_and!; try done. simpl; lia.
  - exists (slice (buf s) j (n - j)). split_and!; [done|rewrite slice_length; lia|by intros [?|?]].
  - destruct Hby as (k & lost & Hby & <- & Hk). exists lost. split_and!; try done. by intros [?|?].
  - exists []. split_and!; try done. simpl; lia.
Qed.

(** What the client gets back is what it sent: in every state the bytes written are the first
    of those read, all of them while the session reads and when it has ended, unless a write
    failed, and never more than the buffer's size behind; sending is shut down exactly when
    the session has ended. *)
Theorem echo_returns_input b s :
  length b = capacity → reachable (step capacity) (initial b) s →
  ∃ lost, read s = written s ++ lost ∧ (length lost ≤ capacity)%nat ∧
    (pc s = Reading ∨ pc s = Finished false → lost = []) ∧
    (shutdown_send s = true ↔ ∃ x, pc s = Finished x).
Proof.
  intros Hb Hr. destruct (echo_lost b s Hb Hr) as (lost & Hl & Hc & Hn). exists lost. split_and!; try done.
  rewrite (e_shutdown s (echo_inv_reachable b s Hb Hr)).
  destruct (pc s) as [| |x]; (split; [try done|by intros [? ?]]). by exists x.
Qed.

(** When the session ends: at a read that fails or finds the end of the stream, and at a write that
    fails, and at nothing else; a request to stop by itself moves neither, and the read it
    cancels ends the session. *)
Theorem echo_ends_when s l s' :
  step capacity s l = Some s' → (∀ x, pc s ≠ Finished x) →
  ((∃ x, pc s' = Finished x) ↔
    (∃ e data, l = ReadDone e data ∧ (failed e = true ∨ data = [])) ∨
    (∃ e, l = WriteDone e ∧ failed e = true)) ∧
  (pc s = Reading → ∃ t, step capacity s (ReadDone (Net.sys 125) []) = Some t ∧ pc t = Finished false).
Proof.
  intros Hs Hn. split.
  - unfold step in Hs. destruct l as [|e data|k|e].
    + simplify_eq/=. split; [intros [x Hx]; by destruct (Hn x)|naive_solver].
    + destruct (pc s); try done. case_match eqn:Hg; simplify_eq. reflect_bools.
      destruct (failed e) eqn:He; simpl in *; [split; [intros _|]; eauto 10|].
      destruct (bool_decide_reflect (length data = 0%nat)) as [Hz|Hz]; simpl.
      * apply nil_length_inv in Hz as ->. split; [intros _|]; eauto 10.
      * split; [by intros [? ?]|]. intros [(e' & d & [= <- <-] & [?| ->])|(e' & [=] & _)]; [congruence|done].
    + destruct (pc s); try done. case_match; simplify_eq/=. split; [by intros [? ?]|naive_solver].
    + destruct (pc s); try done. case_match eqn:Hg; simplify_eq. destruct (failed e) eqn:He; simpl.
      * split; [intros _; right|]; eauto.
      * split; [by intros [? ?]|]. intros [(e' & d & [=] & _)|(e' & [= <-] & ?)]; congruence.
  - intros Hp. unfold step. rewrite Hp. simpl. eauto.
Qed.

End echo.

(** Three bytes, echoed in two pieces, then the peer stops reading in the middle of two more. *)
Definition blank : list Byte.byte := replicate buffer_size Byte.x00.
Definition talk : list label :=
  [ReadDone no_error [Byte.x61; Byte.x62; Byte.x63]; WriteSome 2; RequestStop; WriteSome 1;
   WriteDone no_error; ReadDone no_error [Byte.x64; Byte.x65]; WriteSome 1; WriteDone (Net.sys 104)].
Definition talked : state := default (initial blank) (exec (step buffer_size) (initial blank) talk).

Lemma echo_returns_input_witness :
  ∃ lost, read talked = written talked ++ lost ∧ (length lost ≤ buffer_size)%nat.
Proof.
  destruct (echo_returns_input buffer_size blank talked) as (lost & H1 & H2 & _).
  - reflexivity.
  - apply (exec_reachable _ _ talk). vm_compute. reflexivity.
  - exists lost. split; [exact H1|exact H2].
Defined.

Lemma echo_ends_when_witness :
  ∃ t, step buffer_size (initial blank) (ReadDone (Net.sys 125) []) = Some t ∧ pc t = Finished false.
Proof.
  eapply (echo_ends_when buffer_size (initial blank) RequestStop).
  - reflexivity.
  - discriminate.
  - reflexivity.
Defined.

End Echo.

(** ** main *)

Module Main.

(** [std::isspace] and the digits. *)
Definition is_space (c : ascii) : bool :=
  let n := N_of_ascii c in ((n =? 32) || ((9 <=? n) && (n <=? 13)))%N.
Definition digit (c : ascii) : option Z :=
  let n := Z.of_N (N_of_ascii c) in
  if (48 <=? n) && (n <=? 57) then Some (n - 48) else None.

Fixpoint digits (s : string) (acc : Z) : Z :=
  match s with
  | EmptyString => acc
  | String c s => match digit c with Some d => digits s (acc * 10 + d) | None => acc end
  end.

Fixpoint skip_space (s : string) : string :=
  match s with
  | String c s' => if is_space c then skip_space s' else s
  | EmptyString => s
  end.

(** [std::atoi]: leading space, a sign, digits; undefined for a number that is no [int]. *)
Definition atoi (s : string) : option Z :=
  let v := match skip_space s with
           | String "-" s => - digits s 0
           | String "+" s => digits s 0
           | s => digits s 0
           end in
  if (- 2 ^ 31 <=? v) && (v <? 2 ^ 31) then Some v else None.

(** The port: the argument as an [unsigned short], or 9000. *)
Definition port (arg : option string) : option Z :=
  match arg with Some s => (λ v, v `mod` 2 ^ 16) <$> atoi s | None => Some 9000 end.

Lemma digits_char x s acc :
  (x < 10)%N → digits (String (pretty_N_char x) s) acc = digits s (acc * 10 + Z.of_N x).
Proof.
  intros Hx. assert (digit (pretty_N_char x) = Some (Z.of_N x)) as Hd; [|simpl; by rewrite Hd].
  destruct x as [|x]; [done|]. repeat (destruct x as [x|x|]; try lia; try done).
Qed.

Lemma digits_go x s : digits (pretty_N_go x s) 0 = digits s (Z.of_N x).
Proof.
  revert s. induction (N.lt_wf_0 x) as [x _ IH]; intros s.
  destruct (decide (x = 0)%N) as [->|Hx]; [by rewrite pretty_N_go_0|].
  rewrite pretty_N_go_step by lia. rewrite IH by (apply N.div_lt; lia).
  rewrite digits_char by (apply N.mod_lt; lia). f_equal.
  rewrite N2Z.inj_div, N2Z.inj_mod. pose proof (Z.div_mod (Z.of_N x) 10). lia.
Qed.

(** A numeral starts with a digit. *)
Lemma pretty_head (x : N) : ∃ d s, (d < 10)%N ∧ pretty x = String (pretty_N_char d) s.
Proof.
  unfold pretty, pretty_N. destruct (decide (x = 0)%N) as [->|Hx]; [by exists 0%N, EmptyString|].
  revert Hx. generalize EmptyString. induction (N.lt_wf_0 x) as [x _ IH]; intros s Hx.
  rewrite pretty_N_go_step by lia. destruct (decide (x `div` 10 = 0)%N) as [H0|H0].
  - rewrite H0, pretty_N_go_0. eexists _, _. split; [|reflexivity]. apply N.mod_lt. lia.
  - apply IH; [apply N.div_lt; lia|done].
Qed.

Lemma skip_digit d s :
  (d < 10)%N → match skip_space (String (pretty_N_char d) s) with
               | String "-" s => - digits s 0 | String "+" s => digits s 0 | s => digits s 0
               end = digits (String (pretty_N_char d) s) 0.
Proof. intros Hd. destruct d as [|d]; [done|]. repeat (destruct d as [d|d|]; try lia; try done). Qed.



(** *** Signals *)

Inductive mpc :=
| Begin                              (* before [server.start] *)
| Started                            (* the reactors' threads run *)
| Waiting                            (* SIGINT and SIGTERM blocked, in [sigwait] *)
| Stopping                           (* [server.stop()] *)
| Returned
| Killed.                            (* the default action of the signal *)

(** [true]: the thread blocks SIGINT and SIGTERM. *)
Record state := mkState { pc : mpc; main_mask : bool; threads : list bool; stop_called : bool }.

(** [main] runs on, or a signal for the process goes to a thread: to [main], or to one of the
    reactors'. Any thread may get it that waits for it or does not block it. *)
Inductive label := Go | SignalMain | SignalThread (i : nat).

Definition alive (p : mpc) : bool := match p with Returned | Killed => false | _ => true end.

Definition step (s : state) (l : label) : option state :=
  match l with
  | Go =>
      match pc s with
      | Begin => Some (mkState Started (main_mask s) (replicate 4 (main_mask s)) false)
      | Started => Some (mkState Waiting true (threads s) false)
      | Stopping => Some (mkState Returned (main_mask s) [] (stop_called s))
      | _ => None
      end
  | SignalMain =>
      match pc s with
      | Waiting => Some (mkState Stopping (main_mask s) (threads s) true)
      | p => if alive p && negb (main_mask s)
             then Some (mkState Killed (main_mask s) (threads s) (stop_called s)) else None
      end
  | SignalThread i =>
      mask ← threads s !! i;
      if alive (pc s) && negb mask
      then Some (mkState Killed (main_mask s) (threads s) (stop_called s)) else None
  end.

Definition initial : state := mkState Begin false [] false.

(** The threads are started before the signals are blocked. *)
Definition main_inv (s : state) : Prop :=
  match pc s with
  | Begin => main_mask s = false ∧ threads s = [] ∧ stop_called s = false
  | Started => threads s = replicate 4 false ∧ stop_called s = false
  | Waiting => threads s = replicate 4 false ∧ stop_called s = false ∧ main_mask s = true
  | Stopping => threads s = replicate 4 false ∧ stop_called s = true ∧ main_mask s = true
  | Returned => stop_called s = true
  | Killed => True
  end.

Lemma main_inv_step s l s' : main_inv s → step s l = Some s' → main_inv s'.
Proof.
  unfold main_inv. intros Hi Hs. destruct l; simpl in Hs.
  - destruct (pc s); simplify_eq/=; naive_solver congruence.
  - destruct (pc s); simpl in Hs; try case_match; simplify_eq/=; naive_solver.
  - destruct (threads s !! i); simplify_eq/=. case_match; by simplify_eq/=.
Qed.

(** A signal that [main] waits for reaches [server.stop()] only when the system gives it to
    [main]: each of the four reactor threads was started before the signals were blocked and
    may get it instead, which ends the process at once with the server not stopped. A return
    from [main] always follows [server.stop()]. *)
Theorem signal_needs_main s :
  reachable step initial s →
  (pc s = Returned → stop_called s = true) ∧
  (pc s = Waiting →
     (∃ t, step s SignalMain = Some t ∧ pc t = Stopping ∧ stop_called t = true) ∧
     ∀ i, (i < 4)%nat → ∃ t, step s (SignalThread i) = Some t ∧ pc t = Killed ∧
       stop_called t = false ∧ ∀ l, step t l = None).
Proof.
  intros Hr. assert (Hi : main_inv s) by (revert s Hr; by apply invariant_rule; [|apply main_inv_step]).
  unfold main_inv in Hi. split; [intros Hp; by rewrite Hp in Hi|]. intros Hp. rewrite Hp in Hi.
  destruct Hi as (Ht & Hc & Hm). split; [simpl; rewrite Hp; eauto|].
  intros i Hl. simpl. rewrite Ht, lookup_replicate_2, Hp by done. simpl.
  eexists. split; [reflexivity|]. split_and!; try done.
  intros [| |j]; try done. simpl. by destruct (_ !! j).
Qed.

Definition waiting : state := default initial (exec step initial [Go; Go]).

Lemma signal_needs_main_witness :
  ∃ t, step waiting (SignalThread 3) = Some t ∧ pc t = Killed ∧ stop_called t = false.
Proof.
  destruct (signal_needs_main waiting) as [_ Hw].
  - apply (exec_reachable _ _ [Go; Go]). vm_compute. reflexivity.
  - destruct (proj2 (Hw eq_refl) 3%nat) as (t & Ht & Hk & Hc & _); [lia|].
    exists t. split; [exact Ht|]. split; [exact Hk|exact Hc].
Defined.

End Main.
