(* ===== verification/Bench.v ===== *)
(** * benchmarks/echo_bench.cc: the load the benchmark puts on an echo server

    One client thread and the session that serves it, with the two byte streams between them;
    the sums [run_load] makes of the clients; and what [main] returns. *)

From Stdlib Require Import Strings.Byte.
From S2P Require Import Prelude Net Echo.

Module Bench.

#[export] Instance byte_eq_decision : EqDecision Byte.byte := Byte.byte_eq_dec.

(** ** The code *)

(** [char buf[256]] of [echo] and [plain_echo]. *)
Definition buffer_size : nat := 256.

(** [plain_echo] takes no token: nothing asks it to stop. *)
Definition plain_echo (s : Echo.state) (l : Echo.label) : option Echo.state :=
  match l with Echo.RequestStop => None | _ => Echo.step buffer_size s l end.

(** The value of client [c]'s [i]-th round trip, in [std::uint32_t] arithmetic, and its bytes
    in memory, least significant first. *)
Definition value (c i : Z) : Z := wrap32 (wrap32 (wrap32 c * 1000003) + wrap32 i).
Definition byte_of (z : Z) : Byte.byte := default Byte.x00 (Byte.of_N (Z.to_N (z `mod` 256))).
Definition bytes (v : Z) : list Byte.byte := (λ k, byte_of (v `div` 256 ^ k)) <$> [0; 1; 2; 3].

Inductive cpc :=
| Sending (i : nat)
| Receiving (i : nat)
| Done.

(** [trips] and [wrong] are the client's [n] and [wrong]; [up] and [down] are the bytes on the
    way to the server and back. [sent], [received] and [short] are kept for the statements:
    all bytes that went each way, and whether a [recv] returned less than a whole value. *)
Record state := mkState {
  pc : cpc;
  trips : Z;
  wrong : Z;
  session : Echo.state;
  up : list Byte.byte;
  down : list Byte.byte;
  sent : list Byte.byte;
  received : list Byte.byte;
  short : bool }.

Inductive label :=
| Send (k : nat)                     (* [send] takes [k] bytes, none when it fails *)
| Recv (r : nat)                     (* [recv] returns [r] bytes, none at an end or a failure *)
| Serve (l : Echo.label).            (* the session *)

(** The top of the loop. *)
Definition next (ops i : nat) : cpc := if decide (i < ops)%nat then Sending i else Done.

Definition step (c : Z) (ops : nat) (s : state) (l : label) : option state :=
  match l, pc s with
  | Send k, Sending i =>
      let data := take k (bytes (value c (Z.of_nat i))) in
      if bool_decide (k ≤ 4)%nat then
        Some (mkState (if bool_decide (k = 4%nat) then Receiving i else Done) (trips s) (wrong s)
                (session s) (up s ++ data) (down s) (sent s ++ data) (received s) (short s))
      else None
  | Recv r, Receiving i =>
      if bool_decide (r ≤ 4 ∧ r ≤ length (down s))%nat then
        let buf := take r (down s) in
        Some (if bool_decide (r = 0%nat)
              then mkState Done (trips s) (wrong s) (session s) (up s) (down s) (sent s) (received s)
                     (short s)
              else mkState (next ops (S i)) (trips s + 1)
                     (if negb (bool_decide (r = 4%nat)) ||
                         negb (bool_decide (buf = bytes (value c (Z.of_nat i))))
                      then wrong s + 1 else wrong s)
                     (session s) (up s) (drop r (down s)) (sent s) (received s ++ buf)
                     (short s || negb (bool_decide (r = 4%nat))))
      else None
  | Serve l, p =>
      if match l with Echo.ReadDone _ data => bool_decide (take (length data) (up s) = data) | _ => true end
      then
        e ← Echo.step buffer_size (session s) l;
        Some (mkState p (trips s) (wrong s) e
                (match l with Echo.ReadDone _ data => drop (length data) (up s) | _ => up s end)
                (down s ++ drop (length (Echo.written (session s))) (Echo.written e))
                (sent s) (received s) (short s))
      else None
  | _, _ => None
  end.

Definition initial (ops : nat) (buf : list Byte.byte) : state :=
  mkState (next ops 0) 0 0 (Echo.initial buf) [] [] [] [] false.

(** What [run_load] makes of each client's [n] and [wrong], and [main] of the loads. *)
Record Load := mkLoad { load_total : Z; load_bad : Z }.
Definition run_load (clients : list (Z * Z)) : Load :=
  mkLoad (total fst clients) (total snd clients).
Definition main (plain : bool) (clients ops : Z) (load asio_load : Load) : Z :=
  let wanted := clients * ops in
  if negb (load_bad load =? 0) then 1
  else if plain && (negb (load_bad asio_load =? 0) || negb (load_total asio_load =? wanted)
                    || negb (load_total load =? wanted))
  then 1 else 0.

(** ** The values *)

Lemma byte_of_inj x y : byte_of x = byte_of y → x `mod` 256 = y `mod` 256.
Proof.
  assert (Hto : ∀ z, Z.of_N (Byte.to_N (byte_of z)) = z `mod` 256).
  { intros z. unfold byte_of. pose proof (Z.mod_pos_bound z 256 ltac:(lia)) as Hz.
    destruct (Byte.of_N (Z.to_N (z `mod` 256))) as [b|] eqn:Hb; simpl.
    - apply Byte.to_of_N in Hb. lia.
    - apply Byte.of_N_None_iff in Hb. lia. }
  intros Heq. by rewrite <-(Hto x), <-(Hto y), Heq.
Qed.

Lemma bytes_inj v w : 0 ≤ v < 2 ^ 32 → 0 ≤ w < 2 ^ 32 → bytes v = bytes w → v = w.
Proof.
  intros Hv Hw Heq. unfold bytes in Heq. cbn [fmap list_fmap] in Heq.
  injection Heq as H0 H1 H2 H3. apply byte_of_inj in H0, H1, H2, H3.
  change (256 ^ 0) with 1 in *. change (256 ^ 1) with 256 in *.
  change (256 ^ 2) with 65536 in *. change (256 ^ 3) with 16777216 in *.
  Z.to_euclidean_division_equations. lia.
Qed.

Lemma value_range c i : 0 ≤ value c i < 2 ^ 32.
Proof. apply Z.mod_pos_bound. lia. Qed.

(** Within the sizes the benchmark is run at no value wraps, and no two are the same. *)
Lemma value_inj c i c' i' :
  0 ≤ c → 0 ≤ c' → 0 ≤ i < 1000003 → 0 ≤ i' < 1000003 →
  c * 1000003 + i < 2 ^ 32 → c' * 1000003 + i' < 2 ^ 32 → value c i = value c' i' → c = c' ∧ i = i'.
Proof.
  assert (Hv : ∀ c i, 0 ≤ c → 0 ≤ i → c * 1000003 + i < 2 ^ 32 → value c i = c * 1000003 + i).
  { intros d j Hd Hj Hlt. unfold value. rewrite (wrap32_small d), (wrap32_small j) by lia.
    by rewrite (wrap32_small (d * 1000003)), wrap32_small by lia. }
  intros. rewrite !Hv in * by lia. lia.
Qed.

(** ** The streams *)

(** The bytes of the first [k] values of client [c]. *)
Fixpoint stream (c : Z) (k : nat) : list Byte.byte :=
  match k with 0%nat => [] | S k => stream c k ++ bytes (value c (Z.of_nat k)) end.

Section client.
Context (c : Z) (ops : nat).

(** Where the client is in the streams, as long as no [recv] was short. *)
Definition in_step (s : state) : Prop :=
  match pc s with
  | Sending i => (i < ops)%nat ∧ trips s = Z.of_nat i ∧ sent s = stream c i ∧ received s = stream c i
  | Receiving i => (i < ops)%nat ∧ trips s = Z.of_nat i ∧ sent s = stream c (S i) ∧ received s = stream c i
  | Done => trips s ≤ Z.of_nat ops ∧ ∃ k, trips s = Z.of_nat k ∧ received s = stream c k
  end.

Record client_inv (s : state) : Prop := {
  c_echo : Echo.echo_inv buffer_size (session s);
  c_up : sent s = Echo.read (session s) ++ up s;
  c_down : Echo.written (session s) = received s ++ down s;
  c_step : short s = false → wrong s = 0 ∧ in_step s }.

Lemma echo_prefix e : Echo.echo_inv buffer_size e → ∃ lost, Echo.read e = Echo.written e ++ lost.
Proof. intros [_ _ _ Hb]. destruct (Echo.pc e) as [|? ?|[]]; naive_solver. Qed.

(** A step of the session moves bytes from one stream to the other. *)
Lemma session_moves e l e' :
  Echo.step buffer_size e l = Some e' →
  Echo.read e' = Echo.read e ++ match l with Echo.ReadDone _ data => data | _ => [] end ∧
  ∃ w, Echo.written e' = Echo.written e ++ w.
Proof.
  intros Hs. unfold Echo.step in Hs. destruct l, (Echo.pc e); simplify_eq/=; repeat case_match; simplify_eq/=;
    rewrite ?app_nil_r; (split; [done|]); try (by exists []; rewrite app_nil_r); by eexists.
Qed.

(** What comes back is what was sent. *)
Lemma reply_is_value s i r :
  client_inv s → short s = false → pc s = Receiving i → (r ≤ length (down s))%nat → r = 4%nat →
  take r (down s) = bytes (value c (Z.of_nat i)).
Proof.
  intros [He Hu Hd Hs] Hsh Hpc Hr ->. destruct (Hs Hsh) as [_ Hin]. unfold in_step in Hin. rewrite Hpc in Hin.
  destruct Hin as (_ & _ & Hse & Hre). destruct (echo_prefix _ He) as [lost Hl].
  rewrite Hl, Hd, Hse, Hre, <-!app_assoc in Hu. simpl in Hu. apply app_inv_head in Hu.
  apply (f_equal (take 4)) in Hu. rewrite take_app_le in Hu by done.
  rewrite <-Hu. by apply take_ge.
Qed.

Lemma next_in_step s i :
  (i ≤ ops)%nat → pc s = next ops i → trips s = Z.of_nat i → sent s = stream c i →
  received s = stream c i → in_step s.
Proof.
  intros Hi Hp Ht Hs Hr. unfold in_step. rewrite Hp. unfold next. case_decide; [done|]. split; [lia|eauto].
Qed.

Lemma client_inv_step s l s' : client_inv s → step c ops s l = Some s' → client_inv s'.
Proof.
  intros Hi Hs. pose proof Hi as [He Hu Hd Hst]. unfold step in Hs. destruct l as [k|r|l].
  - destruct (pc s) as [i| |] eqn:Hpc; simplify_eq/=. case_match eqn:Hk; simplify_eq/=.
    apply bool_decide_eq_true in Hk. split; simpl; try done.
    + by rewrite Hu, app_assoc.
    + intros Hsh. destruct (Hst Hsh) as [Hw Hin]. split; [done|]. unfold in_step in *. rewrite Hpc in Hin. simpl.
      destruct Hin as (H1 & H2 & H3 & H4). case_bool_decide as H4k; simpl.
      * subst k. by rewrite take_ge, H3.
      * split; [lia|eauto].
  - destruct (pc s) as [|i|] eqn:Hpc; simplify_eq/=. case_bool_decide as Hr; simplify_eq/=.
    case_bool_decide as H0; simpl.
    + split; simpl; try done. intros Hsh. destruct (Hst Hsh) as [Hw Hin]. split; [done|].
      unfold in_step in *. rewrite Hpc in Hin. simpl. destruct Hin as (H1 & H2 & H3 & H4). split; [lia|eauto].
    + split; simpl; try done; [by rewrite <-app_assoc, take_drop|].
      intros [Hsh H4%negb_false_iff%bool_decide_eq_true]%orb_false_iff.
      pose proof (reply_is_value s i r Hi Hsh Hpc (proj2 Hr) H4) as Hv.
      destruct (Hst Hsh) as [Hw Hin]. unfold in_step in Hin. rewrite Hpc in Hin.
      destruct Hin as (H1 & H2 & H3 & Hre). rewrite Hv, !bool_decide_true by done. simpl. split; [done|].
      apply (next_in_step _ (S i)); simpl; [lia|done|lia|done|]. by rewrite Hre.
  - case_match eqn:Hg; [|by destruct (pc s)].
    assert (∃ e, Echo.step buffer_size (session s) l = Some e ∧ s' = mkState (pc s) (trips s) (wrong s) e
      (match l with Echo.ReadDone _ data => drop (length data) (up s) | _ => up s end)
      (down s ++ drop (length (Echo.written (session s))) (Echo.written e)) (sent s) (received s) (short s))
      as (e & Hes & ->).
    { destruct (Echo.step _ _ _) as [e|]; [|by destruct (pc s)]. exists e. by destruct (pc s); simplify_eq/=. }
    destruct (session_moves _ _ _ Hes) as [Hrd [w Hwr]]. split; simpl.
    + by eapply Echo.echo_inv_step.
    + rewrite Hu, Hrd. destruct l; rewrite ?app_nil_r; try done. apply bool_decide_eq_true in Hg.
      rewrite <-app_assoc. f_equal. by rewrite <-(take_drop (length data) (up s)), Hg at 1.
    + by rewrite Hwr, drop_app_length, Hd, app_assoc.
    + done.
Qed.

Lemma client_inv_reachable buf s :
  length buf = buffer_size → reachable (step c ops) (initial ops buf) s → client_inv s.
Proof.
  intros Hb. revert s. apply invariant_rule; [|apply client_inv_step]. split; simpl; try done.
  intros _. split; [done|]. apply (next_in_step _ 0); simpl; [lia|done..].
Qed.

(** The counts, however the replies came. *)
Definition counts_ok (s : state) : Prop :=
  0 ≤ wrong s ≤ trips s ∧ trips s ≤ Z.of_nat ops ∧
  match pc s with Sending i | Receiving i => trips s = Z.of_nat i ∧ (i < ops)%nat | Done => True end.

Lemma counts_reachable buf s : reachable (step c ops) (initial ops buf) s → counts_ok s.
Proof.
  unfold counts_ok. revert s. apply invariant_rule.
  { simpl. unfold next. case_decide; split_and!; lia || done. }
  intros s l s' (Hw & Ht & Hp) Hs. destruct l as [k|r|l]; unfold step in Hs.
  - destruct (pc s); simplify_eq/=. case_bool_decide; simplify_eq/=. case_bool_decide; split_and!; simpl; lia || done.
  - destruct (pc s) as [|i|]; simplify_eq/=. case_bool_decide; simplify_eq/=.
    case_bool_decide; simpl; [split_and!; lia || done|]. unfold next.
    destruct (_ || _), (decide (S i < ops)%nat); split_and!; lia || done.
  - destruct (pc s) as [i|i|]; simpl in Hs; case_match; try done; destruct (Echo.step _ _ _); by simplify_eq/=.
Qed.

(** The stream of a client that is done with all its round trips. *)
Lemma done_stream buf s :
  length buf = buffer_size → reachable (step c ops) (initial ops buf) s → pc s = Done → short s = false →
  wrong s = 0 ∧ (trips s = Z.of_nat ops → received s = stream c ops).
Proof.
  intros Hb Hr Hp Hsh. destruct (c_step _ (client_inv_reachable buf s Hb Hr) Hsh) as [Hw Hin].
  unfold in_step in Hin. rewrite Hp in Hin. destruct Hin as (_ & k & Hk & Hrc). split; [done|].
  intros Ht. assert (k = ops) as -> by lia. done.
Qed.
End client.

(** ** Theorems *)

(** A client of the echo session: however the bytes travel, as long as no [recv] came back
    short the client counts no wrong round trip, what it has received is what it sent, value
    by value, and it counts one round trip for each. The values of the benchmark's clients are
    all different, so a reply that is counted right is the reply to that very request. *)
Theorem round_trips_unchanged c ops buf s :
  length buf = buffer_size → reachable (step c ops) (initial ops buf) s → short s = false →
  wrong s = 0 ∧ (∃ k, (k ≤ ops)%nat ∧ trips s = Z.of_nat k ∧ received s = stream c k) ∧
  ∀ c' i i', 0 ≤ c → 0 ≤ c' → 0 ≤ i < 1000003 → 0 ≤ i' < 1000003 →
    c * 1000003 + i < 2 ^ 32 → c' * 1000003 + i' < 2 ^ 32 →
    bytes (value c i) = bytes (value c' i') → c = c' ∧ i = i'.
Proof.
  intros Hb Hr Hsh. destruct (c_step _ _ _ (client_inv_reachable c ops buf s Hb Hr) Hsh) as [Hw Hin].
  split; [done|split].
  - unfold in_step in Hin. destruct (pc s) as [i|i|].
    + destruct Hin as (? & ? & _ & ?). exists i. split; [lia|done].
    + destruct Hin as (? & ? & _ & ?). exists i. split; [lia|done].
    + destruct Hin as (? & k & ? & ?). exists k. split; [lia|done].
  - intros c' i i' H1 H2 H3 H4 H5 H6 Heq. apply bytes_inj in Heq; [|apply value_range..]. by apply value_inj.
Qed.

(** The verdict with [--asio]: success means that every client of both servers made all its
    round trips and none came back changed. *)
Theorem bench_verdict ops reactor plain :
  (∀ x, x ∈ reactor ++ plain → 0 ≤ x.2 ≤ x.1 ∧ x.1 ≤ ops) → length reactor = length plain →
  main true (Z.of_nat (length reactor)) ops (run_load reactor) (run_load plain) = 0 ↔
  ∀ x, x ∈ reactor ++ plain → x = (ops, 0).
Proof.
  intros Hx Hlen. unfold main, run_load; simpl.
  assert (Hbad : ∀ l, (∀ x, x ∈ l → x ∈ reactor ++ plain) → (total snd l = 0 ↔ ∀ x, x ∈ l → x.2 = 0)).
  { intros l Hl. split; [|by apply total_zero]. intros Hz x [i Hi]%list_elem_of_lookup_1.
    assert (Hp : ∀ y, y ∈ l → 0 ≤ y.2) by (intros y Hy; apply Hx; auto).
    pose proof (total_delete snd l i x Hi). pose proof (Hp x (list_elem_of_lookup_2 _ _ _ Hi)).
    assert (0 ≤ total snd (delete i l)); [|lia].
    apply total_nonneg_elem. intros y Hy. eapply Hp, list_elem_of_delete_inv, Hy. }
  assert (Htot : ∀ l, (∀ x, x ∈ l → x ∈ reactor ++ plain) → length l = length reactor →
    (total fst l = Z.of_nat (length reactor) * ops ↔ ∀ x, x ∈ l → x.1 = ops)).
  { intros l Hl <-. rewrite Z.mul_comm. apply total_full. intros x Hin. apply Hx. auto. }
  assert (Hr : ∀ x, x ∈ reactor → x ∈ reactor ++ plain) by (intros; apply elem_of_app; auto).
  assert (Hp : ∀ x, x ∈ plain → x ∈ reactor ++ plain) by (intros; apply elem_of_app; auto).
  specialize (Htot reactor Hr eq_refl) as Htr. specialize (Htot plain Hp (eq_sym Hlen)).
  pose proof (Hbad reactor Hr) as Hbr. specialize (Hbad plain Hp).
  setoid_rewrite elem_of_app. transitivity
    (total snd reactor = 0 ∧ total snd plain = 0 ∧ total fst plain = Z.of_nat (length reactor) * ops ∧
     total fst reactor = Z.of_nat (length reactor) * ops).
  - destruct (Z.eqb_spec (total snd reactor) 0), (Z.eqb_spec (total snd plain) 0),
      (Z.eqb_spec (total fst plain) (Z.of_nat (length reactor) * ops)),
      (Z.eqb_spec (total fst reactor) (Z.of_nat (length reactor) * ops)); simpl; naive_solver.
  - rewrite Hbr, Hbad, Htot, Htr. split.
    + intros (H1 & H2 & H3 & H4) x [Hin|Hin]; rewrite (surjective_pairing x).
      * by rewrite (H1 x Hin), (H4 x Hin).
      * by rewrite (H2 x Hin), (H3 x Hin).
    + intros Hall. split_and!; intros x Hin; rewrite (Hall x) by auto; done.
Qed.

(** One round trip of four bytes in two pieces, then half of the next request. *)
Definition trip : list label :=
  [Send 4; Serve (Echo.ReadDone no_error (take 3 (bytes (value 7 0)))); Serve (Echo.WriteSome 3);
   Serve (Echo.WriteDone no_error); Serve (Echo.ReadDone no_error (drop 3 (bytes (value 7 0))));
   Serve (Echo.WriteSome 1); Recv 4; Send 2].
Definition blank : list Byte.byte := replicate buffer_size Byte.x00.
Definition tripped : state := default (initial 5 blank) (exec (step 7 5) (initial 5 blank) trip).

Lemma round_trips_unchanged_witness :
  wrong tripped = 0 ∧ ∃ k, (k ≤ 5)%nat ∧ trips tripped = Z.of_nat k ∧ received tripped = stream 7 k.
Proof.
  destruct (round_trips_unchanged 7 5 blank tripped) as (H1 & H2 & _).
  - reflexivity.
  - apply (exec_reachable _ _ trip). vm_compute. reflexivity.
  - vm_compute. reflexivity.
  - split; [exact H1|exact H2].
Defined.

End Bench.
