(* ===== verification/BenchLoad.v ===== *)
(** * benchmarks/echo_bench.cc: the arguments and a whole load

    How [main] reads its arguments, and [run_load]: the threads of the clients, each with its
    session as in Bench.v, the slots they leave their counts in, the joins and the sums. *)

From Stdlib Require Import Strings.Ascii.
From S2P Require Import Prelude Net Echo Bench.

Module BenchLoad.

(** ** The arguments *)

(** [std::strtoul(s, nullptr, 10)]: leading space, a sign, digits; a number that is no [unsigned
    long] gives the largest one, and a minus sign negates in that type. *)
Definition strtoul (s : string) : Z :=
  let saturate v := Z.min v (2 ^ 64 - 1) in
  match Main.skip_space s with
  | String "-"%char s => let v := Main.digits s 0 in if v <? 2 ^ 64 then wrap64 (- v) else 2 ^ 64 - 1
  | String "+"%char s => saturate (Main.digits s 0)
  | s => saturate (Main.digits s 0)
  end.

Record config := mkConfig { plain : bool; reactors : Z; clients : Z; ops : Z }.

(** [--asio] may be anywhere, and more than once; the other arguments are taken in order. [None]
    where [std::atoi] is undefined. *)
Definition parse (argv : list string) : option config :=
  let args := filter (λ a, a ≠ "--asio"%string) argv in
  c ← match args !! 1%nat with Some a => Main.atoi a | None => Some 32 end;
  o ← match args !! 2%nat with Some a => Main.atoi a | None => Some 20000 end;
  Some (mkConfig (bool_decide ("--asio"%string ∈ argv))
    match args !! 0%nat with Some a => strtoul a | None => 4 end c o).

(** ** The threads *)

(** A client: before [connect_local] returns, in its loop, or at the end, [None] when it did not
    connect. *)
Inductive client :=
| Connecting
| Trading (s : Bench.state)
| Ended (s : option Bench.state).

Inductive mpc :=
| Spawning                           (* the loop that starts the threads *)
| Joining (c : nat)
| Returned (l : Bench.Load).

Record state := mkState {
  pc : mpc;
  threads : list client;
  done : list Z;                     (* one slot a client *)
  bad : list Z }.

Inductive label :=
| MainThread
| Connect (c : nat) (ok : bool)
| Trade (c : nat) (l : Bench.label)  (* the client, or the session that serves it *)
| Close (c : nat).

Section load.
Context (n ops : nat) (buf : list Byte.byte).

Definition main_step (s : state) : option state :=
  match pc s with
  | Spawning =>
      Some (if decide (length (threads s) < n)%nat
            then mkState Spawning (threads s ++ [Connecting]) (done s) (bad s)
            else mkState (Joining 0) (threads s) (done s) (bad s))
  | Joining c =>
      if decide (c < n)%nat then
        match threads s !! c with
        | Some (Ended _) => Some (mkState (Joining (S c)) (threads s) (done s) (bad s))
        | _ => None
        end
      else Some (mkState (Returned (Bench.run_load (zip (done s) (bad s)))) (threads s) (done s) (bad s))
  | Returned _ => None
  end.

Definition set_thread (s : state) (c : nat) (t : client) : state :=
  mkState (pc s) (<[c := t]> (threads s)) (done s) (bad s).

Definition step (s : state) (l : label) : option state :=
  match l with
  | MainThread => main_step s
  | Connect c ok =>
      match threads s !! c with
      | Some Connecting => Some (set_thread s c (if ok then Trading (Bench.initial ops buf) else Ended None))
      | _ => None
      end
  | Trade c l =>
      match threads s !! c with
      | Some (Trading x) => y ← Bench.step (Z.of_nat c) ops x l; Some (set_thread s c (Trading y))
      | _ => None
      end
  | Close c =>
      match threads s !! c with
      | Some (Trading x) =>
          match Bench.pc x with
          | Bench.Done =>
              Some (mkState (pc s) (<[c := Ended (Some x)]> (threads s)) (<[c := Bench.trips x]> (done s))
                      (<[c := Bench.wrong x]> (bad s)))
          | _ => None
          end
      | _ => None
      end
  end.

Definition initial : state := mkState Spawning [] (replicate n 0) (replicate n 0).

(** ** Invariant *)

(** What a client leaves in its slots. *)
Definition trips_of (t : client) : Z := match t with Ended (Some x) => Bench.trips x | _ => 0 end.
Definition wrong_of (t : client) : Z := match t with Ended (Some x) => Bench.wrong x | _ => 0 end.

Definition ended (t : client) : Prop := ∃ o, t = Ended o.

Definition client_ok (c : nat) (t : client) : Prop :=
  match t with
  | Connecting | Ended None => True
  | Trading x => reachable (Bench.step (Z.of_nat c) ops) (Bench.initial ops buf) x
  | Ended (Some x) => reachable (Bench.step (Z.of_nat c) ops) (Bench.initial ops buf) x ∧ Bench.pc x = Bench.Done
  end.

Record load_inv (s : state) : Prop := {
  l_done : done s = (trips_of <$> threads s) ++ replicate (n - length (threads s)) 0;
  l_bad : bad s = (wrong_of <$> threads s) ++ replicate (n - length (threads s)) 0;
  l_clients : ∀ c t, threads s !! c = Some t → client_ok c t;
  l_main : match pc s with
           | Spawning => (length (threads s) ≤ n)%nat
           | Joining j => length (threads s) = n ∧ ∀ c t, (c < j)%nat → threads s !! c = Some t → ended t
           | Returned l => length (threads s) = n ∧ (∀ c t, threads s !! c = Some t → ended t) ∧
               l = Bench.run_load (zip (done s) (bad s))
           end }.

(** A client moves on, and its slots with it. *)
Lemma load_inv_client s c t u d b :
  load_inv s → threads s !! c = Some t → client_ok c u → ¬ ended t →
  d = <[c := trips_of u]> (done s) → b = <[c := wrong_of u]> (bad s) →
  load_inv (mkState (pc s) (<[c := u]> (threads s)) d b).
Proof.
  intros [Hd Hb Hc Hm] Ht Hu Hne -> ->. pose proof (lookup_lt_Some _ _ _ Ht) as Hlt.
  split; simpl; rewrite ?length_insert.
  - by rewrite Hd, insert_app_l, list_fmap_insert by by rewrite length_fmap.
  - by rewrite Hb, insert_app_l, list_fmap_insert by by rewrite length_fmap.
  - intros c' t' [(<- & <- & _)|[_ ?]]%list_lookup_insert_Some; auto.
  - destruct (pc s) as [|j|l]; [done|..].
    + destruct Hm as [Hl Hj]. split; [done|].
      intros c' t' Hc' [(<- & <- & _)|[_ ?]]%list_lookup_insert_Some; [|eauto]. destruct Hne. eauto.
    + destruct Hm as (_ & Hj & _). destruct Hne. eauto.
Qed.

Lemma same_slots s c t u :
  load_inv s → threads s !! c = Some t → trips_of u = trips_of t → wrong_of u = wrong_of t →
  done s = <[c := trips_of u]> (done s) ∧ bad s = <[c := wrong_of u]> (bad s).
Proof.
  intros [Hd Hb _ _] Ht H1 H2. rewrite H1, H2. split; symmetry; apply list_insert_id.
  - rewrite Hd, lookup_app_l, list_lookup_fmap, Ht by (rewrite length_fmap; by eapply lookup_lt_Some). done.
  - rewrite Hb, lookup_app_l, list_lookup_fmap, Ht by (rewrite length_fmap; by eapply lookup_lt_Some). done.
Qed.

Lemma load_inv_main s s' : load_inv s → main_step s = Some s' → load_inv s'.
Proof.
  intros [Hd Hb Hc Hm] Hs. unfold main_step in Hs. destruct (pc s) as [|j|l] eqn:Hp; [..|done].
  - case_decide as Hlt; simplify_eq/=; split; simpl; try done.
    + rewrite Hd, fmap_app, <-app_assoc, length_app. simpl.
      by replace (n - length (threads s))%nat with (S (n - (length (threads s) + 1))) by lia.
    + rewrite Hb, fmap_app, <-app_assoc, length_app. simpl.
      by replace (n - length (threads s))%nat with (S (n - (length (threads s) + 1))) by lia.
    + intros c t [?|[? Ht]]%lookup_app_Some; [auto|]. by apply list_lookup_singleton_Some in Ht as [_ <-].
    + rewrite length_app. simpl. lia.
    + split; [lia|]. intros ? ? ?. lia.
  - case_decide as Hlt.
    + destruct (threads s !! j) as [[| |o]|] eqn:Hj; simplify_eq/=. destruct Hm as [Hl Hm].
      split; simpl; try done. split; [done|]. intros c t Hcj Ht.
      destruct (decide (c = j)) as [->|]; [exists o; congruence|]. apply (Hm c); [lia|done].
    + simplify_eq/=. destruct Hm as [Hl Hm]. split; simpl; try done. split_and!; [done| |done].
      intros c t Ht. apply (Hm c); [|done]. apply lookup_lt_Some in Ht. lia.
Qed.

Lemma load_inv_step s l s' : load_inv s → step s l = Some s' → load_inv s'.
Proof.
  intros Hi Hs. destruct l as [|c ok|c l|c]; simpl in Hs.
  - by eapply load_inv_main.
  - destruct (threads s !! c) as [[| |]|] eqn:Ht; simplify_eq/=.
    assert (Hu : client_ok c (if ok then Trading (Bench.initial ops buf) else Ended None))
      by (destruct ok; [constructor|done]).
    edestruct (same_slots s c Connecting (if ok then Trading (Bench.initial ops buf) else Ended None)) as [H1 H2];
      [done|done|by destruct ok..|].
    by eapply load_inv_client; [done|exact Ht|done|intros [? ?]| |].
  - destruct (threads s !! c) as [[|x|]|] eqn:Ht; simplify_eq/=.
    destruct (Bench.step _ _ _ _) as [y|] eqn:Hy; simplify_eq/=.
    edestruct (same_slots s c (Trading x) (Trading y)) as [H1 H2]; [done..|].
    eapply load_inv_client; [done|exact Ht| |by intros [? ?]|done|done].
    eapply reach_step; [exact (l_clients s Hi c _ Ht)|done].
  - destruct (threads s !! c) as [[|x|]|] eqn:Ht; simplify_eq/=. destruct (Bench.pc x) eqn:Hpc; simplify_eq/=.
    eapply load_inv_client; [done|exact Ht| |by intros [? ?]|done|done].
    split; [exact (l_clients s Hi c _ Ht)|done].
Qed.

Lemma load_inv_reachable s : reachable step initial s → load_inv s.
Proof.
  revert s. apply invariant_rule; [|exact load_inv_step]. split; simpl; [by rewrite Nat.sub_0_r..| |lia].
  intros c t Ht. by rewrite lookup_nil in Ht.
Qed.

Lemma load_sums ts :
  Bench.run_load (zip (trips_of <$> ts) (wrong_of <$> ts)) = Bench.mkLoad (total trips_of ts) (total wrong_of ts).
Proof. unfold Bench.run_load. induction ts as [|t ts IH]; [done|]. injection IH as H1 H2. simpl. f_equal; by f_equal. Qed.

(** A load that has returned. *)
Lemma returned_load s l :
  reachable step initial s → pc s = Returned l →
  length (threads s) = n ∧ (∀ c t, threads s !! c = Some t → ended t ∧ client_ok c t) ∧
  l = Bench.mkLoad (total trips_of (threads s)) (total wrong_of (threads s)).
Proof.
  intros Hr Hp. destruct (load_inv_reachable s Hr) as [Hd Hb Hc Hm]. rewrite Hp in Hm.
  destruct Hm as (Hl & He & ->). split_and!; [done|by eauto|].
  by rewrite Hd, Hb, Hl, Nat.sub_diag, !app_nil_r, load_sums.
Qed.

Lemma client_counts c t : client_ok c t → 0 ≤ wrong_of t ≤ trips_of t ∧ trips_of t ≤ Z.of_nat ops.
Proof.
  destruct t as [| |[x|]]; simpl; try lia. intros [Hr _]. destruct (Bench.counts_reachable _ _ _ _ Hr). lia.
Qed.

(** *** Theorems *)


End load.

(** [--asio] in front, between and behind; a count of reactors that is no number, a negative one. *)
Example parse_anywhere :
  parse ["--asio"; "2"; "8"; "--asio"; "100"]%string = Some (mkConfig true 2 8 100) ∧
  parse [] = Some (mkConfig false 4 32 20000) ∧
  parse ["many"]%string = Some (mkConfig false 0 32 20000) ∧
  parse ["-1"; "1"]%string = Some (mkConfig false (2 ^ 64 - 1) 1 20000).
Proof. vm_compute. done. Qed.

(** Two clients of one round trip; one does not connect. *)
Definition one_trip : list label :=
  let v := Bench.bytes (Bench.value 0 0) in
  [MainThread; MainThread; Connect 1 false; Connect 0 true; Trade 0 (Bench.Send 4);
   Trade 0 (Bench.Serve (Echo.ReadDone no_error v)); Trade 0 (Bench.Serve (Echo.WriteSome 4)); MainThread;
   Trade 0 (Bench.Recv 4); Close 0; MainThread; MainThread; MainThread].
Definition loaded : state :=
  default (initial 2) (exec (step 2 1 Bench.blank) (initial 2) one_trip).


End BenchLoad.
