(* ===== verification/EchoServer.v ===== *)
(** * examples/echo_server.cc: a whole echo server, and its shutdown

    The server of Shutdown.v whose sessions are the echo sessions of Echo.v: a session ends
    when its coroutine has, and the abort of shutdown requests its token. What the clients get
    back, and that a stop needs none of them: sessions that read end by their token, sessions
    stalled in a write end once they are forced. *)

From S2P Require Import Prelude Net Admission Accept Session System Shutdown Finish Echo.

Module EchoServer.

Section echo_server.
Context {P : Net.Platform} {A : Type} `{Bound A}.
Context (make_address : string → result Net.address).
Context (n : nat) (bind : Net.BindOptions) (port : nat → Z) (a : option A).
Context (buf : list Byte.byte).      (* what a frame's [char buf[4096]] starts with *)

(** ** The code *)

(** The server, and the coroutines of the sessions that have started, by connection. *)
Record state := mkState {
  server : Shutdown.state (A := A);
  talks : gmap nat Echo.state }.

Inductive label :=
| Server (l : Shutdown.label)
| Talk (i : nat) (l : Echo.label).   (* a read or write of connection [i]'s session *)

Definition finished (e : Echo.state) : bool :=
  match Echo.pc e with Echo.Finished _ => true | _ => false end.

(** A session ends when its coroutine has; it keeps its socket until then, and frames are
    destroyed by the phases of shutdown only. *)
Definition permitted (s : state) (l : Shutdown.label) : bool :=
  match l with
  | Shutdown.Run (System.Serve (Session.Finish i)) =>
      match talks s !! i with Some e => finished e | None => false end
  | Shutdown.Run (System.Serve (Session.CloseSocket _ | Session.Drop _)) => false
  | _ => true
  end.

Definition running (st : Session.stage) : bool :=
  match st with Session.Running _ _ => true | _ => false end.
Definition stage_of (t : Shutdown.state (A := A)) (i : nat) : option Session.stage :=
  Session.at_stage <$> Shutdown.conns t !! i.

(** The session is called: its coroutine begins. *)
Definition begin (l : Shutdown.label) (t : Shutdown.state (A := A)) (m : gmap nat Echo.state)
    : gmap nat Echo.state :=
  match l with
  | Shutdown.Run (System.Serve (Session.Start i)) =>
      match stage_of t i with
      | Some (Session.Running _ _) => <[i := Echo.initial buf]> m
      | _ => m
      end
  | _ => m
  end.

(** [abort()] requests the token the session's read takes. *)
Definition request (t : Shutdown.state (A := A)) (i : nat) (e : Echo.state) : Echo.state :=
  match stage_of t i with
  | Some (Session.Running true _) => default e (Echo.step Echo.buffer_size e Echo.RequestStop)
  | _ => e
  end.

Definition step (s : state) (l : label) : option state :=
  match l with
  | Server l =>
      if permitted s l then
        t ← Shutdown.step make_address (server s) l;
        Some (mkState t (map_imap (λ i e, Some (request t i e)) (begin l t (talks s))))
      else None
  | Talk i l =>
      e ← talks s !! i;
      st ← stage_of (server s) i;
      if Shutdown.running (Shutdown.host (server s)) && running st &&
         match l with Echo.RequestStop => false | _ => true end
      then e' ← Echo.step Echo.buffer_size e l; Some (mkState (server s) (<[i := e']> (talks s)))
      else None
  end.

Definition initial : state := mkState (Shutdown.initial n bind port a) ∅.

(** The moves that need no client: those of the server's own shutdown but for the destruction of
    frames, a session's start and end, a read that ends because its token was requested, and a
    write that fails because its connection was shut down. *)
Definition socket_shut (t : Shutdown.state (A := A)) (i : nat) : bool :=
  match Shutdown.conns t !! i with
  | Some c =>
      match Session.sockets (System.sess (Shutdown.sys t)) !! Session.descriptor c with
      | Some k => Session.socket_open c && Session.shut k
      | None => false
      end
  | None => false
  end.

Definition quiet (s : state) (l : label) : bool :=
  match l with
  | Server (Shutdown.Destroy _) => false
  | Server (Shutdown.Run (System.Serve (Session.Start _ | Session.RunPosted _ _ | Session.Finish _))) => true
  | Server l => Finish.quiet (server s) l
  | Talk i (Echo.ReadDone e data) =>
      failed e && match talks s !! i with Some x => Echo.stop x | None => false end
  | Talk i (Echo.WriteDone e) => failed e && socket_shut (server s) i
  | Talk _ _ => false
  end.

#[local] Arguments Shutdown.step : simpl never.
#[local] Arguments System.step : simpl never.
#[local] Arguments Session.step : simpl never.
#[local] Arguments Echo.step : simpl never.
#[local] Arguments exec : simpl never.

Abbreviation good := (reachable step initial).
Abbreviation leads := (leads step quiet).

(** ** The parts run as they do alone *)

Lemma server_reachable s :
  good s → reachable (Shutdown.step make_address) (Shutdown.initial n bind port a) (server s).
Proof.
  induction 1 as [|s l s' Hr IH Hs]; [constructor|]. destruct l as [l|i l]; simpl in Hs.
  - case_match; [|done]. destruct (Shutdown.step _ _ _) as [t|] eqn:Ht; simplify_eq/=. by eapply reach_step.
  - destruct (talks s !! i); simplify_eq/=. destruct (stage_of _ i); simplify_eq/=. case_match; [|done].
    by destruct (Echo.step _ _ _); simplify_eq/=.
Qed.

Lemma request_echo t i e :
  reachable (Echo.step Echo.buffer_size) (Echo.initial buf) e →
  reachable (Echo.step Echo.buffer_size) (Echo.initial buf) (request t i e).
Proof.
  intros He. unfold request. repeat case_match; try done. simpl. by eapply (reach_step _ _ e Echo.RequestStop).
Qed.

Definition talks_reachable (s : state) : Prop :=
  ∀ i e, talks s !! i = Some e → reachable (Echo.step Echo.buffer_size) (Echo.initial buf) e.

Lemma begin_lookup l t m i e :
  begin l t m !! i = Some e → m !! i = Some e ∨ e = Echo.initial buf ∧
    l = Shutdown.Run (System.Serve (Session.Start i)) ∧ ∃ ab fo, stage_of t i = Some (Session.Running ab fo).
Proof.
  intros Hb. unfold begin in Hb. repeat case_match; simplify_eq; auto.
  apply lookup_insert_Some in Hb as [[<- <-]|[_ Hb]]; eauto 10.
Qed.

Lemma good_talks s : good s → talks_reachable s.
Proof.
  revert s. apply invariant_rule; [by intros i e Hi; simpl in Hi; rewrite lookup_empty in Hi|]. intros s l s' IH Hs i e Hi.
  destruct l as [l|j l]; simpl in Hs.
  - case_match; [|done]. destruct (Shutdown.step _ _ _) as [t|]; simplify_eq/=.
    rewrite map_lookup_imap in Hi. destruct (begin l t (talks s) !! i) as [e0|] eqn:Hb; simplify_eq/=.
    apply request_echo. apply begin_lookup in Hb as [Hb|[-> _]]; [by apply (IH i)|constructor].
  - destruct (talks s !! j) as [ej|] eqn:Hj; simplify_eq/=. destruct (stage_of _ j); simplify_eq/=. case_match; [|done].
    destruct (Echo.step _ _ _) as [e'|] eqn:He; simplify_eq/=.
    apply lookup_insert_Some in Hi as [[<- <-]|[_ Hi]]; [|by apply (IH i)].
    eapply reach_step; [by apply (IH j)|done].
Qed.

(** ** The connections *)

(** A connection that has not ended holds its socket. *)
Definition holds (c : Session.conn) : Prop :=
  match Session.at_stage c with
  | Session.Unwinding | Session.Refunded | Session.Ended => True
  | _ => Session.socket_open c = true
  end.

(** What becomes of a connection, or of none, when only a start may set it running. *)
Definition kept (starts : Prop) (o : option Session.conn) (c' : Session.conn) : Prop :=
  match o with
  | Some c => (holds c → holds c') ∧
      (running (Session.at_stage c') = true → running (Session.at_stage c) = true ∨ starts)
  | None => holds c' ∧ running (Session.at_stage c') = false
  end.

Lemma kept_refl starts c : kept starts (Some c) c.
Proof. split; auto. Qed.

Lemma kept_put starts (l : list Session.conn) j d d' i c' :
  l !! j = Some d → (holds d → holds d') →
  (i = j → running (Session.at_stage d') = true → running (Session.at_stage d) = true ∨ starts) →
  <[j := d']> l !! i = Some c' → kept starts (l !! i) c'.
Proof.
  intros Hj Hh Hr Hi. apply list_lookup_insert_Some in Hi as [(<- & <- & _)|[Hne Hi]].
  - rewrite Hj. split; [done|]. by apply Hr.
  - rewrite Hi. apply kept_refl.
Qed.

Lemma kept_marks starts (l : list Session.conn) f i c' :
  (∀ c, (holds c → holds (f c)) ∧ (running (Session.at_stage (f c)) = true → running (Session.at_stage c) = true)) →
  (f <$> l) !! i = Some c' → kept starts (l !! i) c'.
Proof.
  intros Hf Hi. rewrite list_lookup_fmap, fmap_Some in Hi. destruct Hi as (c & -> & ->).
  destruct (Hf c). split; auto.
Qed.

Lemma session_kept (z z' : Session.state (A := A)) l i c' :
  Session.step z l = Some z' → (∀ j, l ≠ Session.CloseSocket j) → Session.conns z' !! i = Some c' →
  kept (l = Session.Start i) (Session.conns z !! i) c'.
Proof.
  intros Hs Hl Hi. unfold Session.step in Hs.
  destruct l as [r fd from|j|j el ok|j ok|j|j|j|j|j|j|r|r|r|fd k|fd]; try (by destruct (Hl j)).
  2-9: destruct (Session.conns z !! j) as [d|] eqn:Hj; simplify_eq/=;
    try (destruct (Session.reactors z !! Session.home d) as [x|]; simplify_eq/=);
    destruct (Session.at_stage d) eqn:Hst; simplify_eq/=;
    unfold Session.launch_session, Session.launch_here, Session.run_session, Session.unwind, Session.put,
      Session.refund, Session.set_reactor in Hi; repeat case_match; simplify_eq/=;
    (eapply kept_put; [exact Hj|..|exact Hi]; unfold holds; simpl; rewrite ?Hst; auto; by intros ->; right).
  - destruct (Session.reactors z !! r); simplify_eq/=. repeat case_match; simplify_eq/=.
    2:{ rewrite Hi. apply kept_refl. }
    all: apply lookup_app_Some in Hi as [Hi|[Hge Hi]]; [rewrite Hi; apply kept_refl|].
    all: apply list_lookup_singleton_Some in Hi as [_ <-]; rewrite lookup_ge_None_2 by done; done.
  - destruct (Session.reactors z !! r); simplify_eq/=. unfold Session.abort_all in Hi.
    case_match; simpl in Hi; rewrite Hi; apply kept_refl.
  - destruct (Session.reactors z !! r); simplify_eq/=. case_match; simplify_eq/=.
    eapply kept_marks; [|exact Hi]. intros c. cbv beta. case_match; [|done].
    unfold Session.abort, holds. destruct (Session.at_stage c) eqn:Hst; simpl; by rewrite ?Hst.
  - destruct (Session.reactors z !! r); simplify_eq/=.
    eapply kept_marks; [|exact Hi]. intros c. cbv beta. case_match; [|done].
    unfold Session.force, holds. destruct (Session.at_stage c) eqn:Hst; simpl; by rewrite ?Hst.
  - case_match; simplify_eq/=. rewrite Hi. apply kept_refl.
  - case_match; simplify_eq/=. rewrite Hi. apply kept_refl.
Qed.

(** The same of a step of the server. *)
Lemma system_kept (y y' : System.state (A := A)) l i c' :
  System.step make_address y l = Some y' → (∀ j, l ≠ System.Serve (Session.CloseSocket j)) →
  Session.conns (System.sess y') !! i = Some c' →
  kept (l = System.Serve (Session.Start i)) (Session.conns (System.sess y) !! i) c'.
Proof.
  intros Hs Hl Hi. destruct (System.step_sess _ _ _ _ Hs) as [Heq|(m & Hm & Hsv)].
  - rewrite <-Heq, Hi. apply kept_refl.
  - pose proof (session_kept _ _ _ i c' Hm) as Hk.
    assert (Hne : ∀ j, m ≠ Session.CloseSocket j) by (intros j ->; by destruct (Hl j (Hsv eq_refl))).
    specialize (Hk Hne Hi). destruct (Session.conns (System.sess y) !! i); [|done].
    destruct Hk as [H1 H2]. split; [done|]. intros H3. destruct (H2 H3) as [|Hst]; [by left|right].
    rewrite Hst in Hsv. by apply Hsv.
Qed.

(** And of the whole shutdown. *)
Lemma shutdown_kept s l t i c' :
  Shutdown.step make_address s l = Some t → (∀ j, l ≠ Shutdown.Run (System.Serve (Session.CloseSocket j))) →
  (∀ c, c ∈ Shutdown.conns s → (Session.home c < length (Shutdown.reactors s))%nat) →
  Shutdown.conns t !! i = Some c' →
  kept (l = Shutdown.Run (System.Serve (Session.Start i))) (Shutdown.conns s !! i) c'.
Proof.
  intros Hs Hl Hhome Hi.
  assert (Hcall : ∀ y h p, Shutdown.call make_address s y h = Some t →
    (∀ j, y ≠ System.Serve (Session.CloseSocket j)) → (y = System.Serve (Session.Start i) → p) →
    kept p (Shutdown.conns s !! i) c').
  { intros y h p Hc Hy Hp. unfold Shutdown.call in Hc.
    destruct (System.step _ _ y) as [y'|] eqn:Hy'; simplify_eq/=.
    pose proof (system_kept _ _ _ i c' Hy' Hy Hi) as Hk. unfold Shutdown.conns.
    destruct (Session.conns (System.sess (Shutdown.sys s)) !! i); [|done]. destruct Hk as [H1 H2]. split; [done|]. intros H3. destruct (H2 H3); auto. }
  destruct l as [e|j|l|j]; unfold Shutdown.step in Hs.
  - assert (Hgo : ∀ h, Some (Shutdown.goto s h) = Some t → kept (Shutdown.Host e = Shutdown.Run (System.Serve (Session.Start i)))
      (Shutdown.conns s !! i) c').
    { intros h [= <-]. unfold Shutdown.conns in *. simpl in Hi. rewrite Hi. apply kept_refl. }
    unfold Shutdown.host_step in Hs.
    destruct (Shutdown.host s); simplify_option_eq; repeat case_match; simplify_option_eq;
      try (by eapply Hgo); try (by eapply Hcall).
    unfold Shutdown.conns in *. simpl in Hi. rewrite Hi. apply kept_refl.
  - case_match; [|done]. destruct (System.step _ _ _) as [y'|] eqn:Hy'; simplify_eq/=.
    pose proof (system_kept _ _ _ i c' Hy') as Hk. unfold Shutdown.conns in *. simpl in Hi.
    specialize (Hk ltac:(done) Hi). destruct (Session.conns _ !! i); [|done].
    destruct Hk as [H1 H2]. split; [done|]. intros H3. by destruct (H2 H3); [left|].
  - case_match; [|done]. eapply Hcall; [done|intros j ->; by destruct (Hl j)|by intros ->].
  - destruct (Shutdown.conns s !! j) as [c|] eqn:Hj; simplify_eq/=. case_match eqn:Hv; [|done].
    destruct (Shutdown.destroy_runs make_address s _ j c Hj Hv) as (y & d & Hy & _ & _ & Hcs & Hd).
    { apply Hhome. by eapply list_elem_of_lookup_2. }
    rewrite Hy in Hs. simplify_eq/=. unfold Shutdown.conns at 1 in Hi. simpl in Hi. rewrite Hcs in Hi.
    eapply kept_put; [exact Hj| | |exact Hi]; unfold holds; by rewrite Hd.
Qed.

(** A running session runs on unless it ends or its frame is destroyed. *)
Definition runs (l : list Session.conn) (i : nat) : Prop :=
  ∃ c, l !! i = Some c ∧ running (Session.at_stage c) = true.

Lemma runs_put l i j d d' :
  runs l i → l !! j = Some d → (i = j → running (Session.at_stage d) = true → running (Session.at_stage d') = true) →
  runs (<[j := d']> l) i.
Proof.
  intros (c & Hc & Hr) Hj Hd. destruct (decide (i = j)) as [->|Hne].
  - exists d'. rewrite list_lookup_insert_eq by (by eapply lookup_lt_Some). simplify_eq. auto.
  - exists c. by rewrite list_lookup_insert_ne.
Qed.

Lemma runs_marks l i f :
  (∀ c, running (Session.at_stage c) = true → running (Session.at_stage (f c)) = true) → runs l i → runs (f <$> l) i.
Proof. intros Hf (c & Hc & Hr). exists (f c). rewrite list_lookup_fmap, Hc. auto. Qed.

Lemma session_runs (z z' : Session.state (A := A)) l i :
  Session.step z l = Some z' → l ≠ Session.Finish i → l ≠ Session.Drop i →
  runs (Session.conns z) i → runs (Session.conns z') i.
Proof.
  intros Hs Hf Hd Hr. unfold Session.step in Hs.
  destruct l as [r fd from|j|j el ok|j ok|j|j|j|j|j|j|r|r|r|fd k|fd].
  2-10: destruct (Session.conns z !! j) as [d|] eqn:Hj; simplify_eq/=;
    try (destruct (Session.reactors z !! Session.home d) as [x|]; simplify_eq/=);
    destruct (Session.at_stage d) eqn:Hst; simplify_eq/=;
    unfold Session.launch_session, Session.launch_here, Session.run_session, Session.unwind, Session.put,
      Session.refund, Session.set_reactor; repeat case_match; simplify_eq/=;
    (eapply runs_put; [done|exact Hj|]; simpl; rewrite ?Hst; try done; by intros ->).
  - destruct (Session.reactors z !! r); simplify_eq/=. destruct Hr as (c & Hc & Hr).
    repeat case_match; simplify_eq/=; exists c; (split; [|done]); try done; by apply lookup_app_l_Some.
  - destruct (Session.reactors z !! r); simplify_eq/=. unfold Session.abort_all. by case_match.
  - destruct (Session.reactors z !! r); simplify_eq/=. case_match; simplify_eq/=.
    apply runs_marks; [|done]. intros c. case_match; [|done]. unfold Session.abort.
    by destruct (Session.at_stage c) eqn:Hst; simpl; rewrite ?Hst.
  - destruct (Session.reactors z !! r); simplify_eq/=.
    apply runs_marks; [|done]. intros c. case_match; [|done]. unfold Session.force.
    by destruct (Session.at_stage c) eqn:Hst; simpl; rewrite ?Hst.
  - case_match; by simplify_eq/=.
  - case_match; by simplify_eq/=.
Qed.

Lemma system_runs (y y' : System.state (A := A)) l i :
  System.step make_address y l = Some y' → l ≠ System.Serve (Session.Finish i) → l ≠ System.Serve (Session.Drop i) →
  runs (Session.conns (System.sess y)) i → runs (Session.conns (System.sess y')) i.
Proof.
  intros Hs Hf Hd Hr. destruct (System.step_sess _ _ _ _ Hs) as [->|(m & Hm & Hsv)]; [done|].
  apply (session_runs _ _ _ _ Hm); [| |done].
  - intros ->. by apply Hf, Hsv.
  - intros ->. by apply Hd, Hsv.
Qed.

Lemma shutdown_runs s l t i :
  Shutdown.step make_address s l = Some t → Shutdown.running (Shutdown.host s) = true →
  l ≠ Shutdown.Run (System.Serve (Session.Finish i)) → l ≠ Shutdown.Run (System.Serve (Session.Drop i)) →
  runs (Shutdown.conns s) i → runs (Shutdown.conns t) i.
Proof.
  intros Hs Hrun Hf Hd Hr.
  assert (Hcall : ∀ y h, Shutdown.call make_address s y h = Some t →
    y ≠ System.Serve (Session.Finish i) → y ≠ System.Serve (Session.Drop i) → runs (Shutdown.conns t) i).
  { intros y h Hc H1 H2. unfold Shutdown.call in Hc.
    destruct (System.step _ _ y) as [y'|] eqn:Hy'; simplify_eq/=. by apply (system_runs _ _ _ i Hy'). }
  destruct l as [e|j|l|j]; unfold Shutdown.step in Hs.
  - unfold Shutdown.host_step in Hs.
    destruct (Shutdown.host s); simplify_option_eq; repeat case_match; simplify_option_eq; try done; by eapply Hcall.
  - case_match; [|done]. destruct (System.step _ _ _) as [y'|] eqn:Hy'; simplify_eq/=. by apply (system_runs _ _ _ i Hy').
  - case_match; [|done]. eapply Hcall; [done|congruence|congruence].
  - destruct (Shutdown.conns s !! j) as [c|]; simplify_eq/=. case_match eqn:Hv; [|done].
    by destruct (Shutdown.host s), (Session.at_stage c).
Qed.

(** ** The sessions and their connections *)

Context (Hfresh : Session.fresh a).

Lemma good_shutdown s : good s → Shutdown.host_inv (server s).
Proof using Hfresh. intros Hg%server_reachable. by eapply Shutdown.host_inv_reachable. Qed.

Lemma echo_good_session s : good s → Session.session_inv (System.sess (Shutdown.sys (server s))).
Proof using Hfresh. intros Hg%server_reachable. by eapply Finish.good_session. Qed.

Lemma good_home s c :
  good s → c ∈ Shutdown.conns (server s) → (Session.home c < length (Shutdown.reactors (server s)))%nat.
Proof using Hfresh. intros Hg Hc. by apply (Session.s_conns _ (echo_good_session s Hg) c). Qed.

(** A running session has a coroutine, whose token is requested if the session was aborted; and
    a coroutine belongs to a running session or, until frames are destroyed, is finished. *)
Record talk_inv (s : state) : Prop := {
  t_holds : ∀ i c, Shutdown.conns (server s) !! i = Some c → holds c;
  t_talk : ∀ i ab fo, stage_of (server s) i = Some (Session.Running ab fo) →
    ∃ e, talks s !! i = Some e ∧ (ab = true → Echo.stop e = true);
  t_done : ∀ i e, Shutdown.running (Shutdown.host (server s)) = true → talks s !! i = Some e →
    (∃ ab fo, stage_of (server s) i = Some (Session.Running ab fo)) ∨ finished e = true }.

Lemma request_spec t i e :
  finished (request t i e) = finished e ∧ (Echo.stop e = true → Echo.stop (request t i e) = true) ∧
  (∀ fo, stage_of t i = Some (Session.Running true fo) → Echo.stop (request t i e) = true).
Proof. unfold request. repeat case_match; split_and!; try done; naive_solver. Qed.

Lemma echo_keeps_stop e l e' : Echo.step Echo.buffer_size e l = Some e' → Echo.stop e = true → Echo.stop e' = true.
Proof.
  intros Hs He. unfold Echo.step in Hs. destruct l, (Echo.pc e); simplify_eq/=; repeat case_match; simplify_eq/=; done.
Qed.

Lemma running_before s l t :
  Shutdown.step make_address s l = Some t → Shutdown.running (Shutdown.host t) = true →
  Shutdown.running (Shutdown.host s) = true.
Proof.
  intros Hs Ht. destruct (Shutdown.host s) eqn:Hh; try done; exfalso;
    destruct l as [e|j|l|j]; unfold Shutdown.step, Shutdown.host_step in Hs; rewrite Hh in Hs;
    simplify_option_eq; repeat case_match; simplify_option_eq; done.
Qed.

Lemma begin_is_Some l t m i : is_Some (m !! i) → is_Some (begin l t m !! i).
Proof. intros Hm. unfold begin. repeat case_match; try done. by apply lookup_insert_is_Some'; right. Qed.

Lemma stage_running t i :
  (∃ ab fo, stage_of t i = Some (Session.Running ab fo)) ↔ runs (Shutdown.conns t) i.
Proof.
  unfold stage_of, runs. split.
  - intros (ab & fo & Hs). apply fmap_Some in Hs as (c & Hc & Hst). exists c. by rewrite <-Hst.
  - intros (c & -> & Hr). simpl. destruct (Session.at_stage c); try done. eauto.
Qed.

Lemma talk_inv_server s l s' : good s → talk_inv s → step s (Server l) = Some s' → talk_inv s'.
Proof using Hfresh.
  intros Hg [Hh Ht Hd] Hs. simpl in Hs. destruct (permitted s l) eqn:Hp; [|done].
  destruct (Shutdown.step _ _ _) as [t|] eqn:Hst; simplify_eq/=.
  assert (Hk : ∀ i c', Shutdown.conns t !! i = Some c' →
    kept (l = Shutdown.Run (System.Serve (Session.Start i))) (Shutdown.conns (server s) !! i) c').
  { intros i c'. apply (shutdown_kept _ _ _ _ _ Hst); [by intros j ->|]. intros c. by apply good_home. }
  split; simpl.
  - intros i c' Hi. pose proof (Hk i c' Hi) as Hk'.
    destruct (Shutdown.conns (server s) !! i) eqn:Hc; destruct Hk' as [H1 _]; eauto.
  - intros i ab fo Hi. rewrite map_lookup_imap.
    assert (is_Some (begin l t (talks s) !! i)) as [e He].
    { pose proof Hi as Hi'. apply fmap_Some in Hi' as (c' & Hc' & Hr). pose proof (Hk i c' Hc') as Hk'.
      destruct (Shutdown.conns (server s) !! i) as [c|] eqn:Hc; destruct Hk' as [_ H2]; rewrite <-Hr in H2; [|done].
      destruct (H2 eq_refl) as [Hrun| ->].
      - destruct (proj2 (stage_running (server s) i)) as (ab0 & fo0 & Hs0); [by exists c|].
        destruct (Ht i ab0 fo0 Hs0) as (e & He & _). apply begin_is_Some. eauto.
      - unfold begin. rewrite Hi. by rewrite lookup_insert_eq. }
    rewrite He. simpl. exists (request t i e). split; [done|]. intros ->.
    by eapply (request_spec t i e).
  - intros i e' Hrun Hi. rewrite map_lookup_imap in Hi.
    destruct (begin l t (talks s) !! i) as [e|] eqn:Hb; simplify_eq/=.
    rewrite (proj1 (request_spec t i e)). apply begin_lookup in Hb as [Hb|(_ & _ & Hr)]; [|by left].
    destruct (Hd i e (running_before _ _ _ Hst Hrun) Hb) as [Hr|]; [|by right].
    apply stage_running in Hr. rewrite stage_running.
    destruct (finished e) eqn:Hfin; [by right|left].
    eapply shutdown_runs; [done|by eapply running_before| |by intros ->|done].
    intros ->. simpl in Hp. by rewrite Hb, Hfin in Hp.
Qed.

Lemma talk_inv_talk s i l s' : talk_inv s → step s (Talk i l) = Some s' → talk_inv s'.
Proof.
  intros [Hh Ht Hd] Hs. simpl in Hs. destruct (talks s !! i) as [e|] eqn:He; simplify_eq/=.
  destruct (stage_of _ i) as [st|] eqn:Hst; simplify_eq/=. case_match eqn:Hg; [|done]. reflect_bools.
  destruct (Echo.step _ _ _) as [e'|] eqn:Hs'; simplify_eq/=. split; simpl; [done|..].
  - intros j ab fo Hj. destruct (Ht j ab fo Hj) as (x & Hx & Hstop).
    destruct (decide (i = j)) as [->|Hne]; [|by exists x; rewrite lookup_insert_ne].
    exists e'. rewrite lookup_insert_eq. split; [done|]. simplify_eq. intros Hab.
    eapply echo_keeps_stop; [done|auto].
  - intros j x Hrun Hj. apply lookup_insert_Some in Hj as [[<- <-]|[_ Hj]]; [|by apply Hd].
    left. destruct st; try done. eauto.
Qed.

Lemma good_talk_inv s : good s → talk_inv s.
Proof using Hfresh.
  induction 1 as [|s [l|i l] s' Hr IH Hs].
  - by split.
  - by eapply talk_inv_server.
  - by eapply talk_inv_talk.
Qed.

(** ** Every session ends *)

(** The thread has forced what was left and waits for it once more. *)
Definition forced_wait (s : state) : Prop := Shutdown.host (server s) = Shutdown.Waiting true 0 true.

(** Connection [i] alone has moved, to its end. *)
Definition ended_one (i : nat) (s t : state) : Prop :=
  forced_wait t ∧ ∃ c, Shutdown.conns (server t) = <[i := c]> (Shutdown.conns (server s)) ∧
    Session.at_stage c = Session.Ended.

(** A step of the sessions, and what is left to do after it. *)
Lemma serve_moves s m z i c Q :
  good s → forced_wait s → System.served m = true → Session.shuts_down m = false →
  permitted s (Shutdown.Run (System.Serve m)) = true → quiet s (Server (Shutdown.Run (System.Serve m))) = true →
  Session.step (System.sess (Shutdown.sys (server s))) m = Some z →
  Session.conns z = <[i := c]> (Shutdown.conns (server s)) →
  (∀ t, good t → forced_wait t → Shutdown.conns (server t) = <[i := c]> (Shutdown.conns (server s)) → leads t Q) →
  leads s Q.
Proof.
  intros Hg Hh Hm Hsd Hp Hq Hz Hc Hk. set (l := Shutdown.Run (System.Serve m)).
  set (sv := Shutdown.mkState (System.mkState (Shutdown.loops (server s)) z) (Shutdown.host (server s))
    (Shutdown.posted (server s))).
  set (t := mkState sv (map_imap (λ i e, Some (request sv i e)) (begin l sv (talks s)))).
  assert (Hs : step s (Server l) = Some t).
  { unfold step, l. rewrite Hp. unfold Shutdown.step, Shutdown.call. rewrite Hh. simpl. rewrite Hsd. simpl.
    rewrite (Shutdown.serve_step make_address _ m z Hm Hz). simpl. unfold t, sv. by rewrite Hh. }
  apply (leads_step _ _ s (Server l) t); [done..|]. apply Hk; [by eapply reach_step|done|done].
Qed.

Lemma ended_one_trans i c s t u :
  Shutdown.conns (server t) = <[i := c]> (Shutdown.conns (server s)) → ended_one i t u → ended_one i s u.
Proof.
  intros Ht (Hw & d & Hd & Hst). split; [done|]. exists d. split; [|done].
  by rewrite Hd, Ht, list_insert_insert_eq.
Qed.

(** After which the connection is still to end. *)
Lemma serve_then s m z i c :
  good s → forced_wait s → System.served m = true → Session.shuts_down m = false →
  permitted s (Shutdown.Run (System.Serve m)) = true → quiet s (Server (Shutdown.Run (System.Serve m))) = true →
  Session.step (System.sess (Shutdown.sys (server s))) m = Some z →
  Session.conns z = <[i := c]> (Shutdown.conns (server s)) → (i < length (Shutdown.conns (server s)))%nat →
  (∀ t, good t → forced_wait t → Shutdown.conns (server t) !! i = Some c → leads t (ended_one i t)) →
  leads s (ended_one i s).
Proof.
  intros Hg Hh Hm Hsd Hp Hq Hz Hc Hlt Hk. eapply serve_moves; [done..|]. intros t Ht Hht Hct.
  eapply leads_bind; [done|apply (Hk t Ht Hht)|].
  - rewrite Hct. by apply list_lookup_insert_eq.
  - intros u Hu Heu. apply leads_now. by eapply ended_one_trans.
Qed.

(** What a cancelled read and a write to a connection that was shut down fail with. *)
Definition any_error : error_code := Net.sys 125.

Section one.
Context (i : nat).

Lemma refunded_ends s c :
  good s → forced_wait s → Shutdown.conns (server s) !! i = Some c →
  Session.at_stage c = Session.Refunded → leads s (ended_one i s).
Proof using Hfresh.
  intros Hg Hh Hc Hst. destruct (lookup_lt_is_Some_2 _ _ (good_home s c Hg (list_elem_of_lookup_2 _ _ _ Hc))) as [x Hx].
  eapply (serve_moves s (Session.Release i)); try done.
  - unfold Session.step. setoid_rewrite Hc. simpl. setoid_rewrite Hx. simpl. by rewrite Hst.
  - reflexivity.
  - intros t Ht Hht Hct. apply leads_now. split; [done|]. eexists. by split.
Qed.

Lemma unwinding_ends s c :
  good s → forced_wait s → Shutdown.conns (server s) !! i = Some c →
  Session.at_stage c = Session.Unwinding → leads s (ended_one i s).
Proof using Hfresh.
  intros Hg Hh Hc Hst. eapply (serve_then s (Session.Refund i)); try done.
  - unfold Session.step. setoid_rewrite Hc. simpl. by rewrite Hst.
  - reflexivity.
  - by eapply lookup_lt_Some.
  - intros t Ht Hht Hct. by eapply refunded_ends.
Qed.

Lemma finished_ends s c ab fo e :
  good s → forced_wait s → Shutdown.conns (server s) !! i = Some c →
  Session.at_stage c = Session.Running ab fo → talks s !! i = Some e → finished e = true →
  leads s (ended_one i s).
Proof using Hfresh.
  intros Hg Hh Hc Hst He Hf. eapply (serve_then s (Session.Finish i)); try done.
  - simpl. by rewrite He.
  - unfold Session.step. setoid_rewrite Hc. simpl. by rewrite Hst.
  - reflexivity.
  - by eapply lookup_lt_Some.
  - intros t Ht Hht Hct. by eapply unwinding_ends.
Qed.

(** The walks have reached every reactor. *)
Lemma walked_forced s r x :
  good s → forced_wait s → Shutdown.reactors (server s) !! r = Some x →
  Session.walked_ x = true ∧ Session.forced_ x = true.
Proof using Hfresh.
  intros Hg Hh Hx. pose proof (good_shutdown s Hg) as Hi. pose proof (lookup_lt_Some _ _ _ Hx) as Hlt. split.
  - pose proof (Shutdown.h_abort _ Hi r x Hx) as Hw. rewrite Hh in Hw. simpl in Hw. by rewrite decide_True in Hw.
  - apply (Shutdown.h_forced _ Hi r x Hx). by rewrite Hh.
Qed.

Lemma home_reactor s c :
  good s → Shutdown.conns (server s) !! i = Some c →
  ∃ x, Shutdown.reactors (server s) !! Session.home c = Some x.
Proof using Hfresh.
  intros Hg Hc. apply lookup_lt_is_Some_2, good_home; [done|]. by eapply list_elem_of_lookup_2.
Qed.

(** The coroutine's last move. *)
Lemma talk_ends s c ab fo e l e' :
  good s → forced_wait s → Shutdown.conns (server s) !! i = Some c →
  Session.at_stage c = Session.Running ab fo → talks s !! i = Some e → l ≠ Echo.RequestStop →
  quiet s (Talk i l) = true → Echo.step Echo.buffer_size e l = Some e' → finished e' = true →
  leads s (ended_one i s).
Proof using Hfresh.
  intros Hg Hh Hc Hst He Hl Hq Hs Hf. set (t := mkState (server s) (<[i := e']> (talks s))).
  assert (Ht : step s (Talk i l) = Some t).
  { simpl. rewrite He. simpl. unfold stage_of. rewrite Hc. simpl. rewrite Hh, Hst. simpl.
    destruct l; try done; by rewrite Hs. }
  apply (leads_step _ _ s (Talk i l) t); [done..|].
  apply (finished_ends t c ab fo e'); try done; [by eapply reach_step|]. by apply lookup_insert_eq.
Qed.

Lemma running_ends s c ab fo :
  good s → forced_wait s → Shutdown.conns (server s) !! i = Some c →
  Session.at_stage c = Session.Running ab fo → leads s (ended_one i s).
Proof using Hfresh.
  intros Hg Hh Hc Hst. pose proof (good_talk_inv s Hg) as Hti.
  destruct (home_reactor s c Hg Hc) as [x Hx]. destruct (walked_forced s _ x Hg Hh Hx) as [Hw Hf].
  pose proof (list_elem_of_lookup_2 _ _ _ Hc) as Hin.
  destruct (Session.s_walks _ (echo_good_session s Hg) _ x Hx) as [_ Hwk].
  destruct (Hwk c ab fo Hin eq_refl Hst) as [H1 H2]. rewrite (H1 Hw), (H2 Hf) in *. clear H1 H2.
  destruct (t_talk s Hti i true true) as (e & He & Hstop); [unfold stage_of; rewrite Hc; simpl; by rewrite Hst|].
  specialize (Hstop eq_refl).
  destruct (Echo.pc e) as [|k sent|w] eqn:Hpc.
  - eapply (talk_ends s c true true e (Echo.ReadDone any_error [])); try done.
    + simpl. by rewrite He.
    + unfold Echo.step. rewrite Hpc. reflexivity.
    + done.
  - eapply (talk_ends s c true true e (Echo.WriteDone any_error)); try done.
    + simpl. pose proof (t_holds s Hti i c Hc) as Ho. unfold holds in Ho. rewrite Hst in Ho.
      destruct (Session.si_ok _ (Session.s_sockets _ (echo_good_session s Hg)) c Hin Ho) as (k' & Hk & _ & Hsh).
      unfold socket_shut. rewrite Hc, Hk, Ho. simpl. by apply (Hsh true).
    + unfold Echo.step. rewrite Hpc. reflexivity.
    + done.
  - eapply (finished_ends s c true true e); try done. unfold finished. by rewrite Hpc.
Qed.

Lemma spawned_ends s c :
  good s → forced_wait s → Shutdown.conns (server s) !! i = Some c →
  Session.at_stage c = Session.Spawned → leads s (ended_one i s).
Proof using Hfresh.
  intros Hg Hh Hc Hst. destruct (home_reactor s c Hg Hc) as [x Hx].
  destruct (walked_forced s _ x Hg Hh Hx) as [Hw Hf]. eapply (serve_then s (Session.Start i)); try done.
  - unfold Session.step. setoid_rewrite Hc. simpl. setoid_rewrite Hx. simpl. rewrite Hst.
    unfold Session.run_session. rewrite Hw. reflexivity.
  - reflexivity.
  - by eapply lookup_lt_Some.
  - intros t Ht Hht Hct. by eapply unwinding_ends.
Qed.

Lemma posted_ends s c :
  good s → forced_wait s → Shutdown.conns (server s) !! i = Some c →
  Session.at_stage c = Session.Posted → leads s (ended_one i s).
Proof using Hfresh.
  intros Hg Hh Hc Hst. eapply (serve_then s (Session.RunPosted i true)); try done.
  - unfold Session.step. setoid_rewrite Hc. simpl. by rewrite Hst.
  - reflexivity.
  - by eapply lookup_lt_Some.
  - intros t Ht Hht Hct. by eapply spawned_ends.
Qed.

(** Every connection there is. *)
Lemma connection_ends s c :
  good s → forced_wait s → Shutdown.conns (server s) !! i = Some c →
  Session.at_stage c = Session.Ended ∨ leads s (ended_one i s).
Proof using Hfresh.
  intros Hg Hh Hc.
  assert (Hlate : System.late c).
  { eapply System.ended_loops_late; [by eapply Shutdown.sys_reachable, server_reachable| |by eapply list_elem_of_lookup_2].
    apply (Shutdown.reaped_ended _ (good_shutdown s Hg)). by rewrite Hh. }
  destruct (Session.at_stage c) eqn:Hst; [| | | | | | |by left]; right.
  - destruct Hlate. by left.
  - destruct Hlate. by right.
  - by eapply posted_ends.
  - by eapply spawned_ends.
  - by eapply running_ends.
  - by eapply unwinding_ends.
  - by eapply refunded_ends.
Qed.

End one.

Definition all_ended (s : state) : Prop :=
  ∀ c, c ∈ Shutdown.conns (server s) → Session.at_stage c = Session.Ended.

Definition not_ended (st : Session.stage) : bool := match st with Session.Ended => false | _ => true end.

Lemma drains s : good s → forced_wait s → leads s (λ t, forced_wait t ∧ all_ended t).
Proof using Hfresh.
  apply (leads_measure _ _ initial (λ t, total (λ c, bit (not_ended (Session.at_stage c))) (Shutdown.conns (server t)))
    forced_wait).
  { intros t _ _. apply total_nonneg. intros c. apply bit_nonneg. }
  clear s. intros s Hg Hh.
  destruct (Shutdown.none not_ended (server s)) eqn:Hn.
  - left. split; [done|]. intros c Hc. pose proof (Shutdown.none_spec _ _ Hn c Hc) as Hst.
    by destruct (Session.at_stage c).
  - right. apply Finish.none_false in Hn as (i & c & Hc & Hst).
    destruct (connection_ends i s c Hg Hh Hc) as [He|Hl]; [by rewrite He in Hst|].
    eapply leads_bind; [done|exact Hl|]. intros t Ht (Hht & d & Hd & Hde). apply leads_now. split; [done|].
    rewrite Hd, (total_insert _ _ _ _ _ Hc), Hst, Hde. simpl. lia.
Qed.

(** ** The thread goes on *)

(** No session is left, and each has come to the end of its coroutine. *)
Definition over (s : state) : Prop :=
  all_ended s ∧ ∀ i e, talks s !! i = Some e → finished e = true.

Lemma ended_over s : good s → Shutdown.running (Shutdown.host (server s)) = true → all_ended s → over s.
Proof using Hfresh.
  intros Hg Hr He. split; [done|]. intros i e Hi.
  destruct (t_done s (good_talk_inv s Hg) i e Hr Hi) as [(ab & fo & Hst)|]; [|done].
  apply fmap_Some in Hst as (c & Hc & Hst). by rewrite (He c (list_elem_of_lookup_2 _ _ _ Hc)) in Hst.
Qed.

Lemma over_goes_on s e h Q :
  good s → over s → Shutdown.host_step make_address (server s) e = Some (Shutdown.goto (server s) h) →
  (∀ t, good t → over t → Shutdown.host (server t) = h → leads t Q) → leads s Q.
Proof.
  intros Hg [He Hf] Hs Hk. set (sv := Shutdown.goto (server s) h).
  set (t := mkState sv (map_imap (λ i e, Some (request sv i e)) (talks s))).
  assert (Ht : step s (Server (Shutdown.Host e)) = Some t).
  { simpl. unfold Shutdown.step. by rewrite Hs. }
  apply (leads_step _ _ s (Server (Shutdown.Host e)) t); [done..|]. apply Hk; [by eapply reach_step| |done].
  split; [done|]. intros i e' Hi. simpl in Hi. rewrite map_lookup_imap in Hi.
  destruct (talks s !! i) as [e0|] eqn:He0; simplify_eq/=. rewrite (proj1 (request_spec sv i e0)). eauto.
Qed.

Lemma over_waited s r x :
  good s → over s → Shutdown.reactors (server s) !! r = Some x → Session.wait_sessions x = Some tt.
Proof using Hfresh.
  intros Hg [He _] Hx. unfold Session.wait_sessions. rewrite (Session.s_count _ (echo_good_session s Hg) r x Hx).
  rewrite total_zero; [done|]. intros c Hc. unfold Session.counted. rewrite (He c Hc). by rewrite andb_false_r.
Qed.

Lemma over_reactors s : good s → length (Shutdown.reactors (server s)) = n.
Proof. intros Hg%server_reachable. by eapply Finish.good_reactors. Qed.

Lemma over_waits s r :
  good s → over s → Shutdown.host (server s) = Shutdown.Waiting true r true →
  leads s (λ t, over t ∧ Shutdown.host (server t) = Shutdown.Joining true).
Proof using Hfresh.
  intros Hg Ho Hh. remember (n - r)%nat as k eqn:Hk. revert s r Hk Hg Ho Hh.
  induction k as [|k IH]; intros s r Hk Hg Ho Hh.
  - eapply (over_goes_on s false (Shutdown.Joining true)); [done|done| |by intros t _ ? ?; apply leads_now].
    unfold Shutdown.host_step. by rewrite Hh, (over_reactors s Hg), decide_False by lia.
  - destruct (lookup_lt_is_Some_2 (Shutdown.reactors (server s)) r) as [x Hx]; [rewrite over_reactors; [lia|done]|].
    eapply (over_goes_on s false (Shutdown.Waiting true (S r) true)); [done|done| |].
    + unfold Shutdown.host_step. rewrite Hh, (over_reactors s Hg), decide_True by lia. rewrite Hx. simpl.
      by rewrite (over_waited s r x Hg Ho Hx).
    + intros t Ht Hot Hht. apply (IH t (S r)); [lia|done..].
Qed.

Lemma over_none s p : over s → p Session.Ended = false → Shutdown.none p (server s) = true.
Proof.
  intros [He _] Hp. apply forallb_forall. intros c Hc%list_elem_of_In. by rewrite (He c Hc), Hp.
Qed.

Lemma over_gone s d :
  good s → over s → Shutdown.host (server s) = Shutdown.Joining d →
  leads s (λ t, over t ∧ Shutdown.host (server t) = Shutdown.Gone).
Proof.
  intros Hg Ho Hh.
  eapply (over_goes_on s false Shutdown.Closing); [done|done| |].
  { unfold Shutdown.host_step. by rewrite Hh, over_none. }
  clear s d Hg Ho Hh. intros s Hg Ho Hh. eapply (over_goes_on s false Shutdown.Destroying); [done|done| |].
  { unfold Shutdown.host_step. by rewrite Hh, over_none. }
  clear s Hg Ho Hh. intros s Hg Ho Hh. eapply (over_goes_on s false Shutdown.Unloading); [done|done| |].
  { unfold Shutdown.host_step. by rewrite Hh, over_none. }
  clear s Hg Ho Hh. intros s Hg Ho Hh. eapply (over_goes_on s false Shutdown.Gone); [done|done| |].
  { unfold Shutdown.host_step. by rewrite Hh, over_none. }
  intros t _ Hot Hht. by apply leads_now.
Qed.

(** ** Quiet runs of the server alone *)

Lemma quiet_lifts s l t :
  Finish.quiet (server s) l = true → Shutdown.step make_address (server s) l = Some t →
  Shutdown.running (Shutdown.host (server s)) = true →
  ∃ u, step s (Server l) = Some u ∧ server u = t ∧ quiet s (Server l) = true.
Proof.
  intros Hq Hs Hr.
  assert (Hp : permitted s l = true) by by destruct l as [| |[| | | |[]]|].
  assert (quiet s (Server l) = true) as ->.
  { destruct l as [| |[| | | |[]]|i]; try done. unfold Shutdown.step in Hs.
    destruct (Shutdown.conns _ !! i) as [c|]; [|done]. simpl in Hs. by destruct (Shutdown.host (server s)). }
  unfold step. rewrite Hp, Hs. simpl. by eexists.
Qed.

Lemma lift_leads s (Q : Shutdown.state → Prop) :
  (∀ t, Q t → Shutdown.running (Shutdown.host t) = true) →
  Prelude.leads (Shutdown.step make_address) Finish.quiet (server s) Q → leads s (λ t, Q (server t)).
Proof.
  intros HQ (ls & t & He & Ht). specialize (HQ t Ht).
  apply (exec_ind_l _ (λ sv, Shutdown.running (Shutdown.host sv) = true ∧
    ∀ s, server s = sv → leads s (λ t, Q (server t))) t) in He; [by apply He| |].
  - split; [done|]. intros u <-. by apply leads_now.
  - intros sv l u Hu [Hr IH]. unfold only in Hu. destruct (Finish.quiet sv l) eqn:Hq; [|done].
    pose proof (running_before _ _ _ Hu Hr). split; [done|]. intros v <-.
    destruct (quiet_lifts v l u Hq Hu) as (w & Hw & Hu' & Hqw); [done|].
    eapply leads_step; [exact Hqw|exact Hw|by apply IH].
Qed.

(** ** Theorems *)

Definition drained (t : state) : Prop :=
  Z.of_nat (length (Shutdown.conns (server t))) < 2 ^ 64 →
  Shutdown.host (server t) = Shutdown.Gone ∧ over t.

Lemma forcing_drains s : good s → Shutdown.host (server s) = Shutdown.Forcing 0 → leads s drained.
Proof using Hfresh.
  intros Hg Hh. eapply leads_bind; [done| |].
  { apply (lift_leads s (λ t, Shutdown.host t = Shutdown.Waiting true 0 true)); [by intros t ->|].
    eapply Finish.forces; [by apply server_reachable|done]. }
  clear s Hg Hh. intros s Hg Hh. eapply leads_bind; [done|by apply drains|].
  clear s Hg Hh. intros s Hg [Hh He]. eapply leads_bind; [done|eapply over_waits; [done| |exact Hh]|].
  { apply ended_over; [done|by rewrite Hh|done]. }
  clear s Hg Hh He. intros s Hg [Ho Hh]. eapply leads_bind; [done|by eapply over_gone|].
  intros t _ [Hot Hht]. apply leads_now. by intros _.
Qed.

Lemma joining_drains s : good s → Shutdown.host (server s) = Shutdown.Joining true → leads s drained.
Proof using Hfresh.
  intros Hg Hh. destruct (decide (Z.of_nat (length (Shutdown.conns (server s))) < 2 ^ 64)) as [Hb|Hb].
  - eapply leads_bind; [done|eapply over_gone; [done| |exact Hh]|].
    + apply ended_over; [done|by rewrite Hh|]. intros c Hc.
      apply (Shutdown.h_drained _ (good_shutdown s Hg) Hb c Hc). rewrite Hh. simpl. by apply good_home.
    + intros t _ [Hot Hht]. apply leads_now. by intros _.
  - apply leads_now. by intros ?.
Qed.

Lemma serving_drains s : good s → Shutdown.host (server s) = Shutdown.Serving → leads s drained.
Proof using Hfresh.
  intros Hg Hh. eapply leads_bind; [done| |].
  { apply (lift_leads s (λ t, Shutdown.host t = Shutdown.Waiting false 0 true)); [by intros t ->|].
    eapply Finish.serving_reaped; [done|by apply server_reachable|done]. }
  clear s Hg Hh. intros s Hg Hh. eapply leads_bind; [done| |].
  { apply (lift_leads s (λ t, ∃ d', Shutdown.host t = if d' || false then Shutdown.Joining d' else Shutdown.Forcing 0)).
    { intros t [[] ->]; done. }
    eapply Finish.waits; [by apply server_reachable|exact Hh]. }
  clear s Hg Hh. intros s Hg [[] Hh]; [by apply joining_drains|by apply forcing_drains].
Qed.

(** C4: A serving echo server can always be stopped with every session at its own end: from any state
    in which it serves, whatever its clients have sent or left unread, there are moves that need no client
    (the thread of [stop()], the loops, posted handlers, reads that end by their token, writes that fail
    on a connection shut down, expired graces) and destroy no frame, after which the server is gone, each
    connection has ended and each session that began has left [echo_session] (while fewer than 2^64
    connections were made; the count of sessions wraps after that). *)
Theorem echo_server_drains s :
  reachable step initial s → Shutdown.host (server s) = Shutdown.Serving →
  ∃ ls t, exec (only step quiet) s ls = Some t ∧
    (Z.of_nat (length (Shutdown.conns (server t))) < 2 ^ 64 →
     Shutdown.host (server t) = Shutdown.Gone ∧
     (∀ c, c ∈ Shutdown.conns (server t) → Session.at_stage c = Session.Ended) ∧
     ∀ i e, talks t !! i = Some e → finished e = true).
Proof using Hfresh. exact (serving_drains s). Qed.

(** C19: in every state of the server, each session has written back the first of the bytes it read,
    at most a buffer behind, and all of them while it reads and when it has ended without a failed
    write; and until shutdown destroys frames, a session whose connection has ended has left its
    coroutine and shut down sending. *)
Theorem echo_server_returns_input s i e :
  reachable step initial s → length buf = Echo.buffer_size → talks s !! i = Some e →
  (∃ lost, Echo.read e = Echo.written e ++ lost ∧ (length lost ≤ Echo.buffer_size)%nat ∧
     (Echo.pc e = Echo.Reading ∨ Echo.pc e = Echo.Finished false → lost = [])) ∧
  (Shutdown.running (Shutdown.host (server s)) = true → stage_of (server s) i = Some Session.Ended →
   Echo.shutdown_send e = true).
Proof using Hfresh.
  intros Hg Hb Hi. pose proof (good_talks s Hg i e Hi) as He.
  split; [by apply (Echo.echo_lost Echo.buffer_size buf)|].
  intros Hr Hst. destruct (t_done s (good_talk_inv s Hg) i e Hr Hi) as [(ab & fo & Hst')|Hf]; [congruence|].
  rewrite (Echo.e_shutdown _ _ (Echo.echo_inv_reachable _ _ _ Hb He)). unfold finished in Hf. by case_match.
Qed.

End echo_server.

(** One reactor, one connection; its client has sent two bytes, takes none back and is stalled. *)
Definition start : state := initial 1 Net.default_bind (λ _, 80) System.one.
Definition stalling : list label :=
  (Server <$> Shutdown.serving) ++ [Talk 0 (Echo.ReadDone no_error [Byte.x61; Byte.x62]); Talk 0 (Echo.WriteSome 1)].
Definition stalled : state := default start (exec (step (P := Net.linux) System.any_address Echo.blank) start stalling).

Lemma stalled_reachable : reachable (step (P := Net.linux) System.any_address Echo.blank) start stalled.
Proof. apply (exec_reachable _ _ stalling). vm_compute. reflexivity. Qed.

Lemma echo_server_drains_witness :
  (finished <$> talks stalled !! 0%nat) = Some false ∧
  ∃ ls t, exec (only (step (P := Net.linux) System.any_address Echo.blank) quiet) stalled ls = Some t ∧
    (Z.of_nat (length (Shutdown.conns (server t))) < 2 ^ 64 →
     Shutdown.host (server t) = Shutdown.Gone ∧
     (∀ c, c ∈ Shutdown.conns (server t) → Session.at_stage c = Session.Ended) ∧
     ∀ i e, talks t !! i = Some e → finished e = true).
Proof.
  split; [vm_compute; reflexivity|].
  apply (echo_server_drains (P := Net.linux) System.any_address 1 Net.default_bind (λ _, 80) System.one Echo.blank).
  - apply Shutdown.one_fresh.
  - apply stalled_reachable.
  - vm_compute. reflexivity.
Defined.

Lemma echo_server_returns_input_witness :
  ∃ e lost, talks stalled !! 0%nat = Some e ∧ Echo.read e = Echo.written e ++ lost ∧ length lost = 1%nat.
Proof.
  assert (∃ e, talks stalled !! 0%nat = Some e ∧ length (Echo.read e) = 2%nat ∧ length (Echo.written e) = 1%nat)
    as (e & He & H2 & H1) by (eexists; split; [vm_compute; reflexivity|split; reflexivity]).
  destruct (echo_server_returns_input (P := Net.linux) System.any_address 1 Net.default_bind (λ _, 80) System.one
    Echo.blank Shutdown.one_fresh stalled 0 e stalled_reachable) as [(lost & Hl & _) _]; [reflexivity|exact He|].
  exists e, lost. split; [exact He|]. split; [exact Hl|]. apply (f_equal length) in Hl.
  rewrite length_app in Hl. lia.
Defined.

End EchoServer.
